(* ===== verification/_CoqProject ===== *)
-Q . S2P
Prelude.v
Order.v
Keys.v
Hlc.v
Txn.v
Bloom.v
Files.v
WalBatch.v
WalLog.v
WalRecovery.v
GroupCommit.v
SkipList.v
MemTable.v
Manager.v
Cache.v
SSTable.v
SSTableSpec.v
Manifest.v
Heap.v
MergeIter.v
Compaction.v
CompactionSpec.v
Limits.v
Levels.v
Lsm.v
LsmSpec.v
LsmRefine.v
Raft.v
RaftSpec.v
RaftTimer.v
Db.v
DbSpec.v
DbReads.v
Transport.v
Node.v
NodeLive.v
NodeCrash.v
DbCrash.v
NodeClose.v
NodeLives.v
Cmd.v
Ycsb.v
