(* ===== verification/Prelude.v ===== *)
(** * Stratum: a verification development for the key-value store

    Stratum is a key-value store in Go.  A database ([db.go]) logs writes through a group
    committer, keeps them in memtables, flushes these to sorted tables of an LSM tree and
    compacts the tables in the background.  A storage node serves a database over gRPC, a
    compute node runs a transaction per client call on top of it, and a Raft module is
    there for replication, which the nodes do not use yet.

    ** Files

    The first column is the file, the second the code under [src/] it models.

    - Prelude: outcomes of Go code, machine integers, slices, byte order, list lemmas
    - Order: the interface [KeyOrder]; sorted association lists, the abstract maps
    - Keys: [internal/mvcc/key.go]
    - Hlc: [internal/hlc/hlc.go]
    - Txn: [internal/mvcc/txn.go], [TxnManager] and [Txn], and interleaved clients
    - Bloom: [internal/bloom/bloom.go]
    - Files: the files of package [os], with faults and durability
    - WalBatch, WalLog, WalRecovery, GroupCommit: [internal/wal/batch.go], [format.go],
      [writer.go] and [reader.go], [recovery.go], [group_commit.go]
    - SkipList, MemTable, Manager: [internal/memtable/skiplist.go] and [iterator.go],
      [memtable.go], [manager.go]
    - Cache, SSTable: [internal/sstable/cache.go], and [format.go], [writer.go],
      [reader.go], [iterator.go]; SSTableSpec is what a table holds
    - Manifest: [internal/lsm/manifest.go], [level.go]
    - Heap, MergeIter: [container/heap] of Go, [internal/lsm/merge_iterator.go]
    - Compaction: [internal/lsm/compaction.go]; CompactionSpec is what it keeps
    - Limits: [internal/lsm/rate_limiter.go], [metrics.go]
    - Lsm: [internal/lsm/lsm.go], [write_stall.go]; Levels, LsmSpec and LsmRefine hold
      the invariant of the levels, what the tree stores, and the tree as a map
    - Raft: [internal/raft/raft.go], [wal.go]; RaftSpec is the safety of a cluster,
      RaftTimer the timers and the loop of a node in time
    - Db: [db.go], [options.go]; DbSpec is the invariant of the database and what is
      promised to writers, DbReads what is promised to readers
    - Transport: [internal/transport/server.go], [client.go], [client_api.go], [grpc.go],
      with the interface [Storage] of what the services use of the database and its laws
    - Node: the database behind the server, one call after the other among the steps of its
      goroutines; NodeLive is that calls return, NodeCrash what is left after a crash,
      DbCrash the same for calls that overlap, NodeClose what is left after [Close],
      NodeLives any number of starts, stops and crashes on one directory
    - Cmd: [cmd/storage/main.go], [cmd/compute/main.go], [cmd/client/main.go]
    - Ycsb: [test/bench/ycsb.go], with the buffers that driver and database share

    ** How code is modelled

    A Go function is a function with the same name, in a [Module] for its package or
    file where names clash.  A call that can fail returns an [outcome]: a value, an
    error, a panic of the run time, or [Fuel] when the bound given to a loop of the model
    is used up; theorems say that the outcome is [Ok], so fuel never hides a result.  The
    bounds are lengths the loop cannot exceed (of the block, the file, the index, the
    heap), and the theorems on all inputs show that they are enough.  Methods that change
    a receiver pass its state, in the monad [st] where many calls do.  An integer is [Z]
    with its conversions ([u64], [i64], [u32]) written where the code can wrap.  A byte
    slice is [list byte], or [option bytes] where the code tells [nil] from empty.

    Goroutines are step functions on the shared state: an event is what one goroutine
    does between two points at which it can block or be overtaken (a lock, a channel
    operation, a condition variable), and runs are arbitrary lists of events.  That is so
    for transactions, the group committer, the memtable manager, the rate limiter, a Raft
    cluster and the database.

    Third-party code is a parameter: the hash of the Bloom filter ([murmur3.Sum128], of
    which nothing is assumed), LZ4 (the class [Lz4]: decompressing gives back what was
    compressed), the random draws of the skip list, the clocks, gRPC (a call is delivered
    or its request or response is lost) and the bytes of protobuf messages.

    ** What is proved

    - Codecs: keys, batches, log records, manifest edits and tables are read back as they
      were written; decoders end on all inputs without a panic; a log cut at any byte is
      read, and recovered, as the longest prefix of whole records.
    - Order: [CompareKeys] is a total order, clock readings increase, and the first of two
      conflicting transactions wins.
    - Maps: skip list, memtable, cache, table, merge iterator and tree refine maps.  The
      tree does so for keys that are not rewritten, and a compaction keeps every lookup
      when the tables of the first level agree; a compaction keeps what active snapshots
      read.
    - Writing: group commit answers each request once and in order, and what it has
      acknowledged is in the log after a crash, as long as the log is within one block;
      the manager loses no write in any interleaving.
    - The database: every read answers with the value of its key after a prefix of the
      applied writes that has all those before the call; an acknowledged write was logged,
      synced and applied; opening after a crash gives the batches that are whole.
    - Raft: one leader per term without restarts; [AppendEntries] and
      [advanceCommitIndex] on every input.
    - The store as a whole: the client API is a map over any storage that keeps the laws of
      one (the class [StorageLaws]), and a database keeps them whatever its goroutines do
      before, during and after the calls.  So the client API over a database is a map; on a
      working disk its calls can return; a storage node can be stopped and started, and the
      machine may stop in the middle of any step, any number of times, and the answers of
      all its lives are still those of one map, in which a call that was not answered may
      have had its effect (for logs of one block, writes that fit in one memtable, and logs
      that do not end in a part of a header); when calls overlap, whatever was acknowledged
      is there after a crash, in an order that the calls allow; a storage node that is told
      to stop can end; and the client command prints what was put.
    - Bounds: the rate limiter grants at most the burst and the refills, caches stay within
      their capacity, a Raft node that wins no election starts one in every stretch of the
      longest election timeout and at most one in every stretch of the shortest.

    Some theorems state where the code falls short: writes fail for ever after the first
    flush, a burst of writes deadlocks with the flush and so does
    a [Close] with a flush pending, the rotation of the log removes
    writes that are only in memory, a compaction revives overwritten values,
    a flush after a restart overwrites a table, a crash may exchange two writes made at the
    same time, a torn header of a log record makes writes acknowledged after the restart
    disappear, the benchmark driver overwrites the values it has stored, an elected Raft
    leader blocks on its own mutex, a restarted voter votes twice, a delayed [AppendEntries] drops committed entries, and
    the storage may keep the older of two committed writes.

    ** Not modelled

    - The set up of gRPC servers and connections: the [Start...] functions and
      [NewStorageClient] succeed or fail, and the [Close] of a connection is a parameter of
      [client_Close].  Flags are arguments of the commands.
    - [proto/]: the messages are records of the models; their encoding is in code that
      [protoc] generates and in the run time of protobuf, and [wire] says what the receiver
      gets of a field.
    - [DB] behind the benchmark driver is a map from keys to buffers, as the driver sees it.
    - The timers of several Raft nodes at once: in RaftSpec an election of a node may begin
      at any time, RaftTimer is about one node and whatever it is sent.
    - Lookups in a tree that has been closed: the results of reading a closed file.
    - The race detector's view of memory: a field that is read without its lock is read
      in one step.  Failures of reads of table files after they were opened. *)

From Stdlib Require Import Strings.Byte Strings.String.
From Stdlib Require Export ZArith Lia Sorting.Sorted.
From stdpp Require Export prelude gmap list.

Export String.StringSyntax.

#[export] Set Default Goal Selector "!".

Declare Scope go_scope.
Delimit Scope go_scope with go.
Open Scope go_scope.

(** ** Outcomes of Go code

    A call returns a value, returns an [error], panics at run time (an index or
    slice expression out of range), or, in the model only, exhausts the fuel
    given to a loop.  Theorems that a call succeeds are stated as [= Ok _], so
    neither [Panic] nor [Fuel] can satisfy them. *)

Inductive outcome (E A : Type) : Type :=
| Ok (a : A)
| Err (e : E)
| Panic
| Fuel.
Arguments Ok {E A} a.
Arguments Err {E A} e.
Arguments Panic {E A}.
Arguments Fuel {E A}.

#[export] Instance outcome_ret {E} : MRet (outcome E) := fun A a => Ok a.
#[export] Instance outcome_bind {E} : MBind (outcome E) := fun A B f m =>
  match m with
  | Ok a => f a
  | Err e => Err e
  | Panic => Panic
  | Fuel => Fuel
  end.

Lemma outcome_bind_ok {E A B} (m : outcome E A) (f : A -> outcome E B) b :
  (m ≫= f) = Ok b <-> exists a, m = Ok a /\ f a = Ok b.
Proof.
  split.
  - destruct m as [a|e| |]; simpl; intros Hm; try discriminate. by exists a.
  - by intros (a & -> & Ha).
Qed.

#[export] Instance Ok_inj {E A} : Inj (=) (=) (@Ok E A).
Proof. by intros ?? [= ->]. Qed.

(** ** Stateful calls

    [st E S A]: a method on an object of type [S]; the object keeps the changes
    made before an error or a panic. *)

Definition st (E S A : Type) : Type := S -> S * outcome E A.

#[export] Instance st_ret {E S} : MRet (st E S) := fun A a s => (s, Ok a).
#[export] Instance st_bind {E S} : MBind (st E S) := fun A B f m s =>
  match m s with
  | (s, Ok a) => f a s
  | (s, Err e) => (s, Err e)
  | (s, Panic) => (s, Panic)
  | (s, Fuel) => (s, Fuel)
  end.

Definition lift {E S A} (m : outcome E A) : st E S A := fun s => (s, m).
Definition throw {E S A} (e : E) : st E S A := fun s => (s, Err e).
Definition gets {E S A} (f : S -> A) : st E S A := fun s => (s, Ok (f s)).
Definition modify {E S} (f : S -> S) : st E S unit := fun s => (f s, Ok tt).

Lemma st_bind_ok {E S A B} (m : st E S A) (f : A -> st E S B) s s' a :
  m s = (s', Ok a) -> (m ≫= f) s = f a s'.
Proof. intros H. unfold mbind, st_bind. by rewrite H. Qed.

Lemma st_bind_err {E S A B} (m : st E S A) (f : A -> st E S B) s s' e :
  m s = (s', Err e) -> (m ≫= f) s = (s', Err e).
Proof. intros H. unfold mbind, st_bind. by rewrite H. Qed.

(** ** Bytes *)

Abbreviation byte := Byte.byte.
Abbreviation bytes := (list byte).

#[export] Instance byte_eq_dec : EqDecision byte := Byte.byte_eq_dec.

Definition b2z (b : byte) : Z := Z.of_N (Byte.to_N b).
Definition z2b (z : Z) : byte := default Byte.x00 (Byte.of_N (Z.to_N (z mod 256))).

Lemma b2z_range b : (0 <= b2z b < 256)%Z.
Proof. unfold b2z. pose proof (Byte.to_N_bounded b). lia. Qed.

Lemma b2z_z2b z : b2z (z2b z) = (z mod 256)%Z.
Proof.
  unfold b2z, z2b. pose proof (Z.mod_pos_bound z 256 ltac:(lia)) as Hb.
  destruct (Byte.of_N (Z.to_N (z mod 256))) as [b|] eqn:E; simpl.
  - apply Byte.to_of_N in E. rewrite E. lia.
  - apply Byte.of_N_None_iff in E. lia.
Qed.

Lemma z2b_b2z b : z2b (b2z b) = b.
Proof.
  unfold b2z, z2b. pose proof (Byte.to_N_bounded b).
  rewrite Z.mod_small by lia. rewrite N2Z.id, Byte.of_to_N. done.
Qed.

#[export] Instance b2z_inj : Inj (=) (=) b2z.
Proof. intros a b H. rewrite <- (z2b_b2z a), H. apply z2b_b2z. Qed.

#[export] Instance byte_countable : Countable byte :=
  inj_countable' b2z z2b z2b_b2z.

(** ASCII text as bytes, for concrete inputs. *)
Definition str (s : String.string) : bytes := String.list_byte_of_string s.
Arguments str s%_string_scope.

(** ** Machine integers *)

Definition u8 (z : Z) : Z := z mod 2 ^ 8.
Definition u16 (z : Z) : Z := z mod 2 ^ 16.
Definition u32 (z : Z) : Z := z mod 2 ^ 32.
Definition u64 (z : Z) : Z := z mod 2 ^ 64.
Definition i64 (z : Z) : Z := (z + 2 ^ 63) mod 2 ^ 64 - 2 ^ 63.

Lemma i64_small z : (- 2 ^ 63 <= z < 2 ^ 63)%Z -> i64 z = z.
Proof. intros H. unfold i64. rewrite Z.mod_small; lia. Qed.

(** Length of a slice as Go's [len]: an [int]. *)
Definition len {A} (l : list A) : Z := Z.of_nat (length l).
Arguments len : simpl never.

Lemma len_nonneg {A} (l : list A) : (0 <= len l)%Z.
Proof. unfold len. lia. Qed.
Lemma len_app {A} (l k : list A) : len (l ++ k) = (len l + len k)%Z.
Proof. unfold len. rewrite length_app. lia. Qed.
Lemma len_cons {A} (x : A) l : len (x :: l) = (1 + len l)%Z.
Proof. unfold len. simpl. lia. Qed.
Lemma len_nil {A} : len (@nil A) = 0%Z.
Proof. done. Qed.

Lemma len_replicate {A} (x : A) n : len (replicate n x) = Z.of_nat n.
Proof. unfold len. by rewrite length_replicate. Qed.
Lemma len_zero_inv {A} (l : list A) : len l = 0%Z -> l = [].
Proof. unfold len. destruct l; simpl; [done|lia]. Qed.

Create Rewrite HintDb go_len.
#[export] Hint Rewrite @len_app @len_cons @len_replicate : go_len.

(** [len_lia] normalises every slice length and calls [lia]. *)
Ltac len_nils :=
  repeat match goal with
  | |- context [@len ?A []] => change (@len A []) with 0%Z
  | H : context [@len ?A []] |- _ => change (@len A []) with 0%Z in H
  end.
Ltac len_lia := autorewrite with go_len in *; len_nils; lia.

(** ** Slices of slices

    [slice l a b] is Go's [l[a:b]]; [put_at buf a bs] is
    [copy(buf[a:a+len(bs)], bs)]; [index l i] is [l[i]].  All three panic out of
    range. *)

Definition slice {E A} (l : list A) (a b : Z) : outcome E (list A) :=
  if (0 <=? a)%Z && (a <=? b)%Z && (b <=? len l)%Z
  then Ok (take (Z.to_nat (b - a)) (drop (Z.to_nat a) l))
  else Panic.

Definition put_at {E A} (buf : list A) (a : Z) (bs : list A) : outcome E (list A) :=
  if (0 <=? a)%Z && (a + len bs <=? len buf)%Z
  then Ok (take (Z.to_nat a) buf ++ bs ++ drop (Z.to_nat (a + len bs)) buf)
  else Panic.

Definition index {E A} (l : list A) (i : Z) : outcome E A :=
  if (0 <=? i)%Z then
    match l !! Z.to_nat i with Some x => Ok x | None => Panic end
  else Panic.

Lemma slice_at {E A} (l pre mid post : list A) a b :
  l = pre ++ mid ++ post -> a = len pre -> b = (len pre + len mid)%Z ->
  @slice E A l a b = Ok mid.
Proof.
  intros -> -> ->. unfold slice.
  rewrite (proj2 (Z.leb_le 0 (len pre))) by apply len_nonneg.
  rewrite (proj2 (Z.leb_le (len pre) (len pre + len mid))) by (pose proof (len_nonneg mid); lia).
  pose proof (len_nonneg post).
  rewrite (proj2 (Z.leb_le (len pre + len mid) _)) by len_lia.
  simpl. f_equal.
  replace (Z.to_nat (len pre + len mid - len pre)) with (length mid) by (unfold len; lia).
  replace (Z.to_nat (len pre)) with (length pre) by (unfold len; lia).
  by rewrite drop_app_length, take_app_length.
Qed.

Lemma slice_ok {E A} (l : list A) a b :
  (0 <= a <= b)%Z -> (b <= len l)%Z ->
  exists m, @slice E A l a b = Ok m /\ len m = (b - a)%Z.
Proof.
  intros Hab Hb. unfold slice.
  rewrite (proj2 (Z.leb_le 0 a)), (proj2 (Z.leb_le a b)), (proj2 (Z.leb_le b _)) by lia.
  eexists; split; [done|]. unfold len in *.
  rewrite length_take, length_drop. lia.
Qed.

Lemma slice_ok_inv {E A} (l m : list A) a b :
  @slice E A l a b = Ok m ->
  exists pre post, l = pre ++ m ++ post /\ a = len pre /\ b = (len pre + len m)%Z.
Proof.
  unfold slice. destruct (_ && _) eqn:Hc; [|done]. intros [= <-].
  apply andb_true_iff in Hc as [[H1 H2]%andb_true_iff H3].
  apply Z.leb_le in H1, H2, H3.
  exists (take (Z.to_nat a) l), (drop (Z.to_nat b) l).
  split; [|unfold len in *; rewrite !length_take, ?length_drop; lia].
  rewrite <- (take_drop (Z.to_nat a) l) at 1. f_equal.
  rewrite <- (take_drop (Z.to_nat (b - a)) (drop (Z.to_nat a) l)) at 1. f_equal.
  rewrite drop_drop. f_equal. lia.
Qed.

Lemma put_at_at {E A} (buf pre old post bs : list A) a :
  buf = pre ++ old ++ post -> a = len pre -> len old = len bs ->
  @put_at E A buf a bs = Ok (pre ++ bs ++ post).
Proof.
  intros -> -> Hl. unfold put_at.
  rewrite (proj2 (Z.leb_le 0 (len pre))) by apply len_nonneg.
  pose proof (len_nonneg post).
  rewrite (proj2 (Z.leb_le (len pre + len bs) _)) by len_lia.
  simpl. f_equal.
  replace (Z.to_nat (len pre)) with (length pre) by (unfold len; lia).
  rewrite take_app_length. do 2 f_equal.
  replace (Z.to_nat (len pre + len bs)) with (length pre + length old)%nat
    by (unfold len in *; lia).
  by rewrite <- drop_drop, drop_app_length, drop_app_length.
Qed.

Lemma index_at {E A} (l pre post : list A) x i :
  l = pre ++ x :: post -> i = len pre -> @index E A l i = Ok x.
Proof.
  intros -> ->. unfold index. rewrite (proj2 (Z.leb_le 0 _)) by apply len_nonneg.
  replace (Z.to_nat (len pre)) with (length pre) by (unfold len; lia).
  by rewrite list_lookup_middle.
Qed.

Lemma index_ok {E A} (l : list A) i :
  (0 <= i < len l)%Z ->
  exists x pre post, @index E A l i = Ok x /\ l = pre ++ x :: post /\ i = len pre.
Proof.
  intros Hi. unfold len in Hi.
  destruct (lookup_lt_is_Some_2 l (Z.to_nat i)) as [x Hx]; [lia|].
  exists x, (take (Z.to_nat i) l), (drop (S (Z.to_nat i)) l). split.
  - unfold index. rewrite (proj2 (Z.leb_le 0 i)) by lia. by rewrite Hx.
  - rewrite take_drop_middle by done. split; [done|].
    unfold len. rewrite length_take. lia.
Qed.

(** Reading forwards: a checked access splits what is left of the input. *)
Definition zdrop {A} (a : Z) (l : list A) : list A := drop (Z.to_nat a) l.

Lemma len_zdrop {A} a (l : list A) : (0 <= a <= len l)%Z -> len (zdrop a l) = (len l - a)%Z.
Proof. intros H. unfold len, zdrop in *. rewrite length_drop. lia. Qed.

Lemma slice_zdrop {E A} (l : list A) a b :
  (0 <= a <= b)%Z -> (b <= len l)%Z ->
  exists m, @slice E A l a b = Ok m /\ len m = (b - a)%Z /\ zdrop a l = m ++ zdrop b l.
Proof.
  intros Hab Hb. destruct (@slice_ok E A l a b Hab Hb) as (m & Hm & Hl).
  exists m. split; [done|]. split; [done|].
  destruct (slice_ok_inv _ _ _ _ Hm) as (pre & post & -> & -> & ->). unfold zdrop.
  replace (Z.to_nat (len pre)) with (length pre) by (unfold len; lia).
  replace (Z.to_nat (len pre + len m)) with (length pre + length m)%nat by (unfold len; lia).
  by rewrite <- drop_drop, !drop_app_length.
Qed.

Lemma index_zdrop {E A} (l : list A) a :
  (0 <= a < len l)%Z ->
  exists x, @index E A l a = Ok x /\ zdrop a l = x :: zdrop (a + 1) l.
Proof.
  intros Ha. destruct (@index_ok E A l a Ha) as (x & pre & post & E1 & -> & ->).
  exists x. split; [done|]. unfold zdrop.
  replace (Z.to_nat (len pre)) with (length pre) by (unfold len; lia).
  replace (Z.to_nat (len pre + 1)) with (length pre + 1)%nat by (unfold len; lia).
  by rewrite <- drop_drop, drop_app_length.
Qed.

(** Decide the comparisons that guard checked accesses. *)
Ltac ltb_false := rewrite (proj2 (Z.ltb_ge _ _)) by len_lia.
Ltac ltb_true := rewrite (proj2 (Z.ltb_lt _ _)) by len_lia.

(** Equality of concatenations up to associativity. *)
Ltac app_solve := repeat (progress (simpl; rewrite <- ?app_assoc)); done.

(** ** Fixed-width little- and big-endian codecs (encoding/binary) *)

Fixpoint put_le (n : nat) (z : Z) : bytes :=
  match n with
  | O => []
  | S n => z2b z :: put_le n (z / 256)
  end.

Fixpoint get_le (bs : bytes) : Z :=
  match bs with
  | [] => 0
  | b :: bs => b2z b + 256 * get_le bs
  end.

Definition put_be (n : nat) (z : Z) : bytes := reverse (put_le n z).
Definition get_be (bs : bytes) : Z := get_le (reverse bs).

Lemma length_put_le n z : length (put_le n z) = n.
Proof. revert z; induction n; simpl; auto. Qed.
Lemma len_put_le n z : len (put_le n z) = Z.of_nat n.
Proof. unfold len. by rewrite length_put_le. Qed.
Lemma len_put_be n z : len (put_be n z) = Z.of_nat n.
Proof. unfold len, put_be. by rewrite length_reverse, length_put_le. Qed.
#[export] Hint Rewrite len_put_le len_put_be : go_len.

Lemma get_le_put_le n z : get_le (put_le n z) = (z mod 256 ^ Z.of_nat n)%Z.
Proof.
  revert z. induction n as [|n IH]; intros z; cbn [put_le get_le].
  - by rewrite Z.mod_1_r.
  - rewrite IH, b2z_z2b, Nat2Z.inj_succ, Z.pow_succ_r by lia.
    rewrite Z.rem_mul_r by lia. done.
Qed.

Lemma get_le_range bs : (0 <= get_le bs < 256 ^ len bs)%Z.
Proof.
  induction bs as [|b bs IH]; cbn [get_le]; [done|].
  pose proof (b2z_range b). rewrite len_cons, Z.add_comm, Z.pow_add_r, Z.pow_1_r
    by (pose proof (len_nonneg bs); lia). lia.
Qed.

Lemma put_le_get_le bs : put_le (length bs) (get_le bs) = bs.
Proof.
  induction bs as [|b bs IH]; cbn [length put_le get_le]; [done|].
  pose proof (b2z_range b). f_equal.
  - rewrite <- (z2b_b2z b) at 2. unfold z2b. do 3 f_equal.
    rewrite Z.mul_comm, Z.mod_add by lia. done.
  - rewrite Z.mul_comm, Z.div_add, Z.div_small, Z.add_0_l by lia. done.
Qed.

Lemma get_be_put_be n z : get_be (put_be n z) = (z mod 256 ^ Z.of_nat n)%Z.
Proof. unfold get_be, put_be. by rewrite reverse_involutive, get_le_put_le. Qed.

Lemma get_le_put_le_small n z :
  (0 <= z < 256 ^ Z.of_nat n)%Z -> get_le (put_le n z) = z.
Proof. intros. rewrite get_le_put_le. by apply Z.mod_small. Qed.

Lemma get_le_app x y : get_le (x ++ y) = (get_le x + 256 ^ len x * get_le y)%Z.
Proof.
  induction x as [|b x IH]; cbn [app get_le].
  - len_nils. rewrite Z.pow_0_r. lia.
  - rewrite IH, len_cons, Z.pow_add_r, Z.pow_1_r by (pose proof (len_nonneg x); lia). lia.
Qed.

Lemma get_be_cons b x : get_be (b :: x) = (b2z b * 256 ^ len x + get_be x)%Z.
Proof.
  unfold get_be. rewrite reverse_cons, get_le_app. cbn [get_le].
  unfold len. rewrite length_reverse. lia.
Qed.

Lemma get_be_range bs : (0 <= get_be bs < 256 ^ len bs)%Z.
Proof.
  unfold get_be. pose proof (get_le_range (reverse bs)) as H.
  unfold len in *. by rewrite length_reverse in H.
Qed.

Lemma put_be_get_be bs : put_be (length bs) (get_be bs) = bs.
Proof.
  unfold put_be, get_be.
  rewrite <- (length_reverse bs), put_le_get_le. apply reverse_involutive.
Qed.

#[global] Opaque put_le get_le.
Arguments slice {E A} l a b : simpl never.
Arguments put_at {E A} buf a bs : simpl never.
Arguments index {E A} l i : simpl never.

(** ** Lists *)

Lemma StronglySorted_lookup {A} (R : A -> A -> Prop) l i j x y :
  StronglySorted R l -> (i < j)%nat -> l !! i = Some x -> l !! j = Some y -> R x y.
Proof.
  intros Hs. revert i j. induction Hs as [|a l Hs IH Hf]; intros [|i] [|j]; simpl; try (done || lia).
  - intros _ [= ->] Hj. rewrite Forall_forall in Hf. apply Hf.
    apply list_elem_of_lookup. eauto.
  - intros. apply (IH i j); [lia|done|done].
Qed.

Lemma filter_true {A} (P : A -> Prop) `{!forall x, Decision (P x)} (l : list A) :
  Forall P l -> filter P l = l.
Proof. induction 1; [done|]. rewrite filter_cons_True by done. by f_equal. Qed.

Lemma filter_false {A} (P : A -> Prop) `{!forall x, Decision (P x)} (l : list A) :
  Forall (fun x => ~ P x) l -> filter P l = [].
Proof. induction 1; [done|]. by rewrite filter_cons_False. Qed.
