(* ===== verification/Order.v ===== *)
(** * Key orders and sorted association lists

    The interface [KeyOrder] states what the ordered structures of the store
    (skip list, SSTable, merge iterator, levels) rely on in their comparison
    function.  [Keys] discharges it for [mvcc.CompareKeys].  The sorted
    association list developed here against the interface is the abstract map
    that those structures refine. *)

From S2P Require Import Prelude.

Class KeyOrder {K : Type} (cmp : K -> K -> comparison) : Prop := {
  ko_eq : forall a b, cmp a b = Eq <-> a = b;
  ko_opp : forall a b, cmp b a = CompOpp (cmp a b);
  ko_trans : forall a b c, cmp a b = Lt -> cmp b c = Lt -> cmp a c = Lt;
}.

Arguments ko_eq {K} cmp {_} a b.
Arguments ko_opp {K} cmp {_} a b.
Arguments ko_trans {K} cmp {_} a b c _ _.

Section order.
Context {K : Type} {cmp : K -> K -> comparison} `{!KeyOrder cmp}.
Implicit Types k : K.

Definition klt k1 k2 : Prop := cmp k1 k2 = Lt.

Lemma ko_refl k : cmp k k = Eq.
Proof. by apply (ko_eq cmp). Qed.
Lemma ko_gt k1 k2 : cmp k1 k2 = Gt <-> cmp k2 k1 = Lt.
Proof. rewrite (ko_opp cmp k1 k2). destruct (cmp k1 k2); naive_solver. Qed.
Lemma klt_irrefl k : ~ klt k k.
Proof. unfold klt. by rewrite ko_refl. Qed.
Lemma klt_ne k1 k2 : klt k1 k2 -> k1 <> k2.
Proof. intros H ->. by apply klt_irrefl in H. Qed.
Lemma klt_asym k1 k2 : klt k1 k2 -> ~ klt k2 k1.
Proof. intros H H'. apply (klt_irrefl k1). by eapply (ko_trans cmp). Qed.

#[export] Instance klt_strict : StrictOrder klt.
Proof.
  split; [intros k; apply klt_irrefl|].
  intros ???. apply (ko_trans cmp).
Qed.

#[export] Instance klt_dec k1 k2 : Decision (klt k1 k2).
Proof. unfold klt. apply _. Defined.

Lemma ko_trichotomy k1 k2 : klt k1 k2 \/ k1 = k2 \/ klt k2 k1.
Proof.
  destruct (cmp k1 k2) eqn:E; [right; left|by left|right; right].
  - by apply (ko_eq cmp).
  - by apply ko_gt.
Qed.

(** The reflexive order. *)
Definition kle k1 k2 : Prop := cmp k1 k2 <> Gt.

Lemma kle_refl k : kle k k.
Proof. unfold kle. by rewrite ko_refl. Qed.
Lemma klt_kle k1 k2 : klt k1 k2 -> kle k1 k2.
Proof. unfold klt, kle. by intros ->. Qed.
Lemma kle_klt_or_eq k1 k2 : kle k1 k2 <-> klt k1 k2 \/ k1 = k2.
Proof. unfold klt, kle. rewrite <- (ko_eq cmp). destruct (cmp k1 k2); naive_solver. Qed.
Lemma not_klt k1 k2 : ~ klt k1 k2 <-> kle k2 k1.
Proof. unfold klt, kle. rewrite (ko_opp cmp k1 k2). destruct (cmp k1 k2); naive_solver. Qed.
Lemma kle_klt_trans k1 k2 k3 : kle k1 k2 -> klt k2 k3 -> klt k1 k3.
Proof. intros [H| ->]%kle_klt_or_eq; [by apply (ko_trans cmp)|done]. Qed.
Lemma klt_kle_trans k1 k2 k3 : klt k1 k2 -> kle k2 k3 -> klt k1 k3.
Proof. intros H [H'| <-]%kle_klt_or_eq; [by eapply (ko_trans cmp)|done]. Qed.
Lemma kle_trans k1 k2 k3 : kle k1 k2 -> kle k2 k3 -> kle k1 k3.
Proof. intros [H| ->]%kle_klt_or_eq; [|done]. intros H'. by apply klt_kle, (klt_kle_trans k1 k2). Qed.

(** ** Sorted association lists *)

Section assoc.
Context {V : Type}.
Implicit Types l : list (K * V).

Definition ksorted l : Prop := StronglySorted klt l.*1.

Fixpoint assoc k l : option V :=
  match l with
  | [] => None
  | (k', v) :: l => match cmp k' k with Eq => Some v | _ => assoc k l end
  end.

Fixpoint sinsert k v l : list (K * V) :=
  match l with
  | [] => [(k, v)]
  | (k', v') :: l' =>
      match cmp k' k with
      | Lt => (k', v') :: sinsert k v l'
      | Eq => (k, v) :: l'
      | Gt => (k, v) :: l
      end
  end.

Lemma assoc_app k l1 l2 :
  assoc k (l1 ++ l2) = match assoc k l1 with Some v => Some v | None => assoc k l2 end.
Proof.
  induction l1 as [|[k' v'] l1 IH]; simpl; [done|]. by destruct (cmp k' k).
Qed.

Lemma assoc_none k l : Forall (fun k' => k' <> k) l.*1 -> assoc k l = None.
Proof.
  induction l as [|[k' v'] l IH]; simpl; [done|].
  intros [Hne Hl]%Forall_cons_1. destruct (cmp k' k) eqn:E; auto.
  by apply (ko_eq cmp) in E.
Qed.

Lemma assoc_elem k v l : assoc k l = Some v -> (k, v) ∈ l.
Proof.
  induction l as [|[k' v'] l IH]; simpl; [done|].
  destruct (cmp k' k) eqn:E; intros H; [|right; auto..].
  apply (ko_eq cmp) in E as ->. simplify_eq. left.
Qed.

Lemma elem_assoc k v l : ksorted l -> (k, v) ∈ l -> assoc k l = Some v.
Proof.
  unfold ksorted. induction l as [|[k' v'] l IH]; simpl; [by intros _ ?%elem_of_nil|].
  intros [Hs Hf]%StronglySorted_inv [H|H]%elem_of_cons.
  - simplify_eq. by rewrite ko_refl.
  - assert (klt k' k) as Hlt.
    { rewrite Forall_forall in Hf. apply Hf. apply list_elem_of_fmap. by exists (k, v). }
    rewrite Hlt. auto.
Qed.

Lemma assoc_sinsert_eq k v l : assoc k (sinsert k v l) = Some v.
Proof.
  induction l as [|[k' v'] l IH]; simpl; [by rewrite ko_refl|].
  destruct (cmp k' k) eqn:E; simpl; rewrite ?ko_refl, ?E; done.
Qed.

Lemma assoc_sinsert_ne k k2 v l : k <> k2 -> assoc k2 (sinsert k v l) = assoc k2 l.
Proof.
  intros Hne. assert (cmp k k2 <> Eq) as Hk by by rewrite (ko_eq cmp).
  induction l as [|[k' v'] l IH]; simpl; [by destruct (cmp k k2)|].
  destruct (cmp k' k) eqn:E; simpl.
  - apply (ko_eq cmp) in E as ->. by destruct (cmp k k2).
  - by destruct (cmp k' k2).
  - by destruct (cmp k k2).
Qed.

Lemma sinsert_keys k v l x : x ∈ (sinsert k v l).*1 -> x = k \/ x ∈ l.*1.
Proof.
  induction l as [|[k' v'] l IH]; simpl; [set_solver|].
  destruct (cmp k' k); simpl; set_solver.
Qed.

Lemma sinsert_sorted k v l : ksorted l -> ksorted (sinsert k v l).
Proof.
  unfold ksorted. induction l as [|[k' v'] l IH]; simpl; [repeat constructor|].
  intros [Hs Hf]%StronglySorted_inv. destruct (cmp k' k) eqn:E; simpl.
  - apply (ko_eq cmp) in E as ->. by constructor.
  - constructor; [auto|]. rewrite Forall_forall in *.
    intros x [->|Hx]%sinsert_keys; auto.
  - apply ko_gt in E. constructor; [by constructor|].
    constructor; [done|]. eapply Forall_impl; [exact Hf|].
    intros x Hx. by eapply (ko_trans cmp).
Qed.

Lemma sinsert_app k v l1 l2 :
  Forall (fun k' => klt k' k) l1.*1 ->
  sinsert k v (l1 ++ l2) = l1 ++ sinsert k v l2.
Proof.
  induction l1 as [|[k' v'] l1 IH]; simpl; [done|].
  intros [Hk Hl]%Forall_cons_1. rewrite Hk. f_equal. auto.
Qed.

Lemma ksorted_app_inv l1 l2 :
  ksorted (l1 ++ l2) -> ksorted l1 /\ ksorted l2 /\
  forall k1 k2, k1 ∈ l1.*1 -> k2 ∈ l2.*1 -> klt k1 k2.
Proof.
  unfold ksorted. rewrite fmap_app. induction (l1.*1) as [|a x IH]; simpl.
  - intros H. repeat split; [constructor|done|]. intros ?? []%elem_of_nil.
  - intros [Hs Hf]%StronglySorted_inv. rewrite Forall_app in Hf.
    destruct Hf as [Hf1 Hf2]. destruct (IH Hs) as (H1 & H2 & H3).
    repeat split; [by constructor|done|].
    intros k1 k2 [->|Hk]%elem_of_cons Hk2; [|auto].
    rewrite Forall_forall in Hf2. auto.
Qed.

Lemma ksorted_app l1 l2 :
  ksorted l1 -> ksorted l2 ->
  (forall k1 k2, k1 ∈ l1.*1 -> k2 ∈ l2.*1 -> klt k1 k2) -> ksorted (l1 ++ l2).
Proof.
  unfold ksorted. rewrite fmap_app. induction (l1.*1) as [|a x IH]; simpl; [done|].
  intros [Hs Hf]%StronglySorted_inv H2 H3. constructor.
  - apply IH; [done|done|]. intros. apply H3; [by right|done].
  - rewrite Forall_app. split; [done|]. apply Forall_forall.
    intros y Hy. apply H3; [left|done].
Qed.

Lemma ksorted_cons k v l : ksorted ((k, v) :: l) <-> ksorted l /\ forall k', k' ∈ l.*1 -> klt k k'.
Proof.
  unfold ksorted. cbn. split.
  - intros [Hs Hf]%StronglySorted_inv. by rewrite Forall_forall in Hf.
  - intros [Hs Hf]. constructor; [done|]. by apply Forall_forall.
Qed.

Lemma assoc_key k l : k ∈ l.*1 -> exists v, assoc k l = Some v.
Proof.
  induction l as [|[k' v'] l IH]; cbn; [by intros ?%elem_of_nil|]. destruct (cmp k' k) eqn:E; [by eexists|..];
    (intros [->|H]%elem_of_cons; [by rewrite ko_refl in E|auto]).
Qed.

Lemma assoc_not_in k l : assoc k l = None <-> k ∉ l.*1.
Proof.
  split.
  - intros H Hin. destruct (assoc_key k l Hin) as [v Hv]. congruence.
  - intros H. apply assoc_none, Forall_forall. intros k' Hk' ->. done.
Qed.

Lemma assoc_in k v l : assoc k l = Some v -> k ∈ l.*1.
Proof. intros H%assoc_elem. by apply (list_elem_of_fmap_2 fst) in H. Qed.

(** A sorted list is determined by its lookups. *)
Lemma ksorted_ext l1 : forall l2, ksorted l1 -> ksorted l2 -> (forall k, assoc k l1 = assoc k l2) -> l1 = l2.
Proof.
  induction l1 as [|[k1 v1] l1 IH]; intros [|[k2 v2] l2] H1 H2 He; [done| | |].
  - specialize (He k2). cbn in He. by rewrite ko_refl in He.
  - specialize (He k1). cbn in He. by rewrite ko_refl in He.
  - apply ksorted_cons in H1 as [H1 Hk1], H2 as [H2 Hk2].
    assert (k1 = k2) as ->.
    { destruct (ko_trichotomy k1 k2) as [Hlt|[?|Hlt]]; [exfalso|done|exfalso].
      - pose proof (He k1) as Hk. cbn in Hk. rewrite ko_refl in Hk. apply ko_gt in Hlt as Hgt. rewrite Hgt in Hk.
        symmetry in Hk. apply assoc_in, Hk2 in Hk. by apply (klt_asym k1 k2).
      - pose proof (He k2) as Hk. cbn in Hk. rewrite ko_refl in Hk. apply ko_gt in Hlt as Hgt. rewrite Hgt in Hk.
        apply assoc_in, Hk1 in Hk. by apply (klt_asym k2 k1). }
    pose proof (He k2) as Hk. cbn in Hk. rewrite ko_refl in Hk. injection Hk as ->. f_equal. apply IH; [done..|].
    intros k. specialize (He k). cbn in He. destruct (cmp k2 k) eqn:E; [|done..].
    apply (ko_eq cmp) in E as ->.
    rewrite !(proj2 (assoc_not_in k _)); [done|intros Hin; by apply (klt_irrefl k), Hk2|intros Hin; by apply (klt_irrefl k), Hk1].
Qed.

(** ** Unions of sorted lists: an earlier list hides the later ones. *)

Definition sunion (l acc : list (K * V)) : list (K * V) := foldr (fun e a => sinsert e.1 e.2 a) acc l.

Definition munion (ls : list (list (K * V))) : list (K * V) := foldr sunion [] ls.

Fixpoint first_assoc k (ls : list (list (K * V))) : option V :=
  match ls with
  | [] => None
  | l :: ls => match assoc k l with Some v => Some v | None => first_assoc k ls end
  end.

Lemma assoc_sunion k l acc :
  assoc k (sunion l acc) = match assoc k l with Some v => Some v | None => assoc k acc end.
Proof.
  induction l as [|[k' v'] l IH]; [done|]. cbn. destruct (cmp k' k) eqn:E.
  - apply (ko_eq cmp) in E as ->. apply assoc_sinsert_eq.
  - rewrite assoc_sinsert_ne; [done|]. intros ->. by rewrite ko_refl in E.
  - rewrite assoc_sinsert_ne; [done|]. intros ->. by rewrite ko_refl in E.
Qed.

Lemma sunion_sorted l acc : ksorted acc -> ksorted (sunion l acc).
Proof. intros Ha. induction l as [|[k v] l IH]; [done|]. by apply sinsert_sorted. Qed.

Lemma munion_sorted ls : ksorted (munion ls).
Proof. induction ls as [|l ls IH]; [constructor|]. by apply sunion_sorted. Qed.

Lemma assoc_munion k ls : assoc k (munion ls) = first_assoc k ls.
Proof. induction ls as [|l ls IH]; [done|].
  change (munion (l :: ls)) with (sunion l (munion ls)). by rewrite assoc_sunion, IH.
Qed.

Lemma first_assoc_app k ls1 ls2 :
  first_assoc k (ls1 ++ ls2) = match first_assoc k ls1 with Some v => Some v | None => first_assoc k ls2 end.
Proof. induction ls1 as [|l ls1 IH]; [done|]. cbn. by destruct (assoc k l). Qed.

Lemma first_assoc_in k v ls : first_assoc k ls = Some v -> exists l, l ∈ ls /\ k ∈ l.*1.
Proof.
  induction ls as [|l ls IH]; [done|]. cbn. destruct (assoc k l) eqn:E.
  - intros _. exists l. split; [left|by eapply assoc_in].
  - intros (l' & ? & ?)%IH. exists l'. split; [by right|done].
Qed.

Lemma first_assoc_elem k v ls : first_assoc k ls = Some v -> exists l, l ∈ ls /\ (k, v) ∈ l.
Proof.
  induction ls as [|l ls IH]; [done|]. cbn. destruct (assoc k l) eqn:E.
  - intros [= ->]. exists l. split; [left|by apply assoc_elem].
  - intros (l' & ? & ?)%IH. exists l'. split; [by right|done].
Qed.

(** The entries of a union are entries of the lists. *)
Lemma munion_elem e ls : e ∈ munion ls -> exists l, l ∈ ls /\ e ∈ l.
Proof.
  destruct e as [k v]. intros He. apply first_assoc_elem. rewrite <- assoc_munion.
  apply elem_assoc; [apply munion_sorted|done].
Qed.

Lemma length_sinsert k v l : (length (sinsert k v l) <= S (length l))%nat.
Proof. induction l as [|[k' v'] l IH]; cbn; [lia|]. destruct (cmp k' k); cbn; lia. Qed.

Lemma length_munion ls : (length (munion ls) <= length (concat ls))%nat.
Proof.
  induction ls as [|l ls IH]; [done|]. cbn [concat]. rewrite length_app.
  change (munion (l :: ls)) with (sunion l (munion ls)).
  enough (length (sunion l (munion ls)) <= length l + length (munion ls))%nat by lia.
  induction l as [|[k v] l IHl]; [done|].
  change (sunion ((k, v) :: l) (munion ls)) with (sinsert k v (sunion l (munion ls))).
  pose proof (length_sinsert k v (sunion l (munion ls))). cbn [length]. lia.
Qed.

Lemma first_assoc_none k ls : (forall l, l ∈ ls -> k ∉ l.*1) -> first_assoc k ls = None.
Proof.
  intros H. destruct (first_assoc k ls) eqn:E; [|done]. apply first_assoc_in in E as (l & Hl & Hk). by destruct (H l Hl).
Qed.

(** Lists that agree on the keys they share. *)
Definition agree (ls : list (list (K * V))) : Prop :=
  forall k l1 l2 v1 v2, l1 ∈ ls -> l2 ∈ ls -> assoc k l1 = Some v1 -> assoc k l2 = Some v2 -> v1 = v2.

Lemma first_assoc_find k l v ls : l ∈ ls -> assoc k l = Some v -> exists v', first_assoc k ls = Some v'.
Proof.
  intros Hl Hv. induction ls as [|l' ls IH]; [by apply elem_of_nil in Hl|]. cbn.
  destruct (assoc k l') eqn:E; [by eexists|]. apply elem_of_cons in Hl as [->|Hl]; [congruence|auto].
Qed.

Lemma first_assoc_from k v ls : first_assoc k ls = Some v -> exists l, l ∈ ls /\ assoc k l = Some v.
Proof.
  induction ls as [|l ls IH]; [done|]. cbn. destruct (assoc k l) eqn:E.
  - intros [= ->]. exists l. split; [left|done].
  - intros (l' & ? & ?)%IH. exists l'. split; [by right|done].
Qed.

(** The order of such lists does not matter. *)
Lemma first_assoc_agree k ls1 ls2 : agree ls1 -> (forall l, l ∈ ls1 <-> l ∈ ls2) -> first_assoc k ls1 = first_assoc k ls2.
Proof.
  intros Ha Hs. destruct (first_assoc k ls1) as [v1|] eqn:E1, (first_assoc k ls2) as [v2|] eqn:E2; [|..|done].
  - apply first_assoc_from in E1 as (l1 & H1 & E1), E2 as (l2 & H2 & E2). f_equal. eapply Ha; [..|exact E1|exact E2]; [done|by apply Hs].
  - apply first_assoc_from in E1 as (l1 & H1 & E1). apply Hs in H1. destruct (first_assoc_find _ _ _ _ H1 E1). congruence.
  - apply first_assoc_from in E2 as (l2 & H2 & E2). apply Hs in H2. destruct (first_assoc_find _ _ _ _ H2 E2). congruence.
Qed.

(** A cut of a sorted list. *)
Lemma first_assoc_concat k ls : assoc k (concat ls) = first_assoc k ls.
Proof. induction ls as [|l ls IH]; [done|]. cbn. rewrite assoc_app, IH. by destruct (assoc k l). Qed.

(** Without the entry of [k] a sorted list starts with. *)
Definition drop_key k l : list (K * V) :=
  match l with
  | (k', _) :: l' => match cmp k' k with Eq => l' | _ => l end
  | [] => []
  end.

Lemma assoc_drop_key k k' l : ksorted l -> assoc k' (drop_key k l) = assoc k' l \/ k' = k.
Proof.
  destruct l as [|[k1 v1] l]; [by left|]. intros [Hs Hk]%ksorted_cons. cbn. destruct (cmp k1 k) eqn:E; [|by left..].
  apply (ko_eq cmp) in E as ->. destruct (cmp k k') eqn:E; [right|by left..]. by apply (ko_eq cmp) in E.
Qed.

(** The least head, of the first list that has it, is the head of the union. *)
Lemma munion_step ls t k v l :
  Forall ksorted ls -> ls !! t = Some ((k, v) :: l) ->
  (forall i k' v' l', ls !! i = Some ((k', v') :: l') -> ~ klt k' k /\ (k' = k -> (t <= i)%nat)) ->
  munion ls = (k, v) :: munion (map (drop_key k) ls).
Proof.
  intros Hs Ht Hmin.
  assert (forall i l' k', ls !! i = Some l' -> k' ∈ l'.*1 -> ~ klt k' k) as Hge.
  { intros i [|[k1 v1] l'] k' Hi Hk'; [by apply elem_of_nil in Hk'|]. destruct (Hmin _ _ _ _ Hi) as [Hn _].
    eapply Forall_lookup_1 in Hs; [|exact Hi]. apply ksorted_cons in Hs as [_ Hk].
    apply elem_of_cons in Hk' as [->|Hk']; [done|]. intros Hlt. apply Hn. eapply (ko_trans cmp); [by apply Hk|done]. }
  assert (forall l' k', l' ∈ map (drop_key k) ls -> k' ∈ l'.*1 -> klt k k') as Hgt.
  { intros l' k' (l0 & -> & [i Hi]%list_elem_of_lookup)%list_elem_of_fmap Hk'.
    eapply Forall_lookup_1 in Hs as Hsi; [|exact Hi]. destruct l0 as [|[k1 v1] l0]; [by apply elem_of_nil in Hk'|].
    destruct (Hmin _ _ _ _ Hi) as [Hn _]. apply ksorted_cons in Hsi as [_ Hk]. cbn in Hk'.
    destruct (cmp k1 k) eqn:E; [apply (ko_eq cmp) in E as ->; auto|done|]. apply ko_gt in E.
    apply elem_of_cons in Hk' as [->|Hk']; [done|]. eapply (ko_trans cmp); [exact E|by apply Hk]. }
  apply ksorted_ext; [apply munion_sorted| |].
  - apply ksorted_cons. split; [apply munion_sorted|]. intros k' Hk'. apply assoc_key in Hk' as [v' Hv'].
    rewrite assoc_munion in Hv'. apply first_assoc_in in Hv' as (l' & Hl' & Hk'). by eapply Hgt.
  - intros k'. cbn. rewrite !assoc_munion. destruct (cmp k k') eqn:E.
    { apply (ko_eq cmp) in E as <-. rewrite <- (take_drop_middle ls t _ Ht), first_assoc_app. cbn.
      rewrite ko_refl. rewrite first_assoc_none; [done|].
      intros l' [i [Hi Hit]%lookup_take_Some]%list_elem_of_lookup Hin. destruct l' as [|[k1 v1] l']; [by apply elem_of_nil in Hin|].
      destruct (Hmin _ _ _ _ Hi) as [Hn Hle]. eapply Forall_lookup_1 in Hs; [|exact Hi]. apply ksorted_cons in Hs as [_ Hk].
      apply elem_of_cons in Hin as [->|Hin]; [by specialize (Hle eq_refl); lia|]. by apply Hn, Hk. }
    all: clear Ht Hmin Hge Hgt; induction Hs as [|l0 ls Hl0 Hs IH]; [done|]; cbn;
      destruct (assoc_drop_key k k' l0 Hl0) as [->| ->]; [by rewrite IH|by rewrite ko_refl in E].
Qed.
End assoc.
End order.

Arguments klt {K} cmp k1 k2 : simpl never.
Arguments kle {K} cmp k1 k2 : simpl never.
Arguments ksorted {K} cmp {V} l : simpl never.
Arguments agree {K} cmp {V} ls.
Arguments assoc {K} cmp {V} k l.
Arguments sinsert {K} cmp {V} k v l.
Arguments munion {K} cmp {V} ls.
Arguments first_assoc {K} cmp {V} k ls.
Arguments drop_key {K} cmp {V} k l.

Create HintDb korder.
#[export] Hint Resolve sinsert_sorted klt_irrefl klt_ne ko_refl : korder.
