(* ===== verification/Keys.v ===== *)
(** * MVCC keys (internal/mvcc/key.go)

    [EncodeKey] appends the bitwise inverse of the timestamp, big-endian, to the
    user key; [CompareKeys] orders the results by user key and then by
    descending timestamp.  Go's comparison results -1, 0 and +1 are [Lt], [Eq]
    and [Gt]. *)

From S2P Require Import Prelude Order.

(** [bytes.Compare]. *)
Fixpoint bytes_compare (a b : bytes) : comparison :=
  match a, b with
  | [], [] => Eq
  | [], _ :: _ => Lt
  | _ :: _, [] => Gt
  | x :: a, y :: b =>
      match Z.compare (b2z x) (b2z y) with
      | Eq => bytes_compare a b
      | c => c
      end
  end.

(** [bytes.Equal]. *)
Definition bytes_equal (a b : bytes) : bool := bool_decide (a = b).

(** [^ts] on a [uint64]. *)
Definition not64 (ts : Z) : Z := u64 (Z.lnot ts).

Module mvcc.

Definition EncodeKey (userKey : bytes) (ts : Z) : bytes :=
  userKey ++ put_be 8 (not64 ts).

Definition DecodeKey (mvccKey : bytes) : bytes * Z :=
  if (len mvccKey <? 8)%Z then (mvccKey, 0%Z)
  else
    let userKeyLen := (length mvccKey - 8)%nat in
    (take userKeyLen mvccKey, not64 (get_be (drop userKeyLen mvccKey))).

Definition UserKey (mvccKey : bytes) : bytes :=
  if (len mvccKey <? 8)%Z then mvccKey else take (length mvccKey - 8) mvccKey.

Definition CompareKeys (a b : bytes) : comparison :=
  match bytes_compare (UserKey a) (UserKey b) with
  | Eq => bytes_compare a b
  | c => c
  end.

Definition SameUserKey (a b : bytes) : bool := bytes_equal (UserKey a) (UserKey b).

End mvcc.
Import mvcc.

(** ** [bytes.Compare] is a total order *)

Lemma bytes_equal_true a b : bytes_equal a b = true <-> a = b.
Proof. apply bool_decide_eq_true. Qed.

#[export] Instance bytes_compare_order : KeyOrder bytes_compare.
Proof.
  split.
  - intros a. induction a as [|x a IH]; intros [|y b]; simpl; try done.
    destruct (Z.compare_spec (b2z x) (b2z y)) as [E|E|E].
    + apply (inj b2z) in E as ->. rewrite IH. naive_solver.
    + split; [done|]. intros [= -> ->]. lia.
    + split; [done|]. intros [= -> ->]. lia.
  - intros a. induction a as [|x a IH]; intros [|y b]; simpl; try done.
    rewrite (Z.compare_antisym (b2z x)), IH. by destruct (b2z x ?= b2z y)%Z.
  - intros a. induction a as [|x a IH]; intros [|y b] [|z c]; simpl; try done.
    destruct (Z.compare_spec (b2z x) (b2z y)) as [E|E|E]; try done;
      destruct (Z.compare_spec (b2z y) (b2z z)) as [F|F|F]; try done; intros Hab Hbc.
    + rewrite E, F, Z.compare_refl. eauto.
    + by rewrite E, (proj2 (Z.compare_lt_iff _ _) F).
    + by rewrite <- F, (proj2 (Z.compare_lt_iff _ _) E).
    + by rewrite (proj2 (Z.compare_lt_iff (b2z x) (b2z z))) by lia.
Qed.

Lemma bytes_compare_app a x y : bytes_compare (a ++ x) (a ++ y) = bytes_compare x y.
Proof. induction a; simpl; [done|]. by rewrite Z.compare_refl. Qed.

(** Big-endian strings of one length compare as the numbers they encode. *)
Lemma bytes_compare_be x y :
  length x = length y -> bytes_compare x y = Z.compare (get_be x) (get_be y).
Proof.
  revert y. induction x as [|a x IH]; intros [|b y]; simpl; try done.
  intros [= Hl]. rewrite !get_be_cons. unfold len. rewrite <- Hl. fold (len x).
  pose proof (get_be_range x) as Hx. pose proof (get_be_range y) as Hy.
  assert (len y = len x) as Hly by (unfold len; lia). rewrite Hly in Hy.
  destruct (Z.compare_spec (b2z a) (b2z b)) as [E|E|E].
  - rewrite E, IH by done. symmetry. apply Zcompare_plus_compat.
  - symmetry. apply Z.compare_lt_iff. nia.
  - symmetry. apply Z.compare_gt_iff. nia.
Qed.

(** ** Timestamps *)

Lemma not64_eq ts : (0 <= ts < 2 ^ 64)%Z -> not64 ts = (2 ^ 64 - 1 - ts)%Z.
Proof.
  intros H. unfold not64, u64. unfold Z.lnot.
  rewrite <- (Z.mod_add _ 1) by lia. rewrite Z.mod_small; lia.
Qed.

Lemma not64_range ts : (0 <= not64 ts < 2 ^ 64)%Z.
Proof. unfold not64, u64. apply Z.mod_pos_bound. lia. Qed.

Lemma not64_involutive ts : (0 <= ts < 2 ^ 64)%Z -> not64 (not64 ts) = ts.
Proof.
  intros H. rewrite (not64_eq (not64 ts)) by apply not64_range.
  rewrite not64_eq by done. lia.
Qed.

Lemma UserKey_EncodeKey uk ts : UserKey (EncodeKey uk ts) = uk.
Proof.
  unfold UserKey, EncodeKey. pose proof (len_nonneg uk).
  rewrite (proj2 (Z.ltb_ge _ _)) by len_lia.
  rewrite length_app. unfold put_be. rewrite length_reverse, length_put_le.
  replace (length uk + 8 - 8)%nat with (length uk) by lia. apply take_app_length.
Qed.

Lemma UserKey_split m :
  (8 <= len m)%Z -> exists ts, length ts = 8%nat /\ m = UserKey m ++ ts.
Proof.
  intros H. unfold UserKey. rewrite (proj2 (Z.ltb_ge _ _)) by done.
  exists (drop (length m - 8) m). unfold len in H.
  rewrite length_drop, take_drop. split; [lia|done].
Qed.

#[export] Instance CompareKeys_order : KeyOrder CompareKeys.
Proof.
  split; unfold CompareKeys.
  - intros a b. destruct (bytes_compare (UserKey a) (UserKey b)) eqn:E.
    + apply (ko_eq bytes_compare).
    + split; [done|]. intros ->. by rewrite ko_refl in E.
    + split; [done|]. intros ->. by rewrite ko_refl in E.
  - intros a b. rewrite (ko_opp bytes_compare (UserKey a)), (ko_opp bytes_compare a).
    by destruct (bytes_compare (UserKey a) (UserKey b)).
  - intros a b c.
    destruct (bytes_compare (UserKey a) (UserKey b)) eqn:E1; try done;
      destruct (bytes_compare (UserKey b) (UserKey c)) eqn:E2; try done; intros H1 H2.
    + apply (ko_eq bytes_compare) in E1, E2. rewrite E1, E2, ko_refl.
      by eapply (ko_trans bytes_compare).
    + apply (ko_eq bytes_compare) in E1. by rewrite E1, E2.
    + apply (ko_eq bytes_compare) in E2. by rewrite <- E2, E1.
    + by rewrite (ko_trans bytes_compare _ _ _ E1 E2).
Qed.

Lemma CompareKeys_encoded k1 t1 k2 t2 :
  (0 <= t1 < 2 ^ 64)%Z -> (0 <= t2 < 2 ^ 64)%Z ->
  CompareKeys (EncodeKey k1 t1) (EncodeKey k2 t2) =
  match bytes_compare k1 k2 with Eq => Z.compare t2 t1 | c => c end.
Proof.
  intros H1 H2. unfold CompareKeys. rewrite !UserKey_EncodeKey.
  destruct (bytes_compare k1 k2) eqn:E; try done.
  apply (ko_eq bytes_compare) in E as ->. unfold EncodeKey.
  rewrite bytes_compare_app, bytes_compare_be
    by (unfold put_be; by rewrite !length_reverse, !length_put_le).
  rewrite !get_be_put_be, !Z.mod_small by apply not64_range.
  rewrite !not64_eq by done.
  destruct (Z.compare_spec t2 t1) as [->|Ht|Ht].
  - apply Z.compare_refl.
  - apply Z.compare_lt_iff. lia.
  - apply Z.compare_gt_iff. lia.
Qed.

Lemma DecodeKey_EncodeKey uk ts : (0 <= ts < 2 ^ 64)%Z -> DecodeKey (EncodeKey uk ts) = (uk, ts).
Proof.
  intros Hts. pose proof (len_nonneg uk). unfold DecodeKey.
  rewrite (proj2 (Z.ltb_ge _ _)) by (unfold EncodeKey; len_lia).
  unfold EncodeKey. rewrite length_app. unfold put_be at 1 3.
  rewrite length_reverse, length_put_le.
  replace (length uk + 8 - 8)%nat with (length uk) by lia.
  rewrite take_app_length, drop_app_length, get_be_put_be, Z.mod_small
    by apply not64_range.
  by rewrite not64_involutive.
Qed.

(** ** Entries of tables and iterators: a key and its value, [None] for a tombstone *)

Abbreviation kv := (bytes * option bytes)%type.

(** The entries from [target] on. *)
Definition entries_from (target : bytes) (l : list kv) : list kv :=
  filter (fun e => ~ klt CompareKeys e.1 target) l.

(** ** Properties *)

(** [CompareKeys] is a strict total order on all byte strings, MVCC-encoded
    or raw and of any length: it returns 0 exactly on equal keys, swapping the
    arguments flips the sign, and "less than" is transitive.  Every sorted
    structure of the store relies on this. *)
Theorem CompareKeys_total_order (a b c : bytes) :
  (CompareKeys a b = Eq <-> a = b) /\
  CompareKeys b a = CompOpp (CompareKeys a b) /\
  (CompareKeys a b = Lt /\ CompareKeys b c = Lt -> CompareKeys a c = Lt).
Proof.
  split; [apply (ko_eq CompareKeys)|]. split; [apply (ko_opp CompareKeys)|].
  intros [Hab Hbc]. by eapply (ko_trans CompareKeys).
Qed.

Lemma CompareKeys_total_order_witness :
  CompareKeys (str "a") (str "b") = Lt /\ CompareKeys (str "b") (str "c") = Lt /\
  CompareKeys (str "a") (str "c") = Lt.
Proof.
  split; [reflexivity|]. split; [reflexivity|].
  apply (CompareKeys_total_order (str "a") (str "b") (str "c")). split; reflexivity.
Defined.

(** On encoded keys [CompareKeys] sorts by user key ascending and, within one
    user key, by timestamp descending, so a newer version precedes an older
    one. *)
Theorem CompareKeys_newest_first (k1 k2 : bytes) (t1 t2 : Z)
    (H1 : (0 <= t1 < 2 ^ 64)%Z) (H2 : (0 <= t2 < 2 ^ 64)%Z) :
  (CompareKeys (EncodeKey k1 t1) (EncodeKey k2 t2) = Lt <->
   bytes_compare k1 k2 = Lt \/ (k1 = k2 /\ (t2 < t1)%Z)) /\
  (SameUserKey (EncodeKey k1 t1) (EncodeKey k2 t2) = true <-> k1 = k2).
Proof.
  split.
  - rewrite CompareKeys_encoded by done. destruct (bytes_compare k1 k2) eqn:E.
    + apply (ko_eq bytes_compare) in E. rewrite Z.compare_lt_iff. naive_solver.
    + naive_solver.
    + split; [done|]. intros [?|[-> _]]; [done|]. by rewrite ko_refl in E.
  - unfold SameUserKey. rewrite !UserKey_EncodeKey. apply bytes_equal_true.
Qed.

Lemma CompareKeys_newest_first_witness :
  CompareKeys (EncodeKey (str "k") 7) (EncodeKey (str "k") 5) = Lt.
Proof.
  apply (CompareKeys_newest_first (str "k") (str "k") 7 5); [lia|lia|].
  right. split; [reflexivity|lia].
Defined.

(** Decoding inverts encoding for every user key and 64-bit timestamp, and
    every key of at least eight bytes is the encoding of what it decodes to; a
    shorter key decodes to itself with timestamp 0. *)
Theorem EncodeKey_DecodeKey_roundtrip (uk m : bytes) (ts : Z)
    (Hts : (0 <= ts < 2 ^ 64)%Z) :
  DecodeKey (EncodeKey uk ts) = (uk, ts) /\
  ((8 <= len m)%Z -> EncodeKey (DecodeKey m).1 (DecodeKey m).2 = m) /\
  ((len m < 8)%Z -> DecodeKey m = (m, 0%Z)).
Proof.
  split; [by apply DecodeKey_EncodeKey|split].
  - intros Hm. unfold DecodeKey. rewrite (proj2 (Z.ltb_ge _ _)) by done. simpl.
    unfold EncodeKey. rewrite not64_involutive.
    + replace 8%nat with (length (drop (length m - 8) m)) at 2
        by (rewrite length_drop; unfold len in Hm; lia).
      rewrite put_be_get_be. apply take_drop.
    + pose proof (get_be_range (drop (length m - 8) m)) as Hr.
      replace (len (drop (length m - 8) m)) with 8%Z in Hr
        by (unfold len in *; rewrite length_drop; lia). lia.
  - intros Hm. unfold DecodeKey. by rewrite (proj2 (Z.ltb_lt _ _)).
Qed.

Lemma EncodeKey_DecodeKey_roundtrip_witness :
  DecodeKey (EncodeKey (str "ab") 12345) = ((str "ab"), 12345%Z).
Proof. apply (EncodeKey_DecodeKey_roundtrip (str "ab") [] 12345). lia. Defined.
