(* ===== verification/Hlc.v ===== *)
(** * Hybrid logical clock (internal/hlc/hlc.go)

    [Clock] keeps the wall time in milliseconds ([int64]) and a logical counter
    ([uint32]).  The reading of [time.Now().UnixMilli()] is an argument of each
    operation.  A timestamp is [wall << 16 | logical]: the counter has 32 bits
    but only 16 of them fit below the wall time. *)

From S2P Require Import Prelude.

Module hlc.

Record Clock := mkClock { wall : Z; logical : Z }.

Definition NewClock : Clock := mkClock 0 0.

Definition stamp_of (c : Clock) : Z :=
  Z.lor (u64 (Z.shiftl (u64 (wall c)) 16)) (logical c).

Definition Now (now : Z) (c : Clock) : Clock * Z :=
  let c' := if (wall c <? now)%Z then mkClock now 0
            else mkClock (wall c) (u32 (logical c + 1)) in
  (c', stamp_of c').

Definition Update (now remote : Z) (c : Clock) : Clock :=
  let remoteWall := i64 (Z.shiftr remote 16) in
  let remoteLogical := Z.land remote 65535 in
  if (wall c <? now)%Z && (remoteWall <? now)%Z then mkClock now 0
  else if (now <=? wall c)%Z && (remoteWall <=? wall c)%Z then
    let l := if (wall c =? remoteWall)%Z && (logical c <? remoteLogical)%Z
             then remoteLogical else logical c in
    mkClock (wall c) (u32 (l + 1))
  else if (now <=? remoteWall)%Z && (wall c <=? remoteWall)%Z then
    mkClock remoteWall (u32 (remoteLogical + 1))
  else c.

End hlc.
Import hlc.

Arguments Now now c : simpl never.
Arguments Update now remote c : simpl never.
Arguments stamp_of c : simpl never.

(** Physical readings and wall times that fit the 48 bits of a timestamp. *)
Definition time_ok (t : Z) : Prop := (0 <= t < 2 ^ 48)%Z.

(** The clock as a pair compared lexicographically. *)
Definition stamp (c : Clock) : Z := wall c * 2 ^ 16 + logical c.
Arguments stamp c : simpl never.

(** No timestamp of a clock with this invariant spills into the wall bits;
    [n] bounds the logical counter. *)
Definition clock_ok (n : Z) (c : Clock) : Prop :=
  time_ok (wall c) /\ (0 <= logical c <= n)%Z.

Lemma stamp_of_stamp c :
  time_ok (wall c) -> (0 <= logical c < 2 ^ 16)%Z -> stamp_of c = stamp c.
Proof.
  intros Hw Hl. unfold stamp_of, stamp, time_ok, u64 in *.
  rewrite (Z.mod_small (wall c)) by lia.
  rewrite Z.shiftl_mul_pow2, Z.mod_small by lia.
  rewrite <- Z.lxor_lor, <- Z.add_nocarry_lxor; [done| |];
    (apply Z.bits_inj'; intros i Hi; rewrite Z.land_spec, Z.bits_0;
     destruct (Z.lt_ge_cases i 16);
     [rewrite Z.mul_pow2_bits_low by lia; done|
      rewrite (Z.bits_above_log2 (logical c)); [apply andb_false_r|lia|]];
     destruct (decide (logical c = 0%Z)) as [->|]; [simpl; lia|];
     apply Z.log2_lt_pow2; [lia|]; eapply Z.lt_le_trans; [apply Hl|];
     apply Z.pow_le_mono_r; lia).
Qed.

Lemma stamp_of_range c : clock_ok (2 ^ 16 - 1) c -> (0 <= stamp_of c < 2 ^ 64)%Z.
Proof.
  intros [Hw Hl]. rewrite stamp_of_stamp by (done || lia).
  unfold stamp, time_ok in *. lia.
Qed.

(** One reading advances the clock and returns its new stamp. *)
Lemma Now_spec n now c :
  time_ok now -> clock_ok n c -> (n + 1 < 2 ^ 16)%Z ->
  clock_ok (n + 1) (Now now c).1 /\
  (stamp c < stamp (Now now c).1)%Z /\
  (Now now c).2 = stamp (Now now c).1.
Proof.
  intros Ht [Hw Hl] Hn. unfold Now.
  destruct (Z.ltb_spec (wall c) now) as [E|E]; cbn [fst snd].
  - repeat split; cbn [wall logical]; try (done || apply Ht || lia).
    + unfold stamp. cbn. lia.
    + apply stamp_of_stamp; cbn; [done|lia].
  - assert (u32 (logical c + 1) = (logical c + 1)%Z) as El
      by (unfold u32; apply Z.mod_small; lia).
    rewrite El. repeat split; cbn [wall logical]; try (done || apply Hw || lia).
    + unfold stamp. cbn. lia.
    + apply stamp_of_stamp; cbn; [done|lia].
Qed.

(** Receiving a remote stamp moves the clock past both clocks. *)
Lemma Update_spec n now r c :
  time_ok now -> clock_ok n c -> (n + 1 < 2 ^ 16)%Z ->
  (0 <= r < 2 ^ 64)%Z -> (Z.land r 65535 <= n)%Z ->
  clock_ok (n + 1) (Update now r c) /\
  (stamp c < stamp (Update now r c))%Z /\ (r < stamp (Update now r c))%Z.
Proof.
  intros Ht [Hw Hl] Hn Hr Hrl. unfold Update, time_ok in *.
  pose proof (Z.div_mod r (2 ^ 16) ltac:(lia)) as Hdiv.
  pose proof (Z.mod_pos_bound r (2 ^ 16) ltac:(lia)) as Hmod.
  assert (Z.land r 65535 = (r mod 2 ^ 16)%Z) as Eland
    by (change 65535%Z with (Z.ones 16); by rewrite Z.land_ones by lia).
  assert (i64 (Z.shiftr r 16) = (r / 2 ^ 16)%Z) as Ewall.
  { rewrite Z.shiftr_div_pow2 by lia. unfold i64.
    assert (0 <= r / 2 ^ 16 < 2 ^ 48)%Z.
    { split; [apply Z.div_pos; lia|apply Z.div_lt_upper_bound; lia]. }
    rewrite Z.mod_small by lia. lia. }
  rewrite Eland in *. rewrite Ewall.
  assert (0 <= r / 2 ^ 16 < 2 ^ 48)%Z
    by (split; [apply Z.div_pos; lia|apply Z.div_lt_upper_bound; lia]).
  set (rw := (r / 2 ^ 16)%Z) in *. set (rl := (r mod 2 ^ 16)%Z) in *.
  assert (forall l, (0 <= l <= n)%Z -> u32 (l + 1) = (l + 1)%Z) as El
    by (intros; unfold u32; apply Z.mod_small; lia).
  unfold clock_ok, time_ok, stamp.
  destruct (Z.ltb_spec (wall c) now), (Z.ltb_spec rw now),
    (Z.leb_spec now (wall c)), (Z.leb_spec rw (wall c)), (Z.leb_spec now rw),
    (Z.leb_spec (wall c) rw), (Z.eqb_spec (wall c) rw),
    (Z.ltb_spec (logical c) rl); cbn [andb wall logical]; rewrite ?El by lia; lia.
Qed.

(** ** Sequences of readings *)

Fixpoint readings (times : list Z) (c : Clock) : Clock * list Z :=
  match times with
  | [] => (c, [])
  | t :: times =>
      let '(c, ts) := Now t c in
      let '(c, l) := readings times c in (c, ts :: l)
  end.

Lemma readings_spec times : forall n c,
  Forall time_ok times -> clock_ok n c -> (n + len times < 2 ^ 16)%Z ->
  StronglySorted Z.lt (readings times c).2 /\
  Forall (fun ts => stamp c < ts)%Z (readings times c).2.
Proof.
  induction times as [|t times IH]; intros n c Ht Hc Hn; [repeat constructor|].
  apply Forall_cons in Ht as [Ht Hts]. rewrite len_cons in Hn.
  pose proof (len_nonneg times).
  destruct (Now_spec n t c) as (Hc' & Hlt & Heq); [done|done|lia|].
  cbn [readings]. destruct (Now t c) as [c' ts]. cbn [fst snd] in *.
  destruct (IH (n + 1)%Z c') as [Hs Hf]; [done|done|lia|].
  destruct (readings times c') as [c'' l]. cbn [snd] in *. subst ts.
  split; [by constructor|]. constructor; [done|].
  eapply Forall_impl; [exact Hf|]. simpl. lia.
Qed.

Lemma NewClock_ok : clock_ok 0 NewClock.
Proof. unfold clock_ok, time_ok. simpl. lia. Qed.

(** ** Properties *)

(** For fewer than 2^16 readings of a fresh clock, whatever the physical
    clock returns (repeating or running backwards), the timestamps returned by
    [Now] are strictly increasing, hence unique. *)
Theorem Now_strictly_increasing (times : list Z)
    (Ht : Forall time_ok times) (Hn : (len times < 2 ^ 16)%Z) :
  StronglySorted Z.lt (readings times NewClock).2.
Proof. apply (readings_spec times 0 NewClock); [done|apply NewClock_ok|lia]. Qed.

Lemma Now_strictly_increasing_witness :
  StronglySorted Z.lt (readings [10; 10; 7; 20]%Z NewClock).2.
Proof.
  apply Now_strictly_increasing; [|vm_compute; reflexivity].
  repeat constructor; unfold time_ok; lia.
Defined.

(** After [Update] with a remote timestamp, the next [Now] returns a value
    greater than the remote timestamp and than every timestamp the local clock
    stood at, provided neither logical counter is at the end of its 16 bits. *)
Theorem Update_then_Now_dominates (now now' r n : Z) (c : Clock)
    (Ht : time_ok now) (Ht' : time_ok now') (Hc : clock_ok n c)
    (Hr : (0 <= r < 2 ^ 64)%Z) (Hrl : (Z.land r 65535 <= n)%Z)
    (Hn : (n + 2 < 2 ^ 16)%Z) :
  let ts := (Now now' (Update now r c)).2 in (r < ts)%Z /\ (stamp_of c < ts)%Z.
Proof.
  destruct (Update_spec n now r c) as (Hok & H1 & H2); [done|done|lia|done|done|].
  destruct (Now_spec (n + 1) now' (Update now r c)) as (_ & H3 & ->);
    [done|done|lia|].
  destruct Hc as [Hw Hl]. rewrite (stamp_of_stamp c) by (done || lia). lia.
Qed.

Lemma Update_then_Now_dominates_witness :
  ((9 * 2 ^ 16 + 3) < (Now 5 (Update 5 (9 * 2 ^ 16 + 3) (mkClock 5 2))).2)%Z.
Proof.
  apply (Update_then_Now_dominates 5 5 (9 * 2 ^ 16 + 3) 3);
    unfold clock_ok, time_ok; repeat split; vm_compute; congruence.
Defined.

(** The 16-bit field is not protected against overflow of the 32-bit counter.
    When the physical clock stands still for 2^16 + 1 readings, the last
    timestamp repeats the first one. *)
Theorem Now_counter_overflow_repeats :
  let stamps := (readings (replicate (Z.to_nat (2 ^ 16 + 1)) 1%Z) NewClock).2 in
  (head stamps, last stamps) = (Some 65536%Z, Some 65536%Z).
Proof. vm_compute. reflexivity. Qed.
