(* ===== verification/Txn.v ===== *)
(** * Transactions (internal/mvcc/txn.go)

    [TxnManager] and [Txn] with their operations, and the system of clients that
    interleave them.  [Begin] reads the clock before it takes the manager's
    lock, so it is two steps of the system, [Begin_clock] and [Begin_register];
    every other operation runs under the lock and is one step.  The iteration
    order of a Go map is irrelevant to each loop: [elements] stands for it. *)

From S2P Require Import Prelude Order Keys Hlc.
Import hlc.

Module txn.

Record Txn := mkTxn { SnapshotTS : Z; writeSet : gset bytes }.

Record TxnManager := mkTM {
  clock : Clock;
  activeTxns : gset Z;
  latestCommits : gmap bytes Z;
}.

Definition NewTxnManager (c : Clock) : TxnManager := mkTM c ∅ ∅.

Definition Begin_clock (now : Z) (tm : TxnManager) : TxnManager * Z :=
  let '(c, ts) := Now now (clock tm) in
  (mkTM c (activeTxns tm) (latestCommits tm), ts).

Definition Begin_register (ts : Z) (tm : TxnManager) : TxnManager * Txn :=
  (mkTM (clock tm) ({[ts]} ∪ activeTxns tm) (latestCommits tm), mkTxn ts ∅).

Definition Begin (now : Z) (tm : TxnManager) : TxnManager * Txn :=
  let '(tm, ts) := Begin_clock now tm in Begin_register ts tm.

Definition MinActiveSnapshot (now : Z) (tm : TxnManager) : TxnManager * Z :=
  let '(c, minTS) := Now now (clock tm) in
  (mkTM c (activeTxns tm) (latestCommits tm),
   foldl (fun m ts => if (ts <? m)%Z then ts else m) minTS (elements (activeTxns tm))).

Definition conflicts (t : Txn) (tm : TxnManager) : bool :=
  existsb (fun key =>
    match latestCommits tm !! key with
    | Some commitTS => (SnapshotTS t <? commitTS)%Z
    | None => false
    end) (elements (writeSet t)).

Definition Commit (now : Z) (t : Txn) (tm : TxnManager) : TxnManager * (Z * bool) :=
  let active := activeTxns tm ∖ {[SnapshotTS t]} in
  if conflicts t tm then (mkTM (clock tm) active (latestCommits tm), (0%Z, false))
  else
    let '(c, commitTS) := Now now (clock tm) in
    let latest := foldl (fun m key => <[key:=commitTS]> m)
                        (latestCommits tm) (elements (writeSet t)) in
    (mkTM c active latest, (commitTS, true)).

Definition Abort (t : Txn) (tm : TxnManager) : TxnManager :=
  mkTM (clock tm) (activeTxns tm ∖ {[SnapshotTS t]}) (latestCommits tm).

Definition AddWrite (userKey : bytes) (t : Txn) : Txn :=
  mkTxn (SnapshotTS t) ({[userKey]} ∪ writeSet t).

End txn.
Import txn.

(** ** The system of clients

    [begun] holds the transactions whose [Begin] has read the clock and not yet
    registered; [handles] the [*Txn] values clients hold, which they may use
    again after [Commit] or [Abort].  [commits] (newest
    first) and [horizons] are history: the successful commits and the values
    [MinActiveSnapshot] returned. *)

Record commit_rec := mkCommit { c_snap : Z; c_ts : Z; c_writes : gset bytes }.

Record sys := mkSys {
  tm : TxnManager;
  begun : gmap nat Z;
  handles : gmap nat Txn;
  commits : list commit_rec;
  horizons : list Z;
}.

Inductive event :=
| EvBeginClock (id : nat) (now : Z)
| EvBeginRegister (id : nat)
| EvAddWrite (id : nat) (key : bytes)
| EvCommit (id : nat) (now : Z)
| EvAbort (id : nat)
| EvMinActive (now : Z).

Definition sys_init : sys := mkSys (NewTxnManager NewClock) ∅ ∅ [] [].

Definition step (s : sys) (ev : event) : sys :=
  match ev with
  | EvBeginClock id now =>
      let '(m, ts) := Begin_clock now (tm s) in
      mkSys m (<[id:=ts]> (begun s)) (handles s) (commits s) (horizons s)
  | EvBeginRegister id =>
      match begun s !! id with
      | None => s
      | Some ts =>
          let '(m, t) := Begin_register ts (tm s) in
          mkSys m (delete id (begun s)) (<[id:=t]> (handles s)) (commits s) (horizons s)
      end
  | EvAddWrite id key =>
      mkSys (tm s) (begun s) (alter (AddWrite key) id (handles s)) (commits s) (horizons s)
  | EvCommit id now =>
      match handles s !! id with
      | None => s
      | Some t =>
          let '(m, (cts, ok)) := Commit now t (tm s) in
          mkSys m (begun s) (handles s)
            (if ok then mkCommit (SnapshotTS t) cts (writeSet t) :: commits s else commits s)
            (horizons s)
      end
  | EvAbort id =>
      match handles s !! id with
      | None => s
      | Some t => mkSys (Abort t (tm s)) (begun s) (handles s) (commits s) (horizons s)
      end
  | EvMinActive now =>
      let '(m, h) := MinActiveSnapshot now (tm s) in
      mkSys m (begun s) (handles s) (commits s) (h :: horizons s)
  end.

Definition run (evs : list event) (s : sys) : sys := foldl step s evs.

Definition event_ok (ev : event) : Prop :=
  match ev with
  | EvBeginClock _ now | EvCommit _ now | EvMinActive now => time_ok now
  | _ => True
  end.

#[local] Opaque Now.

(** ** Loops *)

Lemma conflicts_true t m :
  conflicts t m = true <->
  exists key cts, key ∈ writeSet t /\ latestCommits m !! key = Some cts /\
                  (SnapshotTS t < cts)%Z.
Proof.
  unfold conflicts. rewrite existsb_exists. split.
  - intros (key & Hin & H). apply list_elem_of_In, elem_of_elements in Hin.
    destruct (latestCommits m !! key) as [cts|] eqn:E; [|done].
    apply Z.ltb_lt in H. eauto.
  - intros (key & cts & Hin & E & H). exists key. rewrite E.
    split; [by apply list_elem_of_In, elem_of_elements|by apply Z.ltb_lt].
Qed.

Lemma foldl_insert_lookup (cts : Z) (ks : list bytes) (m : gmap bytes Z) key :
  foldl (fun m key => <[key:=cts]> m) m ks !! key =
  if decide (key ∈ ks) then Some cts else m !! key.
Proof.
  revert m. induction ks as [|k ks IH]; intros m; simpl.
  - done.
  - rewrite IH. destruct (decide (key ∈ ks)) as [Hk|Hk].
    + rewrite decide_True by by right. done.
    + destruct (decide (k = key)) as [->|Hne].
      * by rewrite lookup_insert_eq, decide_True by left.
      * rewrite lookup_insert_ne by done. rewrite decide_False; [done|].
        by intros [?|?]%elem_of_cons.
Qed.

Lemma foldl_min_spec l m0 :
  let r := foldl (fun m ts => if (ts <? m)%Z then ts else m) m0 l in
  (r <= m0)%Z /\ (forall ts, ts ∈ l -> (r <= ts)%Z) /\ (r = m0 \/ r ∈ l).
Proof.
  revert m0. induction l as [|x l IH]; intros m0; simpl.
  - split; [lia|]. split; [by intros ? ?%elem_of_nil|by left].
  - destruct (IH (if (x <? m0)%Z then x else m0)) as (H1 & H2 & H3).
    destruct (Z.ltb_spec x m0); (split; [lia|split]).
    + intros ts [->|?]%elem_of_cons; [lia|auto].
    + right. apply elem_of_cons. tauto.
    + intros ts [->|?]%elem_of_cons; [lia|auto].
    + rewrite elem_of_cons. tauto.
Qed.

Lemma Begin_clock_tm now m :
  (Begin_clock now m).1 =
  mkTM (Now now (clock m)).1 (activeTxns m) (latestCommits m) /\
  (Begin_clock now m).2 = (Now now (clock m)).2.
Proof. unfold Begin_clock. by destruct (Now now (clock m)). Qed.

Lemma MinActiveSnapshot_tm now m :
  (MinActiveSnapshot now m).1 =
  mkTM (Now now (clock m)).1 (activeTxns m) (latestCommits m).
Proof. unfold MinActiveSnapshot. by destruct (Now now (clock m)). Qed.

Lemma MinActiveSnapshot_spec now m :
  let r := (MinActiveSnapshot now m).2 in
  (r <= (Now now (clock m)).2)%Z /\
  (forall ts, ts ∈ activeTxns m -> (r <= ts)%Z) /\
  (r = (Now now (clock m)).2 \/ r ∈ activeTxns m).
Proof.
  unfold MinActiveSnapshot. destruct (Now now (clock m)) as [c ts]. cbn [snd].
  destruct (foldl_min_spec (elements (activeTxns m)) ts) as (H1 & H2 & H3).
  split; [done|]. split.
  - intros x Hx. apply H2. by apply elem_of_elements.
  - destruct H3 as [->|H3]; [by left|right]. by apply elem_of_elements in H3.
Qed.

(** ** The invariant of the system *)

Definition overlap (r : commit_rec) (ws : gset bytes) : Prop :=
  exists key, key ∈ c_writes r /\ key ∈ ws.

Record sys_inv (n : Z) (s : sys) : Prop := {
  inv_clock : clock_ok n (clock (tm s));
  inv_begun : forall id ts, begun s !! id = Some ts -> (ts <= stamp (clock (tm s)))%Z;
  inv_handles : forall id t, handles s !! id = Some t ->
    (SnapshotTS t <= stamp (clock (tm s)))%Z;
  inv_commits : forall r, r ∈ commits s ->
    (c_snap r < c_ts r <= stamp (clock (tm s)))%Z;
  inv_latest_ge : forall r key, r ∈ commits s -> key ∈ c_writes r ->
    exists cts, latestCommits (tm s) !! key = Some cts /\ (c_ts r <= cts)%Z;
  inv_latest_src : forall key cts, latestCommits (tm s) !! key = Some cts ->
    exists r, r ∈ commits s /\ key ∈ c_writes r /\ c_ts r = cts;
  inv_serial : StronglySorted
    (fun newer older => overlap older (c_writes newer) -> (c_ts older <= c_snap newer)%Z)
    (commits s);
}.

Lemma sys_inv_init : sys_inv 0 sys_init.
Proof.
  split; simpl; try (intros *; rewrite lookup_empty; done).
  - apply NewClock_ok.
  - by intros r ?%elem_of_nil.
  - by intros r key ?%elem_of_nil.
  - constructor.
Qed.

(** Advancing the clock keeps the invariant: only bounds mention it. *)
Lemma sys_inv_clock n n' s c :
  sys_inv n s -> clock_ok n' c -> (stamp (clock (tm s)) <= stamp c)%Z ->
  sys_inv n' (mkSys (mkTM c (activeTxns (tm s)) (latestCommits (tm s)))
                (begun s) (handles s) (commits s) (horizons s)).
Proof.
  intros [H1 H2 H3 H4 H5 H6 H7] Hc Hle. split; simpl; eauto.
  - intros id ts H. pose proof (H2 _ _ H). lia.
  - intros id t H. pose proof (H3 _ _ H). lia.
  - intros r H. pose proof (H4 _ H). lia.
Qed.

Lemma sys_inv_weaken n n' s : sys_inv n s -> (n <= n')%Z -> sys_inv n' s.
Proof.
  intros [[Hw Hl] H2 H3 H4 H5 H6 H7] Hn. split; eauto. split; [done|lia].
Qed.

(** Recording a commit at a stamp above everything known, whose write set
    conflicts with no later commit, keeps the invariant. *)
Lemma sys_inv_commit n s c t cts latest :
  sys_inv n s -> clock_ok n c -> stamp c = cts ->
  (stamp (clock (tm s)) < cts)%Z -> (SnapshotTS t <= stamp (clock (tm s)))%Z ->
  conflicts t (tm s) = false ->
  (forall key, latest !! key =
     if decide (key ∈ writeSet t) then Some cts else latestCommits (tm s) !! key) ->
  forall active, sys_inv n (mkSys (mkTM c active latest) (begun s) (handles s)
    (mkCommit (SnapshotTS t) cts (writeSet t) :: commits s) (horizons s)).
Proof.
  intros [H1 H2 H3 H4 H5 H6 H7] Hc Hst Hlt Hsnap Hconf Hlatest active.
  split; cbn [tm clock begun handles commits latestCommits]; rewrite ?Hst.
  - done.
  - intros id ts H. pose proof (H2 _ _ H). lia.
  - intros id t' H. pose proof (H3 _ _ H). lia.
  - intros r [->|Hr]%elem_of_cons; simpl; [lia|]. pose proof (H4 _ Hr). lia.
  - intros r key [->|Hr]%elem_of_cons Hk; rewrite Hlatest.
    + simpl in *. rewrite decide_True by done. eauto with lia.
    + case_decide; [|eauto]. pose proof (H4 _ Hr). eauto with lia.
  - intros key cts'. rewrite Hlatest. case_decide as Hk; intros E.
    + simplify_eq. eexists. split; [left|]. done.
    + destruct (H6 _ _ E) as (r & Hr & ?). exists r. split; [by right|done].
  - constructor; [done|]. apply Forall_forall. intros r Hr (key & Hk1 & Hk2). simpl in *.
    destruct (H5 _ _ Hr Hk1) as (cts' & E & Hle).
    destruct (decide (SnapshotTS t < cts')%Z) as [Hx|]; [|lia].
    assert (conflicts t (tm s) = true); [|congruence].
    apply conflicts_true. eauto.
Qed.

Lemma txn_step_inv n s ev :
  sys_inv n s -> event_ok ev -> (n + 1 < 2 ^ 16)%Z -> sys_inv (n + 1) (step s ev).
Proof.
  intros Hs Hev Hn. pose proof Hs as [H1 H2 H3 H4 H5 H6 H7].
  destruct ev as [id now|id|id key|id now|id|now]; simpl in *.
  - pose proof (Now_spec n now _ Hev H1 Hn) as (Hok & Hlt & Heq).
    destruct (Begin_clock_tm now (tm s)) as [E1 E2].
    destruct (Begin_clock now (tm s)) as [m ts]. simpl in *. subst m ts.
    pose proof (sys_inv_clock n (n + 1) s _ Hs Hok ltac:(lia)) as [].
    simpl in *. split; simpl; eauto. intros id' ts.
    destruct (decide (id = id')) as [->|?].
    + rewrite lookup_insert_eq. intros [= <-]. lia.
    + rewrite lookup_insert_ne by done. apply inv_begun0.
  - apply (sys_inv_weaken _ (n + 1)) in Hs; [|lia]. destruct Hs.
    destruct (begun s !! id) as [ts|] eqn:E; [|by split].
    split; simpl; eauto.
    + intros id' ts' [_ H]%lookup_delete_Some. eauto.
    + intros id' t. destruct (decide (id = id')) as [->|?].
      * rewrite lookup_insert_eq. intros [= <-]. simpl. eauto.
      * rewrite lookup_insert_ne by done. eauto.
  - apply (sys_inv_weaken _ (n + 1)) in Hs; [|lia]. destruct Hs. split; simpl; eauto.
    intros id' t (t' & <- & H)%lookup_alter_Some || intros id' t H.
    apply lookup_alter_Some in H as [(_ & t' & H & ->)|[_ H]]; simpl; eauto.
  - destruct (handles s !! id) as [t|] eqn:E;
      [|by apply (sys_inv_weaken n); [|lia]].
    unfold Commit. destruct (conflicts t (tm s)) eqn:Ec.
    + apply (sys_inv_weaken _ (n + 1)) in Hs; [|lia]. destruct Hs. split; simpl; eauto.
    + pose proof (Now_spec n now _ Hev H1 Hn) as (Hok & Hlt & Heq).
      destruct (Now now (clock (tm s))) as [c ts]. simpl in *. subst ts.
      apply sys_inv_commit; [by apply (sys_inv_weaken n); [|lia]|done..|eauto|done|].
      intros key. rewrite foldl_insert_lookup.
      by destruct (decide (key ∈ writeSet t)) as [Hk|Hk]; case_decide as Hk';
        rewrite elem_of_elements in Hk'.
  - destruct (handles s !! id) as [t|] eqn:E;
      (apply (sys_inv_weaken _ (n + 1)) in Hs; [|lia]); [|done].
    destruct Hs. split; simpl; eauto.
  - pose proof (Now_spec n now _ Hev H1 Hn) as (Hok & Hlt & Heq).
    pose proof (MinActiveSnapshot_tm now (tm s)) as E.
    destruct (MinActiveSnapshot now (tm s)) as [m h]. simpl in *. subst m.
    pose proof (sys_inv_clock n (n + 1) s _ Hs Hok ltac:(lia)) as [].
    simpl in *. split; simpl; eauto.
Qed.

Lemma txn_run_inv evs : forall n s,
  sys_inv n s -> Forall event_ok evs -> (n + len evs < 2 ^ 16)%Z ->
  sys_inv (n + len evs) (run evs s).
Proof.
  induction evs as [|ev evs IH]; intros n s Hs Hev Hn; simpl.
  - len_nils. by rewrite Z.add_0_r.
  - apply Forall_cons in Hev as [Hev Hevs]. rewrite len_cons in *.
    pose proof (len_nonneg evs). rewrite Z.add_assoc. apply IH; [|done|lia].
    apply txn_step_inv; [done|done|lia].
Qed.

(** ** The garbage-collection horizon *)

(** Every snapshot that is or will be registered is at least [h]. *)
Definition above (h : Z) (s : sys) : Prop :=
  (h <= stamp (clock (tm s)))%Z /\
  (forall ts, ts ∈ activeTxns (tm s) -> (h <= ts)%Z) /\
  (forall id ts, begun s !! id = Some ts -> (h <= ts)%Z).

Lemma step_above h n s ev :
  above h s -> clock_ok n (clock (tm s)) -> event_ok ev -> (n + 1 < 2 ^ 16)%Z ->
  above h (step s ev).
Proof.
  intros (Hc & Ha & Hb) Hok Hev Hn.
  destruct ev as [id now|id|id key|id now|id|now]; simpl in *.
  - pose proof (Now_spec n now _ Hev Hok Hn) as (_ & Hlt & Heq).
    unfold Begin_clock. destruct (Now now (clock (tm s))) as [c ts]. simpl in *. subst ts.
    split; [simpl; lia|]. split; [done|]. simpl. intros id' ts.
    destruct (decide (id = id')) as [->|?].
    + rewrite lookup_insert_eq. intros [= <-]. lia.
    + rewrite lookup_insert_ne by done. apply Hb.
  - destruct (begun s !! id) as [ts|] eqn:E; [|by split].
    split; [done|]. split; simpl.
    + intros x [->%elem_of_singleton|?]%elem_of_union; eauto.
    + intros id' ts' [_ H]%lookup_delete_Some. eauto.
  - by split.
  - destruct (handles s !! id) as [t|] eqn:E; [|by split].
    unfold Commit. destruct (conflicts t (tm s)).
    + split; [done|]. split; simpl; [set_solver|done].
    + pose proof (Now_spec n now _ Hev Hok Hn) as (_ & Hlt & Heq).
      destruct (Now now (clock (tm s))) as [c ts]. simpl in *.
      split; [simpl; lia|]. split; simpl; [set_solver|done].
  - destruct (handles s !! id) as [t|] eqn:E; [|by split].
    split; [done|]. split; simpl; [set_solver|done].
  - pose proof (Now_spec n now _ Hev Hok Hn) as (_ & Hlt & Heq).
    pose proof (MinActiveSnapshot_tm now (tm s)) as E.
    destruct (MinActiveSnapshot now (tm s)) as [m r]. simpl in *. subst m.
    split; [simpl; lia|]. by split.
Qed.

Lemma run_above h evs : forall n s,
  above h s -> sys_inv n s -> Forall event_ok evs -> (n + len evs < 2 ^ 16)%Z ->
  above h (run evs s).
Proof.
  induction evs as [|ev evs IH]; intros n s Ha Hs Hev Hn; simpl; [done|].
  apply Forall_cons in Hev as [Hev Hevs]. rewrite len_cons in Hn.
  pose proof (len_nonneg evs). apply (IH (n + 1)%Z); [|apply txn_step_inv; [done|done|lia]|done|lia].
  eapply step_above; [done|apply Hs|done|lia].
Qed.

(** ** Properties *)


Definition two_writers : list event :=
  [EvBeginClock 0 5; EvBeginRegister 0; EvAddWrite 0 (str "k"); EvCommit 0 6;
   EvBeginClock 1 7; EvBeginRegister 1; EvAddWrite 1 (str "k"); EvCommit 1 8].


(** [Commit] reports a conflict exactly when some transaction committed a
    write to one of its keys after its snapshot; otherwise it returns a fresh
    commit timestamp above its snapshot and publishes it for every key it
    wrote. *)
Theorem Commit_conflict_iff (evs : list event) (id : nat) (t : Txn) (now : Z)
    (Hev : Forall event_ok evs) (Hn : (len evs + 1 < 2 ^ 16)%Z) (Hnow : time_ok now)
    (Ht : handles (run evs sys_init) !! id = Some t) :
  let s := run evs sys_init in
  let '(m, (cts, ok)) := Commit now t (tm s) in
  (ok = false <-> exists r, r ∈ commits s /\ overlap r (writeSet t) /\
                            (SnapshotTS t < c_ts r)%Z) /\
  (ok = true -> (SnapshotTS t < cts)%Z /\
     forall key, latestCommits m !! key =
       if decide (key ∈ writeSet t) then Some cts else latestCommits (tm s) !! key) /\
  activeTxns m = activeTxns (tm s) ∖ {[SnapshotTS t]}.
Proof.
  pose proof (len_nonneg evs).
  pose proof (txn_run_inv evs 0 sys_init sys_inv_init Hev ltac:(lia)) as Hinv.
  cbn zeta. set (s := run evs sys_init) in *.
  assert (conflicts t (tm s) = true <-> exists r, r ∈ commits s /\
    overlap r (writeSet t) /\ (SnapshotTS t < c_ts r)%Z) as Hc.
  { rewrite conflicts_true. split.
    - intros (key & cts & Hk & E & Hlt).
      destruct (inv_latest_src _ _ Hinv _ _ E) as (r & Hr & Hkr & <-).
      exists r. split; [done|]. split; [by exists key|done].
    - intros (r & Hr & (key & Hk1 & Hk2) & Hlt).
      destruct (inv_latest_ge _ _ Hinv _ _ Hr Hk1) as (cts & E & Hle).
      exists key, cts. split; [done|]. split; [done|lia]. }
  unfold Commit. destruct (conflicts t (tm s)).
  - split; [|done]. split; [|done]. intros _. by apply Hc.
  - pose proof (Now_spec _ now _ Hnow (inv_clock _ _ Hinv) ltac:(lia)) as (_ & Hlt & Heq).
    pose proof (inv_handles _ _ Hinv _ _ Ht).
    destruct (Now now (clock (tm s))) as [c cts]. simpl in *. subst cts.
    split; [|split; [|done]].
    + split; [done|]. intros Hr. apply Hc in Hr. done.
    + intros _. split; [lia|]. intros key. rewrite foldl_insert_lookup.
      by destruct (decide (key ∈ writeSet t)); case_decide as Hk;
        rewrite elem_of_elements in Hk.
Qed.

Definition racing_writer : list event :=
  [EvBeginClock 0 5; EvBeginRegister 0; EvAddWrite 0 (str "k");
   EvBeginClock 1 5; EvBeginRegister 1; EvAddWrite 1 (str "k"); EvCommit 1 6].

Lemma Commit_conflict_iff_witness :
  exists t, handles (run racing_writer sys_init) !! 0%nat = Some t /\
    exists r, r ∈ commits (run racing_writer sys_init) /\ overlap r (writeSet t) /\
              (SnapshotTS t < c_ts r)%Z.
Proof.
  assert ((fun t => (Commit 7 t (tm (run racing_writer sys_init))).2.2) <$>
          handles (run racing_writer sys_init) !! 0%nat = Some false) as H
    by (vm_compute; reflexivity).
  destruct (handles (run racing_writer sys_init) !! 0%nat) as [t|] eqn:Et; [|discriminate].
  exists t. split; [done|]. apply (inj Some) in H.
  pose proof (Commit_conflict_iff racing_writer 0 t 7
    ltac:(repeat constructor; vm_compute; congruence) ltac:(vm_compute; reflexivity)
    ltac:(vm_compute; split; congruence) Et) as Hc. cbn zeta in Hc.
  destruct (Commit 7 t (tm (run racing_writer sys_init))) as [m [cts ok]].
  apply Hc. exact H.
Defined.

(** [MinActiveSnapshot] returns the least registered snapshot, or the current
    clock reading when none is registered. *)
Theorem MinActiveSnapshot_least (now : Z) (m : TxnManager) :
  let r := (MinActiveSnapshot now m).2 in
  (forall ts, ts ∈ activeTxns m -> (r <= ts)%Z) /\
  (r <= (Now now (clock m)).2)%Z /\
  (r = (Now now (clock m)).2 \/ r ∈ activeTxns m).
Proof. destruct (MinActiveSnapshot_spec now m) as (H1 & H2 & H3). done. Qed.

(** The horizon is stable.  When no [Begin] is between its clock reading and
    its registration, the value [MinActiveSnapshot] returns stays a lower bound
    of every snapshot registered from then on, whatever the clients do next. *)
Theorem MinActiveSnapshot_stable (evs later : list event) (now : Z)
    (Hev : Forall event_ok evs) (Hlater : Forall event_ok later) (Hnow : time_ok now)
    (Hn : (len evs + 1 + len later < 2 ^ 16)%Z)
    (Hquiet : begun (run evs sys_init) = ∅) :
  let s := run evs sys_init in
  let h := (MinActiveSnapshot now (tm s)).2 in
  forall ts, ts ∈ activeTxns (tm (run later (step s (EvMinActive now)))) -> (h <= ts)%Z.
Proof.
  pose proof (len_nonneg evs). pose proof (len_nonneg later). cbn zeta.
  pose proof (txn_run_inv evs 0 sys_init sys_inv_init Hev ltac:(lia)) as Hinv.
  set (s := run evs sys_init) in *.
  destruct (MinActiveSnapshot_spec now (tm s)) as (H1 & H2 & _). cbn zeta in H1.
  set (h := (MinActiveSnapshot now (tm s)).2) in *.
  pose proof (Now_spec _ now _ Hnow (inv_clock _ _ Hinv) ltac:(lia)) as (_ & Hlt & Heq).
  assert (above h (step s (EvMinActive now))) as Habove.
  { pose proof (MinActiveSnapshot_tm now (tm s)) as E. simpl.
    destruct (MinActiveSnapshot now (tm s)) as [m r]. simpl in E. subst m.
    split; simpl; [lia|]. split; [done|]. intros id ts. by rewrite Hquiet, lookup_empty. }
  intros ts Hts.
  apply (run_above h later _ _ Habove (txn_step_inv _ s (EvMinActive now) Hinv Hnow ltac:(lia)) Hlater);
    [lia|done].
Qed.

Definition quiet_prefix : list event := [EvBeginClock 0 5; EvBeginRegister 0].
Definition later_begin : list event := [EvBeginClock 1 9; EvBeginRegister 1].

Lemma MinActiveSnapshot_stable_witness :
  ((MinActiveSnapshot 6 (tm (run quiet_prefix sys_init))).2 <= 589824)%Z.
Proof.
  apply (MinActiveSnapshot_stable quiet_prefix later_begin 6);
    [repeat constructor; vm_compute; congruence..|vm_compute; split; congruence
    |vm_compute; reflexivity|reflexivity|].
  apply (bool_decide_eq_true_1 _). vm_compute. reflexivity.
Defined.

(** The race.  [Begin] reads the clock before taking the lock, so a
    [MinActiveSnapshot] between the two returns a horizon above a snapshot that
    is registered right after it. *)
Theorem Begin_races_MinActiveSnapshot :
  let s := run [EvBeginClock 0 5; EvMinActive 5; EvBeginRegister 0] sys_init in
  horizons s = [327681%Z] /\ (fun t => SnapshotTS t) <$> handles s !! 0%nat = Some 327680%Z /\
  327680%Z ∈ activeTxns (tm s).
Proof.
  split; [vm_compute; reflexivity|]. split; [vm_compute; reflexivity|].
  apply (bool_decide_eq_true_1 _). vm_compute. reflexivity.
Qed.
