(* ===== verification/Bloom.v ===== *)
(** * Bloom filter (internal/bloom/bloom.go)

    The hash is the third-party [murmur3.Sum128]: a variable of the section,
    about which nothing is assumed.  [Add] and [MayContain] index [f.bits] and
    reduce modulo [f.numBits], so they return an [outcome]: [Panic] stands for an
    index out of range or a division by zero. *)

From Stdlib Require Import Floats.SpecFloat.
From S2P Require Import Prelude.

Module bloom.

Record Filter := mkFilter { bits : bytes; nHash : Z; numBits : Z }.

(** [uint32(float64(bitsPerKey) * math.Ln2)]: IEEE-754 double arithmetic from the
    standard library's [SpecFloat], truncated towards zero. *)
Definition float64_of_int (z : Z) : spec_float := binary_normalize 53 1024 z 0 false.
Definition Ln2 : spec_float := S754_finite false 6243314768165359 (-53).
Definition trunc (f : spec_float) : Z :=
  match f with
  | S754_finite s m e =>
      let a := Z.shiftl (Z.pos m) e in if s then (- a)%Z else a
  | _ => 0%Z
  end.

Definition NewFilter (numKeys bitsPerKey : Z) : Filter :=
  let numKeys := if (numKeys <? 0)%Z then 0%Z else numKeys in
  let bitsPerKey := if (bitsPerKey <? 1)%Z then 1%Z else bitsPerKey in
  let numBits := u32 (i64 (numKeys * bitsPerKey)) in
  let numBits := if (numBits <? 64)%Z then 64%Z else numBits in
  let nbytes := (u32 (numBits + 7) / 8)%Z in
  let numBits := u32 (nbytes * 8) in
  let nHash := u32 (trunc (SFmul 53 1024 (float64_of_int bitsPerKey) Ln2)) in
  let nHash := if (nHash <? 1)%Z then 1%Z else if (30 <? nHash)%Z then 30%Z else nHash in
  mkFilter (replicate (Z.to_nat nbytes) Byte.x00) nHash numBits.

(** [bitPos := (hash1 + i*hash2) % f.numBits] in [uint32] arithmetic. *)
Definition bit_pos (f : Filter) (hash1 hash2 i : Z) : outcome Empty_set Z :=
  if (numBits f =? 0)%Z then Panic
  else Ok (u32 (hash1 + u32 (i * hash2)) mod numBits f)%Z.

Definition set_bit (bs : bytes) (pos : Z) : outcome Empty_set bytes :=
  match bs !! Z.to_nat (pos / 8) with
  | Some b => Ok (<[Z.to_nat (pos / 8) := z2b (Z.lor (b2z b) (Z.shiftl 1 (pos mod 8)))]> bs)
  | None => Panic
  end.

Definition test_bit (bs : bytes) (pos : Z) : outcome Empty_set bool :=
  match bs !! Z.to_nat (pos / 8) with
  | Some b => Ok (negb (Z.land (b2z b) (Z.shiftl 1 (pos mod 8)) =? 0)%Z)
  | None => Panic
  end.

(** The body of the loop of [Add] for [i, i+1, ..., i+n-1]. *)
Fixpoint add_loop (f : Filter) (hash1 hash2 : Z) (i : Z) (n : nat) (bs : bytes)
    : outcome Empty_set bytes :=
  match n with
  | O => Ok bs
  | S n =>
      pos ← bit_pos f hash1 hash2 i;
      bs ← set_bit bs pos;
      add_loop f hash1 hash2 (i + 1) n bs
  end.

Fixpoint may_loop (f : Filter) (hash1 hash2 : Z) (i : Z) (n : nat)
    : outcome Empty_set bool :=
  match n with
  | O => Ok true
  | S n =>
      pos ← bit_pos f hash1 hash2 i;
      b ← test_bit (bits f) pos;
      if (b : bool) then may_loop f hash1 hash2 (i + 1) n else Ok false
  end.

Section hashed.
Context (Sum128 : bytes -> Z * Z).

Definition Add (f : Filter) (key : bytes) : outcome Empty_set Filter :=
  if (len (bits f) =? 0)%Z then Ok f
  else
    let '(h1, h2) := Sum128 key in
    bs ← add_loop f (u32 h1) (u32 h2) 0 (Z.to_nat (nHash f)) (bits f);
    Ok (mkFilter bs (nHash f) (numBits f)).

Definition MayContain (f : Filter) (key : bytes) : outcome Empty_set bool :=
  if (len (bits f) =? 0)%Z then Ok false
  else
    let '(h1, h2) := Sum128 key in
    may_loop f (u32 h1) (u32 h2) 0 (Z.to_nat (nHash f)).

End hashed.

Definition Encode (f : Filter) : bytes := z2b (nHash f) :: bits f.

Definition DecodeFilter (data : bytes) : Filter :=
  match data with
  | [] => mkFilter [] 0 0
  | b :: bs => mkFilter bs (b2z b) (u32 (len bs * 8))
  end.

End bloom.
Import bloom.

Arguments NewFilter numKeys bitsPerKey : simpl never.

(** ** Well-formed filters *)

Record filter_ok (f : Filter) : Prop := {
  ok_bits : (0 < len (bits f))%Z;
  ok_num : numBits f = (8 * len (bits f))%Z;
  ok_num32 : (numBits f < 2 ^ 32)%Z;
  ok_hash : (0 <= nHash f < 256)%Z;
}.

(** ** Bits *)

Definition bit_set (bs : bytes) (pos : Z) : bool :=
  match bs !! Z.to_nat (pos / 8) with
  | Some b => Z.testbit (b2z b) (pos mod 8)
  | None => false
  end.

Lemma land_pow2_zero x r : (0 <= r)%Z -> (Z.land x (Z.shiftl 1 r) =? 0)%Z = negb (Z.testbit x r).
Proof.
  intros Hr. rewrite Z.shiftl_1_l. destruct (Z.testbit x r) eqn:E; simpl.
  - apply Z.eqb_neq. intros H. apply (f_equal (fun y => Z.testbit y r)) in H.
    by rewrite Z.land_spec, E, Z.pow2_bits_true, Z.bits_0 in H.
  - apply Z.eqb_eq, Z.bits_inj'. intros i Hi.
    rewrite Z.land_spec, Z.bits_0, Z.pow2_bits_eqb by done.
    destruct (Z.eqb_spec r i) as [->|]; [by rewrite E|apply andb_false_r].
Qed.

Lemma b2z_set_bit b r :
  (0 <= r < 8)%Z -> b2z (z2b (Z.lor (b2z b) (Z.shiftl 1 r))) = Z.lor (b2z b) (Z.shiftl 1 r).
Proof.
  intros Hr. rewrite b2z_z2b. apply Z.mod_small.
  pose proof (b2z_range b). rewrite Z.shiftl_1_l.
  assert (0 <= 2 ^ r)%Z by (apply Z.pow_nonneg; lia).
  split; [apply Z.lor_nonneg; lia|]. change 256%Z with (2 ^ 8)%Z.
  destruct (decide (Z.lor (b2z b) (2 ^ r) = 0%Z)) as [->|Hne]; [lia|].
  assert (0 < Z.lor (b2z b) (2 ^ r))%Z by (assert (0 <= Z.lor (b2z b) (2 ^ r))%Z by (apply Z.lor_nonneg; lia); lia).
  apply Z.log2_lt_pow2; [done|]. rewrite Z.log2_lor by lia. apply Z.max_lub_lt.
  - destruct (decide (b2z b = 0%Z)) as [->|]; [simpl; lia|].
    apply Z.log2_lt_pow2; lia.
  - rewrite Z.log2_pow2 by lia. lia.
Qed.

Lemma test_bit_ok bs pos :
  (0 <= pos < 8 * len bs)%Z -> test_bit bs pos = Ok (bit_set bs pos).
Proof.
  intros Hp. unfold test_bit, bit_set.
  assert (Z.to_nat (pos / 8) < length bs)%nat as Hlt.
  { assert (pos / 8 < len bs)%Z by (apply Z.div_lt_upper_bound; lia). unfold len in *.
    pose proof (Z.div_pos pos 8). lia. }
  apply lookup_lt_is_Some_2 in Hlt as [b ->].
  rewrite land_pow2_zero by (apply Z.mod_pos_bound; lia). by rewrite negb_involutive.
Qed.

Lemma set_bit_ok bs pos :
  (0 <= pos < 8 * len bs)%Z ->
  exists bs', set_bit bs pos = Ok bs' /\ len bs' = len bs /\
    forall q, (0 <= q < 8 * len bs)%Z ->
      bit_set bs' q = bit_set bs q || (q =? pos)%Z.
Proof.
  intros Hp. unfold set_bit.
  assert (Z.to_nat (pos / 8) < length bs)%nat as Hlt.
  { assert (pos / 8 < len bs)%Z by (apply Z.div_lt_upper_bound; lia). unfold len in *.
    pose proof (Z.div_pos pos 8). lia. }
  destruct (lookup_lt_is_Some_2 _ _ Hlt) as [b Hb]. rewrite Hb.
  eexists. split; [done|]. split; [unfold len; by rewrite length_insert|].
  intros q Hq. unfold bit_set.
  pose proof (Z.mod_pos_bound pos 8 ltac:(lia)). pose proof (Z.mod_pos_bound q 8 ltac:(lia)).
  pose proof (Z.div_mod pos 8 ltac:(lia)). pose proof (Z.div_mod q 8 ltac:(lia)).
  pose proof (Z.div_pos pos 8). pose proof (Z.div_pos q 8).
  destruct (decide (pos / 8 = q / 8)%Z) as [E|E].
  - rewrite <- E, list_lookup_insert_eq, Hb by done.
    rewrite b2z_set_bit, Z.lor_spec, Z.shiftl_1_l, Z.pow2_bits_eqb by lia.
    f_equal. destruct (Z.eqb_spec (pos mod 8) (q mod 8)), (Z.eqb_spec q pos); subst; lia || done.
  - rewrite list_lookup_insert_ne by lia.
    destruct (Z.eqb_spec q pos); [subst; lia|]. by rewrite orb_false_r.
Qed.

(** ** The loops *)

Fixpoint positions (nb hash1 hash2 i : Z) (n : nat) : list Z :=
  match n with
  | O => []
  | S n => (u32 (hash1 + u32 (i * hash2)) mod nb)%Z :: positions nb hash1 hash2 (i + 1) n
  end.

Lemma positions_range nb h1 h2 i n q :
  (0 < nb)%Z -> q ∈ positions nb h1 h2 i n -> (0 <= q < nb)%Z.
Proof.
  intros Hnb. revert i. induction n as [|n IH]; intros i; simpl.
  - by intros ?%elem_of_nil.
  - intros [->|H]%elem_of_cons; [by apply Z.mod_pos_bound|eauto].
Qed.

Lemma add_loop_ok f h1 h2 n : forall i bs,
  (0 < numBits f)%Z -> numBits f = (8 * len bs)%Z ->
  exists bs', add_loop f h1 h2 i n bs = Ok bs' /\ len bs' = len bs /\
    forall q, (0 <= q < numBits f)%Z ->
      bit_set bs' q = bit_set bs q || bool_decide (q ∈ positions (numBits f) h1 h2 i n).
Proof.
  induction n as [|n IH]; intros i bs Hpos Hnb; cbn [add_loop positions].
  - exists bs. split; [done|]. split; [done|]. intros q _.
    rewrite bool_decide_eq_false_2 by apply not_elem_of_nil. by rewrite orb_false_r.
  - unfold bit_pos. destruct (Z.eqb_spec (numBits f) 0); [lia|]. simpl.
    set (p := (u32 (h1 + u32 (i * h2)) mod numBits f)%Z).
    pose proof (Z.mod_pos_bound (u32 (h1 + u32 (i * h2))) (numBits f) Hpos) as Hp.
    destruct (set_bit_ok bs p) as (bs1 & E1 & Hl1 & Hb1); [unfold p; lia|].
    rewrite E1. simpl. destruct (IH (i + 1)%Z bs1 Hpos) as (bs' & E' & Hl' & Hb'); [lia|].
    exists bs'. split; [done|]. split; [lia|]. intros q Hq.
    rewrite Hb', Hb1 by lia. rewrite <- orb_assoc. f_equal.
    destruct (Z.eqb_spec q p) as [->|Hne]; simpl; symmetry.
    + apply bool_decide_eq_true_2. left.
    + apply bool_decide_ext. rewrite elem_of_cons. naive_solver.
Qed.

Lemma may_loop_ok f h1 h2 n : forall i,
  (0 < numBits f)%Z -> numBits f = (8 * len (bits f))%Z ->
  may_loop f h1 h2 i n =
  Ok (forallb (bit_set (bits f)) (positions (numBits f) h1 h2 i n)).
Proof.
  induction n as [|n IH]; intros i Hpos Hnb; simpl; [done|].
  unfold bit_pos. destruct (Z.eqb_spec (numBits f) 0); [lia|]. simpl.
  pose proof (Z.mod_pos_bound (u32 (h1 + u32 (i * h2))) (numBits f) Hpos) as Hp.
  rewrite test_bit_ok by lia. simpl. destruct (bit_set _ _); simpl; [by apply IH|done].
Qed.

Section properties.
Context (Sum128 : bytes -> Z * Z).

(** The bit positions of a key. *)
Definition key_positions (f : Filter) (key : bytes) : list Z :=
  positions (numBits f) (u32 (Sum128 key).1) (u32 (Sum128 key).2) 0 (Z.to_nat (nHash f)).

Lemma filter_ok_pos f : filter_ok f -> (0 < numBits f)%Z.
Proof. intros [? -> ? ?]. lia. Qed.

Lemma Add_ok f key :
  filter_ok f ->
  exists f', Add Sum128 f key = Ok f' /\ filter_ok f' /\
    numBits f' = numBits f /\ nHash f' = nHash f /\
    forall q, (0 <= q < numBits f)%Z ->
      bit_set (bits f') q = bit_set (bits f) q || bool_decide (q ∈ key_positions f key).
Proof.
  intros Hf. pose proof (filter_ok_pos f Hf). destruct Hf as [H1 H2 H3 H4]. unfold Add.
  destruct (Z.eqb_spec (len (bits f)) 0); [lia|].
  unfold key_positions. destruct (Sum128 key) as [h1 h2]. cbn [fst snd].
  destruct (add_loop_ok f (u32 h1) (u32 h2) (Z.to_nat (nHash f)) 0 (bits f))
    as (bs & E & Hl & Hb); [done|done|].
  rewrite E. simpl. eexists. split; [done|]. split; [split; simpl; lia|]. done.
Qed.

Lemma MayContain_ok f key :
  filter_ok f ->
  MayContain Sum128 f key = Ok (forallb (bit_set (bits f)) (key_positions f key)).
Proof.
  intros Hf. pose proof (filter_ok_pos f Hf). destruct Hf as [H1 H2 H3 H4]. unfold MayContain.
  destruct (Z.eqb_spec (len (bits f)) 0); [lia|].
  unfold key_positions. destruct (Sum128 key) as [h1 h2]. by apply may_loop_ok.
Qed.

Fixpoint AddAll (f : Filter) (keys : list bytes) : outcome Empty_set Filter :=
  match keys with
  | [] => Ok f
  | k :: keys => f ← Add Sum128 f k; AddAll f keys
  end.

(** Adding more keys keeps every set bit. *)
Lemma AddAll_ok keys : forall f,
  filter_ok f ->
  exists f', AddAll f keys = Ok f' /\ filter_ok f' /\
    numBits f' = numBits f /\ nHash f' = nHash f /\
    forall q, (0 <= q < numBits f)%Z ->
      bit_set (bits f') q = true <->
      bit_set (bits f) q = true \/ exists k, k ∈ keys /\ q ∈ key_positions f k.
Proof.
  induction keys as [|k keys IH]; intros f Hf; simpl.
  - exists f. repeat (split; [done|]). intros q _. split; [by left|].
    intros [?|(k & ?%elem_of_nil & _)]; done.
  - destruct (Add_ok f k Hf) as (f1 & -> & Hf1 & Hn1 & Hh1 & Hb1). simpl.
    destruct (IH f1 Hf1) as (f' & -> & Hf' & Hn' & Hh' & Hb').
    exists f'. split; [done|]. split; [done|]. split; [lia|]. split; [lia|].
    intros q Hq. rewrite Hb', Hb1 by lia. rewrite orb_true_iff, bool_decide_eq_true.
    assert (forall k', key_positions f1 k' = key_positions f k') as Hkp
      by (intros; unfold key_positions; by rewrite Hn1, Hh1).
    split.
    + intros [[?|?]|(k' & ? & Hk')]; [by left|right; exists k; split; [left|done]|].
      right. exists k'. rewrite Hkp in Hk'. split; [by right|done].
    + intros [?|(k' & [->|?]%elem_of_cons & ?)]; [tauto|tauto|].
      right. exists k'. by rewrite Hkp.
Qed.

Lemma bit_set_replicate n q : bit_set (replicate n Byte.x00) q = false.
Proof.
  unfold bit_set. destruct (replicate n Byte.x00 !! Z.to_nat (q / 8)) as [b|] eqn:E; [|done].
  apply lookup_replicate in E as [-> _]. apply Z.bits_0.
Qed.

Lemma NewFilter_ok numKeys bitsPerKey :
  let want := (Z.max 0 numKeys * Z.max 1 bitsPerKey)%Z in
  (want < 2 ^ 32 - 7)%Z ->
  let f := NewFilter numKeys bitsPerKey in
  filter_ok f /\ (1 <= nHash f <= 30)%Z /\ (Z.max 64 want <= numBits f < Z.max 64 want + 8)%Z /\
  forall q, bit_set (bits f) q = false.
Proof.
  intros want Hw. unfold NewFilter.
  assert ((if (numKeys <? 0)%Z then 0%Z else numKeys) = Z.max 0 numKeys) as ->
    by (destruct (Z.ltb_spec numKeys 0); lia).
  assert ((if (bitsPerKey <? 1)%Z then 1%Z else bitsPerKey) = Z.max 1 bitsPerKey) as ->
    by (destruct (Z.ltb_spec bitsPerKey 1); lia).
  fold want. assert (0 <= want)%Z by (unfold want; apply Z.mul_nonneg_nonneg; lia).
  assert (u32 (i64 want) = want) as ->.
  { unfold u32, i64. rewrite (Z.mod_small (want + 2 ^ 63)) by lia.
    replace (want + 2 ^ 63 - 2 ^ 63)%Z with want by lia. apply Z.mod_small. lia. }
  assert ((if (want <? 64)%Z then 64%Z else want) = Z.max 64 want) as ->
    by (destruct (Z.ltb_spec want 64); lia).
  set (nb := Z.max 64 want) in *.
  assert (u32 (nb + 7) = (nb + 7)%Z) as -> by (unfold u32; apply Z.mod_small; lia).
  pose proof (Z.div_mod (nb + 7) 8 ltac:(lia)). pose proof (Z.mod_pos_bound (nb + 7) 8 ltac:(lia)).
  set (nbytes := ((nb + 7) / 8)%Z) in *.
  assert (u32 (nbytes * 8) = (nbytes * 8)%Z) as -> by (unfold u32; apply Z.mod_small; lia).
  set (h := u32 (trunc _)).
  assert (1 <= (if (h <? 1)%Z then 1 else if (30 <? h)%Z then 30 else h) <= 30)%Z
    by (destruct (Z.ltb_spec h 1), (Z.ltb_spec 30 h); lia).
  set (h' := if (h <? 1)%Z then _ else _) in *.
  split; [split; cbn [bits numBits nHash]; rewrite ?len_replicate; lia|].
  cbn [bits numBits nHash]. split; [done|]. split; [lia|]. intros q. apply bit_set_replicate.
Qed.

Lemma DecodeFilter_Encode f : filter_ok f -> DecodeFilter (Encode f) = f.
Proof.
  intros [H1 H2 H3 H4]. unfold DecodeFilter, Encode.
  rewrite b2z_z2b, Z.mod_small by lia. unfold u32.
  rewrite (Z.mod_small (len (bits f) * 8)) by lia.
  destruct f as [bs nh nb]. simpl in *. f_equal. lia.
Qed.

(** What a filter promises to its users: the keys added are reported. *)
Definition covers (f : Filter) (keys : list bytes) : Prop :=
  filter_ok f /\ forall k, k ∈ keys -> MayContain Sum128 f k = Ok true.

Lemma covers_nil f : filter_ok f -> covers f [].
Proof. intros Hf. split; [done|]. by intros k ?%elem_of_nil. Qed.

Lemma covers_Add f keys key :
  covers f keys -> exists f', Add Sum128 f key = Ok f' /\ covers f' (keys ++ [key]).
Proof.
  intros [Hf Hk]. destruct (Add_ok f key Hf) as (f' & E & Hf' & Hn & Hh & Hb).
  exists f'. split; [done|]. split; [done|]. intros k Hin. rewrite MayContain_ok by done. f_equal.
  assert (forall k, key_positions f' k = key_positions f k) as Hpos.
  { intros k'. unfold key_positions. by rewrite Hn, Hh. }
  rewrite Hpos. apply forallb_forall. intros q Hq%list_elem_of_In.
  assert (0 <= q < numBits f)%Z as Hr by (by eapply positions_range; [apply filter_ok_pos|]). rewrite Hb by done.
  apply elem_of_app in Hin as [Hin|Hin].
  - specialize (Hk k Hin). rewrite MayContain_ok in Hk by done. apply (inj Ok) in Hk.
    rewrite forallb_forall in Hk. rewrite Hk; [done|by apply list_elem_of_In].
  - apply list_elem_of_singleton in Hin as ->. rewrite bool_decide_true by done. apply orb_true_r.
Qed.

Lemma covers_decode f keys : covers f keys -> covers (DecodeFilter (Encode f)) keys.
Proof. intros [Hf Hk]. rewrite DecodeFilter_Encode by done. by split. Qed.

(** ** Properties *)

(** C27: no false negatives, over the life of a filter in the store: every key
    added to a fresh filter is reported present by the filter decoded from its
    encoding, for any hash function.  No operation panics. *)
Theorem bloom_no_false_negatives (numKeys bitsPerKey : Z) (keys : list bytes)
    (Hsize : (Z.max 0 numKeys * Z.max 1 bitsPerKey < 2 ^ 32 - 7)%Z) :
  exists f, AddAll (NewFilter numKeys bitsPerKey) keys = Ok f /\
    forall k, k ∈ keys -> MayContain Sum128 (DecodeFilter (Encode f)) k = Ok true.
Proof.
  destruct (NewFilter_ok numKeys bitsPerKey Hsize) as (Hf & _ & _ & _).
  destruct (AddAll_ok keys _ Hf) as (f & E & Hf' & Hn & Hh & Hb).
  exists f. split; [done|]. intros k Hk. rewrite DecodeFilter_Encode, MayContain_ok by done.
  f_equal. apply forallb_forall. intros q Hq%list_elem_of_In.
  assert (0 <= q < numBits (NewFilter numKeys bitsPerKey))%Z
    by (rewrite <- Hn; eapply positions_range; [by apply filter_ok_pos|done]).
  apply Hb; [done|]. right. exists k. split; [done|].
  unfold key_positions in *. by rewrite <- Hn, <- Hh.
Qed.

(** [MayContain] is exact about bits: after adding [keys] to a fresh filter it
    answers true exactly for the keys all of whose positions are positions of
    added keys, so a fresh filter with no key reports every key absent. *)
Theorem MayContain_exact (numKeys bitsPerKey : Z) (keys : list bytes) (f : Filter)
    (Hsize : (Z.max 0 numKeys * Z.max 1 bitsPerKey < 2 ^ 32 - 7)%Z)
    (Hadd : AddAll (NewFilter numKeys bitsPerKey) keys = Ok f) (k : bytes) :
  exists b, MayContain Sum128 f k = Ok b /\
    (b = true <-> forall q, q ∈ key_positions f k ->
                  exists k', k' ∈ keys /\ q ∈ key_positions f k').
Proof.
  destruct (NewFilter_ok numKeys bitsPerKey Hsize) as (Hf & _ & _ & H0).
  destruct (AddAll_ok keys _ Hf) as (f' & E & Hf' & Hn & Hh & Hb).
  rewrite E in Hadd. injection Hadd as ->.
  rewrite MayContain_ok by done. eexists. split; [done|]. rewrite forallb_forall.
  assert (forall k', key_positions (NewFilter numKeys bitsPerKey) k' = key_positions f k') as Hkp
    by (intros; unfold key_positions; by rewrite Hn, Hh).
  split; intros H q Hq.
  - specialize (H q (proj1 (list_elem_of_In _ _) Hq)). apply Hb in H.
    + rewrite H0 in H. destruct H as [?|(k' & ? & ?)]; [done|]. exists k'. by rewrite <- Hkp.
    + rewrite <- Hn. eapply positions_range; [by apply filter_ok_pos|done].
  - apply list_elem_of_In in Hq. destruct (H q Hq) as (k' & ? & ?). apply Hb.
    + rewrite <- Hn. eapply positions_range; [by apply filter_ok_pos|done].
    + right. exists k'. by rewrite Hkp.
Qed.

End properties.

(** [NewFilter] sizes the filter: for any request below 2^32 - 7 bits it
    allocates the requested bits rounded up to a byte, at least 64, all clear,
    with 1 to 30 hash functions, and the encoding of such a filter decodes to
    itself. *)
Theorem NewFilter_bounds (numKeys bitsPerKey : Z)
    (Hsize : (Z.max 0 numKeys * Z.max 1 bitsPerKey < 2 ^ 32 - 7)%Z) :
  let want := (Z.max 0 numKeys * Z.max 1 bitsPerKey)%Z in
  let f := NewFilter numKeys bitsPerKey in
  numBits f = (8 * len (bits f))%Z /\ (1 <= nHash f <= 30)%Z /\
  (Z.max 64 want <= numBits f < Z.max 64 want + 8)%Z /\
  DecodeFilter (Encode f) = f.
Proof.
  destruct (NewFilter_ok numKeys bitsPerKey Hsize) as (Hf & Hh & Hn & _). cbn zeta.
  split; [apply Hf|]. split; [done|]. split; [done|]. by apply DecodeFilter_Encode.
Qed.

(** A hash for concrete evaluations. *)
Definition toy_hash (key : bytes) : Z * Z := (get_le key * 31, get_le key + 7)%Z.

Lemma bloom_no_false_negatives_witness :
  exists f, AddAll toy_hash (NewFilter 3 10) [str "a"; str "bc"] = Ok f /\
    MayContain toy_hash (DecodeFilter (Encode f)) (str "bc") = Ok true.
Proof.
  destruct (bloom_no_false_negatives toy_hash 3 10 [str "a"; str "bc"]) as (f & E & H);
    [vm_compute; reflexivity|].
  exists f. split; [exact E|]. apply H. right. left.
Defined.

Lemma MayContain_exact_witness :
  exists b, MayContain toy_hash (NewFilter 3 10) (str "zz") = Ok b /\
    (b = true <-> forall q, q ∈ key_positions toy_hash (NewFilter 3 10) (str "zz") ->
       exists k', k' ∈ ([] : list bytes) /\ q ∈ key_positions toy_hash (NewFilter 3 10) k').
Proof.
  apply (MayContain_exact toy_hash 3 10 []); [vm_compute; reflexivity|reflexivity].
Defined.

Lemma NewFilter_bounds_witness :
  numBits (NewFilter 10000 10) = (8 * len (bits (NewFilter 10000 10)))%Z.
Proof. apply (NewFilter_bounds 10000 10). vm_compute. reflexivity. Defined.
