(* ===== verification/Files.v ===== *)
(** * Files (the part of package [os] the store uses)

    A file open for appending is its bytes, how many of them have been made durable,
    and the faults the operating system will inject: [Some n] makes the next call
    fail after writing [n] bytes.  A file open for reading is its bytes. *)

From S2P Require Import Prelude.

Record File := mkFile { fdata : bytes; fsynced : Z; faults : list (option nat) }.

Definition file_write (f : File) (bs : bytes) : File * bool :=
  match faults f with
  | Some n :: fs => (mkFile (fdata f ++ take n bs) (fsynced f) fs, true)
  | None :: fs => (mkFile (fdata f ++ bs) (fsynced f) fs, false)
  | [] => (mkFile (fdata f ++ bs) (fsynced f) [], false)
  end.

Definition file_sync (f : File) : File * bool :=
  match faults f with
  | Some _ :: fs => (mkFile (fdata f) (fsynced f) fs, true)
  | None :: fs => (mkFile (fdata f) (len (fdata f)) fs, false)
  | [] => (mkFile (fdata f) (len (fdata f)) [], false)
  end.

Definition file_close (f : File) : File * bool :=
  match faults f with
  | Some _ :: fs => (mkFile (fdata f) (fsynced f) fs, true)
  | None :: fs => (mkFile (fdata f) (fsynced f) fs, false)
  | [] => (f, false)
  end.

(** [ReadAt(buf, off)] with a buffer of [n] bytes: [None] is an error. *)
Definition read_at (data : bytes) (off n : Z) : option bytes :=
  if (off <? 0)%Z then None
  else if (n =? 0)%Z then Some []
  else if (off + n <=? len data)%Z then Some (take (Z.to_nat n) (drop (Z.to_nat off) data))
  else None.

Lemma read_at_mid data pre mid post off n :
  data = pre ++ mid ++ post -> off = len pre -> n = len mid -> read_at data off n = Some mid.
Proof.
  intros -> -> ->. unfold read_at. pose proof (len_nonneg pre). pose proof (len_nonneg post).
  rewrite (proj2 (Z.ltb_ge _ _)) by lia. destruct (Z.eqb_spec (len mid) 0) as [E|E].
  { by apply len_zero_inv in E as ->. }
  rewrite !len_app, (proj2 (Z.leb_le _ _)) by lia. unfold len. rewrite !Nat2Z.id.
  by rewrite drop_app_length, take_app_length.
Qed.
