(* ===== verification/WalBatch.v ===== *)
(** * Write batches (internal/wal/batch.go)

    A batch is encoded as [count(4)] followed by, per entry,
    [op(1) klen(4) key vlen(4) value].  [Encode] fills a preallocated buffer at
    increasing offsets; every access is checked as Go checks it, so the theorems
    also show that neither direction panics.  A Go value slice is [option bytes]:
    [None] is [nil]. *)

From S2P Require Import Prelude.

(** The errors of package [wal]; [EOF] is [io.EOF] and [ErrIO] any error of the
    operating system. *)
Inductive wal_error :=
| ErrInvalidBatch
| ErrCorruptRecord
| ErrShortRecord
| ErrClosed
| ErrIO
| EOF.

#[export] Instance wal_error_eq_dec : EqDecision wal_error.
Proof. solve_decision. Defined.

Module wal_batch.

(** [type OpType byte]. *)
Definition OpPut : byte := Byte.x01.
Definition OpDelete : byte := Byte.x02.

Record BatchEntry := mkEntry { Op : byte; Key : bytes; Value : option bytes }.

Record Batch := mkBatch { Entries : list BatchEntry }.

#[export] Instance BatchEntry_eq_dec : EqDecision BatchEntry.
Proof. solve_decision. Defined.

#[export] Instance Batch_eq_dec : EqDecision Batch.
Proof. solve_decision. Defined.

Definition empty_batch : Batch := mkBatch [].

Definition Put (b : Batch) (key : bytes) (value : option bytes) : Batch :=
  mkBatch (Entries b ++ [mkEntry OpPut key value]).

Definition Delete (b : Batch) (key : bytes) : Batch :=
  mkBatch (Entries b ++ [mkEntry OpDelete key None]).

(** The bytes of a value slice; [nil] has none. *)
Definition val_bytes (v : option bytes) : bytes := default [] v.

Definition encoded_size (es : list BatchEntry) : Z :=
  foldl (fun size e => size + (1 + 4 + len (Key e) + 4 + len (val_bytes (Value e))))%Z 4%Z es.

Fixpoint encode_loop (es : list BatchEntry) (buf : bytes) (offset : Z)
    : outcome Empty_set bytes :=
  match es with
  | [] => Ok buf
  | e :: es =>
      buf ← put_at buf offset [Op e];
      let offset := (offset + 1)%Z in
      buf ← put_at buf offset (put_le 4 (len (Key e)));
      let offset := (offset + 4)%Z in
      buf ← put_at buf offset (Key e);
      let offset := (offset + len (Key e))%Z in
      buf ← put_at buf offset (put_le 4 (len (val_bytes (Value e))));
      let offset := (offset + 4)%Z in
      buf ← put_at buf offset (val_bytes (Value e));
      encode_loop es buf (offset + len (val_bytes (Value e)))
  end.

Definition Encode (b : Batch) : outcome Empty_set bytes :=
  let buf := replicate (Z.to_nat (encoded_size (Entries b))) Byte.x00 in
  buf ← put_at buf 0 (put_le 4 (len (Entries b)));
  encode_loop (Entries b) buf 4.

(** The loop of [DecodeBatch]; each iteration consumes at least nine bytes, so
    the length of the input is enough fuel ([decode_loop_total]). *)
Fixpoint decode_loop (fuel : nat) (data : bytes) (count i offset : Z) (acc : list BatchEntry)
    : outcome wal_error (list BatchEntry) :=
  if (i <? count)%Z then
    match fuel with
    | O => Fuel
    | S fuel =>
        if (len data <? offset + 1)%Z then Err ErrInvalidBatch else
        op ← index data offset;
        let offset := (offset + 1)%Z in
        if (len data <? offset + 4)%Z then Err ErrInvalidBatch else
        kl ← slice data offset (offset + 4);
        let kLen := get_le kl in
        let offset := (offset + 4)%Z in
        if (len data <? offset + kLen)%Z then Err ErrInvalidBatch else
        key ← slice data offset (offset + kLen);
        let offset := (offset + kLen)%Z in
        if (len data <? offset + 4)%Z then Err ErrInvalidBatch else
        vl ← slice data offset (offset + 4);
        let vLen := get_le vl in
        let offset := (offset + 4)%Z in
        if (len data <? offset + vLen)%Z then Err ErrInvalidBatch else
        value ← (if (0 <? vLen)%Z
                 then v ← slice data offset (offset + vLen); Ok (Some v)
                 else Ok None);
        decode_loop fuel data count (i + 1) (offset + vLen) (acc ++ [mkEntry op key value])
    end
  else Ok acc.

Definition DecodeBatch (data : bytes) : outcome wal_error Batch :=
  if (len data <? 4)%Z then Err ErrInvalidBatch
  else
    c ← slice data 0 4;
    es ← decode_loop (length data) data (get_le c) 0 4 [];
    Ok (mkBatch es).

End wal_batch.
Import wal_batch.

(** ** The format *)

Definition enc_entry (e : BatchEntry) : bytes :=
  [Op e] ++ put_le 4 (len (Key e)) ++ Key e ++
  put_le 4 (len (val_bytes (Value e))) ++ val_bytes (Value e).

Definition enc_entries (es : list BatchEntry) : bytes := concat (map enc_entry es).

Definition enc_batch (b : Batch) : bytes :=
  put_le 4 (len (Entries b)) ++ enc_entries (Entries b).

(** An entry whose lengths fit the 4-byte fields. *)
Definition entry_ok (e : BatchEntry) : Prop :=
  (len (Key e) < 2 ^ 32)%Z /\ (len (val_bytes (Value e)) < 2 ^ 32)%Z.

Definition batch_ok (b : Batch) : Prop :=
  (len (Entries b) < 2 ^ 32)%Z /\ Forall entry_ok (Entries b).

(** What decoding makes of a value: an empty slice comes back as [nil]. *)
Definition norm_value (v : option bytes) : option bytes :=
  match v with Some [] => None | _ => v end.
Definition norm_entry (e : BatchEntry) : BatchEntry :=
  mkEntry (Op e) (Key e) (norm_value (Value e)).
Definition norm_batch (b : Batch) : Batch := mkBatch (map norm_entry (Entries b)).

Lemma len_enc_entry e :
  len (enc_entry e) = (9 + len (Key e) + len (val_bytes (Value e)))%Z.
Proof. unfold enc_entry. len_lia. Qed.

Lemma enc_entries_cons e es : enc_entries (e :: es) = enc_entry e ++ enc_entries es.
Proof. done. Qed.

Lemma encoded_size_eq es : encoded_size es = (4 + len (enc_entries es))%Z.
Proof.
  unfold encoded_size. set (add := fun (_ : Z) (_ : BatchEntry) => _).
  enough (forall z, foldl add z es = (z + len (enc_entries es))%Z) as H by apply H.
  induction es as [|e es IH]; intros z; simpl.
  - unfold enc_entries. simpl. len_lia.
  - rewrite IH, enc_entries_cons, len_app, len_enc_entry. unfold add. lia.
Qed.

Lemma enc_entry_norm e : enc_entry (norm_entry e) = enc_entry e.
Proof. destruct e as [op k [[|]|]]; done. Qed.

Lemma enc_batch_norm b : enc_batch (norm_batch b) = enc_batch b.
Proof.
  unfold enc_batch, norm_batch, enc_entries, len. simpl. rewrite length_map, map_map.
  do 2 f_equal. apply map_ext. apply enc_entry_norm.
Qed.

(** ** Encoding *)

(** Writing [bs] at the end of what has been written so far. *)
Lemma put_at_next {E} (pre rest bs : bytes) off :
  off = len pre -> (len bs <= len rest)%Z ->
  @put_at E _ (pre ++ rest) off bs = Ok ((pre ++ bs) ++ drop (length bs) rest).
Proof.
  intros -> Hl. rewrite <- app_assoc.
  apply (put_at_at _ pre (take (length bs) rest) (drop (length bs) rest)).
  - by rewrite take_drop.
  - done.
  - unfold len in *. rewrite length_take. lia.
Qed.

Lemma encode_loop_ok es : forall pre rest,
  len rest = len (enc_entries es) ->
  encode_loop es (pre ++ rest) (len pre) = Ok (pre ++ enc_entries es).
Proof.
  induction es as [|e es IH]; intros pre rest Hl.
  - apply len_zero_inv in Hl as ->. done.
  - rewrite enc_entries_cons, len_app, len_enc_entry in Hl.
    pose proof (len_nonneg (enc_entries es)). pose proof (len_nonneg (Key e)).
    pose proof (len_nonneg (val_bytes (Value e))). cbn [encode_loop].
    assert (forall n l, (Z.of_nat n <= len (l : bytes))%Z -> len (drop n l) = (len l - Z.of_nat n)%Z)
      as Hdrop by (intros n l; unfold len; rewrite length_drop; lia).
    do 5 (rewrite put_at_next;
      [cbn [mbind outcome_bind]|len_lia
      |rewrite ?Hdrop; unfold len in *; rewrite ?length_drop, ?length_put_le in *; simpl in *; lia]).
    match goal with |- encode_loop es ((?p) ++ ?r) ?o = _ =>
      replace o with (len p) by len_lia; rewrite (IH p r) end.
    + rewrite enc_entries_cons. unfold enc_entry. by rewrite <- !app_assoc.
    + unfold len in *. rewrite !length_drop, !length_put_le in *. simpl in *. lia.
Qed.

Lemma Encode_ok b : Encode b = Ok (enc_batch b).
Proof.
  unfold Encode. rewrite encoded_size_eq. pose proof (len_nonneg (enc_entries (Entries b))).
  set (buf := replicate _ _). change buf with ([] ++ buf).
  rewrite put_at_next by (done || (unfold buf; len_lia)).
  cbn [mbind outcome_bind app]. replace 4%Z with (len (put_le 4 (len (Entries b)))) at 2 by len_lia.
  rewrite encode_loop_ok; [done|].
  unfold buf, len in *. rewrite length_drop, length_replicate, length_put_le. lia.
Qed.

(** ** Decoding *)

Lemma get_le_len4 {A} (l : list A) : (len l < 2 ^ 32)%Z -> get_le (put_le 4 (len l)) = len l.
Proof. intros H. pose proof (len_nonneg l). apply get_le_put_le_small. simpl. lia. Qed.

(** One iteration on an encoded entry. *)
Lemma decode_loop_entry fuel data count i acc pre e post :
  entry_ok e -> data = pre ++ enc_entry e ++ post -> (i < count)%Z ->
  decode_loop (S fuel) data count i (len pre) acc =
  decode_loop fuel data count (i + 1) (len (pre ++ enc_entry e)) (acc ++ [norm_entry e]).
Proof.
  intros [Hk Hv] Hdata Hi. cbn [decode_loop]. ltb_true.
  pose proof (len_nonneg post). pose proof (len_nonneg (Key e)).
  pose proof (len_nonneg (val_bytes (Value e))). pose proof (len_nonneg pre).
  assert (len data = (len pre + 9 + len (Key e) + len (val_bytes (Value e)) + len post)%Z) as Hlen
    by (rewrite Hdata, !len_app, len_enc_entry; lia).
  unfold enc_entry in Hdata. simpl in Hdata.
  set (kl := put_le 4 (len (Key e))) in *.
  set (vl := put_le 4 (len (val_bytes (Value e)))) in *.
  assert (len kl = 4%Z /\ len vl = 4%Z) as [Hkl Hvl] by (unfold kl, vl; len_lia).
  set (o1 := (len pre + 1)%Z). set (o2 := (o1 + 4)%Z).
  rewrite (proj2 (Z.ltb_ge (len data) o1)) by lia.
  rewrite (index_at data pre _ (Op e)) by (done || eassumption).
  cbn [mbind outcome_bind]. rewrite (proj2 (Z.ltb_ge (len data) o2)) by lia.
  rewrite (slice_at data (pre ++ [Op e]) kl (Key e ++ vl ++ val_bytes (Value e) ++ post) o1 o2)
    by ((rewrite Hdata; app_solve) || len_lia).
  cbn [mbind outcome_bind]. replace (get_le kl) with (len (Key e)) by (symmetry; by apply get_le_len4).
  set (o3 := (o2 + len (Key e))%Z). set (o4 := (o3 + 4)%Z).
  rewrite (proj2 (Z.ltb_ge (len data) o3)) by lia.
  rewrite (slice_at data (pre ++ [Op e] ++ kl) (Key e) (vl ++ val_bytes (Value e) ++ post) o2 o3)
    by ((rewrite Hdata; app_solve) || len_lia).
  cbn [mbind outcome_bind]. rewrite (proj2 (Z.ltb_ge (len data) o4)) by lia.
  rewrite (slice_at data (pre ++ [Op e] ++ kl ++ Key e) vl (val_bytes (Value e) ++ post) o3 o4)
    by ((rewrite Hdata; app_solve) || len_lia).
  cbn [mbind outcome_bind].
  replace (get_le vl) with (len (val_bytes (Value e))) by (symmetry; by apply get_le_len4).
  set (o5 := (o4 + len (val_bytes (Value e)))%Z).
  rewrite (proj2 (Z.ltb_ge (len data) o5)) by lia.
  rewrite (slice_at data (pre ++ [Op e] ++ kl ++ Key e ++ vl) (val_bytes (Value e)) post o4 o5)
    by ((rewrite Hdata; app_solve) || len_lia).
  assert ((if (0 <? len (val_bytes (Value e)))%Z
           then v ← Ok (val_bytes (Value e)); Ok (Some v) else Ok None)
          = (Ok (norm_value (Value e)) : outcome wal_error _)) as ->.
  { destruct e as [op k [[|b v]|]]; done. }
  cbn [mbind outcome_bind]. f_equal. rewrite len_app, len_enc_entry. lia.
Qed.

Lemma decode_loop_entries es : forall fuel data i acc pre post,
  Forall entry_ok es -> data = pre ++ enc_entries es ++ post -> (length es <= fuel)%nat ->
  decode_loop fuel data (i + len es) i (len pre) acc = Ok (acc ++ map norm_entry es).
Proof.
  induction es as [|e es IH]; intros fuel data i acc pre post Hes Hdata Hfuel; cbn [length map] in *.
  - replace (i + len [])%Z with i by (len_nils; lia).
    rewrite app_nil_r. destruct fuel; simpl; by rewrite Z.ltb_irrefl.
  - destruct fuel as [|fuel]; [lia|]. apply Forall_cons in Hes as [He Hes].
    rewrite enc_entries_cons, <- app_assoc in Hdata.
    pose proof (len_nonneg es).
    rewrite (decode_loop_entry _ _ _ _ _ _ e (enc_entries es ++ post)) by (done || len_lia).
    rewrite len_cons. replace (i + (1 + len es))%Z with ((i + 1) + len es)%Z by lia.
    rewrite (IH fuel data (i + 1)%Z _ (pre ++ enc_entry e) post);
      [|done|by rewrite <- app_assoc|lia].
    by rewrite <- app_assoc.
Qed.

Lemma enc_entries_length es : (length es <= length (enc_entries es))%nat.
Proof.
  induction es as [|e es IH]; cbn [length]; [lia|]. rewrite enc_entries_cons, length_app.
  pose proof (len_enc_entry e) as H. pose proof (len_nonneg (Key e)).
  pose proof (len_nonneg (val_bytes (Value e))). unfold len at 1 in H. lia.
Qed.

Lemma DecodeBatch_enc b post :
  batch_ok b -> DecodeBatch (enc_batch b ++ post) = Ok (norm_batch b).
Proof.
  intros [Hn Hes]. unfold DecodeBatch, enc_batch. rewrite <- app_assoc.
  pose proof (len_nonneg (enc_entries (Entries b))). pose proof (len_nonneg post).
  rewrite (proj2 (Z.ltb_ge _ _)) by len_lia.
  set (data := put_le 4 (len (Entries b)) ++ enc_entries (Entries b) ++ post).
  rewrite (slice_at data [] (put_le 4 (len (Entries b))) (enc_entries (Entries b) ++ post))
    by (done || len_lia).
  cbn [mbind outcome_bind]. rewrite get_le_len4 by done.
  replace 4%Z with (len (put_le 4 (len (Entries b)))) by len_lia.
  pose proof (decode_loop_entries (Entries b) (length data) data 0 []
    (put_le 4 (len (Entries b))) post Hes eq_refl) as E.
  rewrite Z.add_0_l in E. rewrite E; [done|].
  unfold data. rewrite !length_app. pose proof (enc_entries_length (Entries b)). lia.
Qed.

(** On any input the loop either rejects it or has read the encoding of what it
    returns; it neither panics nor runs out of fuel. *)
Lemma decode_loop_total fuel : forall data count i offset acc,
  (0 <= offset <= len data)%Z -> (len data - offset < Z.of_nat fuel)%Z -> (i <= count)%Z ->
  decode_loop fuel data count i offset acc = Err ErrInvalidBatch \/
  exists es post, decode_loop fuel data count i offset acc = Ok (acc ++ es) /\
    zdrop offset data = enc_entries es ++ post /\ len es = (count - i)%Z /\
    Forall entry_ok es /\ map norm_entry es = es.
Proof.
  induction fuel as [|fuel IH]; intros data count i offset acc Ho Hf Hi; [lia|].
  cbn [decode_loop]. destruct (Z.ltb_spec i count) as [Hlt|Hge].
  2:{ right. exists [], (zdrop offset data). rewrite app_nil_r.
      split; [done|]. split; [done|]. len_nils. split; [lia|]. by split. }
  destruct (Z.ltb_spec (len data) (offset + 1)); [by left|].
  destruct (@index_zdrop wal_error _ data offset) as (op & -> & D1); [lia|].
  cbn [mbind outcome_bind].
  destruct (Z.ltb_spec (len data) (offset + 1 + 4)); [by left|].
  destruct (@slice_zdrop wal_error _ data (offset + 1) (offset + 1 + 4)) as (kl & -> & Lk & D2);
    [lia|lia|]. cbn [mbind outcome_bind].
  assert (len kl = 4%Z) as Lk' by lia.
  pose proof (get_le_range kl) as Rk. rewrite Lk' in Rk.
  destruct (Z.ltb_spec (len data) (offset + 1 + 4 + get_le kl)); [by left|].
  destruct (@slice_zdrop wal_error _ data (offset + 1 + 4) (offset + 1 + 4 + get_le kl))
    as (key & -> & Lkey & D3); [lia|lia|]. cbn [mbind outcome_bind].
  destruct (Z.ltb_spec (len data) (offset + 1 + 4 + get_le kl + 4)); [by left|].
  destruct (@slice_zdrop wal_error _ data (offset + 1 + 4 + get_le kl) (offset + 1 + 4 + get_le kl + 4))
    as (vl & -> & Lv & D4); [lia|lia|]. cbn [mbind outcome_bind].
  assert (len vl = 4%Z) as Lv' by lia.
  pose proof (get_le_range vl) as Rv. rewrite Lv' in Rv.
  set (o := (offset + 1 + 4 + get_le kl + 4)%Z) in *.
  destruct (Z.ltb_spec (len data) (o + get_le vl)); [by left|].
  destruct (@slice_zdrop wal_error _ data o (o + get_le vl)) as (v & -> & Lval & D5); [lia|lia|].
  set (e := mkEntry op key (if (0 <? get_le vl)%Z then Some v else None)).
  replace (if (0 <? get_le vl)%Z then v0 ← Ok v; Ok (Some v0) else Ok None)
    with (Ok (E:=wal_error) (Value e)) by (unfold e; simpl; by destruct (0 <? get_le vl)%Z).
  assert (val_bytes (Value e) = v) as Hv.
  { unfold e; simpl. destruct (Z.ltb_spec 0 (get_le vl)); [done|].
    symmetry. apply len_zero_inv. lia. }
  assert (entry_ok e) as Hok by (unfold entry_ok; rewrite Hv; simpl; lia).
  assert (norm_entry e = e) as Hnorm.
  { unfold norm_entry, e; simpl. f_equal. destruct (Z.ltb_spec 0 (get_le vl)); [|done].
    destruct v; [|done]. len_nils. lia. }
  assert (enc_entry e ++ zdrop (o + get_le vl) data = zdrop offset data) as Henc.
  { rewrite D1, D2, D3, D4. fold o. rewrite D5. unfold enc_entry. rewrite Hv. simpl.
    replace (len key) with (get_le kl) by lia. replace (len v) with (get_le vl) by lia.
    replace 4%nat with (length kl) at 1 by (unfold len in Lk; lia).
    replace 4%nat with (length vl) at 1 by (unfold len in Lv; lia).
    rewrite !put_le_get_le. app_solve. }
  cbn [mbind outcome_bind]. change (mkEntry op key (Value e)) with e.
  destruct (IH data count (i + 1)%Z (o + get_le vl)%Z (acc ++ [e])) as [?|(es & post & E & D & L & F & N)];
    [lia|lia|lia|by left|]. right. exists (e :: es), post. rewrite E.
  split; [by rewrite <- app_assoc|]. split; [by rewrite <- Henc, D, enc_entries_cons, app_assoc|].
  rewrite len_cons. split; [lia|]. split; [by constructor|]. simpl. by rewrite Hnorm, N.
Qed.

Lemma DecodeBatch_total data :
  DecodeBatch data = Err ErrInvalidBatch \/
  exists b post, DecodeBatch data = Ok b /\ data = enc_batch b ++ post /\
    batch_ok b /\ norm_batch b = b.
Proof.
  unfold DecodeBatch. destruct (Z.ltb_spec (len data) 4); [by left|].
  destruct (@slice_zdrop wal_error _ data 0 4) as (c & -> & Lc & Dc); [lia|lia|].
  cbn [mbind outcome_bind]. assert (len c = 4%Z) as Lc' by lia.
  pose proof (get_le_range c) as Rc. rewrite Lc' in Rc.
  destruct (decode_loop_total (length data) data (get_le c) 0 4 []) as [->|(es & post & -> & D & L & F & N)];
    [lia|unfold len in *; lia|lia|by left|].
  right. exists (mkBatch es), post. simpl. split; [done|]. split; [|split].
  - unfold enc_batch. simpl. rewrite <- app_assoc, <- D.
    replace (len es) with (get_le c) by lia.
    replace 4%nat with (length c) at 1 by (unfold len in Lc; lia).
    rewrite put_le_get_le, <- Dc. done.
  - split; simpl; [lia|done].
  - unfold norm_batch. simpl. by rewrite N.
Qed.

Lemma norm_batch_id b :
  Forall (fun e => Value e <> Some []) (Entries b) -> norm_batch b = b.
Proof.
  destruct b as [es]. unfold norm_batch. simpl. intros H. f_equal.
  induction H as [|e es He _ IH]; simpl; [done|]. rewrite IH. f_equal.
  destruct e as [op k [[|]|]]; done.
Qed.

Lemma DecodeBatch_torn b n :
  batch_ok b -> (n < length (enc_batch b))%nat ->
  DecodeBatch (take n (enc_batch b)) = Err ErrInvalidBatch.
Proof.
  intros Hb Hn. destruct (DecodeBatch_total (take n (enc_batch b)))
    as [?|(b' & post & _ & Hd & Hb' & Hnorm)]; [done|]. exfalso.
  pose proof (DecodeBatch_enc b' (post ++ drop n (enc_batch b)) Hb') as E.
  rewrite app_assoc, <- Hd, take_drop in E.
  pose proof (DecodeBatch_enc b [] Hb) as E2. rewrite app_nil_r, E in E2.
  apply (inj Ok) in E2. apply (f_equal enc_batch) in E2. rewrite !enc_batch_norm in E2.
  apply (f_equal length) in Hd. rewrite E2, length_app, length_take in Hd. lia.
Qed.

(** ** Properties *)

(** C26: [DecodeBatch] inverts [Encode], whatever follows the encoding, for every
    batch whose lengths fit their 4-byte fields; the only difference is that an
    empty value comes back as [nil].  Neither function panics. *)
Theorem Encode_DecodeBatch_roundtrip (b : Batch) (Hb : batch_ok b) :
  exists bs, Encode b = Ok bs /\
    (forall post, DecodeBatch (bs ++ post) = Ok (norm_batch b)) /\
    (Forall (fun e => Value e <> Some []) (Entries b) -> DecodeBatch bs = Ok b).
Proof.
  exists (enc_batch b). split; [apply Encode_ok|]. split.
  - intros post. by apply DecodeBatch_enc.
  - intros Hne. rewrite <- (app_nil_r (enc_batch b)), DecodeBatch_enc by done.
    by rewrite norm_batch_id.
Qed.

Definition sample_batch : Batch :=
  Delete (Put empty_batch (str "key1") (Some (str "value1"))) (str "key2").

Lemma sample_batch_ok : batch_ok sample_batch.
Proof. split; [vm_compute; reflexivity|]. repeat constructor; vm_compute; reflexivity. Qed.

Lemma Encode_DecodeBatch_roundtrip_witness :
  exists bs, Encode sample_batch = Ok bs /\ DecodeBatch bs = Ok sample_batch.
Proof.
  destruct (Encode_DecodeBatch_roundtrip sample_batch) as (bs & E & _ & H);
    [exact sample_batch_ok|].
  exists bs. split; [exact E|]. apply H. repeat constructor; discriminate.
Defined.

(** C29: [DecodeBatch] is total on arbitrary bytes: it returns an error or a batch
    whose encoding is a prefix of the input, and never panics or fails to
    terminate. *)
Theorem DecodeBatch_total_and_sound (data : bytes) :
  DecodeBatch data = Err ErrInvalidBatch \/
  exists b bs post, DecodeBatch data = Ok b /\ Encode b = Ok bs /\ data = bs ++ post.
Proof.
  destruct (DecodeBatch_total data) as [?|(b & post & E & D & _)]; [by left|right].
  exists b, (enc_batch b), post. split; [done|]. split; [apply Encode_ok|done].
Qed.

(** A torn batch is detected: every proper prefix of an encoded batch is
    rejected. *)
Theorem DecodeBatch_rejects_torn (b : Batch) (bs : bytes) (n : nat)
    (Hb : batch_ok b) (He : Encode b = Ok bs) (Hn : (n < length bs)%nat) :
  DecodeBatch (take n bs) = Err ErrInvalidBatch.
Proof.
  rewrite Encode_ok in He. injection He as <-. by apply DecodeBatch_torn.
Qed.

Lemma DecodeBatch_rejects_torn_witness :
  DecodeBatch (take 11 (enc_batch sample_batch)) = Err ErrInvalidBatch.
Proof.
  apply (DecodeBatch_rejects_torn sample_batch);
    [exact sample_batch_ok|apply Encode_ok|vm_compute; lia].
Defined.

(** Writing an empty value does not survive the log: the decoded entry has a
    [nil] value, which the rest of the store reads as a deletion. *)
Theorem empty_value_decodes_as_nil (key : bytes) (Hk : (len key < 2 ^ 32)%Z) :
  exists bs, Encode (Put empty_batch key (Some [])) = Ok bs /\
    DecodeBatch bs = Ok (Put empty_batch key None).
Proof.
  eexists. split; [apply Encode_ok|].
  rewrite <- (app_nil_r (enc_batch _)), DecodeBatch_enc; [done|].
  split; [done|]. apply Forall_singleton. split; simpl; [done|len_nils; lia].
Qed.

Lemma empty_value_decodes_as_nil_witness :
  exists bs, Encode (Put empty_batch (str "k") (Some [])) = Ok bs /\
    DecodeBatch bs = Ok (Put empty_batch (str "k") None).
Proof. apply (empty_value_decodes_as_nil (str "k")). vm_compute. reflexivity. Defined.
