(* ===== verification/WalLog.v ===== *)
(** * Log files (internal/wal/format.go, writer.go, reader.go)

    The writer cuts records into fragments [crc(4) len(2) type(1) payload] that
    never cross a 32 KB block, buffers one block, and flushes it to the file when
    it is full, on [Sync] and on [Close].  The reader reads the file back block
    by block. *)

From S2P Require Import Prelude Files WalBatch.

#[local] Open Scope Z_scope.

(** ** CRC-32, Castagnoli polynomial (hash/crc32) *)

Definition castagnoli : Z := 0x82f63b78.

Fixpoint crc_bits (n : nat) (crc : Z) : Z :=
  match n with
  | O => crc
  | S n =>
      crc_bits n (if Z.odd crc then Z.lxor (Z.shiftr crc 1) castagnoli else Z.shiftr crc 1)
  end.

(** [crc32.Update]: the table entry of a byte is [crc_bits 8] of it. *)
Definition crc_update (crc : Z) (p : bytes) : Z :=
  Z.lxor (2 ^ 32 - 1)
    (foldl (fun crc v =>
       Z.lxor (crc_bits 8 (Z.lxor (Z.land crc 255) (b2z v))) (Z.shiftr crc 8))
     (Z.lxor (2 ^ 32 - 1) crc) p).

Module wal_log.

Definition BlockSize : Z := 32 * 1024.
Definition HeaderSize : Z := 7.

Definition RecordFull : byte := Byte.x01.
Definition RecordFirst : byte := Byte.x02.
Definition RecordMiddle : byte := Byte.x03.
Definition RecordLast : byte := Byte.x04.

(** ** Writer *)

Record Writer := mkWriter {
  file : File;
  blockBuf : bytes;
  blockUsed : Z;
  closed : bool;
}.

(** [NewWriter] on a file opened with [O_APPEND]. *)
Definition NewWriter (f : File) : Writer :=
  mkWriter f (replicate (Z.to_nat BlockSize) Byte.x00) 0 false.

Definition set_buf (buf : bytes) (w : Writer) : Writer :=
  mkWriter (file w) buf (blockUsed w) (closed w).
Definition set_used (u : Z) (w : Writer) : Writer :=
  mkWriter (file w) (blockBuf w) u (closed w).
Definition set_file (f : File) (w : Writer) : Writer :=
  mkWriter f (blockBuf w) (blockUsed w) (closed w).

Definition buf_put (off : Z) (bs : bytes) : st wal_error Writer unit :=
  buf ← gets blockBuf;
  buf ← lift (put_at buf off bs);
  modify (set_buf buf).

(** [copy(w.blockBuf[off:], bs)] copies as much as fits. *)
Definition buf_copy (off : Z) (bs : bytes) : st wal_error Writer unit :=
  buf ← gets blockBuf;
  if (off <=? len buf)%Z then buf_put off (take (Z.to_nat (len buf - off)) bs)
  else lift Panic.

Definition flushBlock : st wal_error Writer unit := fun w =>
  if (blockUsed w =? 0)%Z then (w, Ok tt)
  else
    match slice (blockBuf w) 0 (blockUsed w) with
    | Ok bs =>
        let '(f, err) := file_write (file w) bs in
        if (err : bool) then (set_file f w, Err ErrIO)
        else (set_used 0 (set_file f w), Ok tt)
    | Err e => (w, Err e)
    | Panic => (w, Panic)
    | Fuel => (w, Fuel)
    end.

Definition record_crc (typ : byte) (payload : bytes) : Z :=
  crc_update (crc_update 0 [typ]) payload.

Definition emitPhysicalRecord (typ : byte) (payload : bytes) : st wal_error Writer unit :=
  used ← gets blockUsed;
  buf_put (used + 4) (put_le 2 (len payload));;
  buf_put (used + 6) [typ];;
  buf_copy (used + 7) payload;;
  buf_put used (put_le 4 (record_crc typ payload));;
  modify (set_used (used + HeaderSize + len payload)).

(** Two iterations consume at least one byte of the record. *)
Fixpoint append_loop (fuel : nat) (record : bytes) (left ptr : Z) (first : bool)
    : st wal_error Writer unit :=
  match fuel with
  | O => lift Fuel
  | S fuel =>
      used ← gets blockUsed;
      let rem := (BlockSize - used)%Z in
      rem ← (if (rem <? HeaderSize)%Z then
               (if (0 <? rem)%Z then
                  buf_put used (replicate (Z.to_nat rem) Byte.x00);;
                  modify (set_used (used + rem))
                else mret tt);;
               flushBlock;;
               mret BlockSize
             else mret rem);
      let avail := (rem - HeaderSize)%Z in
      let frag := if (avail <? left)%Z then avail else left in
      let typ := if first && (frag =? left)%Z then RecordFull
                 else if first then RecordFirst
                 else if (frag =? left)%Z then RecordLast
                 else RecordMiddle in
      payload ← lift (slice record ptr (ptr + frag));
      emitPhysicalRecord typ payload;;
      let ptr := (ptr + frag)%Z in
      let left := (left - frag)%Z in
      if (left <=? 0)%Z then mret tt else append_loop fuel record left ptr false
  end.

Definition Append (record : bytes) : st wal_error Writer unit :=
  c ← gets closed;
  if (c : bool) then throw ErrClosed
  else append_loop (2 * length record + 2) record (len record) 0 true.

Definition Sync : st wal_error Writer unit :=
  c ← gets closed;
  if (c : bool) then throw ErrClosed
  else
    flushBlock;;
    f ← gets file;
    let '(f, err) := file_sync f in
    modify (set_file f);;
    if (err : bool) then throw ErrIO else mret tt.

Definition Close : st wal_error Writer unit := fun w =>
  if closed w then (w, Ok tt)
  else
    let w := mkWriter (file w) (blockBuf w) (blockUsed w) true in
    match flushBlock w with
    | (w, Ok tt) =>
        let '(f, err) := file_close (file w) in
        (set_file f w, if (err : bool) then Err ErrIO else Ok tt)
    | (w, e) => (set_file (file_close (file w)).1 w, e)
    end.

(** ** Reader

    [rfile] is what the file still has beyond the blocks read; [rfaults] are the
    faults of the coming reads. *)

Record Reader := mkReader {
  rfile : bytes;
  rfaults : list (option nat);
  rblockBuf : bytes;
  rblockUsed : Z;
  blockOff : Z;
  eof : bool;
}.

Definition NewReader (data : bytes) (fs : list (option nat)) : Reader :=
  mkReader data fs (replicate (Z.to_nat BlockSize) Byte.x00) 0 0 false.

Definition set_off (o : Z) (r : Reader) : Reader :=
  mkReader (rfile r) (rfaults r) (rblockBuf r) (rblockUsed r) o (eof r).

(** [io.ReadFull(r.file, r.blockBuf)] fills the buffer from its start; fewer bytes
    than a block are [io.ErrUnexpectedEOF], none at all [io.EOF]. *)
Definition readBlock : st wal_error Reader unit := fun r =>
  let got := take (length (rblockBuf r)) (rfile r) in
  let fill bs := bs ++ drop (length bs) (rblockBuf r) in
  let rest := drop (length (rblockBuf r)) (rfile r) in
  match rfaults r with
  | Some n :: fs =>
      (mkReader (drop (n `min` length (rblockBuf r)) (rfile r)) fs (fill (take n got)) (rblockUsed r) (blockOff r) (eof r),
       Err ErrIO)
  | fs =>
      if (len got =? 0)%Z then
        (mkReader (rfile r) (tail fs) (rblockBuf r) (rblockUsed r) (blockOff r) true, Err EOF)
      else if (len got <? len (rblockBuf r))%Z then
        (mkReader rest (tail fs) (fill got) (len got) 0 true, Ok tt)
      else
        (mkReader rest (tail fs) (fill got) (len got) 0 (eof r), Ok tt)
  end.

(** Every iteration consumes a byte of the file or of the block. *)
Fixpoint read_loop (fuel : nat) (record : bytes) (inFragmentedRecord : bool)
    : st wal_error Reader bytes :=
  match fuel with
  | O => lift Fuel
  | S fuel => fun r =>
      let at_end := if inFragmentedRecord then ErrShortRecord else EOF in
      if (rblockUsed r <? blockOff r + HeaderSize)%Z then
        if eof r then (r, Err at_end)
        else
          match readBlock r with
          | (r, Err EOF) => (r, Err at_end)
          | (r, Err e) => (r, Err e)
          | (r, Ok _) => read_loop fuel record inFragmentedRecord r
          | (r, Panic) => (r, Panic)
          | (r, Fuel) => (r, Fuel)
          end
      else
        (let off := blockOff r in
         crcb ← lift (slice (rblockBuf r) off (off + 4));
         lenb ← lift (slice (rblockBuf r) (off + 4) (off + 6));
         typ ← lift (index (rblockBuf r) (off + 6));
         let length := get_le lenb in
         if (length =? 0)%Z && (b2z typ =? 0)%Z then
           modify (set_off (rblockUsed r));;
           read_loop fuel record inFragmentedRecord
         else if (rblockUsed r <? off + HeaderSize + length)%Z then throw ErrShortRecord
         else
           payload ← lift (slice (rblockBuf r) (off + HeaderSize) (off + HeaderSize + length));
           if negb (get_le crcb =? record_crc typ payload)%Z then throw ErrCorruptRecord
           else
             modify (set_off (off + HeaderSize + length));;
             if negb inFragmentedRecord then
               if bool_decide (typ = RecordFull) then mret (record ++ payload)
               else if bool_decide (typ = RecordFirst) then
                 read_loop fuel (record ++ payload) true
               else throw ErrCorruptRecord
             else
               if bool_decide (typ = RecordLast) then mret (record ++ payload)
               else if bool_decide (typ = RecordMiddle) then
                 read_loop fuel (record ++ payload) true
               else throw ErrCorruptRecord) r
  end.

Definition read_fuel (r : Reader) : nat :=
  2 * length (rfile r) + Z.to_nat (rblockUsed r - blockOff r) + 2.

Definition ReadRecord : st wal_error Reader bytes := fun r =>
  read_loop (read_fuel r) [] false r.

End wal_log.
Import wal_log.

#[global] Opaque BlockSize.

Lemma BlockSize_eq : BlockSize = 32768.
Proof. reflexivity. Qed.

(** ** The layout of a log

    A fragment is a type and a payload.  [layout u fs] is what the fragments [fs]
    occupy from offset [u] of a block on. *)

Definition header (typ : byte) (payload : bytes) : bytes :=
  put_le 4 (record_crc typ payload) ++ put_le 2 (len payload) ++ [typ].

Definition frag_bytes (f : byte * bytes) : bytes := header f.1 f.2 ++ f.2.

(** The offset of the next fragment, after the padding of a block's end. *)
Definition start (u : Z) : Z := if (BlockSize - u <? 7)%Z then 0 else u.

Definition padding (u : Z) : bytes :=
  if (BlockSize - u <? 7)%Z then replicate (Z.to_nat (BlockSize - u)) Byte.x00 else [].

Fixpoint layout (u : Z) (fs : list (byte * bytes)) : bytes :=
  match fs with
  | [] => []
  | f :: fs => padding u ++ frag_bytes f ++ layout (start u + 7 + len f.2) fs
  end.

Fixpoint layout_end (u : Z) (fs : list (byte * bytes)) : Z :=
  match fs with
  | [] => u
  | f :: fs => layout_end (start u + 7 + len f.2) fs
  end.

(** The fragments fit in their blocks and have a type. *)
Fixpoint fits (u : Z) (fs : list (byte * bytes)) : Prop :=
  match fs with
  | [] => True
  | f :: fs =>
      f.1 <> Byte.x00 /\ start u + 7 + len f.2 <= BlockSize /\
      fits (start u + 7 + len f.2) fs
  end.

Lemma layout_app u fs gs :
  layout u (fs ++ gs) = layout u fs ++ layout (layout_end u fs) gs.
Proof.
  revert u. induction fs as [|f fs IH]; intros u; [done|].
  cbn. by rewrite IH, <- !(assoc_L (++)).
Qed.

Lemma layout_end_app u fs gs : layout_end u (fs ++ gs) = layout_end (layout_end u fs) gs.
Proof. revert u. induction fs as [|f fs IH]; intros u; [done|]. cbn. by rewrite IH. Qed.

Lemma fits_app u fs gs : fits u (fs ++ gs) <-> fits u fs /\ fits (layout_end u fs) gs.
Proof.
  revert u. induction fs as [|f fs IH]; intros u; cbn; [tauto|].
  rewrite IH. tauto.
Qed.

Lemma start_range u : 0 <= u <= BlockSize -> 0 <= start u <= BlockSize - 7.
Proof. rewrite BlockSize_eq. unfold start. rewrite BlockSize_eq. case_match; lia. Qed.

Lemma layout_end_range u fs :
  0 <= u <= BlockSize -> fits u fs -> 0 <= layout_end u fs <= BlockSize.
Proof.
  revert u. induction fs as [|f fs IH]; intros u Hu Hf; [done|].
  destruct Hf as (_ & H1 & H2). cbn. apply IH; [|done].
  pose proof (start_range u Hu). pose proof (len_nonneg f.2). lia.
Qed.

Lemma len_header t p : len (header t p) = 7.
Proof. unfold header. autorewrite with go_len. len_lia. Qed.

Lemma len_frag f : len (frag_bytes f) = 7 + len f.2.
Proof. unfold frag_bytes. rewrite len_app, len_header. done. Qed.

(** ** The writer appends the layout *)

Definition buffered (w : Writer) : bytes := take (Z.to_nat (blockUsed w)) (blockBuf w).
Definition stream (w : Writer) : bytes := fdata (file w) ++ buffered w.

(** An open writer whose coming calls all succeed. *)
Definition writer_ok (w : Writer) : Prop :=
  len (blockBuf w) = BlockSize /\ 0 <= blockUsed w <= BlockSize /\
  closed w = false /\ faults (file w) = [].

Lemma buffer_split w :
  writer_ok w -> exists post, blockBuf w = buffered w ++ post /\ len (buffered w) = blockUsed w
                              /\ len post = BlockSize - blockUsed w.
Proof.
  intros (Hl & Hu & _). exists (drop (Z.to_nat (blockUsed w)) (blockBuf w)).
  unfold buffered. split; [by rewrite take_drop|].
  unfold len in *. rewrite length_take, length_drop. lia.
Qed.

Lemma len_stream w : writer_ok w -> len (stream w) = len (fdata (file w)) + blockUsed w.
Proof.
  intros Hw. destruct (buffer_split w Hw) as (_ & _ & Hlb & _). unfold stream.
  rewrite len_app. lia.
Qed.

Lemma split_at {A} (l : list A) n :
  0 <= n <= len l -> exists a b, l = a ++ b /\ len a = n /\ len b = len l - n.
Proof.
  intros H. exists (take (Z.to_nat n) l), (drop (Z.to_nat n) l).
  rewrite take_drop. split; [done|].
  unfold len in *. rewrite length_take, length_drop. lia.
Qed.

Lemma buf_put_ok w pre old post off bs :
  blockBuf w = pre ++ old ++ post -> off = len pre -> len old = len bs ->
  buf_put off bs w = (set_buf (pre ++ bs ++ post) w, Ok tt).
Proof.
  intros Hb -> Hl. unfold buf_put, gets, lift, modify, mbind, st_bind.
  by rewrite Hb, (put_at_at _ pre old post).
Qed.

Lemma buf_copy_ok w pre old post off bs :
  blockBuf w = pre ++ old ++ post -> off = len pre -> len old = len bs ->
  buf_copy off bs w = (set_buf (pre ++ bs ++ post) w, Ok tt).
Proof.
  intros Hb -> Hl. unfold buf_copy, gets. erewrite st_bind_ok by done.
  assert (len (blockBuf w) = len pre + len bs + len post) as Hbl.
  { rewrite Hb, !len_app. lia. }
  rewrite Hbl. pose proof (len_nonneg bs). pose proof (len_nonneg post).
  rewrite (proj2 (Z.leb_le _ _)) by lia.
  rewrite take_ge by (unfold len in *; lia). by apply buf_put_ok with old.
Qed.

Lemma emit_ok w typ p :
  writer_ok w -> blockUsed w + 7 + len p <= BlockSize ->
  exists buf, len buf = BlockSize /\
    emitPhysicalRecord typ p w = (mkWriter (file w) buf (blockUsed w + 7 + len p) (closed w), Ok tt) /\
    take (Z.to_nat (blockUsed w + 7 + len p)) buf = buffered w ++ frag_bytes (typ, p).
Proof.
  intros Hw Hfit. destruct (buffer_split w Hw) as (post & Hb & Hlb & Hlp).
  pose proof (len_nonneg p) as Hp. destruct Hw as (Hl & Hu & Hc & Hf).
  destruct (split_at post 4) as (c & post1 & -> & Hlc & H1); [lia|].
  destruct (split_at post1 2) as (n & post2 & -> & Hln & H2); [lia|].
  destruct (split_at post2 1) as (t & post3 & -> & Hlt & H3); [lia|].
  destruct (split_at post3 (len p)) as (o & rest & -> & Hlo & H4); [lia|].
  set (B := buffered w) in *.
  exists (B ++ put_le 4 (record_crc typ p) ++ put_le 2 (len p) ++ [typ] ++ p ++ rest).
  split_and!.
  - rewrite Hb in Hl. len_lia.
  - unfold emitPhysicalRecord. erewrite st_bind_ok by done.
    erewrite st_bind_ok.
    2:{ apply (buf_put_ok w (B ++ c) n (t ++ o ++ rest)); [|len_lia..].
        rewrite Hb. by rewrite <- !(assoc_L (++)). }
    erewrite st_bind_ok.
    2:{ apply (buf_put_ok _ (B ++ c ++ put_le 2 (len p)) t (o ++ rest)); [|len_lia..].
        cbn. by rewrite <- !(assoc_L (++)). }
    erewrite st_bind_ok.
    2:{ apply (buf_copy_ok _ (B ++ c ++ put_le 2 (len p) ++ [typ]) o rest); [|len_lia..].
        cbn. by rewrite <- !(assoc_L (++)). }
    erewrite st_bind_ok.
    2:{ apply (buf_put_ok _ B c (put_le 2 (len p) ++ [typ] ++ p ++ rest)); [|len_lia..].
        cbn. by rewrite <- !(assoc_L (++)). }
    done.
  - unfold frag_bytes, header. cbn [fst snd].
    rewrite !(assoc_L (++)). apply take_app_length'.
    rewrite <- (Nat2Z.id (length _)). f_equal. fold (len (A := byte)).
    change (Z.of_nat (length ?l)) with (len l). len_lia.
Qed.

Lemma flushBlock_ok w :
  writer_ok w ->
  flushBlock w = (mkWriter (mkFile (stream w) (fsynced (file w)) []) (blockBuf w) 0 (closed w),
                  Ok tt).
Proof.
  intros Hw. destruct (buffer_split w Hw) as (post & Hb & Hlb & Hlp).
  destruct Hw as (Hl & Hu & Hc & Hf). unfold flushBlock, stream.
  destruct (Z.eqb_spec (blockUsed w) 0) as [E|E].
  - rewrite E in Hlb. apply len_zero_inv in Hlb. rewrite Hlb, app_nil_r.
    destruct w as [[d sy fs] b u c]; cbn in *. by subst.
  - rewrite (slice_at _ [] (buffered w) post) by (done || len_nils; lia).
    unfold file_write. by rewrite Hf.
Qed.

Inductive frags_of : bool -> bytes -> list (byte * bytes) -> Prop :=
| frags_full p : frags_of true p [(RecordFull, p)]
| frags_last p : frags_of false p [(RecordLast, p)]
| frags_more (first : bool) p q fs :
    frags_of false q fs ->
    frags_of first (p ++ q) ((if first then RecordFirst else RecordMiddle, p) :: fs).

(** What an iteration of the append loop does to the buffer before the fragment is
    emitted: it pads and flushes a block without room for a header. *)
Definition make_room : st wal_error Writer Z :=
  used ← gets blockUsed;
  let rem := (BlockSize - used)%Z in
  if (rem <? HeaderSize)%Z then
    (if (0 <? rem)%Z then
       buf_put used (replicate (Z.to_nat rem) Byte.x00);;
       modify (set_used (used + rem))
     else mret tt);;
    flushBlock;;
    mret BlockSize
  else mret rem.

(** No byte of the file is lost and none becomes durable. *)
Definition grown (w w' : Writer) : Prop :=
  fsynced (file w') = fsynced (file w) /\ len (fdata (file w)) <= len (fdata (file w')).

Lemma grown_refl w : grown w w.
Proof. split; [done|lia]. Qed.

Lemma grown_trans w1 w2 w3 : grown w1 w2 -> grown w2 w3 -> grown w1 w3.
Proof. unfold grown. intros [-> ?] [-> ?]. split; [done|lia]. Qed.

Lemma make_room_ok w :
  writer_ok w -> exists w', make_room w = (w', Ok (BlockSize - start (blockUsed w))) /\
    writer_ok w' /\ blockUsed w' = start (blockUsed w) /\
    stream w' = stream w ++ padding (blockUsed w) /\ grown w w'.
Proof.
  intros Hw. destruct (buffer_split w Hw) as (post & Hb & Hlb & Hlp).
  pose proof BlockSize_eq as HBS.
  unfold make_room, start, padding. erewrite st_bind_ok by done. unfold HeaderSize.
  destruct (Z.ltb_spec (BlockSize - blockUsed w) 7) as [Hr|Hr].
  2:{ exists w. rewrite app_nil_r. pose proof (grown_refl w). done. }
  set (z := replicate (Z.to_nat (BlockSize - blockUsed w)) Byte.x00).
  set (w1 := mkWriter (file w) (buffered w ++ z) BlockSize (closed w)).
  assert (len z = BlockSize - blockUsed w) as Hz.
  { unfold z. rewrite len_replicate. destruct Hw as (_ & ? & _). lia. }
  assert (buffered w1 = buffered w ++ z) as Hb1.
  { unfold buffered at 1. cbn. apply take_ge.
    enough (len (buffered w ++ z) = BlockSize) by (unfold len in *; lia). len_lia. }
  assert (writer_ok w1) as Hw1.
  { destruct Hw as (? & ? & ? & ?). split_and!; [|cbn; try lia; done..]. cbn. len_lia. }
  exists (mkWriter (mkFile (stream w1) (fsynced (file w)) []) (blockBuf w1) 0 (closed w)).
  split_and!; [|destruct Hw1 as (? & ? & ? & ?); split_and!; cbn; try done; lia|done| |].
  3:{ split; cbn; [done|]. unfold stream. rewrite len_app. pose proof (len_nonneg (buffered w1)).
      cbn. lia. }
  2:{ unfold stream. rewrite Hb1. cbn. by rewrite (assoc_L (++)), app_nil_r. }
  erewrite (st_bind_ok _ _ _ w1).
  2:{ destruct (Z.ltb_spec 0 (BlockSize - blockUsed w)) as [H0|H0].
      - erewrite st_bind_ok by (apply (buf_put_ok w (buffered w) post []);
          [by rewrite app_nil_r|lia|by etrans; [exact Hlp|exact (eq_sym Hz)]]).
        unfold modify, set_used, set_buf, w1. cbn. rewrite app_nil_r. repeat f_equal. lia.
      - assert (z = []) as Hz0 by (apply len_zero_inv; destruct Hw as (_ & ? & _); lia).
        assert (post = []) as -> by (apply len_zero_inv; destruct Hw as (_ & ? & _); lia).
        assert (blockUsed w = BlockSize) as Hu by (destruct Hw as (_ & ? & _); lia).
        unfold w1. rewrite Hz0, <- Hb, <- Hu. by destruct w. }
  erewrite st_bind_ok by (by apply flushBlock_ok). rewrite Z.sub_0_r. done.
Qed.

Lemma writer_ok_emitted w buf u :
  writer_ok w -> len buf = BlockSize -> 0 <= u <= BlockSize ->
  writer_ok (mkWriter (file w) buf u (closed w)).
Proof. unfold writer_ok. cbn. tauto. Qed.

Definition frag_type (first last : bool) : byte :=
  if first && last then RecordFull
  else if first then RecordFirst
  else if last then RecordLast else RecordMiddle.

Lemma append_loop_eq fuel record left ptr first w :
  append_loop (S fuel) record left ptr first w =
  (rem ← make_room;
   let frag := if (rem - HeaderSize <? left)%Z then (rem - HeaderSize)%Z else left in
   payload ← lift (slice record ptr (ptr + frag));
   emitPhysicalRecord (frag_type first (frag =? left)%Z) payload;;
   if (left - frag <=? 0)%Z then mret tt
   else append_loop fuel record (left - frag) (ptr + frag) false) w.
Proof. reflexivity. Qed.

(** The writer after the fragments [fs]. *)
Definition wrote (w w' : Writer) (fs : list (byte * bytes)) : Prop :=
  writer_ok w' /\ fits (blockUsed w) fs /\
  stream w' = stream w ++ layout (blockUsed w) fs /\
  blockUsed w' = layout_end (blockUsed w) fs /\ grown w w'.

Lemma wrote_cons w t p w1 buf w2 fs :
  writer_ok w1 -> blockUsed w1 = start (blockUsed w) ->
  stream w1 = stream w ++ padding (blockUsed w) -> grown w w1 ->
  t <> Byte.x00 -> blockUsed w1 + 7 + len p <= BlockSize ->
  take (Z.to_nat (blockUsed w1 + 7 + len p)) buf = buffered w1 ++ frag_bytes (t, p) ->
  wrote (mkWriter (file w1) buf (blockUsed w1 + 7 + len p) (closed w1)) w2 fs ->
  wrote w w2 ((t, p) :: fs).
Proof.
  intros Hw1 Hu Hs Hsy Ht Hfit Hbuf (Hok & Hf & Hst & Hue & Hsy2). cbn in Hf, Hue.
  rewrite Hu in Hf, Hue, Hfit. split; [done|]. cbn. split_and!; [done..| |done|by eapply grown_trans].
  rewrite Hst. unfold stream at 1, buffered at 1. cbn [file blockUsed blockBuf].
  rewrite Hbuf, (assoc_L (++)). fold (stream w1). rewrite Hs, Hu.
  by rewrite <- !(assoc_L (++)).
Qed.

Lemma wrote_nil w : writer_ok w -> wrote w w [].
Proof. intros. split; [done|]. cbn. rewrite app_nil_r. split_and!; try done; apply grown_refl. Qed.

Lemma wrote_app w w1 w2 fs gs : wrote w w1 fs -> wrote w1 w2 gs -> wrote w w2 (fs ++ gs).
Proof.
  intros (_ & Hf1 & Hs1 & Hu1 & Hy1) (Hok & Hf2 & Hs2 & Hu2 & Hy2).
  rewrite Hu1 in *. split; [done|]. rewrite fits_app, layout_app, layout_end_app.
  split_and!; [done..| |done|by eapply grown_trans]. by rewrite Hs2, Hs1, (assoc_L (++)).
Qed.

Lemma append_loop_ok fuel pre rest first w :
  writer_ok w ->
  (2 * length rest + (if (start (blockUsed w) =? BlockSize - 7)%Z then 2 else 1) <= fuel)%nat ->
  exists fs w', frags_of first rest fs /\ wrote w w' fs /\
    append_loop fuel (pre ++ rest) (len rest) (len pre) first w = (w', Ok tt).
Proof.
  revert pre rest first w. induction fuel as [|fuel IH]; intros pre rest first w Hw Hfuel.
  { case_match; lia. }
  pose proof BlockSize_eq as HBS. rewrite append_loop_eq. unfold HeaderSize.
  destruct (make_room_ok w Hw) as (w1 & E1 & Hw1 & Hu1 & Hs1 & Hsy1).
  erewrite st_bind_ok by exact E1. cbv zeta. clear E1.
  pose proof (start_range (blockUsed w)) as Hst.
  set (u := start (blockUsed w)) in *. assert (0 <= u <= BlockSize - 7) as Hu.
  { apply Hst. by destruct Hw as (_ & ? & _). }
  pose proof (len_nonneg rest) as Hlr. rewrite <- Hu1 in *.
  destruct (Z.ltb_spec (BlockSize - blockUsed w1 - 7) (len rest)) as [Hlt|Hge].
  - destruct (split_at rest (BlockSize - blockUsed w1 - 7)) as (p & q & -> & Hp & Hq); [lia|].
    rewrite len_app in Hlt. pose proof (len_nonneg p).
    erewrite st_bind_ok by (unfold lift; f_equal; apply (slice_at _ pre p q); [done..|lia]).
    rewrite (proj2 (Z.eqb_neq _ _)) by (rewrite len_app; lia).
    destruct (emit_ok w1 (frag_type first false) p Hw1) as (buf & Hbl & E2 & Hbuf); [lia|].
    erewrite st_bind_ok by exact E2. rewrite len_app.
    rewrite (proj2 (Z.leb_gt _ _)) by lia.
    destruct (IH (pre ++ p) q false
      (mkWriter (file w1) buf (blockUsed w1 + 7 + len p) (closed w1)))
      as (fs & w2 & Hfr & Hwr & E3); [apply writer_ok_emitted; [done..|lia]| |].
    { cbn [blockUsed]. rewrite length_app in Hfuel. unfold len in *.
      unfold start. rewrite (proj2 (Z.ltb_lt _ _)) by lia.
      rewrite (proj2 (Z.eqb_neq 0 _)) by lia.
      destruct (Z.eqb_spec (blockUsed w1) (BlockSize - 7)); lia. }
    exists ((frag_type first false, p) :: fs), w2. split_and!.
    + destruct first; by constructor.
    + eapply wrote_cons; try done; [by destruct first|lia].
    + rewrite len_app, <- (assoc_L (++)) in E3. rewrite <- E3. do 2 f_equal; lia.
  - erewrite st_bind_ok by (unfold lift; f_equal; apply (slice_at _ pre rest []);
      [by rewrite app_nil_r|lia..]).
    rewrite Z.eqb_refl.
    destruct (emit_ok w1 (frag_type first true) rest Hw1) as (buf & Hbl & E2 & Hbuf); [lia|].
    erewrite st_bind_ok by exact E2. rewrite (proj2 (Z.leb_le _ _)) by lia.
    eexists [(frag_type first true, rest)], _. split_and!; [destruct first; constructor| |done].
    eapply wrote_cons; try done; [by destruct first|lia|].
    apply wrote_nil, writer_ok_emitted; [done..|lia].
Qed.

Lemma Append_ok record w :
  writer_ok w -> exists fs w', frags_of true record fs /\ wrote w w' fs /\
    Append record w = (w', Ok tt).
Proof.
  intros Hw. unfold Append. erewrite st_bind_ok by done.
  pose proof Hw as (_ & _ & -> & _).
  apply (append_loop_ok _ [] record true w Hw). case_match; lia.
Qed.

Lemma Sync_ok w :
  writer_ok w -> exists w', Sync w = (w', Ok tt) /\ writer_ok w' /\ blockUsed w' = 0 /\
    file w' = mkFile (stream w) (len (stream w)) [] /\ stream w' = stream w.
Proof.
  intros Hw. unfold Sync. erewrite st_bind_ok by done. pose proof Hw as (Hl & Hu & -> & Hf).
  erewrite st_bind_ok by (by apply flushBlock_ok). erewrite st_bind_ok by done.
  cbn. eexists. split; [done|]. pose proof BlockSize_eq.
  split_and!; [|done..|by unfold stream at 1; cbn; rewrite app_nil_r].
  destruct Hw as (? & ? & ? & ?). split_and!; cbn; [done|lia..|done|done].
Qed.

Lemma Close_ok w :
  writer_ok w ->
  Close w = (mkWriter (mkFile (stream w) (fsynced (file w)) []) (blockBuf w) 0 true, Ok tt).
Proof.
  intros Hw. destruct (buffer_split w Hw) as (post & Hb & Hlb & Hlp).
  destruct Hw as (Hl & Hu & Hc & Hf). unfold Close, flushBlock. rewrite Hc.
  cbn [blockUsed blockBuf file closed]. unfold stream.
  destruct (Z.eqb_spec (blockUsed w) 0) as [E|E].
  - rewrite E in Hlb. apply len_zero_inv in Hlb. rewrite Hlb, app_nil_r, E.
    destruct w as [[d sy fs] b u c]; cbn in *. by subst.
  - rewrite (slice_at _ [] (buffered w) post) by (done || len_nils; lia).
    unfold file_write. rewrite Hf. done.
Qed.

Lemma NewWriter_ok f : faults f = [] -> writer_ok (NewWriter f).
Proof.
  intros Hf. pose proof BlockSize_eq.
  split_and!; cbn; [rewrite len_replicate; lia|lia..|done|done].
Qed.

Lemma NewWriter_stream f : stream (NewWriter f) = fdata f.
Proof. unfold stream, buffered. cbn. by rewrite app_nil_r. Qed.

(** ** The checksum is 32 bits wide *)

Lemma lxor_range n a b :
  0 <= n -> 0 <= a < 2 ^ n -> 0 <= b < 2 ^ n -> 0 <= Z.lxor a b < 2 ^ n.
Proof.
  intros Hn Ha Hb. assert (Z.lxor a b = Z.lxor a b mod 2 ^ n) as ->.
  2:{ apply Z.mod_pos_bound. lia. }
  apply Z.bits_inj'. intros i Hi. rewrite Z.testbit_mod_pow2 by done.
  destruct (Z.ltb_spec i n); [done|]. rewrite Z.lxor_spec.
  rewrite <- (Z.mod_small a (2 ^ n)), <- (Z.mod_small b (2 ^ n)) by lia.
  rewrite !Z.mod_pow2_bits_high by lia. done.
Qed.

Lemma shiftr_range n a k : 0 <= k -> 0 <= a < 2 ^ n -> 0 <= Z.shiftr a k < 2 ^ n.
Proof.
  intros Hk Ha. rewrite Z.shiftr_div_pow2 by done. pose proof (Z.pow_pos_nonneg 2 k).
  split; [apply Z.div_pos; lia|]. apply Z.div_lt_upper_bound; [lia|]. nia.
Qed.

Lemma crc_bits_range n crc : 0 <= crc < 2 ^ 32 -> 0 <= crc_bits n crc < 2 ^ 32.
Proof.
  revert crc. induction n as [|n IH]; intros crc Hc; [done|]. cbn [crc_bits]. apply IH.
  pose proof (shiftr_range 32 crc 1). case_match; [apply lxor_range|]; try lia.
  unfold castagnoli. lia.
Qed.

Lemma crc_update_range crc p : 0 <= crc < 2 ^ 32 -> 0 <= crc_update crc p < 2 ^ 32.
Proof.
  intros Hc. unfold crc_update. apply lxor_range; [lia|lia|].
  assert (0 <= Z.lxor (2 ^ 32 - 1) crc < 2 ^ 32) as H by (apply lxor_range; lia).
  revert H. generalize (Z.lxor (2 ^ 32 - 1) crc). clear Hc crc.
  induction p as [|v p IH]; intros c Hc; [done|]. cbn [foldl]. apply IH.
  apply lxor_range; [lia| |apply shiftr_range; lia].
  apply crc_bits_range, lxor_range; [lia| |pose proof (b2z_range v); lia].
  change 255 with (Z.ones 8). rewrite Z.land_ones by lia.
  pose proof (Z.mod_pos_bound c (2 ^ 8)). lia.
Qed.

Lemma record_crc_range t p : 0 <= record_crc t p < 2 ^ 32.
Proof. apply crc_update_range, crc_update_range. lia. Qed.

(** The check value of CRC-32C. *)
Example crc_check_value : crc_update 0 (str "123456789") = 0xe3069283.
Proof. vm_compute. reflexivity. Qed.

(** ** The reader on a layout

    [reader_at r u R]: no read will fail, the reader is at offset [u] of a block
    and has the bytes [R] before it, in its block and in the file. *)

Record reader_at (r : Reader) (u : Z) (R : bytes) : Prop := {
  at_faults : rfaults r = [];
  at_buf : len (rblockBuf r) = BlockSize;
  at_cur : exists pre cur post,
    rblockBuf r = pre ++ cur ++ post /\ len pre = blockOff r /\
    rblockUsed r = blockOff r + len cur /\ R = cur ++ rfile r /\
    (len cur = BlockSize - u \/ (rfile r = [] /\ len cur <= BlockSize - u));
  at_range : 0 <= u <= BlockSize;
  at_eof : eof r = true -> rfile r = [];
}.

(** The fuel left is enough for what the reader has before it. *)
Definition need (r : Reader) (fuel : nat) : Prop :=
  2 * len (rfile r) + (rblockUsed r - blockOff r) < Z.of_nat fuel.

Lemma need_pos r u R fuel : reader_at r u R -> need r fuel -> exists fuel', fuel = S fuel'.
Proof.
  intros [_ _ (pre & cur & post & _ & _ & Hu & _) _ _] Hn. unfold need in Hn.
  pose proof (len_nonneg cur). pose proof (len_nonneg (rfile r)).
  destruct fuel as [|fuel]; [lia|by exists fuel].
Qed.

(** What the reader does with an intact fragment. *)
Definition dispatch (fuel : nat) (record : bytes) (inFrag : bool) (f : byte * bytes)
    : st wal_error Reader bytes :=
  if negb inFrag then
    if bool_decide (f.1 = RecordFull) then mret (record ++ f.2)
    else if bool_decide (f.1 = RecordFirst) then read_loop fuel (record ++ f.2) true
    else throw ErrCorruptRecord
  else
    if bool_decide (f.1 = RecordLast) then mret (record ++ f.2)
    else if bool_decide (f.1 = RecordMiddle) then read_loop fuel (record ++ f.2) true
    else throw ErrCorruptRecord.

Lemma readBlock_ok r :
  rfaults r = [] -> len (rblockBuf r) = BlockSize -> rfile r <> [] -> eof r = false ->
  exists r1, readBlock r = (r1, Ok tt) /\ reader_at r1 0 (rfile r) /\
    2 * len (rfile r1) + (rblockUsed r1 - blockOff r1) < 2 * len (rfile r) /\
    (len (rfile r) < BlockSize -> eof r1 = true /\ rblockUsed r1 = len (rfile r) /\ blockOff r1 = 0).
Proof.
  intros Hfs Hb Hne He. pose proof BlockSize_eq as HBS. unfold readBlock. rewrite Hfs. cbn [tail].
  set (got := take (length (rblockBuf r)) (rfile r)).
  set (rest := drop (length (rblockBuf r)) (rfile r)).
  assert (rfile r = got ++ rest) as Hgr by (symmetry; apply take_drop).
  assert (len got = Z.min (len (rfile r)) BlockSize) as Hg.
  { unfold got, len in *. rewrite length_take. lia. }
  assert (0 < len (rfile r)) as Hpos.
  { destruct (rfile r) as [|b l]; [done|]. rewrite len_cons. pose proof (len_nonneg l). lia. }
  assert (len (rfile r) = len got + len rest) as Hl by (rewrite Hgr; apply len_app).
  pose proof (len_nonneg rest).
  assert (forall e, (e = true -> len (rfile r) < BlockSize) ->
    reader_at (mkReader rest [] (got ++ drop (length got) (rblockBuf r)) (len got) 0 e) 0 (rfile r))
    as Hat.
  { intros e Hee. split; cbn.
    - done.
    - rewrite len_app. unfold len in *. rewrite length_drop. lia.
    - exists [], got, (drop (length got) (rblockBuf r)). len_nils.
      split_and!; [done..|]. destruct (decide (len (rfile r) < BlockSize)); [right|left; lia].
      split; [|lia]. apply len_zero_inv. lia.
    - lia.
    - intros ->. apply len_zero_inv. specialize (Hee eq_refl). lia. }
  rewrite (proj2 (Z.eqb_neq _ _)) by lia. rewrite Hb.
  destruct (Z.ltb_spec (len got) BlockSize) as [Hlt|Hge]; eexists;
    (split; [done|]); (split; [apply Hat; [intros; (lia || congruence)]|]); cbn; split; lia.
Qed.

Lemma skip_padding r u R :
  reader_at r u (padding u ++ R) -> R <> [] -> BlockSize - u < 7 ->
  exists r1, reader_at r1 0 R /\
    forall fuel record inF, need r (S fuel) ->
      need r1 fuel /\ read_loop (S fuel) record inF r = read_loop fuel record inF r1.
Proof.
  intros [Hfs Hb (pre & cur & post & Hbuf & Hpre & Hused & HR & Hcur) Hu Heof] Hne Hlt.
  unfold padding in HR. rewrite (proj2 (Z.ltb_lt _ _)) in HR by done.
  assert (len (replicate (Z.to_nat (BlockSize - u)) Byte.x00) = BlockSize - u) as Hz.
  { rewrite len_replicate. lia. }
  assert (0 < len R) as HRpos.
  { destruct R as [|b l]; [done|]. rewrite len_cons. pose proof (len_nonneg l). lia. }
  assert (len cur = BlockSize - u) as Hlc.
  { destruct Hcur as [?|[Hn Hle]]; [done|]. rewrite Hn, app_nil_r in HR.
    apply (f_equal len) in HR. rewrite len_app in HR. lia. }
  apply app_inj_1 in HR as [<- ->]; [|unfold len in *; lia].
  assert (eof r = false) as He.
  { destruct (eof r); [|done]. by rewrite Heof in Hne. }
  destruct (readBlock_ok r Hfs Hb Hne He) as (r1 & E & Hat & Hphi & _).
  exists r1. split; [done|]. intros fuel record inF Hn. unfold need in *. split; [lia|].
  cbn [read_loop]. unfold HeaderSize. rewrite (proj2 (Z.ltb_lt _ _)) by lia.
  rewrite He. by rewrite E.
Qed.

(** Less than a header is left: the end of the log, or a torn record. *)
Lemma read_end r u R fuel record inF :
  reader_at r u R -> len R < 7 -> need r fuel ->
  exists r', read_loop fuel record inF r = (r', Err (if inF then ErrShortRecord else EOF)).
Proof.
  intros [Hfs Hb (pre & cur & post & Hbuf & Hpre & Hused & HR & Hcur) Hu Heof] Hlt Hn.
  pose proof BlockSize_eq as HBS. unfold need in Hn.
  pose proof (len_nonneg cur). pose proof (len_nonneg (rfile r)).
  assert (len R = len cur + len (rfile r)) as HlR by (rewrite HR; apply len_app).
  destruct fuel as [|fuel]; [lia|].
  cbn [read_loop]. unfold HeaderSize. rewrite (proj2 (Z.ltb_lt _ _)) by lia.
  destruct (eof r) eqn:He; [by eexists|].
  destruct (decide (rfile r = [])) as [Hnil|Hnil].
  - unfold readBlock. rewrite Hfs, Hnil, take_nil. by eexists.
  - destruct (readBlock_ok r Hfs Hb Hnil He) as (r1 & -> & Hat & Hphi & Hshort).
    destruct Hshort as (He1 & Hu1 & Ho1); [lia|]. destruct fuel as [|fuel].
    { pose proof (len_nonneg (rfile r1)). lia. }
    cbn [read_loop]. unfold HeaderSize. rewrite (proj2 (Z.ltb_lt _ _)) by lia.
    rewrite He1. by eexists.
Qed.

(** The header is intact: the payload is checked and dispatched, or torn. *)
Lemma read_header r pre t p rest fuel record inF :
  rblockBuf r = pre ++ header t p ++ rest -> len pre = blockOff r ->
  blockOff r + 7 <= rblockUsed r -> t <> Byte.x00 -> len p < 65536 ->
  read_loop (S fuel) record inF r =
  (if (rblockUsed r <? blockOff r + 7 + len p)%Z then throw ErrShortRecord
   else
     payload ← lift (slice (rblockBuf r) (blockOff r + 7) (blockOff r + 7 + len p));
     if negb (record_crc t p =? record_crc t payload)%Z then throw ErrCorruptRecord
     else modify (set_off (blockOff r + 7 + len p));; dispatch fuel record inF (t, payload)) r.
Proof.
  intros Hbuf Hpre Hused Ht Hp. unfold header in Hbuf. cbn [read_loop]. unfold HeaderSize.
  rewrite (proj2 (Z.ltb_ge _ _)) by lia. rewrite Hbuf.
  set (c := put_le 4 (record_crc t p)) in *. set (l := put_le 2 (len p)) in *.
  assert (len c = 4) as Hc by (unfold c; by rewrite len_put_le).
  assert (len l = 2) as Hl by (unfold l; by rewrite len_put_le).
  erewrite st_bind_ok.
  2:{ unfold lift. f_equal. apply (slice_at _ pre c ((l ++ [t]) ++ rest));
      [by rewrite <- !(assoc_L (++))|lia..]. }
  erewrite st_bind_ok.
  2:{ unfold lift. f_equal. apply (slice_at _ (pre ++ c) l ([t] ++ rest));
      [by rewrite <- !(assoc_L (++))|rewrite len_app; lia..]. }
  erewrite st_bind_ok.
  2:{ unfold lift. f_equal. apply (index_at _ (pre ++ c ++ l) rest);
      [by rewrite <- !(assoc_L (++))|rewrite !len_app; lia]. }
  pose proof (record_crc_range t p). pose proof (len_nonneg p).
  assert (get_le l = len p) as ->. { apply get_le_put_le_small. change (256 ^ _) with 65536. lia. }
  assert (get_le c = record_crc t p) as ->. { apply get_le_put_le_small. change (256 ^ _) with (2 ^ 32). lia. }
  assert ((b2z t =? 0)%Z = false) as ->. { apply Z.eqb_neq. by destruct t. }
  rewrite andb_false_r. done.
Qed.

Lemma read_frag r u t p R :
  reader_at r u (frag_bytes (t, p) ++ R) -> u + 7 + len p <= BlockSize -> t <> Byte.x00 ->
  exists r1, reader_at r1 (u + 7 + len p) R /\
    forall fuel record inF, need r (S fuel) ->
      need r1 fuel /\ read_loop (S fuel) record inF r = dispatch fuel record inF (t, p) r1.
Proof.
  intros [Hfs Hb (pre & cur & post & Hbuf & Hpre & Hused & HR & Hcur) Hu Heof] Hfit Ht.
  pose proof BlockSize_eq as HBS. pose proof (len_frag (t, p)) as Hlf. cbn [snd] in Hlf.
  pose proof (len_nonneg p). pose proof (len_nonneg R).
  assert (7 + len p <= len cur) as Hlc.
  { apply (f_equal len) in HR. rewrite !len_app in HR.
    destruct Hcur as [?|[Hn Hle]]; [lia|]. rewrite Hn in HR. len_nils. lia. }
  destruct (split_at cur (7 + len p)) as (f & cur' & -> & Hf & Hc'); [lia|].
  rewrite <- (assoc_L (++)) in HR. apply app_inj_1 in HR as [<- HR]; [|unfold len in *; lia].
  rewrite len_app in *. pose proof (len_nonneg cur').
  exists (set_off (blockOff r + 7 + len p) r). split.
  - split; cbn; [done..| |lia|done].
    exists (pre ++ frag_bytes (t, p)), cur', post. rewrite Hbuf.
    rewrite <- !(assoc_L (++)), len_app, Hlf. cbn [snd].
    split_and!; [done|lia..|done|]. destruct Hcur as [?|[? ?]]; [left|right; split; [done|]]; lia.
  - intros fuel record inF Hn. unfold need in *. cbn [set_off rfile rblockUsed blockOff].
    split; [lia|]. unfold frag_bytes in Hbuf. cbn [fst snd] in Hbuf. rewrite <- !(assoc_L (++)) in Hbuf.
    rewrite (read_header r pre t p (p ++ cur' ++ post)) by (done || lia).
    rewrite (proj2 (Z.ltb_ge _ _)) by lia. rewrite Hbuf.
    erewrite st_bind_ok.
    2:{ unfold lift. f_equal. pose proof (len_header t p).
        apply (slice_at _ (pre ++ header t p) p (cur' ++ post));
        [by rewrite <- !(assoc_L (++))|rewrite len_app; lia..]. }
    rewrite Z.eqb_refl. done.
Qed.

(** The header is intact, the payload is not all there. *)
Lemma read_torn r u t p q fuel record inF :
  reader_at r u (header t p ++ q) -> len q < len p ->
  u + 7 + len p <= BlockSize -> t <> Byte.x00 -> need r (S fuel) ->
  read_loop (S fuel) record inF r = (r, Err ErrShortRecord).
Proof.
  intros [Hfs Hb (pre & cur & post & Hbuf & Hpre & Hused & HR & Hcur) Hu Heof] Hq Hfit Ht Hn.
  pose proof BlockSize_eq as HBS. pose proof (len_header t p). pose proof (len_nonneg q).
  pose proof (len_nonneg (rfile r)).
  assert (len (header t p ++ q) = len cur + len (rfile r)) as Hl by (rewrite HR; apply len_app).
  rewrite len_app in Hl. destruct Hcur as [?|[Hnil Hle]]; [lia|].
  rewrite Hnil, app_nil_r in HR. subst cur. rewrite len_app in *.
  rewrite <- (assoc_L (++)) in Hbuf.
  rewrite (read_header r pre t p (q ++ post)) by (done || lia).
  rewrite (proj2 (Z.ltb_lt _ _)) by lia. done.
Qed.

Lemma skip_to_start r u R :
  reader_at r u (padding u ++ R) -> R <> [] ->
  exists r0, reader_at r0 (start u) R /\
    forall fuel record inF, need r fuel -> exists fuel0, need r0 fuel0 /\
      read_loop fuel record inF r = read_loop fuel0 record inF r0.
Proof.
  intros Hat Hne. destruct (Z.ltb_spec (BlockSize - u) 7) as [Hlt|Hge].
  - destruct (skip_padding r u R Hat Hne Hlt) as (r0 & ? & H0).
    unfold start. rewrite (proj2 (Z.ltb_lt _ _)) by done.
    exists r0. split; [done|]. intros fuel record inF Hn.
    destruct (need_pos _ _ _ _ Hat Hn) as [fuel' ->]. exists fuel'. by apply H0.
  - unfold start, padding in *. rewrite (proj2 (Z.ltb_ge _ _)) in * by done.
    exists r. split; [done|]. intros fuel record inF Hn. by exists fuel.
Qed.

Lemma len_pos_ne {A} (l : list A) : 0 < len l -> l <> [].
Proof. intros H ->. len_nils. lia. Qed.

(** The next fragment of a layout, padding included. *)
Lemma read_next r u t p R :
  reader_at r u (padding u ++ frag_bytes (t, p) ++ R) ->
  start u + 7 + len p <= BlockSize -> t <> Byte.x00 ->
  exists r1, reader_at r1 (start u + 7 + len p) R /\
    forall fuel record inF, need r fuel -> exists fuel1, need r1 fuel1 /\
      read_loop fuel record inF r = dispatch fuel1 record inF (t, p) r1.
Proof.
  intros Hat Hfit Ht. destruct (skip_to_start r u _ Hat) as (r0 & Hat0 & H0).
  { apply len_pos_ne. rewrite len_app, len_frag. pose proof (len_nonneg R).
    pose proof (len_nonneg p). cbn [snd]. lia. }
  destruct (read_frag r0 _ t p R Hat0 Hfit Ht) as (r1 & Hat1 & H1).
  exists r1. split; [done|]. intros fuel record inF Hn.
  destruct (H0 fuel record inF Hn) as (fuel0 & Hn0 & ->).
  destruct (need_pos _ _ _ _ Hat0 Hn0) as [fuel1 ->]. exists fuel1. by apply H1.
Qed.

(** All the fragments of a record give the record back. *)
Lemma read_frags first p fs :
  frags_of first p fs -> forall r u R fuel acc,
  fits u fs -> reader_at r u (layout u fs ++ R) -> need r fuel ->
  exists r', read_loop fuel acc (negb first) r = (r', Ok (acc ++ p)) /\
    reader_at r' (layout_end u fs) R.
Proof.
  induction 1 as [p|p|first p q fs Hfs IH]; intros r u R fuel acc Hfit Hat Hn;
    destruct Hfit as (Ht & Hle & Hfit); cbn [fst snd] in *;
    cbn [layout layout_end fst snd] in *; rewrite <- !(assoc_L (++)) in Hat;
    apply read_next in Hat as (r1 & Hat1 & H1); try done;
    edestruct H1 as (fuel1 & Hn1 & ->); try done.
  - by exists r1.
  - by exists r1.
  - destruct (IH r1 _ R fuel1 (acc ++ p) Hfit Hat1 Hn1) as (r' & E & Hat').
    exists r'. split; [|done]. rewrite (assoc_L (++)), <- E. by destruct first.
Qed.

(** A prefix that ends inside the first fragment of a layout. *)
Lemma read_cut r u t p R n fuel acc inF :
  start u + 7 + len p <= BlockSize -> t <> Byte.x00 ->
  (n < length (padding u ++ frag_bytes (t, p)))%nat ->
  reader_at r u (take n (padding u ++ frag_bytes (t, p) ++ R)) -> need r fuel ->
  exists r' e, read_loop fuel acc inF r = (r', Err e) /\ (e = EOF \/ e = ErrShortRecord).
Proof.
  intros Hle Ht Hlt Hat Hn. rewrite length_app in Hlt.
  assert (len (padding u) < 7) as Hpad.
  { unfold padding. destruct (Z.ltb_spec (BlockSize - u) 7); [rewrite len_replicate|len_nils]; lia. }
  pose proof (len_header t p) as Hh.
  destruct (decide (n <= length (padding u))%nat) as [Hin|Hin].
  { rewrite take_app_le in Hat by done.
    destruct (read_end r u _ fuel acc inF Hat) as [r' E]; [|done|].
    { unfold len in *. rewrite length_take. lia. }
    eexists r', (if inF then ErrShortRecord else EOF). split; [done|]. destruct inF; auto. }
  rewrite take_app_ge, take_app_le in Hat by lia. set (m := (n - length (padding u))%nat) in *.
  destruct (skip_to_start r u _ Hat) as (r0 & Hat0 & H0).
  { apply len_pos_ne. unfold len in *. rewrite length_take. lia. }
  destruct (H0 fuel acc inF Hn) as (fuel0 & Hn0 & ->).
  destruct (decide (m < 7)%nat) as [Hm|Hm].
  { destruct (read_end r0 _ _ fuel0 acc inF Hat0) as [r' E]; [|done|].
    { unfold len in *. rewrite length_take. lia. }
    eexists r', (if inF then ErrShortRecord else EOF). split; [done|]. destruct inF; auto. }
  unfold frag_bytes in Hat0. cbn [fst snd] in Hat0.
  rewrite take_app_ge in Hat0 by (unfold len in *; lia).
  destruct (need_pos _ _ _ _ Hat0 Hn0) as [fuel1 ->].
  exists r0, ErrShortRecord. split; [|by right].
  eapply read_torn; [exact Hat0| |done..].
  unfold frag_bytes in Hlt. cbn [fst snd] in Hlt. rewrite length_app in Hlt.
  unfold len in *. rewrite length_take. lia.
Qed.

(** A record cut anywhere before its end is never returned. *)
Lemma read_frags_torn first p fs :
  frags_of first p fs -> forall r u n fuel acc,
  fits u fs -> (n < length (layout u fs))%nat -> reader_at r u (take n (layout u fs)) ->
  need r fuel ->
  exists r' e, read_loop fuel acc (negb first) r = (r', Err e) /\
    (e = EOF \/ e = ErrShortRecord).
Proof.
  induction 1 as [p|p|first p q fs Hfs IH]; intros r u n fuel acc Hfit Hlt Hat Hn;
    destruct Hfit as (Ht & Hle & Hfit); cbn [layout fst snd] in *.
  1-2: rewrite app_nil_r in Hlt; by eapply read_cut.
  destruct (decide (n < length (padding u ++ frag_bytes
    (if first then RecordFirst else RecordMiddle, p)))%nat) as [Hcut|Hcut].
  { by eapply read_cut. }
  rewrite (assoc_L (++)), length_app in Hlt.
  rewrite (assoc_L (++)), take_app_ge, <- (assoc_L (++)) in Hat by lia.
  apply read_next in Hat as (r1 & Hat1 & H1); [|done..].
  destruct (H1 fuel acc (negb first) Hn) as (fuel1 & Hn1 & ->).
  edestruct (IH r1) as (r' & e & E & He); [exact Hfit| |exact Hat1|exact Hn1|]; [lia|].
  exists r', e. split; [|done]. rewrite <- E. by destruct first.
Qed.

(** ** Whole logs *)

Definition empty_file : File := mkFile [] 0 [].

Fixpoint append_all (rs : list bytes) : st wal_error Writer unit :=
  match rs with
  | [] => mret tt
  | r :: rs => Append r;; append_all rs
  end.

(** The bytes of the log of the records [rs], written with one flush at the end. *)
Definition log_bytes (rs : list bytes) : bytes :=
  fdata (file ((append_all rs;; Close) (NewWriter empty_file)).1).

(** Records are read until the first error. *)
Fixpoint read_all (fuel : nat) (r : Reader) : list bytes * outcome wal_error Empty_set :=
  match fuel with
  | O => ([], Fuel)
  | S fuel =>
      match ReadRecord r with
      | (r, Ok rec) => let '(l, e) := read_all fuel r in (rec :: l, e)
      | (_, Err e) => ([], Err e)
      | (_, Panic) => ([], Panic)
      | (_, Fuel) => ([], Fuel)
      end
  end.

Definition ReadAll (data : bytes) : list bytes * outcome wal_error Empty_set :=
  read_all (S (2 * length data)) (NewReader data []).

Lemma NewReader_at data : reader_at (NewReader data []) BlockSize data.
Proof.
  pose proof BlockSize_eq. split; cbn; [done|rewrite len_replicate; lia| |lia|done].
  exists [], [], (replicate (Z.to_nat BlockSize) Byte.x00). split_and!; try done. left. len_nils. lia.
Qed.

Lemma ReadRecord_need r u R : reader_at r u R -> need r (read_fuel r).
Proof.
  intros [_ _ (pre & cur & post & _ & _ & Hu & _) _ _]. unfold need, read_fuel, len.
  pose proof (len_nonneg cur). lia.
Qed.

(** A block's start is the end of the block before it. *)
Lemma layout_BlockSize fs : layout BlockSize fs = layout 0 fs.
Proof.
  pose proof BlockSize_eq as E. destruct fs as [|f fs]; [done|]. cbn. unfold padding, start.
  by rewrite E.
Qed.

Lemma layout_end_BlockSize fs : fs <> [] -> layout_end BlockSize fs = layout_end 0 fs.
Proof. pose proof BlockSize_eq as E. destruct fs; [done|]. cbn. unfold start. by rewrite E. Qed.

Lemma fits_BlockSize fs : fits BlockSize fs <-> fits 0 fs.
Proof. pose proof BlockSize_eq as E. destruct fs; [done|]. cbn. unfold start. by rewrite E. Qed.

Lemma append_all_ok rs w :
  writer_ok w -> exists fss w', Forall2 (frags_of true) rs fss /\ wrote w w' (concat fss) /\
    append_all rs w = (w', Ok tt) /\
    forall k, exists wk, append_all (take k rs) w = (wk, Ok tt) /\
      wrote w wk (concat (take k fss)).
Proof.
  revert w. induction rs as [|r rs IH]; intros w Hw.
  { exists [], w. split_and!; [done|by apply wrote_nil|done|]. intros k.
    exists w. rewrite !take_nil. split; [done|by apply wrote_nil]. }
  destruct (Append_ok r w Hw) as (fs & w1 & Hfr & Hwr & E1).
  destruct (IH w1) as (fss & w2 & Hall & Hwr2 & E2 & Hk); [apply Hwr|].
  exists (fs :: fss), w2. split_and!; [by constructor|by eapply wrote_app| |].
  - cbn. by erewrite st_bind_ok by exact E1.
  - intros [|k].
    { exists w. split; [done|by apply wrote_nil]. }
    destruct (Hk k) as (wk & Ek & Hwk). exists wk. cbn. split; [|by eapply wrote_app].
    by erewrite st_bind_ok by exact E1.
Qed.

Lemma layout_frags_pos first p fs u : frags_of first p fs -> (1 <= length (layout u fs))%nat.
Proof.
  intros H. assert (exists f gs, fs = f :: gs) as (f & gs & ->) by (destruct H; eauto).
  cbn [layout]. rewrite !length_app. pose proof (len_frag f). pose proof (len_nonneg f.2).
  unfold len in *. lia.
Qed.

(** The first [n] bytes of a layout: the records wholly inside them are read, and
    no other. *)
Lemma read_all_layout rs fss :
  Forall2 (frags_of true) rs fss -> forall r u n fuel,
  fits u (concat fss) -> reader_at r u (take n (layout u (concat fss))) ->
  (length (take n (layout u (concat fss))) < fuel)%nat ->
  exists k e, read_all fuel r = (take k rs, Err e) /\ (k <= length rs)%nat /\
    (length (layout u (concat (take k fss))) <= n)%nat /\
    ((k < length rs)%nat -> (n < length (layout u (concat (take (S k) fss))))%nat) /\
    (e = EOF \/ e = ErrShortRecord) /\
    ((length (layout u (concat fss)) <= n)%nat -> e = EOF).
Proof.
  induction 1 as [|rec fs rs fss Hfs Hall IH]; intros r u n fuel Hfit Hat Hfuel;
    (destruct fuel as [|fuel]; [cbn in Hfuel; lia|]); cbn [read_all];
    pose proof (ReadRecord_need _ _ _ Hat) as Hn; unfold ReadRecord.
  { cbn [concat layout] in Hat. rewrite take_nil in Hat.
    destruct (read_end r u [] (read_fuel r) [] false Hat) as [r' ->]; [len_nils; lia|done|].
    exists 0%nat, EOF. cbn. split_and!; [done|lia..|by left|done]. }
  cbn [concat] in Hfit, Hat. apply fits_app in Hfit as [Hf1 Hf2]. rewrite layout_app in Hat.
  destruct (decide (n < length (layout u fs))%nat) as [Hlt|Hge].
  - rewrite take_app_le in Hat by lia.
    destruct (read_frags_torn _ _ _ Hfs r u n _ [] Hf1 Hlt Hat Hn) as (r' & e & E & He).
    cbn [negb] in E. rewrite E. exists 0%nat, e. cbn [concat take layout length].
    rewrite take_0, app_nil_r, layout_app, length_app. split_and!; [done|lia..|done|lia].
  - rewrite take_app_ge in Hat by lia.
    destruct (read_frags _ _ _ Hfs r u _ _ [] Hf1 Hat Hn) as (r' & E & Hat').
    cbn [negb] in E. rewrite E. cbn [app]. pose proof (layout_frags_pos _ _ _ u Hfs).
    destruct (IH r' _ _ fuel Hf2 Hat') as (k & e & Ek & Hk & Hle & Hmax & He & Heof).
    { cbn [concat] in Hfuel. rewrite layout_app, take_app_ge, length_app in Hfuel by lia. lia. }
    rewrite Ek. exists (S k), e. rewrite (firstn_cons (S k)). cbn [take concat length].
    rewrite !layout_app, !length_app.
    split_and!; [done|lia|lia| |done|].
    + intros Hlt. specialize (Hmax ltac:(lia)). lia.
    + intros Htot. apply Heof. lia.
Qed.

Lemma log_bytes_layout rs :
  exists fss, Forall2 (frags_of true) rs fss /\ fits 0 (concat fss) /\
    forall k, log_bytes (take k rs) = layout 0 (concat (take k fss)).
Proof.
  destruct (append_all_ok rs (NewWriter empty_file)) as (fss & w & Hall & Hw & _ & Hk);
    [by apply NewWriter_ok|].
  exists fss. split_and!; [done|apply Hw|]. intros k. destruct (Hk k) as (wk & E & Hok & _ & Hs & _).
  unfold log_bytes. erewrite st_bind_ok by exact E. rewrite Close_ok by done. cbn [fst file fdata].
  by rewrite Hs, NewWriter_stream.
Qed.

Lemma log_bytes_all rs fss :
  Forall2 (frags_of true) rs fss ->
  (forall k, log_bytes (take k rs) = layout 0 (concat (take k fss))) ->
  log_bytes rs = layout 0 (concat fss).
Proof.
  intros Hall Hk. specialize (Hk (length rs)). rewrite firstn_all in Hk.
  by rewrite (Forall2_length _ _ _ Hall), firstn_all in Hk.
Qed.

Lemma ReadAll_prefix rs fss n :
  Forall2 (frags_of true) rs fss -> fits 0 (concat fss) ->
  exists k e, ReadAll (take n (layout 0 (concat fss))) = (take k rs, Err e) /\
    (k <= length rs)%nat /\
    (length (layout 0 (concat (take k fss))) <= n)%nat /\
    ((k < length rs)%nat -> (n < length (layout 0 (concat (take (S k) fss))))%nat) /\
    (e = EOF \/ e = ErrShortRecord) /\
    ((length (layout 0 (concat fss)) <= n)%nat -> e = EOF).
Proof.
  intros Hall Hfit. unfold ReadAll.
  pose proof (NewReader_at (take n (layout 0 (concat fss)))) as Hat.
  rewrite <- layout_BlockSize in *.
  edestruct (read_all_layout _ _ Hall) as (k & e & E & Hk);
    [by apply fits_BlockSize|exact Hat|apply Nat.lt_succ_r, Nat.le_add_r|].
  exists k, e. by rewrite <- !layout_BlockSize.
Qed.

Lemma ReadAll_layout rs fss :
  Forall2 (frags_of true) rs fss -> fits 0 (concat fss) ->
  ReadAll (layout 0 (concat fss)) = (rs, Err EOF).
Proof.
  intros Hall Hfit.
  destruct (ReadAll_prefix rs fss (length (layout 0 (concat fss))) Hall Hfit)
    as (k & e & E & Hk & _ & Hmax & _ & Heof).
  rewrite firstn_all in E. rewrite E, Heof by lia. f_equal. apply take_ge.
  destruct (decide (k < length rs)%nat) as [Hlt|]; [|lia]. specialize (Hmax Hlt).
  rewrite <- (take_drop (S k) fss) in Hmax at 1.
  rewrite concat_app, layout_app, length_app in Hmax. lia.
Qed.

(** ** Reading never panics and always ends *)

Record reader_ok (r : Reader) : Prop := {
  ok_buf : len (rblockBuf r) = BlockSize;
  ok_off : 0 <= blockOff r <= rblockUsed r;
  ok_used : rblockUsed r <= BlockSize;
}.

Definition left_to_read (r : Reader) : Z := 2 * len (rfile r) + (rblockUsed r - blockOff r).

Lemma readBlock_spec r :
  reader_ok r -> exists r1 o, readBlock r = (r1, o) /\ reader_ok r1 /\
    (rfaults r = [] -> rfaults r1 = []) /\
    ((o = Ok tt /\ left_to_read r1 < 2 * len (rfile r)) \/
     exists e, o = Err e /\ (rfaults r = [] -> e = EOF)).
Proof.
  intros [Hb Ho Hu]. unfold readBlock. pose proof BlockSize_eq as HBS.
  assert (forall n bs, (n <= length (rblockBuf r))%nat ->
    len (take n bs ++ drop (length (take n bs)) (rblockBuf r)) = BlockSize) as Hlen.
  { intros n bs Hn. unfold len in *. rewrite length_app, length_take, length_drop. lia. }
  assert (len (take (length (rblockBuf r)) (rfile r)) = Z.min BlockSize (len (rfile r))) as Hg.
  { unfold len in *. rewrite length_take. lia. }
  assert (len (drop (length (rblockBuf r)) (rfile r)) =
          len (rfile r) - Z.min BlockSize (len (rfile r))) as Hd.
  { unfold len in *. rewrite length_drop. lia. }
  pose proof (len_nonneg (rfile r)).
  destruct (rfaults r) as [|[n|] fs].
  2:{ eexists _, _. split; [done|]. split; [|split; [done|right; by eexists]].
      split; cbn; [|done..]. rewrite take_take. apply Hlen. lia. }
  all: cbn [tail]; destruct (Z.eqb_spec (len (take (length (rblockBuf r)) (rfile r))) 0) as [E|E];
    [eexists _, _; split; [done|]; split; [by split|split; [done|right; by eexists]]|];
    case_match; eexists _, _; (split; [done|]);
    (split; [split; cbn; [by apply Hlen|pose proof (len_nonneg (rfile r)); lia..]|]);
    (split; [done|]); left; (split; [done|]); unfold left_to_read; cbn; lia.
Qed.

(** The errors that end the reading of a log without faults. *)
Definition log_end (e : wal_error) : Prop :=
  e = EOF \/ e = ErrShortRecord \/ e = ErrCorruptRecord.

(** A call that started at [r] returned a record, and consumed input, or an error. *)
Definition returned (r : Reader) (x : Reader * outcome wal_error bytes) : Prop :=
  reader_ok x.1 /\ (rfaults r = [] -> rfaults x.1 = []) /\
  ((exists rec, x.2 = Ok rec /\ left_to_read x.1 < left_to_read r) \/
   exists e, x.2 = Err e /\ (rfaults r = [] -> log_end e)).

Lemma returned_err r r' e :
  reader_ok r' -> (rfaults r = [] -> rfaults r' = [] /\ log_end e) -> returned r (r', Err e).
Proof. unfold returned. naive_solver. Qed.

Lemma returned_mono r r1 x :
  left_to_read r1 <= left_to_read r -> (rfaults r = [] -> rfaults r1 = []) ->
  returned r1 x -> returned r x.
Proof.
  intros Hle Hf (Hok & Hfx & Hx). split_and!; [done|auto|].
  destruct Hx as [(rec & E & Hlt)|(e & E & He)]; [left; exists rec|right; exists e].
  - split; [done|lia].
  - split; [done|auto].
Qed.

Lemma read_loop_total fuel record inF r :
  reader_ok r -> left_to_read r < Z.of_nat fuel -> returned r (read_loop fuel record inF r).
Proof.
  revert record inF r. induction fuel as [|fuel IH]; intros record inF r Hr Hn.
  { unfold left_to_read in Hn. destruct Hr. pose proof (len_nonneg (rfile r)). lia. }
  pose proof (len_nonneg (rfile r)) as Hrf. cbn [read_loop]. unfold HeaderSize.
  pose proof Hr as [Hb Ho Hu].
  destruct (Z.ltb_spec (rblockUsed r) (blockOff r + 7)) as [Hlt|Hge].
  - assert (log_end (if inF then ErrShortRecord else EOF)) by (unfold log_end; destruct inF; auto).
    destruct (eof r); [by apply returned_err|].
    destruct (readBlock_spec r Hr) as (r1 & o & -> & Hr1 & Hf & [[-> Hl]|(e & -> & He)]).
    + assert (left_to_read r1 < left_to_read r) by (unfold left_to_read in *; lia).
      apply (returned_mono _ r1), IH; [lia|done..|lia].
    + destruct e; apply returned_err; try done; intros Hnf; split; auto; by apply He in Hnf.
  - destruct (@slice_ok wal_error _ (rblockBuf r) (blockOff r) (blockOff r + 4)) as (c & Ec & Hc); [lia..|].
    erewrite st_bind_ok by (unfold lift; by rewrite Ec).
    destruct (@slice_ok wal_error _ (rblockBuf r) (blockOff r + 4) (blockOff r + 6)) as (l & El & Hl); [lia..|].
    erewrite st_bind_ok by (unfold lift; by rewrite El).
    destruct (@index_ok wal_error _ (rblockBuf r) (blockOff r + 6)) as (t & _ & _ & Et & _); [lia..|].
    erewrite st_bind_ok by (unfold lift; by rewrite Et).
    pose proof (get_le_range l) as Hgl.
    assert (forall o, blockOff r + 7 <= o <= rblockUsed r -> reader_ok (set_off o r) /\
      left_to_read (set_off o r) < left_to_read r) as Hset.
    { intros o Hoo. split; [split; cbn; [done|lia..]|]. unfold left_to_read. cbn. lia. }
    assert (forall o record inF, blockOff r + 7 <= o <= rblockUsed r ->
      returned r (read_loop fuel record inF (set_off o r))) as Hgo.
    { intros o rec0 inF0 Hoo. destruct (Hset o Hoo) as [H1 H2].
      apply (returned_mono _ (set_off o r)), IH; [lia|done..|lia]. }
    destruct ((get_le l =? 0) && _); [erewrite st_bind_ok by done; apply Hgo; lia|].
    destruct (Z.ltb_spec (rblockUsed r) (blockOff r + 7 + get_le l)); [apply returned_err; unfold log_end; auto|].
    destruct (@slice_ok wal_error _ (rblockBuf r) (blockOff r + 7) (blockOff r + 7 + get_le l))
      as (p & Ep & Hp); [lia..|].
    erewrite st_bind_ok by (unfold lift; by rewrite Ep).
    destruct (Hset (blockOff r + 7 + get_le l)) as [Hok Hdec]; [lia|].
    destruct (negb (get_le c =? _)); [apply returned_err; unfold log_end; auto|].
    erewrite st_bind_ok by done. destruct inF; cbn [negb];
      (case_bool_decide; [split_and!; [done..|left; by eexists]|]);
      (case_bool_decide; [apply Hgo; lia|apply returned_err; unfold log_end; auto]).
Qed.

Lemma ReadRecord_total r : reader_ok r -> returned r (ReadRecord r).
Proof.
  intros Hr. apply read_loop_total; [done|]. unfold left_to_read, read_fuel, len.
  destruct Hr. lia.
Qed.

Lemma read_all_total fuel r :
  reader_ok r -> left_to_read r < Z.of_nat fuel ->
  exists rs e, read_all fuel r = (rs, Err e) /\ (rfaults r = [] -> log_end e).
Proof.
  revert r. induction fuel as [|fuel IH]; intros r Hr Hn.
  { unfold left_to_read in Hn. destruct Hr. pose proof (len_nonneg (rfile r)). lia. }
  cbn [read_all]. destruct (ReadRecord_total r Hr) as (Hok & Hf & Hret).
  destruct (ReadRecord r) as [r1 o]. cbn in *.
  destruct Hret as [(rec & -> & Hlt)|(e & -> & He)]; [|by eexists _, _].
  destruct (IH r1 Hok) as (rs & e & -> & He); [lia|]. eexists _, _. split; [done|auto].
Qed.

Lemma ReadAll_total data : exists rs e, ReadAll data = (rs, Err e) /\ log_end e.
Proof.
  pose proof BlockSize_eq. destruct (read_all_total (S (2 * length data)) (NewReader data []))
    as (rs & e & E & He).
  - split; cbn; [rewrite len_replicate; lia|lia..].
  - unfold left_to_read, len. cbn [NewReader rfile rblockUsed blockOff]. lia.
  - exists rs, e. auto.
Qed.

(** ** Appends and syncs *)

Inductive wal_op := WAppend (record : bytes) | WSync.

Fixpoint run_wal (ops : list wal_op) : st wal_error Writer unit :=
  match ops with
  | [] => mret tt
  | WAppend r :: ops => Append r;; run_wal ops
  | WSync :: ops => Sync;; run_wal ops
  end.

Definition appended (ops : list wal_op) : list bytes :=
  omap (fun o => match o with WAppend r => Some r | WSync => None end) ops.

Definition full (r : bytes) : byte * bytes := (RecordFull, r).

Lemma Append_small w r :
  writer_ok w -> blockUsed w + 7 + len r <= BlockSize ->
  exists w', Append r w = (w', Ok tt) /\ writer_ok w' /\
    stream w' = stream w ++ frag_bytes (full r).
Proof.
  intros Hw Hfit. unfold Append. erewrite st_bind_ok by done. pose proof Hw as (_ & Hu & -> & _).
  rewrite (Nat.add_comm _ 2). cbn [Nat.add]. rewrite append_loop_eq. unfold HeaderSize.
  pose proof (len_nonneg r).
  assert (make_room w = (w, Ok (BlockSize - blockUsed w))) as Er.
  { unfold make_room, HeaderSize. erewrite st_bind_ok by done.
    by rewrite (proj2 (Z.ltb_ge _ _)) by lia. }
  erewrite st_bind_ok by exact Er. cbv zeta. rewrite (proj2 (Z.ltb_ge _ _)) by lia.
  erewrite st_bind_ok by (unfold lift; f_equal; apply (slice_at _ [] r []);
    [by rewrite app_nil_r|done|len_nils; lia]).
  rewrite Z.eqb_refl, Z.sub_diag.
  destruct (emit_ok w (frag_type true true) r Hw) as (buf & Hbl & E2 & Hbuf); [lia|].
  erewrite st_bind_ok by exact E2. eexists. split; [done|].
  split; [apply writer_ok_emitted; [done..|lia]|].
  unfold stream, buffered at 1. cbn [file blockUsed blockBuf]. by rewrite Hbuf, (assoc_L (++)).
Qed.

Lemma layout_frags_len first p fs u : frags_of first p fs -> 7 + len p <= len (layout u fs).
Proof.
  intros H. revert u. induction H as [p|p|first p q fs H IH]; intros u; cbn [layout];
    rewrite !len_app, len_frag; cbn [snd]; pose proof (len_nonneg (padding u)).
  1-2: len_nils; lia.
  specialize (IH (start u + 7 + len p)). lia.
Qed.

Lemma run_wal_small ops w :
  writer_ok w -> exists w', run_wal ops w = (w', Ok tt) /\ writer_ok w' /\
    len (stream w) <= len (stream w') /\
    (len (stream w') <= BlockSize ->
     stream w' = stream w ++ concat (map (frag_bytes ∘ full) (appended ops))).
Proof.
  revert w. induction ops as [|[r|] ops IH]; intros w Hw; cbn [run_wal].
  - exists w. rewrite app_nil_r. split_and!; [done..|lia|done].
  - destruct (Append_ok r w Hw) as (fs & w1 & Hfr & (Hw1 & _ & Hs1 & _) & E1).
    erewrite st_bind_ok by exact E1. destruct (IH w1 Hw1) as (w2 & E2 & Hw2 & Hle & Hs2).
    exists w2. pose proof (layout_frags_len _ _ _ (blockUsed w) Hfr) as Hl.
    pose proof (len_nonneg r). rewrite Hs1, len_app in Hle. split_and!; [done..|lia|].
    intros Hsmall. rewrite Hs2 by done. destruct (Append_small w r Hw) as (w1' & E1' & _ & Hs1').
    { pose proof (len_stream w Hw). pose proof (len_nonneg (fdata (file w))). lia. }
    rewrite E1 in E1'. injection E1' as <-. cbn [appended omap list_omap map concat].
    rewrite Hs1'. cbn [compose]. by rewrite <- (assoc_L (++)).
  - destruct (Sync_ok w Hw) as (w1 & E1 & Hw1 & _ & _ & Hs1).
    erewrite st_bind_ok by exact E1. destruct (IH w1 Hw1) as (w2 & E2 & Hw2 & Hle & Hs2).
    exists w2. rewrite Hs1 in *. done.
Qed.

Lemma layout_full u rs :
  0 <= u -> u + len (concat (map (frag_bytes ∘ full) rs)) <= BlockSize ->
  layout u (map full rs) = concat (map (frag_bytes ∘ full) rs) /\ fits u (map full rs).
Proof.
  revert u. induction rs as [|r rs IH]; intros u Hu Hle; [done|].
  cbn [map concat layout fits] in *. rewrite len_app in Hle. cbn [compose] in Hle.
  rewrite len_frag in Hle. cbn [full snd] in *. pose proof (len_nonneg r).
  pose proof (len_nonneg (concat (map (frag_bytes ∘ full) rs))).
  unfold padding, start. rewrite (proj2 (Z.ltb_ge _ _)) by lia.
  destruct (IH (u + 7 + len r)) as [-> Hf]; [lia..|]. split; [done|]. split_and!; [done|lia|done].
Qed.

Lemma map_full_concat rs : map full rs = concat (map (fun r => [full r]) rs).
Proof. induction rs as [|r rs IH]; [done|]. cbn. by rewrite IH. Qed.

Lemma frags_full_all rs : Forall2 (frags_of true) rs (map (fun r => [full r]) rs).
Proof. induction rs; cbn; constructor; [constructor|done]. Qed.

Definition full_bytes (rs : list bytes) : bytes := concat (map (frag_bytes ∘ full) rs).

Lemma full_bytes_app rs1 rs2 : full_bytes (rs1 ++ rs2) = full_bytes rs1 ++ full_bytes rs2.
Proof. unfold full_bytes. by rewrite map_app, concat_app. Qed.

Lemma ReadAll_full rs :
  len (full_bytes rs) <= BlockSize -> ReadAll (full_bytes rs) = (rs, Err EOF).
Proof.
  intros Hle. destruct (layout_full 0 rs) as [Hl Hf]; [lia|exact Hle|]. unfold full_bytes.
  rewrite <- Hl. rewrite map_full_concat in *. apply ReadAll_layout; [apply frags_full_all|done].
Qed.

Lemma ReadAll_full_prefix rs n :
  len (full_bytes rs) <= BlockSize ->
  exists k e, ReadAll (take n (full_bytes rs)) = (take k rs, Err e) /\
    ((k < length rs)%nat -> (n < length (full_bytes (take (S k) rs)))%nat).
Proof.
  intros Hle. destruct (layout_full 0 rs) as [Hl Hf]; [lia|exact Hle|].
  rewrite map_full_concat in Hf.
  destruct (ReadAll_prefix rs _ n (frags_full_all rs) Hf) as (k & e & E & _ & _ & Hk & _).
  rewrite <- map_full_concat, Hl in E. exists k, e. split; [exact E|]. intros Hlt.
  specialize (Hk Hlt). rewrite firstn_map, <- map_full_concat in Hk.
  destruct (layout_full 0 (take (S k) rs)) as [Hl2 _]; [lia| |by rewrite Hl2 in Hk].
  fold (full_bytes (take (S k) rs)). rewrite <- (take_drop (S k) rs), full_bytes_app, len_app in Hle.
  pose proof (len_nonneg (full_bytes (drop (S k) rs))). lia.
Qed.

Lemma start_in u : u + 7 <= BlockSize -> start u = u /\ padding u = [].
Proof. intros H. unfold start, padding. by destruct (Z.ltb_spec (BlockSize - u) 7); [lia|]. Qed.

(** A log of whole records that was cut is read to its end without an error only when less
    than a header of the next record is left. *)
Lemma read_all_eof rs : forall r u n fuel l,
  (rs <> [] -> padding u = [] /\ start u + len (full_bytes rs) <= BlockSize) -> reader_at r u (take n (full_bytes rs)) ->
  read_all fuel r = (l, Err EOF) -> len (take n (full_bytes rs)) < len (full_bytes l) + 7.
Proof.
  induction rs as [|rec rs IH]; intros r u n fuel l Hu Hat E; pose proof (len_nonneg (full_bytes l)).
  { cbn. rewrite take_nil. len_nils. lia. }
  destruct (Hu ltac:(done)) as [Hp Hle]. change (rec :: rs) with ([rec] ++ rs) in *. rewrite full_bytes_app in *. rewrite len_app in Hle.
  assert (full_bytes [rec] = frag_bytes (full rec)) as Hr by (unfold full_bytes; cbn; by rewrite app_nil_r). rewrite Hr in *.
  pose proof (len_frag (full rec)) as Hlf. cbn [full snd] in Hlf. pose proof (len_nonneg rec). pose proof (len_nonneg (full_bytes rs)).
  destruct (decide (n < 7)%nat) as [H7|H7]; [unfold len at 1; rewrite length_take; lia|].
  destruct fuel as [|fuel]; [done|]. cbn [read_all] in E. unfold ReadRecord in E. pose proof (ReadRecord_need _ _ _ Hat) as Hn.
  destruct (decide (n < length (frag_bytes (full rec)))%nat) as [Hlt|Hge].
  - exfalso. rewrite take_app_le in Hat by lia. rewrite <- (app_nil_l (take n _)), <- Hp in Hat.
    destruct (skip_to_start r u _ Hat) as (r0 & Hat0 & Hs).
    { apply len_pos_ne. unfold len in *. rewrite length_take. lia. }
    destruct (Hs (read_fuel r) [] false Hn) as (fuel0 & Hn0 & E0). rewrite E0 in E.
    pose proof (len_header RecordFull rec) as Hh. unfold frag_bytes in Hat0, Hlt. cbn [full fst snd] in Hat0, Hlt. rewrite length_app in Hlt.
    rewrite take_app_ge in Hat0 by (unfold len in *; lia). destruct (need_pos _ _ _ _ Hat0 Hn0) as [fuel1 ->].
    rewrite (read_torn r0 (start u) RecordFull rec _ fuel1 [] false Hat0) in E; [done| |lia|done|done]. unfold len in *. rewrite length_take. lia.
  - rewrite take_app_ge in * by lia. rewrite <- (app_nil_l (frag_bytes _ ++ _)), <- Hp in Hat.
    destruct (read_next r u RecordFull rec _ Hat) as (r1 & Hat1 & Hs); [lia|done|].
    destruct (Hs (read_fuel r) [] false Hn) as (fuel1 & _ & E1). rewrite E1 in E. unfold dispatch in E. cbn [negb fst snd app] in E.
    rewrite bool_decide_eq_true_2 in E by done. cbn in E.
    destruct (read_all fuel r1) as [l1 e1] eqn:E2. injection E as <- ->. change (rec :: l1) with ([rec] ++ l1). rewrite full_bytes_app, Hr, !len_app.
    assert (len (take (n - length (frag_bytes (full rec))) (full_bytes rs)) < len (full_bytes l1) + 7); [|lia].
    apply (IH r1 (start u + 7 + len rec) _ fuel l1); [|done|done]. intros Hne.
    assert (7 <= len (full_bytes rs)); [|destruct (start_in (start u + 7 + len rec)) as [-> ->]; [lia|split; [done|lia]]].
    destruct rs as [|q qs]; [done|]. change (q :: qs) with ([q] ++ qs). rewrite full_bytes_app, len_app. unfold full_bytes at 1. cbn.
    rewrite app_nil_r, len_frag. pose proof (len_nonneg q). pose proof (len_nonneg (full_bytes qs)). cbn. lia.
Qed.

Lemma ReadAll_full_eof rs n l : len (full_bytes rs) <= BlockSize -> ReadAll (take n (full_bytes rs)) = (l, Err EOF) ->
  len (take n (full_bytes rs)) < len (full_bytes l) + 7.
Proof.
  intros Hle E. pose proof BlockSize_eq. refine (read_all_eof rs _ BlockSize n _ l _ (NewReader_at _) E). intros _.
  unfold padding, start. rewrite Z.sub_diag. cbn. split; [done|lia].
Qed.

(** Records that fit in one block are whole. *)
Lemma run_wal_fits ops : forall w, writer_ok w -> len (stream w) + len (full_bytes (appended ops)) <= BlockSize ->
  exists w', run_wal ops w = (w', Ok tt) /\ stream w' = stream w ++ full_bytes (appended ops).
Proof.
  induction ops as [|[r|] ops IH]; intros w Hw Hle; cbn [run_wal].
  - exists w. by rewrite app_nil_r.
  - change (appended (WAppend r :: ops)) with ([r] ++ appended ops) in *. rewrite full_bytes_app in *. rewrite len_app in Hle.
    assert (full_bytes [r] = frag_bytes (full r)) as Hr by (unfold full_bytes; cbn; by rewrite app_nil_r). rewrite Hr in *. rewrite len_frag in Hle. cbn [full snd] in Hle.
    pose proof (len_nonneg (full_bytes (appended ops))). pose proof (len_stream w Hw). pose proof (len_nonneg (fdata (file w))).
    destruct (Append_small w r Hw) as (w1 & E1 & Hw1 & Hs1); [lia|]. erewrite st_bind_ok by exact E1.
    destruct (IH w1 Hw1) as (w2 & E2 & Hs2). { rewrite Hs1, len_app, len_frag. cbn [full snd]. lia. }
    exists w2. split; [done|]. by rewrite Hs2, Hs1, <- (assoc_L (++)).
  - destruct (Sync_ok w Hw) as (w1 & E1 & Hw1 & _ & _ & Hs1). erewrite st_bind_ok by exact E1. rewrite <- Hs1 in *. by apply IH.
Qed.

Lemma append_all_run rs w : append_all rs w = run_wal (map WAppend rs) w.
Proof.
  revert w. induction rs as [|r rs IH]; intros w; [done|]. cbn. unfold mbind, st_bind. destruct (Append r w) as [w' [[]| | |]]; [apply IH|done..].
Qed.

Lemma appended_map rs : appended (map WAppend rs) = rs.
Proof. induction rs as [|r rs IH]; [done|]. cbn. by f_equal. Qed.

Lemma run_wal_app o1 o2 w : run_wal (o1 ++ o2) w = (run_wal o1;; run_wal o2) w.
Proof.
  revert w. induction o1 as [|[r|] o1 IH]; intros w; [done|..]; cbn [app run_wal];
    unfold mbind, st_bind in *.
  - destruct (Append r w) as [w1 [| | |]]; done.
  - destruct (Sync w) as [w1 [| | |]]; done.
Qed.

(** The durable bytes are bytes of the file. *)
Definition durable_ok (w : Writer) : Prop := fsynced (file w) <= len (fdata (file w)).

Lemma run_wal_ok ops w :
  writer_ok w -> durable_ok w ->
  exists w', run_wal ops w = (w', Ok tt) /\ writer_ok w' /\ durable_ok w' /\
    fsynced (file w) <= fsynced (file w') /\ prefix (stream w) (stream w').
Proof.
  revert w. induction ops as [|[r|] ops IH]; intros w Hw Hd; cbn [run_wal].
  - exists w. split_and!; [done..|lia|done].
  - destruct (Append_ok r w Hw) as (fs & w1 & _ & (Hw1 & _ & Hs1 & _ & Hsy & Hl) & E1).
    erewrite st_bind_ok by exact E1. unfold durable_ok in *.
    destruct (IH w1 Hw1) as (w2 & E2 & Hw2 & Hd2 & Hle & Hp); [lia|].
    exists w2. split_and!; [done..|lia|]. etrans; [|exact Hp]. rewrite Hs1. by eexists.
  - destruct (Sync_ok w Hw) as (w1 & E1 & Hw1 & _ & Hf1 & Hs1).
    erewrite st_bind_ok by exact E1. unfold durable_ok in *. pose proof (len_stream w Hw).
    destruct (IH w1 Hw1) as (w2 & E2 & Hw2 & Hd2 & Hle & Hp); [rewrite Hf1; cbn; lia|].
    exists w2. rewrite Hf1 in Hle. cbn in Hle. rewrite Hs1 in Hp.
    destruct Hw as (_ & ? & _). split_and!; [done..|lia|done].
Qed.

(** ** Properties *)

(** C18: records appended to an empty log come back: after any appends, [Sync] and
    [Close] succeed, all bytes of the file are durable, and reading the file gives
    the records in order and then the end of the file.  The records may have any
    length, so the fragments may span blocks. *)
Theorem wal_roundtrip rs :
  exists w, (append_all rs;; Sync;; Close) (NewWriter empty_file) = (w, Ok tt) /\
    fsynced (file w) = len (fdata (file w)) /\
    ReadAll (fdata (file w)) = (rs, Err EOF).
Proof.
  destruct (append_all_ok rs (NewWriter empty_file)) as (fss & w & Hall & Hw & E & _);
    [by apply NewWriter_ok|].
  destruct Hw as (Hok & Hfit & Hs & _). rewrite NewWriter_stream in Hs.
  destruct (Sync_ok w Hok) as (w1 & E1 & Hok1 & _ & Hf1 & Hs1).
  eexists. split_and!.
  - erewrite st_bind_ok by exact E. erewrite st_bind_ok by exact E1. by apply Close_ok.
  - cbn. by rewrite Hf1, Hs1.
  - cbn. rewrite Hs1, Hs. by apply ReadAll_layout.
Qed.

(** A log cut at any byte (a torn write at a crash) is read back as the longest
    prefix of its records that is wholly in the file; the reader stops with the end
    of the file or a short record, and never returns a record that was not
    written. *)
Theorem wal_torn_prefix rs n :
  exists k e, ReadAll (take n (log_bytes rs)) = (take k rs, Err e) /\
    (k <= length rs)%nat /\
    (length (log_bytes (take k rs)) <= n)%nat /\
    ((k < length rs)%nat -> (n < length (log_bytes (take (S k) rs)))%nat) /\
    (e = EOF \/ e = ErrShortRecord).
Proof.
  destruct (log_bytes_layout rs) as (fss & Hall & Hfit & Hk).
  rewrite (log_bytes_all rs fss Hall Hk).
  destruct (ReadAll_prefix rs fss n Hall Hfit) as (k & e & E & H1 & H2 & H3 & H4 & _).
  exists k, e. by rewrite !Hk.
Qed.

(** C28: whatever the bytes of the file are, reading it ends, with a short or corrupt
    record or the end of the file; it never panics and never loops. *)
Theorem wal_read_total data : exists rs e, ReadAll data = (rs, Err e) /\ log_end e.
Proof. apply ReadAll_total. Qed.

(** Appends and syncs in any order are read back while the file is at most one
    block long. *)
Theorem wal_sync_one_block ops :
  exists w, (run_wal ops;; Sync) (NewWriter empty_file) = (w, Ok tt) /\
    (len (fdata (file w)) <= BlockSize ->
     ReadAll (fdata (file w)) = (appended ops, Err EOF)).
Proof.
  destruct (run_wal_small ops (NewWriter empty_file)) as (w & E & Hw & _ & Hs);
    [by apply NewWriter_ok|].
  destruct (Sync_ok w Hw) as (w1 & E1 & _ & _ & Hf1 & _). exists w1. split.
  { by erewrite st_bind_ok by exact E. }
  rewrite Hf1. cbn [fdata]. rewrite NewWriter_stream in Hs. intros Hle.
  pose proof (Hs Hle) as E2. cbn [empty_file fdata app] in E2. rewrite E2 in Hle |- *.
  by apply ReadAll_full.
Qed.

Definition long_record : bytes := replicate 20000%nat Byte.x61.

Definition two_synced (r1 r2 : bytes) : list wal_op := [WAppend r1; WSync; WAppend r2; WSync].

(** Both records are durable and only the first is read. *)
Definition second_is_lost (r1 : bytes) (x : Writer * outcome wal_error unit) : bool :=
  match x with
  | (w, Ok _) =>
      (fsynced (file w) =? len (fdata (file w)))%Z &&
      match ReadAll (fdata (file w)) with
      | (l, Err ErrShortRecord) => bool_decide (l = [r1])
      | _ => false
      end
  | _ => false
  end.

Lemma second_is_lost_spec r1 x :
  second_is_lost r1 x = true ->
  exists w, x = (w, Ok tt) /\ fsynced (file w) = len (fdata (file w)) /\
    ReadAll (fdata (file w)) = ([r1], Err ErrShortRecord).
Proof.
  intros H. destruct x as [w [[]| | |]]; try done. exists w. split; [done|].
  unfold second_is_lost in H. apply andb_prop in H as [H1%Z.eqb_eq H2]. split; [done|].
  destruct (ReadAll (fdata (file w))) as [l [|[]| |]]; try done.
  apply bool_decide_eq_true in H2. by rewrite H2.
Qed.

(** Beyond one block a record that was appended and synced can be lost: [Sync]
    flushes a partial block and starts a new one, the reader takes blocks at
    multiples of 32 KB.  Two synced records of 20000 bytes: the second one spans the
    first block boundary of the file and is read as a short record. *)
Theorem wal_sync_loses_record :
  exists r1 r2 w,
    run_wal (two_synced r1 r2) (NewWriter empty_file) = (w, Ok tt) /\
    fsynced (file w) = len (fdata (file w)) /\
    ReadAll (fdata (file w)) = ([r1], Err ErrShortRecord).
Proof.
  exists long_record, long_record. apply second_is_lost_spec. vm_compute. reflexivity.
Qed.
