(* ===== verification/WalRecovery.v ===== *)
(** * Log recovery (internal/wal/recovery.go)

    [Recover] replays a log up to the first record it cannot read or decode and, if
    there is one, rewrites the good records to [<path>.tmp] and renames that file
    over the log.  The file system is the two files and the faults of the coming
    writes; the faults of the reads are an argument of [Recover]. *)

From S2P Require Import Prelude Files WalBatch WalLog.
Import wal_batch wal_log.

#[local] Open Scope Z_scope.

Record FS := mkFS {
  fs_log : option bytes;
  fs_tmp : option bytes;
  wr_faults : list (option nat);
}.

(** An [open] or [rename]: it fails when a fault is due. *)
Definition os_call (fs : list (option nat)) : bool * list (option nat) :=
  match fs with
  | Some _ :: fs => (true, fs)
  | _ :: fs => (false, fs)
  | [] => (false, [])
  end.

Module wal_recovery.

Record RecoveryResult := mkResult {
  Batches : list Batch;
  CorruptedAt : Z;
  TruncatedAt : Z;
  RecordsRead : Z;
  RecordsLost : Z;
}.

(** The read loop: the good batches and whether a bad record stopped it.  A record
    takes bytes of the file, so twice its length is enough fuel. *)
Fixpoint recover_loop (fuel : nat) (r : Reader) (acc : list Batch)
    : outcome wal_error (list Batch * bool) :=
  match fuel with
  | O => Fuel
  | S fuel =>
      match ReadRecord r with
      | (r, Ok record) =>
          match DecodeBatch record with
          | Ok b => recover_loop fuel r (acc ++ [b])
          | Err _ => Ok (acc, true)
          | Panic => Panic
          | Fuel => Fuel
          end
      | (_, Err EOF) => Ok (acc, false)
      | (_, Err (ErrCorruptRecord | ErrShortRecord)) => Ok (acc, true)
      | (_, Err e) => Err e
      | (_, Panic) => Panic
      | (_, Fuel) => Fuel
      end
  end.

(** The rewriting loop, with the [Close] of its error path. *)
Fixpoint rewrite_loop (bs : list Batch) : st wal_error Writer unit :=
  match bs with
  | [] => fun w =>
      match Sync w with
      | (w, Ok _) => Close w
      | (w, e) => ((Close w).1, e)
      end
  | b :: bs => fun w =>
      match Encode b with
      | Ok data =>
          match Append data w with
          | (w, Ok _) => rewrite_loop bs w
          | (w, e) => ((Close w).1, e)
          end
      | Err e => match e with end
      | Panic => (w, Panic)
      | Fuel => (w, Fuel)
      end
  end.

(** [NewWriter(tmpPath)] opens an existing file at its end. *)
Definition rewrite_log (bs : list Batch) (fs : FS) : FS * outcome wal_error unit :=
  let '(failed, wf) := os_call (wr_faults fs) in
  if (failed : bool) then (mkFS (fs_log fs) (fs_tmp fs) wf, Err ErrIO)
  else
    let old := default [] (fs_tmp fs) in
    match rewrite_loop bs (NewWriter (mkFile old (len old) wf)) with
    | (w, Ok _) =>
        let data := fdata (file w) in
        let '(failed, wf) := os_call (faults (file w)) in
        if (failed : bool) then (mkFS (fs_log fs) (Some data) wf, Err ErrIO)
        else (mkFS (Some data) None wf, Ok tt)
    | (w, e) => (mkFS (fs_log fs) (Some (fdata (file w))) (faults (file w)), e)
    end.

Definition Recover (rd_faults : list (option nat)) : st wal_error FS RecoveryResult := fun fs =>
  match fs_log fs with
  | None => (fs, Ok (mkResult [] (-1) (-1) 0 0))
  | Some data =>
      let '(failed, rf) := os_call rd_faults in
      if (failed : bool) then (fs, Err ErrIO)
      else
        match recover_loop (S (2 * length data)) (NewReader data rf) [] with
        | Ok (bs, corrupt) =>
            if (corrupt : bool) then
              match rewrite_log bs fs with
              | (fs, Ok _) => (fs, Ok (mkResult bs 1 1 (len bs) 1))
              | (fs, Err e) => (fs, Err e)
              | (fs, Panic) => (fs, Panic)
              | (fs, Fuel) => (fs, Fuel)
              end
            else (fs, Ok (mkResult bs (-1) (-1) (len bs) 0))
        | Err e => (fs, Err e)
        | Panic => (fs, Panic)
        | Fuel => (fs, Fuel)
        end
  end.

End wal_recovery.
Import wal_recovery.

(** ** Recovery and reading *)

(** The longest prefix of the records that decodes, and whether that is all. *)
Fixpoint decode_all (rs : list bytes) : list Batch * bool :=
  match rs with
  | [] => ([], true)
  | r :: rs =>
      match DecodeBatch r with
      | Ok b => let '(bs, all) := decode_all rs in (b :: bs, all)
      | _ => ([], false)
      end
  end.

Lemma recover_loop_spec fuel r acc rs e :
  read_all fuel r = (rs, Err e) ->
  recover_loop fuel r acc =
  (let '(bs, all) := decode_all rs in
   if all then
     match e with
     | EOF => Ok (acc ++ bs, false)
     | ErrCorruptRecord | ErrShortRecord => Ok (acc ++ bs, true)
     | e => Err e
     end
   else Ok (acc ++ bs, true)).
Proof.
  revert r acc rs. induction fuel as [|fuel IH]; intros r acc rs; cbn [read_all recover_loop]; [done|].
  destruct (ReadRecord r) as [r1 [rec|e1| |]]; try done.
  2:{ intros [= <- <-]. cbn [decode_all]. rewrite app_nil_r. by destruct e1. }
  destruct (read_all fuel r1) as [rs1 e1] eqn:E. intros [= <- ->]. cbn [decode_all].
  destruct (DecodeBatch_total rec) as [->|(b & post & -> & _)]; [by rewrite app_nil_r|].
  rewrite (IH _ _ _ E). destruct (decode_all rs1) as [bs []]; cbn;
    rewrite <- (assoc_L (++)); by destruct e.
Qed.

Lemma decode_all_ok rs :
  Forall batch_ok (decode_all rs).1 /\ map norm_batch (decode_all rs).1 = (decode_all rs).1.
Proof.
  induction rs as [|r rs [IH1 IH2]]; cbn [decode_all]; [done|].
  destruct (DecodeBatch_total r) as [->|(b & post & -> & _ & Hb & Hn)]; [done|].
  destruct (decode_all rs) as [bs all]; cbn [fst map] in *. rewrite Hn, IH2. by split; [constructor|].
Qed.

Lemma decode_all_enc bs :
  Forall batch_ok bs -> decode_all (map enc_batch bs) = (map norm_batch bs, true).
Proof.
  induction 1 as [|b bs Hb _ IH]; [done|]. cbn [map decode_all].
  rewrite <- (app_nil_r (enc_batch b)), DecodeBatch_enc by done. by rewrite IH.
Qed.

Lemma rewrite_loop_eq bs w w1 w2 w3 :
  append_all (map enc_batch bs) w = (w1, Ok tt) -> Sync w1 = (w2, Ok tt) ->
  Close w2 = (w3, Ok tt) -> rewrite_loop bs w = (w3, Ok tt).
Proof.
  revert w. induction bs as [|b bs IH]; intros w; cbn [map append_all rewrite_loop].
  - intros [= ->] -> ->. done.
  - intros E ??. rewrite Encode_ok. unfold mbind, st_bind in E.
    destruct (Append (enc_batch b) w) as [w' [[]| | |]]; try done. by apply IH.
Qed.

(** What [Recover] makes of the contents of a log. *)
Definition replay (data : bytes) : list Batch := (decode_all (ReadAll data).1).1.

Definition clean_result (bs : list Batch) : RecoveryResult := mkResult bs (-1) (-1) (len bs) 0.
Definition repaired_result (bs : list Batch) : RecoveryResult := mkResult bs 1 1 (len bs) 1.

Lemma rewrite_log_stream bs log w :
  append_all (map enc_batch bs) (NewWriter empty_file) = (w, Ok tt) -> writer_ok w ->
  rewrite_log bs (mkFS log None []) = (mkFS (Some (stream w)) None [], Ok tt).
Proof.
  intros E Hok. destruct (Sync_ok w Hok) as (w1 & E1 & Hok1 & _ & _ & Hs1). rewrite <- Hs1.
  unfold rewrite_log. cbn [wr_faults os_call fs_tmp]. change (NewWriter _) with (NewWriter empty_file).
  by rewrite (rewrite_loop_eq bs _ w w1 _ E E1 (Close_ok w1 Hok1)).
Qed.

Lemma rewrite_log_ok bs log :
  exists data, rewrite_log bs (mkFS log None []) = (mkFS (Some data) None [], Ok tt) /\
    ReadAll data = (map enc_batch bs, Err EOF).
Proof.
  destruct (append_all_ok (map enc_batch bs) (NewWriter empty_file))
    as (fss & w & Hall & Hw & E & _); [by apply NewWriter_ok|].
  destruct Hw as (Hok & Hfit & Hs & _). rewrite NewWriter_stream in Hs.
  exists (stream w). split; [by apply rewrite_log_stream|]. rewrite Hs. by apply ReadAll_layout.
Qed.

(** A rewritten log of at most one block has one whole record for each batch. *)
Lemma rewrite_log_small bs log : len (full_bytes (map enc_batch bs)) <= BlockSize ->
  rewrite_log bs (mkFS log None []) = (mkFS (Some (full_bytes (map enc_batch bs))) None [], Ok tt).
Proof.
  intros Hle. destruct (run_wal_fits (map WAppend (map enc_batch bs)) (NewWriter empty_file)) as (w & E & Hs).
  { by apply NewWriter_ok. } { by rewrite NewWriter_stream, appended_map. }
  rewrite NewWriter_stream, appended_map in Hs. rewrite <- append_all_run in E.
  destruct (append_all_ok (map enc_batch bs) (NewWriter empty_file)) as (_ & w' & _ & [Hok _] & E' & _); [by apply NewWriter_ok|].
  rewrite E in E'. injection E' as <-. rewrite (rewrite_log_stream bs log w E Hok). by rewrite Hs.
Qed.

Lemma Recover_clean data :
  forall bs, ReadAll data = (map enc_batch bs, Err EOF) ->
  Forall batch_ok bs -> forall tmp wf,
  Recover [] (mkFS (Some data) tmp wf) =
    (mkFS (Some data) tmp wf, Ok (clean_result (map norm_batch bs))).
Proof.
  intros bs HR Hbs tmp wf. unfold Recover. cbn [fs_log os_call].
  rewrite (recover_loop_spec _ _ _ _ _ HR), decode_all_enc by done. done.
Qed.

Lemma Recover_cases data :
  Recover [] (mkFS (Some data) None []) =
    (mkFS (Some data) None [], Ok (clean_result (replay data))) \/
  exists data', Recover [] (mkFS (Some data) None []) =
    (mkFS (Some data') None [], Ok (repaired_result (replay data))) /\
    ReadAll data' = (map enc_batch (replay data), Err EOF).
Proof.
  destruct (ReadAll_total data) as (rs & e & HR & He). unfold Recover, replay. rewrite HR.
  cbn [fs_log os_call fst]. rewrite (recover_loop_spec _ _ _ _ _ HR).
  destruct (decode_all rs) as [bs all]. cbn [app fst].
  destruct (rewrite_log_ok bs (Some data)) as (data' & E & HR').
  destruct all; [destruct He as [->|[->| ->]]|]; [by left|right..]; exists data'; by rewrite E.
Qed.

Lemma replay_ok data :
  Forall batch_ok (replay data) /\ map norm_batch (replay data) = replay data.
Proof. apply decode_all_ok. Qed.

(** Recovery of a log with any contents succeeds and leaves a log that reads
    without error: a second recovery changes nothing and returns the same batches,
    without corruption. *)
Theorem Recover_idempotent data :
  exists fs res, Recover [] (mkFS (Some data) None []) = (fs, Ok res) /\
    Recover [] fs = (fs, Ok (clean_result (Batches res))).
Proof.
  destruct (replay_ok data) as [Hok Hnorm].
  destruct (Recover_cases data) as [E|(data' & E & HR)].
  - eexists _, _. split; exact E.
  - eexists _, _. split; [exact E|]. cbn [Batches repaired_result].
    pose proof (Recover_clean data' _ HR Hok None []) as E2. by rewrite Hnorm in E2.
Qed.

(** What can be replayed of a log of batches cut at any byte. *)
Lemma replay_cut (bs : list Batch) (n : nat) : Forall batch_ok bs -> exists k,
  replay (take n (log_bytes (map enc_batch bs))) = take k (map norm_batch bs) /\
  (length (log_bytes (map enc_batch (take k bs))) <= n)%nat /\
  ((k < length bs)%nat -> (n < length (log_bytes (map enc_batch (take (S k) bs))))%nat).
Proof.
  intros Hbs. destruct (log_bytes_layout (map enc_batch bs)) as (fss & Hall & Hfit & Hk).
  destruct (ReadAll_prefix _ fss n Hall Hfit) as (k & e & E & H1 & H2 & H3 & _).
  rewrite <- (log_bytes_all _ fss Hall Hk), firstn_map in E. rewrite <- !Hk, !firstn_map in *.
  rewrite length_map in *. exists k. split; [|done]. unfold replay. rewrite E, firstn_map. cbn [fst].
  rewrite decode_all_enc; [done|]. by apply Forall_take.
Qed.

(** A log of batches written with one final sync and then cut at any byte is
    recovered as the longest prefix of the batches that is wholly in the file (an
    empty value comes back as [nil]). *)
Theorem Recover_torn (bs : list Batch) (n : nat) (Hbs : Forall batch_ok bs) :
  exists fs res k,
    Recover [] (mkFS (Some (take n (log_bytes (map enc_batch bs)))) None []) = (fs, Ok res) /\
    Batches res = take k (map norm_batch bs) /\
    (length (log_bytes (map enc_batch (take k bs))) <= n)%nat /\
    ((k < length bs)%nat -> (n < length (log_bytes (map enc_batch (take (S k) bs))))%nat).
Proof.
  destruct (replay_cut bs n Hbs) as (k & Hrep & Hk). set (data := take n (log_bytes (map enc_batch bs))) in *.
  destruct (Recover_cases data) as [E|(data' & E & _)]; eexists _, _, k; (split; [exact E|]); by rewrite Hrep.
Qed.

Lemma Recover_torn_witness :
  exists fs res k,
    Recover [] (mkFS (Some (take 30 (log_bytes (map enc_batch [sample_batch; sample_batch]))))
      None []) = (fs, Ok res) /\
    Batches res = take k (map norm_batch [sample_batch; sample_batch]).
Proof.
  destruct (Recover_torn [sample_batch; sample_batch] 30) as (fs & res & k & E & HB & _).
  - repeat constructor; exact sample_batch_ok.
  - exists fs, res, k. split; [exact E|exact HB].
Defined.

(** A log whose last record has a wrong checksum. *)
Definition torn_log : bytes :=
  log_bytes [enc_batch sample_batch] ++
  [Byte.x01; Byte.x00; Byte.x00; Byte.x00; Byte.x00; Byte.x00; Byte.x01].

Definition doubled : FS :=
  mkFS (Some (log_bytes [enc_batch sample_batch] ++ log_bytes [enc_batch sample_batch])) None [].

(** A temporary file left by a recovery that crashed before its rename is not
    truncated: the next recovery appends to it, and the batches of the repaired log
    are then replayed twice. *)
Theorem Recover_stale_tmp_duplicates :
  exists fs, Recover [] (mkFS (Some torn_log) (Some (log_bytes [enc_batch sample_batch])) []) =
      (fs, Ok (repaired_result [sample_batch])) /\
    Recover [] fs = (fs, Ok (clean_result [sample_batch; sample_batch])).
Proof. exists doubled. split; vm_compute; reflexivity. Qed.
