(* ===== verification/GroupCommit.v ===== *)
(** * Group commit (internal/wal/group_commit.go)

    Callers of [Submit] put requests on a channel; one goroutine ([run]) collects
    them in a batch, appends the batch to the log, syncs once and answers every
    request of the batch with the same error.  The goroutines interleave at the
    channel operations: an [event] is one of these, and [step] says when it is
    enabled and what the goroutine does until its next channel operation. *)

From S2P Require Import Prelude Files WalBatch WalLog.
Import wal_log.

Module group_commit.

(** A request: who waits for it, and its data. *)
Definition commitRequest : Type := nat * bytes.

Inductive phase := Running | Draining | Stopped.

#[export] Instance phase_eq_dec : EqDecision phase.
Proof. solve_decision. Defined.

(** [calls] is the history of the calls of [gc.writer] with their results;
    [replies] what was sent on the result channels; [rejected] the callers that
    got [ErrClosed] from the select. *)
Record GroupCommitter := mkGC {
  writer : Writer;
  pending : list commitRequest;
  batch : list commitRequest;
  timerActive : bool;
  stopClosed : bool;
  phase_of : phase;
  maxBatchSize : Z;
  calls : list (wal_op * outcome wal_error unit);
  replies : list (commitRequest * outcome wal_error unit);
  rejected : list nat;
}.

Definition pending_cap : nat := 1024.

Definition NewGroupCommitter (w : Writer) (maxBatchSize : Z) : GroupCommitter :=
  mkGC w [] [] false false Running maxBatchSize [] [] [].

(** The append loop of [flush]; it stops at the first error. *)
Fixpoint append_batch (rs : list commitRequest) (w : Writer)
    : Writer * list (wal_op * outcome wal_error unit) * outcome wal_error unit :=
  match rs with
  | [] => (w, [], Ok tt)
  | (_, data) :: rs =>
      match Append data w with
      | (w, Ok u) =>
          let '(w, cs, err) := append_batch rs w in
          (w, (WAppend data, Ok u) :: cs, err)
      | (w, err) => (w, [(WAppend data, err)], err)
      end
  end.

Definition flush (s : GroupCommitter) : GroupCommitter :=
  match batch s with
  | [] => s
  | _ =>
      let '(w, cs, err) := append_batch (batch s) (writer s) in
      let '(w, cs, err) :=
        match err with
        | Ok _ => let '(w, err) := Sync w in (w, cs ++ [(WSync, err)], err)
        | _ => (w, cs, err)
        end in
      mkGC w (pending s) [] false (stopClosed s) (phase_of s) (maxBatchSize s)
        (calls s ++ cs) (replies s ++ map (fun r => (r, err)) (batch s)) (rejected s)
  end.

Inductive event :=
| ESend (r : commitRequest)   (* Submit: case gc.pending <- req *)
| EReject (id : nat)          (* Submit: case <-gc.stopCh *)
| EClose                      (* Stop: close(gc.stopCh) *)
| ERecv                       (* run: case req := <-gc.pending *)
| ETimer                      (* run: case <-timer.C *)
| EStop                       (* run: case <-gc.stopCh *)
| EDrain                      (* run, draining: case req := <-gc.pending *)
| EReturn.                    (* run, draining: default *)

Definition set_queues (p b : list commitRequest) (t : bool) (s : GroupCommitter) : GroupCommitter :=
  mkGC (writer s) p b t (stopClosed s) (phase_of s) (maxBatchSize s) (calls s) (replies s)
    (rejected s).

Definition set_phase (p : phase) (s : GroupCommitter) : GroupCommitter :=
  mkGC (writer s) (pending s) (batch s) (timerActive s) (stopClosed s) p (maxBatchSize s)
    (calls s) (replies s) (rejected s).

Definition step (e : event) (s : GroupCommitter) : option GroupCommitter :=
  match e with
  | ESend r =>
      if bool_decide (length (pending s) < pending_cap)%nat
      then Some (set_queues (pending s ++ [r]) (batch s) (timerActive s) s) else None
  | EReject id =>
      if stopClosed s then
        Some (mkGC (writer s) (pending s) (batch s) (timerActive s) (stopClosed s) (phase_of s)
          (maxBatchSize s) (calls s) (replies s) (rejected s ++ [id]))
      else None
  | EClose =>
      if stopClosed s then None
      else Some (mkGC (writer s) (pending s) (batch s) (timerActive s) true (phase_of s)
             (maxBatchSize s) (calls s) (replies s) (rejected s))
  | ERecv =>
      match phase_of s, pending s with
      | Running, r :: rest =>
          let b := batch s ++ [r] in
          if (maxBatchSize s <=? len b)%Z then Some (flush (set_queues rest b (timerActive s) s))
          else Some (set_queues rest b true s)
      | _, _ => None
      end
  | ETimer =>
      match phase_of s, timerActive s with
      | Running, true => Some (flush (set_queues (pending s) (batch s) false s))
      | _, _ => None
      end
  | EStop =>
      match phase_of s, stopClosed s with
      | Running, true => Some (set_phase Draining s)
      | _, _ => None
      end
  | EDrain =>
      match phase_of s, pending s with
      | Draining, r :: rest => Some (set_queues rest (batch s ++ [r]) (timerActive s) s)
      | _, _ => None
      end
  | EReturn =>
      match phase_of s, pending s with
      | Draining, [] => Some (set_phase Stopped (flush s))
      | _, _ => None
      end
  end.

Fixpoint run (es : list event) (s : GroupCommitter) : option GroupCommitter :=
  match es with
  | [] => Some s
  | e :: es => s' ← step e s; run es s'
  end.

End group_commit.
Import group_commit.

(** ** What [flush] does *)

(** The requests put on the channel, in order. *)
Definition sent (es : list event) : list commitRequest :=
  omap (fun e => match e with ESend r => Some r | _ => None end) es.

(** [c] answers [r] with success: its data was appended and a later sync worked. *)
Definition committed (c : list (wal_op * outcome wal_error unit)) (data : bytes) : Prop :=
  exists c1 c2 c3, c = c1 ++ (WAppend data, Ok tt) :: c2 ++ (WSync, Ok tt) :: c3.

Lemma committed_app c c' data : committed c data -> committed (c ++ c') data.
Proof.
  intros (c1 & c2 & c3 & ->). exists c1, c2, (c3 ++ c').
  rewrite <- (assoc_L (++)). cbn. by rewrite <- (assoc_L (++)).
Qed.

Lemma committed_app_r c c' data : committed c' data -> committed (c ++ c') data.
Proof. intros (c1 & c2 & c3 & ->). exists (c ++ c1), c2, c3. by rewrite <- (assoc_L (++)). Qed.

Lemma append_batch_calls rs w w' cs u :
  append_batch rs w = (w', cs, Ok u) ->
  cs = map (fun r => (WAppend r.2, Ok tt)) rs /\ run_wal (map (fun r => WAppend r.2) rs) w = (w', Ok tt).
Proof.
  revert w cs. induction rs as [|[id d] rs IH]; intros w cs; cbn [append_batch map run_wal].
  - by intros [= <- <-].
  - destruct (Append d w) as [w1 [[]| | |]] eqn:E; try done.
    destruct (append_batch rs w1) as [[w2 cs2] err] eqn:E2. intros [= <- <- ->].
    destruct (IH _ _ E2) as [-> Hr]. split; [done|]. by erewrite st_bind_ok by exact E.
Qed.

(** The replies and the calls of one flush. *)
Lemma flush_spec s :
  exists cs err, flush s = mkGC (writer (flush s)) (pending s) []
      (if bool_decide (batch s = []) then timerActive s else false) (stopClosed s) (phase_of s)
      (maxBatchSize s) (calls s ++ cs) (replies s ++ map (fun r => (r, err)) (batch s)) (rejected s) /\
    (err = Ok tt -> forall r, r ∈ batch s -> committed cs r.2).
Proof.
  unfold flush. destruct (batch s) as [|r b] eqn:Eb.
  { exists [], (Ok tt). split; [|by intros _ r ?%elem_of_nil].
    rewrite !app_nil_r, bool_decide_true by done. destruct s; cbn in *. by subst. }
  rewrite bool_decide_false by done. rewrite <- Eb. clear Eb r b.
  destruct (append_batch (batch s) (writer s)) as [[w cs] err] eqn:E.
  destruct err as [u|e| |]; try by (eexists _, _; split; [reflexivity|]).
  destruct (Sync w) as [w2 err]. eexists _, _. split; [reflexivity|].
  intros -> r Hr. destruct (append_batch_calls _ _ _ _ _ E) as [-> _].
  apply list_elem_of_split in Hr as (b1 & b2 & ->). rewrite map_app. cbn.
  eexists _, _, []. by rewrite <- (assoc_L (++)).
Qed.

(** ** The invariant *)

Record gc_inv (es : list event) (s : GroupCommitter) : Prop := {
  inv_fifo : map fst (replies s) ++ batch s ++ pending s = sent es;
  inv_acked : forall r, (r, Ok tt) ∈ replies s -> committed (calls s) r.2;
  inv_idle : batch s = [] -> timerActive s = false;
  inv_timer : phase_of s = Running -> batch s <> [] -> timerActive s = true;
  inv_stopped : phase_of s = Stopped -> batch s = [];
  inv_size : phase_of s = Running -> (1 <= maxBatchSize s)%Z -> (len (batch s) < maxBatchSize s)%Z;
}.

Lemma flush_inv es s :
  map fst (replies s) ++ batch s ++ pending s = sent es ->
  (forall r, (r, Ok tt) ∈ replies s -> committed (calls s) r.2) ->
  (batch s = [] -> timerActive s = false) ->
  gc_inv es (flush s) /\ batch (flush s) = [].
Proof.
  intros Hf Ha Ht. destruct (flush_spec s) as (cs & err & -> & Hc). split; [|done].
  split; cbn [replies batch pending calls phase_of timerActive maxBatchSize].
  - rewrite map_app, map_map. cbn [fst]. rewrite map_id, <- (assoc_L (++)). done.
  - intros r [Hr|(r' & [= <- <-] & Hr)%list_elem_of_fmap]%elem_of_app.
    + by apply committed_app, Ha.
    + by apply committed_app_r, Hc.
  - intros _. case_bool_decide; [|done]. by rewrite Ht.
  - done.
  - done.
  - intros _ ?. len_nils. lia.
Qed.

Lemma gc_step_inv es e s s' : gc_inv es s -> step e s = Some s' -> gc_inv (es ++ [e]) s'.
Proof.
  intros [Hf Ha Hi Ht Hs Hz] E.
  assert (sent (es ++ [e]) = sent es ++ sent [e]) as Hsent by apply omap_app.
  destruct e; cbn [step] in E; cbn [sent omap list_omap] in Hsent; rewrite ?app_nil_r in Hsent.
  - case_bool_decide; [|done]. injection E as <-. split; cbn; try done.
    rewrite Hsent, <- Hf. by rewrite !(assoc_L (++)).
  - destruct (stopClosed s); [|done]. injection E as <-. by split; cbn; rewrite ?Hsent.
  - destruct (stopClosed s); [done|]. injection E as <-. by split; cbn; rewrite ?Hsent.
  - destruct (phase_of s) eqn:Ep; [|done..]. destruct (pending s) as [|r rest] eqn:Er; [done|].
    assert (map fst (replies s) ++ (batch s ++ [r]) ++ rest = sent (es ++ [ERecv])) as Hf'.
    { rewrite Hsent, <- Hf. by rewrite <- !(assoc_L (++)). }
    destruct (Z.leb_spec (maxBatchSize s) (len (batch s ++ [r]))) as [Hle|Hlt]; injection E as <-.
    + apply flush_inv; cbn; [done..|]. intros He. by apply app_nil in He as [_ ?].
    + split; cbn; try done; [|by rewrite Ep]. intros He. by apply app_nil in He as [_ ?].
  - destruct (phase_of s) eqn:Ep; [|done..]. destruct (timerActive s); [|done].
    injection E as <-. apply flush_inv; cbn; [by rewrite Hsent|done..].
  - destruct (phase_of s) eqn:Ep; [|done..]. destruct (stopClosed s); [|done].
    injection E as <-. by split; cbn; rewrite ?Hsent.
  - destruct (phase_of s) eqn:Ep; [done| |done]. destruct (pending s) as [|r rest] eqn:Er; [done|].
    injection E as <-. split; cbn; try done; [|..|by rewrite Ep|by rewrite Ep|by rewrite Ep].
    + rewrite Hsent, <- Hf. by rewrite <- !(assoc_L (++)).
    + intros He. by apply app_nil in He as [_ ?].
  - destruct (phase_of s) eqn:Ep; [done| |done]. destruct (pending s) eqn:Er; [|done].
    injection E as <-. destruct (flush_inv (es ++ [EReturn]) s) as [[Hf' Ha' Hi' Ht' Hs' Hz'] Hb];
      [by rewrite Hsent, <- Hf, Er|done..|]. by split; cbn.
Qed.

Lemma gc_run_inv es s es' s' : gc_inv es s -> run es' s = Some s' -> gc_inv (es ++ es') s'.
Proof.
  revert es s. induction es' as [|e es' IH]; intros es s Hinv; cbn [run].
  - intros [= <-]. by rewrite app_nil_r.
  - destruct (step e s) as [s1|] eqn:E; [|done]. intros Hr.
    rewrite (cons_middle e es es'), (assoc_L (++)). apply (IH _ s1); [|done]. by eapply gc_step_inv.
Qed.

Lemma new_inv w n : gc_inv [] (NewGroupCommitter w n).
Proof.
  split; cbn; try done; [by intros r ?%elem_of_nil|]. intros _ ?. len_nils. lia.
Qed.

(** What the goroutine does at one of its channel operations, seen from outside. *)
Record gc_moved (s s' : GroupCommitter) : Prop := {
  mv_calls : exists cs, calls s' = calls s ++ cs;
  mv_stop : stopClosed s' = stopClosed s;
  mv_wait : forall r, r ∈ batch s' ++ pending s' -> r ∈ batch s ++ pending s;
  mv_phase : phase_of s <> Stopped;
}.

Lemma flush_moved s s0 : calls s = calls s0 -> stopClosed s = stopClosed s0 -> phase_of s0 <> Stopped ->
  (forall r, r ∈ pending s -> r ∈ batch s0 ++ pending s0) -> gc_moved s0 (flush s).
Proof.
  intros Hc Hs Hp Hw. destruct (flush_spec s) as (cs & err & -> & _). split; cbn [calls stopClosed batch pending phase_of];
    [exists cs; by rewrite Hc|done|done|done].
Qed.

Lemma goroutine_moves e s s' :
  (match e with ERecv | ETimer | EStop | EDrain | EReturn => true | _ => false end) = true ->
  step e s = Some s' -> gc_moved s s' /\ sent [e] = [].
Proof.
  intros He E. split; [|by destruct e]. destruct e; try done; cbn [step] in E.
  - destruct (phase_of s) eqn:Ep; [|done..]. destruct (pending s) as [|r rest] eqn:Er; [done|]. destruct (_ <=? _)%Z; injection E as <-.
    + apply flush_moved; cbn; [done|done|congruence|]. rewrite Er. set_solver.
    + split; cbn; [by exists []; rewrite app_nil_r|done| |congruence]. rewrite Er. set_solver.
  - destruct (phase_of s) eqn:Ep; [|done..]. destruct (timerActive s); [|done]. injection E as <-.
    apply flush_moved; cbn; [done|done|congruence|set_solver].
  - destruct (phase_of s) eqn:Ep; [|done..]. destruct (stopClosed s) eqn:Es; [|done]. injection E as <-.
    split; cbn; [by exists []; rewrite app_nil_r|done|done|congruence].
  - destruct (phase_of s) eqn:Ep; [done| |done]. destruct (pending s) as [|r rest] eqn:Er; [done|]. injection E as <-.
    split; cbn; [by exists []; rewrite app_nil_r|done| |congruence]. rewrite Er. set_solver.
  - destruct (phase_of s) eqn:Ep; [done| |done]. destruct (pending s) eqn:Er; [|done]. injection E as <-.
    destruct (flush_moved s s) as [H1 H2 H3 H4]; [done|done|congruence|set_solver|]. split; cbn; [done|done|done|congruence].
Qed.

(** ** The log of a committer without faults *)

(** The calls are what brought the writer from [w0] to its state. *)
Definition calls_ok (w0 : Writer) (s : GroupCommitter) : Prop :=
  writer_ok (writer s) /\ durable_ok (writer s) /\
  run_wal (map fst (calls s)) w0 = (writer s, Ok tt).

Lemma append_batch_ok rs w :
  writer_ok w -> exists w' cs, append_batch rs w = (w', cs, Ok tt).
Proof.
  revert w. induction rs as [|[id d] rs IH]; intros w Hw; cbn [append_batch]; [by eexists _, _|].
  destruct (Append_ok d w Hw) as (fs & w1 & _ & (Hw1 & _) & ->).
  destruct (IH w1 Hw1) as (w2 & cs & ->). by eexists _, _.
Qed.

Lemma flush_calls_ok w0 s : calls_ok w0 s -> calls_ok w0 (flush s).
Proof.
  intros (Hw & Hd & Hr). unfold flush. destruct (batch s) as [|r b] eqn:Eb; [done|]. rewrite <- Eb.
  destruct (append_batch_ok (batch s) (writer s) Hw) as (w1 & cs & E). rewrite E.
  destruct (append_batch_calls _ _ _ _ _ E) as [-> Ha].
  destruct (Sync w1) as [w2 err] eqn:E2.
  destruct (run_wal_ok (map (fun r => WAppend r.2) (batch s) ++ [WSync]) (writer s) Hw Hd)
    as (w3 & E3 & Hw3 & Hd3 & _).
  rewrite run_wal_app in E3. erewrite st_bind_ok in E3 by exact Ha. cbn [run_wal] in E3.
  assert (w2 = w3) as ->.
  { unfold mbind, st_bind in E3. rewrite E2 in E3. destruct err as [[]| | |]; [by injection E3|discriminate..]. }
  split_and!; cbn; [done..|]. rewrite !map_app, map_map. cbn. rewrite run_wal_app.
  erewrite st_bind_ok by exact Hr. rewrite run_wal_app. by erewrite st_bind_ok by exact Ha.
Qed.

Lemma step_calls_ok w0 e s s' : calls_ok w0 s -> step e s = Some s' -> calls_ok w0 s'.
Proof.
  intros Hc E.
  assert (forall p b t, calls_ok w0 (set_queues p b t s)) as Hq by done.
  destruct e; cbn [step] in E; repeat case_match; simplify_eq; try done; auto using flush_calls_ok.
  by apply (flush_calls_ok w0 s) in Hc.
Qed.

Lemma run_calls_ok w0 es s s' : calls_ok w0 s -> run es s = Some s' -> calls_ok w0 s'.
Proof.
  revert s. induction es as [|e es IH]; intros s Hc; cbn [run]; [by intros [= <-]|].
  destruct (step e s) as [s1|] eqn:E; [|done]. apply IH. by eapply step_calls_ok.
Qed.

(** The bytes of the records up to a sync are all in what a crash leaves, so they are
    all read back, while the log is at most one block long. *)
Lemma read_covers (A B : list bytes) n :
  (len (full_bytes (A ++ B)) <= BlockSize)%Z -> (length (full_bytes A) <= n)%nat ->
  forall x, x ∈ A -> x ∈ (ReadAll (take n (full_bytes (A ++ B)))).1.
Proof.
  intros Hle Hn x [i Hi]%list_elem_of_lookup.
  destruct (ReadAll_full_prefix (A ++ B) n Hle) as (k & e & -> & Hk). cbn [fst].
  pose proof (lookup_lt_Some _ _ _ Hi) as Hlt. destruct (decide (i < k)%nat) as [Hik|Hik].
  - apply list_elem_of_lookup. exists i. rewrite lookup_take_lt by done. by rewrite lookup_app_l.
  - exfalso. specialize (Hk ltac:(rewrite length_app; lia)).
    rewrite take_app_le in Hk by lia. rewrite <- (take_drop (S k) A), full_bytes_app, length_app in Hn.
    lia.
Qed.

Lemma durable_record_survives o o3 w n data :
  run_wal (o ++ WSync :: o3) (NewWriter empty_file) = (w, Ok tt) -> data ∈ appended o ->
  (len (stream w) <= BlockSize)%Z -> (fsynced (file w) <= Z.of_nat n)%Z ->
  data ∈ (ReadAll (take n (fdata (file w)))).1.
Proof.
  intros Hrun Hin Hsmall Hn.
  assert (writer_ok (NewWriter empty_file)) as H0 by by apply NewWriter_ok.
  destruct (run_wal_small (o ++ WSync :: o3) _ H0) as (w' & E & _ & _ & Hall).
  rewrite Hrun in E. injection E as <-. specialize (Hall Hsmall).
  destruct (run_wal_small o _ H0) as (w1 & E1 & Hw1 & _ & Hpart).
  rewrite run_wal_app in Hrun. erewrite st_bind_ok in Hrun by exact E1. cbn [run_wal] in Hrun.
  destruct (Sync_ok w1 Hw1) as (w2 & E2 & Hw2 & _ & Hf2 & Hs2).
  erewrite st_bind_ok in Hrun by exact E2.
  destruct (run_wal_ok o3 w2 Hw2) as (w3 & E3 & Hw3 & Hd3 & Hle & [ext Hpre]).
  { unfold durable_ok. rewrite Hf2. cbn. lia. }
  rewrite E3 in Hrun. injection Hrun as ->. rewrite Hf2 in Hle. cbn [fsynced] in Hle.
  rewrite Hs2 in Hpre. pose proof (f_equal len Hpre) as Hl. rewrite len_app in Hl.
  pose proof (len_nonneg ext). specialize (Hpart ltac:(lia)).
  rewrite NewWriter_stream in *. cbn [empty_file fdata app] in Hall, Hpart.
  assert (appended (o ++ WSync :: o3) = appended o ++ appended o3) as Happ
    by (unfold appended; by rewrite omap_app).
  rewrite Happ in Hall. fold (full_bytes (appended o ++ appended o3)) in Hall.
  fold (full_bytes (appended o)) in Hpart.
  assert (take n (fdata (file w)) =
    take (n `min` length (fdata (file w))) (full_bytes (appended o ++ appended o3))) as ->.
  { rewrite <- Hall. unfold stream. rewrite take_app_le by lia.
    destruct (Nat.min_spec n (length (fdata (file w)))) as [[? ->]|[? ->]]; [done|].
    by rewrite !take_ge. }
  apply read_covers; [by rewrite <- Hall|rewrite <- Hpart|done].
  unfold durable_ok, len in *. lia.
Qed.

(** ** Properties *)

(** C25: requests are answered in the order they were sent, each at most once and none
    is dropped: the answered requests, the batch and the channel are together the
    requests sent. *)
Theorem commit_fifo_exactly_once w n es s (Hrun : run es (NewGroupCommitter w n) = Some s) :
  map fst (replies s) ++ batch s ++ pending s = sent es.
Proof. by eapply inv_fifo, (gc_run_inv [] _ es), Hrun; apply new_inv. Qed.

(** A caller that gets no error had its data appended to the log and synced
    after that, whatever errors other calls of the writer returned. *)
Theorem commit_ack_synced w n es s r (Hrun : run es (NewGroupCommitter w n) = Some s)
    (Hack : (r, Ok tt) ∈ replies s) :
  committed (calls s) r.2.
Proof. eapply inv_acked; [|done]. eapply (gc_run_inv [] _ es), Hrun. apply new_inv. Qed.

(** C8: acknowledged data survives a crash: on a working disk and while the log is at
    most one block long, every record whose caller got no error is read back from the
    file cut at any byte not yet durable. *)
Theorem commit_ack_survives_crash n es s r cut
    (Hrun : run es (NewGroupCommitter (NewWriter empty_file) n) = Some s)
    (Hack : (r, Ok tt) ∈ replies s)
    (Hsmall : (len (stream (writer s)) <= BlockSize)%Z)
    (Hcut : (fsynced (file (writer s)) <= Z.of_nat cut)%Z) :
  r.2 ∈ (ReadAll (take cut (fdata (file (writer s))))).1.
Proof.
  assert (gc_inv es s) as Hinv by (eapply (gc_run_inv [] _ es), Hrun; apply new_inv).
  destruct (inv_acked _ _ Hinv r Hack) as (c1 & c2 & c3 & Hc).
  edestruct (run_calls_ok (NewWriter empty_file) es) as (_ & _ & Hw); [|exact Hrun|].
  { split_and!; [by apply NewWriter_ok|done|done]. }
  rewrite Hc, map_app in Hw. cbn [map fst] in Hw. rewrite map_app in Hw. cbn [map fst] in Hw.
  eapply (durable_record_survives (map fst c1 ++ WAppend r.2 :: map fst c2)); [|..|done|done].
  - rewrite <- (assoc_L (++)). exact Hw.
  - unfold appended. rewrite omap_app. cbn. set_solver.
Qed.

(** A received request is not forgotten while the committer runs: a batch that is
    not empty has a running timer, and when the timer fires every request of the batch
    is answered. *)
Theorem commit_timer_answers w n es s (Hrun : run es (NewGroupCommitter w n) = Some s)
    (Hphase : phase_of s = Running) (Hb : batch s <> []) :
  exists s' err, step ETimer s = Some s' /\ batch s' = [] /\
    replies s' = replies s ++ map (fun r => (r, err)) (batch s).
Proof.
  assert (gc_inv es s) as Hinv by (eapply (gc_run_inv [] _ es), Hrun; apply new_inv).
  cbn [step]. rewrite Hphase, (inv_timer _ _ Hinv Hphase Hb).
  destruct (flush_spec (set_queues (pending s) (batch s) false s)) as (cs & err & E & _).
  eexists _, err. split; [reflexivity|]. rewrite E. done.
Qed.

(** [Submit] can hang: a request sent after [run] has drained the channel and
    returned is never answered, whatever happens later.  The select of [Submit] may
    take the send case although [stopCh] is closed. *)
Theorem Submit_hangs_after_stop w n :
  exists es s r, run es (NewGroupCommitter w n) = Some s /\ r ∈ pending s /\
    forall es' s', run es' s = Some s' -> r ∈ pending s' /\ replies s' = [].
Proof.
  pose (r := (0%nat, []) : commitRequest).
  exists [EClose; EStop; EReturn; ESend r],
    (mkGC w [r] [] false true Stopped n [] [] []), r.
  split; [done|]. split; [by apply list_elem_of_singleton|].
  assert (forall es' s s', phase_of s = Stopped -> r ∈ pending s -> replies s = [] ->
    run es' s = Some s' -> r ∈ pending s' /\ replies s' = []) as H.
  2:{ intros es' s'. by apply H; [|apply list_elem_of_singleton|]. }
  induction es' as [|e es' IH]; intros s s' Hp Hr He; cbn [run]; [by intros [= <-]|].
  destruct (step e s) as [s1|] eqn:E; [|done]. apply IH;
    destruct e; cbn [step] in E; rewrite ?Hp in E; repeat case_match; simplify_eq; try done.
  cbn. apply elem_of_app. by left.
Qed.

(** ** Witnesses *)

Definition sample_request : commitRequest := (7%nat, str "batch").

Definition sample_run : list event := [ESend sample_request; ERecv; ETimer].

(** The state after [sample_run], and after its first two events. *)
Definition sample_final : GroupCommitter :=
  default (NewGroupCommitter (NewWriter empty_file) 64)
    (run sample_run (NewGroupCommitter (NewWriter empty_file) 64)).

Lemma run_default es s0 s :
  s = default s0 (run es s0) -> match run es s0 with Some _ => true | None => false end = true ->
  run es s0 = Some s.
Proof. intros ->. by destruct (run es s0). Qed.

Lemma sample_final_run : run sample_run (NewGroupCommitter (NewWriter empty_file) 64) = Some sample_final.
Proof. apply run_default; [reflexivity|]. vm_compute. reflexivity. Qed.

Lemma sample_final_acked : (sample_request, Ok tt) ∈ replies sample_final.
Proof. vm_compute. left. Qed.

Lemma commit_fifo_exactly_once_witness :
  map fst (replies sample_final) ++ batch sample_final ++ pending sample_final = [sample_request].
Proof.
  exact (commit_fifo_exactly_once (NewWriter empty_file) 64 sample_run sample_final
    sample_final_run).
Defined.

Lemma commit_ack_synced_witness : committed (calls sample_final) (str "batch").
Proof.
  exact (commit_ack_synced (NewWriter empty_file) 64 sample_run sample_final sample_request
    sample_final_run sample_final_acked).
Defined.

Lemma commit_ack_survives_crash_witness :
  str "batch" ∈ (ReadAll (take 12 (fdata (file (writer sample_final))))).1.
Proof.
  apply (commit_ack_survives_crash 64 sample_run sample_final sample_request).
  - exact sample_final_run.
  - exact sample_final_acked.
  - vm_compute. discriminate.
  - vm_compute. discriminate.
Defined.

Definition sample_waiting : GroupCommitter :=
  mkGC (NewWriter empty_file) [] [sample_request] true false Running 64 [] [] [].

Lemma commit_timer_answers_witness :
  exists s' err, step ETimer sample_waiting = Some s' /\ batch s' = [] /\
    replies s' = [(sample_request, err)].
Proof.
  apply (commit_timer_answers (NewWriter empty_file) 64 [ESend sample_request; ERecv] sample_waiting);
    [reflexivity|reflexivity|discriminate].
Defined.
