(* ===== verification/SkipList.v ===== *)
(** * Skip list (internal/memtable/skiplist.go, iterator.go)

    Nodes live in a heap of locations, [nil] is [None], and a nil dereference or an
    index out of range is a [Panic].  Location 0 is the head.  The random source is
    the sequence of its draws: [coin n] says whether draw [n] is below
    [Probability]; nothing is assumed of it.  The list refines a sorted association
    list. *)

From S2P Require Import Prelude Order Keys.
Import mvcc.

Module skiplist.

Definition MaxLevel : nat := 16.

Record node := mkNode {
  key : bytes;
  value : option bytes;
  forward : list (option nat);
}.

Abbreviation heap := (gmap nat node).

Record SkipList := mkSL {
  nodes : heap;
  next_loc : nat;
  level : nat;
  size : Z;
  memSize : Z;
  draws : nat;
}.

Definition head : nat := 0.

Definition NewSkipList : SkipList :=
  mkSL {[ head := mkNode [] None (replicate MaxLevel None) ]} 1 0 0 0 0.

Definition deref (h : heap) (l : nat) : outcome Empty_set node :=
  match h !! l with Some n => Ok n | None => Panic end.

Definition get_forward (h : heap) (l i : nat) : outcome Empty_set (option nat) :=
  n ← deref h l;
  match forward n !! i with Some p => Ok p | None => Panic end.

Definition set_forward (h : heap) (l i : nat) (p : option nat) : outcome Empty_set heap :=
  n ← deref h l;
  match forward n !! i with
  | Some _ => Ok (<[l := mkNode (key n) (value n) (<[i := p]> (forward n))]> h)
  | None => Panic
  end.

(** The inner search loop at level [i]; a step passes a node, so the number of
    locations is enough fuel. *)
Fixpoint advance (fuel : nat) (h : heap) (i : nat) (k : bytes) (current : nat)
    : outcome Empty_set nat :=
  match fuel with
  | O => Fuel
  | S fuel =>
      p ← get_forward h current i;
      match p with
      | None => Ok current
      | Some q =>
          n ← deref h q;
          match CompareKeys (key n) k with
          | Lt => advance fuel h i k q
          | _ => Ok current
          end
      end
  end.

(** [for i := level - 1; i >= 0; i--], recording the predecessors in [update]. *)
Fixpoint descend (fuel : nat) (h : heap) (k : bytes) (i : nat) (update : list (option nat))
    (current : nat) : outcome Empty_set (nat * list (option nat)) :=
  match i with
  | O => Ok (current, update)
  | S i =>
      current ← advance fuel h i k current;
      descend fuel h k i (<[i := Some current]> update) current
  end.

Section rng.
Context (coin : nat -> bool).

(** At most [MaxLevel] draws. *)
Fixpoint random_level (fuel level draws : nat) : nat * nat :=
  match fuel with
  | O => (level, draws)
  | S fuel =>
      if coin draws && bool_decide (level < MaxLevel)%nat
      then random_level fuel (S level) (S draws)
      else (level, S draws)
  end.

Definition randomLevel (draws : nat) : nat * nat := random_level MaxLevel 1 draws.

(** [for i := 0; i < level; i++] of [Put]: splice the new node into each level. *)
Fixpoint link (fuel i : nat) (update : list (option nat)) (new : nat) (h : heap)
    : outcome Empty_set heap :=
  match fuel with
  | O => Ok h
  | S fuel =>
      match update !! i with
      | Some (Some u) =>
          p ← get_forward h u i;
          h ← set_forward h new i p;
          h ← set_forward h u i (Some new);
          link fuel (S i) update new h
      | _ => Panic
      end
  end.

(** The rest of [Put] when the key is not in the list. *)
Definition put_new (sl : SkipList) (k : bytes) (v : option bytes) (update : list (option nat))
    : outcome Empty_set SkipList :=
  let '(lvl, draws) := randomLevel (draws sl) in
  let update :=
    if bool_decide (level sl < lvl)%nat then
      imap (fun i u => if bool_decide (level sl <= i < lvl)%nat then Some head else u) update
    else update in
  let new := next_loc sl in
  let h := <[new := mkNode k v (replicate lvl None)]> (nodes sl) in
  h ← link lvl 0 update new h;
  Ok (mkSL h (S new) (level sl `max` lvl) (i64 (size sl + 1))
    (i64 (memSize sl + (32 + len k + len (default [] v) + 8 * Z.of_nat lvl))) draws).

Definition Put (sl : SkipList) (k : bytes) (v : option bytes) : outcome Empty_set SkipList :=
  x ← descend (next_loc sl) (nodes sl) k (level sl) (replicate MaxLevel None) head;
  let '(current, update) := x in
  current ← get_forward (nodes sl) current 0;
  existing ← match current with
             | None => Ok None
             | Some q =>
                 n ← deref (nodes sl) q;
                 Ok (if bytes_equal (key n) k then Some (q, n) else None)
             end;
  match existing with
  | Some (q, n) =>
      Ok (mkSL (<[q := mkNode (key n) v (forward n)]> (nodes sl)) (next_loc sl) (level sl) (size sl)
        (i64 (memSize sl + (len (default [] v) - len (default [] (value n))))) (draws sl))
  | None => put_new sl k v update
  end.

Definition Delete (sl : SkipList) (k : bytes) : outcome Empty_set SkipList := Put sl k None.

End rng.

(** The search of [Get] and [Seek]: the first node not below [k]. *)
Definition seek (sl : SkipList) (k : bytes) : outcome Empty_set (option nat) :=
  x ← descend (next_loc sl) (nodes sl) k (level sl) (replicate MaxLevel None) head;
  get_forward (nodes sl) x.1 0.

(** [(value, found)]. *)
Definition Get (sl : SkipList) (k : bytes) : outcome Empty_set (option bytes * bool) :=
  current ← seek sl k;
  match current with
  | None => Ok (None, false)
  | Some q =>
      n ← deref (nodes sl) q;
      Ok (if bytes_equal (key n) k then (value n, true) else (None, false))
  end.

Definition Contains (sl : SkipList) (k : bytes) : outcome Empty_set bool :=
  r ← Get sl k; Ok r.2.

Definition Len (sl : SkipList) : Z := size sl.
Definition MemoryUsage (sl : SkipList) : Z := memSize sl.

(** ** Iterator: the location of its node *)

(** A new iterator is at no node. *)
Definition NewIterator (sl : SkipList) : option nat := None.

Definition Valid (it : option nat) : bool := match it with Some _ => true | None => false end.

Definition Next (sl : SkipList) (it : option nat) : outcome Empty_set (option nat) :=
  match it with
  | None => Ok None
  | Some l => get_forward (nodes sl) l 0
  end.

Definition SeekToFirst (sl : SkipList) : outcome Empty_set (option nat) :=
  get_forward (nodes sl) head 0.

Definition Seek (sl : SkipList) (target : bytes) : outcome Empty_set (option nat) :=
  seek sl target.

(** [Key] and [Value]. *)
Definition Entry (sl : SkipList) (it : option nat) : outcome Empty_set (bytes * option bytes) :=
  match it with
  | None => Panic
  | Some l => n ← deref (nodes sl) l; Ok (key n, value n)
  end.

End skiplist.
Import skiplist.

(** ** Views of the heap *)

Definition key_at (h : heap) (l : nat) : bytes := match h !! l with Some n => key n | None => [] end.
Definition value_at (h : heap) (l : nat) : option bytes :=
  match h !! l with Some n => value n | None => None end.
Definition height_at (h : heap) (l : nat) : nat :=
  match h !! l with Some n => length (forward n) | None => 0 end.
Definition fwd (h : heap) (l i : nat) : option (option nat) :=
  match h !! l with Some n => forward n !! i | None => None end.

Definition tall (h : heap) (i l : nat) : bool := bool_decide (i < height_at h l)%nat.

Lemma get_forward_fwd h l i p : fwd h l i = Some p -> get_forward h l i = Ok p.
Proof. unfold fwd, get_forward, deref. destruct (h !! l); [|done]. cbn. by intros ->. Qed.

Lemma fwd_deref h l i p : fwd h l i = Some p -> exists n, deref h l = Ok n /\ key_at h l = key n.
Proof. unfold fwd, deref, key_at. destruct (h !! l) as [n|]; [|done]. by exists n. Qed.

Lemma fwd_tall h l i : is_Some (fwd h l i) <-> tall h i l = true.
Proof.
  unfold fwd, tall, height_at. rewrite bool_decide_eq_true. destruct (h !! l); cbn.
  - by rewrite lookup_lt_is_Some.
  - split; [by intros [? ?]|lia].
Qed.

(** Level [i] from [a] on is the chain [L]. *)
Fixpoint linked (h : heap) (i a : nat) (L : list nat) : Prop :=
  match L with
  | [] => fwd h a i = Some None
  | b :: L => fwd h a i = Some (Some b) /\ linked h i b L
  end.

Lemma last_cons (A : list nat) a b : List.last (b :: A) a = List.last A b.
Proof. revert b. induction A as [|x A IH]; intros b; [done|]. cbn in *. by destruct A. Qed.

Lemma last_elem (A : list nat) a : List.last A a ∈ a :: A.
Proof.
  revert a. induction A as [|b A IH]; intros a; [left|]. rewrite last_cons. right. apply IH.
Qed.

Lemma linked_app h i a A B : linked h i a (A ++ B) -> linked h i (List.last A a) B.
Proof.
  revert a. induction A as [|b A IH]; intros a; [done|]. cbn [app linked]. intros [_ H].
  rewrite last_cons. by apply IH.
Qed.

Lemma linked_fwd h i a L : linked h i a L -> fwd h a i = Some (list.head L).
Proof. destruct L; cbn; [done|]. by intros [? _]. Qed.

Lemma linked_ext h h' i a L :
  (forall l, l ∈ a :: L -> fwd h' l i = fwd h l i) -> linked h i a L -> linked h' i a L.
Proof.
  revert a. induction L as [|b L IH]; intros a He; cbn; [by rewrite He by left|].
  intros [H1 H2]. split; [by rewrite He by left|]. apply IH; [|done]. intros l Hl. apply He. by right.
Qed.

(** A chain with [z] spliced in after [A]. *)
Lemma linked_insert h h' i a A B z :
  linked h i a (A ++ B) -> NoDup (a :: A ++ B) ->
  fwd h' (List.last A a) i = Some (Some z) -> fwd h' z i = Some (list.head B) ->
  (forall l, l ∈ a :: A ++ B -> l <> List.last A a -> fwd h' l i = fwd h l i) ->
  linked h' i a (A ++ z :: B).
Proof.
  revert a. induction A as [|b A IH]; intros a; cbn [app linked]; intros Hl Hnd Hp Hz Hsame.
  - split; [done|]. destruct B as [|b B]; [done|]. cbn in Hl |- *. split; [done|].
    apply (linked_ext h); [|apply Hl]. intros l Hin. apply Hsame; [by right|].
    apply NoDup_cons in Hnd as [Hni _]. set_solver.
  - destruct Hl as [H1 H2]. pose proof Hnd as [Hni Hnd']%NoDup_cons.
    rewrite last_cons in *. split.
    + rewrite Hsame; [done|left|]. intros ->. pose proof (last_elem A b). set_solver.
    + apply IH; try done. intros l Hin. apply Hsame. by right.
Qed.

Lemma advance_ok h i k A B fuel c :
  linked h i c (A ++ B) -> Forall (fun a => klt CompareKeys (key_at h a) k) A ->
  (forall b, list.head B = Some b -> ~ klt CompareKeys (key_at h b) k) ->
  (length A < fuel)%nat -> advance fuel h i k c = Ok (List.last A c).
Proof.
  revert fuel c. induction A as [|a A IH]; intros [|fuel] c Hl HA HB Hf; cbn in Hf; try lia;
    cbn [advance app] in *.
  - rewrite (get_forward_fwd _ _ _ _ (linked_fwd _ _ _ _ Hl)). cbn [mbind outcome_bind].
    destruct B as [|b B]; [done|]. cbn [list.head].
    destruct Hl as [_ Hb%linked_fwd]. destruct (fwd_deref _ _ _ _ Hb) as (n & Hd & Hk).
    rewrite Hd. cbn. specialize (HB b eq_refl). rewrite Hk in HB. unfold klt in HB.
    by destruct (CompareKeys (key n) k).
  - rewrite last_cons. destruct Hl as [H1 H2]. rewrite (get_forward_fwd _ _ _ _ H1). cbn [mbind outcome_bind].
    destruct (fwd_deref _ _ _ _ (linked_fwd _ _ _ _ H2)) as (n & Hd & Hk). rewrite Hd.
    apply Forall_cons in HA as [Ha HA]. rewrite Hk in Ha. unfold klt in Ha. cbn. rewrite Ha.
    by apply IH; [..|lia].
Qed.

(** ** The invariant

    [ls] are the nodes of the bottom level in order; level [i] links those of them
    that are taller than [i]. *)

Definition node_cost (h : heap) (l : nat) : Z :=
  32 + len (key_at h l) + len (default [] (value_at h l)) + 8 * Z.of_nat (height_at h l).

Definition total_cost (h : heap) (ls : list nat) : Z := foldr (fun l z => node_cost h l + z)%Z 0%Z ls.

Definition at_level (h : heap) (i : nat) (ls : list nat) : list nat := List.filter (tall h i) ls.

Record sl_inv (sl : SkipList) (ls : list nat) : Prop := {
  inv_nodes : forall l, l ∈ ls -> (1 <= height_at (nodes sl) l <= level sl)%nat;
  inv_head : height_at (nodes sl) head = MaxLevel;
  inv_head_out : head ∉ ls;
  inv_fresh : forall l, (next_loc sl <= l)%nat -> nodes sl !! l = None;
  inv_old : forall l, l ∈ ls -> (l < next_loc sl)%nat;
  inv_count : next_loc sl = S (length ls);
  inv_level : (level sl <= MaxLevel)%nat;
  inv_sorted : StronglySorted (fun a b => klt CompareKeys (key_at (nodes sl) a) (key_at (nodes sl) b)) ls;
  inv_links : forall i, (i < MaxLevel)%nat -> linked (nodes sl) i head (at_level (nodes sl) i ls);
  inv_size : size sl = i64 (len ls);
  inv_mem : memSize sl = i64 (total_cost (nodes sl) ls);
}.

(** The association list the skip list stands for. *)
Definition entries (sl : SkipList) (ls : list nat) : list (bytes * option bytes) :=
  map (fun l => (key_at (nodes sl) l, value_at (nodes sl) l)) ls.

(** The nodes below [k], and the rest. *)
Definition splits (h : heap) (k : bytes) (ls lo hi : list nat) : Prop :=
  ls = lo ++ hi /\ Forall (fun l => klt CompareKeys (key_at h l) k) lo /\
  Forall (fun l => ~ klt CompareKeys (key_at h l) k) hi.

Lemma splits_exist h k ls :
  StronglySorted (fun a b => klt CompareKeys (key_at h a) (key_at h b)) ls ->
  exists lo hi, splits h k ls lo hi.
Proof.
  induction 1 as [|a ls Hs IH Hall]; [by exists [], []|].
  destruct (decide (klt CompareKeys (key_at h a) k)) as [Hlt|Hge].
  - destruct IH as (lo & hi & -> & Hlo & Hhi). exists (a :: lo), hi. split_and!; [done| |done].
    by constructor.
  - exists [], (a :: ls). split_and!; [done..|]. constructor; [done|].
    eapply Forall_impl; [exact Hall|]. cbn. intros b Hb Hbk. apply Hge. exact (ko_trans CompareKeys _ _ _ Hb Hbk).
Qed.

(** The predecessor of [k] at level [i]. *)
Definition pred (h : heap) (lo : list nat) (i : nat) : nat := List.last (at_level h i lo) head.

Lemma at_level_app h i A B : at_level h i (A ++ B) = at_level h i A ++ at_level h i B.
Proof. apply List.filter_app. Qed.

Lemma at_level_elem h i l ls : l ∈ at_level h i ls <-> l ∈ ls /\ tall h i l = true.
Proof. unfold at_level. rewrite !list_elem_of_In. apply filter_In. Qed.

Lemma tall_mono h i j l : (i <= j)%nat -> tall h j l = true -> tall h i l = true.
Proof. unfold tall. rewrite !bool_decide_eq_true. lia. Qed.

(** The predecessor of a level is on the levels below it. *)
Lemma pred_below h lo i j :
  (i <= j)%nat -> pred h lo j ∈ head :: at_level h i lo.
Proof.
  intros Hij. unfold pred. pose proof (last_elem (at_level h j lo) head) as [->|H]%elem_of_cons; [left|right].
  apply at_level_elem in H as [Hin Ht]. apply at_level_elem. split; [done|]. by eapply tall_mono.
Qed.

Lemma advance_to_pred h i k ls lo hi fuel c :
  splits h k ls lo hi -> linked h i head (at_level h i ls) ->
  c ∈ head :: at_level h i lo -> (length lo < fuel)%nat ->
  advance fuel h i k c = Ok (pred h lo i).
Proof.
  intros (-> & Hlo & Hhi) Hl Hc Hf. rewrite at_level_app in Hl.
  assert (exists A1 A2, at_level h i lo = A1 ++ A2 /\ c = List.last A1 head) as (A1 & A2 & EA & ->).
  { apply elem_of_cons in Hc as [->|Hc]; [by exists [], (at_level h i lo)|].
    apply list_elem_of_split in Hc as (A1 & A2 & ->). exists (A1 ++ [c]), A2.
    by rewrite <- (assoc_L (++)), last_last. }
  unfold pred. rewrite EA, <- (assoc_L (++)) in *. apply linked_app in Hl.
  assert (forall a b : nat, List.last (A1 ++ A2) a = List.last A2 (List.last A1 a)) as Elast.
  { intros a _. clear. revert a. induction A1 as [|x A1 IH]; intros a; [done|].
    rewrite <- app_comm_cons, !last_cons. apply IH. }
  rewrite (Elast _ 0%nat). apply (advance_ok _ _ _ A2 (at_level h i hi)); [done|..].
  - apply Forall_forall. intros a Ha. rewrite Forall_forall in Hlo. apply Hlo.
    assert (a ∈ at_level h i lo) as [? _]%at_level_elem by (rewrite EA; set_solver). done.
  - intros b Hb. rewrite Forall_forall in Hhi. apply Hhi.
    assert (b ∈ at_level h i hi) as [? _]%at_level_elem; [|done].
    destruct (at_level h i hi); [done|]. injection Hb as ->. left.
  - assert (length (at_level h i lo) <= length lo)%nat by apply filter_length_le.
    rewrite EA, length_app in *. lia.
Qed.

Lemma descend_ok h k ls lo hi fuel i update c :
  splits h k ls lo hi -> (forall j, (j < MaxLevel)%nat -> linked h j head (at_level h j ls)) ->
  (i <= MaxLevel)%nat -> length update = MaxLevel -> (length lo < fuel)%nat ->
  (forall j, (j < i)%nat -> c ∈ head :: at_level h j lo) ->
  exists update', descend fuel h k i update c = Ok (if decide (i = 0)%nat then c else pred h lo 0, update') /\
    length update' = MaxLevel /\
    (forall j, (j < i)%nat -> update' !! j = Some (Some (pred h lo j))) /\
    (forall j, (i <= j)%nat -> update' !! j = update !! j).
Proof.
  intros Hsp Hl. revert update c. induction i as [|i IH]; intros update c Hi Hu Hf Hc.
  { exists update. split_and!; [done..|lia|done]. }
  cbn [descend]. rewrite (advance_to_pred h i k ls lo hi) by (auto with lia).
  cbn [mbind outcome_bind].
  destruct (IH (<[i := Some (pred h lo i)]> update) (pred h lo i)) as (u' & E & Hlen & Hset & Hrest);
    [lia|by rewrite length_insert|done| |].
  { intros j Hj. apply pred_below. lia. }
  exists u'. rewrite E. split_and!.
  - destruct (decide (S i = 0)%nat); [lia|]. by destruct (decide (i = 0)%nat) as [->|].
  - done.
  - intros j Hj. destruct (decide (j = i)) as [->|]; [|apply Hset; lia].
    rewrite Hrest by done. apply list_lookup_insert_eq. lia.
  - intros j Hj. rewrite Hrest by lia. apply list_lookup_insert_ne. lia.
Qed.

(** ** Searching *)

Lemma filter_all {A} (f : A -> bool) (l : list A) :
  (forall x, x ∈ l -> f x = true) -> List.filter f l = l.
Proof.
  induction l as [|a l IH]; intros H; [done|]. cbn. rewrite H by left. f_equal.
  apply IH. set_solver.
Qed.

Lemma filter_none {A} (f : A -> bool) (l : list A) :
  (forall x, x ∈ l -> f x = false) -> List.filter f l = [].
Proof.
  induction l as [|a l IH]; intros H; [done|]. cbn. rewrite H by left. apply IH. set_solver.
Qed.

Lemma at_level_zero sl ls : sl_inv sl ls -> at_level (nodes sl) 0 ls = ls.
Proof.
  intros Hinv. apply filter_all. intros l Hl. apply bool_decide_eq_true.
  pose proof (inv_nodes _ _ Hinv l Hl). lia.
Qed.

(** No node is on a level above [level]. *)
Lemma at_level_high sl ls i : sl_inv sl ls -> (level sl <= i)%nat -> at_level (nodes sl) i ls = [].
Proof.
  intros Hinv Hi. apply filter_none. intros l Hl. apply bool_decide_eq_false.
  pose proof (inv_nodes _ _ Hinv l Hl). lia.
Qed.

Lemma pred_zero sl ls lo hi k :
  sl_inv sl ls -> splits (nodes sl) k ls lo hi -> pred (nodes sl) lo 0 = List.last lo head.
Proof.
  intros Hinv (-> & _). unfold pred. f_equal.
  pose proof (at_level_zero _ _ Hinv) as E. rewrite at_level_app in E.
  apply app_inj_1 in E as [? _]; [done|]. apply (f_equal length) in E. rewrite !length_app in E.
  pose proof (filter_length_le (tall (nodes sl) 0) lo).
  pose proof (filter_length_le (tall (nodes sl) 0) hi). unfold at_level in *. lia.
Qed.

(** The descent of [Put], [Get] and [Seek]. *)
Lemma search_ok sl ls lo hi k :
  sl_inv sl ls -> splits (nodes sl) k ls lo hi ->
  exists update,
    descend (next_loc sl) (nodes sl) k (level sl) (replicate MaxLevel None) head =
      Ok (List.last lo head, update) /\
    length update = MaxLevel /\
    (forall j, (j < level sl)%nat -> update !! j = Some (Some (pred (nodes sl) lo j))) /\
    get_forward (nodes sl) (List.last lo head) 0 = Ok (list.head hi).
Proof.
  intros Hinv Hsp. pose proof (inv_count _ _ Hinv) as Hn.
  destruct (descend_ok (nodes sl) k ls lo hi (next_loc sl) (level sl) (replicate MaxLevel None) head)
    as (u & E & Hlen & Hset & _);
    [done|apply Hinv|apply Hinv|apply length_replicate| |intros; left|].
  { destruct Hsp as (-> & _). rewrite length_app in Hn. lia. }
  exists u. split_and!; [|done..|].
  - rewrite E. do 2 f_equal. rewrite <- (pred_zero _ _ _ _ _ Hinv Hsp).
    destruct (decide (level sl = 0)%nat) as [E0|]; [|done].
    destruct Hsp as (-> & _). pose proof (at_level_high _ _ 0 Hinv ltac:(lia)) as Hnil.
    rewrite at_level_app in Hnil. apply app_nil in Hnil as [Hnil _]. unfold pred. by rewrite Hnil.
  - apply get_forward_fwd. pose proof (inv_links _ _ Hinv 0 ltac:(unfold MaxLevel; lia)) as Hl.
    rewrite (at_level_zero _ _ Hinv) in Hl. destruct Hsp as (-> & _).
    by apply linked_app, linked_fwd in Hl.
Qed.

Lemma elem_deref sl ls l :
  sl_inv sl ls -> l ∈ ls -> exists n, nodes sl !! l = Some n.
Proof.
  intros Hinv Hl. pose proof (inv_nodes _ _ Hinv l Hl) as H. unfold height_at in H.
  destruct (nodes sl !! l) as [n|]; [by exists n|lia].
Qed.

(** The entry of [k] in a split list is its first node not below [k], if it is [k]'s. *)
Lemma assoc_split sl ls lo hi k :
  splits (nodes sl) k ls lo hi ->
  StronglySorted (fun a b => klt CompareKeys (key_at (nodes sl) a) (key_at (nodes sl) b)) ls ->
  assoc CompareKeys k (entries sl ls) =
  match hi with
  | q :: _ => if bytes_equal (key_at (nodes sl) q) k then Some (value_at (nodes sl) q) else None
  | [] => None
  end.
Proof.
  intros (-> & Hlo & Hhi) Hs. unfold entries. rewrite map_app, assoc_app.
  rewrite assoc_none.
  2:{ rewrite <- list_fmap_compose, Forall_fmap. eapply Forall_impl; [exact Hlo|].
      intros l Hl. by apply klt_ne in Hl. }
  destruct hi as [|q hi]; [done|]. cbn [map assoc]. unfold bytes_equal.
  assert (StronglySorted (fun a b => klt CompareKeys (key_at (nodes sl) a) (key_at (nodes sl) b)) (q :: hi)) as Hsq.
  { clear -Hs. induction lo; [done|]. cbn in Hs. apply StronglySorted_inv in Hs as [? _]. auto. }
  apply StronglySorted_inv in Hsq as [_ Hall].
  destruct (CompareKeys (key_at (nodes sl) q) k) eqn:E.
  - apply (ko_eq CompareKeys) in E. by rewrite bool_decide_true.
  - apply Forall_cons in Hhi as [Hq _]. done.
  - rewrite bool_decide_false by (intros Hk; by rewrite Hk, ko_refl in E). apply assoc_none.
    rewrite <- list_fmap_compose, Forall_fmap. eapply Forall_impl; [exact Hall|].
    cbn. intros l Hl <-. apply ko_gt in E. by apply (klt_asym _ _ Hl).
Qed.

Lemma Get_ok sl ls k :
  sl_inv sl ls ->
  Get sl k = Ok (match assoc CompareKeys k (entries sl ls) with
                 | Some v => (v, true)
                 | None => (None, false)
                 end).
Proof.
  intros Hinv. destruct (splits_exist (nodes sl) k ls (inv_sorted _ _ Hinv)) as (lo & hi & Hsp).
  rewrite (assoc_split sl ls lo hi k Hsp (inv_sorted _ _ Hinv)).
  destruct (search_ok sl ls lo hi k Hinv Hsp) as (u & E & _ & _ & Hf).
  unfold Get, seek. rewrite E. cbn [mbind outcome_bind fst]. rewrite Hf.
  destruct hi as [|q hi]; [done|]. cbn. destruct Hsp as (-> & _).
  destruct (elem_deref sl _ q Hinv) as [n Hn]; [set_solver|].
  unfold deref, key_at, value_at. rewrite Hn. cbn. by destruct (bytes_equal (key n) k).
Qed.

(** ** Splicing a node in *)

(** All of a node but its links. *)
Definition shape (h : heap) (l : nat) : option (bytes * option bytes * nat) :=
  (fun n => (key n, value n, length (forward n))) <$> h !! l.

Lemma shape_views h h' l :
  shape h' l = shape h l ->
  key_at h' l = key_at h l /\ value_at h' l = value_at h l /\ height_at h' l = height_at h l.
Proof.
  unfold shape, key_at, value_at, height_at.
  destruct (h' !! l), (h !! l); cbn; intros [=]; auto.
Qed.

Lemma set_forward_ok h l i p :
  (i < height_at h l)%nat -> exists h', set_forward h l i p = Ok h' /\
    (forall l', shape h' l' = shape h l') /\
    (forall l' j, fwd h' l' j = if decide (l' = l /\ j = i) then Some p else fwd h l' j).
Proof.
  intros Hi. unfold height_at in Hi. unfold set_forward, deref.
  destruct (h !! l) as [n|] eqn:En; [|lia]. cbn [mbind outcome_bind].
  destruct (lookup_lt_is_Some_2 _ _ Hi) as [x ->]. eexists. split; [done|]. split.
  - intros l'. unfold shape. destruct (decide (l' = l)) as [->|].
    + rewrite lookup_insert_eq, En. cbn. by rewrite length_insert.
    + by rewrite lookup_insert_ne.
  - intros l' j. unfold fwd. destruct (decide (l' = l)) as [->|].
    + rewrite lookup_insert_eq, En. cbn. destruct (decide (l = l /\ j = i)) as [[_ ->]|Hne].
      * by apply list_lookup_insert_eq.
      * apply list_lookup_insert_ne. naive_solver.
    + rewrite lookup_insert_ne by done. by destruct (decide (l' = l /\ j = i)) as [[? _]|].
Qed.

Lemma link_ok fuel i update z (P : nat -> nat) h :
  (forall j, (i <= j < i + fuel)%nat -> update !! j = Some (Some (P j)) /\ P j <> z /\
     (j < height_at h (P j))%nat /\ (j < height_at h z)%nat) ->
  exists h', link fuel i update z h = Ok h' /\ (forall l, shape h' l = shape h l) /\
    (forall l j, fwd h' l j =
       if decide (i <= j < i + fuel)%nat then
         if decide (l = z) then fwd h (P j) j
         else if decide (l = P j) then Some (Some z) else fwd h l j
       else fwd h l j).
Proof.
  revert i h. induction fuel as [|fuel IH]; intros i h HP.
  { exists h. split; [done|]. split; [done|]. intros l j. by rewrite decide_False by lia. }
  destruct (HP i) as (Hu & Hne & Hp & Hz); [lia|]. cbn [link]. rewrite Hu.
  destruct (fwd h (P i) i) as [p|] eqn:Ep.
  2:{ apply eq_None_not_Some in Ep as []. apply fwd_tall. by apply bool_decide_eq_true. }
  rewrite (get_forward_fwd _ _ _ _ Ep). cbn [mbind outcome_bind].
  destruct (set_forward_ok h z i p Hz) as (h1 & -> & Hs1 & Hf1).
  destruct (shape_views _ _ _ (Hs1 (P i))) as (_ & _ & Hh1). cbn [mbind outcome_bind].
  destruct (set_forward_ok h1 (P i) i (Some z)) as (h2 & -> & Hs2 & Hf2); [lia|].
  cbn [mbind outcome_bind]. destruct (IH (S i) h2) as (h3 & E3 & Hs3 & Hf3).
  { intros j Hj. destruct (HP j) as (? & ? & ? & ?); [lia|].
    destruct (shape_views h h2 (P j)) as (_ & _ & ->); [by rewrite Hs2|].
    destruct (shape_views h h2 z) as (_ & _ & ->); [by rewrite Hs2|]. done. }
  exists h3. split; [done|]. split; [intros l; by rewrite Hs3, Hs2|].
  intros l j. rewrite Hf3, !Hf2, !Hf1.
  destruct (decide (j = i)) as [->|Hji].
  - rewrite (decide_False (P := (S i <= i < S i + fuel)%nat)) by lia.
    rewrite (decide_True (P := (i <= i < i + S fuel)%nat)) by lia.
    repeat case_decide; naive_solver.
  - rewrite !(decide_False (P := (_ /\ j = i))) by naive_solver.
    repeat case_decide; try done; lia.
Qed.

(** ** Insertion and update refine the sorted association list *)

Lemma i64_add a b : i64 (i64 a + b) = i64 (a + b).
Proof.
  unfold i64. f_equal.
  replace ((a + 2 ^ 63) mod 2 ^ 64 - 2 ^ 63 + b + 2 ^ 63)%Z with ((a + 2 ^ 63) mod 2 ^ 64 + b)%Z by lia.
  rewrite Zplus_mod_idemp_l. f_equal. lia.
Qed.

Lemma random_level_range coin fuel l d :
  (1 <= l <= MaxLevel)%nat -> (1 <= (random_level coin fuel l d).1 <= MaxLevel)%nat.
Proof.
  revert l d. induction fuel as [|fuel IH]; intros l d Hl; cbn [random_level]; [done|].
  destruct (coin d); cbn [andb]; [|done]. case_bool_decide; [|done]. apply IH. lia.
Qed.

Lemma sorted_entries sl ls :
  StronglySorted (fun a b => klt CompareKeys (key_at (nodes sl) a) (key_at (nodes sl) b)) ls <->
  ksorted CompareKeys (entries sl ls).
Proof.
  unfold ksorted, entries. rewrite <- list_fmap_compose. split.
  - induction 1 as [|a ls Hs IH Ha]; cbn; constructor; [done|]. by rewrite Forall_fmap.
  - induction ls as [|a ls IH]; cbn; [constructor|]. intros [Hs Ha]%StronglySorted_inv.
    constructor; [auto|]. by rewrite Forall_fmap in Ha.
Qed.

Lemma sorted_NoDup sl ls : sl_inv sl ls -> NoDup (head :: ls).
Proof.
  intros Hinv. constructor; [apply Hinv|]. pose proof (inv_sorted _ _ Hinv) as Hs. clear Hinv.
  induction Hs as [|a ls Hs IH Ha]; constructor; [|done]. intros Hin.
  rewrite Forall_forall in Ha. by apply Ha, klt_irrefl in Hin.
Qed.

Lemma total_cost_app h A B : total_cost h (A ++ B) = (total_cost h A + total_cost h B)%Z.
Proof. unfold total_cost. induction A as [|a A IH]; cbn; [done|]. rewrite IH. lia. Qed.

(** The views of two heaps agree on [ls]. *)
Definition agree (h h' : heap) (ls : list nat) : Prop :=
  forall l, l ∈ ls -> key_at h' l = key_at h l /\ value_at h' l = value_at h l /\
    height_at h' l = height_at h l.

Lemma agree_cost h h' ls : agree h h' ls -> total_cost h' ls = total_cost h ls.
Proof.
  unfold total_cost. induction ls as [|a ls IH]; intros H; [done|]. cbn.
  rewrite IH by (intros l Hl; apply H; by right).
  destruct (H a) as (Hk & Hv & Hh); [left|]. unfold node_cost. by rewrite Hk, Hv, Hh.
Qed.

Lemma agree_entries sl sl' ls : agree (nodes sl) (nodes sl') ls -> entries sl' ls = entries sl ls.
Proof.
  intros H. apply map_ext_in. intros l Hl%list_elem_of_In. by destruct (H l Hl) as (-> & -> & _).
Qed.

Lemma agree_at_level h h' i ls : agree h h' ls -> at_level h' i ls = at_level h i ls.
Proof.
  intros H. apply filter_ext_in. intros l Hl%list_elem_of_In. unfold tall.
  by destruct (H l Hl) as (_ & _ & ->).
Qed.

(** What the insertion of [k] does to the association list of a split list. *)
Lemma sinsert_split sl ls lo hi k v :
  splits (nodes sl) k ls lo hi ->
  sinsert CompareKeys k v (entries sl ls) = entries sl lo ++
  match hi with
  | q :: hi' =>
      if bytes_equal (key_at (nodes sl) q) k then (k, v) :: entries sl hi'
      else (k, v) :: entries sl hi
  | [] => [(k, v)]
  end.
Proof.
  intros (-> & Hlo & Hhi). unfold entries. rewrite map_app, sinsert_app.
  2:{ rewrite <- list_fmap_compose, Forall_fmap. done. }
  f_equal. destruct hi as [|q hi]; [done|]. cbn [map sinsert]. unfold bytes_equal.
  destruct (CompareKeys (key_at (nodes sl) q) k) eqn:E.
  - apply (ko_eq CompareKeys) in E. by rewrite bool_decide_true.
  - apply Forall_cons in Hhi as [Hq _]. done.
  - by rewrite bool_decide_false by (intros Hk; by rewrite Hk, ko_refl in E).
Qed.

Lemma sorted_impl {A} (R R' : A -> A -> Prop) l :
  (forall a b, R a b -> R' a b) -> StronglySorted R l -> StronglySorted R' l.
Proof.
  intros H. induction 1 as [|a l Hs IH Ha]; constructor; [done|]. eapply Forall_impl; [exact Ha|].
  intros b. apply H.
Qed.

(** Replacing the value of a node. *)
Lemma update_inv sl lo q n hi v m :
  sl_inv sl (lo ++ q :: hi) -> nodes sl !! q = Some n ->
  m = i64 (memSize sl + (len (default [] v) - len (default [] (value n)))) ->
  let sl' := mkSL (<[q := mkNode (key n) v (forward n)]> (nodes sl)) (next_loc sl) (level sl)
    (size sl) m (draws sl) in
  sl_inv sl' (lo ++ q :: hi) /\ entries sl' (lo ++ q :: hi) = entries sl lo ++ (key n, v) :: entries sl hi.
Proof.
  intros Hinv Hn -> sl'. pose proof (sorted_NoDup _ _ Hinv) as [_ Hnd]%NoDup_cons.
  assert (forall l, l <> q -> nodes sl' !! l = nodes sl !! l) as Hne.
  { intros l Hl. cbn. by rewrite lookup_insert_ne. }
  assert (nodes sl' !! q = Some (mkNode (key n) v (forward n))) as Hq by apply lookup_insert_eq.
  assert (forall l, height_at (nodes sl') l = height_at (nodes sl) l) as Hh.
  { intros l. unfold height_at. destruct (decide (l = q)) as [->|]; [by rewrite Hq, Hn|by rewrite Hne]. }
  assert (forall l, key_at (nodes sl') l = key_at (nodes sl) l) as Hk.
  { intros l. unfold key_at. destruct (decide (l = q)) as [->|]; [by rewrite Hq, Hn|by rewrite Hne]. }
  assert (forall l i, fwd (nodes sl') l i = fwd (nodes sl) l i) as Hf.
  { intros l i. unfold fwd. destruct (decide (l = q)) as [->|]; [by rewrite Hq, Hn|by rewrite Hne]. }
  apply NoDup_app in Hnd as (_ & Hdisj & [Hqhi _]%NoDup_cons).
  assert (forall ls, q ∉ ls -> agree (nodes sl) (nodes sl') ls) as Hag.
  { intros ls Hls l Hl. split_and!; [done| |done]. unfold value_at. rewrite Hne; [done|set_solver]. }
  assert (agree (nodes sl) (nodes sl') lo) as Hlo by (apply Hag; set_solver).
  assert (agree (nodes sl) (nodes sl') hi) as Hhi by by apply Hag.
  split.
  - destruct Hinv as [I1 I2 I3 I4 I5 I6 I7 I8 I9 I10 I11]. split; try done.
    + intros l Hl. rewrite Hh. auto.
    + by rewrite Hh.
    + intros l Hl. rewrite Hne; [auto|]. intros ->. rewrite I4 in Hn; done.
    + eapply sorted_impl; [|exact I8]. intros a b. by rewrite !Hk.
    + intros i Hi. apply (linked_ext (nodes sl)); [done|].
      assert (at_level (nodes sl') i (lo ++ q :: hi) = at_level (nodes sl) i (lo ++ q :: hi)) as ->; [|auto].
      apply filter_ext. intros l. unfold tall. by rewrite Hh.
    + unfold sl' at 1. cbn [memSize]. rewrite I11, i64_add. f_equal. rewrite !total_cost_app.
      change (total_cost ?h (q :: hi)) with (node_cost h q + total_cost h hi)%Z.
      rewrite (agree_cost _ _ _ Hlo), (agree_cost _ _ _ Hhi).
      unfold node_cost, value_at. rewrite Hk, Hh, Hq, Hn. cbn [value]. lia.
  - unfold entries at 1. rewrite map_app. cbn [map].
    fold (entries sl' lo) (entries sl' hi).
    rewrite (agree_entries sl sl' lo Hlo), (agree_entries sl sl' hi Hhi).
    unfold key_at, value_at. by rewrite Hq.
Qed.

(** The heap after the splice of a new node [z] of height [lvl]. *)
Record spliced (h h' : heap) (lo : list nat) (z : nat) (k : bytes) (v : option bytes) (lvl : nat)
    : Prop := {
  sp_new : key_at h' z = k /\ value_at h' z = v /\ height_at h' z = lvl;
  sp_old : forall l, l <> z -> shape h' l = shape h l;
  sp_link : forall l j, fwd h' l j =
    if decide (j < lvl)%nat then
      if decide (l = z) then fwd h (pred h lo j) j
      else if decide (l = pred h lo j) then Some (Some z) else fwd h l j
    else if decide (l = z) then None else fwd h l j;
}.

Lemma pred_elem sl lo hi j :
  sl_inv sl (lo ++ hi) -> (j < MaxLevel)%nat ->
  pred (nodes sl) lo j <> next_loc sl /\ (j < height_at (nodes sl) (pred (nodes sl) lo j))%nat.
Proof.
  intros Hinv Hj. unfold pred. pose proof (inv_count _ _ Hinv) as Hc.
  pose proof (last_elem (at_level (nodes sl) j lo) head) as Hl. apply elem_of_cons in Hl as [->|Hl].
  - rewrite (inv_head _ _ Hinv). unfold head. lia.
  - apply at_level_elem in Hl as [Hin Ht%bool_decide_eq_true]. split; [|done].
    pose proof (inv_old _ _ Hinv _ (proj2 (elem_of_app _ _ _) (or_introl Hin))). lia.
Qed.

Lemma splice_ok sl lo hi k v lvl update :
  sl_inv sl (lo ++ hi) -> (lvl <= MaxLevel)%nat ->
  (forall j, (j < lvl)%nat -> update !! j = Some (Some (pred (nodes sl) lo j))) ->
  exists h', link lvl 0 update (next_loc sl)
      (<[next_loc sl := mkNode k v (replicate lvl None)]> (nodes sl)) = Ok h' /\
    spliced (nodes sl) h' lo (next_loc sl) k v lvl.
Proof.
  intros Hinv Hlvl Hu. set (z := next_loc sl). set (h := nodes sl) in *.
  set (h0 := <[z := mkNode k v (replicate lvl None)]> h).
  assert (forall l, l <> z -> h0 !! l = h !! l) as Hne by (intros; by apply lookup_insert_ne).
  assert (h0 !! z = Some (mkNode k v (replicate lvl None))) as Hz by apply lookup_insert_eq.
  assert (h !! z = None) as Hnone by (apply Hinv; done).
  destruct (link_ok lvl 0 update z (pred h lo) h0) as (h' & E & Hs & Hf).
  { intros j Hj. destruct (pred_elem sl lo hi j Hinv) as [H1 H2]; [lia|]. fold h z in H1, H2.
    split_and!; [apply Hu; lia|done| |].
    - unfold height_at in *. by rewrite Hne.
    - unfold height_at. rewrite Hz. cbn. rewrite length_replicate. lia. }
  exists h'. split; [done|]. split.
  - destruct (shape_views _ _ _ (Hs z)) as (-> & -> & ->). unfold key_at, value_at, height_at.
    rewrite Hz. cbn. by rewrite length_replicate.
  - intros l Hl. rewrite Hs. unfold shape. by rewrite Hne.
  - intros l j. rewrite Hf. assert (forall l, l <> z -> fwd h0 l j = fwd h l j) as Hfne.
    { intros l' Hl'. unfold fwd. by rewrite Hne. }
    destruct (decide (j < lvl)%nat) as [Hj|Hj].
    + rewrite decide_True by lia. destruct (pred_elem sl lo hi j Hinv) as [H1 _]; [lia|].
      fold h z in H1. rewrite (Hfne _ H1). case_decide; [done|]. case_decide; [done|]. by apply Hfne.
    + rewrite decide_False by lia. destruct (decide (l = z)) as [->|]; [|by apply Hfne].
      unfold fwd. rewrite Hz. cbn. apply lookup_ge_None_2. rewrite length_replicate. lia.
Qed.

Lemma insert_links sl lo hi k v lvl h' i :
  sl_inv sl (lo ++ hi) -> spliced (nodes sl) h' lo (next_loc sl) k v lvl ->
  (i < MaxLevel)%nat ->
  linked h' i head (at_level h' i (lo ++ next_loc sl :: hi)).
Proof.
  intros Hinv [(Hk & Hv & Hh) Hold Hlink] Hi. set (z := next_loc sl) in *. set (h := nodes sl) in *.
  assert (forall ls, (forall l, l ∈ ls -> l ∈ lo ++ hi) -> agree h h' ls) as Hag.
  { intros ls Hls l Hl. apply shape_views, Hold. pose proof (inv_old _ _ Hinv l (Hls l Hl)).
    fold z in H. lia. }
  pose proof (inv_links _ _ Hinv i Hi) as Hl. fold h in Hl. rewrite at_level_app in Hl.
  rewrite at_level_app, (agree_at_level h h' i lo) by (apply Hag; set_solver).
  change (at_level h' i (z :: hi)) with
    (if tall h' i z then z :: at_level h' i hi else at_level h' i hi).
  rewrite (agree_at_level h h' i hi) by (apply Hag; set_solver).
  assert (forall l, l ∈ head :: at_level h i lo ++ at_level h i hi -> l <> z) as Hnz.
  { intros l [->|Hl']%elem_of_cons; [unfold z; rewrite (inv_count _ _ Hinv); unfold head; lia|].
    pose proof (inv_old _ _ Hinv l) as Ho. fold z in Ho.
    rewrite elem_of_app, !at_level_elem in Hl'. specialize (Ho ltac:(set_solver)). lia. }
  unfold tall. rewrite Hh. destruct (decide (i < lvl)%nat) as [Hlt|Hge].
  - rewrite bool_decide_true by done. apply (linked_insert h); [done|..].
    + pose proof (sorted_NoDup _ _ Hinv) as Hnd. rewrite <- at_level_app.
      apply NoDup_cons in Hnd as [Hni Hnd]. apply NoDup_cons. split.
      * by intros [? _]%at_level_elem.
      * apply NoDup_ListNoDup. apply List.NoDup_filter. by apply NoDup_ListNoDup.
    + fold (pred h lo i). rewrite Hlink, decide_True by done.
      destruct (pred_elem sl lo hi i Hinv Hi) as [Hp _]. fold h z in Hp.
      by rewrite decide_False, decide_True.
    + rewrite Hlink, !decide_True by done. by apply linked_app, linked_fwd in Hl.
    + intros l Hin Hne. rewrite Hlink, decide_True by done.
      rewrite decide_False by auto. by rewrite decide_False.
  - rewrite bool_decide_false by done. apply (linked_ext h); [|done].
    intros l Hin. rewrite Hlink, decide_False by done. rewrite decide_False; [done|auto].
Qed.

Lemma insert_inv sl lo hi k v lvl h' d :
  sl_inv sl (lo ++ hi) -> spliced (nodes sl) h' lo (next_loc sl) k v lvl ->
  (1 <= lvl <= MaxLevel)%nat ->
  ksorted CompareKeys (entries sl lo ++ (k, v) :: entries sl hi) ->
  let sl' := mkSL h' (S (next_loc sl)) (level sl `max` lvl) (i64 (size sl + 1))
    (i64 (memSize sl + (32 + len k + len (default [] v) + 8 * Z.of_nat lvl))) d in
  sl_inv sl' (lo ++ next_loc sl :: hi) /\
  entries sl' (lo ++ next_loc sl :: hi) = entries sl lo ++ (k, v) :: entries sl hi.
Proof.
  intros Hinv Hsp Hlvl Hsorted sl'. pose proof Hsp as [(Hk & Hv & Hh) Hold _].
  set (z := next_loc sl) in *.
  assert (forall l, l ∈ lo ++ hi -> l <> z) as Hnz.
  { intros l Hl. pose proof (inv_old _ _ Hinv l Hl). fold z in H. lia. }
  assert (forall ls, (forall l, l ∈ ls -> l ∈ lo ++ hi) -> agree (nodes sl) (nodes sl') ls) as Hag.
  { intros ls Hls l Hl. by apply shape_views, Hold, Hnz, Hls. }
  assert (agree (nodes sl) (nodes sl') lo) as Hlo by (apply Hag; set_solver).
  assert (agree (nodes sl) (nodes sl') hi) as Hhi by (apply Hag; set_solver).
  assert (entries sl' (lo ++ z :: hi) = entries sl lo ++ (k, v) :: entries sl hi) as He.
  { unfold entries at 1. rewrite map_app. cbn [map]. fold (entries sl' lo) (entries sl' hi).
    rewrite (agree_entries sl sl' lo Hlo), (agree_entries sl sl' hi Hhi).
    unfold sl'. cbn [nodes]. by rewrite Hk, Hv. }
  split; [|done]. pose proof (sorted_entries sl' (lo ++ z :: hi)) as Hse. rewrite He in Hse.
  assert (forall l, l ∈ lo ++ z :: hi -> l = z \/ l ∈ lo ++ hi) as Hcase by set_solver.
  pose proof (fun i Hi => insert_links sl lo hi k v lvl h' i Hinv Hsp Hi) as Hlinks.
  destruct Hinv as [I1 I2 I3 I4 I5 I6 I7 I8 I9 I10 I11]. fold z in I4, I5, I6. split.
  - intros l [->|Hl]%Hcase; cbn [nodes level sl'].
    + rewrite Hh. lia.
    + destruct (Hag [l]) with (l := l) as (_ & _ & Eh); [set_solver|set_solver|].
      cbn [nodes sl'] in Eh. rewrite Eh. pose proof (I1 l Hl). lia.
  - cbn [nodes sl']. destruct (shape_views _ _ _ (Hold head ltac:(unfold head; lia))) as (_ & _ & ->).
    done.
  - intros [?|?]%Hcase; [unfold head in *; lia|done].
  - intros l Hl. cbn [nodes next_loc sl'] in *. pose proof (Hold l ltac:(lia)) as Hsh.
    unfold shape in Hsh. rewrite I4 in Hsh by lia. by destruct (h' !! l).
  - intros l [->|Hl]%Hcase; cbn [next_loc sl']; [lia|]. pose proof (I5 l Hl). lia.
  - cbn [next_loc sl']. rewrite I6, !length_app. cbn. lia.
  - cbn [level sl']. lia.
  - by apply Hse.
  - exact Hlinks.
  - cbn [size sl']. rewrite I10, i64_add. f_equal. rewrite !len_app, len_cons. lia.
  - cbn [memSize sl']. rewrite I11, i64_add. f_equal. rewrite !total_cost_app.
    change (total_cost ?h (z :: hi)) with (node_cost h z + total_cost h hi)%Z.
    rewrite (agree_cost _ _ _ Hlo), (agree_cost _ _ _ Hhi). unfold node_cost. cbn [nodes sl'].
    rewrite Hk, Hv, Hh. lia.
Qed.

Lemma put_new_ok coin sl lo hi k v update :
  sl_inv sl (lo ++ hi) -> length update = MaxLevel ->
  (forall j, (j < level sl)%nat -> update !! j = Some (Some (pred (nodes sl) lo j))) ->
  ksorted CompareKeys (entries sl lo ++ (k, v) :: entries sl hi) ->
  exists sl' ls', put_new coin sl k v update = Ok sl' /\ sl_inv sl' ls' /\
    entries sl' ls' = entries sl lo ++ (k, v) :: entries sl hi.
Proof.
  intros Hinv Hlen Hup Hsorted. unfold put_new, randomLevel.
  pose proof (random_level_range coin MaxLevel 1 (draws sl)) as Hr.
  destruct (random_level coin MaxLevel 1 (draws sl)) as [lvl d]. cbn [fst] in Hr.
  specialize (Hr ltac:(unfold MaxLevel; lia)). cbv zeta.
  set (u' := if bool_decide _ then _ else _).
  destruct (splice_ok sl lo hi k v lvl u') as (h' & -> & Hspl); [done|lia| |].
  { intros j Hj. unfold u'. case_bool_decide as Hb; [rewrite list_lookup_imap|apply Hup; lia].
    destruct (lookup_lt_is_Some_2 update j) as [u Eu]; [lia|]. rewrite Eu. cbn.
    case_bool_decide as Hj2.
    - do 2 f_equal. unfold pred. pose proof (at_level_high _ _ j Hinv ltac:(lia)) as Hnil.
      rewrite at_level_app in Hnil. apply app_nil in Hnil as [-> _]. done.
    - rewrite <- Eu. apply Hup. lia. }
  cbn [mbind outcome_bind].
  destruct (insert_inv sl lo hi k v lvl h' d Hinv Hspl ltac:(lia) Hsorted) as [Hi He].
  eexists _, _. split; [reflexivity|]. split; [exact Hi|exact He].
Qed.

Lemma Put_ok coin sl ls k v :
  sl_inv sl ls ->
  exists sl' ls', Put coin sl k v = Ok sl' /\ sl_inv sl' ls' /\
    entries sl' ls' = sinsert CompareKeys k v (entries sl ls).
Proof.
  intros Hinv. destruct (splits_exist (nodes sl) k ls (inv_sorted _ _ Hinv)) as (lo & hi & Hsp).
  destruct (search_ok sl ls lo hi k Hinv Hsp) as (update & E & Hlen & Hup & Hf).
  pose proof (sinsert_split sl ls lo hi k v Hsp) as Hins.
  assert (ksorted CompareKeys (sinsert CompareKeys k v (entries sl ls))) as Hks.
  { apply sinsert_sorted, sorted_entries, Hinv. }
  unfold Put. rewrite E. cbn [mbind outcome_bind]. rewrite Hf. cbn [mbind outcome_bind].
  assert (ls = lo ++ hi) as -> by apply Hsp. rewrite Hins in *.
  destruct hi as [|q hi]; [by apply (put_new_ok coin sl lo [])|]. cbn [list.head].
  destruct (elem_deref sl _ q Hinv) as [n Hn]; [set_solver|].
  unfold deref. rewrite Hn. cbn [mbind outcome_bind]. unfold key_at in *. rewrite Hn in *.
  destruct (bytes_equal (key n) k) eqn:Eq; [|by apply put_new_ok].
  apply bytes_equal_true in Eq. destruct (update_inv sl lo q n hi v _ Hinv Hn eq_refl) as [Hi He].
  eexists _, _. split; [reflexivity|]. split; [exact Hi|]. rewrite He. by rewrite Eq.
Qed.

Lemma NewSkipList_inv : sl_inv NewSkipList [].
Proof.
  split; cbn [NewSkipList nodes next_loc level size memSize]; try done.
  - by intros l ?%elem_of_nil.
  - by intros ?%elem_of_nil.
  - intros l Hl. rewrite lookup_singleton_ne; [done|]. unfold head. lia.
  - by intros l ?%elem_of_nil.
  - unfold MaxLevel. lia.
  - constructor.
  - intros i Hi. cbn [at_level List.filter linked]. unfold fwd.
    rewrite lookup_singleton_eq. cbn [forward]. by apply lookup_replicate_2.
Qed.

(** ** Iteration *)

(** What an iterator at [it] still has to return. *)
Fixpoint collect (fuel : nat) (sl : SkipList) (it : option nat)
    : outcome Empty_set (list (bytes * option bytes)) :=
  if Valid it then
    match fuel with
    | O => Fuel
    | S fuel =>
        e ← Entry sl it;
        it ← Next sl it;
        es ← collect fuel sl it;
        Ok (e :: es)
    end
  else Ok [].

Lemma collect_ok sl ls fuel :
  (length ls < fuel)%nat ->
  match ls with [] => True | a :: ls => linked (nodes sl) 0 a ls end ->
  collect fuel sl (list.head ls) = Ok (entries sl ls).
Proof.
  revert ls. induction fuel as [|fuel IH]; intros [|a ls] Hf Hl; cbn in Hf; try lia; [done|].
  cbn [list.head collect Valid Entry Next]. pose proof (linked_fwd _ _ _ _ Hl) as Ha.
  pose proof Ha as (n & Hd & Hk)%fwd_deref. rewrite Hd. cbn [mbind outcome_bind].
  rewrite (get_forward_fwd _ _ _ _ Ha). cbn [mbind outcome_bind].
  rewrite IH; [|lia|destruct ls; [done|apply Hl]]. cbn [mbind outcome_bind entries map].
  do 3 f_equal; [done|]. unfold deref, value_at in *. destruct (nodes sl !! a); [|done]. by injection Hd as ->.
Qed.

Lemma linked_from sl lo hi :
  sl_inv sl (lo ++ hi) -> match hi with [] => True | a :: hi => linked (nodes sl) 0 a hi end.
Proof.
  intros Hinv. pose proof (inv_links _ _ Hinv 0 ltac:(unfold MaxLevel; lia)) as Hl.
  rewrite (at_level_zero _ _ Hinv) in Hl. apply linked_app in Hl. destruct hi; [done|apply Hl].
Qed.

Lemma filter_split {A} (P : A -> Prop) `{!forall x, Decision (P x)} (l k : list A) :
  Forall (fun x => ~ P x) l -> Forall P k -> filter P (l ++ k) = k.
Proof.
  intros Hl Hk. by rewrite filter_app, filter_false, filter_true.
Qed.

Lemma iterate_all sl ls :
  sl_inv sl ls -> exists it, SeekToFirst sl = Ok it /\ collect (next_loc sl) sl it = Ok (entries sl ls).
Proof.
  intros Hinv. exists (list.head ls). split.
  - apply get_forward_fwd. pose proof (inv_links _ _ Hinv 0 ltac:(unfold MaxLevel; lia)) as Hl.
    rewrite (at_level_zero _ _ Hinv) in Hl. by apply linked_fwd in Hl.
  - pose proof (inv_count _ _ Hinv). apply collect_ok; [lia|]. by apply (linked_from sl []).
Qed.

(** ** Properties *)

(** The writes [ws] on a skip list; a delete is a [nil] value. *)
Fixpoint put_all (coin : nat -> bool) (ws : list (bytes * option bytes)) (sl : SkipList)
    : outcome Empty_set SkipList :=
  match ws with
  | [] => Ok sl
  | (k, v) :: ws => sl ← Put coin sl k v; put_all coin ws sl
  end.

(** The map after the writes [ws]. *)
Definition writes_map (ws : list (bytes * option bytes)) (m : gmap bytes (option bytes))
    : gmap bytes (option bytes) :=
  foldl (fun m w => <[w.1 := w.2]> m) m ws.

(** [l] lists the map [m]. *)
Definition lists (l : list (bytes * option bytes)) (m : gmap bytes (option bytes)) : Prop :=
  ksorted CompareKeys l /\ forall k, assoc CompareKeys k l = m !! k.

Lemma lists_sinsert l m k v :
  lists l m -> lists (sinsert CompareKeys k v l) (<[k := v]> m).
Proof.
  intros [Hs Hl]. split; [by apply sinsert_sorted|]. intros k'. destruct (decide (k' = k)) as [->|].
  - by rewrite assoc_sinsert_eq, lookup_insert_eq.
  - by rewrite assoc_sinsert_ne, lookup_insert_ne.
Qed.

Lemma put_all_ok coin ws sl ls m :
  sl_inv sl ls -> lists (entries sl ls) m ->
  exists sl' ls', put_all coin ws sl = Ok sl' /\ sl_inv sl' ls' /\
    lists (entries sl' ls') (writes_map ws m).
Proof.
  revert sl ls m. induction ws as [|[k v] ws IH]; intros sl ls m Hinv Hm; cbn [put_all].
  { by exists sl, ls. }
  destruct (Put_ok coin sl ls k v Hinv) as (sl1 & ls1 & -> & Hinv1 & He).
  cbn [mbind outcome_bind]. apply (IH sl1 ls1 (<[k := v]> m)); [done|]. rewrite He. by apply lists_sinsert.
Qed.

Lemma empty_lists : lists (entries NewSkipList []) ∅.
Proof. split; [constructor|]. done. Qed.

(** C17: a skip list is a map, for any outcome of the random levels: after any sequence
    of writes [Get] returns the last value written to the key, or that there is
    none; no write or search panics or fails to end. *)
Theorem skiplist_refines_map coin ws :
  exists sl, put_all coin ws NewSkipList = Ok sl /\
    forall k, Get sl k = Ok (match writes_map ws ∅ !! k with
                             | Some v => (v, true)
                             | None => (None, false)
                             end).
Proof.
  destruct (put_all_ok coin ws _ _ _ NewSkipList_inv empty_lists) as (sl & ls & E & Hinv & Hm).
  exists sl. split; [done|]. intros k. rewrite (Get_ok sl ls k Hinv). by destruct Hm as [_ ->].
Qed.

(** Iteration returns every entry of the map once, in the order of [CompareKeys],
    and from [Seek target] on exactly the entries whose keys are not below the
    target. *)
Theorem skiplist_iterates_sorted coin ws target :
  exists sl l it1 it2, put_all coin ws NewSkipList = Ok sl /\ lists l (writes_map ws ∅) /\
    SeekToFirst sl = Ok it1 /\ collect (next_loc sl) sl it1 = Ok l /\
    Seek sl target = Ok it2 /\
    collect (next_loc sl) sl it2 = Ok (filter (fun e => ~ klt CompareKeys e.1 target) l).
Proof.
  destruct (put_all_ok coin ws _ _ _ NewSkipList_inv empty_lists) as (sl & ls & E & Hinv & Hm).
  destruct (splits_exist (nodes sl) target ls (inv_sorted _ _ Hinv)) as (lo & hi & Hsp).
  destruct (search_ok sl ls lo hi target Hinv Hsp) as (u & Ed & _ & _ & Hf).
  pose proof (inv_count _ _ Hinv) as Hc. destruct Hsp as (-> & Hlo & Hhi).
  exists sl, (entries sl (lo ++ hi)), (list.head (lo ++ hi)), (list.head hi). split_and!; [done..| | | |].
  - apply get_forward_fwd. pose proof (inv_links _ _ Hinv 0 ltac:(unfold MaxLevel; lia)) as Hl.
    rewrite (at_level_zero _ _ Hinv) in Hl. by apply linked_fwd in Hl.
  - apply collect_ok; [lia|]. by apply (linked_from sl []).
  - unfold Seek, seek. rewrite Ed. exact Hf.
  - rewrite collect_ok; [|rewrite length_app in Hc; lia|by apply (linked_from sl lo)].
    f_equal. unfold entries. rewrite map_app. symmetry. apply filter_split.
    + rewrite Forall_map. eapply Forall_impl; [exact Hlo|]. cbn. auto.
    + rewrite Forall_map. exact Hhi.
Qed.

(** A map has as many entries as a list of it. *)
Lemma lists_size l m : lists l m -> len l = Z.of_nat (base.size m).
Proof.
  intros [Hs Hm]. assert (NoDup l.*1) as Hnd.
  { unfold ksorted in Hs. induction Hs as [|k ks _ IH Hk]; constructor; [|done]. intros Hin. rewrite Forall_forall in Hk.
    by apply (klt_irrefl k), Hk. }
  assert (m = list_to_map l) as ->.
  { apply map_eq. intros k. apply option_eq. intros v. rewrite <- Hm, <- elem_of_list_to_map by done. split; [apply assoc_elem|by apply elem_assoc]. }
  unfold len. by rewrite map_size_list_to_map.
Qed.

(** [Len] counts the keys, deleted ones included, while it does not overflow. *)
Theorem skiplist_len coin ws :
  exists sl, put_all coin ws NewSkipList = Ok sl /\ Len sl = i64 (Z.of_nat (base.size (writes_map ws ∅))).
Proof.
  destruct (put_all_ok coin ws _ _ _ NewSkipList_inv empty_lists) as (sl & ls & E & Hinv & Hm). exists sl. split; [done|].
  unfold Len. rewrite (inv_size _ _ Hinv), <- (lists_size _ _ Hm). unfold entries, len. by rewrite length_map.
Qed.
