(* ===== verification/MemTable.v ===== *)
(** * Memtable (internal/memtable/memtable.go)

    A skip list with a size limit that can be frozen.  [models mt m] states what the
    memtable promises to the manager: it is well formed and holds the map [m]. *)

From S2P Require Import Prelude Order Keys WalBatch SkipList.
Import mvcc wal_batch.

Inductive mem_error := ErrMemTableFull.

#[export] Instance mem_error_eq_dec : EqDecision mem_error.
Proof. solve_decision. Defined.

(** A skip list call cannot return an error. *)
Definition no_error {E A} (m : outcome Empty_set A) : outcome E A :=
  match m with
  | Ok a => Ok a
  | Err e => match e with end
  | Panic => Panic
  | Fuel => Fuel
  end.

Module memtable.

Record MemTable := mkMT {
  sl : skiplist.SkipList;
  maxSize : Z;
  frozen : bool;
}.

Definition NewMemTable (maxSize : Z) : MemTable := mkMT skiplist.NewSkipList maxSize false.

Definition MemoryUsage (mt : MemTable) : Z := skiplist.MemoryUsage (sl mt).

Definition set_sl (s : skiplist.SkipList) (mt : MemTable) : MemTable :=
  mkMT s (maxSize mt) (frozen mt).

Section coin.
Context (coin : nat -> bool).

Definition Put (mt : MemTable) (k : bytes) (v : option bytes) : outcome mem_error MemTable :=
  if frozen mt || (maxSize mt <=? MemoryUsage mt)%Z then Err ErrMemTableFull
  else s ← no_error (skiplist.Put coin (sl mt) k v); Ok (set_sl s mt).

Definition Delete (mt : MemTable) (k : bytes) : outcome mem_error MemTable :=
  if frozen mt || (maxSize mt <=? MemoryUsage mt)%Z then Err ErrMemTableFull
  else s ← no_error (skiplist.Delete coin (sl mt) k); Ok (set_sl s mt).

(** The entries before an error stay applied; other operations are skipped. *)
Fixpoint apply_entries (es : list BatchEntry) : st mem_error MemTable unit :=
  match es with
  | [] => mret tt
  | e :: es => fun mt =>
      let r := if bool_decide (Op e = OpPut) then Put mt (Key e) (Value e)
               else if bool_decide (Op e = OpDelete) then Delete mt (Key e)
               else Ok mt in
      match r with
      | Ok mt => apply_entries es mt
      | Err e => (mt, Err e)
      | Panic => (mt, Panic)
      | Fuel => (mt, Fuel)
      end
  end.

Definition ApplyBatch (b : Batch) : st mem_error MemTable unit := apply_entries (Entries b).

End coin.

Definition Get (mt : MemTable) (k : bytes) : outcome Empty_set (option bytes * bool) :=
  skiplist.Get (sl mt) k.

Definition ShouldFlush (mt : MemTable) : bool := (maxSize mt <=? MemoryUsage mt)%Z.

Definition Freeze (mt : MemTable) : MemTable := mkMT (sl mt) (maxSize mt) true.

Definition IsFrozen (mt : MemTable) : bool := frozen mt.

Definition NewIterator (mt : MemTable) : option nat := skiplist.NewIterator (sl mt).

End memtable.
Import memtable.

(** ** The promise *)

Definition models (mt : MemTable) (m : gmap bytes (option bytes)) : Prop :=
  exists ls, sl_inv (sl mt) ls /\ lists (entries (sl mt) ls) m.

Definition full (mt : MemTable) : bool := frozen mt || ShouldFlush mt.

Lemma NewMemTable_models n : models (NewMemTable n) ∅.
Proof. exists []. split; [apply NewSkipList_inv|apply empty_lists]. Qed.

Lemma NewMemTable_room n : (0 < n)%Z -> full (NewMemTable n) = false.
Proof. intros Hn. unfold full, ShouldFlush. cbn. lia. Qed.

Lemma Freeze_models mt m : models mt m -> models (Freeze mt) m.
Proof. done. Qed.

Lemma Put_models coin mt m k v :
  models mt m ->
  if full mt then Put coin mt k v = Err ErrMemTableFull
  else exists mt', Put coin mt k v = Ok mt' /\ models mt' (<[k := v]> m) /\
    maxSize mt' = maxSize mt /\ frozen mt' = frozen mt.
Proof.
  intros (ls & Hinv & Hm). unfold Put, full, ShouldFlush. destruct (frozen mt || _); [done|].
  destruct (Put_ok coin (sl mt) ls k v Hinv) as (sl' & ls' & -> & Hinv' & He).
  cbn. eexists. split; [done|]. split; [|done]. exists ls'. split; [done|]. cbn.
  rewrite He. by apply lists_sinsert.
Qed.

(** A delete is a write of [nil]. *)
Lemma Delete_Put coin mt k : Delete coin mt k = Put coin mt k None.
Proof. done. Qed.

Lemma Get_models mt m k :
  models mt m -> Get mt k = Ok (match m !! k with Some v => (v, true) | None => (None, false) end).
Proof.
  intros (ls & Hinv & [_ Hm]). unfold Get. rewrite (Get_ok _ ls k Hinv). by rewrite Hm.
Qed.

(** The first write into a table takes between 40 and 160 bytes beside the data. *)
Lemma Put_fresh coin n k v :
  (0 < n <= 40)%Z -> (len k + len (default [] v) < 2 ^ 62)%Z ->
  exists mt, Put coin (NewMemTable n) k v = Ok mt /\ ShouldFlush mt = true.
Proof.
  intros Hn Hlen. unfold Put, ShouldFlush.
  change (frozen (NewMemTable n)) with false. change (MemoryUsage (NewMemTable n)) with 0%Z.
  change (maxSize (NewMemTable n)) with n. cbn [orb]. rewrite (proj2 (Z.leb_gt _ _)) by lia.
  destruct (Put_ok coin (sl (NewMemTable n)) [] k v NewSkipList_inv) as (s & ls & -> & Hinv & He).
  cbn [no_error mbind outcome_bind]. eexists. split; [reflexivity|].
  unfold MemoryUsage, skiplist.MemoryUsage. cbn [sl maxSize set_sl NewMemTable]. rewrite (inv_mem _ _ Hinv).
  destruct ls as [|l [|]]; try done. injection He as Hk Hv.
  pose proof (inv_nodes _ _ Hinv l (list_elem_of_here _ _)) as Hh.
  pose proof (inv_level _ _ Hinv) as Hl. unfold skiplist.MaxLevel in Hl.
  pose proof (len_nonneg k). pose proof (len_nonneg (default [] v)).
  cbn [total_cost foldr]. unfold node_cost. rewrite Hk, Hv. unfold i64.
  rewrite Z.mod_small by lia. lia.
Qed.
