(* ===== verification/Manager.v ===== *)
(** * Memtable manager (internal/memtable/manager.go)

    Writers and the flush goroutine share the manager under [m.mu]; a writer that
    finds the active table full while another one is being flushed waits on
    [m.cond].  A step of the system is a critical section: what a goroutine does
    from taking the lock to releasing it or waiting.  The write-ahead log of a write
    has been submitted before its first step; [flushFn] succeeds or fails as the
    event says. *)

From S2P Require Import Prelude Order Keys WalBatch SkipList MemTable.
Import mvcc wal_batch memtable.

Module manager.

Record Manager := mkM {
  active : MemTable;
  immutable : option MemTable;
  msize : Z;
  flushCh : bool;
}.

Definition NewManager (n : Z) : Manager := mkM (NewMemTable n) None n false.

(** Freeze the active table, make it the immutable one, and signal the flusher
    unless a signal is already there. *)
Definition rotate (m : Manager) : Manager :=
  mkM (NewMemTable (msize m)) (Some (Freeze (active m))) (msize m) true.

Definition set_active (mt : MemTable) (m : Manager) : Manager :=
  mkM mt (immutable m) (msize m) (flushCh m).

Section coin.
Context (coin : nat -> bool).

Definition try_entry (mt : MemTable) (e : BatchEntry) : outcome mem_error MemTable :=
  if bool_decide (Op e = OpPut) then memtable.Put coin mt (Key e) (Value e)
  else memtable.Delete coin mt (Key e).

(** The loop for one entry: [true] when it is written, [false] when the writer waits.
    After a rotation there is an immutable table, so the loop runs at most twice. *)
Fixpoint apply_one (fuel : nat) (m : Manager) (e : BatchEntry) : outcome Empty_set (Manager * bool) :=
  match fuel with
  | O => Fuel
  | S fuel =>
      match try_entry (active m) e with
      | Ok mt =>
          let m := set_active mt m in
          Ok (if ShouldFlush mt && bool_decide (immutable m = None) then rotate m else m, true)
      | Err ErrMemTableFull =>
          match immutable m with
          | Some _ => Ok (m, false)
          | None => apply_one fuel (rotate m) e
          end
      | Panic => Panic
      | Fuel => Fuel
      end
  end.

(** [Put], [Delete], [WriteBatch] and [ApplyRecoveredBatch] after the lock is taken:
    the entries that are left when the writer has to wait. *)
Fixpoint write_entries (m : Manager) (es : list BatchEntry)
    : outcome Empty_set (Manager * list BatchEntry) :=
  match es with
  | [] => Ok (m, [])
  | e :: es' =>
      x ← apply_one 2 m e;
      let '(m, written) := x in
      if (written : bool) then write_entries m es' else Ok (m, es)
  end.

(** The write operations: the batch is submitted to the log, and written when that
    succeeded.  [submit] is [m.wal.Submit]. *)
Definition WriteBatch (submit : bytes -> outcome wal_error unit) (m : Manager) (b : Batch)
    : outcome wal_error (Manager * list BatchEntry) :=
  data ← no_error (Encode b);
  submit data;;
  no_error (write_entries m (Entries b)).

Definition Put (submit : bytes -> outcome wal_error unit) (m : Manager) (k : bytes) (v : option bytes)
    : outcome wal_error (Manager * list BatchEntry) :=
  WriteBatch submit m (wal_batch.Put empty_batch k v).

Definition Delete (submit : bytes -> outcome wal_error unit) (m : Manager) (k : bytes)
    : outcome wal_error (Manager * list BatchEntry) :=
  WriteBatch submit m (wal_batch.Delete empty_batch k).

(** The replay of a recovered batch does not write the log. *)
Definition ApplyRecoveredBatch (m : Manager) (b : Batch)
    : outcome Empty_set (Manager * list BatchEntry) :=
  write_entries m (Entries b).

End coin.

Definition Get (m : Manager) (k : bytes) : outcome Empty_set (option bytes * bool) :=
  r ← memtable.Get (active m) k;
  let '(v, found) := r in
  if (found : bool) then Ok (v, true)
  else match immutable m with
       | Some imm => memtable.Get imm k
       | None => Ok (None, false)
       end.

(** ** The goroutines *)

(** [Busy imm last]: [doFlush] holds [imm]; [last] when called for [stopCh]. *)
Inductive flusher := Idle | Busy (imm : MemTable) (last : bool) | Exited.

(** A writer and the entries it still has to write. *)
Definition task : Type := nat * list BatchEntry.

(** [flushed] are the arguments of the calls of [flushFn] that succeeded, [applied]
    the entries written so far, both in order. *)
Record sys := mkSys {
  mgr : Manager;
  fl : flusher;
  started : bool;
  stopClosed : bool;
  blocked : list task;
  ready : list task;
  finished : list nat;
  flushed : list MemTable;
  applied : list BatchEntry;
}.

Definition init (n : Z) : sys := mkSys (NewManager n) Idle false false [] [] [] [] [].

Inductive event :=
| EWrite (id : nat) (es : list BatchEntry)   (* a writer takes the lock *)
| EResume                                    (* the first woken writer takes it again *)
| EStart                                     (* Start *)
| EStop                                      (* Stop: close(m.stopCh) *)
| ESignal                                    (* flushLoop: case <-m.flushCh *)
| ELast                                      (* flushLoop: case <-m.stopCh *)
| EFlushOk                                   (* flushFn returns nil *)
| EFlushErr.                                 (* flushFn returns an error *)

Inductive disabled := Disabled.

Section step.
Context (coin : nat -> bool).

Definition run_task (t : task) (s : sys) (ready' : list task) : outcome disabled sys :=
  x ← no_error (write_entries coin (mgr s) t.2);
  let '(m, rest) := x in
  let done := take (length t.2 - length rest) t.2 in
  Ok (mkSys m (fl s) (started s) (stopClosed s)
    (match rest with [] => blocked s | _ => blocked s ++ [(t.1, rest)] end) ready'
    (match rest with [] => finished s ++ [t.1] | _ => finished s end)
    (flushed s) (applied s ++ done)).

Definition set_flusher (f : flusher) (tok : bool) (s : sys) : sys :=
  mkSys (mkM (active (mgr s)) (immutable (mgr s)) (msize (mgr s)) tok) f (started s) (stopClosed s)
    (blocked s) (ready s) (finished s) (flushed s) (applied s).

Definition step (e : event) (s : sys) : outcome disabled sys :=
  match e with
  | EWrite id es => run_task (id, es) s (ready s)
  | EResume =>
      match ready s with
      | t :: ready' => run_task t s ready'
      | [] => Err Disabled
      end
  | EStart =>
      if started s then Err Disabled
      else Ok (mkSys (mgr s) (fl s) true (stopClosed s) (blocked s) (ready s) (finished s)
             (flushed s) (applied s))
  | EStop =>
      if stopClosed s then Err Disabled
      else Ok (mkSys (mgr s) (fl s) (started s) true (blocked s) (ready s) (finished s)
             (flushed s) (applied s))
  | ESignal =>
      match fl s, started s, flushCh (mgr s) with
      | Idle, true, true =>
          Ok (set_flusher (match immutable (mgr s) with Some imm => Busy imm false | None => Idle end)
                false s)
      | _, _, _ => Err Disabled
      end
  | ELast =>
      match fl s, started s, stopClosed s with
      | Idle, true, true =>
          Ok (set_flusher (match immutable (mgr s) with Some imm => Busy imm true | None => Exited end)
                (flushCh (mgr s)) s)
      | _, _, _ => Err Disabled
      end
  | EFlushOk =>
      match fl s with
      | Busy imm last =>
          Ok (mkSys (mkM (active (mgr s)) None (msize (mgr s)) (flushCh (mgr s)))
            (if last then Exited else Idle) (started s) (stopClosed s)
            [] (ready s ++ blocked s) (finished s) (flushed s ++ [imm]) (applied s))
      | _ => Err Disabled
      end
  | EFlushErr =>
      match fl s with
      | Busy _ _ => Ok s
      | _ => Err Disabled
      end
  end.

Fixpoint run (es : list event) (s : sys) : outcome disabled sys :=
  match es with
  | [] => Ok s
  | e :: es => s ← step e s; run es s
  end.

End step.

End manager.
Import manager.

(** ** What a writer does *)

(** The write an entry stands for. *)
Definition entry_write (e : BatchEntry) : bytes * option bytes :=
  (Key e, if bool_decide (Op e = OpPut) then Value e else None).

Definition entries_map (es : list BatchEntry) (m : gmap bytes (option bytes)) :=
  writes_map (map entry_write es) m.

Lemma entries_map_app es1 es2 m : entries_map (es1 ++ es2) m = entries_map es2 (entries_map es1 m).
Proof. unfold entries_map, writes_map. by rewrite map_app, foldl_app. Qed.

(** A write on top of a map is a write on top of the maps below it. *)
Lemma entries_map_union es a b : entries_map es (a ∪ b) = entries_map es a ∪ b.
Proof.
  revert a. induction es as [|e es IH]; intros a; [done|]. cbn. rewrite insert_union_l. apply IH.
Qed.

(** The manager holds the map [am] over the map [im]. *)
Definition mgr_models (m : Manager) (am im : gmap bytes (option bytes)) : Prop :=
  models (active m) am /\ maxSize (active m) = msize m /\ frozen (active m) = false /\
  match immutable m with
  | Some mt => models mt im
  | None => im = ∅
  end.

Lemma try_entry_models coin mt m e :
  models mt m ->
  if full mt then try_entry coin mt e = Err ErrMemTableFull
  else exists mt', try_entry coin mt e = Ok mt' /\
    models mt' (<[(entry_write e).1 := (entry_write e).2]> m) /\
    maxSize mt' = maxSize mt /\ frozen mt' = frozen mt.
Proof.
  intros Hm. unfold try_entry, entry_write. cbn [fst snd]. case_bool_decide.
  - apply (Put_models coin mt m (Key e) (Value e) Hm).
  - rewrite Delete_Put. apply (Put_models coin mt m (Key e) None Hm).
Qed.

Lemma rotate_models m am : 
  models (active m) am -> mgr_models (rotate m) ∅ am.
Proof. intros Hm. split_and!; [apply NewMemTable_models|done|done|done]. Qed.

(** Every entry of the new tables was in the old ones or is one of the writes. *)
Definition from_writes (am im am' im' : gmap bytes (option bytes)) (es : list BatchEntry) : Prop :=
  forall k v, am' !! k = Some v \/ im' !! k = Some v -> am !! k = Some v \/ im !! k = Some v \/ (k, v) ∈ map entry_write es.

(** The tables a writer leaves hold what it found and its entries on top; the
    immutable table of the manager changes only when there was none. *)
Record wrote_to (m m' : Manager) (es : list BatchEntry) : Prop := {
  wr_maps : forall am im, mgr_models m am im -> exists am' im', mgr_models m' am' im' /\
    am' ∪ im' = entries_map es (am ∪ im) /\ from_writes am im am' im' es;
  wr_imm : immutable m <> None -> immutable m' = immutable m /\ flushCh m' = flushCh m;
  wr_token : immutable m' <> None -> immutable m <> None \/ flushCh m' = true;
  wr_flush : flushCh m = true -> flushCh m' = true;
  wr_size : msize m' = msize m;
}.

Lemma wrote_to_nil m : wrote_to m m [].
Proof. split; [|naive_solver..]. intros am im H. exists am, im. split_and!; try done. intros k v [|]; auto. Qed.

Lemma wrote_to_trans m1 m2 m3 es1 es2 : wrote_to m1 m2 es1 -> wrote_to m2 m3 es2 -> wrote_to m1 m3 (es1 ++ es2).
Proof.
  intros [A1 B1 C1 D1 E1] [A2 B2 C2 D2 E2]. split.
  - intros am im H. destruct (A1 _ _ H) as (am1 & im1 & H1 & Eq1 & F1).
    destruct (A2 _ _ H1) as (am2 & im2 & H2 & Eq2 & F2). exists am2, im2. split_and!; [done|by rewrite Eq2, Eq1, entries_map_app|].
    intros k v Hv. rewrite map_app, elem_of_app. destruct (F2 k v Hv) as [Hv1|[Hv1|]]; [| |by auto];
      (destruct (F1 k v) as [|[|]]; auto).
  - intros H. destruct (B1 H) as [F1 G1]. rewrite <- F1, <- G1. apply B2. by rewrite F1.
  - intros H. destruct (C2 H) as [H1|]; [|by right]. destruct (C1 H1); [by left|right; auto].
  - auto.
  - congruence.
Qed.

Lemma wrote_to_rotate m : immutable m = None -> wrote_to m (rotate m) [].
Proof.
  intros Hn. split; try done; [|by right].
  intros am im (H1 & H2 & H3 & H4). rewrite Hn in H4. subst im.
  exists ∅, am. split_and!; [by apply rotate_models| |].
  - cbn. by rewrite (left_id_L ∅ (∪)), (right_id_L ∅ (∪)).
  - intros k v [Hv|]; [by rewrite lookup_empty in Hv|auto].
Qed.

Lemma wrote_to_entry coin m e mt' :
  try_entry coin (active m) e = Ok mt' -> wrote_to m (set_active mt' m) [e].
Proof.
  intros E. split; try done; [|by left].
  intros am im (H1 & H2 & H3 & H4). pose proof (try_entry_models coin _ _ e H1) as Ht.
  destruct (full (active m)); [congruence|]. destruct Ht as (mt & E' & Hm & Hs & Hf).
  rewrite E in E'. injection E' as <-.
  exists (<[(entry_write e).1 := (entry_write e).2]> am), im. split_and!.
  - split_and!; cbn; [done|congruence..|done].
  - cbn. by rewrite insert_union_l.
  - intros k v [[[<- <-]|[_ Hv]]%lookup_insert_Some|]; [|auto..]. right. right. apply list_elem_of_singleton.
    by destruct (entry_write e).
Qed.

Lemma apply_one_ok coin m e am im :
  mgr_models m am im ->
  exists m' b, apply_one coin 2 m e = Ok (m', b) /\ wrote_to m m' (if b then [e] else []) /\
    (b = false -> immutable m' <> None) /\
    (immutable m = None -> (0 < msize m)%Z -> b = true).
Proof.
  intros Hm. pose proof Hm as (H1 & H2 & H3 & _).
  (* one successful attempt at a manager reached from [m] *)
  assert (forall m1 mt', wrote_to m m1 [] -> try_entry coin (active m1) e = Ok mt' ->
    wrote_to m (if ShouldFlush mt' && bool_decide (immutable (set_active mt' m1) = None)
             then rotate (set_active mt' m1) else set_active mt' m1) [e]) as Hdone.
  { intros m1 mt' Hw E. apply wrote_to_entry in E. pose proof (wrote_to_trans _ _ _ _ _ Hw E) as Hwe.
    destruct (ShouldFlush mt'); [|done]. case_bool_decide as Hi; [|done].
    apply (wrote_to_trans _ _ _ [e] [] Hwe). by apply wrote_to_rotate. }
  pose proof (try_entry_models coin _ _ e H1) as Ht. cbn [apply_one].
  destruct (full (active m)) eqn:Ef.
  2:{ destruct Ht as (mt' & E & _). rewrite E. eexists _, true. split; [done|].
      split; [apply Hdone; [apply wrote_to_nil|done]|done]. }
  rewrite Ht. destruct (immutable m) as [imm|] eqn:Ei.
  { exists m, false. split_and!; [done|apply wrote_to_nil|by rewrite Ei|done]. }
  pose proof (try_entry_models coin (active (rotate m)) ∅ e (NewMemTable_models _)) as Ht2.
  destruct (full (active (rotate m))) eqn:Ef2.
  - rewrite Ht2. cbn [rotate immutable]. exists (rotate m), false.
    split_and!; [done|by apply wrote_to_rotate|done|]. intros _ Hpos.
    cbn [rotate active] in Ef2. by rewrite NewMemTable_room in Ef2.
  - destruct Ht2 as (mt' & E & _). rewrite E. eexists _, true. split; [done|].
    split; [apply Hdone; [by apply wrote_to_rotate|done]|done].
Qed.

Lemma write_entries_ok coin es m am im :
  mgr_models m am im ->
  exists m' rest done, write_entries coin m es = Ok (m', rest) /\ es = done ++ rest /\
    wrote_to m m' done /\ (rest <> [] -> immutable m' <> None) /\
    (immutable m = None -> (0 < msize m)%Z -> es <> [] -> done <> []).
Proof.
  revert m am im. induction es as [|e es IH]; intros m am im Hm; cbn [write_entries].
  { exists m, [], []. split_and!; try done. apply wrote_to_nil. }
  destruct (apply_one_ok coin m e am im Hm) as (m1 & b & -> & Hw & Hb & Hpos).
  cbn [mbind outcome_bind]. destruct b.
  - destruct (wr_maps _ _ _ Hw am im Hm) as (am1 & im1 & Hm1 & _).
    destruct (IH m1 am1 im1 Hm1) as (m2 & rest & done' & -> & -> & Hw2 & Hr & _).
    exists m2, rest, (e :: done'). split_and!; try done.
    apply (wrote_to_trans _ _ _ [e] done' Hw Hw2).
  - exists m1, (e :: es), []. split_and!; try done; [auto|]. intros Hn Hp. by specialize (Hpos Hn Hp).
Qed.

(** ** The invariant *)

(** The tables flushed, the newest on top. *)
Inductive overlay : list MemTable -> gmap bytes (option bytes) -> Prop :=
| overlay_nil : overlay [] ∅
| overlay_snoc ts mt m acc : overlay ts acc -> models mt m -> overlay (ts ++ [mt]) (m ∪ acc).

Record sys_inv (s : sys) : Prop := {
  si_maps : exists am im fm, mgr_models (mgr s) am im /\ overlay (flushed s) fm /\
    am ∪ im ∪ fm = entries_map (applied s) ∅;
  si_busy : forall imm last, fl s = Busy imm last -> immutable (mgr s) = Some imm;
  si_token : immutable (mgr s) <> None ->
    flushCh (mgr s) = true \/ exists imm last, fl s = Busy imm last;
  si_blocked : blocked s <> [] -> immutable (mgr s) <> None;
}.

(** The state after a writer ran with the task [t] that has [dn] written and [rest] left. *)
Definition after_task (t : task) (m : Manager) (rest dn : list BatchEntry) (ready' : list task) (s : sys) : sys :=
  mkSys m (fl s) (started s) (stopClosed s)
    (match rest with [] => blocked s | _ => blocked s ++ [(t.1, rest)] end) ready'
    (match rest with [] => finished s ++ [t.1] | _ => finished s end)
    (flushed s) (applied s ++ dn).

Lemma run_task_spec coin t s ready' am im :
  mgr_models (mgr s) am im ->
  exists m' rest dn, run_task coin t s ready' = Ok (after_task t m' rest dn ready' s) /\ t.2 = dn ++ rest /\
    wrote_to (mgr s) m' dn /\ (rest <> [] -> immutable m' <> None).
Proof.
  intros Hm. unfold run_task. destruct (write_entries_ok coin t.2 (mgr s) am im Hm) as (m' & rest & dn & -> & Hes & Hw & Hr & _).
  cbn. exists m', rest, dn. split_and!; [|done..]. unfold after_task.
  replace (take (length t.2 - length rest) t.2) with dn; [done|]. rewrite Hes, length_app, take_app_length'; [done|lia].
Qed.

Lemma run_task_inv coin t s ready' :
  sys_inv s -> exists s', run_task coin t s ready' = Ok s' /\ sys_inv s'.
Proof.
  intros [(am & im & fm & Hm & Ho & Heq) Hb Ht Hbl].
  destruct (run_task_spec coin t s ready' am im Hm) as (m' & rest & dn & -> & _ & [Wm Wi Wt Wf Ws] & Hr).
  eexists. split; [done|]. split; cbn.
  - destruct (Wm am im Hm) as (am' & im' & Hm' & Heq' & _). exists am', im', fm. split_and!; [done..|].
    rewrite Heq', <- entries_map_union, Heq. symmetry. apply entries_map_app.
  - intros imm last Hfl. specialize (Hb imm last Hfl). destruct Wi as [-> _]; [by rewrite Hb|done].
  - intros Hi. destruct (Wt Hi) as [Hi'|]; [|by left]. destruct (Ht Hi') as [|]; [left; auto|by right].
  - intros Hbl'. destruct rest as [|e rest]; [|by apply Hr].
    destruct Wi as [-> _]; by apply Hbl.
Qed.

Lemma mgr_step_inv coin e s s' : sys_inv s -> step coin e s = Ok s' -> sys_inv s'.
Proof.
  intros Hinv E. pose proof Hinv as [(am & im & fm & Hm & Ho & Heq) Hb Ht Hbl].
  destruct e; cbn [step] in E.
  - destruct (run_task_inv coin (id, es) s (ready s) Hinv) as (s1 & E1 & H1). congruence.
  - destruct (ready s) as [|t ready']; [done|].
    destruct (run_task_inv coin t s ready' Hinv) as (s1 & E1 & H1). congruence.
  - destruct (started s); [done|]. injection E as <-. split; cbn; eauto.
    exists am, im, fm; auto.
  - destruct (stopClosed s); [done|]. injection E as <-. split; cbn; eauto.
    exists am, im, fm; auto.
  - destruct (fl s) eqn:Ef; [|done..]. destruct (started s), (flushCh (mgr s)); try done.
    injection E as <-. split; cbn; [exists am, im, fm; auto|..]; destruct (immutable (mgr s)); try done.
    + intros ?? [= -> _]. done.
    + intros _. right. eauto.
  - destruct (fl s) eqn:Ef; [|done..]. destruct (started s), (stopClosed s); try done.
    injection E as <-. split; cbn; [exists am, im, fm; auto|..]; destruct (immutable (mgr s)); try done.
    + intros ?? [= -> _]. done.
    + intros _. right. eauto.
  - destruct (fl s) as [|imm last|] eqn:Ef; try done. injection E as <-.
    specialize (Hb imm last eq_refl). destruct Hm as (H1 & H2 & H3 & H4). rewrite Hb in H4.
    split; cbn; [|by destruct last|done|done].
    exists am, ∅, (im ∪ fm). split_and!; [by split_and!|by constructor|].
    by rewrite (right_id_L ∅ (∪)), (assoc_L (∪)).
  - destruct (fl s); try done. by injection E as <-.
Qed.

Lemma init_inv n : sys_inv (init n).
Proof.
  split; cbn; try done. exists ∅, ∅, ∅. split_and!; [|constructor|done].
  split_and!; [apply NewMemTable_models|done..].
Qed.

Lemma mgr_run_inv coin es s s' : sys_inv s -> run coin es s = Ok s' -> sys_inv s'.
Proof.
  revert s. induction es as [|e es IH]; intros s Hinv; cbn [run]; [by intros [= <-]|].
  destruct (step coin e s) as [s1| | |] eqn:E; try done. apply IH. by eapply mgr_step_inv.
Qed.

Lemma Get_mgr_models m am im k :
  mgr_models m am im ->
  Get m k = Ok (match (am ∪ im) !! k with Some v => (v, true) | None => (None, false) end).
Proof.
  intros (H1 & _ & _ & H4). unfold Get. rewrite (Get_models _ _ k H1). cbn.
  rewrite lookup_union. destruct (am !! k) as [v|]; cbn.
  - by rewrite union_Some_l.
  - rewrite (left_id_L None (∪)). destruct (immutable m) as [mt|]; [by apply Get_models|].
    by subst im.
Qed.

Lemma step_msize coin e s s' : sys_inv s -> step coin e s = Ok s' -> msize (mgr s') = msize (mgr s).
Proof.
  intros [(am & im & fm & Hm & _) _ _ _] E.
  assert (forall t ready', run_task coin t s ready' = Ok s' -> msize (mgr s') = msize (mgr s)) as Ht.
  { intros t ready'. unfold run_task.
    destruct (write_entries_ok coin t.2 (mgr s) am im Hm) as (m' & rest & dn & -> & _ & Hw & _).
    cbn. intros [= <-]. apply Hw. }
  destruct e; cbn [step] in E; [by eapply Ht| |..]; repeat case_match; simplify_eq; try done.
  by eapply Ht.
Qed.

Lemma run_msize coin n es s : run coin es (init n) = Ok s -> msize (mgr s) = n.
Proof.
  change n with (msize (mgr (init n))) at 2. pose proof (init_inv n) as H. revert H.
  generalize (init n). induction es as [|e es IH]; intros s0 H0; cbn [run]; [by intros [= <-]|].
  destruct (step coin e s0) as [s1| | |] eqn:E; try done. intros Hr.
  rewrite <- (step_msize coin e s0 s1 H0 E). apply IH; [by eapply mgr_step_inv|done].
Qed.

(** ** Properties *)

(** C6: no write is lost or reordered by rotation and flushing.  At any point of any
    interleaving of writers and the flush goroutine, the last value written to a key
    is what [Get] finds in the two memtables, or else what the tables handed to
    [flushFn] hold, the newest first. *)
Theorem manager_no_lost_write coin n es s (Hrun : run coin es (init n) = Ok s) :
  exists fm, overlay (flushed s) fm /\ forall k, exists r, Get (mgr s) k = Ok r /\
    entries_map (applied s) ∅ !! k = if r.2 then Some r.1 else fm !! k.
Proof.
  destruct (mgr_run_inv coin es _ s (init_inv n) Hrun) as [(am & im & fm & Hm & Ho & Heq) _ _ _].
  exists fm. split; [done|]. intros k. rewrite (Get_mgr_models _ _ _ k Hm). rewrite <- Heq.
  eexists. split; [reflexivity|]. rewrite lookup_union.
  destruct ((am ∪ im) !! k); cbn; [by rewrite union_Some_l|by rewrite (left_id_L None (∪))].
Qed.

(** No wake-up is lost: while a writer waits there is an immutable table, and the
    flush goroutine is flushing exactly that table or has been signalled to. *)
Theorem manager_no_lost_wakeup coin n es s (Hrun : run coin es (init n) = Ok s)
    (Hb : blocked s <> []) :
  exists imm, immutable (mgr s) = Some imm /\
    (flushCh (mgr s) = true \/ exists last, fl s = Busy imm last).
Proof.
  destruct (mgr_run_inv coin es _ s (init_inv n) Hrun) as [_ Hbusy Htok Hbl]. specialize (Hbl Hb).
  specialize (Htok Hbl). destruct (immutable (mgr s)) as [imm|] eqn:Ei; [|done].
  exists imm. split; [done|]. destruct Htok as [|(imm' & last & Hf)]; [by left|right].
  exists last. specialize (Hbusy _ _ Hf). congruence.
Qed.

(** C30: after a flush the next writer makes progress: with a positive size limit and
    no immutable table, a writer with entries left writes at least one of them, and
    no step panics. *)
Theorem manager_progress coin n es s t (Hrun : run coin es (init n) = Ok s)
    (Hn : (0 < n)%Z) (Himm : immutable (mgr s) = None) (Ht : t.2 <> []) :
  exists s' e dn, run_task coin t s (ready s) = Ok s' /\ applied s' = applied s ++ e :: dn.
Proof.
  assert (msize (mgr s) = n) as Hsize by (by eapply run_msize).
  destruct (mgr_run_inv coin es _ s (init_inv n) Hrun) as [(am & im & fm & Hm & _) _ _ _].
  unfold run_task.
  destruct (write_entries_ok coin t.2 (mgr s) am im Hm) as (m' & rest & dn & -> & Hes & _ & _ & Hp).
  specialize (Hp Himm ltac:(lia) Ht). destruct dn as [|e dn]; [done|].
  eexists _, e, dn. split; [reflexivity|]. cbn [applied]. f_equal.
  rewrite Hes, length_app, take_app_length'; [done|lia].
Qed.

(** Only [Start] lets a blocked writer go on. *)
Lemma blocked_until_start coin es s s' t :
  started s = false -> (forall imm last, fl s <> Busy imm last) -> t ∈ blocked s ->
  Forall (fun e => e <> EStart) es -> run coin es s = Ok s' -> t ∈ blocked s'.
Proof.
  intros Hs Hf Ht Hes. revert s Hs Hf Ht. induction Hes as [|e es He Hes IH]; intros s Hs Hf Ht;
    cbn [run]; [by intros [= <-]|].
  destruct (step coin e s) as [s1| | |] eqn:E; try done.
  assert (forall t' ready', run_task coin t' s ready' = Ok s1 ->
    started s1 = false /\ (forall imm last, fl s1 <> Busy imm last) /\ t ∈ blocked s1) as Hrun.
  { intros t' ready'. unfold run_task. destruct (write_entries coin (mgr s) t'.2) as [[m rest]|[]| |];
      try done. cbn. intros [= <-]. cbn. split_and!; [done..|]. destruct rest; [done|].
    apply elem_of_app. by left. }
  enough (started s1 = false /\ (forall imm last, fl s1 <> Busy imm last) /\ t ∈ blocked s1)
    as (H1 & H2 & H3) by by apply IH.
  destruct e; cbn [step] in E; rewrite ?Hs in E; [by eapply Hrun| |..];
    repeat case_match; simplify_eq; try done; [by eapply Hrun|by edestruct Hf..].
Qed.

Definition put_entry (k : bytes) : BatchEntry := mkEntry OpPut k (Some (str "v")).

Definition three_puts : list BatchEntry := [put_entry (str "a"); put_entry (str "b"); put_entry (str "c")].

Lemma three_puts_block coin :
  exists m, write_entries coin (NewManager 1) three_puts = Ok (m, [put_entry (str "c")]).
Proof.
  assert (forall e, (e = put_entry (str "a") \/ e = put_entry (str "b")) ->
    exists mt, try_entry coin (NewMemTable 1) e = Ok mt /\ ShouldFlush mt = true) as Hfresh.
  { intros e [-> | ->]; (apply Put_fresh; [lia|vm_compute; reflexivity]). }
  destruct (Hfresh (put_entry (str "a"))) as (mt1 & E1 & S1); [by left|].
  destruct (Hfresh (put_entry (str "b"))) as (mt2 & E2 & S2); [by right|].
  exists (mkM mt2 (Some (Freeze mt1)) 1 true).
  assert (apply_one coin 2 (NewManager 1) (put_entry (str "a")) =
    Ok (mkM (NewMemTable 1) (Some (Freeze mt1)) 1 true, true)) as A1.
  { cbn [apply_one NewManager active]. rewrite E1. by rewrite S1. }
  assert (apply_one coin 2 (mkM (NewMemTable 1) (Some (Freeze mt1)) 1 true) (put_entry (str "b")) =
    Ok (mkM mt2 (Some (Freeze mt1)) 1 true, true)) as A2.
  { cbn [apply_one active]. rewrite E2. by rewrite S2. }
  assert (apply_one coin 2 (mkM mt2 (Some (Freeze mt1)) 1 true) (put_entry (str "c")) =
    Ok (mkM mt2 (Some (Freeze mt1)) 1 true, false)) as A3.
  { cbn [apply_one active]. unfold try_entry, memtable.Put. rewrite bool_decide_true by done.
    unfold ShouldFlush in S2. rewrite S2. by rewrite orb_true_r. }
  unfold three_puts. cbn [write_entries]. rewrite A1. cbn [mbind outcome_bind].
  rewrite A2. cbn [mbind outcome_bind]. by rewrite A3.
Qed.

(** A log that fills more than two memtables cannot be recovered: [Open] replays
    it ([ApplyRecoveredBatch]) before it starts the flush goroutine, so the replay
    waits for a flush that never happens.  Here every write fills a table and the
    third one waits, until a [Start] that comes only after the replay. *)
Theorem recovery_waits_for_ever coin :
  exists s t, run coin [EWrite 0 three_puts] (init 1) = Ok s /\ t ∈ blocked s /\ finished s = [] /\
    forall es s', Forall (fun e => e <> EStart) es -> run coin es s = Ok s' -> t ∈ blocked s'.
Proof.
  destruct (three_puts_block coin) as [m E].
  eexists _, (0%nat, [put_entry (str "c")]). split.
  { cbn [run step]. unfold run_task. cbn [mgr init snd]. rewrite E. reflexivity. }
  cbn [blocked finished]. split; [by left|]. split; [done|]. intros es s' Hes.
  by apply blocked_until_start; [..|left|].
Qed.

(** Without room in a fresh table no entry is ever written. *)
Lemma write_entries_no_room coin m es :
  full (active m) = true -> (msize m <= 0)%Z ->
  exists m', write_entries coin m es = Ok (m', es) /\ full (active m') = true /\ msize m' = msize m.
Proof.
  intros Hf Hn. destruct es as [|e es]; [by exists m|].
  assert (forall mt, full mt = true -> try_entry coin mt e = Err ErrMemTableFull) as Hfull.
  { intros mt Hmt. unfold try_entry, memtable.Put, memtable.Delete. unfold full, ShouldFlush in Hmt.
    rewrite Hmt. by case_bool_decide. }
  assert (full (NewMemTable (msize m)) = true) as Hnew by (unfold full, ShouldFlush; cbn; lia).
  cbn [write_entries apply_one]. rewrite Hfull by done. destruct (immutable m) as [imm|].
  - by exists m.
  - cbn [rotate active immutable]. rewrite Hfull by done. by exists (rotate m).
Qed.

(** With a size limit that is not positive no write ever returns: writers rotate
    empty tables and wait for ever, however many flushes succeed. *)
Theorem manager_zero_size_never_writes coin n es s (Hn : (n <= 0)%Z)
    (Hes : Forall (fun e => match e with EWrite _ es => es <> [] | _ => True end) es)
    (Hrun : run coin es (init n) = Ok s) :
  finished s = [] /\ applied s = [].
Proof.
  assert (forall s0, full (active (mgr s0)) = true -> (msize (mgr s0) <= 0)%Z ->
    Forall (fun t => t.2 <> []) (blocked s0 ++ ready s0) -> finished s0 = [] -> applied s0 = [] ->
    run coin es s0 = Ok s -> finished s = [] /\ applied s = []) as H.
  2:{ apply (H (init n)); try done. unfold full, ShouldFlush. cbn. lia. }
  clear Hrun. induction Hes as [|e es He Hes IH]; intros s0 Hf Hm Ht Hfin Happ; cbn [run].
  { by intros [= <-]. }
  apply Forall_app in Ht as [Hbl Hrd].
  assert (forall t ready' s1, t.2 <> [] -> Forall (fun t => t.2 <> []) ready' ->
    run_task coin t s0 ready' = Ok s1 -> run coin es s1 = Ok s -> finished s = [] /\ applied s = []) as Htask.
  { intros t ready' s1 Htn Hr. unfold run_task.
    destruct (write_entries_no_room coin (mgr s0) t.2 Hf Hm) as (m' & -> & Hf' & Hm').
    cbn. rewrite Nat.sub_diag. intros [= <-]. apply IH; cbn; try done.
    - by rewrite Hm'.
    - destruct t as [id [|x l]]; [done|]. cbn. rewrite !Forall_app. split; [split; [done|]|done].
      by apply Forall_singleton.
    - by destruct t.2.
    - by rewrite Happ. }
  destruct (step coin e s0) as [s1| | |] eqn:E; try done.
  intros Hr. destruct e as [id es0| | | | | | |]; cbn [step] in E.
  { by apply (Htask (id, es0) (ready s0) s1). }
  { destruct (ready s0) as [|t r]; [done|]. apply Forall_cons in Hrd as [? ?].
    by apply (Htask t r s1). }
  all: repeat case_match; simplify_eq; (eapply IH; [..|exact Hr]); cbn; try done;
    rewrite ?Forall_app; auto.
Qed.

(** ** Witnesses *)

Definition flat (n : nat) : bool := false.

Definition sample_events : list event := [EStart; EWrite 0 three_puts; ESignal; EFlushOk; EResume].

Definition sample_sys (n : nat) : sys :=
  match run flat (take n sample_events) (init 1) with Ok s => s | _ => init 1 end.

Lemma sample_sys_run (n : nat) :
  match run flat (take n sample_events) (init 1) with Ok _ => true | _ => false end = true ->
  run flat (take n sample_events) (init 1) = Ok (sample_sys n).
Proof. unfold sample_sys. by destruct (run flat (take n sample_events) (init 1)). Qed.

Lemma manager_no_lost_write_witness :
  exists fm, overlay (flushed (sample_sys 5)) fm /\ forall k, exists r, Get (mgr (sample_sys 5)) k = Ok r /\
    entries_map (applied (sample_sys 5)) ∅ !! k = if r.2 then Some r.1 else fm !! k.
Proof.
  apply (manager_no_lost_write flat 1 (take 5 sample_events)). apply sample_sys_run.
  vm_compute. reflexivity.
Defined.

Lemma manager_no_lost_wakeup_witness :
  exists imm, immutable (mgr (sample_sys 2)) = Some imm /\
    (flushCh (mgr (sample_sys 2)) = true \/ exists last, fl (sample_sys 2) = Busy imm last).
Proof.
  apply (manager_no_lost_wakeup flat 1 (take 2 sample_events)).
  - apply sample_sys_run. vm_compute. reflexivity.
  - vm_compute. discriminate.
Defined.

Lemma manager_progress_witness :
  exists s' e dn, run_task flat (0%nat, three_puts) (sample_sys 4) (ready (sample_sys 4)) = Ok s' /\
    applied s' = applied (sample_sys 4) ++ e :: dn.
Proof.
  apply (manager_progress flat 1 (take 4 sample_events)).
  - apply sample_sys_run. vm_compute. reflexivity.
  - lia.
  - vm_compute. reflexivity.
  - discriminate.
Defined.

Definition zero_events : list event := [EStart; EWrite 0 three_puts; ESignal; EFlushOk; EResume].

Definition zero_sys : sys := match run flat zero_events (init 0) with Ok s => s | _ => init 0 end.

Lemma manager_zero_size_never_writes_witness : finished zero_sys = [] /\ applied zero_sys = [].
Proof.
  apply (manager_zero_size_never_writes flat 0 zero_events).
  - lia.
  - repeat constructor; discriminate.
  - vm_compute. reflexivity.
Defined.
