(* ===== verification/Cache.v ===== *)
(** * Block cache (internal/sstable/cache.go)

    Four LRU shards.  A shard indexes the elements of a doubly linked list by file
    and offset; an element is a number, [elems] gives its item and [order] the list,
    front first.  A shard refines a list of blocks in the order of their use. *)

From S2P Require Import Prelude.

Module cache.

Definition NumShards : nat := 4.

Record cacheItem := mkItem { fileID : Z; offset : Z; data : bytes }.

Record cacheShard := mkShard {
  items : gmap Z (gmap Z nat);
  order : list nat;
  elems : gmap nat cacheItem;
  next_elem : nat;
  size : Z;
  cap : Z;
}.

Abbreviation BlockCache := (list cacheShard).

Definition NewShard (c : Z) : cacheShard := mkShard ∅ [] ∅ 0 0 c.

Definition NewBlockCache (capacityBytes : Z) : BlockCache :=
  let shardCap := Z.quot capacityBytes 4 in
  replicate NumShards (NewShard (if (shardCap <? 1)%Z then 1 else shardCap)).

Definition shard_index (fileID offset : Z) : nat :=
  Z.to_nat (Z.lxor fileID (u64 (offset * 2654435761)) mod 4).

Definition lookup_elem (s : cacheShard) (f o : Z) : option nat :=
  match items s !! f with Some fm => fm !! o | None => None end.

Definition elem_item (s : cacheShard) (id : nat) : outcome Empty_set cacheItem :=
  match elems s !! id with Some it => Ok it | None => Panic end.

Definition list_remove (id : nat) (l : list nat) : list nat := filter (fun x => x <> id) l.

Definition MoveToFront (id : nat) (s : cacheShard) : cacheShard :=
  mkShard (items s) (id :: list_remove id (order s)) (elems s) (next_elem s) (size s) (cap s).

Definition shard_Get (s : cacheShard) (f o : Z) : outcome Empty_set (cacheShard * option bytes) :=
  match lookup_elem s f o with
  | Some id => it ← elem_item s id; Ok (MoveToFront id s, Some (data it))
  | None => Ok (s, None)
  end.

(** [delete(shard.items[f], o)], and the file's map when it becomes empty. *)
Definition drop_index (f o : Z) (m : gmap Z (gmap Z nat)) : gmap Z (gmap Z nat) :=
  match m !! f with
  | Some fm => if bool_decide (delete o fm = ∅) then delete f m else <[f := delete o fm]> m
  | None => m
  end.

(** The eviction loop; an iteration removes an element. *)
Fixpoint evict (fuel : nat) (s : cacheShard) : outcome Empty_set cacheShard :=
  if (cap s <? size s)%Z then
    match last (order s) with
    | None => Ok s
    | Some back =>
        match fuel with
        | O => Fuel
        | S fuel =>
            it ← elem_item s back;
            evict fuel (mkShard (drop_index (fileID it) (offset it) (items s))
              (list_remove back (order s)) (delete back (elems s)) (next_elem s)
              (size s - len (data it)) (cap s))
        end
    end
  else Ok s.

Definition shard_Put (s : cacheShard) (f o : Z) (d : bytes) : outcome Empty_set cacheShard :=
  s ← match lookup_elem s f o with
      | Some id =>
          it ← elem_item s id;
          Ok (MoveToFront id (mkShard (items s) (order s) (<[id := mkItem (fileID it) (offset it) d]> (elems s))
                (next_elem s) (size s + (len d - len (data it))) (cap s)))
      | None =>
          let id := next_elem s in
          Ok (mkShard (<[f := <[o := id]> (default ∅ (items s !! f))]> (items s)) (id :: order s)
                (<[id := mkItem f o d]> (elems s)) (S id) (size s + len d) (cap s))
      end;
  evict (length (order s)) s.

(** The elements of the file, in some order. *)
Definition shard_RemoveFile (s : cacheShard) (f : Z) : outcome Empty_set cacheShard :=
  match items s !! f with
  | None => Ok s
  | Some fm =>
      s ← foldl (fun acc id =>
            s ← acc;
            it ← elem_item s id;
            Ok (mkShard (items s) (list_remove id (order s)) (delete id (elems s)) (next_elem s)
                  (size s - len (data it)) (cap s))) (Ok s) (map_to_list fm).*2;
      Ok (mkShard (delete f (items s)) (order s) (elems s) (next_elem s) (size s) (cap s))
  end.

(** ** The cache *)

Definition Get (c : BlockCache) (f o : Z) : outcome Empty_set (BlockCache * option bytes) :=
  match c !! shard_index f o with
  | Some s => x ← shard_Get s f o; Ok (<[shard_index f o := x.1]> c, x.2)
  | None => Panic
  end.

Definition Put (c : BlockCache) (f o : Z) (d : bytes) : outcome Empty_set BlockCache :=
  match c !! shard_index f o with
  | Some s => s ← shard_Put s f o d; Ok (<[shard_index f o := s]> c)
  | None => Panic
  end.

Fixpoint RemoveFile (c : BlockCache) (f : Z) : outcome Empty_set BlockCache :=
  match c with
  | [] => Ok []
  | s :: c => s ← shard_RemoveFile s f; c ← RemoveFile c f; Ok (s :: c)
  end.

End cache.
Import cache.

(** ** The specification: blocks in the order of their use *)

Abbreviation block := (Z * Z * bytes)%type.

Definition at_key (f o : Z) (b : block) : Prop := b.1 = (f, o).
#[export] Instance at_key_dec f o b : Decision (at_key f o b).
Proof. unfold at_key. apply _. Defined.

Definition lru_find (f o : Z) (l : list block) : option bytes :=
  snd <$> List.find (fun b => bool_decide (at_key f o b)) l.

Definition lru_others (f o : Z) (l : list block) : list block := filter (fun b => ~ at_key f o b) l.

Definition lru_get (f o : Z) (l : list block) : list block :=
  match lru_find f o l with
  | Some d => (f, o, d) :: lru_others f o l
  | None => l
  end.

Definition lru_total (l : list block) : Z := foldr (fun b z => len b.2 + z)%Z 0%Z l.

(** The longest prefix that fits: blocks leave from the back. *)
Fixpoint lru_fit (fuel : nat) (c : Z) (l : list block) : list block :=
  match fuel with
  | O => l
  | S fuel => if (c <? lru_total l)%Z then lru_fit fuel c (removelast l) else l
  end.

Definition lru_put (c : Z) (f o : Z) (d : bytes) (l : list block) : list block :=
  let l := (f, o, d) :: lru_others f o l in lru_fit (length l) c l.

Definition lru_drop_file (f : Z) (l : list block) : list block := filter (fun b => b.1.1 <> f) l.

(** ** The abstraction *)

Definition block_of (it : cacheItem) : block := (fileID it, offset it, data it).

Definition blks (E : gmap nat cacheItem) (ord : list nat) : list block :=
  omap (fun id => block_of <$> E !! id) ord.

Definition blocks (s : cacheShard) : list block := blks (elems s) (order s).

(** The list and its elements agree, and the size is right. *)
Record list_ok (s : cacheShard) : Prop := {
  lo_nodup : NoDup (order s);
  lo_elems : forall id, id ∈ order s <-> is_Some (elems s !! id);
  lo_size : size s = lru_total (blocks s);
}.

Record shard_inv (s : cacheShard) : Prop := {
  si_list : list_ok s;
  si_index : forall f o id, lookup_elem s f o = Some id <-> exists d, elems s !! id = Some (mkItem f o d);
  si_fresh : forall id, (next_elem s <= id)%nat -> elems s !! id = None;
}.

Lemma blks_ext E E' ord : (forall x, x ∈ ord -> E' !! x = E !! x) -> blks E' ord = blks E ord.
Proof.
  intros H. induction ord as [|x ord IH]; [done|]. cbn. rewrite H by left.
  destruct (E !! x); cbn; [f_equal|]; apply IH; intros y Hy; apply H; by right.
Qed.

Lemma blks_length E ord :
  (forall x, x ∈ ord -> is_Some (E !! x)) -> length (blks E ord) = length ord.
Proof.
  intros H. induction ord as [|x ord IH]; [done|]. cbn. destruct (H x) as [it ->]; [left|]. cbn.
  f_equal. apply IH. intros y Hy. apply H. by right.
Qed.

Lemma blks_cons E x ord :
  blks E (x :: ord) = match E !! x with Some it => block_of it :: blks E ord | None => blks E ord end.
Proof. cbn. by destruct (E !! x). Qed.

Lemma remove_not_in (id : nat) ord : id ∉ ord -> list_remove id ord = ord.
Proof.
  unfold list_remove. intros Hni. induction ord as [|y ord IH]; [done|].
  rewrite filter_cons_True by set_solver. f_equal. apply IH. set_solver.
Qed.

(** The element with the key [(f, o)] taken out. *)
Lemma blks_remove E ord id f o d :
  (forall x it, x ∈ ord -> E !! x = Some it -> fileID it = f -> offset it = o -> x = id) ->
  (id ∈ ord -> E !! id = Some (mkItem f o d)) ->
  blks E (list_remove id ord) = lru_others f o (blks E ord).
Proof.
  unfold list_remove, lru_others. induction ord as [|x ord IH]; intros Huniq Hid; [done|].
  assert (blks E (filter (fun y => y <> id) ord) = filter (fun b => ~ at_key f o b) (blks E ord)) as IH'.
  { apply IH; [|set_solver]. intros y it Hy. apply Huniq. by right. }
  destruct (decide (x = id)) as [->|Hne].
  - rewrite filter_cons_False by auto. rewrite blks_cons, Hid by left.
    rewrite filter_cons_False by (unfold at_key; cbn; auto). done.
  - rewrite filter_cons_True by done. rewrite !blks_cons.
    destruct (E !! x) as [it|] eqn:Ex; [|done]. rewrite filter_cons_True; [by f_equal|].
    unfold at_key. cbn. intros [= Hf Ho]. apply Hne. by apply (Huniq x it); [left|..].
Qed.

Lemma total_others E ord id it :
  NoDup ord -> id ∈ ord -> E !! id = Some it ->
  lru_total (blks E ord) = (len (data it) + lru_total (blks E (list_remove id ord)))%Z.
Proof.
  induction ord as [|x ord IH]; intros Hnd Hin Hid; [by apply elem_of_nil in Hin|].
  apply NoDup_cons in Hnd as [Hni Hnd]. unfold list_remove. rewrite blks_cons.
  destruct (decide (x = id)) as [->|Hne].
  - rewrite Hid, filter_cons_False by auto. fold (list_remove id ord). by rewrite remove_not_in.
  - apply elem_of_cons in Hin as [?|Hin]; [congruence|].
    rewrite filter_cons_True by done. fold (list_remove id ord). rewrite blks_cons.
    specialize (IH Hnd Hin Hid). destruct (E !! x) as [itx|]; [|done].
    change (lru_total (?b :: ?l)) with (len b.2 + lru_total l)%Z. lia.
Qed.

Lemma lru_find_elem s f o :
  shard_inv s -> lru_find f o (blocks s) =
  match lookup_elem s f o with Some id => data <$> elems s !! id | None => None end.
Proof.
  intros [[Hnd Hel _] Hix _].
  assert (forall ord, (forall x, x ∈ ord -> is_Some (elems s !! x)) ->
    match lookup_elem s f o with Some id => id ∈ ord | None => True end ->
    lru_find f o (blks (elems s) ord) =
    match lookup_elem s f o with Some id => data <$> elems s !! id | None => None end) as H.
  { induction ord as [|x ord IH]; intros Hs Hin.
    { cbn. destruct (lookup_elem s f o); [by apply elem_of_nil in Hin|done]. }
    destruct (Hs x) as [[fx ox dx] Ex]; [left|]. unfold lru_find, blks. cbn [omap list_omap]. rewrite Ex.
    cbn [fmap option_fmap option_map List.find block_of fileID offset data].
    fold (blks (elems s) ord). case_bool_decide as Hk.
    - unfold at_key in Hk. cbn in Hk. injection Hk as -> ->.
      assert (lookup_elem s f o = Some x) as -> by (apply Hix; by exists dx). by rewrite Ex.
    - apply IH; [intros y Hy; apply Hs; by right|].
      destruct (lookup_elem s f o) as [id|] eqn:El; [|done].
      apply elem_of_cons in Hin as [->|]; [|done]. apply Hix in El as [d Ed]. rewrite Ex in Ed.
      injection Ed as -> -> ->. by destruct Hk. }
  apply H; [intros x; apply Hel|]. destruct (lookup_elem s f o) as [id|] eqn:El; [|done].
  apply Hel. apply Hix in El as [d ->]. by eexists.
Qed.

(** ** Lookup *)

(** Two elements with one key are the same. *)
Lemma key_unique s x y f o d d' :
  shard_inv s -> elems s !! x = Some (mkItem f o d) -> elems s !! y = Some (mkItem f o d') -> x = y.
Proof.
  intros [_ Hix _] Hx Hy. assert (lookup_elem s f o = Some x) as E by (apply Hix; by exists d).
  assert (lookup_elem s f o = Some y) as E' by (apply Hix; by exists d'). congruence.
Qed.

Lemma blocks_remove s id f o d :
  shard_inv s -> elems s !! id = Some (mkItem f o d) ->
  blks (elems s) (list_remove id (order s)) = lru_others f o (blocks s).
Proof.
  intros Hinv Hid. apply (blks_remove _ _ _ _ _ d); [|done].
  intros x [fx ox dx] _ Hx. cbn. intros -> ->. by eapply key_unique.
Qed.

Lemma elem_of_remove id x ord : x ∈ list_remove id ord <-> x <> id /\ x ∈ ord.
Proof. unfold list_remove. by rewrite list_elem_of_filter. Qed.

Lemma NoDup_remove id ord : NoDup ord -> NoDup (list_remove id ord).
Proof. intros H. by apply NoDup_filter. Qed.

Lemma MoveToFront_list_ok s id :
  list_ok s -> id ∈ order s -> list_ok (MoveToFront id s).
Proof.
  intros [Hnd Hel Hsz] Hin. split; cbn [order elems size MoveToFront].
  - apply NoDup_cons. split; [|by apply NoDup_remove]. by intros [? _]%elem_of_remove.
  - intros x. rewrite elem_of_cons, elem_of_remove, <- Hel. destruct (decide (x = id)); naive_solver.
  - rewrite Hsz. unfold blocks. cbn [order elems MoveToFront]. rewrite blks_cons.
    apply Hel in Hin as Hs. destruct Hs as [it Hit]. rewrite Hit.
    rewrite (total_others _ _ id it Hnd Hin Hit). done.
Qed.

Lemma shard_Get_ok s f o :
  shard_inv s ->
  exists s', shard_Get s f o = Ok (s', lru_find f o (blocks s)) /\ shard_inv s' /\
    blocks s' = lru_get f o (blocks s) /\ cap s' = cap s /\ size s' = size s.
Proof.
  intros Hinv. unfold shard_Get, lru_get. rewrite (lru_find_elem s f o Hinv).
  destruct (lookup_elem s f o) as [id|] eqn:El; [|by exists s].
  pose proof Hinv as [Hl Hix Hfr]. apply Hix in El as [d Hd].
  unfold elem_item. rewrite Hd. cbn. eexists. split; [done|]. split; [|split; [|done]].
  - split; [|done..]. apply MoveToFront_list_ok; [done|]. apply Hl. by eexists.
  - unfold blocks at 1. cbn [MoveToFront order elems]. rewrite blks_cons, Hd.
    by rewrite (blocks_remove s id f o d Hinv Hd).
Qed.

(** ** Eviction *)

Lemma last_remove (ord : list nat) x : NoDup ord -> last ord = Some x ->
  ord = list_remove x ord ++ [x].
Proof.
  intros Hnd Hl. apply last_Some in Hl as [l ->]. apply NoDup_app in Hnd as (_ & Hd & _).
  unfold list_remove. rewrite filter_app, filter_cons_False by auto. rewrite filter_nil, app_nil_r.
  f_equal. symmetry. apply remove_not_in. intros Hx. apply (Hd x Hx). left.
Qed.

Lemma lookup_drop_index f o m f' o' :
  match drop_index f o m !! f' with Some fm => fm !! o' | None => None end =
  if decide (f' = f /\ o' = o) then None
  else match m !! f' with Some fm => fm !! o' | None => None end.
Proof.
  unfold drop_index. destruct (m !! f) as [fm|] eqn:Em.
  2:{ case_decide as H; [|done]. destruct H as [-> ->]. by rewrite Em. }
  destruct (decide (f' = f)) as [->|Hne].
  - rewrite Em. case_bool_decide as He.
    + rewrite lookup_delete_eq. destruct (decide (o' = o)) as [->|Ho]; case_decide; try done; [naive_solver|].
      rewrite <- (lookup_delete_ne fm o o') by done. by rewrite He.
    + rewrite lookup_insert_eq. destruct (decide (o' = o)) as [->|Ho]; case_decide; try done.
      * apply lookup_delete_eq.
      * naive_solver.
      * naive_solver.
      * by apply lookup_delete_ne.
  - rewrite decide_False by naive_solver.
    case_bool_decide; [by rewrite lookup_delete_ne|by rewrite lookup_insert_ne].
Qed.

(** The element at the back taken out. *)
Lemma evict_one s back it :
  shard_inv s -> last (order s) = Some back -> elems s !! back = Some it ->
  let s' := mkShard (drop_index (fileID it) (offset it) (items s)) (list_remove back (order s))
    (delete back (elems s)) (next_elem s) (size s - len (data it)) (cap s) in
  shard_inv s' /\ blocks s' = removelast (blocks s).
Proof.
  intros Hinv Hl Hb s'. pose proof Hinv as [[Hnd Hel Hsz] Hix Hfr]. destruct it as [f o d].
  pose proof (last_remove _ _ Hnd Hl) as Hord. cbn [fileID offset data] in *.
  assert (back ∈ order s) as Hin by (rewrite Hord; set_solver).
  assert (blocks s' = blks (elems s) (list_remove back (order s))) as Hbl.
  { apply blks_ext. intros x [Hx _]%elem_of_remove. by apply lookup_delete_ne. }
  split; [split|].
  - split.
    + by apply NoDup_remove.
    + intros x. cbn [order elems s']. rewrite elem_of_remove, Hel. rewrite lookup_delete_is_Some. naive_solver.
    + rewrite Hbl. cbn [size s']. rewrite Hsz. unfold blocks. rewrite (total_others _ _ _ _ Hnd Hin Hb). cbn [data]. lia.
  - intros f' o' id. unfold lookup_elem. cbn [items s' elems]. rewrite lookup_drop_index.
    fold (lookup_elem s f' o'). case_decide as Hk.
    + destruct Hk as [-> ->]. split; [done|]. intros [d' [Hne Hd']%lookup_delete_Some].
      destruct Hne. by eapply key_unique.
    + rewrite Hix. split; intros [d' Hd']; exists d'.
      * rewrite lookup_delete_ne; [done|]. intros <-. rewrite Hb in Hd'. naive_solver.
      * by apply lookup_delete_Some in Hd' as [_ ?].
  - intros id Hid. cbn in *. rewrite lookup_delete_None. right. auto.
  - rewrite Hbl. unfold blocks. rewrite Hord at 2. unfold blks at 2. rewrite omap_app. cbn. rewrite Hb.
    cbn. by rewrite removelast_last.
Qed.

Lemma evict_ok fuel s :
  shard_inv s -> fuel = length (order s) ->
  exists s', evict fuel s = Ok s' /\ shard_inv s' /\ cap s' = cap s /\
    blocks s' = lru_fit fuel (cap s) (blocks s) /\ (0 <= cap s -> size s' <= cap s)%Z.
Proof.
  revert s. induction fuel as [|fuel IH]; intros s Hinv Hf; pose proof Hinv as [[Hnd Hel Hsz] _ _];
    cbn [evict lru_fit]; rewrite <- ?Hsz.
  - destruct (order s) as [|] eqn:Eo; [|done].
    assert (size s = 0%Z) as Hz by (rewrite Hsz; unfold blocks; by rewrite Eo).
    destruct (Z.ltb_spec (cap s) (size s)); eexists; (split; [done|]); split_and!; try done; lia.
  - destruct (Z.ltb_spec (cap s) (size s)) as [Hlt|Hge].
    2:{ exists s. split_and!; try done; lia. }
    destruct (last (order s)) as [back|] eqn:El; [|by apply last_None in El; rewrite El in Hf].
    assert (back ∈ order s) as Hin by (rewrite (last_remove _ _ Hnd El); set_solver).
    apply Hel in Hin as [it Hit]. unfold elem_item. rewrite Hit. cbn [mbind outcome_bind].
    destruct (evict_one s back it Hinv El Hit) as [Hinv' Hbl].
    destruct (IH _ Hinv') as (s' & -> & H1 & H2 & H3 & H4).
    { cbn [order]. pose proof (last_remove _ _ Hnd El) as E. apply (f_equal length) in E.
      rewrite length_app in E. cbn in E. lia. }
    exists s'. rewrite <- Hbl. done.
Qed.

(** ** Insertion *)

(** A new element at the front. *)
Lemma push_inv s f o d :
  shard_inv s -> lookup_elem s f o = None ->
  let s' := mkShard (<[f := <[o := next_elem s]> (default ∅ (items s !! f))]> (items s))
    (next_elem s :: order s) (<[next_elem s := mkItem f o d]> (elems s)) (S (next_elem s))
    (size s + len d) (cap s) in
  shard_inv s' /\ blocks s' = (f, o, d) :: lru_others f o (blocks s).
Proof.
  intros Hinv Hnone s'. pose proof Hinv as [[Hnd Hel Hsz] Hix Hfr]. set (n := next_elem s) in *.
  assert (n ∉ order s) as Hn. { rewrite Hel, Hfr by done. by intros [? ?]. }
  assert (forall x, x ∈ order s -> elems s' !! x = elems s !! x) as Hsame.
  { intros x Hx. apply lookup_insert_ne. by intros ->. }
  assert (blocks s' = (f, o, d) :: blocks s) as Hbl.
  { unfold blocks at 1. cbn [order s']. rewrite blks_cons. cbn [elems s'].
    rewrite lookup_insert_eq. cbn. f_equal. by apply blks_ext. }
  split; [split|].
  - split.
    + apply NoDup_cons. done.
    + intros x. cbn [order elems s']. rewrite elem_of_cons, Hel.
      destruct (decide (x = n)) as [->|Hne].
      * rewrite lookup_insert_eq. naive_solver.
      * rewrite lookup_insert_ne by done. naive_solver.
    + rewrite Hbl. cbn [size s']. rewrite Hsz. cbn. fold (lru_total (blocks s)). lia.
  - intros f' o' id. unfold lookup_elem. cbn [items elems s'].
    assert (match <[f:=<[o:=n]> (default ∅ (items s !! f))]> (items s) !! f' with
            | Some fm => fm !! o' | None => None end =
            if decide (f' = f /\ o' = o) then Some n else lookup_elem s f' o') as ->.
    { unfold lookup_elem. destruct (decide (f' = f)) as [->|Hf].
      - rewrite lookup_insert_eq. destruct (decide (o' = o)) as [->|Ho].
        + by rewrite lookup_insert_eq, decide_True.
        + rewrite lookup_insert_ne, decide_False by naive_solver. by destruct (items s !! f).
      - rewrite lookup_insert_ne, decide_False by naive_solver. done. }
    case_decide as Hk.
    + destruct Hk as [-> ->]. split.
      * intros [= <-]. exists d. apply lookup_insert_eq.
      * intros [d' [[-> _]|[_ Hd']]%lookup_insert_Some]; [done|].
        assert (lookup_elem s f o = Some id) by (apply Hix; by exists d'). congruence.
    + rewrite Hix. split; intros [d' Hd']; exists d'.
      * rewrite lookup_insert_ne; [done|]. intros <-. by rewrite Hfr in Hd'.
      * apply lookup_insert_Some in Hd' as [[_ ?]|[_ ?]]; naive_solver.
  - intros id Hid. cbn [next_elem elems s'] in *. rewrite lookup_insert_ne by lia. apply Hfr. lia.
  - rewrite Hbl. f_equal. symmetry. unfold lru_others. apply filter_true, Forall_forall. intros [[f' o'] d'] Hb.
    unfold at_key. cbn. intros [= -> ->]. unfold blocks, blks in Hb.
    apply list_elem_of_omap in Hb as (x & Hx & Hbx). destruct (elems s !! x) as [[? ? ?]|] eqn:Ex; [|done].
    cbn in Hbx. injection Hbx as -> -> ->.
    assert (lookup_elem s f o = Some x) by (apply Hix; by exists d'). congruence.
Qed.

(** New data for an element, which moves to the front. *)
Lemma touch_inv s id f o d it :
  shard_inv s -> lookup_elem s f o = Some id -> elems s !! id = Some it ->
  let s' := MoveToFront id (mkShard (items s) (order s) (<[id := mkItem (fileID it) (offset it) d]> (elems s))
    (next_elem s) (size s + (len d - len (data it))) (cap s)) in
  shard_inv s' /\ blocks s' = (f, o, d) :: lru_others f o (blocks s).
Proof.
  intros Hinv Hl Hit s'. pose proof Hinv as [[Hnd Hel Hsz] Hix Hfr].
  assert (exists d0, it = mkItem f o d0) as [d0 ->].
  { apply Hix in Hl as [d0 Hd0]. exists d0. congruence. }
  cbn [fileID offset data] in *.
  assert (id ∈ order s) as Hin by (apply Hel; by eexists).
  assert (blocks s' = (f, o, d) :: lru_others f o (blocks s)) as Hbl.
  { rewrite <- (blocks_remove s id f o d0 Hinv Hit). unfold blocks at 1, s'. cbn [order elems MoveToFront].
    rewrite blks_cons, lookup_insert_eq. cbn. f_equal. apply blks_ext.
    intros x [Hx _]%elem_of_remove. by apply lookup_insert_ne. }
  split; [split|done].
  - split.
    + apply NoDup_cons. split; [by intros [? _]%elem_of_remove|by apply NoDup_remove].
    + intros x. cbn [order elems s' MoveToFront]. rewrite elem_of_cons, elem_of_remove, Hel.
      destruct (decide (x = id)) as [->|Hne].
      * rewrite lookup_insert_eq. naive_solver.
      * rewrite lookup_insert_ne by done. naive_solver.
    + rewrite Hbl. cbn [size s' MoveToFront]. rewrite Hsz. unfold blocks at 1.
      rewrite (total_others _ _ id _ Hnd Hin Hit), (blocks_remove s id f o d0 Hinv Hit). cbn [data].
      change (lru_total (?b :: ?l)) with (len b.2 + lru_total l)%Z. cbn [snd]. lia.
  - intros f' o' x. change (lookup_elem s' f' o') with (lookup_elem s f' o'). rewrite Hix.
    cbn [elems s' MoveToFront]. destruct (decide (x = id)) as [->|Hne].
    + rewrite lookup_insert_eq, Hit. naive_solver.
    + by rewrite lookup_insert_ne.
  - intros x Hx. cbn [next_elem elems s' MoveToFront] in *. rewrite lookup_insert_ne; [auto|].
    intros <-. by rewrite Hfr in Hit.
Qed.

Lemma shard_Put_ok s f o d :
  shard_inv s ->
  exists s', shard_Put s f o d = Ok s' /\ shard_inv s' /\ cap s' = cap s /\
    blocks s' = lru_put (cap s) f o d (blocks s) /\ (0 <= cap s -> size s' <= cap s)%Z.
Proof.
  intros Hinv. unfold shard_Put, lru_put.
  assert (exists s1, match lookup_elem s f o with
      | Some id => it ← elem_item s id;
          Ok (MoveToFront id (mkShard (items s) (order s) (<[id := mkItem (fileID it) (offset it) d]> (elems s))
                (next_elem s) (size s + (len d - len (data it))) (cap s)))
      | None => Ok (mkShard (<[f := <[o := next_elem s]> (default ∅ (items s !! f))]> (items s))
                (next_elem s :: order s) (<[next_elem s := mkItem f o d]> (elems s)) (S (next_elem s))
                (size s + len d) (cap s))
      end = Ok s1 /\ shard_inv s1 /\ blocks s1 = (f, o, d) :: lru_others f o (blocks s) /\ cap s1 = cap s)
    as (s1 & -> & Hinv1 & Hbl & Hcap).
  { destruct (lookup_elem s f o) as [id|] eqn:El.
    - pose proof El as [d0 Hd0]%(si_index _ Hinv). unfold elem_item. rewrite Hd0.
      destruct (touch_inv s id f o d _ Hinv El Hd0) as [H1 H2]. eexists. split; [reflexivity|]. done.
    - destruct (push_inv s f o d Hinv El) as [H1 H2]. eexists. split; [reflexivity|]. done. }
  cbn [mbind outcome_bind]. destruct (evict_ok _ s1 Hinv1 eq_refl) as (s2 & -> & H1 & H2 & H3 & H4).
  rewrite Hcap in *. exists s2. split_and!; [done..| |done]. rewrite H3, <- Hbl. f_equal.
  symmetry. apply blks_length. intros x. apply Hinv1.
Qed.

(** ** Removing a file *)

(** One step of the loop over the file's elements. *)
Definition remove_elem (acc : outcome Empty_set cacheShard) (id : nat) : outcome Empty_set cacheShard :=
  s ← acc;
  it ← elem_item s id;
  Ok (mkShard (items s) (list_remove id (order s)) (delete id (elems s)) (next_elem s)
        (size s - len (data it)) (cap s)).

Lemma remove_all L s :
  list_ok s -> NoDup L -> (forall id, id ∈ L -> id ∈ order s) ->
  exists s', foldl remove_elem (Ok s) L = Ok s' /\ list_ok s' /\
    items s' = items s /\ next_elem s' = next_elem s /\ cap s' = cap s /\
    order s' = filter (fun x => x ∉ L) (order s) /\
    (forall x, elems s' !! x = if decide (x ∈ L) then None else elems s !! x).
Proof.
  revert s. induction L as [|id L IH]; intros s Hok HL Hin; cbn [foldl].
  { exists s. split_and!; try done. symmetry. apply filter_true, Forall_forall. by intros x _ ?%elem_of_nil. }
  apply NoDup_cons in HL as [Hni HL]. pose proof Hok as [Hnd Hel Hsz].
  assert (id ∈ order s) as Hid by (apply Hin; left). pose proof Hid as [it Hit]%Hel.
  unfold remove_elem at 2, elem_item. cbn [mbind outcome_bind]. rewrite Hit. cbn [mbind outcome_bind].
  set (s1 := mkShard _ _ _ _ _ _).
  assert (blocks s1 = blks (elems s) (list_remove id (order s))) as Hbl.
  { apply blks_ext. intros x [Hx _]%elem_of_remove. by apply lookup_delete_ne. }
  destruct (IH s1) as (s2 & E & Hok2 & H1 & H2 & H3 & H4 & H5).
  - split.
    + by apply NoDup_remove.
    + intros x. cbn [order elems s1]. rewrite elem_of_remove, Hel, lookup_delete_is_Some. naive_solver.
    + rewrite Hbl. cbn [size s1]. rewrite Hsz. unfold blocks. rewrite (total_others _ _ _ _ Hnd Hid Hit). lia.
  - done.
  - intros x Hx. apply elem_of_remove. split; [by intros ->|]. apply Hin. by right.
  - exists s2. split_and!; try done.
    + rewrite H4. cbn [order s1]. unfold list_remove. rewrite list_filter_filter.
      apply list_filter_iff. set_solver.
    + intros x. rewrite H5. cbn [elems s1]. destruct (decide (x = id)) as [->|Hne].
      * rewrite lookup_delete_eq, (decide_True (P := id ∈ id :: L)) by left. by case_decide.
      * rewrite lookup_delete_ne by done. by repeat case_decide; set_solver.
Qed.

(** The blocks of the elements outside [L], which are those of the file. *)
Lemma blks_drop_file E E' ord (L : list nat) f :
  (forall x, x ∈ ord -> is_Some (E !! x)) ->
  (forall x it, x ∈ ord -> E !! x = Some it -> x ∈ L <-> fileID it = f) ->
  (forall x, E' !! x = if decide (x ∈ L) then None else E !! x) ->
  blks E' (filter (fun x => x ∉ L) ord) = lru_drop_file f (blks E ord).
Proof.
  intros Hs HL HE. rewrite (blks_ext E).
  2:{ intros x [Hx _]%list_elem_of_filter. by rewrite HE, decide_False. }
  unfold lru_drop_file. induction ord as [|x ord IH]; [done|].
  rewrite blks_cons. destruct (Hs x) as [it Hit]; [left|]. rewrite Hit.
  assert (blks E (filter (fun x => x ∉ L) ord) = filter (fun b => b.1.1 <> f) (blks E ord)) as IH'.
  { apply IH; intros y; [intros Hy; apply Hs; by right|intros ity Hy; apply HL; by right]. }
  pose proof (HL x it ltac:(left) Hit) as Hx. destruct (decide (x ∈ L)) as [Hin|Hout].
  - rewrite !filter_cons_False; [done|cbn; naive_solver|naive_solver].
  - rewrite !filter_cons_True; [|cbn; naive_solver|done]. rewrite blks_cons, Hit. by f_equal.
Qed.

Lemma shard_RemoveFile_ok s f :
  shard_inv s ->
  exists s', shard_RemoveFile s f = Ok s' /\ shard_inv s' /\ cap s' = cap s /\
    blocks s' = lru_drop_file f (blocks s).
Proof.
  intros Hinv. pose proof Hinv as [Hok Hix Hfr]. unfold shard_RemoveFile.
  assert (forall x it, elems s !! x = Some it ->
    (exists o fm, items s !! f = Some fm /\ fm !! o = Some x) <-> fileID it = f) as Hfile.
  { intros x [fx ox dx] Hx. cbn. split.
    - intros (o & fm & Hf & Ho). assert (lookup_elem s f o = Some x) as Hl by (unfold lookup_elem; by rewrite Hf).
      apply Hix in Hl as [d Hd]. congruence.
    - intros <-. assert (lookup_elem s fx ox = Some x) as Hl by (apply Hix; by exists dx).
      unfold lookup_elem in Hl. destruct (items s !! fx) as [fm|] eqn:Ef; [|done]. by exists ox, fm. }
  destruct (items s !! f) as [fm|] eqn:Ef.
  2:{ exists s. split_and!; try done. symmetry. apply filter_true, Forall_forall.
      intros b Hb. unfold blocks, blks in Hb. apply list_elem_of_omap in Hb as (x & _ & Hb).
      destruct (elems s !! x) as [it|] eqn:Ex; [|done]. injection Hb as <-. cbn. intros Hf.
      apply (Hfile x it Ex) in Hf as (o & fm & ? & _). congruence. }
  set (L := (map_to_list fm).*2).
  assert (forall x, x ∈ L <-> exists o, fm !! o = Some x) as HL.
  { intros x. unfold L. rewrite list_elem_of_fmap. split.
    - intros ([o y] & -> & Hm%elem_of_map_to_list). by exists o.
    - intros [o Ho]. exists (o, x). split; [done|]. by apply elem_of_map_to_list. }
  assert (forall o x, fm !! o = Some x -> exists d, elems s !! x = Some (mkItem f o d)) as Hfm.
  { intros o x Hx. apply Hix. unfold lookup_elem. by rewrite Ef. }
  destruct (remove_all L s Hok) as (s1 & E & Hok1 & H1 & H2 & H3 & H4 & H5).
  { apply NoDup_fmap_2_strong; [|apply NoDup_map_to_list].
    intros [o1 x1] [o2 x2] Hx1%elem_of_map_to_list Hx2%elem_of_map_to_list. cbn. intros ->.
    destruct (Hfm _ _ Hx1) as [? E1], (Hfm _ _ Hx2) as [? E2]. rewrite E1 in E2. congruence. }
  { intros x [o Ho]%HL. apply Hok. destruct (Hfm _ _ Ho) as [d ->]. by eexists. }
  change (foldl _ _ _) with (foldl remove_elem (Ok s) L). rewrite E. cbn [mbind outcome_bind].
  assert (forall x it, elems s !! x = Some it -> x ∈ L <-> fileID it = f) as HLf.
  { intros x it Hx. rewrite HL, <- (Hfile x it Hx). naive_solver. }
  eexists. split; [reflexivity|]. split; [|split; [done|]].
  - split; [split; apply Hok1|..].
    + intros f' o id. unfold lookup_elem. cbn [items elems]. rewrite H1, H5.
      destruct (decide (f' = f)) as [->|Hne].
      * rewrite lookup_delete_eq. split; [done|]. intros [d Hd]. case_decide as Hd'; [done|].
        destruct Hd'. by apply (HLf _ _ Hd).
      * rewrite lookup_delete_ne by done. fold (lookup_elem s f' o). rewrite Hix.
        split; intros [d Hd]; exists d; case_decide as Hin; try done. by apply (HLf _ _ Hd) in Hin.
    + intros id Hid. cbn [next_elem elems] in *. rewrite H5. case_decide; [done|]. apply Hfr. by rewrite <- H2.
  - unfold blocks at 1. cbn [order elems]. rewrite H4. apply blks_drop_file; [|eauto|done].
    intros x Hx. by apply Hok.
Qed.

(** ** The whole cache *)

Inductive cache_op := CGet (f o : Z) | CPut (f o : Z) (d : bytes) | CRemove (f : Z).

Definition cache_step (c : BlockCache) (op : cache_op) : outcome Empty_set BlockCache :=
  match op with
  | CGet f o => x ← Get c f o; Ok x.1
  | CPut f o d => Put c f o d
  | CRemove f => RemoveFile c f
  end.

Fixpoint cache_run (ops : list cache_op) (c : BlockCache) : outcome Empty_set BlockCache :=
  match ops with
  | [] => Ok c
  | op :: ops => c ← cache_step c op; cache_run ops c
  end.

(** The data put last for each block of the files that were not removed since. *)
Definition history_step (h : gmap (Z * Z) bytes) (op : cache_op) : gmap (Z * Z) bytes :=
  match op with
  | CGet _ _ => h
  | CPut f o d => <[(f, o) := d]> h
  | CRemove f => filter (fun x => x.1.1 <> f) h
  end.

Definition history (ops : list cache_op) : gmap (Z * Z) bytes := foldl history_step ∅ ops.

Record cache_ok (c : BlockCache) (h : gmap (Z * Z) bytes) : Prop := {
  co_len : length c = NumShards;
  co_shard : forall i s, c !! i = Some s -> shard_inv s /\ (1 <= cap s)%Z /\ (size s <= cap s)%Z /\
    forall f o d, (f, o, d) ∈ blocks s -> shard_index f o = i /\ h !! (f, o) = Some d;
}.

Lemma shard_index_lt f o : (shard_index f o < NumShards)%nat.
Proof.
  unfold shard_index, NumShards. pose proof (Z.mod_pos_bound (Z.lxor f (u64 (o * 2654435761))) 4). lia.
Qed.

Lemma lru_find_Some f o d l : lru_find f o l = Some d -> (f, o, d) ∈ l.
Proof.
  unfold lru_find. destruct (List.find _ l) as [[k d']|] eqn:E; [|done]. cbn. intros [= ->].
  apply find_some in E as [Hin Hk]. apply bool_decide_eq_true in Hk. unfold at_key in Hk. cbn in Hk.
  subst k. by apply list_elem_of_In.
Qed.

Lemma lru_get_elem f o l b : b ∈ lru_get f o l -> b ∈ l.
Proof.
  unfold lru_get. destruct (lru_find f o l) as [d|] eqn:E; [|done].
  intros [->|[_ ?]%list_elem_of_filter]%elem_of_cons; [by apply lru_find_Some|done].
Qed.

Lemma removelast_elem {A} (l : list A) x : x ∈ removelast l -> x ∈ l.
Proof.
  destruct l as [|a l] using rev_ind; [done|]. rewrite removelast_last. set_solver.
Qed.

Lemma lru_fit_elem n c l b : b ∈ lru_fit n c l -> b ∈ l.
Proof.
  revert l. induction n as [|n IH]; intros l; cbn; [done|]. case_match; [|done].
  intros ?%IH. by apply removelast_elem.
Qed.

Lemma lru_put_elem c f o d l b : b ∈ lru_put c f o d l -> b = (f, o, d) \/ (b ∈ l /\ ~ at_key f o b).
Proof.
  unfold lru_put. intros H%lru_fit_elem. apply elem_of_cons in H as [->|H]; [by left|right].
  apply list_elem_of_filter in H. naive_solver.
Qed.

Lemma Get_cache_ok c h f o :
  cache_ok c h -> exists c' r, Get c f o = Ok (c', r) /\ cache_ok c' h /\
    (forall d, r = Some d -> h !! (f, o) = Some d).
Proof.
  intros [Hlen Hsh]. unfold Get. pose proof (shard_index_lt f o) as Hi. rewrite <- Hlen in Hi.
  destruct (lookup_lt_is_Some_2 _ _ Hi) as [s Es]. rewrite Es.
  destruct (Hsh _ _ Es) as (Hinv & Hcap & Hsz & Hb).
  destruct (shard_Get_ok s f o Hinv) as (s' & -> & Hinv' & Hbl & Hcap' & Hsz').
  cbn [mbind outcome_bind fst snd]. eexists _, _. split; [done|]. split; [split|].
  - by rewrite length_insert.
  - intros i x Hx. apply list_lookup_insert_Some in Hx as [(<- & <- & _)|[_ Hx]]; [|by apply Hsh].
    split_and!; [done|lia| |].
    + lia.
    + intros f' o' d. rewrite Hbl. intros H%lru_get_elem. by apply Hb.
  - intros d Hd. by apply Hb, lru_find_Some.
Qed.

Lemma Put_cache_ok c h f o d :
  cache_ok c h -> exists c', Put c f o d = Ok c' /\ cache_ok c' (<[(f, o) := d]> h).
Proof.
  intros [Hlen Hsh]. unfold Put. pose proof (shard_index_lt f o) as Hi. rewrite <- Hlen in Hi.
  destruct (lookup_lt_is_Some_2 _ _ Hi) as [s Es]. rewrite Es.
  destruct (Hsh _ _ Es) as (Hinv & Hcap & Hsz & Hb).
  destruct (shard_Put_ok s f o d Hinv) as (s' & -> & Hinv' & Hcap' & Hbl & Hfit).
  cbn [mbind outcome_bind]. eexists. split; [done|]. split; [by rewrite length_insert|].
  intros i x Hx. apply list_lookup_insert_Some in Hx as [(<- & <- & _)|[Hne Hx]].
  - split_and!; [done|lia..|]. intros f' o' d'. rewrite Hbl.
    intros [[= -> -> ->]|[Hin Hk]]%lru_put_elem; [by rewrite lookup_insert_eq|].
    destruct (Hb _ _ _ Hin) as [? ?]. split; [done|]. rewrite lookup_insert_ne; [done|]. by intros [= -> ->].
  - destruct (Hsh _ _ Hx) as (? & ? & ? & Hbx). split_and!; [done..|]. intros f' o' d' Hin.
    destruct (Hbx _ _ _ Hin) as [? ?]. split; [done|]. rewrite lookup_insert_ne; [done|].
    intros [= -> ->]. congruence.
Qed.

Lemma RemoveFile_shards f c :
  Forall shard_inv c -> exists c', RemoveFile c f = Ok c' /\
    Forall2 (fun s s' => shard_inv s' /\ cap s' = cap s /\ blocks s' = lru_drop_file f (blocks s)) c c'.
Proof.
  induction 1 as [|s c Hs Hc IH]; cbn [RemoveFile]; [by eexists|].
  destruct (shard_RemoveFile_ok s f Hs) as (s' & -> & ? & ? & ?). destruct IH as (c' & -> & ?).
  cbn. eexists. split; [done|]. by constructor.
Qed.

Lemma lru_total_cons b l : lru_total (b :: l) = (len b.2 + lru_total l)%Z.
Proof. done. Qed.

Lemma lru_total_drop f l : (lru_total (lru_drop_file f l) <= lru_total l)%Z.
Proof.
  unfold lru_drop_file. induction l as [|b l IH]; [done|]. pose proof (len_nonneg b.2).
  destruct (decide (b.1.1 <> f)); [rewrite filter_cons_True by done|rewrite filter_cons_False by done];
    rewrite !lru_total_cons; lia.
Qed.

Lemma RemoveFile_cache_ok c h f :
  cache_ok c h -> exists c', RemoveFile c f = Ok c' /\ cache_ok c' (filter (fun x => x.1.1 <> f) h).
Proof.
  intros [Hlen Hsh]. destruct (RemoveFile_shards f c) as (c' & -> & Hall).
  { apply Forall_lookup. intros i s Hs. by apply (Hsh i s). }
  eexists. split; [done|]. split; [by rewrite <- (Forall2_length _ _ _ Hall)|].
  intros i s' Hs'. destruct (Forall2_lookup_r _ _ _ _ _ Hall Hs') as (s & Hs & Hinv' & Hcap & Hbl).
  destruct (Hsh i s Hs) as (Hinv & ? & ? & Hb). split_and!; [done|lia| |].
  - destruct Hinv as [[_ _ E1] _ _], Hinv' as [[_ _ E2] _ _]. rewrite E2, Hbl.
    pose proof (lru_total_drop f (blocks s)). lia.
  - intros f' o' d. rewrite Hbl. intros [Hf Hin]%list_elem_of_filter. cbn in Hf.
    destruct (Hb _ _ _ Hin) as [? ?]. split; [done|]. apply map_lookup_filter_Some. by split.
Qed.

Lemma NewBlockCache_ok n : cache_ok (NewBlockCache n) ∅.
Proof.
  split; [apply length_replicate|]. intros i s Hs. apply lookup_replicate in Hs as [-> _].
  split_and!; [|cbn; case_match; lia..|].
  - split; [split|..]; cbn; try done; [constructor|by split; [intros ?%elem_of_nil|intros [? ?]]|].
    intros f o id. split; [done|]. by intros [? ?].
  - cbn. by intros f o d ?%elem_of_nil.
Qed.

Lemma cache_run_ok ops c h :
  cache_ok c h -> exists c', cache_run ops c = Ok c' /\ cache_ok c' (foldl history_step h ops).
Proof.
  revert c h. induction ops as [|op ops IH]; intros c h Hok; cbn [cache_run foldl]; [by exists c|].
  assert (exists c1, cache_step c op = Ok c1 /\ cache_ok c1 (history_step h op)) as (c1 & -> & H1).
  { destruct op as [f o|f o d|f]; cbn [cache_step history_step].
    - destruct (Get_cache_ok c h f o Hok) as (c1 & r & -> & ? & _). by exists c1.
    - by apply Put_cache_ok.
    - by apply RemoveFile_cache_ok. }
  cbn [mbind outcome_bind]. by apply IH.
Qed.

(** ** Properties *)

(** C21: after any sequence of operations the cache is well formed (no operation
    panics or loops), each shard holds at most its capacity, and a hit returns the
    data put last for the block, of a file not removed since. *)
Theorem cache_sound n ops :
  exists c, cache_run ops (NewBlockCache n) = Ok c /\
    Forall (fun s => size s = lru_total (blocks s) /\ (size s <= cap s)%Z) c /\
    forall f o, exists c' r, Get c f o = Ok (c', r) /\
      (forall d, r = Some d -> history ops !! (f, o) = Some d).
Proof.
  destruct (cache_run_ok ops _ _ (NewBlockCache_ok n)) as (c & E & Hok). exists c. split; [done|].
  split.
  - apply Forall_lookup. intros i s Hs. destruct (co_shard _ _ Hok i s Hs) as (Hinv & _ & ? & _).
    split; [|done]. apply Hinv.
  - intros f o. destruct (Get_cache_ok c _ f o Hok) as (c' & r & ? & _ & ?). by exists c', r.
Qed.
