(* ===== verification/SSTable.v ===== *)
(** * Sorted string tables (internal/sstable/format.go, writer.go, reader.go, iterator.go)

    A table is a file of data blocks, an index block with the last key and the
    position of each data block, a Bloom filter and a footer.  The LZ4 library and
    the hash function of the filter are parameters; what the reader needs of LZ4 is
    the class [Lz4]. *)

From S2P Require Import Prelude Order Keys Files Bloom Cache.
Import mvcc.

#[local] Open Scope Z_scope.

Inductive sst_error := ErrCorrupt | ErrRead | ErrWrite | ErrLz4.

#[export] Instance sst_error_eq_dec : EqDecision sst_error.
Proof. solve_decision. Defined.

(** What the table relies on in LZ4: a block that was compressed is restored by a
    destination of at least its size.  [CompressBlock] gets a destination of
    [CompressBlockBound] bytes; no output means that the block is not compressible. *)
Class Lz4 (CompressBlock : bytes -> option bytes) (UncompressBlock : bytes -> Z -> option bytes) : Prop := {
  lz4_total : forall u, exists c, CompressBlock u = Some c;
  lz4_restore : forall u c n, CompressBlock u = Some c -> c <> [] -> len u <= n ->
    UncompressBlock c n = Some u;
}.

Module sstable.

Definition DefaultBlockSize : Z := 4096.
Definition FooterSize : Z := 48.
Definition MagicNumber : Z := 0x5354524154554D00.

(** ** format.go *)

Record BlockHandle := mkHandle { Offset : Z; Size : Z }.

Definition EncodeHandle (h : BlockHandle) : bytes := put_le 8 (Offset h) ++ put_le 8 (Size h).

Definition DecodeBlockHandle (data : bytes) : BlockHandle :=
  if len data <? 16 then mkHandle 0 0
  else mkHandle (get_le (take 8 data)) (get_le (take 8 (drop 8 data))).

Record Footer := mkFooter {
  IndexHandle : BlockHandle;
  BloomHandle : BlockHandle;
  NumEntries : Z;
  Magic : Z;
}.

Definition EncodeFooter (f : Footer) : bytes :=
  EncodeHandle (IndexHandle f) ++ EncodeHandle (BloomHandle f) ++
  put_le 8 (NumEntries f) ++ put_le 8 (Magic f).

Definition DecodeFooter (data : bytes) : option Footer :=
  if len data <? FooterSize then None
  else
    let magic := get_le (take 8 (drop 40 data)) in
    if magic =? MagicNumber then
      Some (mkFooter (DecodeBlockHandle (take 16 data)) (DecodeBlockHandle (take 16 (drop 16 data)))
              (get_le (take 8 (drop 32 data))) magic)
    else None.

(** ** writer.go *)

Record IndexEntry := mkIndex { IKey : bytes; Handle : BlockHandle }.

Record Writer := mkWriter {
  file : File;
  blockBuf : bytes;
  indexEntries : list IndexEntry;
  wbloom : bloom.Filter;
  woffset : Z;
  blockSize : Z;
  entryCount : Z;
  lastKey : bytes;
}.

(** On a file that was truncated when it was opened. *)
Definition NewWriter (faults : list (option nat)) (blockSize bloomBitsPerKey : Z) : Writer :=
  mkWriter (mkFile [] 0 faults) [] [] (bloom.NewFilter 10000 bloomBitsPerKey) 0 blockSize 0 [].

Definition set_file (f : File) (w : Writer) : Writer :=
  mkWriter f (blockBuf w) (indexEntries w) (wbloom w) (woffset w) (blockSize w) (entryCount w) (lastKey w).

Definition write_file (bs : bytes) : st sst_error Writer unit := fun w =>
  let '(f, failed) := file_write (file w) bs in
  (set_file f w, if (failed : bool) then Err ErrWrite else Ok tt).

(** The header and the data of an entry; a tombstone has the length [0xFFFFFFFF]. *)
Definition entry_bytes (key : bytes) (value : option bytes) : bytes :=
  put_le 4 (len key) ++
  match value with
  | None => put_le 4 0xFFFFFFFF ++ key
  | Some v => put_le 4 (len v) ++ key ++ v
  end.

Section lz4.
Context (Sum128 : bytes -> Z * Z).
Context (CompressBlock : bytes -> option bytes) (UncompressBlock : bytes -> Z -> option bytes).

(** The bytes of a block in the file. *)
Definition block_bytes (uncompressed : bytes) : outcome sst_error bytes :=
  match CompressBlock uncompressed with
  | None => Err ErrLz4
  | Some c =>
      if (0 <? len c) && (len c <? len uncompressed) then Ok (Byte.x01 :: c)
      else Ok (Byte.x00 :: uncompressed)
  end.

Definition flushDataBlock : st sst_error Writer unit :=
  buf ← gets blockBuf;
  if len buf =? 0 then mret tt
  else
    data ← lift (block_bytes buf);
    write_file (take 1 data);;
    write_file (drop 1 data);;
    let size := u64 (len data) in
    modify (fun w => mkWriter (file w) []
      (indexEntries w ++ [mkIndex (lastKey w) (mkHandle (woffset w) size)])
      (wbloom w) (u64 (woffset w + size)) (blockSize w) (entryCount w) (lastKey w)).

Definition Add (key : bytes) (value : option bytes) : st sst_error Writer unit := fun w =>
  match bloom.Add Sum128 (wbloom w) key with
  | Ok bf =>
      let w := mkWriter (file w) (blockBuf w ++ entry_bytes key value) (indexEntries w) bf (woffset w)
        (blockSize w) (u64 (entryCount w + 1)) key in
      if blockSize w <=? len (blockBuf w) then flushDataBlock w else (w, Ok tt)
  | Err e => match e with end
  | Panic => (w, Panic)
  | Fuel => (w, Fuel)
  end.

Definition index_entry_bytes (ie : IndexEntry) : bytes :=
  put_le 4 (len (IKey ie)) ++ IKey ie ++ EncodeHandle (Handle ie).

Definition advance_offset (n : Z) : st sst_error Writer unit :=
  modify (fun w => mkWriter (file w) (blockBuf w) (indexEntries w) (wbloom w) (u64 (woffset w + n))
    (blockSize w) (entryCount w) (lastKey w)).

(** The writes of [Close]. *)
Definition finish : st sst_error Writer unit :=
  flushDataBlock;;
  indexOffset ← gets woffset;
  index ← gets (fun w => concat (map index_entry_bytes (indexEntries w)));
  write_file index;;
  advance_offset (len index);;
  bloomOffset ← gets woffset;
  bloomData ← gets (fun w => bloom.Encode (wbloom w));
  write_file bloomData;;
  advance_offset (len bloomData);;
  count ← gets entryCount;
  write_file (EncodeFooter (mkFooter (mkHandle indexOffset (u64 (len index)))
    (mkHandle bloomOffset (u64 (len bloomData))) count MagicNumber)).

(** The file is closed also after an error. *)
Definition Close : st sst_error Writer unit := fun w =>
  let '(w, res) := finish w in
  let '(f, failed) := file_close (file w) in
  (set_file f w, match res with Ok _ => if (failed : bool) then Err ErrWrite else Ok tt | e => e end).

(** [Writer.Size]. *)
Definition WriterSize (w : Writer) : Z := u64 (woffset w + 48).

(** ** reader.go *)

Record Reader := mkReader {
  rdata : bytes;
  FileID : Z;
  footer : Footer;
  rindex : list IndexEntry;
  rbloom : bloom.Filter;
}.

(** The address space bounds what [make] can allocate. *)
Definition max_alloc : Z := 2 ^ 48.

Definition read_part (data : bytes) (h : BlockHandle) : outcome sst_error bytes :=
  if max_alloc <? Size h then Panic
  else match read_at data (i64 (Offset h)) (Size h) with
       | Some bs => Ok bs
       | None => Err ErrRead
       end.

(** An iteration consumes at least twenty bytes. *)
Fixpoint parse_index (fuel : nat) (buf : bytes) (offset : Z) (acc : list IndexEntry)
    : outcome sst_error (list IndexEntry) :=
  if offset <? len buf then
    match fuel with
    | O => Fuel
    | S fuel =>
        if len buf <? offset + 4 then Err ErrCorrupt else
        kl ← slice buf offset (offset + 4);
        let keyLen := get_le kl in
        let offset := offset + 4 in
        if len buf <? offset + keyLen + 16 then Err ErrCorrupt else
        key ← slice buf offset (offset + keyLen);
        let offset := offset + keyLen in
        h ← slice buf offset (offset + 16);
        parse_index fuel buf (offset + 16) (acc ++ [mkIndex key (DecodeBlockHandle h)])
    end
  else Ok acc.

Definition OpenReader (data : bytes) (fileID : Z) : outcome sst_error Reader :=
  if len data <? FooterSize then Err ErrCorrupt
  else
    match read_at data (len data - FooterSize) FooterSize with
    | None => Err ErrRead
    | Some footerBuf =>
        match DecodeFooter footerBuf with
        | None => Err ErrCorrupt
        | Some footer =>
            indexBuf ← read_part data (IndexHandle footer);
            index ← parse_index (length indexBuf) indexBuf 0 [];
            bloomBuf ← read_part data (BloomHandle footer);
            Ok (mkReader data fileID footer index (bloom.DecodeFilter bloomBuf))
        end
    end.

(** Reads a block of the file and decompresses it. *)
Definition fetch_block (r : Reader) (h : BlockHandle) : outcome sst_error bytes :=
  buf ← read_part (rdata r) h;
  match buf with
  | [] => Err ErrCorrupt
  | flag :: rest =>
      if b2z flag =? 1 then
        match UncompressBlock rest (8 * DefaultBlockSize) with
        | Some d => Ok d
        | None => Err ErrLz4
        end
      else Ok rest
  end.

(** The cache may be absent. *)
Definition readBlock (r : Reader) (h : BlockHandle) : st sst_error (option cache.BlockCache) bytes :=
  fun c =>
  match c with
  | None => (None, fetch_block r h)
  | Some cc =>
      match cache.Get cc (FileID r) (Offset h) with
      | Ok (cc, Some d) => (Some cc, Ok d)
      | Ok (cc, None) =>
          match fetch_block r h with
          | Ok d =>
              match cache.Put cc (FileID r) (Offset h) d with
              | Ok cc => (Some cc, Ok d)
              | Err e => match e with end
              | Panic => (Some cc, Panic)
              | Fuel => (Some cc, Fuel)
              end
          | e => (Some cc, e)
          end
      | Err e => match e with end
      | Panic => (c, Panic)
      | Fuel => (c, Fuel)
      end
  end.

(** [sort.Search]: the interval at least halves. *)
Fixpoint search (fuel : nat) (p : nat -> outcome sst_error bool) (i j : nat) : outcome sst_error nat :=
  if bool_decide (i < j)%nat then
    match fuel with
    | O => Fuel
    | S fuel =>
        let h := ((i + j) / 2)%nat in
        b ← p h;
        if (b : bool) then search fuel p i h else search fuel p (S h) j
    end
  else Ok i.

Definition findBlockIndex (r : Reader) (key : bytes) : outcome sst_error nat :=
  search (length (rindex r)) (fun i =>
    match rindex r !! i with
    | Some ie => Ok (match CompareKeys (IKey ie) key with Lt => false | _ => true end)
    | None => Panic
    end) 0 (length (rindex r)).

(** The entry at [offset] of a block: its key, its value ([None] for a tombstone) and
    the offset behind it. *)
Definition parse_entry (block : bytes) (offset : Z) : outcome sst_error (bytes * option bytes * Z) :=
  if len block <? offset + 8 then Err ErrCorrupt else
  kl ← slice block offset (offset + 4);
  vl ← slice block (offset + 4) (offset + 8);
  let keyLen := get_le kl in
  let offset := offset + 8 in
  let isTombstone := get_le vl =? 0xFFFFFFFF in
  let valLen := if isTombstone then 0 else get_le vl in
  if len block <? offset + keyLen + valLen then Err ErrCorrupt else
  key ← slice block offset (offset + keyLen);
  let offset := offset + keyLen in
  if (isTombstone : bool) then Ok (key, None, offset)
  else v ← slice block offset (offset + valLen); Ok (key, Some v, offset + valLen).

(** The scan of [Get]: [Some v] when the key is found. *)
Fixpoint scan_block (fuel : nat) (block : bytes) (offset : Z) (key : bytes)
    : outcome sst_error (option (option bytes)) :=
  if offset <? len block then
    match fuel with
    | O => Fuel
    | S fuel =>
        x ← parse_entry block offset;
        let '(k, v, offset) := x in
        match CompareKeys k key with
        | Eq => Ok (Some v)
        | Gt => Ok None
        | Lt => scan_block fuel block offset key
        end
    end
  else Ok None.

(** [Some v]: found, with [None] for a tombstone. *)
Definition Get (r : Reader) (key : bytes) : st sst_error (option cache.BlockCache) (option (option bytes)) :=
  may ← lift (match bloom.MayContain Sum128 (rbloom r) key with
              | Ok b => Ok b
              | Err e => match e with end
              | Panic => Panic
              | Fuel => Fuel
              end);
  if negb may then mret None
  else
    idx ← lift (findBlockIndex r key);
    match rindex r !! idx with
    | None => mret None
    | Some ie =>
        block ← readBlock r (Handle ie);
        lift (scan_block (length block) block 0 key)
    end.

(** ** iterator.go *)

Record Iterator := mkIter {
  blockIdx : nat;
  ioffset : Z;
  ierr : option sst_error;
  blockData : bytes;
  current : bytes * option bytes;
  valid : bool;
}.

Definition set_valid (v : bool) (it : Iterator) : Iterator :=
  mkIter (blockIdx it) (ioffset it) (ierr it) (blockData it) (current it) v.

(** An error of a call is kept in the iterator. *)
Definition set_err (e : sst_error) (it : Iterator) : Iterator :=
  mkIter (blockIdx it) (ioffset it) (Some e) (blockData it) (current it) false.

(** [loadBlock] and [parseCurrent]; a block without entries is skipped, so the
    number of blocks left is enough fuel. *)
Fixpoint loadBlock (fuel : nat) (r : Reader) (it : Iterator)
    : st sst_error (option cache.BlockCache) Iterator := fun c =>
  let it := set_valid false it in
  match rindex r !! blockIdx it with
  | None => (c, Ok it)
  | Some ie =>
      match fuel with
      | O => (c, Fuel)
      | S fuel =>
          match readBlock r (Handle ie) c with
          | (c, Ok data) =>
              let it := mkIter (blockIdx it) 0 (ierr it) data (current it) false in
              if 0 <? len data then
                match parse_entry data 0 with
                | Ok (k, v, off) => (c, Ok (mkIter (blockIdx it) off (ierr it) data (k, v) true))
                | Err e => (c, Ok (set_err e it))
                | Panic => (c, Panic)
                | Fuel => (c, Fuel)
                end
              else
                loadBlock fuel r (mkIter (S (blockIdx it)) 0 (ierr it) data (current it) false) c
          | (c, Err e) => (c, Ok (set_err e it))
          | (c, Panic) => (c, Panic)
          | (c, Fuel) => (c, Fuel)
          end
      end
  end.

Definition load_fuel (r : Reader) : nat := S (length (rindex r)).

Definition SeekToFirst (r : Reader) (it : Iterator) : st sst_error (option cache.BlockCache) Iterator :=
  loadBlock (load_fuel r) r (mkIter 0 (ioffset it) (ierr it) (blockData it) (current it) (valid it)).

Definition NewIterator (r : Reader) : st sst_error (option cache.BlockCache) Iterator :=
  SeekToFirst r (mkIter 0 0 None [] ([], None) false).

Definition Next (r : Reader) (it : Iterator) : st sst_error (option cache.BlockCache) Iterator := fun c =>
  if negb (valid it) then (c, Ok it)
  else if len (blockData it) <=? ioffset it then
    loadBlock (load_fuel r) r
      (mkIter (S (blockIdx it)) (ioffset it) (ierr it) (blockData it) (current it) (valid it)) c
  else
    match parse_entry (blockData it) (ioffset it) with
    | Ok (k, v, off) => (c, Ok (mkIter (blockIdx it) off (ierr it) (blockData it) (k, v) true))
    | Err e => (c, Ok (set_err e it))
    | Panic => (c, Panic)
    | Fuel => (c, Fuel)
    end.

(** [Valid]: [valid] and no error. *)
Definition Valid (it : Iterator) : bool :=
  valid it && match ierr it with None => true | Some _ => false end.

(** More than the entries of a table whose blocks have been read: a block has at most
    [8 * DefaultBlockSize] bytes, or those it has in the file. *)
Definition seek_fuel (r : Reader) : nat :=
  length (rindex r) * (Z.to_nat (8 * DefaultBlockSize) + length (rdata r)).

(** The loop of [Seek]. *)
Fixpoint seek_loop (fuel : nat) (r : Reader) (target : bytes) (it : Iterator)
    : st sst_error (option cache.BlockCache) Iterator :=
  if Valid it then
    match CompareKeys (current it).1 target with
    | Lt =>
        match fuel with
        | O => lift Fuel
        | S fuel => it ← Next r it; seek_loop fuel r target it
        end
    | _ => mret it
    end
  else mret it.

Definition Seek (r : Reader) (target : bytes) (it : Iterator)
    : st sst_error (option cache.BlockCache) Iterator :=
  idx ← lift (findBlockIndex r target);
  it ← loadBlock (load_fuel r) r
         (mkIter idx (ioffset it) (ierr it) (blockData it) (current it) (valid it));
  seek_loop (seek_fuel r) r target it.

End lz4.
End sstable.
Import sstable.
