(* ===== verification/SSTableSpec.v ===== *)
(** * What a table holds

    A table written from sorted entries is read back as the sorted association list
    of these entries, by [Get] and by iteration, with or without a cache.  The file
    is described by its blocks, each a list of entries. *)

From S2P Require Import Prelude Order Keys Files Bloom Cache SSTable.
Import mvcc sstable.

#[local] Open Scope Z_scope.

(** ** Entries in a block *)

(** The lengths fit their fields, and no value has the length of a tombstone. *)
Definition kv_ok (e : kv) : Prop :=
  len e.1 < 2 ^ 32 /\ match e.2 with Some v => len v < 2 ^ 32 - 1 | None => True end.

Definition blk_data (es : list kv) : bytes := concat (map (fun e => entry_bytes e.1 e.2) es).

Lemma blk_data_app a b : blk_data (a ++ b) = blk_data a ++ blk_data b.
Proof. unfold blk_data. by rewrite map_app, concat_app. Qed.

Lemma len_entry k v :
  len (entry_bytes k v) = 8 + len k + match v with Some x => len x | None => 0 end.
Proof. unfold entry_bytes. destruct v; len_lia. Qed.

Lemma len_entry_pos e : 8 <= len (entry_bytes e.1 e.2).
Proof. rewrite len_entry. pose proof (len_nonneg e.1). destruct e.2 as [v|]; [pose proof (len_nonneg v)|]; lia. Qed.

Lemma parse_entry_ok block pre k v post off :
  block = pre ++ entry_bytes k v ++ post -> off = len pre -> kv_ok (k, v) ->
  parse_entry block off = Ok (k, v, off + len (entry_bytes k v)).
Proof.
  intros Hb -> [Hk Hv]. cbn [fst snd] in *. pose proof (len_nonneg k). pose proof (len_nonneg post).
  assert (len block = len pre + len (entry_bytes k v) + len post) as Hl by (rewrite Hb, !len_app; lia).
  rewrite len_entry in *. unfold entry_bytes in Hb. unfold parse_entry.
  set (kl := put_le 4 (len k)) in *.
  assert (len kl = 4) as Lk by (unfold kl; by rewrite len_put_le).
  assert (get_le kl = len k) as Gk by (apply get_le_put_le_small; change (256 ^ _) with (2 ^ 32); lia).
  destruct v as [x|].
  - set (vl := put_le 4 (len x)) in *. pose proof (len_nonneg x).
    assert (len vl = 4) as Lv by (unfold vl; by rewrite len_put_le).
    assert (get_le vl = len x) as Gv by (apply get_le_put_le_small; change (256 ^ _) with (2 ^ 32); lia).
    rewrite (proj2 (Z.ltb_ge _ _)) by lia.
    rewrite (slice_at block pre kl ((vl ++ k ++ x) ++ post) (len pre) (len pre + 4))
      by first [rewrite Hb; app_solve | rewrite ?len_app; lia].
    cbn [mbind outcome_bind].
    rewrite (slice_at block (pre ++ kl) vl ((k ++ x) ++ post) (len pre + 4) (len pre + 8))
      by first [rewrite Hb; app_solve | rewrite ?len_app; lia].
    cbn [mbind outcome_bind]. rewrite Gk, Gv. rewrite (proj2 (Z.eqb_neq (len x) _)) by lia.
    rewrite (proj2 (Z.ltb_ge _ _)) by lia.
    rewrite (slice_at block (pre ++ kl ++ vl) k (x ++ post) (len pre + 8) (len pre + 8 + len k))
      by first [rewrite Hb; app_solve | rewrite ?len_app; lia].
    cbn [mbind outcome_bind].
    rewrite (slice_at block (pre ++ kl ++ vl ++ k) x post (len pre + 8 + len k) (len pre + 8 + len k + len x))
      by first [rewrite Hb; app_solve | rewrite ?len_app; lia].
    cbn [mbind outcome_bind]. do 2 f_equal. lia.
  - set (vl := put_le 4 0xFFFFFFFF) in *.
    assert (len vl = 4) as Lv by (unfold vl; by rewrite len_put_le).
    assert (get_le vl = 0xFFFFFFFF) as Gv by (by apply get_le_put_le_small).
    rewrite (proj2 (Z.ltb_ge _ _)) by lia.
    rewrite (slice_at block pre kl ((vl ++ k) ++ post) (len pre) (len pre + 4))
      by first [rewrite Hb; app_solve | rewrite ?len_app; lia].
    cbn [mbind outcome_bind].
    rewrite (slice_at block (pre ++ kl) vl (k ++ post) (len pre + 4) (len pre + 8))
      by first [rewrite Hb; app_solve | rewrite ?len_app; lia].
    cbn [mbind outcome_bind]. rewrite Gk, Gv. cbn [Z.eqb Pos.eqb].
    rewrite (proj2 (Z.ltb_ge _ _)) by lia.
    rewrite (slice_at block (pre ++ kl ++ vl) k post (len pre + 8) (len pre + 8 + len k))
      by first [rewrite Hb; app_solve | rewrite ?len_app; lia].
    cbn [mbind outcome_bind]. do 2 f_equal. lia.
Qed.

Lemma scan_block_ok key es : forall fuel pre,
  Forall kv_ok es -> ksorted CompareKeys es -> (length es <= fuel)%nat ->
  scan_block fuel (pre ++ blk_data es) (len pre) key = Ok (assoc CompareKeys key es).
Proof.
  induction es as [|[k v] es IH]; intros fuel pre Hok Hs Hf.
  { cbn [blk_data map concat]. rewrite app_nil_r. destruct fuel; cbn; by rewrite Z.ltb_irrefl. }
  apply Forall_cons in Hok as [He Hok]. destruct fuel as [|fuel]; [cbn in Hf; lia|].
  change (blk_data ((k, v) :: es)) with (entry_bytes k v ++ blk_data es).
  pose proof (len_entry_pos (k, v)) as Hpos. cbn [fst snd] in Hpos.
  pose proof (len_nonneg (blk_data es)).
  cbn [scan_block]. rewrite (proj2 (Z.ltb_lt _ _)) by (rewrite !len_app; lia).
  rewrite (parse_entry_ok _ pre k v (blk_data es)) by done. cbn [mbind outcome_bind assoc].
  unfold ksorted in Hs. cbn in Hs. apply StronglySorted_inv in Hs as [Hs Hall].
  destruct (CompareKeys k key) eqn:E; [done| |].
  - rewrite <- len_app, (assoc_L (++)). apply IH; [done..|]. cbn in Hf. lia.
  - f_equal. symmetry. apply assoc_none. eapply Forall_impl; [exact Hall|].
    intros k' Hk' <-. apply ko_gt in E. by apply (klt_asym _ _ Hk').
Qed.

(** ** Binary search *)

Lemma sort_search_ok p (q : nat -> bool) fuel i j :
  (forall x, (i <= x < j)%nat -> p x = Ok (q x)) ->
  (forall x y, (x <= y)%nat -> q x = true -> q y = true) ->
  (j - i <= fuel)%nat -> (i <= j)%nat ->
  exists m, search fuel p i j = Ok m /\ (i <= m <= j)%nat /\
    (forall x, (i <= x < m)%nat -> q x = false) /\ (forall x, (m <= x < j)%nat -> q x = true).
Proof.
  revert i j. induction fuel as [|fuel IH]; intros i j Hp Hm Hf Hij; cbn [search].
  { rewrite bool_decide_false by lia. exists i. split_and!; [done|lia..]. }
  case_bool_decide as Hlt; [|exists i; split_and!; [done|lia..]].
  pose proof (Nat.div_mod (i + j) 2 ltac:(lia)). pose proof (Nat.mod_upper_bound (i + j) 2 ltac:(lia)).
  set (h := ((i + j) / 2)%nat) in *. rewrite Hp by lia. cbn [mbind outcome_bind].
  destruct (q h) eqn:Eq.
  - destruct (IH i h) as (m & E & H1 & H2 & H3); [intros; apply Hp; lia|done|lia..|].
    exists m. split_and!; [done|lia..|done|]. intros x Hx. destruct (decide (x < h)%nat); [apply H3; lia|].
    apply (Hm h); [lia|done].
  - destruct (IH (S h) j) as (m & E & H1 & H2 & H3); [intros; apply Hp; lia|done|lia..|].
    exists m. split_and!; [done|lia..| |done]. intros x Hx. destruct (decide (S h <= x)%nat); [apply H2; lia|].
    destruct (q x) eqn:Ex; [|done]. rewrite (Hm x h) in Eq; [done|lia|done].
Qed.

(** ** The file of a table *)

Section table.
Context (Sum128 : bytes -> Z * Z).
Context (CompressBlock : bytes -> option bytes) (UncompressBlock : bytes -> Z -> option bytes).
Context `{!Lz4 CompressBlock UncompressBlock}.

Definition disk (b : list kv) : bytes :=
  match block_bytes CompressBlock (blk_data b) with Ok d => d | _ => [] end.

Lemma disk_ok b : block_bytes CompressBlock (blk_data b) = Ok (disk b).
Proof.
  unfold disk, block_bytes. destruct (lz4_total (blk_data b)) as [c ->].
  by destruct ((0 <? len c) && (len c <? len (blk_data b))).
Qed.

Lemma disk_pos b : 1 <= len (disk b).
Proof.
  pose proof (disk_ok b) as H. unfold block_bytes in H.
  destruct (CompressBlock (blk_data b)) as [c|]; [|done].
  destruct ((0 <? len c) && _); injection H as <-; rewrite len_cons;
    [pose proof (len_nonneg c)|pose proof (len_nonneg (blk_data b))]; lia.
Qed.

Definition last_key (b : list kv) : bytes := default [] (fst <$> last b).

Definition disk_all (B : list (list kv)) : bytes := concat (map disk B).

Fixpoint index_from (off : Z) (B : list (list kv)) : list IndexEntry :=
  match B with
  | [] => []
  | b :: B => mkIndex (last_key b) (mkHandle off (len (disk b))) :: index_from (off + len (disk b)) B
  end.

Lemma len_disk_nil : len (disk_all []) = 0.
Proof. done. Qed.

Lemma disk_all_app A B : disk_all (A ++ B) = disk_all A ++ disk_all B.
Proof. unfold disk_all. by rewrite map_app, concat_app. Qed.

Lemma index_from_app off A B :
  index_from off (A ++ B) = index_from off A ++ index_from (off + len (disk_all A)) B.
Proof.
  revert off. induction A as [|a A IH]; intros off; cbn [app index_from].
  - f_equal. rewrite len_disk_nil. lia.
  - rewrite IH. do 3 f_equal. change (disk_all (a :: A)) with (disk a ++ disk_all A). rewrite len_app. lia.
Qed.

Lemma index_from_lookup off B i ie :
  index_from off B !! i = Some ie <->
  exists b, B !! i = Some b /\ ie = mkIndex (last_key b)
    (mkHandle (off + len (disk_all (take i B))) (len (disk b))).
Proof.
  revert off i. induction B as [|b B IH]; intros off i; cbn [index_from].
  { rewrite !lookup_nil. split; [done|]. by intros (? & ? & _). }
  destruct i as [|i]; cbn [take].
  - split.
    + intros [= <-]. exists b. split; [done|]. by rewrite len_disk_nil, Z.add_0_r.
    + intros (b' & [= <-] & ->). by rewrite len_disk_nil, Z.add_0_r.
  - rewrite !lookup_cons. rewrite IH. change (disk_all (b :: take i B)) with (disk b ++ disk_all (take i B)).
    rewrite len_app, Z.add_assoc. done.
Qed.

Lemma index_from_length off B : length (index_from off B) = length B.
Proof. revert off. induction B as [|b B IH]; intros off; cbn; [done|]. by rewrite IH. Qed.

(** ** The writer *)

(** The writer after the blocks [B] and the entries [cur] of the next one. *)
Record writer_inv (w : Writer) (B : list (list kv)) (cur : list kv) : Prop := {
  wi_faults : faults (file w) = [];
  wi_file : fdata (file w) = disk_all B;
  wi_index : indexEntries w = index_from 0 B;
  wi_offset : woffset w = len (disk_all B);
  wi_buf : blockBuf w = blk_data cur;
  wi_bloom : covers Sum128 (wbloom w) (concat (B ++ [cur])).*1;
  wi_last : cur <> [] -> lastKey w = last_key cur;
  wi_blocks : Forall (fun b => b <> []) B;
  wi_count : entryCount w = u64 (len (concat (B ++ [cur])));
}.

Lemma write_file_ok w bs :
  faults (file w) = [] ->
  write_file bs w = (set_file (mkFile (fdata (file w) ++ bs) (fsynced (file w)) []) w, Ok tt).
Proof. intros Hf. unfold write_file, file_write. by rewrite Hf. Qed.

Lemma blk_data_nil_inv es : len (blk_data es) = 0 -> es = [].
Proof.
  destruct es as [|e es]; [done|]. change (blk_data (e :: es)) with (entry_bytes e.1 e.2 ++ blk_data es).
  rewrite len_app. pose proof (len_entry_pos e). pose proof (len_nonneg (blk_data es)). lia.
Qed.

(** The blocks when the current one is closed. *)
Definition close_block (B : list (list kv)) (cur : list kv) : list (list kv) :=
  B ++ (if decide (cur = []) then [] else [cur]).

Lemma flush_ok w B cur :
  writer_inv w B cur -> len (disk_all (close_block B cur)) < 2 ^ 64 ->
  exists w', flushDataBlock CompressBlock w = (w', Ok tt) /\ writer_inv w' (close_block B cur) [] /\
    concat (close_block B cur) = concat (B ++ [cur]) /\ blockSize w' = blockSize w /\
    wbloom w' = wbloom w /\ entryCount w' = entryCount w.
Proof.
  intros [Hf Hfile Hidx Hoff Hbuf Hbl Hlast Hne Hcnt] Hsmall. unfold flushDataBlock, close_block in *.
  erewrite st_bind_ok by done. rewrite Hbuf.
  destruct (Z.eqb_spec (len (blk_data cur)) 0) as [E|E].
  { apply blk_data_nil_inv in E as ->. exists w. rewrite decide_True by done. rewrite app_nil_r.
    split_and!; [done| |by rewrite concat_app; cbn; rewrite !app_nil_r|done..]. by split. }
  assert (cur <> []) as Hcur by (intros ->; done). rewrite decide_False in * by done.
  erewrite st_bind_ok by (unfold lift; by rewrite disk_ok).
  erewrite st_bind_ok by (by apply write_file_ok).
  erewrite st_bind_ok by (by apply write_file_ok).
  rewrite disk_all_app, len_app in Hsmall. change (disk_all [cur]) with (disk cur ++ []) in Hsmall.
  rewrite app_nil_r in Hsmall. pose proof (disk_pos cur). pose proof (len_nonneg (disk_all B)).
  eexists. split; [reflexivity|]. split; [|done].
  assert (u64 (len (disk cur)) = len (disk cur)) as Hu by (unfold u64; apply Z.mod_small; lia).
  assert (disk_all (B ++ [cur]) = disk_all B ++ disk cur) as Hda.
  { rewrite disk_all_app. f_equal. apply app_nil_r. }
  split; cbn [file faults set_file fdata indexEntries woffset blockBuf wbloom lastKey entryCount].
  - done.
  - rewrite Hfile, Hda, <- (assoc_L (++)), take_drop. done.
  - rewrite Hidx, index_from_app, (Hlast Hcur), Hoff, Hu. done.
  - rewrite Hoff, Hu, Hda, len_app. unfold u64. rewrite Z.mod_small by lia. done.
  - done.
  - rewrite (concat_app (B ++ [cur])). cbn. by rewrite app_nil_r.
  - done.
  - apply Forall_app. split; [done|]. by apply Forall_singleton.
  - rewrite (concat_app (B ++ [cur])). cbn. by rewrite app_nil_r.
Qed.

Lemma Add_ok_table w B cur k v :
  writer_inv w B cur -> len (disk_all (B ++ [cur ++ [(k, v)]])) < 2 ^ 64 ->
  exists w' B' cur', Add Sum128 CompressBlock k v w = (w', Ok tt) /\ writer_inv w' B' cur' /\
    concat (B' ++ [cur']) = concat (B ++ [cur]) ++ [(k, v)] /\ blockSize w' = blockSize w /\
    (cur' = cur ++ [(k, v)] /\ B' = B /\ len (blk_data cur') < blockSize w \/
     cur' = [] /\ B' = B ++ [cur ++ [(k, v)]]).
Proof.
  intros Hinv Hsmall. pose proof Hinv as [Hf Hfile Hidx Hoff Hbuf Hbl Hlast Hne Hcnt]. unfold Add.
  destruct (covers_Add Sum128 _ _ k Hbl) as (bf & -> & Hbl').
  set (w1 := mkWriter _ _ _ _ _ _ _ _).
  assert (concat (B ++ [cur ++ [(k, v)]]) = concat (B ++ [cur]) ++ [(k, v)]) as Hcc.
  { rewrite !concat_app. cbn. by rewrite !app_nil_r, (assoc_L (++)). }
  assert (writer_inv w1 B (cur ++ [(k, v)])) as Hinv1.
  { split; cbn; try done.
    - rewrite Hbuf, blk_data_app. cbn. by rewrite app_nil_r.
    - rewrite Hcc, fmap_app. done.
    - intros _. unfold last_key. by rewrite last_snoc.
    - rewrite Hcnt, Hcc, len_app. unfold u64. rewrite Zplus_mod_idemp_l. done. }
  cbn [blockSize w1]. destruct (Z.leb_spec (blockSize w) (len (blockBuf w1))) as [Hfull|Hroom].
  - assert (close_block B (cur ++ [(k, v)]) = B ++ [cur ++ [(k, v)]]) as Hcb.
    { unfold close_block. by rewrite decide_False by (intros H%app_nil; naive_solver). }
    destruct (flush_ok w1 B (cur ++ [(k, v)]) Hinv1) as (w2 & E & Hinv2 & Hc2 & Hbs & _);
      [by rewrite Hcb|]. rewrite Hcb in Hinv2, Hc2.
    exists w2, (B ++ [cur ++ [(k, v)]]), []. split_and!; [done..| |done|by right].
    rewrite <- Hcc, concat_app. cbn [concat]. by rewrite !app_nil_r.
  - exists w1, B, (cur ++ [(k, v)]). split_and!; [done..|]. left. split_and!; [done..|].
    by rewrite <- (wi_buf _ _ _ Hinv1).
Qed.

(** ** The index and the footer *)

Definition handle_ok (h : BlockHandle) : Prop := 0 <= Offset h < 2 ^ 64 /\ 0 <= Size h < 2 ^ 64.

Lemma len_EncodeHandle h : len (EncodeHandle h) = 16.
Proof. unfold EncodeHandle. len_lia. Qed.

Lemma DecodeBlockHandle_Encode h : handle_ok h -> DecodeBlockHandle (EncodeHandle h) = h.
Proof.
  intros [Ho Hs]. unfold DecodeBlockHandle. rewrite len_EncodeHandle. cbn [Z.ltb Z.compare Pos.compare Pos.compare_cont].
  unfold EncodeHandle. rewrite take_app_length' by (by rewrite length_put_le).
  rewrite drop_app_length' by (by rewrite length_put_le).
  rewrite take_ge by (by rewrite length_put_le).
  rewrite !get_le_put_le_small by (change (256 ^ _) with (2 ^ 64); lia). by destruct h.
Qed.

Lemma DecodeFooter_Encode f :
  handle_ok (IndexHandle f) -> handle_ok (BloomHandle f) -> 0 <= NumEntries f < 2 ^ 64 ->
  Magic f = MagicNumber -> DecodeFooter (EncodeFooter f) = Some f.
Proof.
  intros Hi Hb Hn Hm. unfold DecodeFooter, EncodeFooter.
  set (i := EncodeHandle (IndexHandle f)). set (b := EncodeHandle (BloomHandle f)).
  set (n := put_le 8 (NumEntries f)). set (m := put_le 8 (Magic f)).
  assert (length i = 16%nat /\ length b = 16%nat) as [Li Lb].
  { pose proof (len_EncodeHandle (IndexHandle f)). pose proof (len_EncodeHandle (BloomHandle f)).
    unfold i, b, len in *. lia. }
  assert (length n = 8%nat /\ length m = 8%nat) as [Ln Lm] by (unfold n, m; by rewrite !length_put_le).
  assert (len (i ++ b ++ n ++ m) = 48) as Lall by (unfold len; rewrite !length_app; lia).
  rewrite Lall. cbn [Z.ltb Z.compare Pos.compare Pos.compare_cont FooterSize].
  assert (drop 16 (i ++ b ++ n ++ m) = b ++ n ++ m) as D16 by by apply drop_app_length'.
  assert (drop 32 (i ++ b ++ n ++ m) = n ++ m) as D32.
  { rewrite (assoc_L (++)). apply drop_app_length'. rewrite length_app. lia. }
  assert (drop 40 (i ++ b ++ n ++ m) = m) as D40.
  { rewrite !(assoc_L (++)). apply drop_app_length'. rewrite !length_app. lia. }
  rewrite D16, D32, D40, !take_app_length' by done. rewrite take_ge by lia.
  unfold n, m, i, b. rewrite !get_le_put_le_small.
  2-3: change (256 ^ _) with (2 ^ 64); rewrite ?Hm; unfold MagicNumber; lia.
  rewrite !DecodeBlockHandle_Encode by done. rewrite Hm, Z.eqb_refl. destruct f; cbn in *. by subst.
Qed.

Lemma parse_index_ok ies : forall fuel pre acc,
  Forall (fun ie => len (IKey ie) < 2 ^ 32 /\ handle_ok (Handle ie)) ies -> (length ies <= fuel)%nat ->
  parse_index fuel (pre ++ concat (map index_entry_bytes ies)) (len pre) acc = Ok (acc ++ ies).
Proof.
  induction ies as [|ie ies IH]; intros fuel pre acc Hok Hf.
  { cbn [map concat]. rewrite !app_nil_r. destruct fuel; cbn; by rewrite Z.ltb_irrefl. }
  apply Forall_cons in Hok as [[Hk Hh] Hok]. destruct fuel as [|fuel]; [cbn in Hf; lia|].
  cbn [map concat]. set (rest := concat (map index_entry_bytes ies)).
  unfold index_entry_bytes at 1. set (kl := put_le 4 (len (IKey ie))).
  set (hb := EncodeHandle (Handle ie)).
  assert (len kl = 4) as Lk by (unfold kl; by rewrite len_put_le).
  assert (len hb = 16) as Lh by apply len_EncodeHandle.
  assert (get_le kl = len (IKey ie)) as Gk.
  { pose proof (len_nonneg (IKey ie)). apply get_le_put_le_small. change (256 ^ _) with (2 ^ 32). lia. }
  set (buf := pre ++ (kl ++ IKey ie ++ hb) ++ rest).
  pose proof (len_nonneg (IKey ie)). pose proof (len_nonneg rest).
  assert (len buf = len pre + 20 + len (IKey ie) + len rest) as Lb by (unfold buf; rewrite !len_app; lia).
  cbn [parse_index]. rewrite (proj2 (Z.ltb_lt _ _)) by lia. rewrite (proj2 (Z.ltb_ge _ _)) by lia.
  rewrite (slice_at buf pre kl (IKey ie ++ hb ++ rest) (len pre) (len pre + 4))
    by first [unfold buf; app_solve | rewrite ?len_app; lia].
  cbn [mbind outcome_bind]. rewrite Gk. rewrite (proj2 (Z.ltb_ge _ _)) by lia.
  rewrite (slice_at buf (pre ++ kl) (IKey ie) (hb ++ rest) (len pre + 4) (len pre + 4 + len (IKey ie)))
    by first [unfold buf; app_solve | rewrite ?len_app; lia].
  cbn [mbind outcome_bind].
  rewrite (slice_at buf (pre ++ kl ++ IKey ie) hb rest (len pre + 4 + len (IKey ie))
    (len pre + 4 + len (IKey ie) + 16)) by first [unfold buf; app_solve | rewrite ?len_app; lia].
  cbn [mbind outcome_bind]. unfold hb at 1. rewrite DecodeBlockHandle_Encode by done.
  replace buf with ((pre ++ kl ++ IKey ie ++ hb) ++ rest) by (unfold buf; app_solve).
  replace (len pre + 4 + len (IKey ie) + 16) with (len (pre ++ kl ++ IKey ie ++ hb))
    by (rewrite !len_app; lia).
  unfold rest. rewrite IH by (done || cbn in Hf; lia). rewrite <- (assoc_L (++)). by destruct ie.
Qed.

(** ** Whole files *)

Definition index_bytes (B : list (list kv)) : bytes := concat (map index_entry_bytes (index_from 0 B)).

Definition table_footer (B : list (list kv)) (bf : bloom.Filter) (n : Z) : Footer :=
  mkFooter (mkHandle (len (disk_all B)) (len (index_bytes B)))
    (mkHandle (len (disk_all B) + len (index_bytes B)) (len (bloom.Encode bf))) n MagicNumber.

Definition table_bytes (B : list (list kv)) (bf : bloom.Filter) (n : Z) : bytes :=
  disk_all B ++ index_bytes B ++ bloom.Encode bf ++ EncodeFooter (table_footer B bf n).

Definition table_reader (B : list (list kv)) (bf : bloom.Filter) (n id : Z) : Reader :=
  mkReader (table_bytes B bf n) id (table_footer B bf n) (index_from 0 B) bf.

Lemma len_EncodeFooter f : len (EncodeFooter f) = 48.
Proof. unfold EncodeFooter. rewrite !len_app, !len_EncodeHandle, !len_put_le. lia. Qed.

Lemma len_table_bytes B bf n :
  len (table_bytes B bf n) = len (disk_all B) + len (index_bytes B) + len (bloom.Encode bf) + 48.
Proof. unfold table_bytes. rewrite !len_app, len_EncodeFooter. lia. Qed.

Lemma Close_ok_table w B cur :
  writer_inv w B cur ->
  len (table_bytes (close_block B cur) (wbloom w) (entryCount w)) < 2 ^ 48 ->
  exists w', Close CompressBlock w = (w', Ok tt) /\
    fdata (file w') = table_bytes (close_block B cur) (wbloom w) (entryCount w) /\ faults (file w') = [].
Proof.
  intros Hinv Hsmall. rewrite len_table_bytes in Hsmall. set (B' := close_block B cur) in *.
  pose proof (len_nonneg (disk_all B')). pose proof (len_nonneg (index_bytes B')).
  pose proof (len_nonneg (bloom.Encode (wbloom w))).
  destruct (flush_ok w B cur Hinv) as (w1 & E1 & Hinv1 & _ & _ & Hbl & Hcnt); [fold B'; lia|].
  fold B' in Hinv1. destruct Hinv1 as [Hf Hfile Hidx Hoff Hbuf _ _ _ _].
  assert (forall z, 0 <= z < 2 ^ 48 -> u64 z = z) as Hu by (intros z Hz; apply Z.mod_small; lia).
  unfold Close, finish. erewrite (st_bind_ok _ _ w) by exact E1.
  do 2 erewrite st_bind_ok by done. rewrite Hidx. fold (index_bytes B').
  erewrite st_bind_ok by (by apply write_file_ok). erewrite st_bind_ok by done.
  do 2 erewrite st_bind_ok by done. cbn [woffset set_file wbloom file].
  erewrite st_bind_ok by (by apply write_file_ok). erewrite st_bind_ok by done.
  erewrite st_bind_ok by done. rewrite write_file_ok by done.
  cbn [file fdata set_file faults fsynced woffset entryCount file_close].
  eexists. split; [reflexivity|]. cbn [file fdata set_file].
  rewrite Hfile, Hbl, Hcnt, Hoff. rewrite !Hu by lia. unfold table_bytes, table_footer.
  split; [by rewrite <- !(assoc_L (++))|done].
Qed.

Lemma index_from_ok off B :
  0 <= off -> off + len (disk_all B) < 2 ^ 64 -> Forall (fun b => Forall kv_ok b) B ->
  Forall (fun ie => len (IKey ie) < 2 ^ 32 /\ handle_ok (Handle ie)) (index_from off B).
Proof.
  intros Ho Hl HB. revert off Ho Hl. induction HB as [|b B Hb HB IH]; intros off Ho Hl; cbn [index_from]; [done|].
  change (disk_all (b :: B)) with (disk b ++ disk_all B) in Hl. rewrite len_app in Hl.
  pose proof (disk_pos b). pose proof (len_nonneg (disk_all B)). constructor; [|apply IH; lia].
  cbn. split; [|split; cbn; lia]. unfold last_key. destruct (last b) as [e|] eqn:El; cbn; [|len_nils; lia].
  rewrite Forall_forall in Hb. apply (Hb e). apply last_Some in El as [? ->]. set_solver.
Qed.

Lemma OpenReader_table B bf n id :
  Forall (fun b => Forall kv_ok b) B -> filter_ok bf -> 0 <= n < 2 ^ 64 ->
  len (table_bytes B bf n) < 2 ^ 48 ->
  OpenReader (table_bytes B bf n) id = Ok (table_reader B bf n id).
Proof.
  intros HB Hbf Hn Hsmall. pose proof (len_table_bytes B bf n) as Hl.
  pose proof (len_nonneg (disk_all B)). pose proof (len_nonneg (index_bytes B)).
  pose proof (len_nonneg (bloom.Encode bf)).
  unfold OpenReader. set (data := table_bytes B bf n) in *. unfold FooterSize.
  rewrite (proj2 (Z.ltb_ge _ _)) by lia.
  rewrite (read_at_mid data (disk_all B ++ index_bytes B ++ bloom.Encode bf)
    (EncodeFooter (table_footer B bf n)) []).
  2:{ unfold data, table_bytes. by rewrite app_nil_r, <- !(assoc_L (++)). }
  2:{ rewrite !len_app. lia. }
  2:{ by rewrite len_EncodeFooter. }
  rewrite DecodeFooter_Encode; [|split; cbn; lia..|done|done].
  assert (forall h pre mid post, data = pre ++ mid ++ post -> Offset h = len pre -> Size h = len mid ->
    len pre < 2 ^ 63 -> len mid < 2 ^ 48 -> read_part data h = Ok mid) as Hread.
  { intros h pre mid post Hd Ho Hs Hp Hm. unfold read_part, max_alloc.
    rewrite (proj2 (Z.ltb_ge _ _)) by lia. pose proof (len_nonneg pre).
    assert (i64 (Offset h) = len pre) as ->.
    { rewrite i64_small; lia. }
    by rewrite (read_at_mid data pre mid post). }
  cbn [IndexHandle BloomHandle table_footer].
  rewrite (Hread (mkHandle (len (disk_all B)) _) (disk_all B) (index_bytes B) (bloom.Encode bf ++ EncodeFooter (table_footer B bf n)))
    by first [done | cbn [Offset Size]; lia]. cbn [mbind outcome_bind].
  assert (parse_index (length (index_bytes B)) (index_bytes B) 0 [] = Ok (index_from 0 B)) as ->.
  { apply (parse_index_ok (index_from 0 B) _ [] []); [apply index_from_ok; [lia|lia|done]|].
    unfold index_bytes. generalize (index_from 0 B). clear. intros l. induction l as [|ie l IH]; [done|].
    cbn. rewrite length_app. unfold index_entry_bytes at 1. rewrite !length_app, length_put_le. lia. }
  cbn [mbind outcome_bind].
  rewrite (Hread _ (disk_all B ++ index_bytes B) (bloom.Encode bf) (EncodeFooter (table_footer B bf n)))
    by (first [unfold data, table_bytes; app_solve | cbn [Offset Size]; rewrite ?len_app; lia]).
  cbn [mbind outcome_bind]. by rewrite DecodeFilter_Encode.
Qed.

(** ** Reading blocks *)

(** A compressed block must fit the buffer of [readBlock]. *)
Definition readable (b : list kv) : Prop :=
  len (blk_data b) <= 8 * DefaultBlockSize \/
  forall c, CompressBlock (blk_data b) = Some c -> c = [] \/ len (blk_data b) <= len c.

Record table_ok (B : list (list kv)) (bf : bloom.Filter) (n : Z) : Prop := {
  to_kv : Forall (fun b => Forall kv_ok b) B;
  to_blocks : Forall (fun b => b <> []) B;
  to_readable : Forall readable B;
  to_sorted : ksorted CompareKeys (concat B);
  to_bloom : covers Sum128 bf (concat B).*1;
  to_size : len (table_bytes B bf n) < 2 ^ 48;
  to_count : 0 <= n < 2 ^ 64;
}.

Definition block_off (B : list (list kv)) (i : nat) : Z := len (disk_all (take i B)).

(** The cache has, for the tables [T], nothing but their blocks. *)
Definition coherent (c : option cache.BlockCache) (T : Z -> option (list (list kv))) : Prop :=
  match c with
  | None => True
  | Some cc => exists h, cache_ok cc h /\
      forall id o d B, h !! (id, o) = Some d -> T id = Some B ->
        exists i b, B !! i = Some b /\ o = block_off B i /\ d = blk_data b
  end.

Lemma disk_all_split B i b : B !! i = Some b -> disk_all B = disk_all (take i B) ++ disk b ++ disk_all (drop (S i) B).
Proof. intros H. rewrite <- (take_drop_middle _ _ _ H) at 1. rewrite disk_all_app. done. Qed.

Lemma block_off_S B i b : B !! i = Some b -> block_off B (S i) = block_off B i + len (disk b).
Proof.
  intros H. unfold block_off. erewrite take_S_r by done. rewrite disk_all_app, len_app.
  change (disk_all [b]) with (disk b ++ []). by rewrite app_nil_r.
Qed.

Lemma block_off_lt B i j b : B !! i = Some b -> (i < j)%nat -> block_off B i < block_off B j.
Proof.
  intros H Hij. pose proof (block_off_S B i b H) as HS. pose proof (disk_pos b).
  enough (block_off B (S i) <= block_off B j) by lia. unfold block_off.
  rewrite <- (take_drop (S i) (take j B)), take_take, Nat.min_l by lia. rewrite disk_all_app, len_app.
  pose proof (len_nonneg (disk_all (drop (S i) (take j B)))). lia.
Qed.

Lemma block_off_inj B i j a b :
  B !! i = Some a -> B !! j = Some b -> block_off B i = block_off B j -> i = j.
Proof.
  intros Ha Hb E. destruct (decide (i < j)%nat); [pose proof (block_off_lt B i j a Ha ltac:(done)); lia|].
  destruct (decide (j < i)%nat); [pose proof (block_off_lt B j i b Hb ltac:(done))|]; lia.
Qed.

Lemma read_disk B bf n id i b :
  len (table_bytes B bf n) < 2 ^ 48 -> B !! i = Some b ->
  read_part (rdata (table_reader B bf n id)) (mkHandle (block_off B i) (len (disk b))) = Ok (disk b).
Proof.
  intros Hsz Hb. rewrite len_table_bytes in Hsz. pose proof (disk_all_split _ _ _ Hb) as Hd.
  pose proof (f_equal len Hd) as Hl. rewrite !len_app in Hl. fold (block_off B i) in Hl.
  pose proof (len_nonneg (index_bytes B)). pose proof (len_nonneg (bloom.Encode bf)).
  pose proof (len_nonneg (disk_all (take i B))). fold (block_off B i) in *.
  pose proof (len_nonneg (disk_all (drop (S i) B))). pose proof (disk_pos b).
  unfold read_part, max_alloc. cbn [Size Offset rdata table_reader].
  rewrite (proj2 (Z.ltb_ge _ _)) by lia.
  assert (i64 (block_off B i) = block_off B i) as -> by (apply i64_small; lia).
  rewrite (read_at_mid _ (disk_all (take i B)) (disk b) (disk_all (drop (S i) B) ++ index_bytes B ++
    bloom.Encode bf ++ EncodeFooter (table_footer B bf n))); [done| |done|done].
  unfold table_bytes. rewrite Hd at 1. by rewrite <- !(assoc_L (++)).
Qed.

(** What is on disk for a block, by its flag. *)
Lemma disk_cases b :
  (exists c, CompressBlock (blk_data b) = Some c /\ c <> [] /\ len c < len (blk_data b) /\ disk b = Byte.x01 :: c) \/
  ((forall c, CompressBlock (blk_data b) = Some c -> c = [] \/ len (blk_data b) <= len c) /\
   disk b = Byte.x00 :: blk_data b).
Proof.
  pose proof (disk_ok b) as Hk. unfold block_bytes in Hk.
  destruct (CompressBlock (blk_data b)) as [c|] eqn:Ec; [|done].
  destruct (Z.ltb_spec 0 (len c)) as [H0|H0]; cbn [andb] in Hk;
    [destruct (Z.ltb_spec (len c) (len (blk_data b))) as [H1|H1]|]; injection Hk as <-.
  - left. exists c. split_and!; [done|by intros ->|done|done].
  - right. split; [|done]. intros ? [= <-]. by right.
  - right. split; [|done]. intros ? [= <-]. left. destruct c; [done|]. rewrite len_cons in H0.
    pose proof (len_nonneg c). lia.
Qed.

Lemma fetch_ok B bf n id i b :
  len (table_bytes B bf n) < 2 ^ 48 -> B !! i = Some b -> readable b ->
  fetch_block UncompressBlock (table_reader B bf n id) (mkHandle (block_off B i) (len (disk b))) = Ok (blk_data b).
Proof.
  intros Hsz Hb Hr. unfold fetch_block. rewrite read_disk by done. cbn [mbind outcome_bind].
  destruct (disk_cases b) as [(c & Ec & Hne & Hlt & ->)|[_ ->]]; cbv beta iota;
    [change (b2z Byte.x01 =? 1) with true|by change (b2z Byte.x00 =? 1) with false]; cbv iota.
  rewrite (lz4_restore _ c _ Ec Hne); [done|]. destruct Hr as [Hr|Hr]; [done|].
  destruct (Hr c Ec); [done|lia].
Qed.

Lemma table_readBlock_ok B bf n id i b c T :
  len (table_bytes B bf n) < 2 ^ 48 -> T id = Some B -> coherent c T ->
  B !! i = Some b -> readable b ->
  exists c', readBlock UncompressBlock (table_reader B bf n id) (mkHandle (block_off B i) (len (disk b))) c
      = (c', Ok (blk_data b)) /\ coherent c' T.
Proof.
  intros Hsz HT Hc Hb Hr. pose proof (fetch_ok B bf n id i b Hsz Hb Hr) as Hf.
  unfold readBlock. rewrite Hf. destruct c as [cc|]; [|by exists None]. destruct Hc as (h & Hok & Hh).
  cbn [Offset FileID table_reader].
  destruct (Get_cache_ok cc h id (block_off B i) Hok) as (c1 & r & -> & Hok1 & Hr1). destruct r as [d|].
  { exists (Some c1). split; [|by exists h]. destruct (Hh id _ d B (Hr1 d eq_refl) HT) as (j & b' & Hj & Ho & ->).
    pose proof (block_off_inj _ _ _ _ _ Hb Hj Ho) as <-. by simplify_eq. }
  destruct (Put_cache_ok c1 h id (block_off B i) (blk_data b) Hok1) as (c2 & -> & Hok2).
  exists (Some c2). split; [done|]. exists (<[(id, block_off B i) := blk_data b]> h). split; [done|].
  intros id' o d B' [([= <- <-] & <-)|[_ Hl]]%lookup_insert_Some HB'; [|by eapply Hh].
  simplify_eq. by exists i, b.
Qed.

(** ** Lookup *)

Lemma last_key_in b : b <> [] -> last_key b ∈ b.*1.
Proof.
  intros Hb. unfold last_key. destruct (last b) as [e|] eqn:E; [|by apply last_None in E].
  apply last_Some in E as [b' ->]. cbn. rewrite fmap_app. set_solver.
Qed.

Lemma last_key_max b k : ksorted CompareKeys b -> k ∈ b.*1 -> ~ klt CompareKeys (last_key b) k.
Proof.
  unfold last_key. destruct (last b) as [e|] eqn:E.
  2:{ apply last_None in E as ->. by intros _ ?%elem_of_nil. }
  apply last_Some in E as [b' ->]. intros (_ & _ & Hlt)%ksorted_app_inv Hk. cbn.
  rewrite fmap_app in Hk. apply elem_of_app in Hk as [Hk|Hk%list_elem_of_singleton].
  - specialize (Hlt k e.1 Hk). apply klt_asym, Hlt. by left.
  - subst k. apply klt_irrefl.
Qed.

Lemma concat_split (B : list (list kv)) i b :
  B !! i = Some b -> concat B = concat (take i B) ++ b ++ concat (drop (S i) B).
Proof. intros H. rewrite <- (take_drop_middle _ _ _ H) at 1. by rewrite concat_app. Qed.

Lemma in_concat_keys (B : list (list kv)) i b k : B !! i = Some b -> k ∈ b.*1 -> k ∈ (concat B).*1.
Proof. intros Hb Hk. rewrite (concat_split _ _ _ Hb), !fmap_app. set_solver. Qed.

Section sorted_blocks.
Context (B : list (list kv)) (Hne : Forall (fun b => b <> []) B) (Hs : ksorted CompareKeys (concat B)).

Lemma block_ne i b : B !! i = Some b -> b <> [].
Proof. intros Hb. by eapply Forall_lookup_1 in Hne. Qed.

Lemma block_sorted i b : B !! i = Some b -> ksorted CompareKeys b.
Proof.
  intros Hb. rewrite (concat_split _ _ _ Hb) in Hs.
  apply ksorted_app_inv in Hs as (_ & H & _). by apply ksorted_app_inv in H as (? & _ & _).
Qed.

Lemma blocks_lt i j a b k1 k2 :
  B !! i = Some a -> B !! j = Some b -> (i < j)%nat -> k1 ∈ a.*1 -> k2 ∈ b.*1 -> klt CompareKeys k1 k2.
Proof.
  intros Ha Hb Hij H1 H2. rewrite (concat_split _ _ _ Ha) in Hs.
  apply ksorted_app_inv in Hs as (_ & H & _). apply ksorted_app_inv in H as (_ & _ & H).
  apply H; [done|]. apply (in_concat_keys _ (j - S i) b); [|done]. rewrite lookup_drop.
  by replace (S i + (j - S i))%nat with j by lia.
Qed.

(** Whether the block at [i] is at or behind the one that may hold [key]. *)
Definition at_or_behind (key : bytes) (i : nat) : bool :=
  match B !! i with
  | Some b => match CompareKeys (last_key b) key with Lt => false | _ => true end
  | None => true
  end.

Lemma at_or_behind_mono key x y :
  (x <= y)%nat -> at_or_behind key x = true -> at_or_behind key y = true.
Proof.
  intros Hxy. destruct (decide (x = y)) as [->|]; [done|]. unfold at_or_behind.
  destruct (B !! y) as [b|] eqn:Eb; [|done].
  destruct (lookup_lt_is_Some_2 B x) as [a Ea]; [apply lookup_lt_Some in Eb; lia|]. rewrite Ea.
  destruct (CompareKeys (last_key b) key) eqn:E1; [done| |done].
  assert (CompareKeys (last_key a) key = Lt) as ->; [|done].
  apply (ko_trans CompareKeys _ (last_key b)); [|done].
  apply (blocks_lt x y a b); [done..|lia| |]; apply last_key_in; by eapply block_ne.
Qed.

Lemma findBlockIndex_ok bf n id key :
  exists m, findBlockIndex (table_reader B bf n id) key = Ok m /\ (m <= length B)%nat /\
    (forall i, (i < m)%nat -> at_or_behind key i = false) /\
    (forall i, (m <= i)%nat -> at_or_behind key i = true).
Proof.
  unfold findBlockIndex. cbn [rindex table_reader]. rewrite index_from_length.
  edestruct (sort_search_ok (fun i => match index_from 0 B !! i with
    | Some ie => Ok (match CompareKeys (IKey ie) key with Lt => false | _ => true end)
    | None => Panic end) (at_or_behind key) (length B) 0 (length B)) as (m & E & Hm & H1 & H2).
  - intros x Hx. destruct (lookup_lt_is_Some_2 B x) as [b Eb]; [lia|].
    assert (index_from 0 B !! x = Some (mkIndex (last_key b) (mkHandle (0 + len (disk_all (take x B))) (len (disk b))))) as ->.
    { apply index_from_lookup. by exists b. }
    unfold at_or_behind. by rewrite Eb.
  - intros x y. apply at_or_behind_mono.
  - lia.
  - lia.
  - exists m. split_and!; [done|lia|intros; apply H1; lia|]. intros i Hi.
    destruct (decide (i < length B)%nat); [apply H2; lia|]. unfold at_or_behind.
    by rewrite lookup_ge_None_2 by lia.
Qed.

Lemma keys_before key m k :
  (forall i, (i < m)%nat -> at_or_behind key i = false) -> k ∈ (concat (take m B)).*1 -> klt CompareKeys k key.
Proof.
  intros Hm Hk. apply list_elem_of_fmap in Hk as (e & -> & He). apply list_elem_of_In, in_concat in He as (b & Hb & He).
  apply list_elem_of_In, list_elem_of_lookup in Hb as [i Hi]. apply lookup_take_Some in Hi as [Hb Hi].
  specialize (Hm i Hi). unfold at_or_behind in Hm. rewrite Hb in Hm.
  destruct (CompareKeys (last_key b) key) eqn:E; [done| |done].
  assert (e.1 ∈ b.*1) as Hin by (apply list_elem_of_fmap; exists e; split; [done|by apply list_elem_of_In]).
  pose proof (last_key_max b e.1 (block_sorted i b Hb) Hin) as Hmax.
  destruct (ko_trichotomy (cmp := CompareKeys) e.1 (last_key b)) as [H|[->|H]]; [|done|done].
  by apply (ko_trans CompareKeys _ (last_key b)).
Qed.

Lemma assoc_before key l :
  (forall k, k ∈ l.*1 -> klt CompareKeys k key) -> assoc CompareKeys key l = (None : option (option bytes)).
Proof. intros H. apply assoc_none, Forall_forall. intros k Hk. by eapply klt_ne, H. Qed.

(** The first block whose last key is not below the key decides. *)
Lemma assoc_concat_block key m b :
  (forall i, (i < m)%nat -> at_or_behind key i = false) -> B !! m = Some b -> at_or_behind key m = true ->
  assoc CompareKeys key (concat B) = assoc CompareKeys key b.
Proof.
  intros Hm Hb Hge. rewrite (concat_split _ _ _ Hb), !assoc_app.
  rewrite assoc_before by (intros k; by apply keys_before).
  destruct (assoc CompareKeys key b) as [v|] eqn:E; [done|].
  apply assoc_none, Forall_forall. intros k Hk ->. unfold at_or_behind in Hge. rewrite Hb in Hge.
  apply list_elem_of_fmap in Hk as (e & -> & He). apply list_elem_of_In, in_concat in He as (b' & Hb' & He).
  apply list_elem_of_In, list_elem_of_lookup in Hb' as [i Hi]. rewrite lookup_drop in Hi.
  assert (klt CompareKeys (last_key b) e.1) as Hlt; [|unfold klt in Hlt; by rewrite Hlt in Hge].
  apply (blocks_lt m (S m + i) b b'); [done..|lia|by apply last_key_in, (block_ne m)|].
  apply list_elem_of_fmap. exists e. split; [done|]. by apply list_elem_of_In.
Qed.
End sorted_blocks.

Lemma table_index_lookup B bf n id i :
  rindex (table_reader B bf n id) !! i =
    (fun b => mkIndex (last_key b) (mkHandle (block_off B i) (len (disk b)))) <$> B !! i.
Proof.
  cbn [rindex table_reader]. destruct (B !! i) as [b|] eqn:Eb; cbn.
  - apply index_from_lookup. by exists b.
  - apply lookup_ge_None_2. rewrite index_from_length. by apply lookup_ge_None_1.
Qed.

Lemma length_blk_data es : (length es <= length (blk_data es))%nat.
Proof.
  induction es as [|e es IH]; [done|]. change (blk_data (e :: es)) with (entry_bytes e.1 e.2 ++ blk_data es).
  rewrite length_app. pose proof (len_entry_pos e). cbn. unfold len in *. lia.
Qed.

Lemma Get_table B bf n id key c T :
  table_ok B bf n -> T id = Some B -> coherent c T ->
  exists c', Get Sum128 UncompressBlock (table_reader B bf n id) key c
      = (c', Ok (assoc CompareKeys key (concat B))) /\ coherent c' T.
Proof.
  intros [Hkv Hne Hrd Hs [Hbf Hcov] Hsz _] HT Hc. unfold Get. cbn [rbloom table_reader].
  specialize (Hcov key). rewrite MayContain_ok in Hcov by done. rewrite MayContain_ok by done.
  erewrite st_bind_ok by done. destruct (forallb _ _); cbn [negb].
  2:{ exists c. split; [|done]. rewrite assoc_none; [done|]. apply Forall_forall. intros k Hk ->.
      by specialize (Hcov Hk). }
  destruct (findBlockIndex_ok B Hne Hs bf n id key) as (m & E & Hm & Hlo & Hhi).
  erewrite st_bind_ok by (unfold lift; by rewrite E). rewrite table_index_lookup.
  destruct (B !! m) as [b|] eqn:Eb; cbn [fmap option_fmap option_map Handle].
  - destruct (table_readBlock_ok B bf n id m b c T) as (c' & Er & Hc'); [done..|by eapply Forall_lookup_1|].
    erewrite st_bind_ok by exact Er. exists c'. split; [|done]. unfold lift. f_equal.
    rewrite (assoc_concat_block B Hne Hs key m b) by (done || by apply Hhi).
    apply (scan_block_ok key b _ []); [by eapply Forall_lookup_1 in Hkv|by eapply block_sorted|].
    apply length_blk_data.
  - exists c. split; [|done]. apply lookup_ge_None_1 in Eb. rewrite (assoc_before); [done|].
    intros k Hk. apply (keys_before B Hs key m); [done|]. by rewrite take_ge by lia.
Qed.

(** ** Iteration *)

(** The iterator is at the head of [l], the part of the table that is left. *)
Definition it_at (B : list (list kv)) (it : Iterator) (l : list kv) : Prop :=
  ierr it = None /\
  match l with
  | [] => valid it = false
  | e :: _ => valid it = true /\ current it = e /\ exists pre post,
      B !! blockIdx it = Some (pre ++ e :: post) /\ l = e :: post ++ concat (drop (S (blockIdx it)) B) /\
      blockData it = blk_data (pre ++ e :: post) /\ ioffset it = len (blk_data (pre ++ [e]))
  end.

Lemma it_at_Valid B it l : it_at B it l -> Valid it = match l with [] => false | _ => true end.
Proof. intros [He Hl]. unfold Valid. rewrite He. destruct l; [by rewrite Hl|]. by destruct Hl as [-> _]. Qed.

Section iterate.
Context (B : list (list kv)) (bf : bloom.Filter) (n id : Z) (T : Z -> option (list (list kv))).
Context (Hok : table_ok B bf n) (HT : T id = Some B).

Lemma parse_at pre e post :
  Forall kv_ok (pre ++ e :: post) ->
  parse_entry (blk_data (pre ++ e :: post)) (len (blk_data pre)) = Ok (e, len (blk_data (pre ++ [e]))).
Proof.
  intros Hk. rewrite (parse_entry_ok _ (blk_data pre) e.1 e.2 (blk_data post)); [|by rewrite blk_data_app|done|].
  - destruct e as [k v]. do 2 f_equal. rewrite blk_data_app, len_app. f_equal. cbn.
    by rewrite app_nil_r.
  - apply Forall_app in Hk as [_ Hk]. apply Forall_cons in Hk as [Hk _]. by destruct e.
Qed.

Lemma block_kv i b : B !! i = Some b -> Forall kv_ok b.
Proof. destruct Hok as [Hkv _ _ _ _ _ _]. intros H. by eapply Forall_lookup_1 in Hkv. Qed.

Lemma loadBlock_ok fuel it c :
  coherent c T -> ierr it = None -> (0 < fuel)%nat ->
  exists c' it', loadBlock UncompressBlock fuel (table_reader B bf n id) it c = (c', Ok it') /\
    coherent c' T /\ it_at B it' (concat (drop (blockIdx it) B)).
Proof.
  intros Hc He Hf. destruct fuel as [|fuel]; [lia|]. cbn [loadBlock].
  cbn [set_valid blockIdx]. rewrite table_index_lookup. destruct (B !! blockIdx it) as [b|] eqn:Eb.
  2:{ cbn. eexists _, _. split; [done|]. split; [done|]. rewrite drop_ge by (by apply lookup_ge_None_1). done. }
  cbn [fmap option_fmap option_map Handle]. pose proof Hok as [Hkv Hne Hrd _ _ Hsz _].
  destruct (table_readBlock_ok B bf n id (blockIdx it) b c T) as (c' & Er & Hc'); [done..|by eapply Forall_lookup_1|].
  rewrite Er. pose proof (block_kv _ _ Eb) as Hkb. destruct b as [|e post].
  { by eapply Forall_lookup_1 in Hne. }
  rewrite (proj2 (Z.ltb_lt _ _)).
  2:{ change (blk_data (e :: post)) with (entry_bytes e.1 e.2 ++ blk_data post). rewrite len_app.
      pose proof (len_entry_pos e). pose proof (len_nonneg (blk_data post)). lia. }
  pose proof (parse_at [] e post Hkb) as Hp. change (len (blk_data [])) with 0 in Hp. cbn [app] in Hp.
  rewrite Hp. destruct e as [k v].
  eexists _, _. split; [done|]. split; [done|]. split; [done|].
  rewrite (drop_S _ _ _ Eb). cbn [concat app]. split_and!; [done..|]. by exists [], post.
Qed.

Lemma Next_ok it e l c :
  coherent c T -> it_at B it (e :: l) ->
  exists c' it', Next UncompressBlock (table_reader B bf n id) it c = (c', Ok it') /\
    coherent c' T /\ it_at B it' l.
Proof.
  intros Hc (He & Hv & Hcur & pre & post & Hb & Hl & Hd & Ho). injection Hl as ->.
  unfold Next. rewrite Hv. cbn [negb]. rewrite Hd, Ho.
  replace (pre ++ e :: post) with ((pre ++ [e]) ++ post) in * by (by rewrite <- (assoc_L (++))).
  rewrite (blk_data_app (pre ++ [e]) post), len_app. destruct post as [|e' post].
  - rewrite (proj2 (Z.leb_le _ _)) by (change (len (blk_data [])) with 0; lia).
    edestruct (loadBlock_ok (load_fuel (table_reader B bf n id))) as (c' & it' & E & H1 & H2);
      [done| |unfold load_fuel; lia|]; [|exists c', it'; split; [exact E|]; split; [done|]]; [done|].
    done.
  - rewrite (proj2 (Z.leb_gt _ _)).
    2:{ change (blk_data (e' :: post)) with (entry_bytes e'.1 e'.2 ++ blk_data post). rewrite len_app.
        pose proof (len_entry_pos e'). pose proof (len_nonneg (blk_data post)). lia. }
    rewrite <- blk_data_app. rewrite parse_at by (by eapply block_kv). destruct e' as [k v].
    eexists _, _. split; [done|]. split; [done|]. split; [done|]. cbn [app]. split_and!; [done..|].
    exists (pre ++ [e]), post. done.
Qed.

(** The loop [for it.Valid() { ...; it.Next() }] of a client. *)
Fixpoint collect (fuel : nat) (r : Reader) (it : Iterator) : st sst_error (option cache.BlockCache) (list kv) :=
  if Valid it then
    match fuel with
    | O => lift Fuel
    | S fuel =>
        it' ← Next UncompressBlock r it;
        l ← collect fuel r it';
        mret (current it :: l)
    end
  else mret [].

Lemma table_collect_ok l : forall fuel it c,
  coherent c T -> it_at B it l -> (length l <= fuel)%nat ->
  exists c', collect fuel (table_reader B bf n id) it c = (c', Ok l) /\ coherent c' T.
Proof.
  induction l as [|e l IH]; intros fuel it c Hc Hit Hf.
  { exists c. split; [|done]. destruct fuel; cbn [collect]; by rewrite (it_at_Valid _ _ _ Hit). }
  destruct fuel as [|fuel]; [cbn in Hf; lia|]. cbn [collect]. rewrite (it_at_Valid _ _ _ Hit).
  destruct (Next_ok it e l c Hc Hit) as (c1 & it1 & E1 & Hc1 & Hit1).
  destruct (IH fuel it1 c1 Hc1 Hit1) as (c2 & E2 & Hc2); [cbn in Hf; lia|].
  exists c2. split; [|done]. erewrite st_bind_ok by exact E1. erewrite st_bind_ok by exact E2.
  destruct Hit as (_ & _ & -> & _). done.
Qed.

Lemma entries_from_head target e l :
  ksorted CompareKeys (e :: l) -> ~ klt CompareKeys e.1 target -> entries_from target (e :: l) = e :: l.
Proof.
  intros [_ Hf]%StronglySorted_inv He. unfold entries_from. rewrite filter_cons_True by done. f_equal.
  apply filter_true, Forall_forall. intros x Hx Hlt. rewrite Forall_forall in Hf.
  specialize (Hf x.1 (list_elem_of_fmap_2 fst _ _ Hx)). apply He. by apply (ko_trans CompareKeys _ x.1).
Qed.

Lemma seek_loop_ok target l : forall fuel it c,
  coherent c T -> it_at B it l -> ksorted CompareKeys l -> (length l <= fuel)%nat ->
  exists c' it', seek_loop UncompressBlock fuel (table_reader B bf n id) target it c = (c', Ok it') /\
    coherent c' T /\ it_at B it' (entries_from target l).
Proof.
  induction l as [|e l IH]; intros fuel it c Hc Hit Hs Hf.
  { exists c, it. split; [|done]. destruct fuel; cbn [seek_loop]; by rewrite (it_at_Valid _ _ _ Hit). }
  destruct fuel as [|fuel]; [cbn in Hf; lia|]. cbn [seek_loop]. rewrite (it_at_Valid _ _ _ Hit).
  pose proof Hit as (_ & _ & -> & _). destruct (decide (klt CompareKeys e.1 target)) as [Hlt|Hge].
  - destruct (Next_ok it e l c Hc Hit) as (c1 & it1 & E1 & Hc1 & Hit1).
    destruct (IH fuel it1 c1 Hc1 Hit1) as (c2 & it2 & E2 & Hc2 & Hit2);
      [by apply StronglySorted_inv in Hs as [? _]|cbn in Hf; lia|].
    exists c2, it2. rewrite Hlt. split; [erewrite st_bind_ok by exact E1; exact E2|]. split; [done|].
    unfold entries_from. rewrite filter_cons_False by tauto. exact Hit2.
  - exists c, it. rewrite entries_from_head by done. split; [|done].
    destruct (CompareKeys e.1 target) eqn:E; [done| |done]. by destruct Hge.
Qed.

(** [seek_fuel] is enough. *)
Lemma block_entries i b :
  B !! i = Some b ->
  (length b <= Z.to_nat (8 * DefaultBlockSize) + length (table_bytes B bf n))%nat.
Proof.
  intros Hb. pose proof (length_blk_data b) as Hl. destruct Hok as [_ _ Hrd _ _ _ _].
  eapply Forall_lookup_1 in Hrd; [|exact Hb]. destruct Hrd as [Hr|Hr]; [unfold len in Hr; lia|].
  destruct (disk_cases b) as [(c & Ec & Hne & Hlt & _)|[_ Hd]]; [destruct (Hr c Ec); [done|lia]|].
  unfold table_bytes. rewrite (disk_all_split _ _ _ Hb), Hd, !length_app. cbn. lia.
Qed.

Lemma concat_length_le (L : list (list kv)) m :
  (forall b, b ∈ L -> length b <= m)%nat -> (length (concat L) <= length L * m)%nat.
Proof.
  induction L as [|b L IH]; intros H; [done|]. cbn. rewrite length_app.
  specialize (IH (fun b' Hb' => H b' (list_elem_of_further _ _ _ Hb'))). specialize (H b (list_elem_of_here _ _)). lia.
Qed.

Lemma table_entries : (length (concat B) <= seek_fuel (table_reader B bf n id))%nat.
Proof.
  unfold seek_fuel. cbn [rindex rdata table_reader]. rewrite index_from_length. apply concat_length_le.
  intros b [i Hi]%list_elem_of_lookup. by eapply block_entries.
Qed.

Lemma Seek_ok target it c :
  coherent c T -> ierr it = None ->
  exists c' it', Seek UncompressBlock (table_reader B bf n id) target it c = (c', Ok it') /\
    coherent c' T /\ it_at B it' (entries_from target (concat B)).
Proof.
  intros Hc He. pose proof Hok as [_ Hne _ Hs _ _ _].
  destruct (findBlockIndex_ok B Hne Hs bf n id target) as (m & Em & _ & Hlo & _).
  edestruct (loadBlock_ok (load_fuel (table_reader B bf n id))
    (mkIter m (ioffset it) (ierr it) (blockData it) (current it) (valid it)) c)
    as (c1 & it1 & E1 & Hc1 & Hit1); [done|done|unfold load_fuel; lia|]. cbn [blockIdx] in Hit1.
  rewrite <- (take_drop m B), concat_app in Hs at 1. apply ksorted_app_inv in Hs as (_ & Hs & _).
  destruct (seek_loop_ok target _ (seek_fuel (table_reader B bf n id)) it1 c1 Hc1 Hit1 Hs)
    as (c2 & it2 & E2 & Hc2 & Hit2).
  { pose proof table_entries. pose proof (f_equal length (concat_app (take m B) (drop m B))) as Hl.
    rewrite take_drop, length_app in Hl. lia. }
  exists c2, it2. split; [|split; [done|]].
  - unfold Seek. erewrite st_bind_ok by (unfold lift; by rewrite Em). by erewrite st_bind_ok by exact E1.
  - enough (entries_from target (concat B) = entries_from target (concat (drop m B))) as -> by exact Hit2.
    rewrite <- (take_drop m B) at 1. rewrite concat_app. unfold entries_from. rewrite filter_app.
    rewrite filter_false; [done|]. apply Forall_forall. intros e He' Hn. apply Hn. destruct Hok as [_ _ _ Hs' _ _ _].
    apply (keys_before B Hs' target m); [done|]. by apply list_elem_of_fmap_2.
Qed.
End iterate.

(** ** Writing a table *)

Fixpoint add_all (es : list kv) : st sst_error Writer unit :=
  match es with
  | [] => mret tt
  | (k, v) :: es => Add Sum128 CompressBlock k v;; add_all es
  end.

(** The file of a table of [es]. *)
Definition write_table (blockSize bloomBitsPerKey : Z) (es : list kv) : outcome sst_error bytes :=
  match (add_all es;; Close CompressBlock) (NewWriter [] blockSize bloomBitsPerKey) with
  | (w, Ok _) => Ok (fdata (file w))
  | (_, Err e) => Err e
  | (_, Panic) => Panic
  | (_, Fuel) => Fuel
  end.

Definition small (b : list kv) : Prop := len (blk_data b) <= 8 * DefaultBlockSize.

Lemma len_blk_data_app a b : len (blk_data (a ++ b)) = len (blk_data a) + len (blk_data b).
Proof. by rewrite blk_data_app, len_app. Qed.

Lemma len_disk b : len (disk b) <= 1 + len (blk_data b).
Proof. destruct (disk_cases b) as [(c & _ & _ & Hlt & ->)|[_ ->]]; rewrite len_cons; lia. Qed.

Lemma len_blk_nonempty b : b <> [] -> 8 + len (last_key b) <= len (blk_data b).
Proof.
  intros Hb. unfold last_key. destruct (last b) as [e|] eqn:E; [|by apply last_None in E].
  apply last_Some in E as [b' ->]. rewrite len_blk_data_app. cbn [fmap option_fmap option_map default from_option].
  change (blk_data [e]) with (entry_bytes e.1 e.2 ++ []). rewrite app_nil_r, len_entry.
  pose proof (len_nonneg (blk_data b')). unfold default, from_option, id.
  destruct e.2 as [v|]; [pose proof (len_nonneg v)|]; lia.
Qed.

Lemma len_disk_all B : Forall (fun b => b <> []) B -> len (disk_all B) <= 2 * len (blk_data (concat B)).
Proof.
  induction 1 as [|b B Hb HB IH]; [done|]. change (disk_all (b :: B)) with (disk b ++ disk_all B).
  cbn [concat]. rewrite len_app, len_blk_data_app. pose proof (len_disk b). pose proof (len_blk_nonempty b Hb).
  pose proof (len_nonneg (last_key b)). lia.
Qed.

Lemma len_index_bytes off B : Forall (fun b => b <> []) B ->
  len (concat (map index_entry_bytes (index_from off B))) <= 4 * len (blk_data (concat B)).
Proof.
  intros HB. revert off. induction HB as [|b B Hb HB IH]; intros off; [done|]. cbn [concat index_from map].
  rewrite len_app, len_blk_data_app. specialize (IH (off + len (disk b))). unfold index_entry_bytes at 1.
  cbn [IKey Handle]. rewrite !len_app, len_put_le, len_EncodeHandle. pose proof (len_blk_nonempty b Hb).
  pose proof (len_nonneg (last_key b)). lia.
Qed.

Lemma table_size B bf n :
  Forall (fun b => b <> []) B -> filter_ok bf -> len (blk_data (concat B)) < 2 ^ 40 ->
  len (table_bytes B bf n) < 2 ^ 48.
Proof.
  intros HB Hbf Hl. rewrite len_table_bytes. pose proof (len_disk_all B HB). pose proof (len_index_bytes 0 B HB).
  fold (index_bytes B) in *. destruct Hbf as [_ Hn H32 _]. unfold bloom.Encode. rewrite len_cons. lia.
Qed.

(** ** A writer after the entries [es]: its blocks are within the buffer of a reader. *)
Definition wrote (w : Writer) (es : list kv) : Prop :=
  exists B cur, writer_inv w B cur /\ concat (B ++ [cur]) = es /\ Forall small B /\
    len (blk_data cur) < blockSize w.

Definition fits (bs : Z) (e : kv) : Prop := kv_ok e /\ bs + len (entry_bytes e.1 e.2) <= 8 * DefaultBlockSize.

Lemma Add_wrote w es k v :
  0 < blockSize w -> fits (blockSize w) (k, v) -> wrote w es -> len (blk_data (es ++ [(k, v)])) < 2 ^ 40 ->
  exists w', Add Sum128 CompressBlock k v w = (w', Ok tt) /\ wrote w' (es ++ [(k, v)]) /\ blockSize w' = blockSize w.
Proof.
  intros Hbs [Hkv Hfit] (B & cur & Hinv & <- & Hsm & Hcur) Hl.
  assert (Forall (fun b => b <> []) (B ++ [cur ++ [(k, v)]])) as Hne.
  { apply Forall_app. split; [apply (wi_blocks _ _ _ Hinv)|]. apply Forall_singleton. intros [_ ?]%app_nil. done. }
  assert (concat (B ++ [cur ++ [(k, v)]]) = concat (B ++ [cur]) ++ [(k, v)]) as Hcc.
  { rewrite !concat_app. cbn. by rewrite !app_nil_r, (assoc_L (++)). }
  destruct (Add_ok_table w B cur k v Hinv) as (w' & B' & cur' & E & Hinv' & Hc & Hb & Hcase).
  { pose proof (len_disk_all _ Hne) as Hd. rewrite Hcc in Hd. lia. }
  exists w'. split; [done|]. split; [|done]. exists B', cur'. split_and!; [done..| |]; rewrite ?Hb.
  - destruct Hcase as [(_ & -> & _)|(_ & ->)]; [done|]. apply Forall_app. split; [done|].
    apply Forall_singleton. unfold small. rewrite len_blk_data_app.
    change (blk_data [(k, v)]) with (entry_bytes k v ++ []). rewrite app_nil_r. cbn [fst snd] in Hfit. lia.
  - destruct Hcase as [(_ & _ & ?)|(-> & _)]; [done|]. by change (len (blk_data [])) with 0.
Qed.

Lemma add_all_wrote bs es : forall w es0,
  0 < bs -> blockSize w = bs -> Forall (fits bs) es -> wrote w es0 -> len (blk_data (es0 ++ es)) < 2 ^ 40 ->
  exists w', add_all es w = (w', Ok tt) /\ wrote w' (es0 ++ es) /\ blockSize w' = bs.
Proof.
  induction es as [|[k v] es IH]; intros w es0 Hbs Hw Hf Hwr Hl.
  { exists w. by rewrite app_nil_r. }
  apply Forall_cons in Hf as [He Hf]. rewrite (cons_middle (k, v) es0 es), (assoc_L (++)) in *.
  destruct (Add_wrote w es0 k v) as (w1 & E1 & H1 & Hb1); [congruence|congruence|done| |].
  { rewrite len_blk_data_app in Hl. pose proof (len_nonneg (blk_data es)). lia. }
  destruct (IH w1 (es0 ++ [(k, v)]) Hbs) as (w2 & E2 & H2 & Hb2); [congruence|done..|].
  exists w2. split; [|done]. cbn [add_all]. by erewrite st_bind_ok by exact E1.
Qed.

Lemma NewWriter_wrote bs bits :
  0 < bs -> 10000 * Z.max 1 bits < 2 ^ 32 - 7 -> wrote (NewWriter [] bs bits) [].
Proof.
  intros Hbs Hbits. exists [], []. split_and!; [|done..|by constructor|done].
  destruct (NewFilter_ok 10000 bits) as (Hf & _); [lia|].
  split; try done; cbn [concat app]; by apply covers_nil.
Qed.

Lemma Close_wrote bs w es :
  0 < bs -> blockSize w = bs -> Forall (fits bs) es -> ksorted CompareKeys es -> wrote w es ->
  len (blk_data es) < 2 ^ 40 ->
  exists w' B, Close CompressBlock w = (w', Ok tt) /\ faults (file w') = [] /\
    fdata (file w') = table_bytes B (wbloom w) (entryCount w) /\
    table_ok B (wbloom w) (entryCount w) /\ concat B = es.
Proof.
  intros Hbs Hbw Hf Hs (B & cur & Hinv & Hc & Hsm & Hcur) Hl. set (B' := close_block B cur).
  assert (concat B' = es) as Hc'.
  { unfold B', close_block. rewrite <- Hc, !concat_app. by destruct (decide (cur = [])) as [->|]. }
  assert (Forall (fun b => b <> []) B') as Hne.
  { unfold B', close_block. apply Forall_app. split; [apply (wi_blocks _ _ _ Hinv)|]. by destruct (decide _); repeat constructor. }
  assert (filter_ok (wbloom w)) as Hbf by apply (wi_bloom _ _ _ Hinv).
  assert (len (table_bytes B' (wbloom w) (entryCount w)) < 2 ^ 48) as Hsz by (apply table_size; congruence).
  destruct (Close_ok_table w B cur Hinv Hsz) as (w' & E' & Hd & Hfw).
  exists w', B'. split_and!; [done..| |done].
  assert (Forall (fun b => Forall (fits bs) b) B') as Hfit.
  { apply Forall_forall. intros b [i Hi]%list_elem_of_lookup. rewrite <- Hc', (concat_split _ _ _ Hi) in Hf.
    apply Forall_app in Hf as [_ Hf]. by apply Forall_app in Hf as [? _]. }
  split; try done.
  - eapply Forall_impl; [exact Hfit|]. intros b Hb. eapply Forall_impl; [exact Hb|]. by intros e [? _].
  - unfold B', close_block in *. apply Forall_app. split.
    + eapply Forall_impl; [exact Hsm|]. intros b Hb. by left.
    + apply Forall_app in Hfit as [_ Hfit]. destruct (decide (cur = [])) as [|Hcn]; [done|].
      apply Forall_singleton. left. rewrite Forall_singleton in Hfit. destruct cur as [|e cur]; [done|].
      apply Forall_cons in Hfit as [[_ He] _]. pose proof (len_entry_pos e). lia.
  - by rewrite Hc'.
  - rewrite Hc', <- Hc. apply (wi_bloom _ _ _ Hinv).
  - rewrite (wi_count _ _ _ Hinv). unfold u64. apply Z.mod_pos_bound. lia.
Qed.

Lemma write_table_ok bs bits es :
  0 < bs -> 10000 * Z.max 1 bits < 2 ^ 32 - 7 -> Forall (fits bs) es -> ksorted CompareKeys es ->
  len (blk_data es) < 2 ^ 40 ->
  exists B bf n, write_table bs bits es = Ok (table_bytes B bf n) /\ table_ok B bf n /\ concat B = es.
Proof.
  intros Hbs Hbits Hf Hs Hl.
  destruct (add_all_wrote bs es (NewWriter [] bs bits) [] Hbs eq_refl Hf (NewWriter_wrote bs bits Hbs Hbits) Hl)
    as (w & E & Hw & Hbw). cbn [app] in Hw.
  destruct (Close_wrote bs w es) as (w' & B & E' & _ & Hd & Hok & Hc); [done..|].
  exists B, (wbloom w), (entryCount w). split_and!; [|done|done].
  unfold write_table. erewrite st_bind_ok by exact E. by rewrite E', Hd.
Qed.

(** A cache without blocks of the file [id], or no cache. *)
Definition fresh_for (id : Z) (c : option cache.BlockCache) : Prop :=
  match c with
  | None => True
  | Some cc => exists h, cache_ok cc h /\ forall o, h !! (id, o) = None
  end.

(** The table [B] under the number [id]. *)
Definition only (id : Z) (B : list (list kv)) : Z -> option (list (list kv)) :=
  fun i => if decide (i = id) then Some B else None.

Lemma only_self id B : only id B id = Some B.
Proof. unfold only. by rewrite decide_True. Qed.

Lemma fresh_coherent id c B : fresh_for id c -> coherent c (only id B).
Proof.
  destruct c as [cc|]; [|done]. intros (h & Hok & Hn). exists h. split; [done|].
  intros id' o d B' Hh HB. unfold only in HB. case_decide as Hid; [|done]. subst id'. by rewrite Hn in Hh.
Qed.

Lemma mapM_Get B bf n id T keys : forall c,
  table_ok B bf n -> T id = Some B -> coherent c T ->
  exists c', mapM (Get Sum128 UncompressBlock (table_reader B bf n id)) keys c
    = (c', Ok (map (fun k => assoc CompareKeys k (concat B)) keys)) /\ coherent c' T.
Proof.
  induction keys as [|k keys IH]; intros c Hok HT Hc; [by exists c|].
  destruct (Get_table B bf n id k c T Hok HT Hc) as (c1 & E1 & Hc1).
  destruct (IH c1 Hok HT Hc1) as (c2 & E2 & Hc2). exists c2. split; [|done]. cbn [mapM map].
  erewrite st_bind_ok by exact E1. by erewrite st_bind_ok by exact E2.
Qed.

Lemma OpenReader_ok B bf n id :
  table_ok B bf n -> OpenReader (table_bytes B bf n) id = Ok (table_reader B bf n id).
Proof. intros [? ? ? ? [? ?] ? ?]. by apply OpenReader_table. Qed.

(** ** Properties *)


(** Iteration over a table.  From its first entry an iterator of a table passes
    exactly the entries that were written, in order; after [Seek] to a key, wherever the
    iterator was, exactly those whose key is not below it. *)
Theorem sstable_iterates (bs bits id : Z) (es : list kv)
    (Hbs : 0 < bs) (Hbits : 10000 * Z.max 1 bits < 2 ^ 32 - 7) (Hfit : Forall (fits bs) es)
    (Hsorted : ksorted CompareKeys es) (Hsize : len (blk_data es) < 2 ^ 40) :
  exists data r, write_table bs bits es = Ok data /\ OpenReader data id = Ok r /\
    forall c target, fresh_for id c ->
      exists c1 it c2 c3 it' c4, NewIterator UncompressBlock r c = (c1, Ok it) /\
        collect (length es) r it c1 = (c2, Ok es) /\
        Seek UncompressBlock r target it c2 = (c3, Ok it') /\
        collect (length es) r it' c3 = (c4, Ok (entries_from target es)).
Proof.
  destruct (write_table_ok bs bits es Hbs Hbits Hfit Hsorted Hsize) as (B & bf & n & E & Hok & <-).
  exists (table_bytes B bf n), (table_reader B bf n id). split_and!; [done|by apply OpenReader_ok|].
  intros c target Hc. set (T := only id B). assert (T id = Some B) as HT by apply only_self.
  apply (fresh_coherent id c B) in Hc. fold T in Hc.
  destruct (loadBlock_ok B bf n id T Hok HT (load_fuel (table_reader B bf n id)) (mkIter 0 0 None [] ([], None) false) c)
    as (c1 & it & E1 & Hc1 & Hit); [done|done|unfold load_fuel; lia|]. cbn [blockIdx drop] in Hit.
  destruct (table_collect_ok B bf n id T Hok HT _ (length (concat B)) it c1 Hc1 Hit) as (c2 & E2 & Hc2); [done|].
  destruct (Seek_ok B bf n id T Hok HT target it c2 Hc2) as (c3 & it' & E3 & Hc3 & Hit'); [apply Hit|].
  destruct (table_collect_ok B bf n id T Hok HT _ (length (concat B)) it' c3 Hc3 Hit') as (c4 & E4 & _);
    [apply length_filter|].
  by exists c1, it, c2, c3, it', c4.
Qed.

(** A block that compresses well is lost.  [readBlock] decompresses into a buffer
    of 32 KiB, the writer has no such bound: a table of one entry that is larger and
    that LZ4 shrinks is written and opened without an error, and the lookup of its key
    fails. *)
Theorem sstable_large_block_unreadable (bs bits id : Z) (k : bytes) (v : option bytes) (c : bytes)
    (Hbits : 10000 * Z.max 1 bits < 2 ^ 32 - 7) (Hkv : kv_ok (k, v))
    (Hc : CompressBlock (entry_bytes k v) = Some c) (Hne : c <> []) (Hlt : len c < len (entry_bytes k v))
    (Hlarge : 8 * DefaultBlockSize < len (entry_bytes k v))
    (Hshort : forall u c n, CompressBlock u = Some c -> c <> [] -> n < len u -> UncompressBlock c n = None) :
  exists data r, write_table bs bits [(k, v)] = Ok data /\ OpenReader data id = Ok r /\
    Get Sum128 UncompressBlock r k None = (None, Err ErrLz4).
Proof.
  destruct (NewFilter_ok 10000 bits) as (Hf & _); [lia|].
  assert (writer_inv (NewWriter [] bs bits) [] []) as Hinv0 by (split; try done; by apply covers_nil).
  assert (blk_data [(k, v)] = entry_bytes k v) as Hbd by apply app_nil_r.
  assert (len (blk_data [(k, v)]) < 2 ^ 40) as Hsz.
  { rewrite Hbd, len_entry. destruct Hkv. cbn [fst snd] in *. destruct v; lia. }
  pose proof (len_disk [(k, v)]) as Hld. set (B := [[(k, v)]]).
  destruct (Add_ok_table (NewWriter [] bs bits) [] [] k v Hinv0) as (w & B0 & cur & E & Hinv & _ & _ & Hcase).
  { change (disk_all ([] ++ [[] ++ [(k, v)]])) with (disk [(k, v)] ++ []). rewrite app_nil_r. lia. }
  assert (close_block B0 cur = B) as Hcb by (destruct Hcase as [(-> & -> & _)|(-> & ->)]; done).
  assert (concat (B0 ++ [cur]) = [(k, v)]) as Hcc by (destruct Hcase as [(-> & -> & _)|(-> & ->)]; done).
  destruct (wi_bloom _ _ _ Hinv) as [Hbf Hcov]. rewrite Hcc in Hcov.
  assert (Forall (fun b => b <> []) B) as HBne by (by repeat constructor).
  assert (len (table_bytes B (wbloom w) (entryCount w)) < 2 ^ 48) as Hts by (by apply table_size).
  destruct (Close_ok_table w B0 cur Hinv) as (w' & E' & Hd & _); rewrite Hcb in *; [done|].
  exists (table_bytes B (wbloom w) (entryCount w)), (table_reader B (wbloom w) (entryCount w) id). split_and!.
  - unfold write_table. cbn [add_all]. erewrite st_bind_ok; [by rewrite E', Hd|]. by erewrite st_bind_ok by exact E.
  - apply OpenReader_table; [by apply Forall_singleton, Forall_singleton|done| |done]. rewrite (wi_count _ _ _ Hinv).
    unfold u64. apply Z.mod_pos_bound. lia.
  - unfold Get. cbn [rbloom table_reader]. rewrite (Hcov k) by set_solver. erewrite st_bind_ok by done. cbn [negb].
    assert (findBlockIndex (table_reader B (wbloom w) (entryCount w) id) k = Ok 0%nat) as ->.
    { unfold findBlockIndex. cbn. by rewrite ko_refl. }
    erewrite st_bind_ok by done. rewrite table_index_lookup. cbn [B lookup list_lookup fmap option_fmap option_map Handle].
    apply st_bind_err. unfold readBlock, fetch_block. rewrite (read_disk _ _ _ _ 0 [(k, v)]) by done.
    cbn [mbind outcome_bind]. destruct (disk_cases [(k, v)]) as [(c' & Ec & _ & _ & ->)|[Hno _]]; rewrite Hbd in *.
    + simplify_eq. cbv beta iota. change (b2z Byte.x01 =? 1) with true. cbv iota. by rewrite (Hshort _ _ _ Hc).
    + destruct (Hno c Hc); [done|lia].
Qed.
End table.

(** ** Concrete tables *)

(** A compressor for concrete evaluations: a block that is constant behind its first
    sixteen bytes is replaced by these, the constant and the length. *)
Definition toy_compress (u : bytes) : option bytes :=
  match drop 16 u with
  | [] => Some []
  | b :: rest =>
      if forallb (fun x => b2z x =? b2z b) rest && (len rest <? 2 ^ 64)
      then Some (take 16 u ++ b :: put_le 8 (len rest)) else Some []
  end.

Definition toy_uncompress (c : bytes) (n : Z) : option bytes :=
  match drop 16 c with
  | [] => None
  | b :: rest =>
      if 17 + get_le rest <=? n then Some (take 16 c ++ replicate (S (Z.to_nat (get_le rest))) b) else None
  end.

Lemma toy_run u c :
  toy_compress u = Some c -> c <> [] ->
  exists a b m, u = a ++ replicate (S m) b /\ length a = 16%nat /\ Z.of_nat m < 2 ^ 64 /\
    c = a ++ b :: put_le 8 (Z.of_nat m).
Proof.
  unfold toy_compress. destruct (drop 16 u) as [|b rest] eqn:E; [by intros [= <-]|].
  destruct (forallb _ rest && _) eqn:Ef; [|by intros [= <-]]. intros [= <-] _.
  apply andb_prop in Ef as [Hr Hl%Z.ltb_lt]. exists (take 16 u), b, (length rest). split_and!; [|..|done|done].
  - rewrite <- (take_drop 16 u) at 1. rewrite E. cbn [replicate]. do 2 f_equal.
    clear - Hr. induction rest as [|x rest IH]; [done|]. cbn in Hr. apply andb_prop in Hr as [Hx%Z.eqb_eq Hr].
    cbn. f_equal; [|by apply IH]. by apply (inj b2z).
  - rewrite length_take. apply (f_equal length) in E. rewrite length_drop in E. cbn in E. lia.
Qed.

Lemma toy_uncompress_run a b m n :
  length a = 16%nat -> Z.of_nat m < 2 ^ 64 ->
  toy_uncompress (a ++ b :: put_le 8 (Z.of_nat m)) n =
    if 17 + Z.of_nat m <=? n then Some (a ++ replicate (S m) b) else None.
Proof.
  intros Ha Hm. unfold toy_uncompress. rewrite drop_app_length', take_app_length' by done.
  by rewrite get_le_put_le_small, Nat2Z.id by (change (256 ^ _) with (2 ^ 64); lia).
Qed.

#[export] Instance toy_lz4 : Lz4 toy_compress toy_uncompress.
Proof.
  split.
  - intros u. unfold toy_compress. repeat case_match; eauto.
  - intros u c n Hc Hne Hl. destruct (toy_run u c Hc Hne) as (a & b & m & -> & Ha & Hm & ->).
    rewrite toy_uncompress_run by done.
    rewrite (proj2 (Z.leb_le _ _)); [done|]. unfold len in Hl. rewrite length_app, length_replicate in Hl. lia.
Qed.

Lemma toy_short u c n : toy_compress u = Some c -> c <> [] -> n < len u -> toy_uncompress c n = None.
Proof.
  intros Hc Hne Hl. destruct (toy_run u c Hc Hne) as (a & b & m & -> & Ha & Hm & ->).
  rewrite toy_uncompress_run by done. rewrite (proj2 (Z.leb_gt _ _)); [done|]. unfold len in Hl.
  rewrite length_app, length_replicate in Hl. lia.
Qed.

Definition toy_entries : list kv :=
  [(str "aaaaaaaa0", Some (str "one")); (str "aaaaaaaa1", None); (str "bbbbbbbb1", Some [])].

Lemma toy_entries_ok : Forall (fits 40) toy_entries /\ ksorted CompareKeys toy_entries.
Proof. split; [|repeat constructor]. repeat constructor; vm_compute; congruence. Qed.

Lemma toy_fresh id : fresh_for id (Some (cache.NewBlockCache 100)).
Proof. exists ∅. split; [apply NewBlockCache_ok|]. intros o. by rewrite lookup_empty. Qed.


Lemma sstable_iterates_witness :
  exists data r, write_table toy_hash toy_compress 40 10 toy_entries = Ok data /\ OpenReader data 7 = Ok r /\
    exists c1 it c2 c3 it' c4, NewIterator toy_uncompress r None = (c1, Ok it) /\
      collect toy_uncompress 3 r it c1 = (c2, Ok toy_entries) /\
      Seek toy_uncompress r (str "aaaaaaaa1") it c2 = (c3, Ok it') /\
      collect toy_uncompress 3 r it' c3 = (c4, Ok (entries_from (str "aaaaaaaa1") toy_entries)).
Proof.
  destruct (sstable_iterates toy_hash toy_compress toy_uncompress 40 10 7 toy_entries) as (data & r & H1 & H2 & H3);
    [lia|lia|apply toy_entries_ok|apply toy_entries_ok|vm_compute; reflexivity|].
  exists data, r. split; [exact H1|]. split; [exact H2|]. exact (H3 None (str "aaaaaaaa1") I).
Defined.

Lemma sstable_large_block_unreadable_witness :
  exists data r, write_table toy_hash toy_compress 4096 10 [(str "aaaaaaaa", Some (replicate (Z.to_nat 40000) Byte.x00))]
      = Ok data /\ OpenReader data 7 = Ok r /\
    Get toy_hash toy_uncompress r (str "aaaaaaaa") None = (None, Err ErrLz4).
Proof.
  apply (sstable_large_block_unreadable toy_hash toy_compress toy_uncompress 4096 10 7 (str "aaaaaaaa")
    (Some (replicate (Z.to_nat 40000) Byte.x00))
    (put_le 4 8 ++ put_le 4 40000 ++ str "aaaaaaaa" ++ Byte.x00 :: put_le 8 39999)).
  - lia.
  - split; vm_compute; reflexivity.
  - vm_compute. reflexivity.
  - done.
  - vm_compute. reflexivity.
  - vm_compute. reflexivity.
  - exact toy_short.
Defined.
