(* ===== verification/Manifest.v ===== *)
(** * The manifest (internal/lsm/manifest.go, level.go)

    The manifest is an append-only file of version edits.  A version is the list of
    table files of each level; opening the file replays the edits.  [uint64] fields are
    [Z]; the conversion of a level to [uint32] is written out. *)

From S2P Require Import Prelude Order Keys Files.
Import mvcc.

#[local] Open Scope Z_scope.

(** [ErrInvalid] is [os.ErrInvalid], [ErrFile] any error of a file operation and
    [ErrTable] an error of a table. *)
Inductive lsm_error := ErrInvalid | ErrFile | ErrTable.

#[export] Instance lsm_error_eq_dec : EqDecision lsm_error.
Proof. solve_decision. Defined.

Module manifest.

Definition MaxLevels : nat := 7.

Record FileMetadata := mkMeta {
  Level : Z;
  FileNum : Z;
  FileSize : Z;
  SmallestKey : bytes;
  LargestKey : bytes;
  NumEntries : Z;
}.

Record DeletedFile := mkDeleted { DLevel : Z; DFileNum : Z }.

Record VersionEdit := mkEdit {
  AddedFiles : list FileMetadata;
  DeletedFiles : list DeletedFile;
  NextFileNum : Z;
}.

#[export] Instance FileMetadata_eq_dec : EqDecision FileMetadata.
Proof. solve_decision. Defined.

(** ** Encoding of edits *)

Definition encode_deleted (df : DeletedFile) : bytes :=
  put_le 4 (u32 (DLevel df)) ++ put_le 8 (DFileNum df).

Definition encode_added (af : FileMetadata) : bytes :=
  put_le 4 (u32 (Level af)) ++ put_le 8 (FileNum af) ++ put_le 8 (FileSize af) ++ put_le 8 (NumEntries af) ++
  put_le 4 (len (SmallestKey af)) ++ SmallestKey af ++
  put_le 4 (len (LargestKey af)) ++ LargestKey af.

Definition Encode (v : VersionEdit) : bytes :=
  put_le 8 (NextFileNum v) ++
  put_le 4 (len (DeletedFiles v)) ++ concat (map encode_deleted (DeletedFiles v)) ++
  put_le 4 (len (AddedFiles v)) ++ concat (map encode_added (AddedFiles v)).

(** [binary.LittleEndian.Uint32(data[offset:offset+4])] and its 64-bit variant. *)
Definition u_at (n : nat) (data : bytes) (offset : Z) : outcome lsm_error Z :=
  b ← slice data offset (offset + Z.of_nat n); Ok (get_le b).

(** An iteration consumes twelve bytes, so the length of the data is enough fuel. *)
Fixpoint decode_deleted (fuel : nat) (data : bytes) (num i offset : Z) (acc : list DeletedFile)
    : outcome lsm_error (list DeletedFile * Z) :=
  if i <? num then
    match fuel with
    | O => Fuel
    | S fuel =>
        if len data <? offset + 12 then Err ErrInvalid else
        level ← u_at 4 data offset;
        let offset := offset + 4 in
        fileNum ← u_at 8 data offset;
        let offset := offset + 8 in
        decode_deleted fuel data num (i + 1) offset (acc ++ [mkDeleted level fileNum])
    end
  else Ok (acc, offset).

(** A length and the key behind it. *)
Definition decode_key (data : bytes) (offset : Z) : outcome lsm_error (bytes * Z) :=
  if len data <? offset + 4 then Err ErrInvalid else
  n ← u_at 4 data offset;
  let offset := offset + 4 in
  if len data <? offset + n then Err ErrInvalid else
  key ← slice data offset (offset + n);
  Ok (key, offset + n).

Fixpoint decode_added (fuel : nat) (data : bytes) (num i offset : Z) (acc : list FileMetadata)
    : outcome lsm_error (list FileMetadata) :=
  if i <? num then
    match fuel with
    | O => Fuel
    | S fuel =>
        if len data <? offset + 28 then Err ErrInvalid else
        level ← u_at 4 data offset;
        let offset := offset + 4 in
        fileNum ← u_at 8 data offset;
        let offset := offset + 8 in
        fileSize ← u_at 8 data offset;
        let offset := offset + 8 in
        numEntries ← u_at 8 data offset;
        let offset := offset + 8 in
        small ← decode_key data offset;
        large ← decode_key data small.2;
        decode_added fuel data num (i + 1) large.2
          (acc ++ [mkMeta level fileNum fileSize small.1 large.1 numEntries])
    end
  else Ok acc.

Definition DecodeVersionEdit (data : bytes) : outcome lsm_error VersionEdit :=
  if len data <? 8 then Err ErrInvalid else
  next ← u_at 8 data 0;
  let offset := 8 in
  if len data <? offset + 4 then Err ErrInvalid else
  numDeleted ← u_at 4 data offset;
  x ← decode_deleted (length data) data numDeleted 0 (offset + 4) [];
  let '(deleted, offset) := x in
  if len data <? offset + 4 then Err ErrInvalid else
  numAdded ← u_at 4 data offset;
  added ← decode_added (length data) data numAdded 0 (offset + 4) [];
  Ok (mkEdit added deleted next).

(** ** Versions *)

(** [Levels [MaxLevels][]FileMetadata]; versions are not changed once they are made, so
    [clone] is the identity. *)
Abbreviation Version := (list (list FileMetadata)).

Definition empty_version : Version := replicate MaxLevels [].

(** ** level.go *)

(** [sort.Slice], which leaves the order of files with the same smallest key open; an
    insertion sort as Go uses for short slices. *)
Fixpoint insert_file (f : FileMetadata) (l : list FileMetadata) : list FileMetadata :=
  match l with
  | [] => [f]
  | g :: l' =>
      match CompareKeys (SmallestKey f) (SmallestKey g) with
      | Lt => f :: l
      | _ => g :: insert_file f l'
      end
  end.

Definition SortBySmallestKey (files : list FileMetadata) : list FileMetadata :=
  foldl (fun l f => insert_file f l) [] files.

Definition GetOverlappingFiles (files : list FileMetadata) (smallest largest : bytes) : list FileMetadata :=
  filter (fun f => CompareKeys (LargestKey f) smallest <> Lt /\ CompareKeys (SmallestKey f) largest <> Gt) files.

Definition L0CompactionTrigger : Z := 4.
Definition LevelSizeRatio : Z := 10.
Definition BaseLevelSize : Z := 10 * 1024 * 1024.

Definition TargetSize (level : Z) : Z :=
  if level <=? 0 then 0
  else Nat.iter (Z.to_nat (level - 1)) (fun size => u64 (size * LevelSizeRatio)) (u64 BaseLevelSize).

(** ** The manifest *)

Record Manifest := mkManifest {
  mfile : File;
  current : Version;
  nextFileNum : Z;
}.

Definition delete_file (v : Version) (df : DeletedFile) : outcome lsm_error Version :=
  if DLevel df <? 0 then Panic else
  match v !! Z.to_nat (DLevel df) with
  | Some files => Ok (<[Z.to_nat (DLevel df) := filter (fun f => FileNum f <> DFileNum df) files]> v)
  | None => Panic
  end.

Definition add_file (v : Version) (af : FileMetadata) : outcome lsm_error Version :=
  if Level af <? 0 then Panic else
  match v !! Z.to_nat (Level af) with
  | Some files => Ok (<[Z.to_nat (Level af) := files ++ [af]]> v)
  | None => Panic
  end.

Fixpoint fold_out {A} (f : Version -> A -> outcome lsm_error Version) (l : list A) (v : Version)
    : outcome lsm_error Version :=
  match l with
  | [] => Ok v
  | a :: l => v ← f v a; fold_out f l v
  end.

Definition sort_levels (v : Version) : Version :=
  match v with
  | [] => []
  | l0 :: ls => l0 :: map (fun files => if 1 <? len files then SortBySmallestKey files else files) ls
  end.

Definition applyEditToMemory (m : Manifest) (edit : VersionEdit) : outcome lsm_error Manifest :=
  v ← fold_out delete_file (DeletedFiles edit) (current m);
  v ← fold_out add_file (AddedFiles edit) v;
  Ok (mkManifest (mfile m) (sort_levels v)
        (if nextFileNum m <? NextFileNum edit then NextFileNum edit else nextFileNum m)).

Definition write_bytes (bs : bytes) : st lsm_error Manifest unit := fun m =>
  let '(f, failed) := file_write (mfile m) bs in
  (mkManifest f (current m) (nextFileNum m), if (failed : bool) then Err ErrFile else Ok tt).

Definition sync_file : st lsm_error Manifest unit := fun m =>
  let '(f, failed) := file_sync (mfile m) in
  (mkManifest f (current m) (nextFileNum m), if (failed : bool) then Err ErrFile else Ok tt).

Definition update_memory (edit : VersionEdit) : st lsm_error Manifest unit := fun m =>
  match applyEditToMemory m edit with
  | Ok m => (m, Ok tt)
  | Err e => (m, Err e)
  | Panic => (m, Panic)
  | Fuel => (m, Fuel)
  end.

Definition Apply (edit : VersionEdit) : st lsm_error Manifest unit :=
  let data := Encode edit in
  write_bytes (put_le 4 (len data));;
  write_bytes data;;
  sync_file;;
  update_memory edit.

Definition NextFileNumber (m : Manifest) : Manifest * Z :=
  (mkManifest (mfile m) (current m) (u64 (nextFileNum m + 1)), nextFileNum m).

(** The replay; an iteration consumes at least four bytes. *)
Fixpoint replay (fuel : nat) (data : bytes) (offset : Z) (m : Manifest) : outcome lsm_error Manifest :=
  if offset <? len data then
    match fuel with
    | O => Fuel
    | S fuel =>
        if len data <? offset + 4 then Ok m else
        length ← u_at 4 data offset;
        let offset := offset + 4 in
        if len data <? offset + length then Ok m else
        editData ← slice data offset (offset + length);
        edit ← DecodeVersionEdit editData;
        m ← applyEditToMemory m edit;
        replay fuel data (offset + length) m
    end
  else Ok m.

(** On a file with the contents [data], which is opened for appending. *)
Definition OpenManifest (data : bytes) (faults : list (option nat)) : outcome lsm_error Manifest :=
  replay (length data) data 0 (mkManifest (mkFile data (len data) faults) empty_version 1).

Definition Close (m : Manifest) : Manifest * bool :=
  let '(f, failed) := file_close (mfile m) in (mkManifest f (current m) (nextFileNum m), failed).

End manifest.
Import manifest.

(** ** Edits: round trip *)

Definition key_ok (k : bytes) : Prop := len k < 2 ^ 32.

Definition deleted_ok (df : DeletedFile) : Prop := 0 <= DLevel df < 2 ^ 32 /\ 0 <= DFileNum df < 2 ^ 64.

Definition meta_ok (f : FileMetadata) : Prop :=
  0 <= Level f < 2 ^ 32 /\ 0 <= FileNum f < 2 ^ 64 /\ 0 <= FileSize f < 2 ^ 64 /\ 0 <= NumEntries f < 2 ^ 64 /\
  key_ok (SmallestKey f) /\ key_ok (LargestKey f).

Record edit_ok (e : VersionEdit) : Prop := {
  eo_next : 0 <= NextFileNum e < 2 ^ 64;
  eo_deleted : Forall deleted_ok (DeletedFiles e);
  eo_added : Forall meta_ok (AddedFiles e);
  eo_size : len (Encode e) < 2 ^ 32;
}.

Lemma u_at_ok n data pre z post off :
  data = pre ++ put_le n z ++ post -> off = len pre -> 0 <= z < 256 ^ Z.of_nat n -> u_at n data off = Ok z.
Proof.
  intros Hd -> Hz. unfold u_at. rewrite (slice_at data pre (put_le n z) post) by (done || by rewrite len_put_le).
  cbn [mbind outcome_bind]. by rewrite get_le_put_le_small.
Qed.

Lemma u32_small z : 0 <= z < 2 ^ 32 -> u32 z = z.
Proof. apply Z.mod_small. Qed.

Lemma decode_key_ok data pre k post off :
  data = pre ++ (put_le 4 (len k) ++ k) ++ post -> off = len pre -> key_ok k ->
  decode_key data off = Ok (k, off + 4 + len k).
Proof.
  intros Hd -> Hk. unfold key_ok in Hk. pose proof (len_nonneg k). pose proof (len_nonneg post). unfold decode_key.
  assert (len data = len pre + 4 + len k + len post) as Hl by (rewrite Hd, !len_app, len_put_le; lia).
  rewrite (proj2 (Z.ltb_ge _ _)) by lia.
  rewrite (u_at_ok 4 data pre (len k) (k ++ post)) by first [rewrite Hd; app_solve | done | (change (256 ^ _) with (2 ^ 32); lia)].
  cbn [mbind outcome_bind]. rewrite (proj2 (Z.ltb_ge _ _)) by lia.
  rewrite (slice_at data (pre ++ put_le 4 (len k)) k post)
    by first [rewrite Hd; app_solve | rewrite len_app, len_put_le; lia]. done.
Qed.

Lemma len_encode_deleted df : len (encode_deleted df) = 12.
Proof. unfold encode_deleted. len_lia. Qed.

Lemma decode_deleted_ok dfs : forall fuel data pre acc post num i,
  data = pre ++ concat (map encode_deleted dfs) ++ post -> Forall deleted_ok dfs ->
  num = i + len dfs -> (length dfs <= fuel)%nat ->
  decode_deleted fuel data num i (len pre) acc =
    Ok (acc ++ dfs, len pre + len (concat (map encode_deleted dfs))).
Proof.
  induction dfs as [|df dfs IH]; intros fuel data pre acc post num i Hd Hok Hn Hf.
  { destruct fuel; cbn [decode_deleted]; change (len []) with 0 in Hn; rewrite (proj2 (Z.ltb_ge _ _)) by lia;
      rewrite app_nil_r; do 2 f_equal; cbn; len_nils; lia. }
  apply Forall_cons in Hok as [[Hl Hn64] Hok]. rewrite len_cons in Hn. pose proof (len_nonneg dfs).
  destruct fuel as [|fuel]; [cbn in Hf; lia|]. cbn [decode_deleted]. rewrite (proj2 (Z.ltb_lt _ _)) by lia.
  cbn [map concat] in Hd. rewrite <- (assoc_L (++)) in Hd. set (rest := concat (map encode_deleted dfs) ++ post) in *.
  assert (len data = len pre + 12 + len rest) as Hlen by (rewrite Hd, !len_app, len_encode_deleted; lia).
  pose proof (len_nonneg rest). rewrite (proj2 (Z.ltb_ge _ _)) by lia.
  unfold encode_deleted in Hd at 1. rewrite u32_small in Hd by done.
  rewrite (u_at_ok 4 data pre (DLevel df) (put_le 8 (DFileNum df) ++ rest))
    by first [rewrite Hd; app_solve | done].
  cbn [mbind outcome_bind].
  rewrite (u_at_ok 8 data (pre ++ put_le 4 (DLevel df)) (DFileNum df) rest)
    by first [rewrite Hd; app_solve | rewrite len_app, len_put_le; lia | done].
  cbn [mbind outcome_bind].
  specialize (IH fuel data (pre ++ encode_deleted df) (acc ++ [df]) post num (i + 1)).
  replace (len (pre ++ encode_deleted df)) with (len pre + 4 + 8) in IH by (rewrite len_app, len_encode_deleted; lia).
  replace (mkDeleted (DLevel df) (DFileNum df)) with df by (by destruct df). rewrite IH.
  - cbn [map concat]. rewrite len_app, len_encode_deleted, <- (assoc_L (++)). do 2 f_equal. lia.
  - rewrite Hd. unfold encode_deleted at 1. rewrite u32_small by done. unfold rest. app_solve.
  - done.
  - lia.
  - cbn in Hf. lia.
Qed.

Lemma len_encode_added f : len (encode_added f) = 36 + len (SmallestKey f) + len (LargestKey f).
Proof. unfold encode_added. len_lia. Qed.

Lemma decode_added_step fuel data pre f rest num i acc :
  data = pre ++ encode_added f ++ rest -> meta_ok f -> i < num ->
  decode_added (S fuel) data num i (len pre) acc =
    decode_added fuel data num (i + 1) (len (pre ++ encode_added f)) (acc ++ [f]).
Proof.
  intros Hd (Hl & Hnum & Hsz & Hne & Hs & Hg) Hi. cbn [decode_added]. rewrite (proj2 (Z.ltb_lt _ _)) by lia.
  assert (len data = len pre + len (encode_added f) + len rest) as Hlen by (rewrite Hd, !len_app; lia).
  rewrite len_app, len_encode_added in *. pose proof (len_nonneg (SmallestKey f)). pose proof (len_nonneg (LargestKey f)).
  pose proof (len_nonneg rest). rewrite (proj2 (Z.ltb_ge _ _)) by lia.
  unfold encode_added in Hd. rewrite u32_small in Hd by done.
  set (a := put_le 4 (Level f)) in *. set (b := put_le 8 (FileNum f)) in *.
  set (c := put_le 8 (FileSize f)) in *. set (d := put_le 8 (NumEntries f)) in *.
  assert (len a = 4 /\ len b = 8 /\ len c = 8 /\ len d = 8) as (La & Lb & Lc & Ld) by (by unfold a, b, c, d; rewrite !len_put_le).
  set (s := put_le 4 (len (SmallestKey f)) ++ SmallestKey f). set (g := put_le 4 (len (LargestKey f)) ++ LargestKey f).
  assert (data = pre ++ a ++ b ++ c ++ d ++ s ++ g ++ rest) as Hd' by (rewrite Hd; unfold s, g; app_solve).
  rewrite (u_at_ok 4 data pre (Level f) (b ++ c ++ d ++ s ++ g ++ rest)) by done. cbn [mbind outcome_bind].
  rewrite (u_at_ok 8 data (pre ++ a) (FileNum f) (c ++ d ++ s ++ g ++ rest) (len pre + 4))
    by first [rewrite Hd'; by rewrite <- ?(assoc_L (++)) | rewrite ?len_app; lia | done]. cbn [mbind outcome_bind].
  rewrite (u_at_ok 8 data (pre ++ a ++ b) (FileSize f) (d ++ s ++ g ++ rest) (len pre + 4 + 8))
    by first [rewrite Hd'; by rewrite <- ?(assoc_L (++)) | rewrite ?len_app; lia | done]. cbn [mbind outcome_bind].
  rewrite (u_at_ok 8 data (pre ++ a ++ b ++ c) (NumEntries f) (s ++ g ++ rest) (len pre + 4 + 8 + 8))
    by first [rewrite Hd'; by rewrite <- ?(assoc_L (++)) | rewrite ?len_app; lia | done]. cbn [mbind outcome_bind].
  rewrite (decode_key_ok data (pre ++ a ++ b ++ c ++ d) (SmallestKey f) (g ++ rest))
    by first [rewrite Hd'; by rewrite <- ?(assoc_L (++)) | rewrite ?len_app; lia | done]. cbn [mbind outcome_bind snd].
  rewrite (decode_key_ok data (pre ++ a ++ b ++ c ++ d ++ s) (LargestKey f) rest)
    by first [rewrite Hd'; by rewrite <- ?(assoc_L (++)) | unfold s; rewrite ?len_app, ?len_put_le; lia | done].
  cbn [mbind outcome_bind fst snd]. replace (mkMeta _ _ _ _ _ _) with f by (by destruct f). f_equal. lia.
Qed.

Lemma decode_added_ok fs : forall fuel data pre acc post num i,
  data = pre ++ concat (map encode_added fs) ++ post -> Forall meta_ok fs ->
  num = i + len fs -> (length fs <= fuel)%nat ->
  decode_added fuel data num i (len pre) acc = Ok (acc ++ fs).
Proof.
  induction fs as [|f fs IH]; intros fuel data pre acc post num i Hd Hok Hn Hf.
  { destruct fuel; cbn [decode_added]; change (len []) with 0 in Hn; rewrite (proj2 (Z.ltb_ge _ _)) by lia;
      by rewrite app_nil_r. }
  apply Forall_cons in Hok as [Hm Hok]. rewrite len_cons in Hn. pose proof (len_nonneg fs).
  destruct fuel as [|fuel]; [cbn in Hf; lia|]. cbn [map concat] in Hd. rewrite <- (assoc_L (++)) in Hd.
  rewrite (decode_added_step fuel data pre f _ num i acc Hd Hm) by lia.
  rewrite (IH fuel data (pre ++ encode_added f) (acc ++ [f]) post num (i + 1));
    [by rewrite <- (assoc_L (++))|by rewrite Hd, <- (assoc_L (++))|done|lia|cbn in Hf; lia].
Qed.

Lemma length_concat_ge {A} (f : A -> bytes) (l : list A) :
  (forall a, 1 <= len (f a)) -> (length l <= length (concat (map f l)))%nat.
Proof.
  intros Hf. induction l as [|a l IH]; [done|]. cbn. rewrite length_app. specialize (Hf a). unfold len in Hf. lia.
Qed.

Lemma DecodeVersionEdit_Encode e : edit_ok e -> DecodeVersionEdit (Encode e) = Ok e.
Proof.
  intros [Hn Hdel Hadd Hsz]. unfold DecodeVersionEdit. set (data := Encode e) in *.
  set (D := concat (map encode_deleted (DeletedFiles e))). set (A := concat (map encode_added (AddedFiles e))).
  assert (data = put_le 8 (NextFileNum e) ++ put_le 4 (len (DeletedFiles e)) ++ D ++ put_le 4 (len (AddedFiles e)) ++ A)
    as Hd by done.
  assert (len data = 16 + len D + len A) as Hl by (rewrite Hd, !len_app, !len_put_le; lia).
  pose proof (len_nonneg D). pose proof (len_nonneg A).
  assert (length (DeletedFiles e) <= length D)%nat as HD
    by (apply length_concat_ge; intros; rewrite len_encode_deleted; lia).
  assert (length (AddedFiles e) <= length A)%nat as HA.
  { apply length_concat_ge. intros f. rewrite len_encode_added. pose proof (len_nonneg (SmallestKey f)).
    pose proof (len_nonneg (LargestKey f)). lia. }
  unfold len in Hl, Hsz.
  rewrite (proj2 (Z.ltb_ge _ _)) by (unfold len; lia).
  rewrite (u_at_ok 8 data [] (NextFileNum e) (put_le 4 (len (DeletedFiles e)) ++ D ++ put_le 4 (len (AddedFiles e)) ++ A))
    by done. cbn [mbind outcome_bind]. rewrite (proj2 (Z.ltb_ge _ _)) by (unfold len; lia).
  rewrite (u_at_ok 4 data (put_le 8 (NextFileNum e)) (len (DeletedFiles e)) (D ++ put_le 4 (len (AddedFiles e)) ++ A))
    by (done || unfold len; change (256 ^ _) with (2 ^ 32); lia). cbn [mbind outcome_bind].
  set (p1 := put_le 8 (NextFileNum e) ++ put_le 4 (len (DeletedFiles e))).
  assert (len p1 = 12) as Hp1 by (unfold p1; by rewrite len_app, !len_put_le).
  change (8 + 4) with 12. rewrite <- Hp1.
  rewrite (decode_deleted_ok (DeletedFiles e) _ data p1 [] (put_le 4 (len (AddedFiles e)) ++ A))
    by first [done | rewrite Hd; unfold p1, D; app_solve | lia]. cbn [mbind outcome_bind app]. fold D.
  rewrite (proj2 (Z.ltb_ge _ _)) by (unfold len in *; lia).
  rewrite (u_at_ok 4 data (p1 ++ D) (len (AddedFiles e)) A)
    by first [rewrite Hd; unfold p1; app_solve | by rewrite len_app | unfold len; change (256 ^ _) with (2 ^ 32); lia].
  cbn [mbind outcome_bind].
  replace (len p1 + len D + 4) with (len (p1 ++ D ++ put_le 4 (len (AddedFiles e)))) by (rewrite !len_app, len_put_le; lia).
  rewrite (decode_added_ok (AddedFiles e) _ data _ [] []);
    [by destruct e|rewrite app_nil_r, Hd; unfold p1; app_solve|done|lia|lia].
Qed.

(** ** Applying edits *)

(** The levels of an edit exist. *)
Definition levels_ok (e : VersionEdit) : Prop :=
  Forall (fun df => 0 <= DLevel df < Z.of_nat MaxLevels) (DeletedFiles e) /\
  Forall (fun af => 0 <= Level af < Z.of_nat MaxLevels) (AddedFiles e).

Lemma fold_out_ok {A} (f : Version -> A -> outcome lsm_error Version) (P : A -> Prop) l : forall v,
  (forall v a, P a -> length v = MaxLevels -> exists v', f v a = Ok v' /\ length v' = MaxLevels) ->
  Forall P l -> length v = MaxLevels ->
  exists v', fold_out f l v = Ok v' /\ length v' = MaxLevels.
Proof.
  intros v Hf Hl. revert v. induction Hl as [|a l Ha Hl IH]; intros v Hv; [by exists v|].
  destruct (Hf v a Ha Hv) as (v1 & E & Hv1). cbn [fold_out]. rewrite E. by apply IH.
Qed.

Lemma delete_file_ok v df : 0 <= DLevel df < Z.of_nat MaxLevels -> length v = MaxLevels ->
  exists v', delete_file v df = Ok v' /\ length v' = MaxLevels.
Proof.
  intros Hd Hv. unfold delete_file. rewrite (proj2 (Z.ltb_ge _ _)) by lia.
  destruct (lookup_lt_is_Some_2 v (Z.to_nat (DLevel df))) as [fs ->]; [lia|].
  eexists. split; [done|]. by rewrite length_insert.
Qed.

Lemma add_file_ok v af : 0 <= Level af < Z.of_nat MaxLevels -> length v = MaxLevels ->
  exists v', add_file v af = Ok v' /\ length v' = MaxLevels.
Proof.
  intros Hd Hv. unfold add_file. rewrite (proj2 (Z.ltb_ge _ _)) by lia.
  destruct (lookup_lt_is_Some_2 v (Z.to_nat (Level af))) as [fs ->]; [lia|].
  eexists. split; [done|]. by rewrite length_insert.
Qed.

Lemma sort_levels_length v : length (sort_levels v) = length v.
Proof. destruct v; [done|]. cbn. by rewrite length_map. Qed.

Lemma applyEditToMemory_ok m e :
  levels_ok e -> length (current m) = MaxLevels ->
  exists m', applyEditToMemory m e = Ok m' /\ length (current m') = MaxLevels /\ mfile m' = mfile m /\
    nextFileNum m' = Z.max (nextFileNum m) (NextFileNum e).
Proof.
  intros [Hd Ha] Hm. unfold applyEditToMemory.
  destruct (fold_out_ok delete_file _ _ (current m) delete_file_ok Hd Hm) as (v1 & -> & Hv1).
  destruct (fold_out_ok add_file _ _ v1 add_file_ok Ha Hv1) as (v2 & E2 & Hv2). cbn [mbind outcome_bind]. rewrite E2.
  eexists. split; [done|]. cbn. rewrite sort_levels_length. split_and!; [done..|].
  destruct (Z.ltb_spec (nextFileNum m) (NextFileNum e)); lia.
Qed.

(** Memory after an edit does not depend on the file. *)
Lemma applyEditToMemory_file m e f m' :
  applyEditToMemory m e = Ok m' ->
  applyEditToMemory (mkManifest f (current m) (nextFileNum m)) e = Ok (mkManifest f (current m') (nextFileNum m')).
Proof.
  unfold applyEditToMemory. cbn. destruct (fold_out delete_file _ _) as [v1| | |]; [|done..].
  cbn. destruct (fold_out add_file _ _) as [v2| | |]; [|done..]. by intros [= <-].
Qed.

Definition record (e : VersionEdit) : bytes := put_le 4 (len (Encode e)) ++ Encode e.

Lemma Apply_ok m e :
  levels_ok e -> length (current m) = MaxLevels -> faults (mfile m) = [] ->
  exists m' f, Apply e m = (m', Ok tt) /\ applyEditToMemory m e = Ok (mkManifest f (current m') (nextFileNum m')) /\
    fdata (mfile m') = fdata (mfile m) ++ record e /\ faults (mfile m') = [] /\ length (current m') = MaxLevels.
Proof.
  intros He Hm Hf. destruct (applyEditToMemory_ok m e He Hm) as (m1 & E1 & Hl & Hmf & _).
  unfold Apply, write_bytes, file_write. cbn [mfile]. erewrite st_bind_ok by (rewrite Hf; reflexivity).
  erewrite st_bind_ok by (cbn [mfile faults]; reflexivity).
  erewrite st_bind_ok by (unfold sync_file, file_sync; cbn [mfile faults]; reflexivity).
  unfold update_memory. cbn [mfile current nextFileNum fdata fsynced faults].
  rewrite (applyEditToMemory_file m e _ m1 E1). exists (mkManifest (mkFile ((fdata (mfile m) ++ put_le 4 (len (Encode e))) ++ Encode e) (len ((fdata (mfile m) ++ put_le 4 (len (Encode e))) ++ Encode e)) []) (current m1) (nextFileNum m1)), (mfile m1).
  split_and!; [done|by destruct m1|cbn; unfold record; by rewrite <- (assoc_L (++))|done|done].
Qed.

(** ** Replay *)

(** What an interrupted write leaves: less than a record. *)
Definition torn (t : bytes) : Prop := exists e rest, edit_ok e /\ record e = t ++ rest /\ rest <> [].

Fixpoint apply_all (es : list VersionEdit) (m : Manifest) : outcome lsm_error Manifest :=
  match es with
  | [] => Ok m
  | e :: es => m ← applyEditToMemory m e; apply_all es m
  end.

Lemma replay_torn fuel data pre t m :
  data = pre ++ t -> t = [] \/ torn t -> (0 < fuel)%nat -> replay fuel data (len pre) m = Ok m.
Proof.
  intros -> Ht Hf. destruct fuel as [|fuel]; [lia|]. cbn [replay]. rewrite len_app.
  destruct (Z.ltb_spec (len pre) (len pre + len t)); [|done].
  destruct (Z.ltb_spec (len pre + len t) (len pre + 4)); [done|].
  destruct Ht as [->|(e & rest & He & Hr & Hne)]; [len_nils; lia|].
  assert (len rest > 0) as Hrest by (destruct rest; [done|]; rewrite len_cons; pose proof (len_nonneg rest); lia).
  pose proof (f_equal len Hr) as Hl. unfold record in Hl, Hr. rewrite !len_app, len_put_le in Hl.
  assert (exists t', t = put_le 4 (len (Encode e)) ++ t') as [t' ->].
  { exists (drop 4 t). apply (f_equal (take 4)) in Hr. rewrite take_app_length' in Hr by (by rewrite length_put_le).
    rewrite Hr, take_app_le by (unfold len in *; lia). by rewrite take_drop. }
  destruct He as [_ _ _ Hsz]. pose proof (len_nonneg (Encode e)).
  rewrite (u_at_ok 4 _ pre (len (Encode e)) t') by (done || change (256 ^ _) with (2 ^ 32); lia).
  cbn [mbind outcome_bind]. rewrite (proj2 (Z.ltb_lt _ _)); [done|]. lia.
Qed.

Lemma len_record e : len (record e) = 4 + len (Encode e).
Proof. unfold record. by rewrite len_app, len_put_le. Qed.

Lemma manifest_replay_ok es : forall fuel data pre t m m',
  data = pre ++ concat (map record es) ++ t -> t = [] \/ torn t -> Forall edit_ok es ->
  apply_all es m = Ok m' -> (length es < fuel)%nat ->
  replay fuel data (len pre) m = Ok m'.
Proof.
  induction es as [|e es IH]; intros fuel data pre t m m' Hd Ht He Ha Hf.
  { injection Ha as <-. cbn in Hd. eapply replay_torn; [done|done|lia]. }
  apply Forall_cons in He as [He Hes]. cbn [apply_all] in Ha.
  destruct (applyEditToMemory m e) as [m1| | |] eqn:E1; [|done..]. cbn [mbind outcome_bind] in Ha.
  cbn [map concat] in Hd. rewrite <- (assoc_L (++)) in Hd. set (rest := concat (map record es) ++ t) in *.
  assert (len data = len pre + 4 + len (Encode e) + len rest) as Hl by (rewrite Hd, !len_app, len_record; lia).
  pose proof (len_nonneg rest). pose proof (len_nonneg (Encode e)). pose proof He as [_ _ _ Hsz].
  destruct fuel as [|fuel]; [cbn in Hf; lia|]. cbn [replay]. rewrite (proj2 (Z.ltb_lt _ _)) by lia.
  rewrite (proj2 (Z.ltb_ge _ _)) by lia. unfold record in Hd at 1.
  rewrite (u_at_ok 4 data pre (len (Encode e)) (Encode e ++ rest))
    by first [by rewrite Hd, <- (assoc_L (++)) | change (256 ^ _) with (2 ^ 32); lia].
  cbn [mbind outcome_bind]. rewrite (proj2 (Z.ltb_ge _ _)) by lia.
  rewrite (slice_at data (pre ++ put_le 4 (len (Encode e))) (Encode e) rest)
    by first [by rewrite Hd, <- !(assoc_L (++)) | rewrite len_app, len_put_le; lia].
  cbn [mbind outcome_bind]. rewrite DecodeVersionEdit_Encode by done. cbn [mbind outcome_bind]. rewrite E1.
  replace (len pre + 4 + len (Encode e)) with (len (pre ++ record e)) by (rewrite len_app, len_record; lia).
  eapply IH; [|done..|cbn in Hf; lia]. rewrite Hd. unfold rest, record. by rewrite <- !(assoc_L (++)).
Qed.

(** ** The life of a manifest *)

Inductive man_op := MApply (e : VersionEdit) | MNext.

Fixpoint man_run (ops : list man_op) : st lsm_error Manifest unit :=
  match ops with
  | [] => mret tt
  | MApply e :: ops => Apply e;; man_run ops
  | MNext :: ops => modify (fun m => (NextFileNumber m).1);; man_run ops
  end.

Definition edits (ops : list man_op) : list VersionEdit :=
  omap (fun op => match op with MApply e => Some e | MNext => None end) ops.

Definition man_op_ok (op : man_op) : Prop :=
  match op with MApply e => edit_ok e /\ levels_ok e | MNext => True end.

Lemma applyEditToMemory_next m e n f m' :
  applyEditToMemory m e = Ok m' ->
  exists m2, applyEditToMemory (mkManifest f (current m) n) e = Ok m2 /\ current m2 = current m'.
Proof.
  unfold applyEditToMemory. cbn. destruct (fold_out delete_file _ _) as [v1| | |]; [|done..].
  cbn. destruct (fold_out add_file _ _) as [v2| | |]; [|done..]. intros [= <-]. by eexists.
Qed.

Lemma apply_all_ok es : forall m,
  Forall levels_ok es -> length (current m) = MaxLevels ->
  exists m', apply_all es m = Ok m' /\ length (current m') = MaxLevels /\ mfile m' = mfile m /\
    nextFileNum m' = foldl (fun n e => Z.max n (NextFileNum e)) (nextFileNum m) es.
Proof.
  induction es as [|e es IH]; intros m He Hm; [by exists m|]. apply Forall_cons in He as [He Hes].
  destruct (applyEditToMemory_ok m e He Hm) as (m1 & E1 & Hl1 & Hf1 & Hn1).
  destruct (IH m1 Hes Hl1) as (m2 & E2 & Hl2 & Hf2 & Hn2). exists m2. cbn [apply_all foldl]. rewrite E1.
  split_and!; [done|done|congruence|congruence].
Qed.

Lemma man_run_ok ops : forall m m0,
  Forall man_op_ok ops -> length (current m) = MaxLevels -> faults (mfile m) = [] -> current m0 = current m ->
  exists m' m0', man_run ops m = (m', Ok tt) /\ apply_all (edits ops) m0 = Ok m0' /\ current m0' = current m' /\
    fdata (mfile m') = fdata (mfile m) ++ concat (map record (edits ops)).
Proof.
  induction ops as [|op ops IH]; intros m m0 Hops Hm Hf Hc.
  { exists m, m0. cbn. by rewrite app_nil_r. }
  apply Forall_cons in Hops as [Hop Hops]. destruct op as [e|].
  - destruct Hop as [_ Hlv]. destruct (Apply_ok m e Hlv Hm Hf) as (m1 & f & E1 & Ea & Hd1 & Hf1 & Hl1).
    destruct (applyEditToMemory_next m e (nextFileNum m0) (mfile m0) _ Ea) as (m01 & E01 & Hc01).
    rewrite <- Hc in E01. replace (mkManifest _ _ _) with m0 in E01 by (by destruct m0).
    destruct (IH m1 m01 Hops Hl1 Hf1 Hc01) as (m' & m0' & E & Ea' & Hc' & Hd').
    exists m', m0'. cbn [man_run edits omap list_omap]. erewrite st_bind_ok by exact E1.
    cbn [apply_all]. rewrite E01. split_and!; [done|done|done|].
    rewrite Hd', Hd1. cbn [map concat]. by rewrite <- (assoc_L (++)).
  - destruct (IH (NextFileNumber m).1 m0 Hops Hm Hf Hc) as (m' & m0' & E & H). exists m', m0'.
    cbn [man_run]. by erewrite st_bind_ok by reflexivity.
Qed.

Lemma OpenManifest_ok es t fs :
  Forall edit_ok es -> Forall levels_ok es -> t = [] \/ torn t ->
  exists m, OpenManifest (concat (map record es) ++ t) fs = Ok m /\
    apply_all es (mkManifest (mkFile (concat (map record es) ++ t) (len (concat (map record es) ++ t)) fs) empty_version 1) = Ok m.
Proof.
  intros He Hl Ht. unfold OpenManifest. set (data := _ ++ t). set (m0 := mkManifest _ _ _).
  destruct (apply_all_ok es m0 Hl) as (m & E & _); [done|]. exists m. split; [|done].
  destruct (decide (data = [])) as [Hd|Hd].
  { rewrite Hd. apply app_nil in Hd as [Hd _]. destruct es as [|e es]; [by injection E as <-|].
    cbn in Hd. apply app_nil in Hd as [Hd _]. apply (f_equal len) in Hd. rewrite len_record in Hd.
    pose proof (len_nonneg (Encode e)). change (len (@nil byte)) with 0 in Hd. lia. }
  apply (manifest_replay_ok es (length data) data [] t m0 m); [done..|].
  destruct es as [|e es]; [destruct data; [done|cbn; lia]|]. unfold data. cbn [map concat]. rewrite !length_app.
  pose proof (length_concat_ge record es) as Hlc. pose proof (len_record e) as Hr. pose proof (len_nonneg (Encode e)).
  unfold len in *. cbn [length].
  assert (forall a, 1 <= len (record a)) as Hpos by (intros a; rewrite len_record; pose proof (len_nonneg (Encode a)); lia).
  specialize (Hlc Hpos). lia.
Qed.

(** ** Properties *)

(** C20: the version survives.  After any sequence of applied edits and drawn file
    numbers, reopening the file gives the version the manifest had, also when the file
    ends in a part of a further record; the file number it continues with is the
    largest an edit recorded, or 1. *)
Theorem manifest_reopen (ops : list man_op) (t : bytes) (fs : list (option nat))
    (Hops : Forall man_op_ok ops) (Ht : t = [] \/ torn t) :
  exists m0 m m', OpenManifest [] [] = Ok m0 /\ man_run ops m0 = (m, Ok tt) /\
    OpenManifest (fdata (mfile m) ++ t) fs = Ok m' /\ current m' = current m /\
    nextFileNum m' = foldl (fun n e => Z.max n (NextFileNum e)) 1 (edits ops).
Proof.
  assert (Forall edit_ok (edits ops) /\ Forall levels_ok (edits ops)) as [He Hl].
  { split; apply Forall_forall; intros e (op & Hin & Hop)%list_elem_of_omap;
      rewrite Forall_forall in Hops; specialize (Hops op Hin); destruct op; by simplify_eq; apply Hops. }
  set (m0 := mkManifest (mkFile [] 0 []) empty_version 1).
  destruct (OpenManifest_ok (edits ops) t fs He Hl Ht) as (m' & Eo & Ea).
  destruct (man_run_ok ops m0 (mkManifest (mkFile (concat (map record (edits ops)) ++ t)
    (len (concat (map record (edits ops)) ++ t)) fs) empty_version 1) Hops) as (m & m2 & E & Ea2 & Hc & Hd); [done..|].
  exists m0, m, m'. rewrite Ea in Ea2. injection Ea2 as <-. rewrite Hd. split_and!; [done..|].
  destruct (apply_all_ok (edits ops) (mkManifest (mkFile (concat (map record (edits ops)) ++ t)
    (len (concat (map record (edits ops)) ++ t)) fs) empty_version 1) Hl) as (m3 & E3 & _ & _ & Hn); [done|].
  rewrite Ea in E3. by injection E3 as <-.
Qed.

(** An edit behind a torn tail is lost.  [OpenManifest] tolerates a torn tail but
    leaves it in the file and appends behind it: after a crash that left one byte, an
    edit that [Apply] wrote, synced and acknowledged is gone at the next opening, since
    the replay takes its length from the wrong four bytes. *)
Theorem manifest_torn_tail_loses_edit (b : byte) (e : VersionEdit)
    (He : edit_ok e) (Hl : levels_ok e) (Hsmall : len (Encode e) < 2 ^ 24) :
  exists m1 m2 m3, OpenManifest [b] [] = Ok m1 /\ Apply e m1 = (m2, Ok tt) /\
    applyEditToMemory m1 e = Ok (mkManifest (mfile m1) (current m2) (nextFileNum m2)) /\
    OpenManifest (fdata (mfile m2)) [] = Ok m3 /\ current m3 = empty_version.
Proof.
  set (m1 := mkManifest (mkFile [b] 1 []) empty_version 1).
  destruct (Apply_ok m1 e Hl) as (m2 & f & E2 & Ea & Hd & _); [done..|].
  exists m1, m2, (mkManifest (mkFile (fdata (mfile m2)) (len (fdata (mfile m2))) []) empty_version 1).
  split_and!; [done|done| | |done].
  { rewrite Ea. destruct (applyEditToMemory_ok m1 e Hl) as (m & E & _ & Hf & _); [done|].
    rewrite E in Ea. injection Ea as ->. cbn in Hf. by rewrite Hf. }
  unfold OpenManifest. set (data := fdata (mfile m2)) in *. cbn [m1 mfile fdata] in Hd. pose proof (len_nonneg (Encode e)).
  assert (16 <= len (Encode e)) as H16.
  { unfold Encode. rewrite !len_app, !len_put_le. pose proof (len_nonneg (concat (map encode_deleted (DeletedFiles e)))).
    pose proof (len_nonneg (concat (map encode_added (AddedFiles e)))). lia. }
  assert (len data = 5 + len (Encode e)) as Hlen by (rewrite Hd, len_app, len_record, len_cons; len_nils; lia).
  destruct (length data) as [|fuel] eqn:Ef; [unfold len in Hlen; lia|]. cbn [replay].
  rewrite (proj2 (Z.ltb_lt _ _)) by lia. rewrite (proj2 (Z.ltb_ge _ _)) by lia.
  set (n := len (Encode e)) in *.
  assert (data = [] ++ put_le 4 (b2z b + 256 * n) ++ z2b (n / 2 ^ 24) :: Encode e) as Hs.
  { rewrite Hd. unfold record. fold n. cbn [app put_le]. pose proof (b2z_range b).
    replace ((b2z b + 256 * n) / 256) with n by (apply (Z.div_unique _ _ _ (b2z b)); lia).
    f_equal; [|by rewrite !Z.div_div by lia].
    rewrite <- (z2b_b2z b) at 1. unfold z2b. do 3 f_equal.
    rewrite Z.mod_small by lia. apply (Z.mod_unique _ _ n); lia. }
  rewrite (u_at_ok 4 data [] (b2z b + 256 * n) (z2b (n / 2 ^ 24) :: Encode e)); [|done|done|].
  2:{ pose proof (b2z_range b). change (256 ^ _) with (2 ^ 32). lia. }
  cbn [mbind outcome_bind]. pose proof (b2z_range b). by rewrite (proj2 (Z.ltb_lt _ _)) by lia.
Qed.

(** ** Concrete manifests *)

Definition sample_file (level num : Z) (small large : bytes) : FileMetadata :=
  mkMeta level num 100 small large 3.

Definition flush_edit : VersionEdit := mkEdit [sample_file 0 1 (str "a") (str "c")] [] 0.
Definition compact_edit : VersionEdit := mkEdit [sample_file 1 2 (str "a") (str "c")] [mkDeleted 0 1] 0.

Lemma sample_edits_ok : man_op_ok (MApply flush_edit) /\ man_op_ok (MApply compact_edit).
Proof. split; (split; [split|split]); repeat constructor; vm_compute; congruence. Qed.

Lemma manifest_reopen_witness :
  exists m0 m m', OpenManifest [] [] = Ok m0 /\
    man_run [MNext; MApply flush_edit; MNext; MApply compact_edit] m0 = (m, Ok tt) /\
    OpenManifest (fdata (mfile m) ++ [Byte.x10]) [] = Ok m' /\ current m' = current m /\ nextFileNum m' = 1.
Proof.
  apply (manifest_reopen [MNext; MApply flush_edit; MNext; MApply compact_edit] [Byte.x10] []).
  - repeat (apply Forall_cons_2; [first [done | apply sample_edits_ok]|]). by constructor.
  - right. exists (mkEdit [] [] 0), (drop 1 (record (mkEdit [] [] 0))).
    split; [split; repeat constructor; vm_compute; congruence|]. split; [vm_compute; reflexivity|]. by vm_compute.
Defined.

Lemma manifest_torn_tail_loses_edit_witness :
  exists m1 m2 m3, OpenManifest [Byte.x10] [] = Ok m1 /\ Apply flush_edit m1 = (m2, Ok tt) /\
    applyEditToMemory m1 flush_edit = Ok (mkManifest (mfile m1) (current m2) (nextFileNum m2)) /\
    OpenManifest (fdata (mfile m2)) [] = Ok m3 /\ current m3 = empty_version.
Proof.
  apply (manifest_torn_tail_loses_edit Byte.x10 flush_edit); [apply sample_edits_ok..|vm_compute; reflexivity].
Defined.
