(* ===== verification/Heap.v ===== *)
(** * Binary heaps (package container/heap)

    [up], [down], [Push] and [Pop] as the Go library has them, on a slice and a
    comparison, with the theorem its clients need: the top is least, and no element is
    lost. *)

From S2P Require Import Prelude.

Module heap.
Section ops.
Context {E A : Type} (Less : A -> A -> bool).
Implicit Types h : list A.

Definition less_at h (i j : nat) : outcome E bool :=
  match h !! i, h !! j with
  | Some a, Some b => Ok (Less a b)
  | _, _ => Panic
  end.

Definition Swap h (i j : nat) : outcome E (list A) :=
  match h !! i, h !! j with
  | Some a, Some b => Ok (<[i := b]> (<[j := a]> h))
  | _, _ => Panic
  end.

(** The index at least halves. *)
Fixpoint up (fuel : nat) h (j : nat) : outcome E (list A) :=
  match fuel with
  | O => Fuel
  | S fuel =>
      let i := ((j - 1) / 2)%nat in
      if bool_decide (i = j) then Ok h
      else
        b ← less_at h j i;
        if (b : bool) then h ← Swap h i j; up fuel h i else Ok h
  end.

(** The index at least doubles. *)
Fixpoint down (fuel : nat) h (i n : nat) : outcome E (list A) :=
  match fuel with
  | O => Fuel
  | S fuel =>
      let j1 := (2 * i + 1)%nat in
      if bool_decide (n <= j1)%nat then Ok h
      else
        let j2 := S j1 in
        b2 ← (if bool_decide (j2 < n)%nat then less_at h j2 j1 else Ok false);
        let j := if (b2 : bool) then j2 else j1 in
        b ← less_at h j i;
        if (b : bool) then h ← Swap h i j; down fuel h j n else Ok h
  end.

Definition Push h (x : A) : outcome E (list A) := up (S (length h)) (h ++ [x]) (length h).

Definition Pop h : outcome E (A * list A) :=
  let n := (length h - 1)%nat in
  h ← Swap h 0 n;
  h ← down (S n) h 0 n;
  match h !! n with
  | Some x => Ok (x, take n h)
  | None => Panic
  end.
End ops.
End heap.
Import heap.

Section heap.
Context {E A : Type} (Less : A -> A -> bool) `{!Inhabited A}.

(** [Less] compares by a total preorder. *)
Definition hle (a b : A) : Prop := Less b a = false.
Context (hle_trans : forall a b c, hle a b -> hle b c -> hle a c).
Context (less_le : forall a b, Less a b = true -> hle a b).
Implicit Types h : list A.

Definition par (i : nat) : nat := ((i - 1) / 2)%nat.

(** The first [n] elements form a heap, but for the pairs of a node that [skip] has. *)
Definition heap_but (skip : nat -> Prop) h (n : nat) : Prop :=
  forall i, (0 < i < n)%nat -> ~ skip i -> hle (h !!! par i) (h !!! i).

Definition is_heap h : Prop := heap_but (fun _ => False) h (length h).

Lemma par_lt i : (0 < i)%nat -> (par i < i)%nat.
Proof. intros. unfold par. pose proof (Nat.Div0.div_le_upper_bound (i - 1) 2 (i - 1)). lia. Qed.

Lemma par_child c i : (0 < c)%nat -> par c = i <-> (c = 2 * i + 1 \/ c = 2 * i + 2)%nat.
Proof.
  intros Hc. unfold par. pose proof (Nat.div_mod_eq (c - 1) 2). pose proof (Nat.mod_upper_bound (c - 1) 2). lia.
Qed.

Lemma less_at_ok h i j : (i < length h)%nat -> (j < length h)%nat ->
  less_at (E := E) Less h i j = Ok (Less (h !!! i) (h !!! j)).
Proof.
  intros Hi Hj. unfold less_at. destruct (lookup_lt_is_Some_2 h i Hi) as [a Ha].
  destruct (lookup_lt_is_Some_2 h j Hj) as [b Hb]. rewrite Ha, Hb.
  by rewrite (list_lookup_total_correct _ _ _ Ha), (list_lookup_total_correct _ _ _ Hb).
Qed.

Definition swapped h (i j : nat) : list A := <[i := h !!! j]> (<[j := h !!! i]> h).

Lemma Swap_ok h i j : (i < length h)%nat -> (j < length h)%nat -> Swap (E := E) h i j = Ok (swapped h i j).
Proof.
  intros Hi Hj. unfold Swap, swapped. destruct (lookup_lt_is_Some_2 h i Hi) as [a Ha].
  destruct (lookup_lt_is_Some_2 h j Hj) as [b Hb]. rewrite Ha, Hb.
  by rewrite (list_lookup_total_correct _ _ _ Ha), (list_lookup_total_correct _ _ _ Hb).
Qed.

Lemma length_swapped h i j : length (swapped h i j) = length h.
Proof. unfold swapped. by rewrite !length_insert. Qed.

Lemma swapped_at h i j k : (i < length h)%nat -> (j < length h)%nat ->
  swapped h i j !!! k = if decide (k = i) then h !!! j else if decide (k = j) then h !!! i else h !!! k.
Proof.
  intros Hi Hj. unfold swapped. destruct (decide (k = i)) as [->|Hki].
  { rewrite list_lookup_total_insert_eq; [done|by rewrite length_insert]. }
  rewrite list_lookup_total_insert_ne by done. destruct (decide (k = j)) as [->|Hkj].
  { by rewrite list_lookup_total_insert_eq. }
  by rewrite list_lookup_total_insert_ne by done.
Qed.

Lemma swapped_perm h i j : (i < length h)%nat -> (j < length h)%nat -> swapped h i j ≡ₚ h.
Proof.
  intros Hi Hj. destruct (decide (i = j)) as [->|Hij].
  { unfold swapped. rewrite list_insert_insert_eq, list_insert_id; [done|]. by apply list_lookup_lookup_total_lt. }
  apply Permutation_inj. split; [apply length_swapped|].
  exists (fun k => if decide (k = i) then j else if decide (k = j) then i else k).
  split; [intros a b; repeat case_decide; congruence|]. intros k.
  destruct (decide (k < length h)%nat) as [Hk|Hk].
  2:{ rewrite !lookup_ge_None_2; [done| |rewrite length_swapped; lia]. repeat case_decide; lia. }
  rewrite (list_lookup_lookup_total_lt (swapped h i j)) by (by rewrite length_swapped). rewrite swapped_at by done.
  repeat case_decide; subst; symmetry; by apply list_lookup_lookup_total_lt.
Qed.

Lemma not_less_le a b : Less a b = false -> hle b a.
Proof. done. Qed.

Lemma hle_refl a : hle a a.
Proof. unfold hle. destruct (Less a a) eqn:Ea; [|done]. pose proof (less_le _ _ Ea) as H. unfold hle in H. congruence. Qed.

Lemma up_ok : forall fuel h j, (j < fuel)%nat -> (j < length h)%nat ->
  heap_but (eq j) h (length h) ->
  (forall c, (0 < c < length h)%nat -> par c = j -> (0 < j)%nat -> hle (h !!! par j) (h !!! c)) ->
  exists h', up (E := E) Less fuel h j = Ok h' /\ is_heap h' /\ h' ≡ₚ h.
Proof.
  induction fuel as [|fuel IH]; intros h j Hf Hj Hh Hg; [lia|]. cbn [up]. fold (par j).
  destruct (decide (j = 0)%nat) as [->|Hj0].
  { exists h. rewrite bool_decide_true by done. split_and!; [done| |done]. intros k Hk _. apply Hh; [done|lia]. }
  pose proof (par_lt j ltac:(lia)) as Hp. rewrite bool_decide_false by lia. set (i := par j) in *.
  rewrite less_at_ok by lia. cbn [mbind outcome_bind]. destruct (Less (h !!! j) (h !!! i)) eqn:El.
  2:{ exists h. split_and!; [done| |done]. intros k Hk _. destruct (decide (j = k)) as [<-|]; [by fold i|by apply Hh]. }
  rewrite Swap_ok by lia. cbn [mbind outcome_bind]. apply less_le in El.
  destruct (IH (swapped h i j) i) as (h' & E' & Hh' & Hp'); [lia|rewrite length_swapped; lia| | |].
  - intros k Hk Hki. rewrite length_swapped in Hk. pose proof (par_lt k ltac:(lia)). rewrite !swapped_at by lia.
    destruct (decide (k = i)) as [?|_]; [lia|]. destruct (decide (k = j)) as [->|Hkj].
    + fold i. by rewrite decide_True.
    + assert (hle (h !!! par k) (h !!! k)) as Hk' by (apply Hh; [done|congruence]).
      destruct (decide (par k = i)) as [Hpi|]; [rewrite Hpi in Hk'; by eapply hle_trans|].
      destruct (decide (par k = j)) as [Hpj|]; [|done]. apply Hg; [done|done|lia].
  - intros c Hc Hpc Hi0. rewrite length_swapped in Hc. pose proof (par_lt i Hi0). pose proof (par_lt c ltac:(lia)).
    assert (hle (h !!! par i) (h !!! i)) as Hpi by (apply Hh; lia).
    rewrite !swapped_at by lia. rewrite decide_False by lia. rewrite decide_False by lia.
    rewrite decide_False by lia. destruct (decide (c = j)) as [->|Hcj]; [done|].
    eapply hle_trans; [exact Hpi|]. rewrite <- Hpc. apply Hh; [done|congruence].
  - exists h'. split_and!; [done|done|]. rewrite Hp'. apply swapped_perm; lia.
Qed.

Lemma Push_ok h x : is_heap h -> exists h', Push (E := E) Less h x = Ok h' /\ is_heap h' /\ h' ≡ₚ x :: h.
Proof.
  intros Hh. unfold Push.
  destruct (up_ok (S (length h)) (h ++ [x]) (length h)) as (h' & E' & Hh' & Hp); [lia|rewrite length_app; cbn; lia| | |].
  - intros k Hk Hne. rewrite length_app in Hk. cbn in Hk. pose proof (par_lt k ltac:(lia)).
    rewrite !lookup_total_app_l by lia. apply Hh; [lia|tauto].
  - intros c Hc Hpc Hl. rewrite length_app in Hc. cbn in Hc. pose proof (par_lt c ltac:(lia)). lia.
  - exists h'. split_and!; [done|done|]. rewrite Hp. by rewrite Permutation_app_comm.
Qed.

Lemma down_ok : forall fuel h i n, (n - i < fuel)%nat -> (n <= length h)%nat ->
  heap_but (fun c => par c = i) h n ->
  (forall c, (0 < c < n)%nat -> par c = i -> (0 < i)%nat -> hle (h !!! par i) (h !!! c)) ->
  exists h', down (E := E) Less fuel h i n = Ok h' /\ heap_but (fun _ => False) h' n /\ h' ≡ₚ h /\
    forall k, (n <= k)%nat -> h' !!! k = h !!! k.
Proof.
  induction fuel as [|fuel IH]; intros h i n Hf Hn Hh Hg; [lia|]. cbn [down]. set (j1 := (2 * i + 1)%nat).
  destruct (decide (n <= j1)%nat) as [Hle|Hlt].
  { rewrite bool_decide_true by done. exists h. split_and!; [done| |done|done]. intros k Hk _. apply Hh; [done|].
    intros Hpk%par_child; lia. }
  rewrite bool_decide_false by done.
  assert (exists b2, (if bool_decide (S j1 < n)%nat then less_at (E := E) Less h (S j1) j1 else Ok false) = Ok b2 /\
    let j := if (b2 : bool) then S j1 else j1 in
    (0 < j < n)%nat /\ par j = i /\ forall c, (0 < c < n)%nat -> par c = i -> hle (h !!! j) (h !!! c)) as (b2 & -> & Hj).
  { destruct (decide (S j1 < n)%nat) as [H2|H2].
    - rewrite bool_decide_true, less_at_ok by lia. eexists. split; [done|].
      destruct (Less (h !!! S j1) (h !!! j1)) eqn:E2; (split; [lia|]); (split; [apply par_child; lia|]);
        intros c Hc [->| ->]%par_child; try lia.
      + by apply less_le.
      + replace (2 * i + 2)%nat with (S j1) by lia. apply hle_refl.
      + apply hle_refl.
      + by replace (2 * i + 2)%nat with (S j1) by lia.
    - rewrite bool_decide_false by done. exists false. split; [done|]. split; [lia|]. split; [apply par_child; lia|].
      intros c Hc [->| ->]%par_child; [apply hle_refl|lia|lia]. }
  cbn [mbind outcome_bind]. cbv zeta in Hj. set (j := if b2 then S j1 else j1) in *. destruct Hj as (Hj & Hpj & Hmin).
  pose proof (par_lt j ltac:(lia)) as Hij. rewrite Hpj in Hij. rewrite less_at_ok by lia. cbn [mbind outcome_bind].
  destruct (Less (h !!! j) (h !!! i)) eqn:El.
  2:{ exists h. split_and!; [done| |done|done]. intros k Hk _. destruct (decide (par k = i)) as [Hpk|]; [|by apply Hh].
      rewrite Hpk. eapply hle_trans; [exact El|by apply Hmin]. }
  rewrite Swap_ok by lia. cbn [mbind outcome_bind]. apply less_le in El.
  destruct (IH (swapped h i j) j n) as (h' & E' & Hh' & Hp' & Hk'); [lia|rewrite length_swapped; lia| | |].
  - intros k Hk Hkj. pose proof (par_lt k ltac:(lia)). rewrite !swapped_at by lia.
    destruct (decide (par k = i)) as [Hpi|Hpi].
    + rewrite (decide_False (P := k = i)) by lia. destruct (decide (k = j)); [done|]. by apply Hmin.
    + rewrite (decide_False (P := par k = j)) by done. rewrite (decide_False (P := k = j)) by congruence.
      destruct (decide (k = i)) as [->|]; [|by apply Hh]. apply Hg; [done|done|lia].
  - intros c Hc Hpc Hj0. pose proof (par_lt c ltac:(lia)). rewrite Hpj, !swapped_at by lia.
    rewrite decide_True by done. rewrite (decide_False (P := c = i)) by lia. rewrite (decide_False (P := c = j)) by lia.
    rewrite <- Hpc. apply Hh; [done|lia].
  - exists h'. split_and!; [done|done|rewrite Hp'; apply swapped_perm; lia|].
    intros k Hk. rewrite Hk' by done. rewrite swapped_at by lia. by rewrite !decide_False by lia.
Qed.

Lemma heap_top h i : is_heap h -> (i < length h)%nat -> hle (h !!! 0%nat) (h !!! i).
Proof.
  intros Hh. induction (lt_wf i) as [i _ IH]. intros Hi. destruct (decide (i = 0%nat)) as [->|Hi0]; [apply hle_refl|].
  pose proof (par_lt i ltac:(lia)). eapply hle_trans; [apply IH|apply Hh]; [lia..|tauto].
Qed.

Lemma heap_top_le x h y : is_heap (x :: h) -> y ∈ x :: h -> hle x y.
Proof.
  intros Hh [i Hi]%list_elem_of_lookup. rewrite <- (list_lookup_total_correct _ _ _ Hi).
  apply (heap_top (x :: h) i Hh). by eapply lookup_lt_Some.
Qed.

Lemma Pop_ok x h : is_heap (x :: h) -> exists h', Pop (E := E) Less (x :: h) = Ok (x, h') /\ is_heap h' /\ h' ≡ₚ h.
Proof.
  intros Hh. set (g := x :: h) in *. unfold Pop. set (n := (length g - 1)%nat).
  assert (length g = S n) as Hl by (unfold n, g; cbn; lia). rewrite Swap_ok by lia. cbn [mbind outcome_bind].
  destruct (down_ok (S n) (swapped g 0 n) 0 n) as (h' & E' & Hh' & Hp & Hk); [lia|rewrite length_swapped; lia| |lia|].
  { intros k Hk Hpk. pose proof (par_lt k ltac:(lia)). rewrite !swapped_at by lia.
    rewrite !decide_False by lia. apply Hh; [lia|tauto]. }
  rewrite E'. cbn [mbind outcome_bind].
  assert (length h' = S n) as Hl' by (by rewrite Hp, length_swapped).
  assert (h' !! n = Some x) as Hx.
  { rewrite list_lookup_lookup_total_lt by lia. rewrite Hk by lia. rewrite swapped_at by lia.
    destruct (decide (n = 0%nat)) as [->|]; [done|]. by rewrite decide_True. }
  rewrite Hx. exists (take n h'). split_and!; [done| |].
  - intros k Hk' _. rewrite length_take in Hk'. pose proof (par_lt k ltac:(lia)).
    rewrite !lookup_total_take_lt by lia. apply Hh'; [lia|tauto].
  - apply (Permutation_cons_inv (a := x)). fold g.
    transitivity h'; [|by rewrite Hp, swapped_perm by lia].
    rewrite <- (take_drop_middle h' n x Hx) at 2. rewrite drop_ge by lia. by rewrite Permutation_app_comm.
Qed.
End heap.
