(* ===== verification/MergeIter.v ===== *)
(** * Merging iterators (internal/lsm/merge_iterator.go)

    The interface [Iterator] is a class of operations and a class of the laws a client
    may rely on; a merge of iterators that satisfy the laws satisfies them again.
    Iterators may change a shared state (the block cache), and the heap refers to the
    iterators of the merge by their position, as the Go heap shares their pointers. *)

From S2P Require Import Prelude Order Keys Heap.
Import mvcc.

Class IterOps (E S I : Type) := {
  it_Valid : I -> bool;
  it_Key : I -> bytes;
  it_Value : I -> option bytes;
  it_Next : I -> st E S I;
  it_SeekToFirst : I -> st E S I;
  it_Seek : bytes -> I -> st E S I;
}.

(** [pos all it rest]: [it] iterates over [all] and [rest] is what it has not passed. *)
Class IterLaws {E S I : Type} `{!IterOps E S I} (inv : S -> Prop) (pos : list kv -> I -> list kv -> Prop) : Prop := {
  law_sorted : forall all it rest, pos all it rest -> ksorted CompareKeys all /\ ksorted CompareKeys rest;
  law_valid : forall all it rest, pos all it rest ->
    it_Valid (E := E) (S := S) it = match rest with [] => false | _ => true end;
  law_key : forall all it k v rest, pos all it ((k, v) :: rest) ->
    it_Key (E := E) (S := S) it = k /\ it_Value (E := E) (S := S) it = v;
  law_next : forall all it e rest s, inv s -> pos all it (e :: rest) ->
    exists s' it', it_Next (E := E) it s = (s', Ok it') /\ inv s' /\ pos all it' rest;
  law_first : forall all it rest s, inv s -> pos all it rest ->
    exists s' it', it_SeekToFirst (E := E) it s = (s', Ok it') /\ inv s' /\ pos all it' all;
  law_seek : forall all it rest target s, inv s -> pos all it rest ->
    exists s' it', it_Seek (E := E) target it s = (s', Ok it') /\ inv s' /\ pos all it' (entries_from target all);
}.

Module merge.
Section merge.
Context {E S I : Type} `{!IterOps E S I}.

Record MergeIterator := mkMerge {
  iters : list I;
  hp : list nat;
  currentKey : bytes;
  currentVal : option bytes;
  valid : bool;
}.

Definition NewMergeIterator (its : list I) : MergeIterator := mkMerge its [] [] None false.

(** The items of the heap are the positions of their iterators. *)
Definition key_at (its : list I) (i : nat) : bytes :=
  default [] (it_Key (E := E) (S := S) <$> its !! i).

Definition Less (its : list I) (i j : nat) : bool :=
  match CompareKeys (key_at its i) (key_at its j) with
  | Eq => bool_decide (i < j)%nat
  | Lt => true
  | Gt => false
  end.

Definition findSmallest (m : MergeIterator) : outcome E MergeIterator :=
  match hp m with
  | [] => Ok (mkMerge (iters m) [] (currentKey m) (currentVal m) false)
  | top :: _ =>
      match iters m !! top with
      | None => Panic
      | Some it => Ok (mkMerge (iters m) (hp m) (it_Key (E := E) (S := S) it) (it_Value (E := E) (S := S) it) true)
      end
  end.

(** Pushes iterator [i] when it is valid, as it is in [its] now. *)
Definition push_valid (its : list I) (h : list nat) (i : nat) (it : I) : outcome E (list nat) :=
  if it_Valid (E := E) (S := S) it then heap.Push (Less its) h i else Ok h.

(** The loop of [SeekToFirst] and [Seek]: [move] positions each iterator. *)
Fixpoint position (move : I -> st E S I) (todo : list I) (i : nat) (its : list I) (h : list nat)
    : st E S (list I * list nat) :=
  match todo with
  | [] => mret (its, h)
  | it :: todo =>
      it ← move it;
      let its := <[i := it]> its in
      h ← lift (push_valid its h i it);
      position move todo (Datatypes.S i) its h
  end.

Definition reposition (move : I -> st E S I) (m : MergeIterator) : st E S MergeIterator :=
  x ← position move (iters m) 0 (iters m) [];
  lift (findSmallest (mkMerge x.1 x.2 (currentKey m) (currentVal m) (valid m))).

Definition SeekToFirst (m : MergeIterator) : st E S MergeIterator := reposition it_SeekToFirst m.

Definition Seek (target : bytes) (m : MergeIterator) : st E S MergeIterator := reposition (it_Seek target) m.

(** The loop of [Next]: every iterator at [key] is advanced; the iterators are sorted,
    so each is advanced once. *)
Fixpoint skip_key (fuel : nat) (key : bytes) (its : list I) (h : list nat) : st E S (list I * list nat) :=
  match h with
  | [] => mret (its, h)
  | top :: _ =>
      match its !! top with
      | None => lift Panic
      | Some it =>
          if bool_decide (it_Key (E := E) (S := S) it = key) then
            match fuel with
            | O => lift Fuel
            | Datatypes.S fuel =>
                x ← lift (heap.Pop (Less its) h);
                it ← it_Next it;
                let its := <[x.1 := it]> its in
                h ← lift (push_valid its x.2 x.1 it);
                skip_key fuel key its h
            end
          else mret (its, h)
      end
  end.

Definition Next (m : MergeIterator) : st E S MergeIterator :=
  if negb (valid m) then mret m
  else
    x ← skip_key (length (iters m)) (currentKey m) (iters m) (hp m);
    lift (findSmallest (mkMerge x.1 x.2 (currentKey m) (currentVal m) (valid m))).

End merge.
Arguments MergeIterator I : clear implicits.
End merge.
Import merge.

(** ** The heap of a merge *)

Section laws.
Context {E S I : Type} `{!IterOps E S I} (inv : S -> Prop) (pos : list kv -> I -> list kv -> Prop).
Context `{!IterLaws (E := E) inv pos}.

Abbreviation less its := (Less (E := E) (S := S) (I := I) its).
Abbreviation keyat its := (key_at (E := E) (S := S) (I := I) its).

Lemma less_cases its i j :
  less its i j = true <-> klt CompareKeys (keyat its i) (keyat its j) \/ keyat its i = keyat its j /\ (i < j)%nat.
Proof.
  unfold Less, klt. destruct (CompareKeys (keyat its i) (keyat its j)) eqn:Ec.
  - apply (ko_eq CompareKeys) in Ec as ->. rewrite bool_decide_eq_true. naive_solver.
  - naive_solver.
  - split; [done|]. intros [?|[Heq _]]; [done|]. rewrite Heq, ko_refl in Ec. done.
Qed.

Lemma hle_cases its i j :
  hle (less its) i j <-> klt CompareKeys (keyat its i) (keyat its j) \/ keyat its i = keyat its j /\ (i <= j)%nat.
Proof.
  unfold hle. rewrite <- not_true_iff_false, less_cases.
  destruct (ko_trichotomy (cmp := CompareKeys) (keyat its i) (keyat its j)) as [H|[H|H]].
  - split; [by left|]. intros _ [H'|[H' _]]; [by apply (klt_asym _ _ H)|]. rewrite H' in H. by apply klt_irrefl in H.
  - rewrite H. pose proof (klt_irrefl (cmp := CompareKeys) (keyat its j)). split; [intros Hn; right; split; [done|]|].
    + destruct (decide (i <= j)%nat); [done|]. destruct Hn. right. split; [done|lia].
    + intros [?|[_ ?]]; [done|]. intros [?|[_ ?]]; [done|lia].
  - split; [intros Hn; destruct Hn; by left|]. intros [H'|[H' _]]; [by apply (klt_asym _ _ H) in H'|].
    rewrite H' in H. by apply klt_irrefl in H.
Qed.

Lemma less_trans its a b c : hle (less its) a b -> hle (less its) b c -> hle (less its) a c.
Proof.
  rewrite !hle_cases. intros [H1|[H1 H1']] [H2|[H2 H2']].
  - left. by eapply (ko_trans CompareKeys).
  - left. by rewrite <- H2.
  - left. by rewrite H1.
  - right. split; [congruence|lia].
Qed.

Lemma less_hle its a b : less its a b = true -> hle (less its) a b.
Proof. rewrite less_cases, hle_cases. intros [?|[? ?]]; [by left|right]. split; [done|lia]. Qed.

(** The positions [rs] of the iterators [its] over the lists [alls], and the heap [h] of
    those not at their end, among the first [n]. *)
Record at_rests (alls : list (list kv)) (its : list I) (rs : list (list kv)) : Prop := {
  ar_alls : length alls = length its;
  ar_len : length rs = length its;
  ar_pos : forall i all it r, alls !! i = Some all -> its !! i = Some it -> rs !! i = Some r -> pos all it r;
}.

Record heap_of (its : list I) (rs : list (list kv)) (n : nat) (h : list nat) : Prop := {
  ho_heap : is_heap (less its) h;
  ho_nodup : NoDup h;
  ho_in : forall i, i ∈ h <-> (i < n)%nat /\ exists e r, rs !! i = Some (e :: r);
}.

Lemma heap_ext its its' (h : list nat) :
  (forall i, i ∈ h -> keyat its' i = keyat its i) -> is_heap (less its) h -> is_heap (less its') h.
Proof.
  intros Hk Hh i Hi Hn. specialize (Hh i Hi Hn).
  assert (forall j, (j < length h)%nat -> h !!! j ∈ h) as Hin.
  { intros j Hj. apply list_elem_of_lookup. exists j. by apply list_lookup_lookup_total_lt. }
  pose proof (par_lt i ltac:(lia)). apply hle_cases. apply hle_cases in Hh.
  by rewrite !Hk by (apply Hin; lia).
Qed.

Lemma keyat_insert_ne (its : list I) i j it : i <> j -> keyat (<[i := it]> its) j = keyat its j.
Proof. intros. unfold key_at. by rewrite list_lookup_insert_ne. Qed.

Lemma at_rests_insert alls its rs i all it r :
  at_rests alls its rs -> alls !! i = Some all -> pos all it r -> at_rests alls (<[i := it]> its) (<[i := r]> rs).
Proof.
  intros [Ha Hl Hp] Hi Hpos. split; [by rewrite length_insert|by rewrite !length_insert|].
  intros j all' it' r' Hj Hit Hr. apply list_lookup_insert_Some in Hit as [(<- & <- & _)|[Hne Hit]].
  - rewrite list_lookup_insert_eq in Hr by (rewrite Hl, <- Ha; by eapply lookup_lt_Some). by simplify_eq.
  - rewrite list_lookup_insert_ne in Hr by done. by eapply Hp.
Qed.

Lemma at_rests_it alls its rs i r :
  at_rests alls its rs -> rs !! i = Some r -> exists all it, alls !! i = Some all /\ its !! i = Some it /\ pos all it r.
Proof.
  intros [Ha Hl Hp] Hr. pose proof (lookup_lt_Some _ _ _ Hr).
  destruct (lookup_lt_is_Some_2 its i) as [it Hit]; [lia|]. destruct (lookup_lt_is_Some_2 alls i) as [all Hall]; [lia|].
  exists all, it. split_and!; [done..|by eapply Hp].
Qed.

Lemma keyat_head alls its rs i k v r :
  at_rests alls its rs -> rs !! i = Some ((k, v) :: r) -> keyat its i = k.
Proof.
  intros Ha Hr. destruct (at_rests_it _ _ _ _ _ Ha Hr) as (all & it & _ & Hit & Hp). unfold key_at. rewrite Hit. cbn.
  by eapply law_key.
Qed.

Lemma rests_sorted alls its rs : at_rests alls its rs -> Forall (ksorted CompareKeys) rs.
Proof.
  intros Ha. apply Forall_lookup_2. intros i r Hr. destruct (at_rests_it _ _ _ _ _ Ha Hr) as (? & ? & _ & _ & Hp).
  by eapply law_sorted.
Qed.

Lemma push_valid_ok its h i all it r :
  pos all it r -> is_heap (less its) h -> NoDup h -> i ∉ h ->
  exists h', push_valid (E := E) (S := S) (<[i := it]> its) h i it = Ok h' /\ is_heap (less (<[i := it]> its)) h' /\
    NoDup h' /\ forall j, j ∈ h' <-> j ∈ h \/ j = i /\ r <> [].
Proof.
  intros Hp Hh Hnd Hi. unfold push_valid. rewrite (law_valid _ _ _ Hp).
  assert (is_heap (less (<[i := it]> its)) h) as Hh'.
  { eapply heap_ext; [|exact Hh]. intros j Hj. apply keyat_insert_ne. by intros ->. }
  destruct r as [|e r].
  { exists h. split_and!; [done..|]. intros j. naive_solver. }
  destruct (Push_ok (E := E) (less (<[i := it]> its)) (less_trans _) (less_hle _) h i Hh') as (h' & Ep & Hh2 & Hperm).
  exists h'. split_and!; [done|done| |].
  - rewrite Hperm. by constructor.
  - intros j. rewrite Hperm, elem_of_cons. naive_solver.
Qed.

(** Moving iterator [i] to [r] and pushing it keeps the heap. *)
Lemma heap_of_push alls its rs n n' h i all it r :
  at_rests alls its rs -> alls !! i = Some all -> pos all it r -> is_heap (less its) h -> NoDup h ->
  i ∉ h -> (forall j, j ∈ h <-> (j < n)%nat /\ j <> i /\ exists e r, rs !! j = Some (e :: r)) ->
  (i < n')%nat -> (forall j, j <> i -> (j < n)%nat <-> (j < n')%nat) ->
  exists h', push_valid (E := E) (S := S) (<[i := it]> its) h i it = Ok h' /\
    heap_of (<[i := it]> its) (<[i := r]> rs) n' h'.
Proof.
  intros Ha Hall Hp Hh Hnd Hi Hin Hn' Hnn. destruct (push_valid_ok its h i all it r Hp Hh Hnd Hi) as (h' & Ep & Hh' & Hnd' & Hin').
  exists h'. split; [done|]. split; [done|done|]. intros j. rewrite Hin', Hin.
  assert (i < length rs)%nat as Hlt by (destruct Ha as [Hl1 Hl2 _]; rewrite Hl2, <- Hl1; by eapply lookup_lt_Some).
  destruct (decide (j = i)) as [->|Hne].
  - rewrite list_lookup_insert_eq by done. split.
    + intros [(_ & ? & _)|[_ Hr]]; [done|]. split; [done|]. destruct r as [|e r]; [done|]. by exists e, r.
    + intros (_ & e & r' & [= ->]). by right.
  - rewrite list_lookup_insert_ne by done. rewrite <- Hnn by done. naive_solver.
Qed.

Lemma position_ok (move : I -> st E S I) (goal : list kv -> list kv) alls :
  (forall all it r s, inv s -> pos all it r -> exists s' it', move it s = (s', Ok it') /\ inv s' /\ pos all it' (goal all)) ->
  forall todo i its rs h s, todo = drop i its -> at_rests alls its rs -> heap_of its rs i h -> inv s ->
  exists s' its' h', position move todo i its h s = (s', Ok (its', h')) /\ inv s' /\
    at_rests alls its' (take i rs ++ map goal (drop i alls)) /\
    heap_of its' (take i rs ++ map goal (drop i alls)) (length its') h'.
Proof.
  intros Hmove. induction todo as [|it todo IH]; intros i its rs h s Ht Ha Hh Hinv; pose proof Ha as [Hl1 Hl2 _].
  - assert (length its <= i)%nat as Hi by (apply (f_equal length) in Ht; rewrite length_drop in Ht; cbn in Ht; lia).
    exists s, its, h. rewrite (drop_ge alls), (take_ge rs), app_nil_r by lia. split_and!; [done..|].
    destruct Hh as [H1 H2 H3]. split; [done..|]. intros j. rewrite H3. split; intros [_ (e & r & Hr)];
      (split; [pose proof (lookup_lt_Some _ _ _ Hr); lia|by exists e, r]).
  - assert (its !! i = Some it) as Hit by (rewrite <- (Nat.add_0_r i), <- lookup_drop, <- Ht; done).
    pose proof (lookup_lt_Some _ _ _ Hit) as Hi. destruct (lookup_lt_is_Some_2 rs i) as [r Hr]; [lia|].
    destruct (at_rests_it _ _ _ _ _ Ha Hr) as (all & it0 & Hall & Hit0 & Hp). simplify_eq.
    destruct (Hmove all it r s Hinv Hp) as (s1 & it1 & Em & Hinv1 & Hp1). destruct Hh as [Hh1 Hh2 Hh3].
    destruct (heap_of_push alls its rs i (Datatypes.S i) h i all it1 (goal all)) as (h1 & Ep & Hh1');
      [done..|intros [Hii _]%Hh3; lia| |lia|lia|].
    { intros j. rewrite Hh3. split; [intros [? ?]; split_and!; [done|lia|done]|naive_solver]. }
    destruct (IH (Datatypes.S i) (<[i := it1]> its) (<[i := goal all]> rs) h1 s1) as (s' & its' & h' & E' & Hinv' & Hr' & Hh');
      [|by apply (at_rests_insert _ _ _ i all)|done|done|].
    { rewrite drop_insert_lt by lia. rewrite (drop_S _ _ _ Hit) in Ht. by injection Ht. }
    assert (take (Datatypes.S i) (<[i := goal all]> rs) ++ map goal (drop (Datatypes.S i) alls) =
      take i rs ++ map goal (drop i alls)) as Heq.
    { rewrite (drop_S _ _ _ Hall). cbn [map]. rewrite (take_S_r _ i (goal all)) by (apply list_lookup_insert_eq; lia).
      rewrite take_insert_ge by lia. by rewrite <- (assoc_L (++)). }
    rewrite Heq in *. exists s', its', h'. split; [|done]. cbn [position]. erewrite st_bind_ok by exact Em.
    cbv zeta. erewrite st_bind_ok by (unfold lift; by rewrite Ep). exact E'.
Qed.

(** The top of the heap has the least head, and the lowest position among equals. *)
Lemma heap_top_min alls its rs t h :
  at_rests alls its rs -> heap_of its rs (length its) (t :: h) ->
  exists k v r, rs !! t = Some ((k, v) :: r) /\
    forall i k' v' r', rs !! i = Some ((k', v') :: r') -> ~ klt CompareKeys k' k /\ (k' = k -> (t <= i)%nat).
Proof.
  intros Ha [Hh Hnd Hin]. destruct (proj1 (Hin t)) as (_ & [k v] & r & Hr); [left|]. exists k, v, r. split; [done|].
  intros i k' v' r' Hi. assert (i ∈ t :: h) as Hih.
  { apply Hin. split; [|by exists (k', v'), r']. destruct Ha as [_ <- _]. by eapply lookup_lt_Some. }
  pose proof (heap_top_le (less its) (less_trans its) (less_hle its) t h i Hh Hih) as Hle. apply hle_cases in Hle.
  rewrite (keyat_head _ _ _ _ _ _ _ Ha Hr), (keyat_head _ _ _ _ _ _ _ Ha Hi) in Hle.
  destruct Hle as [Hlt|[-> Hle]]; [|split; [apply klt_irrefl|done]].
  split; [by apply klt_asym|]. intros ->. by apply klt_irrefl in Hlt.
Qed.

(** A merge whose iterators have [rs] left. *)
Record merge_at (alls : list (list kv)) (m : MergeIterator I) (rs : list (list kv)) : Prop := {
  ma_rests : at_rests alls (iters m) rs;
  ma_heap : heap_of (iters m) rs (length (iters m)) (hp m);
  ma_current : match munion CompareKeys rs with
               | [] => valid m = false
               | (k, v) :: _ => valid m = true /\ currentKey m = k /\ currentVal m = v
               end;
}.

Lemma findSmallest_ok alls m rs :
  at_rests alls (iters m) rs -> heap_of (iters m) rs (length (iters m)) (hp m) ->
  exists m', findSmallest (E := E) (S := S) m = Ok m' /\ merge_at alls m' rs.
Proof.
  intros Ha Hh. unfold findSmallest. destruct (hp m) as [|t h] eqn:Eh.
  - eexists. split; [done|]. split; cbn; [done|done|].
    assert (munion CompareKeys rs = []) as ->; [|done].
    apply ksorted_ext; [apply munion_sorted|constructor|]. intros k. rewrite assoc_munion. cbn.
    apply first_assoc_none. intros r [i Hr]%list_elem_of_lookup Hk. destruct r as [|e r]; [by apply elem_of_nil in Hk|].
    destruct Hh as [_ _ Hin]. apply (not_elem_of_nil i), Hin. split; [|by exists e, r].
    destruct Ha as [_ <- _]. by eapply lookup_lt_Some.
  - destruct (heap_top_min _ _ _ _ _ Ha Hh) as (k & v & r & Hr & Hmin).
    destruct (at_rests_it _ _ _ _ _ Ha Hr) as (all & it & _ & Hit & Hp). rewrite Hit.
    eexists. split; [done|]. split; cbn; [done|done|].
    rewrite (munion_step _ t k v r (rests_sorted _ _ _ Ha) Hr Hmin). destruct (law_key _ _ _ _ _ Hp). done.
Qed.

Lemma reposition_ok move goal alls m rs s :
  (forall all it r s, inv s -> pos all it r -> exists s' it', move it s = (s', Ok it') /\ inv s' /\ pos all it' (goal all)) ->
  at_rests alls (iters m) rs -> inv s ->
  exists s' m', reposition move m s = (s', Ok m') /\ inv s' /\ merge_at alls m' (map goal alls).
Proof.
  intros Hmove Ha Hinv.
  destruct (position_ok move goal alls Hmove (iters m) 0 (iters m) rs [] s) as (s1 & its1 & h1 & Ep & Hinv1 & Ha1 & Hh1).
  { done. } { done. }
  { split; [intros i Hi; cbn in Hi; lia|constructor|]. intros i. split; [by intros ?%elem_of_nil|]. intros [? _]. lia. }
  { done. }
  destruct (findSmallest_ok alls (mkMerge its1 h1 (currentKey m) (currentVal m) (valid m)) _ Ha1 Hh1) as (m' & Ef & Hm').
  exists s1, m'. split; [|done]. unfold reposition. erewrite st_bind_ok by exact Ep. unfold lift. by rewrite <- Ef.
Qed.

(** ** [Next] *)

Definition at_key (key : bytes) (r : list kv) : Prop := match r with (k, _) :: _ => k = key | [] => False end.

#[local] Instance at_key_dec key r : Decision (at_key key r).
Proof. destruct r as [|[k v] r]; cbn; apply _. Defined.

Definition nheads (key : bytes) (rs : list (list kv)) : nat := length (filter (at_key key) rs).

Lemma nheads_insert key rs t r r' :
  rs !! t = Some r -> at_key key r -> ~ at_key key r' -> nheads key rs = Datatypes.S (nheads key (<[t := r']> rs)).
Proof.
  intros Ht Hr Hr'. unfold nheads. rewrite insert_take_drop by (by eapply lookup_lt_Some).
  rewrite <- (take_drop_middle rs t r Ht) at 1. rewrite !filter_app, filter_cons_True, filter_cons_False by done.
  rewrite !length_app. cbn. lia.
Qed.

Lemma drop_key_not_at key r : ~ at_key key r -> drop_key CompareKeys key r = r.
Proof.
  destruct r as [|[k v] r]; [done|]. cbn. intros Hne. destruct (CompareKeys k key) eqn:Ec; [|done..].
  by apply (ko_eq CompareKeys) in Ec.
Qed.

Lemma drop_key_none key rs : nheads key rs = 0%nat -> map (drop_key CompareKeys key) rs = rs.
Proof.
  unfold nheads. induction rs as [|r rs IH]; [done|]. rewrite filter_cons. destruct (decide (at_key key r)); [done|].
  intros H. cbn [map]. rewrite IH by done. by rewrite drop_key_not_at.
Qed.

Lemma sorted_tail_not_at key v r : ksorted CompareKeys ((key, v) :: r) -> ~ at_key key r.
Proof.
  intros [_ Hk]%ksorted_cons. destruct r as [|[k' v'] r]; [tauto|]. cbn. intros ->.
  apply (klt_irrefl (cmp := CompareKeys) key), Hk. left.
Qed.

(** Advancing one iterator at [key] does not change what is left without [key]. *)
Lemma drop_key_insert key rs t v r :
  rs !! t = Some ((key, v) :: r) -> ~ at_key key r ->
  map (drop_key CompareKeys key) (<[t := r]> rs) = map (drop_key CompareKeys key) rs.
Proof.
  intros Ht Hr. rewrite insert_take_drop by (by eapply lookup_lt_Some).
  rewrite <- (take_drop_middle rs t _ Ht) at 3. rewrite !map_app. cbn [map]. rewrite drop_key_not_at by done.
  cbn [drop_key]. by rewrite ko_refl.
Qed.

Lemma no_heads key alls its rs h :
  at_rests alls its rs -> heap_of its rs (length its) h ->
  (forall t h0, h = t :: h0 -> keyat its t <> key) ->
  (forall i k v r, rs !! i = Some ((k, v) :: r) -> ~ klt CompareKeys k key) -> nheads key rs = 0%nat.
Proof.
  intros Ha Hh Hne Hge. unfold nheads. rewrite filter_false; [done|]. apply Forall_lookup_2.
  intros i [|[k v] r] Hr; [tauto|]. cbn. intros ->. destruct h as [|t h].
  - destruct Hh as [_ _ Hin]. apply (not_elem_of_nil i), Hin. split; [|by exists (key, v), r].
    destruct Ha as [_ <- _]. by eapply lookup_lt_Some.
  - destruct (heap_top_min _ _ _ _ _ Ha Hh) as (k & v' & r' & Ht & Hmin). apply (Hne t h eq_refl).
    rewrite (keyat_head _ _ _ _ _ _ _ Ha Ht). destruct (Hmin _ _ _ _ Hr) as [Hn _]. specialize (Hge _ _ _ _ Ht).
    by destruct (ko_trichotomy (cmp := CompareKeys) k key) as [?|[?|?]].
Qed.

Lemma skip_key_ok key alls : forall fuel its rs h s,
  at_rests alls its rs -> heap_of its rs (length its) h -> inv s ->
  (forall i k v r, rs !! i = Some ((k, v) :: r) -> ~ klt CompareKeys k key) -> (nheads key rs <= fuel)%nat ->
  exists s' its' h', skip_key fuel key its h s = (s', Ok (its', h')) /\ inv s' /\
    at_rests alls its' (map (drop_key CompareKeys key) rs) /\
    heap_of its' (map (drop_key CompareKeys key) rs) (length its') h'.
Proof.
  induction fuel as [|fuel IH]; intros its rs h s Ha Hh Hinv Hge Hf; (destruct h as [|t h];
    [exists s, its, []; rewrite drop_key_none by (by eapply no_heads); done|]).
  all: destruct (heap_top_min _ _ _ _ _ Ha Hh) as (k & v & r & Ht & Hmin).
  all: destruct (at_rests_it _ _ _ _ _ Ha Ht) as (all & it & Hall & Hit & Hp).
  all: cbn [skip_key]; rewrite Hit; destruct (law_key _ _ _ _ _ Hp) as [-> _].
  all: destruct (decide (k = key)) as [->|Hkey]; [rewrite bool_decide_true by done|
    rewrite bool_decide_false by done; exists s, its, (t :: h); rewrite drop_key_none; [done|];
    eapply no_heads; [done..| |done]; intros ? ? [= <- _]; by rewrite (keyat_head _ _ _ _ _ _ _ Ha Ht)].
  { exfalso. assert (0 < nheads key rs)%nat; [|lia]. unfold nheads. rewrite <- (take_drop_middle rs t _ Ht).
    rewrite filter_app, length_app, filter_cons_True by done. cbn. lia. }
  destruct Hh as [Hh Hnd Hin]. apply NoDup_cons in Hnd as Hnd'. destruct Hnd' as [Hth Hnd'].
  destruct (Pop_ok (E := E) (less its) (less_trans its) (less_hle its) t h Hh) as (h1 & Epop & Hh1 & Hperm).
  destruct (law_next _ _ _ _ s Hinv Hp) as (s1 & it1 & En & Hinv1 & Hp1).
  destruct (heap_of_push alls its rs (length its) (length its) h1 t all it1 r) as (h2 & Epush & Hh2); [done..| | | | |done|].
  { by rewrite Hperm. } { by rewrite Hperm. }
  { intros j. rewrite Hperm. specialize (Hin j). rewrite elem_of_cons in Hin. split.
    - intros Hj. assert (j <> t) by (intros ->; done). naive_solver.
    - intros (Hj & Hne & Hx). destruct (proj2 Hin (conj Hj Hx)); [done|done]. }
  { by eapply lookup_lt_Some. }
  assert (~ at_key key r) as Hr.
  { eapply sorted_tail_not_at. pose proof (rests_sorted _ _ _ Ha) as Hs. by eapply Forall_lookup_1 in Hs. }
  destruct (IH (<[t := it1]> its) (<[t := r]> rs) h2 s1) as (s' & its' & h' & E' & Hinv' & Ha' & Hh').
  - by apply (at_rests_insert _ _ _ t all).
  - by rewrite length_insert.
  - done.
  - intros i k' v' r' Hi. apply list_lookup_insert_Some in Hi as [(<- & -> & _)|[_ Hi]]; [|by eapply Hge].
    pose proof (rests_sorted _ _ _ Ha) as Hs. eapply Forall_lookup_1 in Hs; [|exact Ht]. apply ksorted_cons in Hs as [_ Hk].
    apply klt_asym, Hk. left.
  - rewrite (nheads_insert key rs t ((key, v) :: r) r) in Hf by done. lia.
  - rewrite (drop_key_insert key rs t v r) in * by done. exists s', its', h'. split; [|done].
    erewrite st_bind_ok by (unfold lift; by rewrite Epop). erewrite st_bind_ok by exact En. cbn [fst snd].
    cbv zeta. erewrite st_bind_ok by (unfold lift; by rewrite Epush). exact E'.
Qed.

Lemma munion_head (rs : list (list kv)) k v L :
  munion CompareKeys rs = (k, v) :: L -> forall i k' v' r', rs !! i = Some ((k', v') :: r') -> ~ klt CompareKeys k' k.
Proof.
  intros Hm i k' v' r' Hi Hlt. pose proof (munion_sorted (cmp := CompareKeys) rs) as Hs. rewrite Hm in Hs.
  apply ksorted_cons in Hs as [_ Hk].
  assert (exists x, assoc CompareKeys k' (munion CompareKeys rs) = Some x) as [x Hx].
  { rewrite assoc_munion. rewrite <- (take_drop_middle rs i _ Hi), first_assoc_app. cbn. rewrite ko_refl.
    destruct (first_assoc _ _ _); by eexists. }
  rewrite Hm in Hx. apply assoc_in in Hx. apply elem_of_cons in Hx as [->|Hx]; [by apply klt_irrefl in Hlt|].
  by apply (klt_asym _ _ Hlt), Hk.
Qed.

(** The union without its head. *)
Lemma munion_drop_head (rs : list (list kv)) k v L :
  Forall (ksorted CompareKeys) rs -> munion CompareKeys rs = (k, v) :: L ->
  munion CompareKeys (map (drop_key CompareKeys k) rs) = L.
Proof.
  intros Hs Hm. pose proof (munion_head rs k v L Hm) as Hge. pose proof (munion_sorted (cmp := CompareKeys) rs) as Hsm.
  rewrite Hm in Hsm. apply ksorted_cons in Hsm as [HsL HkL].
  apply ksorted_ext; [apply munion_sorted|done|]. intros k'. rewrite assoc_munion.
  pose proof (assoc_munion (cmp := CompareKeys) k' rs) as He. rewrite Hm in He. cbn in He.
  destruct (CompareKeys k k') eqn:Ec.
  - apply (ko_eq CompareKeys) in Ec as <-. rewrite (proj2 (assoc_not_in k L)) by (intros H; by apply (klt_irrefl k), HkL).
    apply first_assoc_none. intros r' (r & -> & [i Hi]%list_elem_of_lookup)%list_elem_of_fmap Hin.
    eapply Forall_lookup_1 in Hs; [|exact Hi]. destruct r as [|[k1 v1] r]; [by apply elem_of_nil in Hin|].
    specialize (Hge _ _ _ _ Hi). apply ksorted_cons in Hs as [_ Hk1]. cbn in Hin. destruct (CompareKeys k1 k) eqn:E1.
    + apply (ko_eq CompareKeys) in E1 as ->. by apply (klt_irrefl (cmp := CompareKeys) k), Hk1.
    + done.
    + apply elem_of_cons in Hin as [->|Hin]; [by rewrite ko_refl in E1|]. apply ko_gt in E1. by apply (klt_asym _ _ E1), Hk1.
  - rewrite He. clear - Hs Ec. induction Hs as [|r rs Hr Hs IH]; [done|]. cbn.
    destruct (assoc_drop_key k k' r Hr) as [->| ->]; [by rewrite IH|by rewrite ko_refl in Ec].
  - rewrite He. clear - Hs Ec. induction Hs as [|r rs Hr Hs IH]; [done|]. cbn.
    destruct (assoc_drop_key k k' r Hr) as [->| ->]; [by rewrite IH|by rewrite ko_refl in Ec].
Qed.

Lemma Next_merge alls m rs k v L s :
  merge_at alls m rs -> munion CompareKeys rs = (k, v) :: L -> inv s ->
  exists s' m' rs', Next m s = (s', Ok m') /\ inv s' /\ merge_at alls m' rs' /\ munion CompareKeys rs' = L.
Proof.
  intros [Ha Hh Hc] Hm Hinv. rewrite Hm in Hc. destruct Hc as (Hv & Hk & _).
  destruct (skip_key_ok k alls (length (iters m)) (iters m) rs (hp m) s Ha Hh Hinv) as (s1 & its1 & h1 & Es & Hinv1 & Ha1 & Hh1).
  { by eapply munion_head. }
  { destruct Ha as [_ <- _]. unfold nheads. apply length_filter. }
  destruct (findSmallest_ok alls (mkMerge its1 h1 k (currentVal m) true) _ Ha1 Hh1) as (m' & Ef & Hm').
  exists s1, m', (map (drop_key CompareKeys k) rs). split_and!; [|done|done|].
  - unfold Next. rewrite Hv, Hk. cbn [negb]. erewrite st_bind_ok by exact Es. unfold lift. by rewrite <- Ef.
  - eapply munion_drop_head; [by eapply rests_sorted|exact Hm].
Qed.
End laws.

(** ** A merge is an iterator *)

#[export] Instance merge_ops {E S I} `{!IterOps E S I} : IterOps E S (MergeIterator I) := {
  it_Valid := valid;
  it_Key := currentKey;
  it_Value := currentVal;
  it_Next := Next;
  it_SeekToFirst := SeekToFirst;
  it_Seek := Seek;
}.

Lemma entries_from_assoc target (l : list kv) k :
  assoc CompareKeys k (entries_from target l) =
    if decide (klt CompareKeys k target) then None else assoc CompareKeys k l.
Proof.
  induction l as [|[k' v] l IH]; [by destruct (decide _)|]. unfold entries_from in *. rewrite filter_cons. cbn [fst].
  destruct (CompareKeys k' k) eqn:Ec.
  - apply (ko_eq CompareKeys) in Ec as ->.
    destruct (decide (~ klt CompareKeys k target)) as [Hn|Hn]; cbn [assoc]; rewrite ?ko_refl;
      destruct (decide (klt CompareKeys k target)); by try rewrite IH.
  - destruct (decide (~ klt CompareKeys k' target)); cbn [assoc]; by rewrite ?Ec.
  - destruct (decide (~ klt CompareKeys k' target)); cbn [assoc]; by rewrite ?Ec.
Qed.

Lemma entries_from_sorted target (l : list kv) :
  ksorted CompareKeys l -> ksorted CompareKeys (entries_from target l).
Proof.
  induction l as [|[k v] l IH]; [done|]. intros [Hs Hk]%ksorted_cons. unfold entries_from in *. rewrite filter_cons.
  case_decide; [|by apply IH]. apply ksorted_cons. split; [by apply IH|].
  intros k' ([k1 v1] & -> & [_ Hin]%list_elem_of_filter)%list_elem_of_fmap. apply Hk.
  by apply (list_elem_of_fmap_2 fst) in Hin.
Qed.

Lemma munion_entries_from target (ls : list (list kv)) :
  munion CompareKeys (map (entries_from target) ls) = entries_from target (munion CompareKeys ls).
Proof.
  apply ksorted_ext; [apply munion_sorted|apply entries_from_sorted, munion_sorted|].
  intros k. rewrite entries_from_assoc, !assoc_munion.
  induction ls as [|l ls IH]; cbn [first_assoc map]; [by destruct (decide _)|].
  rewrite entries_from_assoc, IH. by destruct (decide _).
Qed.

Section merge_laws.
Context {E S I : Type} `{!IterOps E S I} (inv : S -> Prop) (pos : list kv -> I -> list kv -> Prop).
Context `{!IterLaws (E := E) inv pos}.

(** A merge that was not positioned yet has nothing to show. *)
Definition merge_pos (all : list kv) (m : MergeIterator I) (rest : list kv) : Prop :=
  exists alls rs, all = munion CompareKeys alls /\ at_rests pos alls (iters m) rs /\
    (valid m = false /\ rest = [] \/ merge_at pos alls m rs /\ rest = munion CompareKeys rs).

#[export] Instance merge_laws : IterLaws (E := E) inv merge_pos.
Proof.
  split.
  - intros all m rest (alls & rs & -> & Ha & Hr). split; [apply munion_sorted|].
    destruct Hr as [[_ ->]|[_ ->]]; [constructor|apply munion_sorted].
  - intros all m rest (alls & rs & -> & Ha & [[Hv ->]|[[_ _ Hc] ->]]); [done|].
    destruct (munion CompareKeys rs) as [|[k v] L]; [done|]. apply Hc.
  - intros all m k v rest (alls & rs & -> & Ha & [[_ ?]|[[_ _ Hc] Hr]]); [done|]. rewrite <- Hr in Hc. apply Hc.
  - intros all m [k v] rest s Hs (alls & rs & -> & Ha & [[_ ?]|[Hm Hr]]); [done|].
    destruct (Next_merge inv pos alls m rs k v rest s Hm (eq_sym Hr) Hs) as (s' & m' & rs' & En & Hs' & Hm' & Hu).
    exists s', m'. split_and!; [done|done|]. exists alls, rs'. split_and!; [done|apply Hm'|by right].
  - intros all m rest s Hs (alls & rs & -> & Ha & _).
    destruct (reposition_ok inv pos it_SeekToFirst id alls m rs s) as (s' & m' & Er & Hs' & Hm'); [|done..|].
    { intros all0 it r s0 Hs0 Hp. by eapply law_first. }
    exists s', m'. split_and!; [done|done|]. exists alls, (map id alls). split_and!; [done|apply Hm'|].
    right. split; [done|]. by rewrite map_id.
  - intros all m rest target s Hs (alls & rs & -> & Ha & _).
    destruct (reposition_ok inv pos (it_Seek target) (entries_from target) alls m rs s) as (s' & m' & Er & Hs' & Hm'); [|done..|].
    { intros all0 it r s0 Hs0 Hp. by eapply law_seek. }
    exists s', m'. split_and!; [done|done|]. exists alls, (map (entries_from target) alls).
    split_and!; [done|apply Hm'|]. right. split; [done|]. by rewrite munion_entries_from.
Qed.

Lemma NewMergeIterator_pos alls its :
  Forall2 (fun all it => exists r, pos all it r) alls its -> merge_pos (munion CompareKeys alls) (NewMergeIterator its) [].
Proof.
  intros H. assert (exists rs, at_rests pos alls its rs) as [rs Hrs].
  { induction H as [|all it alls its (r & Hp) _ (rs & [H1 H2 H3])]; [exists []; by split|].
    exists (r :: rs). split; [cbn; lia|cbn; lia|]. intros [|i] ? ? ? Ha Hi Hr; cbn in *; [by simplify_eq|by eapply H3]. }
  exists alls, rs. split_and!; [done|done|by left].
Qed.
End merge_laws.

(** ** Draining an iterator: the loop [for ; it.Valid(); it.Next()] of a client *)

Fixpoint drain {E S I} `{!IterOps E S I} (fuel : nat) (it : I) : st E S (list kv) :=
  if it_Valid (E := E) (S := S) it then
    match fuel with
    | O => lift Fuel
    | Datatypes.S fuel =>
        let e := (it_Key (E := E) (S := S) it, it_Value (E := E) (S := S) it) in
        it ← it_Next it;
        l ← drain fuel it;
        mret (e :: l)
    end
  else mret [].

Lemma drain_ok {E S I} `{!IterOps E S I} inv pos `{!IterLaws (E := E) inv pos} all rest : forall fuel (it : I) s,
  inv s -> pos all it rest -> (length rest <= fuel)%nat ->
  exists s', drain fuel it s = (s', Ok rest) /\ inv s'.
Proof.
  induction rest as [|[k v] rest IH]; intros fuel it s Hs Hp Hf; pose proof (law_valid _ _ _ Hp) as Hv.
  { exists s. split; [|done]. destruct fuel; cbn [drain]; by rewrite Hv. }
  destruct fuel as [|fuel]; [cbn in Hf; lia|]. cbn [drain]. rewrite Hv. destruct (law_key _ _ _ _ _ Hp) as [-> ->].
  destruct (law_next _ _ _ _ s Hs Hp) as (s1 & it1 & En & Hs1 & Hp1).
  destruct (IH fuel it1 s1 Hs1 Hp1) as (s2 & Ed & Hs2); [cbn in Hf; lia|].
  exists s2. split; [|done]. erewrite st_bind_ok by exact En. by erewrite st_bind_ok by exact Ed.
Qed.

(** ** Properties *)

(** C10: what a merge shows.  Over iterators that keep the laws, draining a merge from
    its first entry, or from a target, gives a strictly sorted list with, for each key,
    the entry of the first iterator in the argument list that has it, and no other key;
    [Seek] leaves out exactly the keys below the target.  It ends after as many steps as
    there are distinct keys. *)
Theorem merge_iterates {E S I : Type} `{!IterOps E S I} (inv : S -> Prop) (pos : list kv -> I -> list kv -> Prop)
    `{!IterLaws (E := E) inv pos} (alls : list (list kv)) (its : list I) (target : bytes) (s : S)
    (Hits : Forall2 (fun all it => exists r, pos all it r) alls its) (Hs : inv s) :
  exists out s1 m s2 s3 m' s4,
    SeekToFirst (NewMergeIterator its) s = (s1, Ok m) /\ drain (length out) m s1 = (s2, Ok out) /\
    Seek target m s2 = (s3, Ok m') /\ drain (length out) m' s3 = (s4, Ok (entries_from target out)) /\
    ksorted CompareKeys out /\ forall k, assoc CompareKeys k out = first_assoc CompareKeys k alls.
Proof.
  pose proof (NewMergeIterator_pos pos alls its Hits) as H0. set (out := munion CompareKeys alls) in *. exists out.
  destruct (law_first (IterLaws := merge_laws inv pos) out _ _ s Hs H0) as (s1 & m & E1 & Hs1 & H1).
  destruct (drain_ok inv (merge_pos pos) out out (length out) m s1 Hs1 H1) as (s2 & E2 & Hs2); [done|].
  destruct (law_seek (IterLaws := merge_laws inv pos) out m _ target s2 Hs2 H1) as (s3 & m' & E3 & Hs3 & H3).
  destruct (drain_ok inv (merge_pos pos) out _ (length out) m' s3 Hs3 H3) as (s4 & E4 & _); [apply length_filter|].
  exists s1, m, s2, s3, m', s4. split_and!; [done..|apply munion_sorted|]. intros k. apply assoc_munion.
Qed.

(** ** Iterators over lists *)

Definition list_iter : Type := list kv * list kv.

#[export] Instance list_ops {E} : IterOps E unit list_iter := {
  it_Valid it := match it.2 with [] => false | _ => true end;
  it_Key it := match it.2 with [] => [] | e :: _ => e.1 end;
  it_Value it := match it.2 with [] => None | e :: _ => e.2 end;
  it_Next it := mret (it.1, tail it.2);
  it_SeekToFirst it := mret (it.1, it.1);
  it_Seek target it := mret (it.1, entries_from target it.1);
}.

Definition list_pos (all : list kv) (it : list_iter) (rest : list kv) : Prop :=
  it = (all, rest) /\ ksorted CompareKeys all /\ ksorted CompareKeys rest.

#[export] Instance list_laws {E} : IterLaws (E := E) (fun _ : unit => True) list_pos.
Proof.
  split.
  - by intros all it rest (_ & ? & ?).
  - by intros all it rest (-> & _).
  - by intros all it k v rest (-> & _).
  - intros all it [k v] rest s _ (-> & H1 & [H2 _]%ksorted_cons). eexists _, _. split; [done|]. by split_and!.
  - intros all it rest s _ (-> & H1 & _). eexists _, _. split; [done|]. by split_and!.
  - intros all it rest target s _ (-> & H1 & _). eexists _, _. split; [done|]. split; [done|].
    split; [done|]. split; [done|]. by apply entries_from_sorted.
Qed.

Definition sample_lists : list (list kv) :=
  [[(str "aaaaaaaab", Some (str "new"))];
   [(str "aaaaaaaaa", None); (str "aaaaaaaab", Some (str "old")); (str "aaaaaaaac", Some (str "3"))]].

Lemma merge_iterates_witness :
  exists out s1 m s2 s3 m' s4,
    SeekToFirst (E := Empty_set) (NewMergeIterator (map (fun l => ((l, l) : list_iter)) sample_lists)) tt = (s1, Ok m) /\
    drain (E := Empty_set) (length out) m s1 = (s2, Ok out) /\ Seek (E := Empty_set) (str "aaaaaaaab") m s2 = (s3, Ok m') /\
    drain (E := Empty_set) (length out) m' s3 = (s4, Ok (entries_from (str "aaaaaaaab") out)) /\
    ksorted CompareKeys out /\ forall k, assoc CompareKeys k out = first_assoc CompareKeys k sample_lists.
Proof.
  apply (merge_iterates (fun _ => True) list_pos sample_lists); [|done].
  apply Forall2_fmap_r, Forall_Forall2_diag. unfold sample_lists.
  repeat (apply Forall_cons_2; [eexists; (split; [done|split; repeat constructor])|]). constructor.
Defined.
