(* ===== verification/Compaction.v ===== *)
(** * Compaction (internal/lsm/compaction.go)

    Picking the files to compact, and the executor: it merges the input tables through
    a [MergeIterator], drops versions no snapshot can read, writes the output tables and
    records the change in the manifest.  The directory is a map from file numbers to
    contents; readers keep the contents a table had when it was opened. *)

From Stdlib Require Import Floats.SpecFloat.
From S2P Require Import Prelude Order Keys Files Bloom Cache SSTable Manifest Heap MergeIter.
Import mvcc manifest.

#[local] Open Scope Z_scope.

Module compaction.

(** ** level.go: scores *)

Definition CompactionScore (level : nat) (files : list FileMetadata) : spec_float :=
  if bool_decide (level = 0%nat) then
    SFdiv 53 1024 (bloom.float64_of_int (len files)) (bloom.float64_of_int L0CompactionTrigger)
  else
    let totalSize := foldl (fun s f => u64 (s + FileSize f)) 0 files in
    SFdiv 53 1024 (bloom.float64_of_int totalSize) (bloom.float64_of_int (TargetSize (Z.of_nat level))).

(** ** The picker *)

Record Compaction := mkCompaction {
  CLevel : nat;
  InputFiles0 : list FileMetadata;
  InputFiles1 : list FileMetadata;
  OutputLevel : nat;
}.

(** The level with the largest score, the first one among equals. *)
Fixpoint best_score (level : nat) (levels : list (list FileMetadata)) (best : option nat * spec_float)
    : option nat * spec_float :=
  match levels with
  | [] => best
  | files :: levels =>
      let score := CompactionScore level files in
      best_score (S level) levels (if SFltb best.2 score then (Some level, score) else best)
  end.

Definition widen (range : option (bytes * bytes)) (f : FileMetadata) : option (bytes * bytes) :=
  match range with
  | None => Some (SmallestKey f, LargestKey f)
  | Some (smallest, largest) =>
      Some (match CompareKeys (SmallestKey f) smallest with Lt => SmallestKey f | _ => smallest end,
            match CompareKeys (LargestKey f) largest with Gt => LargestKey f | _ => largest end)
  end.

Definition key_range (files : list FileMetadata) : bytes * bytes :=
  default ([], []) (foldl widen None files).

Definition largest_file (f : FileMetadata) (files : list FileMetadata) : FileMetadata :=
  foldl (fun l g => if FileSize l <? FileSize g then g else l) f files.

Definition one : spec_float := bloom.float64_of_int 1.
Definition minus_one : spec_float := bloom.float64_of_int (-1).

(** [Ok None]: no compaction is needed. *)
Definition PickCompaction (v : Version) : outcome lsm_error (option Compaction) :=
  let '(bestLevel, bestScore) := best_score 0 (take (MaxLevels - 1) v) (None, minus_one) in
  if SFleb bestScore one then Ok None
  else
    match bestLevel with
    | None => Panic
    | Some level =>
        match v !! level, v !! S level with
        | Some files, Some next =>
            if bool_decide (level = 0%nat) then
              let '(smallest, largest) := key_range files in
              Ok (Some (mkCompaction level files (GetOverlappingFiles next smallest largest) (S level)))
            else
              match files with
              | [] => Panic
              | f :: rest =>
                  let f := largest_file f rest in
                  Ok (Some (mkCompaction level [f]
                    (GetOverlappingFiles next (SmallestKey f) (LargestKey f)) (S level)))
              end
        | _, _ => Panic
        end
    end.

(** ** Garbage *)

(** What the executor remembers of the user key it is at: the key, and whether it has
    passed a version older than every active snapshot. *)
Abbreviation gc_state := (bytes * bool)%type.

(** The new state, and whether the entry is kept. *)
Definition gc_entry (minActive : Z) (output maxOccupied : nat) (g : gc_state) (key : bytes) (val : option bytes)
    : gc_state * bool :=
  let '(userKey, ts) := DecodeKey key in
  let '(lastUserKey, seen) := if bytes_equal userKey g.1 then g else (userKey, false) in
  if ts <? minActive then
    if (seen : bool) then ((lastUserKey, seen), false)
    else ((lastUserKey, true), negb (match val with None => true | _ => false end && bool_decide (maxOccupied <= output)%nat))
  else ((lastUserKey, seen), true).

(** ** The executor *)

(** The directory, the manifest, the block cache, the faults of the tables that will be
    written, and what has been asked of the rate limiter. *)
Record env := mkEnv {
  sst : gmap Z bytes;
  man : Manifest;
  bcache : option cache.BlockCache;
  ofaults : list (option nat);
  requests : list Z;
}.

Record config := mkConfig { cblockSize : Z; cbloomBits : Z; ctargetSize : Z }.

(** A table iterator with its reader. *)
Abbreviation table_iter := (sstable.Reader * sstable.Iterator)%type.

Section executor.
Context (Sum128 : bytes -> Z * Z).
Context (CompressBlock : bytes -> option bytes) (UncompressBlock : bytes -> Z -> option bytes).

(** The error of a table is passed on. *)
Definition table_out {A} (r : outcome sst_error A) : outcome lsm_error A :=
  match r with
  | Ok a => Ok a
  | Err _ => Err ErrTable
  | Panic => Panic
  | Fuel => Fuel
  end.

Definition with_cache {A} (op : st sst_error (option cache.BlockCache) A) : st lsm_error env A := fun e =>
  let '(c, r) := op (bcache e) in (mkEnv (sst e) (man e) c (ofaults e) (requests e), table_out r).

Definition with_manifest {A} (op : st lsm_error Manifest A) : st lsm_error env A := fun e =>
  let '(m, r) := op (man e) in (mkEnv (sst e) m (bcache e) (ofaults e) (requests e), r).

(** An operation of the writer of table [num], whose file is in the directory. *)
Definition with_writer (num : Z) (w : sstable.Writer) (op : st sst_error sstable.Writer unit)
    : st lsm_error env sstable.Writer := fun e =>
  let '(w, r) := op w in
  (mkEnv (<[num := fdata (sstable.file w)]> (sst e)) (man e) (bcache e) (faults (sstable.file w)) (requests e),
   u ← table_out r; Ok w).

(** [sstable.NewWriter], which truncates the file. *)
Definition new_writer (cfg : config) (num : Z) : st lsm_error env sstable.Writer := fun e =>
  match ofaults e with
  | Some _ :: fs => (mkEnv (sst e) (man e) (bcache e) fs (requests e), Err ErrFile)
  | None :: fs | ([] as fs) =>
      (mkEnv (<[num := []]> (sst e)) (man e) (bcache e) fs (requests e),
       Ok (sstable.NewWriter fs (cblockSize cfg) (cbloomBits cfg)))
  end.

(** [sstable.OpenReader] on the file of a table. *)
Definition open_table (num : Z) : st lsm_error env sstable.Reader := fun e =>
  match sst e !! num with
  | None => (e, Err ErrFile)
  | Some data => (e, table_out (sstable.OpenReader data num))
  end.

#[export] Instance table_ops : IterOps sst_error (option cache.BlockCache) table_iter := {
  it_Valid x := sstable.Valid x.2;
  it_Key x := (sstable.current x.2).1;
  it_Value x := (sstable.current x.2).2;
  it_Next x := it ← sstable.Next UncompressBlock x.1 x.2; mret (x.1, it);
  it_SeekToFirst x := it ← sstable.SeekToFirst UncompressBlock x.1 x.2; mret (x.1, it);
  it_Seek target x := it ← sstable.Seek UncompressBlock x.1 target x.2; mret (x.1, it);
}.

Definition open_iter (f : FileMetadata) : st lsm_error env table_iter :=
  r ← open_table (FileNum f);
  it ← with_cache (sstable.NewIterator UncompressBlock r);
  mret (r, it).

(** The variables of [Execute]. *)
Record cstate := mkC {
  currentWriter : option sstable.Writer;
  currentFileNum : Z;
  currentSmallest : bytes;
  entriesWritten : Z;
  currentSize : Z;
  addedFiles : list FileMetadata;
  clastKey : bytes;
  cgc : gc_state;
  totalBytesOut : Z;
}.

Definition finishCurrentFile (output : nat) (s : cstate) : st lsm_error env cstate :=
  match currentWriter s with
  | None => mret s
  | Some w =>
      w ← with_writer (currentFileNum s) w (sstable.Close CompressBlock);
      let fileSize := sstable.WriterSize w in
      mret (mkC None (currentFileNum s) (currentSmallest s) (entriesWritten s) (currentSize s)
        (addedFiles s ++
          [mkMeta (Z.of_nat output) (currentFileNum s) fileSize (currentSmallest s) [] (entriesWritten s)])
        (clastKey s) (cgc s) (i64 (totalBytesOut s + i64 fileSize)))
  end.

(** [addedFiles[len(addedFiles)-1].LargestKey = lastKey]. *)
Definition set_largest (key : bytes) (fs : list FileMetadata) : list FileMetadata :=
  match last fs with
  | None => fs
  | Some f => removelast fs ++ [mkMeta (Level f) (FileNum f) (FileSize f) (SmallestKey f) key (NumEntries f)]
  end.

Definition set_added (fs : list FileMetadata) (s : cstate) : cstate :=
  mkC (currentWriter s) (currentFileNum s) (currentSmallest s) (entriesWritten s) (currentSize s)
    fs (clastKey s) (cgc s) (totalBytesOut s).

(** The writer of the current table, a new one if there is none. *)
Definition ensure_writer (cfg : config) (key : bytes) (s : cstate) : st lsm_error env (cstate * sstable.Writer) :=
  match currentWriter s with
  | Some w => mret (s, w)
  | None =>
      num ← with_manifest (fun m => let '(m, n) := NextFileNumber m in (m, Ok n));
      w ← new_writer cfg num;
      mret (mkC (Some w) num key 0 0 (addedFiles s) (clastKey s) (cgc s) (totalBytesOut s), w)
  end.

Definition request (n : Z) : st lsm_error env unit := modify (fun e =>
  mkEnv (sst e) (man e) (bcache e) (ofaults e) (requests e ++ [n])).

Definition val_len (val : option bytes) : Z := match val with Some v => len v | None => 0 end.

(** The part of an iteration that writes the entry. *)
Definition emit (cfg : config) (output : nat) (key : bytes) (val : option bytes) (s : cstate)
    : st lsm_error env cstate :=
  x ← ensure_writer cfg key s;
  let '(s, w) := x in
  request (len key + val_len val + 8);;
  w ← with_writer (currentFileNum s) w (sstable.Add Sum128 CompressBlock key val);
  let s := mkC (Some w) (currentFileNum s) (currentSmallest s) (u64 (entriesWritten s + 1))
             (u64 (currentSize s + (len key + val_len val + 8))) (addedFiles s) key (cgc s) (totalBytesOut s) in
  if ctargetSize cfg <=? currentSize s then
    s ← finishCurrentFile output s;
    mret (set_added (set_largest (clastKey s) (addedFiles s)) s)
  else mret s.

Definition set_gc (g : gc_state) (s : cstate) : cstate :=
  mkC (currentWriter s) (currentFileNum s) (currentSmallest s) (entriesWritten s) (currentSize s)
    (addedFiles s) (clastKey s) g (totalBytesOut s).

Definition compact_entry (cfg : config) (output maxOccupied : nat) (minActive : Z) (key : bytes) (val : option bytes)
    (s : cstate) : st lsm_error env cstate :=
  let '(g, keep) := gc_entry minActive output maxOccupied (cgc s) key val in
  let s := set_gc g s in
  if (keep : bool) then emit cfg output key val s else mret s.

(** The loop; [minActive i] is what the [i]th call of [minActiveSnapshot] returns. *)
Fixpoint compact_loop (fuel : nat) (cfg : config) (output maxOccupied : nat) (minActive : nat -> Z) (i : nat)
    (m : merge.MergeIterator table_iter) (s : cstate) : st lsm_error env cstate :=
  if merge.valid m then
    match fuel with
    | O => lift Fuel
    | S fuel =>
        s ← compact_entry cfg output maxOccupied (minActive i) (merge.currentKey m) (merge.currentVal m) s;
        m ← with_cache (merge.Next m);
        compact_loop fuel cfg output maxOccupied minActive (S i) m s
    end
  else mret s.

(** Enough for the entries of all tables. *)
Definition loop_fuel (its : list table_iter) : nat := sum_list (map (fun x => sstable.seek_fuel x.1) its).

Definition remove_table (df : DeletedFile) : st lsm_error env unit := fun e =>
  match bcache e with
  | None => (mkEnv (delete (DFileNum df) (sst e)) (man e) None (ofaults e) (requests e), Ok tt)
  | Some c =>
      match cache.RemoveFile c (DFileNum df) with
      | Ok c => (mkEnv (delete (DFileNum df) (sst e)) (man e) (Some c) (ofaults e) (requests e), Ok tt)
      | Err x => match x with end
      | Panic => (e, Panic)
      | Fuel => (e, Fuel)
      end
  end.

Definition total_size (fs : list FileMetadata) : Z := foldl (fun s f => i64 (s + i64 (FileSize f))) 0 fs.

Definition deleted_files (c : Compaction) : list DeletedFile :=
  map (fun f => mkDeleted (Z.of_nat (CLevel c)) (FileNum f)) (InputFiles0 c) ++
  map (fun f => mkDeleted (Z.of_nat (S (CLevel c))) (FileNum f)) (InputFiles1 c).

Definition Execute (cfg : config) (minActive : nat -> Z) (c : Compaction) (maxOccupied : nat)
    : st lsm_error env (Z * Z) :=
  match InputFiles0 c with
  | [] => mret (0, 0)
  | _ =>
      its ← mapM open_iter (InputFiles0 c ++ InputFiles1 c);
      m ← with_cache (merge.SeekToFirst (merge.NewMergeIterator its));
      s ← compact_loop (loop_fuel its) cfg (OutputLevel c) maxOccupied minActive 0 m
            (mkC None 0 [] 0 0 [] [] ([], false) 0);
      s ← finishCurrentFile (OutputLevel c) s;
      let added := set_largest (clastKey s) (addedFiles s) in
      let edit := mkEdit added (deleted_files c) 0 in
      with_manifest (Apply edit);;
      mapM remove_table (DeletedFiles edit);;
      mret (total_size (InputFiles0 c ++ InputFiles1 c), totalBytesOut s)
  end.

End executor.
End compaction.
Import compaction.
