(* ===== verification/CompactionSpec.v ===== *)
(** * What compaction keeps

    [gc_list] is the list of the entries a compaction writes; it keeps every read of a
    snapshot that is not older than the oldest active one.  [Execute] writes exactly
    [gc_list] of the union of its inputs, in the order it was given them. *)

From S2P Require Import Prelude Order Keys Files Bloom Cache SSTable SSTableSpec Manifest Heap MergeIter Compaction.
Import mvcc manifest compaction.

#[local] Open Scope Z_scope.

(** ** Versions *)

Fixpoint gc_list (minActive : nat -> Z) (output maxOccupied i : nat) (g : gc_state) (l : list kv) : list kv :=
  match l with
  | [] => []
  | (k, v) :: l =>
      let '(g, keep) := gc_entry (minActive i) output maxOccupied g k v in
      (if (keep : bool) then [(k, v)] else []) ++ gc_list minActive output maxOccupied (S i) g l
  end.

(** The newest version of [u] a snapshot at [ts] sees: the first in a sorted list. *)
Fixpoint visible (u : bytes) (ts : Z) (l : list kv) : option (option bytes) :=
  match l with
  | [] => None
  | (k, v) :: l => if bool_decide ((DecodeKey k).1 = u) && ((DecodeKey k).2 <=? ts) then Some v else visible u ts l
  end.

Definition versioned (l : list kv) : Prop :=
  Forall (fun e => exists u ts, e.1 = EncodeKey u ts /\ 0 <= ts < 2 ^ 64) l.

Lemma gc_list_sub minActive out mx l : forall i g e, e ∈ gc_list minActive out mx i g l -> e ∈ l.
Proof.
  induction l as [|[k v] l IH]; intros i g e; [done|]. cbn [gc_list].
  destruct (gc_entry _ _ _ _ _ _) as [g' [|]]; cbn [app]; rewrite ?elem_of_cons; naive_solver.
Qed.

Lemma gc_list_sorted minActive out mx l : forall i g,
  ksorted CompareKeys l -> ksorted CompareKeys (gc_list minActive out mx i g l).
Proof.
  induction l as [|[k v] l IH]; intros i g Hs; [done|]. apply ksorted_cons in Hs as [Hs Hk]. cbn [gc_list].
  destruct (gc_entry _ _ _ _ _ _) as [g' [|]]; cbn [app]; [|by apply IH]. apply ksorted_cons. split; [by apply IH|].
  intros k' (e & -> & He%gc_list_sub)%list_elem_of_fmap. by apply Hk, list_elem_of_fmap_2.
Qed.

Lemma length_gc_list minActive out mx l : forall i g, (length (gc_list minActive out mx i g l) <= length l)%nat.
Proof.
  induction l as [|[k v] l IH]; intros i g; [done|]. cbn [gc_list].
  destruct (gc_entry _ _ _ _ _ _) as [g' [|]]; cbn; [specialize (IH (S i) g')|specialize (IH (S i) g')]; lia.
Qed.

Lemma visible_none u ts l : (forall e, e ∈ l -> (DecodeKey e.1).1 <> u) -> visible u ts l = None.
Proof.
  induction l as [|[k v] l IH]; intros H; [done|]. cbn. rewrite bool_decide_false by (apply (H (k, v)); left).
  apply IH. intros e He. apply H. by right.
Qed.

(** The user keys of a sorted list do not return. *)
Lemma user_keys_pass u w t (l : list kv) :
  bytes_compare u w = Lt -> 0 <= t < 2 ^ 64 -> versioned l -> (forall k, k ∈ l.*1 -> klt CompareKeys (EncodeKey w t) k) ->
  forall e, e ∈ l -> (DecodeKey e.1).1 <> u.
Proof.
  intros Hu Ht Hv Hk e He. unfold versioned in Hv. rewrite Forall_forall in Hv.
  destruct (Hv e He) as (w' & t' & Heq & Ht'). rewrite Heq, DecodeKey_EncodeKey by done. cbn. intros ->.
  specialize (Hk e.1 (list_elem_of_fmap_2 fst _ _ He)). unfold klt in Hk. rewrite Heq, CompareKeys_encoded in Hk by done.
  rewrite (ko_opp bytes_compare u w), Hu in Hk. done.
Qed.

(** Behind a version of [u] older than every active snapshot, all versions of [u] go. *)
Lemma gc_drops_rest minActive out mx u t0 ts : forall l i,
  (forall i j, (i <= j)%nat -> minActive i <= minActive j) -> t0 < minActive i -> 0 <= t0 < 2 ^ 64 ->
  versioned l -> ksorted CompareKeys l -> (forall k, k ∈ l.*1 -> klt CompareKeys (EncodeKey u t0) k) ->
  visible u ts (gc_list minActive out mx i (u, true) l) = None.
Proof.
  intros l i Hmono. revert i. induction l as [|[k v] l IH]; intros i Ht0 Hr Hv Hs Hk; [done|].
  apply Forall_cons in Hv as Hv'. destruct Hv' as [(w & t & Hkt & Ht) Hv']. cbn in Hkt. subst k.
  apply ksorted_cons in Hs as [Hs Hgt]. pose proof (Hk (EncodeKey w t) (list_elem_of_here _ _)) as Hlt.
  unfold klt in Hlt. rewrite CompareKeys_encoded in Hlt by done. destruct (bytes_compare u w) eqn:Ec; [| |done].
  - apply (ko_eq bytes_compare) in Ec as <-. rewrite Z.compare_lt_iff in Hlt.
    cbn [gc_list]. unfold gc_entry. rewrite DecodeKey_EncodeKey by done. cbn [fst]. rewrite (proj2 (bytes_equal_true u u)) by done.
    rewrite (proj2 (Z.ltb_lt _ _)) by lia. cbn [app]. apply IH; [|done..|].
    + pose proof (Hmono i (S i)). lia.
    + intros k' Hk'. apply Hk. by right.
  - apply visible_none. intros e He%gc_list_sub. apply elem_of_cons in He as [->|He]; [|by eapply user_keys_pass].
    cbn. rewrite DecodeKey_EncodeKey by done. cbn. intros ->. by rewrite ko_refl in Ec.
Qed.

(** Reading at [ts] before and after the collection. *)
Lemma gc_visible minActive out mx u ts : forall l i g,
  (forall i j, (i <= j)%nat -> minActive i <= minActive j) -> (forall i, minActive i <= ts) ->
  versioned l -> ksorted CompareKeys l -> g.1 <> u \/ g.2 = false ->
  visible u ts (gc_list minActive out mx i g l) = visible u ts l \/
  (mx <= out)%nat /\ visible u ts l = Some None /\ visible u ts (gc_list minActive out mx i g l) = None.
Proof.
  intros l i g Hmono Hts. revert i g. induction l as [|[k v] l IH]; intros i g Hv Hs Hg; [by left|].
  apply Forall_cons in Hv as [(w & t & Hkt & Ht) Hv]. cbn in Hkt. subst k. apply ksorted_cons in Hs as [Hs Hgt].
  specialize (Hts i) as Hi. cbn [gc_list]. unfold gc_entry. rewrite DecodeKey_EncodeKey by done. cbn [fst].
  cbn [visible]. rewrite DecodeKey_EncodeKey by done. cbn [fst snd].
  destruct (decide (w = u)) as [->|Hw].
  2:{ rewrite (bool_decide_false (w = u)) by done. cbn [andb].
      assert (exists lu seen, (if bytes_equal w g.1 then g else (w, false)) = (lu, seen) /\ lu <> u) as (lu & seen & Heq & Hlu).
      { unfold bytes_equal. case_bool_decide as Hwg; [exists g.1, g.2; split; [by destruct g|congruence]|by exists w, false]. }
      rewrite Heq.
      assert (forall seen', visible u ts ((EncodeKey w t, v) :: gc_list minActive out mx (S i) (lu, seen') l) =
        visible u ts (gc_list minActive out mx (S i) (lu, seen') l)) as Hskip.
      { intros seen'. cbn. by rewrite DecodeKey_EncodeKey, bool_decide_false by done. }
      destruct (t <? minActive i); [destruct seen|]; cbn [app].
      - apply IH; auto.
      - destruct (negb _); cbn [app]; [rewrite Hskip|]; apply IH; auto.
      - rewrite Hskip. apply IH; auto. }
  rewrite (bool_decide_true (u = u)) by done. cbn [andb].
  assert ((if bytes_equal u g.1 then g else (u, false)) = (u, false)) as ->.
  { destruct g as [lu seen]. cbn in *. unfold bytes_equal. case_bool_decide as Hlu; [|done].
    subst lu. by destruct Hg as [?| ->]. }
  destruct (Z.leb_spec t ts) as [Hle|Hgt'].
  - destruct (Z.ltb_spec t (minActive i)) as [Hmin|Hmin]; cbn [app visible];
      [|left; by rewrite DecodeKey_EncodeKey, bool_decide_true, (proj2 (Z.leb_le _ _)) by done].
    destruct (match v with None => true | _ => false end && bool_decide (mx <= out)%nat) eqn:Ed; cbn [negb app visible];
      [|left; by rewrite DecodeKey_EncodeKey, bool_decide_true, (proj2 (Z.leb_le _ _)) by done].
    apply andb_prop in Ed as [Hv0 Hmx%bool_decide_eq_true]. destruct v; [done|]. right. split_and!; [done|done|].
    apply (gc_drops_rest _ _ _ u t); [done| |done..]. pose proof (Hmono i (S i)). lia.
  - rewrite (proj2 (Z.ltb_ge _ _)) by lia. cbn [app visible]. rewrite DecodeKey_EncodeKey, bool_decide_true by done.
    cbn [fst snd andb]. rewrite (proj2 (Z.leb_gt _ _)) by lia. apply IH; auto.
Qed.

(** ** Tables as iterators *)

Lemma entries_from_suffix target (l : list kv) :
  ksorted CompareKeys l -> exists pre, l = pre ++ entries_from target l.
Proof.
  induction l as [|[k v] l IH]; [by exists []|]. intros [Hs Hk]%ksorted_cons. unfold entries_from in *. rewrite filter_cons.
  destruct (decide (~ klt CompareKeys (k, v).1 target)) as [Hge|Hlt]; cbn [fst] in *.
  - exists []. cbn. f_equal. symmetry. apply filter_true, Forall_forall. intros [k' v'] Hin Hlt'.
    apply Hge. eapply (ko_trans CompareKeys); [apply Hk|exact Hlt']. by apply (list_elem_of_fmap_2 fst) in Hin.
  - destruct (IH Hs) as [pre Hp]. exists ((k, v) :: pre). cbn. by f_equal.
Qed.

(** Which blocks the tables have, by file number. *)
Abbreviation catalog := (Z -> option (list (list kv))).

Section execute.
Context (Sum128 : bytes -> Z * Z).
Context (CompressBlock : bytes -> option bytes) (UncompressBlock : bytes -> Z -> option bytes).
Context `{!Lz4 CompressBlock UncompressBlock}.

Abbreviation table_bytes := (SSTableSpec.table_bytes CompressBlock).
Abbreviation table_reader := (SSTableSpec.table_reader CompressBlock).
Abbreviation table_ok := (SSTableSpec.table_ok Sum128 CompressBlock).
Abbreviation coherent := (SSTableSpec.coherent CompressBlock).

Definition table_pos (T : catalog) (all : list kv) (x : table_iter) (rest : list kv) : Prop :=
  exists B bf n id, x.1 = table_reader B bf n id /\ table_ok B bf n /\ T id = Some B /\ all = concat B /\
    it_at B x.2 rest /\ exists pre, concat B = pre ++ rest.

#[local] Instance table_laws (T : catalog) :
  IterLaws (IterOps0 := table_ops UncompressBlock) (fun c => coherent c T) (table_pos T).
Proof.
  split.
  - intros all x rest (B & bf & n & id & _ & [_ _ _ Hs _ _ _] & _ & -> & _ & pre & Hp). split; [done|].
    rewrite Hp in Hs. by apply ksorted_app_inv in Hs as (_ & ? & _).
  - intros all x rest (B & bf & n & id & _ & _ & _ & _ & Hit & _). cbn. rewrite (it_at_Valid _ _ _ Hit). by destruct rest.
  - intros all x k v rest (B & bf & n & id & _ & _ & _ & _ & (_ & _ & Hc & _) & _). cbn. by rewrite Hc.
  - intros all x e rest c Hc (B & bf & n & id & Hr & Hok & HT & -> & Hit & pre & Hp). cbn. rewrite Hr.
    destruct (Next_ok _ _ _ B bf n id T Hok HT x.2 e rest c Hc Hit) as (c' & it' & En & Hc' & Hit').
    exists c', (table_reader B bf n id, it'). erewrite st_bind_ok by exact En. split_and!; [done|done|].
    exists B, bf, n, id. split_and!; [done..|]. exists (pre ++ [e]). by rewrite <- (assoc_L (++)).
  - intros all x rest c Hc (B & bf & n & id & Hr & Hok & HT & -> & [He _] & _). cbn. rewrite Hr.
    destruct (loadBlock_ok _ _ _ B bf n id T Hok HT (sstable.load_fuel (table_reader B bf n id))
      (sstable.mkIter 0 (sstable.ioffset x.2) (sstable.ierr x.2) (sstable.blockData x.2) (sstable.current x.2) (sstable.valid x.2)) c)
      as (c' & it' & En & Hc' & Hit'); [done|done|unfold sstable.load_fuel; lia|].
    exists c', (table_reader B bf n id, it'). erewrite st_bind_ok by exact En. split_and!; [done|done|].
    exists B, bf, n, id. split_and!; [done..|]. by exists [].
  - intros all x rest target c Hc (B & bf & n & id & Hr & Hok & HT & -> & [He _] & _). cbn. rewrite Hr.
    destruct (Seek_ok _ _ _ B bf n id T Hok HT target x.2 c Hc He) as (c' & it' & En & Hc' & Hit').
    exists c', (table_reader B bf n id, it'). erewrite st_bind_ok by exact En. split_and!; [done|done|].
    exists B, bf, n, id. split_and!; [done..|]. apply entries_from_suffix. apply Hok.
Qed.

Definition tab (T : catalog) (num : Z) : list kv := concat (default [] (T num)).

Definition has_table (T : catalog) (e : env) (num : Z) : Prop :=
  exists B bf n, T num = Some B /\ sst e !! num = Some (table_bytes B bf n) /\ table_ok B bf n.

(** Numbers that were not drawn yet have no blocks in the cache. *)
Record store_ok (T : catalog) (e : env) : Prop := {
  so_fresh : forall num, nextFileNum (man e) <= num -> T num = Some [];
  so_cache : coherent (bcache e) T;
}.

Definition set_cache (c : option cache.BlockCache) (e : env) : env :=
  mkEnv (sst e) (man e) c (ofaults e) (requests e).

Lemma with_cache_ok {A} (op : st sst_error (option cache.BlockCache) A) e c a :
  op (bcache e) = (c, Ok a) -> with_cache op e = (set_cache c e, Ok a).
Proof. intros H. unfold with_cache. by rewrite H. Qed.

Lemma open_iter_ok T e f :
  store_ok T e -> has_table T e (FileNum f) ->
  exists c x, open_iter UncompressBlock f e = (set_cache c e, Ok x) /\ store_ok T (set_cache c e) /\
    table_pos T (tab T (FileNum f)) x (tab T (FileNum f)) /\
    (length (tab T (FileNum f)) <= sstable.seek_fuel x.1)%nat.
Proof.
  intros [Hfr Hc] (B & bf & n & HT & Hsst & Hok). unfold open_iter.
  erewrite st_bind_ok.
  2:{ unfold open_table. rewrite Hsst, (OpenReader_ok Sum128 CompressBlock UncompressBlock) by done. reflexivity. }
  destruct (loadBlock_ok _ _ _ B bf n (FileNum f) T Hok HT (sstable.load_fuel (table_reader B bf n (FileNum f)))
    (sstable.mkIter 0 0 None [] ([], None) false) (bcache e)) as (c' & it & En & Hc' & Hit);
    [done|done|unfold sstable.load_fuel; lia|].
  exists c', (table_reader B bf n (FileNum f), it). erewrite st_bind_ok by (apply with_cache_ok; exact En).
  unfold tab. rewrite HT. cbn [default from_option id]. split_and!; [done|by split| |].
  - exists B, bf, n, (FileNum f). split_and!; [done..|]. by exists [].
  - by apply (table_entries Sum128 CompressBlock UncompressBlock).
Qed.

Lemma open_all T fs : forall e,
  store_ok T e -> Forall (fun f => has_table T e (FileNum f)) fs ->
  exists c xs, mapM (open_iter UncompressBlock) fs e = (set_cache c e, Ok xs) /\ store_ok T (set_cache c e) /\
    Forall2 (fun all x => exists r, table_pos T all x r) (map (fun f => tab T (FileNum f)) fs) xs /\
    (length (concat (map (fun f => tab T (FileNum f)) fs)) <= loop_fuel xs)%nat.
Proof.
  induction fs as [|f fs IH]; intros e Hs Hf.
  { exists (bcache e), []. split; [by destruct e|]. split; [by destruct e, Hs; split|]. split; [constructor|done]. }
  apply Forall_cons in Hf as [Hf Hfs]. destruct (open_iter_ok T e f Hs Hf) as (c1 & x & E1 & Hs1 & Hp & Hl).
  destruct (IH (set_cache c1 e) Hs1 Hfs) as (c2 & xs & E2 & Hs2 & Hps & Hls). exists c2, (x :: xs).
  cbn [mapM]. erewrite st_bind_ok by exact E1. erewrite st_bind_ok by exact E2. split_and!; [done|done| |].
  - constructor; [by eexists|done].
  - cbn [map concat]. rewrite length_app. unfold loop_fuel in *. cbn. lia.
Qed.

(** ** The output *)

Definition first_key (es : list kv) : bytes := default [] (fst <$> head es).

Lemma first_key_app es e : first_key (es ++ [e]) = if decide (es = []) then e.1 else first_key es.
Proof. by destruct es. Qed.

Lemma last_key_app es e : last_key (es ++ [e]) = e.1.
Proof. unfold last_key. by rewrite last_snoc. Qed.

Section output.
Context (cfg : config) (out : nat) (T : catalog) (e0 : env).

(** A finished output file and its entries. *)
Record finished (e : env) (f : FileMetadata) (es : list kv) : Prop := {
  fin_small : SmallestKey f = first_key es;
  fin_large : LargestKey f = last_key es;
  fin_level : Level f = Z.of_nat out;
  fin_num : nextFileNum (man e0) <= FileNum f < nextFileNum (man e);
  fin_table : exists B bf n, sst e !! FileNum f = Some (table_bytes B bf n) /\ table_ok B bf n /\ concat B = es;
}.

Definition writing (e : env) (s : cstate) (cur : list kv) : Prop :=
  match currentWriter s with
  | None => cur = []
  | Some w =>
      cur <> [] /\ wrote Sum128 CompressBlock w cur /\ sstable.blockSize w = cblockSize cfg /\
      currentSize s = len (blk_data cur) /\ currentSize s < ctargetSize cfg /\ currentSmallest s = first_key cur /\
      nextFileNum (man e0) <= currentFileNum s < nextFileNum (man e) /\
      currentFileNum s ∉ map FileNum (addedFiles s)
  end.

(** What a compaction does not touch. *)
Record untouched (e : env) (n : nat) : Prop := {
  un_sst : forall num, num < nextFileNum (man e0) -> sst e !! num = sst e0 !! num;
  un_current : current (man e) = current (man e0);
  un_file : mfile (man e) = mfile (man e0);
  un_next : nextFileNum (man e0) <= nextFileNum (man e) <= nextFileNum (man e0) + Z.of_nat n;
  un_cache : coherent (bcache e) T;
  un_faults : ofaults e = [];
}.

(** The state of the loop after it wrote [done]. *)
Record cinv (e : env) (s : cstate) (done : list kv) (outs : list (list kv)) (cur : list kv) : Prop := {
  ci_done : concat outs ++ cur = done;
  ci_files : Forall2 (finished e) (addedFiles s) outs;
  ci_nums : NoDup (map FileNum (addedFiles s));
  ci_outs : Forall (fun es => es <> []) outs;
  ci_cur : writing e s cur;
  ci_last : done <> [] -> clastKey s = last_key done;
  ci_env : untouched e (length done);
}.

Context (Hbs : 0 < cblockSize cfg) (Hbits : 10000 * Z.max 1 (cbloomBits cfg) < 2 ^ 32 - 7).
Context (Htarget : 0 < ctargetSize cfg <= 2 ^ 39).

Lemma wrote_faults w es : wrote Sum128 CompressBlock w es -> faults (sstable.file w) = [].
Proof. intros (B & cur & Hinv & _). apply (wi_faults _ _ _ _ _ Hinv). Qed.

(** A step of the environment that writes one new or current file and draws numbers. *)
Lemma finished_step e e' f es num :
  finished e f es -> FileNum f <> num -> nextFileNum (man e) <= nextFileNum (man e') ->
  (forall k, k <> num -> sst e' !! k = sst e !! k) -> finished e' f es.
Proof.
  intros [H1 H2 H3 H4 (B & bf & n & H5 & H6)] Hne Hn Hs. split; [done..|lia|].
  exists B, bf, n. by rewrite Hs.
Qed.

Lemma ensure_writer_ok e s done outs cur k :
  cinv e s done outs cur -> nextFileNum (man e0) + Z.of_nat (length done) < 2 ^ 64 - 1 -> 0 <= nextFileNum (man e0) ->
  exists e' s' w, ensure_writer cfg k s e = (e', Ok (s', w)) /\
    Forall2 (finished e') (addedFiles s') outs /\ addedFiles s' = addedFiles s /\ cgc s' = cgc s /\
    wrote Sum128 CompressBlock w cur /\ sstable.blockSize w = cblockSize cfg /\
    currentSize s' = len (blk_data cur) /\ currentSize s' < ctargetSize cfg /\
    currentSmallest s' = (if decide (cur = []) then k else first_key cur) /\
    nextFileNum (man e0) <= currentFileNum s' < nextFileNum (man e') /\
    currentFileNum s' ∉ map FileNum (addedFiles s') /\ untouched e' (S (length done)).
Proof.
  intros [Hd Hf Hnd Ho Hc Hl Hu] Hn Hn0. unfold ensure_writer. unfold writing in Hc.
  destruct (currentWriter s) as [w|].
  { destruct Hc as (Hne & Hw & Hb & Hsz & Hlt & Hsm & Hnum & Hni). exists e, s, w.
    split_and!; [done..|by rewrite decide_False|lia|lia|done|]. destruct Hu. split; [done..|lia|done|done]. }
  subst cur. destruct Hu as [U1 U2 U3 U4 U5 U6].
  erewrite st_bind_ok by reflexivity. unfold new_writer. erewrite st_bind_ok by (cbn [ofaults]; rewrite U6; reflexivity).
  cbn [man sst NextFileNumber nextFileNum]. set (num := nextFileNum (man e)) in *.
  assert (u64 (num + 1) = num + 1) as Hu64 by (apply Z.mod_small; lia).
  assert (forall f es, (f, es) ∈ zip (addedFiles s) outs -> FileNum f <> num) as Hneq.
  { intros f es Hin. apply elem_of_zip_l in Hin as Hin'. apply list_elem_of_lookup in Hin' as [i Hi].
    destruct (Forall2_lookup_l _ _ _ _ _ Hf Hi) as (es' & _ & [_ _ _ ? _]). lia. }
  eexists _, _, _. split; [reflexivity|]. cbn [addedFiles cgc currentSize currentSmallest currentFileNum man sst bcache ofaults].
  rewrite Hu64. split_and!; try done; try lia; cbn [nextFileNum]; try lia.
  - clear Hd Hnd Hl Ho. induction Hf as [|f es fs outs Hfe Hf IH]; constructor.
    + eapply finished_step; [exact Hfe|apply (Hneq f es); left|cbn; lia|]. intros k' Hk'. cbn. by rewrite lookup_insert_ne.
    + apply IH. intros f' es' Hin. apply (Hneq f' es'). by right.
  - by apply NewWriter_wrote.
  - intros Hin. apply list_elem_of_fmap in Hin as (f & Hnf & Hin). apply list_elem_of_lookup in Hin as [i Hi].
    destruct (Forall2_lookup_l _ _ _ _ _ Hf Hi) as (es' & _ & [_ _ _ ? _]). lia.
  - split; cbn; [|done|done|lia|done|done]. intros k' Hk'. rewrite lookup_insert_ne by lia. by apply U1.
Qed.

Lemma set_largest_snoc key fs f :
  set_largest key (fs ++ [f]) = fs ++ [mkMeta (Level f) (FileNum f) (FileSize f) (SmallestKey f) key (NumEntries f)].
Proof. unfold set_largest. by rewrite last_snoc, removelast_last. Qed.

Lemma finish_ok e s w outs cur n :
  currentWriter s = Some w -> wrote Sum128 CompressBlock w cur -> sstable.blockSize w = cblockSize cfg ->
  Forall (fits (cblockSize cfg)) cur -> ksorted CompareKeys cur -> len (blk_data cur) < 2 ^ 40 ->
  currentSmallest s = first_key cur -> clastKey s = last_key cur ->
  nextFileNum (man e0) <= currentFileNum s < nextFileNum (man e) -> currentFileNum s ∉ map FileNum (addedFiles s) ->
  Forall2 (finished e) (addedFiles s) outs -> untouched e n ->
  exists e' s' f, finishCurrentFile CompressBlock out s e = (e', Ok s') /\ currentWriter s' = None /\
    clastKey s' = clastKey s /\ cgc s' = cgc s /\ FileNum f = currentFileNum s /\
    set_largest (clastKey s') (addedFiles s') = addedFiles s ++ [f] /\
    Forall2 (finished e') (addedFiles s ++ [f]) (outs ++ [cur]) /\ untouched e' n.
Proof.
  intros Hcw Hw Hb Hfit Hs Hl Hsm Hlast Hnum Hni Hf [U1 U2 U3 U4 U5 U6]. unfold finishCurrentFile. rewrite Hcw.
  destruct (Close_wrote Sum128 CompressBlock UncompressBlock (cblockSize cfg) w cur)
    as (w' & B & Ec & Hfw & Hd & Hok & Hcat); [done..|].
  erewrite st_bind_ok by (unfold with_writer; rewrite Ec; reflexivity).
  eexists _, _, (mkMeta (Z.of_nat out) (currentFileNum s) (sstable.WriterSize w') (currentSmallest s) (clastKey s) (entriesWritten s)).
  split; [reflexivity|]. cbn [currentWriter clastKey cgc addedFiles]. split_and!; [done..| | |].
  - apply set_largest_snoc.
  - apply Forall2_app.
    + apply Forall2_same_length_lookup. pose proof (Forall2_length _ _ _ Hf). split; [done|].
      intros i f es Hi Hes. destruct (Forall2_lookup_lr _ _ _ _ _ _ Hf Hi Hes) as [F1 F2 F3 F4 (B' & bf & n' & F5 & F6)].
      split; [done..|]. exists B', bf, n'. cbn. rewrite lookup_insert_ne; [done|]. intros Heq. apply Hni.
      rewrite Heq. apply list_elem_of_fmap_2. by eapply list_elem_of_lookup_2.
    + constructor; [|constructor]. split; cbn; [done..|]. exists B, (sstable.wbloom w), (sstable.entryCount w).
      by rewrite lookup_insert_eq, Hd.
  - split; cbn; [|done..]. intros k Hk. rewrite lookup_insert_ne by lia. by apply U1.
Qed.

Lemma len_blk_snoc cur k v : len (blk_data (cur ++ [(k, v)])) = len (blk_data cur) + (len k + val_len v + 8).
Proof.
  rewrite len_blk_data_app. change (blk_data [(k, v)]) with (sstable.entry_bytes k v ++ []). rewrite app_nil_r, len_entry.
  unfold val_len. destruct v; lia.
Qed.

Lemma untouched_sst e e' num n :
  untouched e n -> nextFileNum (man e0) <= num -> (forall k, k <> num -> sst e' !! k = sst e !! k) ->
  man e' = man e -> bcache e' = bcache e -> ofaults e' = [] -> untouched e' n.
Proof. intros [U1 U2 U3 U4 U5 U6] Hn Hs Hm Hc Hf. split; rewrite ?Hm, ?Hc; [|done..]. intros k Hk. rewrite Hs by lia. by apply U1. Qed.

(** The state after [Add], before the size of the file is looked at. *)
Record added (e : env) (s : cstate) (w : sstable.Writer) (outs : list (list kv)) (cur : list kv) (n : nat) : Prop := {
  ad_writer : currentWriter s = Some w;
  ad_wrote : wrote Sum128 CompressBlock w cur;
  ad_block : sstable.blockSize w = cblockSize cfg;
  ad_size : currentSize s = len (blk_data cur);
  ad_small : currentSmallest s = first_key cur;
  ad_last : clastKey s = last_key cur;
  ad_num : nextFileNum (man e0) <= currentFileNum s < nextFileNum (man e);
  ad_fresh : currentFileNum s ∉ map FileNum (addedFiles s);
  ad_files : Forall2 (finished e) (addedFiles s) outs;
  ad_env : untouched e n;
}.

Definition close_if_full (s : cstate) : st lsm_error env cstate :=
  if ctargetSize cfg <=? currentSize s then
    s ← finishCurrentFile CompressBlock out s;
    mret (set_added (set_largest (clastKey s) (addedFiles s)) s)
  else mret s.

Lemma emit_add e s done outs cur k v :
  cinv e s done outs cur -> nextFileNum (man e0) + Z.of_nat (length done) < 2 ^ 64 - 1 -> 0 <= nextFileNum (man e0) ->
  fits (cblockSize cfg) (k, v) ->
  exists e' s' w, emit Sum128 CompressBlock cfg out k v s e = close_if_full s' e' /\
    added e' s' w outs (cur ++ [(k, v)]) (S (length done)) /\ addedFiles s' = addedFiles s /\ cgc s' = cgc s /\
    len (blk_data (cur ++ [(k, v)])) < 2 ^ 40.
Proof.
  intros Hci Hn Hn0 Hkv.
  destruct (ensure_writer_ok e s done outs cur k Hci Hn Hn0)
    as (e1 & s1 & w & E1 & Hf1 & Hadd & Hgc & Hw & Hb & Hsz & Hlt & Hsm & Hnum & Hni & Hu).
  set (cur' := cur ++ [(k, v)]) in *.
  assert (len (blk_data cur') < 2 ^ 40) as Hsmall.
  { unfold cur'. rewrite len_blk_data_app. change (blk_data [(k, v)]) with (sstable.entry_bytes k v ++ []). rewrite app_nil_r.
    destruct Hkv as [_ Hkv]. cbn [fst snd] in Hkv. unfold sstable.DefaultBlockSize in Hkv. lia. }
  destruct (Add_wrote Sum128 CompressBlock UncompressBlock w cur k v) as (w' & Ea & Hw' & Hb'); [congruence|congruence|done|done|].
  assert (u64 (currentSize s1 + (len k + val_len v + 8)) = len (blk_data cur')) as Hsize.
  { unfold cur'. rewrite len_blk_snoc, Hsz. unfold u64. apply Z.mod_small. unfold cur' in Hsmall. rewrite len_blk_snoc in Hsmall.
    pose proof (len_nonneg (blk_data cur)). pose proof (len_nonneg k). unfold val_len in *.
    destruct v as [x|]; [pose proof (len_nonneg x)|]; lia. }
  unfold emit. erewrite st_bind_ok by exact E1. cbv beta iota. erewrite st_bind_ok by reflexivity.
  erewrite st_bind_ok by (unfold with_writer; rewrite Ea; reflexivity). rewrite Hsize. set (e2 := mkEnv _ _ _ _ _).
  exists e2. eexists _, w'. split; [reflexivity|]. cbn [addedFiles cgc]. split; [|done].
  split; cbn [currentWriter currentSize currentSmallest clastKey currentFileNum addedFiles]; try done; [congruence|..].
  - unfold cur'. rewrite first_key_app, Hsm. by destruct (decide (cur = [])).
  - unfold cur'. by rewrite last_key_app.
  - apply Forall2_same_length_lookup. pose proof (Forall2_length _ _ _ Hf1). split; [done|].
    intros i f es Hi Hes. eapply (finished_step e1 e2 f es (currentFileNum s1)); [by eapply Forall2_lookup_lr| |done|].
    + intros Heq. apply Hni. rewrite <- Heq. apply list_elem_of_fmap_2. by eapply list_elem_of_lookup_2.
    + intros k' Hk'. cbn. by rewrite lookup_insert_ne.
  - eapply (untouched_sst e1 e2 (currentFileNum s1)); [done|lia| |done|done|by eapply wrote_faults].
    intros k' Hk'. cbn. by rewrite lookup_insert_ne.
Qed.

Lemma compact_emit_ok e s done outs cur k v :
  cinv e s done outs cur -> nextFileNum (man e0) + Z.of_nat (length done) < 2 ^ 64 - 1 -> 0 <= nextFileNum (man e0) ->
  Forall (fits (cblockSize cfg)) (done ++ [(k, v)]) -> ksorted CompareKeys (done ++ [(k, v)]) ->
  exists e' s' outs' cur', emit Sum128 CompressBlock cfg out k v s e = (e', Ok s') /\
    cinv e' s' (done ++ [(k, v)]) outs' cur' /\ cgc s' = cgc s.
Proof.
  intros Hci Hn Hn0 Hfit Hsort. pose proof Hci as [Hd _ Hnd Hone _ _ _].
  rewrite <- Hd, <- (assoc_L (++)) in Hfit, Hsort. apply Forall_app in Hfit as [_ Hfit].
  apply ksorted_app_inv in Hsort as (_ & Hsort & _).
  assert (fits (cblockSize cfg) (k, v)) as Hkv by (apply Forall_app in Hfit as [_ Hfit]; by rewrite Forall_singleton in Hfit).
  destruct (emit_add e s done outs cur k v Hci Hn Hn0 Hkv) as (e2 & s2 & w & -> & Had & Hadd & Hgc & Hsmall).
  set (cur' := cur ++ [(k, v)]) in *. pose proof Had as [A1 A2 A3 A4 A5 A6 A7 A8 A9 A10].
  assert (length (done ++ [(k, v)]) = S (length done)) as Hlen by (rewrite length_app; cbn; lia).
  assert (concat outs ++ cur' = done ++ [(k, v)]) as Hdone by (unfold cur'; by rewrite (assoc_L (++)), Hd).
  assert (clastKey s2 = last_key (done ++ [(k, v)])) as Hlk by (rewrite A6; unfold cur'; by rewrite !last_key_app).
  assert (cur' <> []) as Hne by (unfold cur'; by destruct cur).
  unfold close_if_full. destruct (Z.leb_spec (ctargetSize cfg) (currentSize s2)) as [Hfull|Hroom].
  - destruct (finish_ok e2 s2 w outs cur' (S (length done))) as (e' & s' & f & Ef & Hcw & Hl & Hg & Hnf & Hset & Hff & Huf);
      [done..|].
    exists e', (set_added (set_largest (clastKey s') (addedFiles s')) s'), (outs ++ [cur']), [].
    erewrite st_bind_ok by exact Ef. split; [done|]. split; [|cbn; congruence].
    split; cbn [set_added addedFiles currentWriter clastKey]; rewrite ?Hset, ?Hlen; try done.
    + rewrite app_nil_r, concat_app. cbn. by rewrite app_nil_r.
    + rewrite map_app, Hadd. apply NoDup_app. split_and!; [done| |apply NoDup_singleton].
      intros x Hx ->%list_elem_of_singleton. rewrite Hnf in Hx. rewrite Hadd in A8. done.
    + apply Forall_app. split; [done|]. by apply Forall_singleton.
    + unfold writing. cbn. by rewrite Hcw.
    + intros _. by rewrite Hl.
  - exists e2, s2, outs, cur'. split; [done|]. split; [|done]. split; rewrite ?Hlen; try done.
    + by rewrite Hadd.
    + unfold writing. rewrite A1. done.
Qed.

Abbreviation mpos := (@merge_pos sst_error (option cache.BlockCache) table_iter (table_ops UncompressBlock) (table_pos T)).
Abbreviation mlaws := (merge_laws (IterOps0 := table_ops UncompressBlock) (fun c => coherent c T) (table_pos T)).

Lemma cinv_cache e s done outs cur c :
  cinv e s done outs cur -> coherent c T -> cinv (set_cache c e) s done outs cur.
Proof.
  intros [H1 H2 H3 H4 H5 H6 [U1 U2 U3 U4 U5 U6]] Hc. split; [done| |done|done|done|done|by split].
  eapply Forall2_impl; [exact H2|]. intros f es [F1 F2 F3 F4 F5]. by split.
Qed.

Lemma cinv_gc e s done outs cur g : cinv e s done outs cur -> cinv e (set_gc g s) done outs cur.
Proof. by intros [H1 H2 H3 H4 H5 H6 H7]; split. Qed.

Lemma compact_entry_ok e s done outs cur mx ma k v :
  cinv e s done outs cur -> nextFileNum (man e0) + Z.of_nat (length done) < 2 ^ 64 - 1 -> 0 <= nextFileNum (man e0) ->
  let '(g, keep) := gc_entry ma out mx (cgc s) k v in
  let done' := done ++ (if (keep : bool) then [(k, v)] else []) in
  Forall (fits (cblockSize cfg)) done' -> ksorted CompareKeys done' ->
  exists e' s' outs' cur', compact_entry Sum128 CompressBlock cfg out mx ma k v s e = (e', Ok s') /\
    cinv e' s' done' outs' cur' /\ cgc s' = g.
Proof.
  intros Hci Hn Hn0. unfold compact_entry. destruct (gc_entry ma out mx (cgc s) k v) as [g [|]]; cbv zeta; intros Hfit Hs.
  - destruct (compact_emit_ok e (set_gc g s) done outs cur k v) as (e' & s' & outs' & cur' & E & H & Hg);
      [by apply cinv_gc|done..|]. by exists e', s', outs', cur'.
  - rewrite app_nil_r. exists e, (set_gc g s), outs, cur. split; [done|]. split; [by apply cinv_gc|done].
Qed.

Lemma compact_loop_ok mx minActive all l : forall fuel i m e s done outs cur,
  cinv e s done outs cur -> mpos all m l -> (length l <= fuel)%nat -> 0 <= nextFileNum (man e0) ->
  let done' := done ++ gc_list minActive out mx i (cgc s) l in
  nextFileNum (man e0) + Z.of_nat (length done') < 2 ^ 64 - 1 ->
  Forall (fits (cblockSize cfg)) done' -> ksorted CompareKeys done' ->
  exists e' s' outs' cur',
    compact_loop Sum128 CompressBlock UncompressBlock fuel cfg out mx minActive i m s e = (e', Ok s') /\
    cinv e' s' done' outs' cur'.
Proof.
  induction l as [|[k v] l IH]; intros fuel i m e s done outs cur Hci Hm Hf Hn0.
  { intros done' _ _ _. exists e, s, outs, cur. unfold done'. cbn [gc_list]. rewrite app_nil_r. split; [|done].
    pose proof (law_valid (IterLaws := mlaws) _ _ _ Hm) as Hv.
    cbn [it_Valid merge_ops] in Hv. by destruct fuel; cbn [compact_loop]; rewrite Hv. }
  pose proof (law_valid (IterLaws := mlaws) _ _ _ Hm) as Hv.
  destruct (law_key (IterLaws := mlaws) _ _ _ _ _ Hm) as [Hk Hval].
  cbn [it_Valid it_Key it_Value merge_ops] in Hv, Hk, Hval.
  destruct fuel as [|fuel]; [cbn in Hf; lia|]. cbn [compact_loop gc_list]. rewrite Hv, Hk, Hval.
  pose proof (compact_entry_ok e s done outs cur mx (minActive i) k v Hci) as Hstep.
  destruct (gc_entry (minActive i) out mx (cgc s) k v) as [g keep]. cbv zeta in *. rewrite (assoc_L (++)).
  set (done1 := done ++ (if keep then [(k, v)] else [])) in *. intros Hn Hfit Hs.
  rewrite length_app in Hn. assert (length done <= length done1)%nat as Hle by (unfold done1; rewrite length_app; lia).
  destruct Hstep as (e1 & s1 & outs1 & cur1 & E1 & Hci1 & Hg1);
    [lia|done|by apply Forall_app in Hfit as [? _]|by apply ksorted_app_inv in Hs as (? & _)|].
  destruct (law_next (IterLaws := mlaws) all m (k, v) l (bcache e1)) as (c2 & m2 & E2 & Hc2 & Hm2);
    [apply (ci_env _ _ _ _ _ Hci1)|done|].
  destruct (IH fuel (S i) m2 (set_cache c2 e1) s1 done1 outs1 cur1) as (e' & s' & outs' & cur' & E' & H');
    [by apply cinv_cache|done|cbn in Hf; lia|done|rewrite Hg1, length_app; lia|by rewrite Hg1|by rewrite Hg1|].
  rewrite Hg1 in H'. exists e', s', outs', cur'. split; [|done]. erewrite st_bind_ok by exact E1.
  erewrite st_bind_ok by (apply with_cache_ok; exact E2). exact E'.
Qed.

(** The end of the loop: every output is in a finished file. *)
Lemma compact_end e s done outs cur :
  cinv e s done outs cur -> Forall (fits (cblockSize cfg)) done -> ksorted CompareKeys done ->
  exists e' s' fs outs', finishCurrentFile CompressBlock out s e = (e', Ok s') /\
    set_largest (clastKey s') (addedFiles s') = fs /\ Forall2 (finished e') fs outs' /\ NoDup (map FileNum fs) /\
    concat outs' = done /\ Forall (fun es => es <> []) outs' /\ untouched e' (length done).
Proof.
  intros [Hd Hf Hnd Ho Hc Hl Hu] Hfit Hs. unfold writing in Hc. destruct (currentWriter s) as [w|] eqn:Ew.
  - destruct Hc as (Hne & Hw & Hb & Hsz & Hlt & Hsm & Hnum & Hni).
    assert (clastKey s = last_key cur) as Hlk.
    { destruct cur as [|c0 cur] using rev_ind; [done|]. rewrite Hl by (rewrite <- Hd; destruct (concat outs); by destruct cur).
      by rewrite <- Hd, (assoc_L (++)), !last_key_app. }
    rewrite <- Hd in Hfit, Hs. apply Forall_app in Hfit as [_ Hfit]. apply ksorted_app_inv in Hs as (_ & Hs & _).
    destruct (finish_ok e s w outs cur (length done)) as (e' & s' & f & Ef & _ & _ & _ & Hnf & Hset & Hff & Huf);
      [done..|lia|done|done|done|done|done|done|].
    exists e', s', (addedFiles s ++ [f]), (outs ++ [cur]). split_and!; [done..| | | |done].
    + rewrite map_app. apply NoDup_app. split_and!; [done| |apply NoDup_singleton].
      intros x Hx ->%list_elem_of_singleton. by rewrite Hnf in Hx.
    + rewrite concat_app. cbn. by rewrite app_nil_r.
    + apply Forall_app. split; [done|]. by apply Forall_singleton.
  - subst cur. rewrite app_nil_r in Hd. exists e, s, (addedFiles s), outs. unfold finishCurrentFile. rewrite Ew.
    split_and!; [done| |done..]. destruct (addedFiles s) as [|f fs _] eqn:Ea using rev_ind; [done|].
    apply Forall2_app_inv_l in Hf as (o1 & o2 & _ & Hf2 & ->). inv Hf2 as [|? es ? ? Hfe Hnil]. inv Hnil.
    rewrite set_largest_snoc. destruct Hfe as [_ Hlarge _ _ _].
    apply Forall_app in Ho as [_ Ho]. apply Forall_cons in Ho as [Hes _].
    assert (clastKey s = last_key es) as ->.
    { destruct es as [|e1 es] using rev_ind; [done|]. rewrite Hl.
      - rewrite concat_app. cbn. by rewrite app_nil_r, (assoc_L (++)), !last_key_app.
      - rewrite concat_app. cbn. rewrite app_nil_r. intros [_ [_ ?]%app_nil]%app_nil. done. }
    rewrite <- Hlarge. by destruct f.
Qed.
End output.

(** ** The catalog after a compaction *)

Definition upd (T : catalog) (num : Z) (B : list (list kv)) : catalog :=
  fun n => if decide (n = num) then Some B else T n.

Lemma upd_eq T num B : upd T num B num = Some B.
Proof. unfold upd. by rewrite decide_True. Qed.
Lemma upd_ne T num B n : n <> num -> upd T num B n = T n.
Proof. intros. unfold upd. by rewrite decide_False. Qed.

(** A number without cached blocks may be given to a table. *)
Lemma coherent_upd c T num B : coherent c T -> T num = Some [] -> coherent c (upd T num B).
Proof.
  destruct c as [cc|]; [|done]. intros (h & Hok & Hh) Hnum. exists h. split; [done|].
  intros id o d B' Hl HB'. destruct (decide (id = num)) as [->|Hne].
  - destruct (Hh num o d [] Hl Hnum) as (i & b & Hi & _). by rewrite lookup_nil in Hi.
  - rewrite upd_ne in HB' by done. by eapply Hh.
Qed.

(** A removed file has no cached blocks. *)
Lemma coherent_removed cc T num B : coherent (Some cc) T ->
  exists cc', cache.RemoveFile cc num = Ok cc' /\ coherent (Some cc') (upd T num B).
Proof.
  intros (h & Hok & Hh). destruct (RemoveFile_cache_ok cc h num Hok) as (cc' & E & Hok'). exists cc'. split; [done|].
  eexists. split; [exact Hok'|]. intros id o d B' [Hl Hne]%map_lookup_filter_Some HB'. cbn in Hne.
  rewrite upd_ne in HB' by done. by eapply Hh.
Qed.

Lemma catalog_add T out e0 e fs outs :
  Forall2 (finished out e0 e) fs outs -> NoDup (map FileNum fs) ->
  (forall f, f ∈ fs -> T (FileNum f) = Some []) -> coherent (bcache e) T ->
  exists T', coherent (bcache e) T' /\ (forall num, num ∉ map FileNum fs -> T' num = T num) /\
    Forall2 (fun f es => has_table T' e (FileNum f) /\ tab T' (FileNum f) = es) fs outs.
Proof.
  intros Hf. induction Hf as [|f es fs outs [_ _ _ _ (B & bf & n & Hs & Hok & Hc)] Hf IH]; intros Hnd Hfr Hco.
  { exists T. split_and!; [done..|constructor]. }
  cbn in Hnd. apply NoDup_cons in Hnd as [Hni Hnd].
  destruct IH as (T1 & Hco1 & Hsame & Hall); [done|intros f' Hf'; apply Hfr; by right|done|].
  exists (upd T1 (FileNum f) B). split_and!.
  - apply coherent_upd; [done|]. rewrite Hsame by done. apply Hfr. left.
  - intros num Hnum. cbn in Hnum. apply not_elem_of_cons in Hnum as [Hn1 Hn2]. rewrite upd_ne by done. by apply Hsame.
  - constructor.
    + split; [exists B, bf, n; by rewrite upd_eq|]. unfold tab. by rewrite upd_eq.
    + apply Forall2_same_length_lookup. split; [by eapply Forall2_length|]. intros i f' es' Hi Hes.
      destruct (Forall2_lookup_lr _ _ _ _ _ _ Hall Hi Hes) as [(B' & bf' & n' & H1 & H2) H3].
      assert (FileNum f' <> FileNum f) as Hne.
      { intros Heq. apply Hni. rewrite <- Heq. apply list_elem_of_fmap_2. by eapply list_elem_of_lookup_2. }
      split.
      * exists B', bf', n'. by rewrite upd_ne.
      * unfold tab. by rewrite upd_ne.
Qed.

(** What removing tables does. *)
Lemma remove_all_ok dfs : forall T e,
  coherent (bcache e) T ->
  exists e' T' us, mapM remove_table dfs e = (e', Ok us) /\ coherent (bcache e') T' /\ (man e' = man e /\ ofaults e' = ofaults e) /\
    (forall num, num ∉ map DFileNum dfs -> sst e' !! num = sst e !! num /\ T' num = T num) /\
    (forall num, num ∈ map DFileNum dfs -> sst e' !! num = None).
Proof.
  induction dfs as [|df dfs IH]; intros T e Hc.
  { exists e, T, []. split_and!; [done..| |]; [done|]. by intros num ?%elem_of_nil. }
  assert (exists c1, remove_table df e =
    (mkEnv (delete (DFileNum df) (sst e)) (man e) c1 (ofaults e) (requests e), Ok tt) /\
    coherent c1 (upd T (DFileNum df) [])) as (c1 & E1 & Hc1).
  { unfold remove_table. destruct (bcache e) as [cc|] eqn:Ec; [|by exists None].
    destruct (coherent_removed cc T (DFileNum df) [] Hc) as (cc' & -> & Hc'). by exists (Some cc'). }
  destruct (IH (upd T (DFileNum df) []) (mkEnv (delete (DFileNum df) (sst e)) (man e) c1 (ofaults e) (requests e)) Hc1)
    as (e' & T' & us & E' & Hc' & [Hm Hfo] & Hkeep & Hgone). exists e', T', (tt :: us). cbn [mapM].
  erewrite st_bind_ok by exact E1. erewrite st_bind_ok by exact E'. cbn [man sst ofaults] in *. split_and!; [done..| |].
  - intros num Hnum. cbn in Hnum. apply not_elem_of_cons in Hnum as [Hn1 Hn2]. destruct (Hkeep num Hn2) as [H1 H2].
    by rewrite H1, H2, lookup_delete_ne, upd_ne.
  - intros num Hnum. destruct (decide (num ∈ map DFileNum dfs)) as [Hin|Hni]; [by apply Hgone|].
    cbn in Hnum. apply elem_of_cons in Hnum as [->|Hnum]; [|done]. destruct (Hkeep _ Hni) as [-> _]. apply lookup_delete_eq.
Qed.

(** ** [Execute] *)

Definition inputs (c : Compaction) : list FileMetadata := InputFiles0 c ++ InputFiles1 c.

(** What the compaction of [c] writes. *)
Definition merged (T : catalog) (minActive : nat -> Z) (c : Compaction) (mx : nat) : list kv :=
  gc_list minActive (OutputLevel c) mx 0 ([], false) (munion CompareKeys (map (fun f => tab T (FileNum f)) (inputs c))).

Record exec_ok (T : catalog) (cfg : config) (c : Compaction) (e : env) : Prop := {
  xo_bs : 0 < cblockSize cfg;
  xo_bits : 10000 * Z.max 1 (cbloomBits cfg) < 2 ^ 32 - 7;
  xo_target : 0 < ctargetSize cfg <= 2 ^ 39;
  xo_store : store_ok T e;
  xo_tables : Forall (fun f => has_table T e (FileNum f)) (inputs c);
  xo_old : Forall (fun f => FileNum f < nextFileNum (man e)) (inputs c);
  xo_fits : Forall (fun f => Forall (fits (cblockSize cfg)) (tab T (FileNum f))) (inputs c);
  xo_some : InputFiles0 c <> [];
  xo_faults : ofaults e = [] /\ faults (mfile (man e)) = [];
  xo_levels : length (current (man e)) = MaxLevels /\ (S (CLevel c) < MaxLevels)%nat /\ OutputLevel c = S (CLevel c);
  xo_next : 0 <= nextFileNum (man e) /\
    nextFileNum (man e) + len (concat (map (fun f => tab T (FileNum f)) (inputs c))) < 2 ^ 64 - 1;
}.

(** The outcome: the files [fs] with the entries [outs], cut from [merged]; the version
    has them in place of the inputs, which are gone. *)
Record executed (T : catalog) (minActive : nat -> Z) (c : Compaction) (mx : nat) (e : env)
    (T' : catalog) (e' : env) (fs : list FileMetadata) (outs : list (list kv)) : Prop := {
  ex_merged : concat outs = merged T minActive c mx;
  ex_files : Forall2 (fun f es => Level f = Z.of_nat (OutputLevel c) /\ SmallestKey f = first_key es /\
    LargestKey f = last_key es /\ es <> [] /\ nextFileNum (man e) <= FileNum f < nextFileNum (man e') /\
    has_table T' e' (FileNum f) /\ tab T' (FileNum f) = es) fs outs;
  ex_nums : NoDup (map FileNum fs);
  ex_version : exists m, applyEditToMemory (man e) (mkEdit fs (deleted_files c) 0) = Ok m /\ current (man e') = current m;
  ex_store : store_ok T' e';
  ex_old : forall num, num < nextFileNum (man e) -> num ∉ map FileNum (inputs c) ->
    T' num = T num /\ sst e' !! num = sst e !! num;
  ex_gone : forall f, f ∈ inputs c -> sst e' !! FileNum f = None;
  ex_next : nextFileNum (man e) <= nextFileNum (man e') <= nextFileNum (man e) + len (merged T minActive c mx);
  ex_log : fdata (mfile (man e')) = fdata (mfile (man e)) ++ record (mkEdit fs (deleted_files c) 0);
  ex_faults : ofaults e' = [] /\ faults (mfile (man e')) = [];
}.

Lemma deleted_nums c : map DFileNum (deleted_files c) = map FileNum (inputs c).
Proof. unfold deleted_files, inputs. by rewrite !map_app, !map_map. Qed.

Lemma merged_fits T minActive c mx bs :
  Forall (fun f => Forall (fits bs) (tab T (FileNum f))) (inputs c) -> Forall (fits bs) (merged T minActive c mx).
Proof.
  intros Hf. apply Forall_forall. intros e He%gc_list_sub. apply munion_elem in He as (l & Hl & He).
  apply list_elem_of_fmap in Hl as (f & -> & Hin). rewrite Forall_forall in Hf. specialize (Hf f Hin).
  rewrite Forall_forall in Hf. by apply Hf.
Qed.

(** Opening, merging and writing. *)
Lemma Execute_writes T cfg c e minActive mx :
  exec_ok T cfg c e ->
  exists e1 its e2 m e3 s e' s' fs outs,
    mapM (open_iter UncompressBlock) (inputs c) e = (e1, Ok its) /\
    with_cache (merge.SeekToFirst (IterOps0 := table_ops UncompressBlock) (merge.NewMergeIterator its)) e1 = (e2, Ok m) /\
    compact_loop Sum128 CompressBlock UncompressBlock (loop_fuel its) cfg (OutputLevel c) mx minActive 0 m
      (mkC None 0 [] 0 0 [] [] ([], false) 0) e2 = (e3, Ok s) /\
    finishCurrentFile CompressBlock (OutputLevel c) s e3 = (e', Ok s') /\
    set_largest (clastKey s') (addedFiles s') = fs /\ Forall2 (finished (OutputLevel c) e e') fs outs /\
    NoDup (map FileNum fs) /\ concat outs = merged T minActive c mx /\ Forall (fun es => es <> []) outs /\
    untouched T e e' (length (merged T minActive c mx)).
Proof.
  intros [Hbs Hbits Htg Hst Htab Hold Hfit Hsome [Hf1 Hf2] Hlv [Hn0 Hn]].
  destruct (open_all T (inputs c) e Hst Htab) as (c1 & xs & E1 & [_ Hc1] & Hpos & Hfuel).
  set (ls := map (fun f => tab T (FileNum f)) (inputs c)) in *.
  pose proof (NewMergeIterator_pos (IterOps0 := table_ops UncompressBlock) (table_pos T) ls xs Hpos) as Hm0.
  destruct (law_first (IterLaws := merge_laws (IterOps0 := table_ops UncompressBlock) (fun c => coherent c T) (table_pos T))
    _ _ _ c1 Hc1 Hm0) as (c2 & m & E2 & Hc2 & Hm).
  set (e2 := set_cache c2 (set_cache c1 e)). set (s0 := mkC None 0 [] 0 0 [] [] ([], false) 0).
  assert (cinv cfg (OutputLevel c) T e e2 s0 [] [] []) as Hci.
  { split; [done|constructor|constructor|constructor|done|done|]. split; [done..|cbn; lia|done|done]. }
  pose proof (length_gc_list minActive (OutputLevel c) mx (munion CompareKeys ls) 0 ([], false)) as Hl1.
  pose proof (length_munion (cmp := CompareKeys) ls) as Hl2. unfold len in Hn.
  destruct (compact_loop_ok cfg (OutputLevel c) T e Hbs Hbits Htg mx minActive _ _ (loop_fuel xs) 0 m e2 s0 [] [] [] Hci Hm)
    as (e3 & s3 & outs3 & cur3 & E3 & Hci3); [lia|done|cbn [app cgc s0]; lia|by apply merged_fits| |].
  { apply gc_list_sorted, munion_sorted. }
  cbn [app cgc s0] in Hci3. fold (merged T minActive c mx) in Hci3.
  destruct (compact_end cfg (OutputLevel c) T e Hbs Htg e3 s3 _ outs3 cur3 Hci3)
    as (e4 & s4 & fs & outs & E4 & Hset & Hff & Hnd & Hcat & Hne & Hun);
    [by apply merged_fits|by apply gc_list_sorted, munion_sorted|].
  exists (set_cache c1 e), xs, e2, m, e3, s3, e4, s4, fs, outs.
  split; [exact E1|]. split; [by apply with_cache_ok|]. done.
Qed.

(** The edit of a compaction names levels that exist. *)
Lemma compaction_levels c e e' fs outs :
  Forall2 (finished (OutputLevel c) e e') fs outs -> (S (CLevel c) < MaxLevels)%nat -> OutputLevel c = S (CLevel c) ->
  levels_ok (mkEdit fs (deleted_files c) 0).
Proof.
  intros Hff Hlv Ho. split; cbn.
  - apply Forall_forall. intros df Hdf. unfold deleted_files in Hdf.
    apply elem_of_app in Hdf as [(f & -> & _)%list_elem_of_fmap|(f & -> & _)%list_elem_of_fmap]; cbn; lia.
  - apply Forall_lookup_2. intros i f Hi. destruct (Forall2_lookup_l _ _ _ _ _ Hff Hi) as (es & _ & [_ _ -> _ _]). lia.
Qed.

Lemma Execute_ok T cfg c e minActive mx :
  exec_ok T cfg c e ->
  exists T' e' bytes fs outs,
    Execute Sum128 CompressBlock UncompressBlock cfg minActive c mx e = (e', Ok bytes) /\
    executed T minActive c mx e T' e' fs outs.
Proof.
  intros Hx. destruct (Execute_writes T cfg c e minActive mx Hx)
    as (e1 & its & e2 & m & e3 & s3 & e4 & s4 & fs & outs & E1 & E2 & E3 & E4 & Hset & Hff & Hnd & Hcat & Hne & Hun).
  destruct Hx as [Hbs Hbits Htg [Hfr Hco] Htab Hold Hfit Hsome [Hf1 Hf2] (Hlen & Hlv & Hout) [Hn0 Hn]].
  destruct Hun as [U1 U2 U3 U4 U5 U6]. rewrite Forall_forall in Hold.
  pose proof (compaction_levels c e e4 fs outs Hff Hlv Hout) as Hlok.
  destruct (Apply_ok (man e4) (mkEdit fs (deleted_files c) 0) Hlok) as (m5 & mf & E5 & Ha & Hlog & Hmf & Hl5); [congruence..|].
  destruct (applyEditToMemory_ok (man e4) (mkEdit fs (deleted_files c) 0) Hlok) as (m6 & E6 & _ & _ & Hn6); [congruence|].
  rewrite E6 in Ha. injection Ha as ->. cbn [nextFileNum NextFileNum] in Hn6.
  assert (forall f, f ∈ fs -> nextFileNum (man e) <= FileNum f < nextFileNum (man e4)) as Hnew.
  { intros f [i Hi]%list_elem_of_lookup. by destruct (Forall2_lookup_l _ _ _ _ _ Hff Hi) as (es & _ & [_ _ _ ? _]). }
  destruct (catalog_add T (OutputLevel c) e e4 fs outs Hff Hnd) as (T1 & Hco1 & Hsame1 & Hall1);
    [intros f Hf; apply Hfr; by apply Hnew|done|].
  set (e5 := mkEnv (sst e4) m5 (bcache e4) (ofaults e4) (requests e4)).
  destruct (remove_all_ok (deleted_files c) T1 e5 Hco1) as (e6 & T2 & us & E7 & Hco2 & (Hman & Hof) & Hkeep & Hgone).
  rewrite deleted_nums in Hkeep, Hgone.
  assert (forall num, nextFileNum (man e) <= num -> num ∉ map FileNum (inputs c)) as Hnotin.
  { intros num Hle (f & -> & Hf)%list_elem_of_fmap. specialize (Hold f Hf). cbn in Hold. lia. }
  assert (forall num, num < nextFileNum (man e) -> num ∉ map FileNum fs) as Hnotfs.
  { intros num Hlt (f & -> & Hf)%list_elem_of_fmap. specialize (Hnew f Hf). lia. }
  exists T2, e6. eexists _, fs, outs. split.
  { unfold Execute. destruct (InputFiles0 c) as [|f0 fs0] eqn:E0; [done|]. rewrite <- E0. fold (inputs c).
    erewrite st_bind_ok by exact E1. erewrite st_bind_ok by exact E2. erewrite st_bind_ok by exact E3.
    erewrite st_bind_ok by exact E4. rewrite Hset. cbv zeta.
    erewrite st_bind_ok by (unfold with_manifest; rewrite E5; reflexivity).
    erewrite st_bind_ok by exact E7. reflexivity. }
  split; [done| |done| | | | | | |].
  - apply Forall2_same_length_lookup. split; [by eapply Forall2_length|]. intros i f es Hi Hes.
    destruct (Forall2_lookup_lr _ _ _ _ _ _ Hff Hi Hes) as [F1 F2 F3 F4 F5].
    destruct (Forall2_lookup_lr _ _ _ _ _ _ Hall1 Hi Hes) as [(B & bf & n & H1 & H2 & H3) H4].
    destruct (Hkeep (FileNum f)) as [K1 K2]; [apply Hnotin; lia|]. rewrite Hman. cbn [man e5].
    split_and!; [done..|by eapply Forall_lookup_1 in Hne|lia|lia| |].
    + exists B, bf, n. by rewrite K1, K2.
    + unfold tab. by rewrite K2.
  - destruct (applyEditToMemory_next (man e4) _ (nextFileNum (man e)) (mfile (man e)) _ E6) as (m2 & Em2 & Hc2).
    rewrite U2 in Em2. exists m2. split; [by destruct (man e)|]. rewrite Hman. by rewrite Hc2.
  - split; [|done]. intros num Hle. rewrite Hman in Hle. cbn [man e5] in Hle.
    destruct (Hkeep num) as [_ ->]; [apply Hnotin; lia|]. rewrite Hsame1; [apply Hfr; lia|].
    intros (f & -> & Hf)%list_elem_of_fmap. specialize (Hnew f Hf). lia.
  - intros num Hlt Hni. destruct (Hkeep num Hni) as [-> ->]. by rewrite Hsame1, <- U1 by auto.
  - intros f Hf. by apply Hgone, list_elem_of_fmap_2.
  - rewrite Hman. cbn [man e5]. unfold len. lia.
  - rewrite Hman. cbn [man e5]. by rewrite Hlog, U3.
  - rewrite Hman, Hof. done.
Qed.

(** ** Properties *)

(** C11: what a compaction does.  It opens its input tables, writes tables of the entries
    [merged] has (the union of the inputs, an earlier input hiding a later one, without
    the versions [gc_entry] drops), cut in order into files with the right key ranges at
    the output level, replaces the inputs by them in the version and the log of the
    manifest, and removes the inputs from the directory and the cache; nothing else
    changes and no step fails. *)
Theorem compaction_executes (T : catalog) (cfg : config) (c : Compaction) (e : env) (minActive : nat -> Z) (mx : nat)
    (Hok : exec_ok T cfg c e) :
  exists T' e' bytes fs outs,
    Execute Sum128 CompressBlock UncompressBlock cfg minActive c mx e = (e', Ok bytes) /\
    executed T minActive c mx e T' e' fs outs.
Proof. by apply Execute_ok. Qed.
End execute.

(** Garbage collection is safe for snapshots.  Let the merged entries be versions in
    key order and the oldest active snapshot not go back while a compaction runs.  Then
    a reader whose snapshot is not older than it sees, of every user key, after the
    collection what it saw before; only a tombstone may become an absence, and only in
    the deepest occupied level. *)
Theorem compaction_keeps_reads (minActive : nat -> Z) (output maxOccupied : nat) (l : list kv) (u : bytes) (ts : Z)
    (Hmono : forall i j, (i <= j)%nat -> minActive i <= minActive j) (Hts : forall i, minActive i <= ts)
    (Hv : versioned l) (Hs : ksorted CompareKeys l) :
  let l' := gc_list minActive output maxOccupied 0 ([], false) l in
  visible u ts l' = visible u ts l \/
  (maxOccupied <= output)%nat /\ visible u ts l = Some None /\ visible u ts l' = None.
Proof. apply gc_visible; auto. Qed.

Definition sample_versions : list kv :=
  [(EncodeKey (str "a") 9, Some (str "a9")); (EncodeKey (str "a") 5, Some (str "a5")); (EncodeKey (str "a") 2, Some (str "a2"));
   (EncodeKey (str "b") 4, None); (EncodeKey (str "b") 1, Some (str "b1"))].

Lemma compaction_keeps_reads_witness :
  visible (str "b") 8 (gc_list (fun _ => 7) 1 1 0 ([], false) sample_versions) = visible (str "b") 8 sample_versions \/
  (1 <= 1)%nat /\ visible (str "b") 8 sample_versions = Some None /\
  visible (str "b") 8 (gc_list (fun _ => 7) 1 1 0 ([], false) sample_versions) = None.
Proof.
  apply (compaction_keeps_reads (fun _ => 7) 1 1 sample_versions (str "b") 8); [lia|lia| |].
  - repeat (apply Forall_cons_2; [eexists _, _; (split; [reflexivity|lia])|]). constructor.
  - repeat constructor.
Defined.

(** ** Two tables *)

Definition one_key_filter (k : bytes) : bloom.Filter :=
  match bloom.Add toy_hash (bloom.NewFilter 1 10) k with Ok f => f | _ => bloom.NewFilter 1 10 end.

Definition sample_key : bytes := str "key00000".

Definition old_table : list (list kv) := [[(sample_key, Some (str "old"))]].
Definition new_table : list (list kv) := [[(sample_key, Some (str "new"))]].

Definition sample_bytes (B : list (list kv)) : bytes := table_bytes toy_compress B (one_key_filter sample_key) 1.

Definition sample_meta (num : Z) : FileMetadata := mkMeta 0 num 100 sample_key sample_key 1.

Definition sample_catalog : catalog := fun n => if decide (n = 1) then Some old_table else if decide (n = 2) then Some new_table else Some [].

Definition sample_env : env :=
  mkEnv {[1 := sample_bytes old_table; 2 := sample_bytes new_table]}
    (mkManifest (mkFile [] 0 []) (<[0%nat := [sample_meta 1; sample_meta 2]]> empty_version) 3) None [] [].

Definition sample_compaction : Compaction := mkCompaction 0 [sample_meta 1; sample_meta 2] [] 1.
Definition sample_config : config := mkConfig 4096 10 (2 ^ 20).

Lemma sample_table_ok B : B = old_table \/ B = new_table -> table_ok toy_hash toy_compress B (one_key_filter sample_key) 1.
Proof.
  intros HB. assert (B ∈ [old_table; new_table]) as Hin by set_solver. clear HB.
  split.
  - apply elem_of_cons in Hin as [->|Hin%list_elem_of_singleton]; [|subst B]; repeat constructor; vm_compute; congruence.
  - apply elem_of_cons in Hin as [->|Hin%list_elem_of_singleton]; [|subst B]; by repeat constructor.
  - apply elem_of_cons in Hin as [->|Hin%list_elem_of_singleton]; [|subst B];
      apply Forall_singleton; left; vm_compute; congruence.
  - apply elem_of_cons in Hin as [->|Hin%list_elem_of_singleton]; [|subst B]; repeat constructor.
  - split; [split; vm_compute; repeat split; congruence|].
    apply elem_of_cons in Hin as [->|Hin%list_elem_of_singleton]; [|subst B];
      intros k ->%list_elem_of_singleton; vm_compute; reflexivity.
  - apply elem_of_cons in Hin as [->|Hin%list_elem_of_singleton]; [|subst B]; vm_compute; reflexivity.
  - lia.
Qed.

Lemma sample_exec_ok : exec_ok toy_hash toy_compress sample_catalog sample_config sample_compaction sample_env.
Proof.
  split.
  - done.
  - done.
  - done.
  - split; [|done]. intros num Hnum. cbn in Hnum. unfold sample_catalog. by rewrite !decide_False by lia.
  - apply Forall_cons_2; [|apply Forall_singleton]; [exists old_table|exists new_table];
      exists (one_key_filter sample_key), 1; (split; [reflexivity|]); (split; [reflexivity|]); apply sample_table_ok; auto.
  - by repeat constructor.
  - repeat constructor; vm_compute; congruence.
  - done.
  - done.
  - split; [done|]. split; [unfold MaxLevels; cbn; lia|done].
  - split; [done|]. vm_compute. reflexivity.
Qed.

Lemma compaction_executes_witness :
  exists T' e' bytes fs outs,
    Execute toy_hash toy_compress toy_uncompress sample_config (fun _ => 0) sample_compaction 0 sample_env = (e', Ok bytes) /\
    executed toy_hash toy_compress sample_catalog (fun _ => 0) sample_compaction 0 sample_env T' e' fs outs.
Proof.
  apply (compaction_executes toy_hash toy_compress toy_uncompress sample_catalog sample_config sample_compaction
    sample_env (fun _ => 0) 0), sample_exec_ok.
Defined.
