(* ===== verification/Limits.v ===== *)
(** * Rate limiter and statistics (internal/lsm/rate_limiter.go, metrics.go)

    The limiter is a token bucket: a goroutine refills it ten times a second, a request
    takes what is there and waits for more.  [take_tokens] is what one pass of the loop of
    [Request] does before it waits on the condition variable; the events of a trace are
    the arrival of a request, the wakeup of a waiting one, and a tick.  Durations are
    milliseconds. *)

From S2P Require Import Prelude.

#[local] Open Scope Z_scope.

Module limiter.

Record RateLimiter := mkLimiter { bytesPerSec : Z; available : Z }.

(** [None]: no limit. *)
Definition NewRateLimiter (bytesPerSec : Z) : option RateLimiter :=
  if bytesPerSec <=? 0 then None else Some (mkLimiter bytesPerSec bytesPerSec).

Definition refillAmount (r : RateLimiter) : Z :=
  let amount := Z.quot (bytesPerSec r) 10 in
  if amount =? 0 then 1 else amount.

(** One tick of [refillLoop]. *)
Definition refill (r : RateLimiter) : RateLimiter :=
  let a := available r + refillAmount r in
  mkLimiter (bytesPerSec r) (if bytesPerSec r <? a then bytesPerSec r else a).

(** A pass of the loop of [Request] over [bytes]: what is still wanted, 0 when it
    returns, and else it waits. *)
Definition take_tokens (r : RateLimiter) (bytes : Z) : RateLimiter * Z :=
  if 0 <? bytes then
    if bytes <=? available r then (mkLimiter (bytesPerSec r) (available r - bytes), 0)
    else if 0 <? available r then (mkLimiter (bytesPerSec r) 0, bytes - available r)
    else (r, bytes)
  else (r, 0).

(** The limiter and the requests that wait, each with what it still wants. *)
Record sys := mkSys { lim : RateLimiter; waiting : list Z }.

Inductive event :=
| ERequest (bytes : Z)
| EWake (i : nat)
| ETick.

Definition enqueue (bytes : Z) (l : list Z) : list Z := if 0 <? bytes then l ++ [bytes] else l.

Definition step (s : sys) (ev : event) : sys :=
  match ev with
  | ERequest bytes =>
      let '(r, rest) := take_tokens (lim s) bytes in mkSys r (enqueue rest (waiting s))
  | EWake i =>
      match waiting s !! i with
      | None => s
      | Some bytes =>
          let '(r, rest) := take_tokens (lim s) bytes in
          mkSys r (if 0 <? rest then <[i := rest]> (waiting s) else delete i (waiting s))
      end
  | ETick => mkSys (refill (lim s)) (waiting s)
  end.

Definition run (s : sys) (evs : list event) : sys := foldl step s evs.

(** A limiter whose [stopCh] may be closed; [refillLoop] has then ended, and no tick has an
    effect. *)
Record stoppable := mkStoppable { state : sys; stopped : bool }.

(** [Stop]: closing a closed channel panics. *)
Definition Stop (s : stoppable) : outcome Empty_set stoppable :=
  if stopped s then Panic else Ok (mkStoppable (state s) true).

Definition live_step (s : stoppable) (ev : event) : stoppable :=
  match ev with
  | ETick => if stopped s then s else mkStoppable (step (state s) ev) (stopped s)
  | _ => mkStoppable (step (state s) ev) (stopped s)
  end.

Definition live_run (s : stoppable) (evs : list event) : stoppable := foldl live_step s evs.

End limiter.
Import limiter.

Module stats.

Record CompactionStats := mkStats {
  BytesCompacted : Z;
  BytesWritten : Z;
  CompactionCount : Z;
  CompactionTimeMs : Z;
  StallTimeMs : Z;
  pendingCompactions : Z;
}.

Definition zero_stats : CompactionStats := mkStats 0 0 0 0 0 0.

Definition i32 (z : Z) : Z := (z + 2 ^ 31) mod 2 ^ 32 - 2 ^ 31.

Definition RecordCompaction (bytesIn bytesOut durationMs : Z) (s : CompactionStats) : CompactionStats :=
  mkStats (i64 (BytesCompacted s + bytesIn)) (i64 (BytesWritten s + bytesOut)) (i64 (CompactionCount s + 1))
    (i64 (CompactionTimeMs s + durationMs)) (StallTimeMs s) (pendingCompactions s).

Definition RecordStall (durationMs : Z) (s : CompactionStats) : CompactionStats :=
  mkStats (BytesCompacted s) (BytesWritten s) (CompactionCount s) (CompactionTimeMs s)
    (i64 (StallTimeMs s + durationMs)) (pendingCompactions s).

Definition add_pending (d : Z) (s : CompactionStats) : CompactionStats :=
  mkStats (BytesCompacted s) (BytesWritten s) (CompactionCount s) (CompactionTimeMs s) (StallTimeMs s)
    (i32 (pendingCompactions s + d)).

Definition IncrPending : CompactionStats -> CompactionStats := add_pending 1.
Definition DecrPending : CompactionStats -> CompactionStats := add_pending (-1).

Record CompactionStatsSnapshot := mkSnapshot {
  snap_BytesCompacted : Z;
  snap_BytesWritten : Z;
  snap_CompactionCount : Z;
  snap_CompactionTimeMs : Z;
  snap_StallTimeMs : Z;
  snap_PendingCompactions : Z;
}.

Definition Snapshot (s : CompactionStats) : CompactionStatsSnapshot :=
  mkSnapshot (BytesCompacted s) (BytesWritten s) (CompactionCount s) (CompactionTimeMs s) (StallTimeMs s) (pendingCompactions s).

End stats.

(** ** The bucket *)

Definition bucket_ok (r : RateLimiter) : Prop := 0 < bytesPerSec r /\ 0 <= available r <= bytesPerSec r.

Definition wanted (l : list Z) : Z := foldr Z.add 0 l.

Definition asked (evs : list event) : Z :=
  wanted (omap (fun ev => match ev with ERequest b => Some (Z.max 0 b) | _ => None end) evs).

Definition is_tick (ev : event) : bool := match ev with ETick => true | _ => false end.
Definition ticks (evs : list event) : Z := len (List.filter is_tick evs).

Lemma refillAmount_pos r : 0 < bytesPerSec r -> 0 < refillAmount r.
Proof.
  intros H. unfold refillAmount. pose proof (Z.quot_pos (bytesPerSec r) 10).
  destruct (Z.eqb_spec (Z.quot (bytesPerSec r) 10) 0); lia.
Qed.

Lemma refill_ok r : bucket_ok r ->
  bucket_ok (refill r) /\ bytesPerSec (refill r) = bytesPerSec r /\ available (refill r) <= available r + refillAmount r /\
  Z.min (bytesPerSec r) (available r + refillAmount r) = available (refill r).
Proof.
  intros [Hb Ha]. pose proof (refillAmount_pos r Hb). unfold refill, bucket_ok. cbn.
  destruct (Z.ltb_spec (bytesPerSec r) (available r + refillAmount r)); lia.
Qed.

(** A pass takes from the bucket what it gives to the request. *)
Lemma take_ok r b : bucket_ok r ->
  bucket_ok (take_tokens r b).1 /\ bytesPerSec (take_tokens r b).1 = bytesPerSec r /\ 0 <= (take_tokens r b).2 /\
  available (take_tokens r b).1 - (take_tokens r b).2 = available r - Z.max 0 b /\
  (0 < (take_tokens r b).2 -> available (take_tokens r b).1 = 0).
Proof.
  intros [Hb Ha]. unfold take_tokens, bucket_ok.
  destruct (Z.ltb_spec 0 b); [|cbn; lia]. destruct (Z.leb_spec b (available r)); [cbn; lia|].
  destruct (Z.ltb_spec 0 (available r)); cbn; lia.
Qed.

Lemma wanted_cons b l : wanted (b :: l) = b + wanted l.
Proof. done. Qed.

Lemma wanted_app l1 l2 : wanted (l1 ++ l2) = wanted l1 + wanted l2.
Proof. unfold wanted. induction l1; cbn; lia. Qed.

Lemma wanted_enqueue b l : 0 <= b -> wanted (enqueue b l) = wanted l + b.
Proof. intros H. unfold enqueue. destruct (Z.ltb_spec 0 b); [rewrite wanted_app; cbn|]; lia. Qed.

Lemma wanted_update l i b c :
  l !! i = Some b -> 0 <= c -> wanted (if 0 <? c then <[i := c]> l else delete i l) = wanted l - b + c.
Proof.
  intros Hi Hc. assert (wanted l = wanted (take i l) + (b + wanted (drop (S i) l))) as ->.
  { rewrite <- (take_drop_middle l i b Hi) at 1. apply wanted_app. }
  destruct (Z.ltb_spec 0 c).
  - rewrite insert_take_drop by (by eapply lookup_lt_Some). rewrite wanted_app, wanted_cons. lia.
  - rewrite delete_take_drop, wanted_app. lia.
Qed.

Record bucket_inv (s : sys) (n t q : Z) : Prop := {
  bi_ok : bucket_ok (lim s);
  bi_rate : bytesPerSec (lim s) = n;
  bi_waiting : Forall (fun b => 0 < b) (waiting s);
  bi_total : available (lim s) + (q - wanted (waiting s)) <= n + t * refillAmount (lim s);
}.

Lemma refillAmount_rate r r' : bytesPerSec r = bytesPerSec r' -> refillAmount r = refillAmount r'.
Proof. intros H. unfold refillAmount. by rewrite H. Qed.

Lemma limiter_step s ev n t q :
  bucket_inv s n t q -> bucket_inv (step s ev) n (t + ticks [ev]) (q + asked [ev]).
Proof.
  intros [Hok Hr Hw Ht]. destruct ev as [b|i|]; cbn [step].
  - change (ticks [ERequest b]) with 0. change (asked [ERequest b]) with (Z.max 0 b + 0). destruct (take_ok (lim s) b Hok) as (H1 & H2 & H3 & H4 & _). destruct (take_tokens (lim s) b) as [r rest]. cbn [fst snd] in *.
    split; cbn [lim waiting]; [done|congruence| |].
    + unfold enqueue. destruct (Z.ltb_spec 0 rest); [|done]. apply Forall_app. split; [done|]. by apply Forall_singleton.
    + rewrite wanted_enqueue, (refillAmount_rate r (lim s)) by done. lia.
  - change (ticks [EWake i]) with 0. change (asked [EWake i]) with 0. destruct (waiting s !! i) as [b|] eqn:Ei; [|split; [done..|lia]].
   
    assert (0 < b) as Hb by (by eapply Forall_lookup_1 in Hw).
    destruct (take_ok (lim s) b Hok) as (H1 & H2 & H3 & H4 & _). destruct (take_tokens (lim s) b) as [r rest]. cbn [fst snd] in *.
    split; cbn [lim waiting]; [done|congruence| |].
    + destruct (Z.ltb_spec 0 rest); [by apply Forall_insert|by apply Forall_delete].
    + rewrite (wanted_update _ _ _ _ Ei H3), (refillAmount_rate r (lim s)) by done. lia.
  - change (ticks [ETick]) with 1. change (asked [ETick]) with 0. destruct (refill_ok (lim s) Hok) as (H1 & H2 & H3 & _). split; cbn [lim waiting]; [done|congruence|done|].
    rewrite (refillAmount_rate (refill (lim s)) (lim s)) by done. lia.
Qed.

Lemma ticks_app a b : ticks (a ++ b) = ticks a + ticks b.
Proof. unfold ticks. by rewrite List.filter_app, len_app. Qed.
Lemma asked_app a b : asked (a ++ b) = asked a + asked b.
Proof. unfold asked. by rewrite omap_app, wanted_app. Qed.

Lemma limiter_run evs : forall s n t q,
  bucket_inv s n t q -> bucket_inv (run s evs) n (t + ticks evs) (q + asked evs).
Proof.
  induction evs as [|ev evs IH]; intros s n t q H; [by rewrite !Z.add_0_r|].
  change (ev :: evs) with ([ev] ++ evs). rewrite ticks_app, asked_app, !Z.add_assoc. apply IH. by apply limiter_step.
Qed.

(** ** Properties *)

(** C31: the rate is bounded.  Whatever requests arrive and whichever of them are woken,
    the bucket never holds more than one second's worth, and what has been granted (what
    was asked for without what the waiting requests still want) is at most the initial
    burst plus the refills of the ticks so far. *)
Theorem limiter_rate_bound (n : Z) (evs : list event) (Hn : 0 < n) :
  exists r, NewRateLimiter n = Some r /\
    let s := run (mkSys r []) evs in
    0 <= available (lim s) <= n /\ Forall (fun b => 0 < b) (waiting s) /\
    asked evs - wanted (waiting s) <= n + ticks evs * refillAmount r.
Proof.
  unfold NewRateLimiter. rewrite (proj2 (Z.leb_gt _ _)) by done. exists (mkLimiter n n). split; [done|]. cbv zeta.
  destruct (limiter_run evs (mkSys (mkLimiter n n) []) n 0 0) as [[H1 H2] H3 H4 H5].
  { split; cbn; [split; cbn; lia|done|constructor|unfold wanted; cbn; lia]. }
  rewrite (refillAmount_rate (lim _) (mkLimiter n n)) in H5 by done. split_and!; [lia|lia|done|lia].
Qed.

(** A request that waits alone is served: after as many ticks as its bytes need at
    the refill rate, each followed by its wakeup, it has returned. *)
Theorem limiter_serves (r : RateLimiter) (b : Z) (k : nat)
    (Hok : bucket_ok r) (Hk : b <= Z.of_nat k * refillAmount r) (Hb : 0 < b) :
  waiting (run (mkSys r [b]) (concat (replicate k [ETick; EWake 0]))) = [].
Proof.
  revert r b Hok Hk Hb. induction k as [|k IH]; intros r b Hok Hk Hb; [lia|].
  cbn [replicate concat]. unfold run. rewrite foldl_app. cbn [foldl step waiting lookup list_lookup lim].
  destruct (refill_ok r Hok) as (H1 & H2 & _ & H4). pose proof (refillAmount_pos r (proj1 Hok)) as Hpos.
  destruct (take_ok (refill r) b H1) as (H5 & H6 & H7 & H8 & H9). destruct (take_tokens (refill r) b) as [r1 rest]. cbn [fst snd] in *.
  destruct (Z.ltb_spec 0 rest) as [Hr|Hr]; cbn [insert list_insert delete list_delete].
  - apply IH; [done| |done]. specialize (H9 Hr). destruct Hok as [Hb1 Hb2].
    rewrite (refillAmount_rate r1 r) by congruence.
    assert (refillAmount r <= bytesPerSec r) as Hle.
    { unfold refillAmount. pose proof (Z.quot_le_upper_bound (bytesPerSec r) 10 (bytesPerSec r)).
      destruct (Z.eqb_spec (Z.quot (bytesPerSec r) 10) 0); lia. }
    lia.
  - clear. generalize r1. induction k as [|k IH]; intros r2; [done|]. cbn [replicate concat]. unfold run in *.
    rewrite foldl_app. cbn [foldl step waiting lookup list_lookup lim]. apply IH.
Qed.

Lemma limiter_rate_bound_witness :
  exists r, NewRateLimiter 100 = Some r /\
    let s := run (mkSys r []) [ERequest 120; ETick; EWake 0; ERequest 5] in
    0 <= available (lim s) <= 100 /\ Forall (fun b => 0 < b) (waiting s) /\
    asked [ERequest 120; ETick; EWake 0; ERequest 5] - wanted (waiting s) <=
      100 + ticks [ERequest 120; ETick; EWake 0; ERequest 5] * refillAmount r.
Proof. apply (limiter_rate_bound 100 [ERequest 120; ETick; EWake 0; ERequest 5]). lia. Defined.

Lemma limiter_serves_witness :
  waiting (run (mkSys (mkLimiter 100 0) [25]) (concat (replicate 3 [ETick; EWake 0]))) = [].
Proof. apply (limiter_serves (mkLimiter 100 0) 25 3); [split; cbn; lia|vm_compute; congruence|lia]. Defined.

(** ** After [Stop] *)

Definition no_ticks (evs : list event) : list event := List.filter (fun ev => negb (is_tick ev)) evs.

Lemma stopped_run evs : forall s, live_run (mkStoppable s true) evs = mkStoppable (run s (no_ticks evs)) true.
Proof. induction evs as [|[] evs IH]; intros s; [done|..]; cbn -[step]; apply IH. Qed.

Lemma ticks_no_ticks evs : ticks (no_ticks evs) = 0 /\ asked (no_ticks evs) = asked evs.
Proof.
  induction evs as [|ev evs [IH1 IH2]]; [done|]. change (ev :: evs) with ([ev] ++ evs). unfold no_ticks in *. rewrite List.filter_app, ticks_app, !asked_app, IH1, IH2.
  by destruct ev.
Qed.

(** Once the limiter has been stopped, requests get together at most what was left: one
    that wants more never returns.  ([LSMTree.Close] stops it after the compactions have
    ended.)  A second [Stop] panics. *)
Theorem stopped_limiter (r : RateLimiter) (ws : list Z) (evs : list event) (Hr : bucket_ok r) (Hws : Forall (fun b => 0 < b) ws) :
  exists s, Stop (mkStoppable (mkSys r ws) false) = Ok s /\ Stop s = Panic /\
    wanted ws + asked evs - wanted (waiting (state (live_run s evs))) <= available r.
Proof.
  exists (mkStoppable (mkSys r ws) true). split; [done|]. split; [done|]. rewrite stopped_run. cbn [state].
  destruct (limiter_run (no_ticks evs) (mkSys r ws) (bytesPerSec r) 0 (wanted ws + bytesPerSec r - available r)) as [[_ H1] _ _ H2].
  { split; cbn [lim waiting]; [done..|]. lia. }
  destruct (ticks_no_ticks evs) as [Ht Ha]. rewrite Ht, Ha in H2. lia.
Qed.
