(* ===== verification/Levels.v ===== *)
(** * Levels of a version

    A level below the first is a list of files with disjoint, increasing key ranges.
    Sorting keeps such levels, the binary search finds the file of a key, the picker
    takes files whose union is an interval between the other files of the next level,
    and the edit of a compaction replaces the inputs by the outputs. *)

From Stdlib Require Import Floats.SpecFloat.
From S2P Require Import Prelude Order Keys Manifest Compaction.
Import mvcc manifest compaction.

#[local] Open Scope Z_scope.

Abbreviation klt := (klt CompareKeys).
Abbreviation kle := (kle CompareKeys).

(** ** Disjoint ranges *)

Definition file_lt (f g : FileMetadata) : Prop := klt (LargestKey f) (SmallestKey g).
Definition range_ok (f : FileMetadata) : Prop := kle (SmallestKey f) (LargestKey f).

Definition lv_sorted (fs : list FileMetadata) : Prop := StronglySorted file_lt fs /\ Forall range_ok fs.

Lemma file_lt_trans f g h : range_ok g -> file_lt f g -> file_lt g h -> file_lt f h.
Proof. intros Hg H1 H2. eapply (ko_trans CompareKeys); [|exact H2]. by eapply klt_kle_trans. Qed.

Lemma file_lt_asym f g : range_ok f -> range_ok g -> file_lt f g -> ~ file_lt g f.
Proof.
  intros Hf Hg H1 H2. apply (klt_irrefl (cmp := CompareKeys) (LargestKey f)).
  eapply (file_lt_trans f g f) in H1; [|done..]. by eapply klt_kle_trans.
Qed.

Lemma lv_sorted_nil : lv_sorted [].
Proof. split; constructor. Qed.

Lemma lv_sorted_cons f fs :
  lv_sorted (f :: fs) <-> range_ok f /\ lv_sorted fs /\ forall g, g ∈ fs -> file_lt f g.
Proof.
  unfold lv_sorted. rewrite Forall_cons. split.
  - intros [[Hs Hf]%StronglySorted_inv [Hr Hrs]]. rewrite Forall_forall in Hf. done.
  - intros (Hr & [Hs Hrs] & Hf). split; [|done]. constructor; [done|]. by apply Forall_forall.
Qed.

Lemma lv_sorted_range fs f : lv_sorted fs -> f ∈ fs -> range_ok f.
Proof. intros [_ H] Hf. rewrite Forall_forall in H. by apply H. Qed.

(** Two files of a level are one, or one is before the other. *)
Lemma lv_sorted_pair fs f g : lv_sorted fs -> f ∈ fs -> g ∈ fs -> f = g \/ file_lt f g \/ file_lt g f.
Proof.
  induction fs as [|h fs IH]; [by intros _ ?%elem_of_nil|]. intros (Hr & Hs & Hlt)%lv_sorted_cons.
  intros [->|Hf]%elem_of_cons [->|Hg]%elem_of_cons; auto.
Qed.

Lemma lv_sorted_lookup fs i j f g : lv_sorted fs -> fs !! i = Some f -> fs !! j = Some g -> (i < j)%nat -> file_lt f g.
Proof.
  intros Hs. revert i j. induction fs as [|h fs IH]; intros i j Hi Hj Hlt; [done|].
  apply lv_sorted_cons in Hs as (Hr & Hs & Hh). destruct j as [|j]; [lia|]. cbn in Hj.
  destruct i as [|i]; cbn in Hi; [|eapply (IH Hs i j); [done|done|lia]].
  injection Hi as ->. apply Hh. by eapply list_elem_of_lookup_2.
Qed.

Lemma lv_sorted_filter (P : FileMetadata -> Prop) `{!forall f, Decision (P f)} fs : lv_sorted fs -> lv_sorted (filter P fs).
Proof.
  induction fs as [|f fs IH]; [done|]. intros (Hr & Hs & Hf)%lv_sorted_cons. rewrite filter_cons.
  destruct (decide (P f)); [|auto]. apply lv_sorted_cons. split_and!; [done|auto|].
  intros g [_ Hg]%list_elem_of_filter. auto.
Qed.

(** ** Sorting *)

Lemma insert_file_perm f fs : insert_file f fs ≡ₚ f :: fs.
Proof.
  induction fs as [|g fs IH]; [done|]. cbn. destruct (CompareKeys _ _); [|done|]; rewrite IH; apply Permutation_swap.
Qed.

Lemma insert_file_sorted f fs :
  lv_sorted fs -> range_ok f -> (forall g, g ∈ fs -> file_lt f g \/ file_lt g f) -> lv_sorted (insert_file f fs).
Proof.
  induction fs as [|g fs IH]; intros Hs Hr Hd.
  { cbn. apply lv_sorted_cons. split_and!; [done|apply lv_sorted_nil|by intros ? ?%elem_of_nil]. }
  pose proof Hs as (Hrg & Hs' & Hg)%lv_sorted_cons. cbn.
  destruct (Hd g (list_elem_of_here _ _)) as [Hfg|Hgf].
  - assert (klt (SmallestKey f) (SmallestKey g)) as -> by (by eapply kle_klt_trans).
    apply lv_sorted_cons. split_and!; [done..|]. intros h [->|Hh]%elem_of_cons; [done|].
    eapply file_lt_trans; [exact Hrg|done|auto].
  - assert (klt (SmallestKey g) (SmallestKey f)) as Hlt by (by eapply kle_klt_trans).
    assert (lv_sorted (g :: insert_file f fs)) as Hnew.
    { apply lv_sorted_cons. split_and!; [done| |].
      - apply IH; [done|done|]. intros h Hh. apply Hd. by right.
      - intros h Hh. rewrite insert_file_perm in Hh. apply elem_of_cons in Hh as [->|Hh]; auto. }
    rewrite (ko_opp CompareKeys (SmallestKey g) (SmallestKey f)). unfold klt in Hlt. by rewrite Hlt.
Qed.

Lemma sort_perm fs : SortBySmallestKey fs ≡ₚ fs.
Proof.
  unfold SortBySmallestKey. assert (forall acc, foldl (fun l f => insert_file f l) acc fs ≡ₚ fs ++ acc) as H.
  { induction fs as [|f fs IH]; intros acc; [done|]. cbn. rewrite IH, insert_file_perm. by rewrite Permutation_middle. }
  rewrite H. by rewrite app_nil_r.
Qed.

Lemma sort_app fs gs :
  lv_sorted fs -> lv_sorted gs -> (forall f g, f ∈ fs -> g ∈ gs -> file_lt f g \/ file_lt g f) ->
  lv_sorted (foldl (fun l f => insert_file f l) fs gs).
Proof.
  revert fs. induction gs as [|g gs IH]; intros fs Hf Hg Hd; [done|]. cbn. apply lv_sorted_cons in Hg as (Hr & Hg & Hlt).
  apply IH; [apply insert_file_sorted; [done|done|]|done|].
  - intros f Hin. destruct (Hd f g Hin (list_elem_of_here _ _)); auto.
  - intros f h Hin Hh. rewrite insert_file_perm in Hin. apply elem_of_cons in Hin as [->|Hin]; [left; auto|].
    apply Hd; [done|by right].
Qed.

Lemma insert_file_last f fs : lv_sorted fs -> range_ok f -> (forall g, g ∈ fs -> file_lt g f) -> insert_file f fs = fs ++ [f].
Proof.
  induction fs as [|g fs IH]; [done|]. intros (Hr & Hs & Hg)%lv_sorted_cons Hf Hlt. cbn.
  assert (klt (SmallestKey g) (SmallestKey f)) as Hk by (eapply kle_klt_trans; [exact Hr|apply Hlt; left]).
  rewrite IH; [|done|done|intros h Hh; apply Hlt; by right].
  rewrite (ko_opp CompareKeys (SmallestKey g) (SmallestKey f)). unfold klt in Hk. by rewrite Hk.
Qed.

Lemma lv_sorted_app fs gs :
  lv_sorted (fs ++ gs) <-> lv_sorted fs /\ lv_sorted gs /\ forall f g, f ∈ fs -> g ∈ gs -> file_lt f g.
Proof.
  induction fs as [|f fs IH]; cbn [app].
  { split; [|by intros (_ & ? & _)]. intros H. split_and!; [apply lv_sorted_nil|done|by intros ? ? ?%elem_of_nil]. }
  rewrite !lv_sorted_cons, IH. setoid_rewrite elem_of_app. setoid_rewrite elem_of_cons. naive_solver.
Qed.

Lemma sort_onto gs : forall fs, lv_sorted (fs ++ gs) -> foldl (fun l f => insert_file f l) fs gs = fs ++ gs.
Proof.
  induction gs as [|g gs IH]; intros fs Hs; [by rewrite app_nil_r|]. cbn.
  pose proof Hs as (Hf & Hg & Hd)%lv_sorted_app. apply lv_sorted_cons in Hg as (Hr & _ & _).
  rewrite insert_file_last; [|done|done|intros f Hin; apply Hd; [done|left]].
  rewrite IH; by rewrite <- (assoc_L (++)).
Qed.

Lemma sort_sorted fs : lv_sorted fs -> SortBySmallestKey fs = fs.
Proof. apply (sort_onto fs []). Qed.

Lemma sort_merge fs gs :
  lv_sorted fs -> lv_sorted gs -> (forall f g, f ∈ fs -> g ∈ gs -> file_lt f g \/ file_lt g f) ->
  lv_sorted (SortBySmallestKey (fs ++ gs)).
Proof.
  intros Hf Hg Hd. unfold SortBySmallestKey. rewrite foldl_app. rewrite (sort_onto fs []) by done. by apply sort_app.
Qed.

Lemma sort_levels_cons l0 ls : sort_levels (l0 :: ls) = l0 :: map SortBySmallestKey ls.
Proof.
  cbn. f_equal. apply map_ext. intros [|f [|g fs]]; [done|done|]. rewrite (proj2 (Z.ltb_lt _ _)); [done|].
  rewrite !len_cons. pose proof (len_nonneg fs). lia.
Qed.

(** ** Edits *)

Lemma fold_delete lv fs : forall v files,
  v !! lv = Some files ->
  fold_out delete_file (map (fun f => mkDeleted (Z.of_nat lv) (FileNum f)) fs) v =
    Ok (<[lv := filter (fun f => FileNum f ∉ map FileNum fs) files]> v).
Proof.
  induction fs as [|g fs IH]; intros v files Hv; cbn [map fold_out].
  { rewrite filter_true; [by rewrite list_insert_id|]. apply Forall_true. intros f. apply not_elem_of_nil. }
  assert (delete_file v (mkDeleted (Z.of_nat lv) (FileNum g)) =
    Ok (<[lv := filter (fun f => FileNum f <> FileNum g) files]> v)) as ->.
  { unfold delete_file. cbn [DLevel DFileNum]. by rewrite (proj2 (Z.ltb_ge _ _)), Nat2Z.id, Hv by lia. }
  cbn [mbind outcome_bind].
  rewrite (IH _ (filter (fun f => FileNum f <> FileNum g) files)); [|apply list_lookup_insert_eq; by eapply lookup_lt_Some].
  rewrite list_insert_insert_eq, list_filter_filter. do 2 f_equal. apply list_filter_iff. intros f.
  rewrite not_elem_of_cons. naive_solver.
Qed.

Lemma fold_add lv fs : forall v files,
  Forall (fun f => Level f = Z.of_nat lv) fs -> v !! lv = Some files -> fold_out add_file fs v = Ok (<[lv := files ++ fs]> v).
Proof.
  induction fs as [|g fs IH]; intros v files Hl Hv; cbn [fold_out].
  { by rewrite app_nil_r, list_insert_id. }
  apply Forall_cons in Hl as [Hg Hl]. assert (add_file v g = Ok (<[lv := files ++ [g]]> v)) as ->.
  { unfold add_file. by rewrite Hg, (proj2 (Z.ltb_ge _ _)), Nat2Z.id, Hv by lia. }
  cbn [mbind outcome_bind]. rewrite (IH _ (files ++ [g])); [|done|apply list_lookup_insert_eq; by eapply lookup_lt_Some].
  by rewrite list_insert_insert_eq, <- (assoc_L (++)).
Qed.

(** The levels after a compaction from level [lv] that wrote [fs]. *)
Definition without (fs files : list FileMetadata) : list FileMetadata := filter (fun f => FileNum f ∉ map FileNum fs) files.

Lemma compaction_edit m c fs p q :
  Forall (fun f => Level f = Z.of_nat (S (CLevel c))) fs ->
  current m !! CLevel c = Some p -> current m !! S (CLevel c) = Some q ->
  exists m', applyEditToMemory m (mkEdit fs (deleted_files c) 0) = Ok m' /\
    current m' = sort_levels (<[S (CLevel c) := without (InputFiles1 c) q ++ fs]> (<[CLevel c := without (InputFiles0 c) p]> (current m))).
Proof.
  intros Hl Hp Hq. unfold applyEditToMemory, deleted_files. cbn [DeletedFiles AddedFiles].
  assert (forall A (f : Version -> A -> outcome lsm_error Version) l1 l2 v,
    fold_out f (l1 ++ l2) v = (v' ← fold_out f l1 v; fold_out f l2 v')) as Happ.
  { intros A f l1 l2. induction l1 as [|a l1 IH]; intros v; [done|]. cbn. destruct (f v a); [apply IH|done..]. }
  rewrite Happ, (fold_delete _ _ _ p Hp). cbn [mbind outcome_bind].
  rewrite (fold_delete _ _ _ q) by (by rewrite list_lookup_insert_ne by lia). cbn [mbind outcome_bind].
  rewrite (fold_add (S (CLevel c)) _ _ (without (InputFiles1 c) q)); [|done|].
  2:{ apply list_lookup_insert_eq. rewrite length_insert. by eapply lookup_lt_Some. }
  cbn [mbind outcome_bind]. eexists. split; [done|]. cbn. by rewrite list_insert_insert_eq.
Qed.

(** ** The picker *)

(** What the picker promises of a compaction of [v]. *)
Record picked (v : Version) (c : Compaction) : Prop := {
  pk_output : OutputLevel c = S (CLevel c);
  pk_level : (S (CLevel c) < MaxLevels)%nat;
  pk_some : InputFiles0 c <> [];
  pk_inputs : exists p q lo hi, v !! CLevel c = Some p /\ v !! S (CLevel c) = Some q /\
    (forall f, f ∈ InputFiles0 c -> f ∈ p) /\ (CLevel c = 0%nat -> InputFiles0 c = p) /\
    (CLevel c <> 0%nat -> exists f, InputFiles0 c = [f]) /\
    (forall f, f ∈ InputFiles0 c -> kle lo (SmallestKey f) /\ kle (LargestKey f) hi) /\
    InputFiles1 c = GetOverlappingFiles q lo hi;
}.

Lemma widen_range fs : forall lo hi, exists lo' hi',
  foldl widen (Some (lo, hi)) fs = Some (lo', hi') /\ kle lo' lo /\ kle hi hi' /\
  forall f, f ∈ fs -> kle lo' (SmallestKey f) /\ kle (LargestKey f) hi'.
Proof.
  induction fs as [|f fs IH]; intros lo hi.
  { exists lo, hi. split_and!; [done|apply kle_refl..|by intros ? ?%elem_of_nil]. }
  cbn. set (lo1 := match CompareKeys (SmallestKey f) lo with Lt => _ | _ => _ end).
  set (hi1 := match CompareKeys (LargestKey f) hi with Gt => _ | _ => _ end).
  assert (kle lo1 lo /\ kle lo1 (SmallestKey f)) as [L1 L2].
  { unfold lo1. destruct (CompareKeys (SmallestKey f) lo) eqn:E; (split; [|try apply kle_refl]); try apply kle_refl.
    - apply (ko_eq CompareKeys) in E as ->. apply kle_refl.
    - by apply klt_kle.
    - apply ko_gt in E. by apply klt_kle. }
  assert (kle hi hi1 /\ kle (LargestKey f) hi1) as [H1 H2].
  { unfold hi1. destruct (CompareKeys (LargestKey f) hi) eqn:E; (split; [|try apply kle_refl]); try apply kle_refl.
    - apply (ko_eq CompareKeys) in E as ->. apply kle_refl.
    - by apply klt_kle.
    - apply ko_gt in E. by apply klt_kle. }
  destruct (IH lo1 hi1) as (lo' & hi' & -> & A & B & C). exists lo', hi'. split_and!; [done|by eapply kle_trans..|].
  intros g [->|Hg]%elem_of_cons; [|auto]. split; by eapply kle_trans.
Qed.

Lemma key_range_ok fs lo hi : key_range fs = (lo, hi) ->
  forall f, f ∈ fs -> kle lo (SmallestKey f) /\ kle (LargestKey f) hi.
Proof.
  unfold key_range. destruct fs as [|f fs]; [by intros _ ? ?%elem_of_nil|]. cbn [foldl]. change (widen None f) with (Some (SmallestKey f, LargestKey f)).
  destruct (widen_range fs (SmallestKey f) (LargestKey f)) as (lo' & hi' & -> & A & B & C). intros [= <- <-].
  intros g [->|Hg]%elem_of_cons; auto.
Qed.

Lemma largest_file_in fs : forall f, largest_file f fs ∈ f :: fs.
Proof.
  unfold largest_file. induction fs as [|g fs IH]; intros f; [left|]. cbn. destruct (FileSize f <? FileSize g).
  - right. apply IH.
  - specialize (IH f). apply elem_of_cons in IH as [->|IH]; [left|right; by right].
Qed.

Lemma best_score_ok levels : forall i best b s,
  best_score i levels best = (b, s) ->
  (b, s) = best \/ exists j files, levels !! j = Some files /\ b = Some (i + j)%nat /\ s = CompactionScore (i + j) files.
Proof.
  induction levels as [|fs levels IH]; intros i best b s H; [by left|]. cbn in H.
  destruct (IH _ _ _ _ H) as [Hb|(j & files & Hj & -> & ->)].
  - destruct (SFltb best.2 (CompactionScore i fs)); [|by left]. right. exists 0%nat, fs.
    injection Hb as -> ->. by rewrite Nat.add_0_r.
  - right. exists (S j), files. by replace (i + S j)%nat with (S i + j)%nat by lia.
Qed.

(** An empty level needs no compaction. *)
Lemma score_empty level : (level < MaxLevels)%nat -> SFleb (CompactionScore level []) one = true.
Proof. intros H. unfold MaxLevels in H. do 7 (destruct level as [|level]; [vm_compute; reflexivity|]). lia. Qed.

Lemma PickCompaction_ok v :
  length v = MaxLevels -> exists r, PickCompaction v = Ok r /\ forall c, r = Some c -> picked v c.
Proof.
  intros Hv. unfold PickCompaction. destruct (best_score _ _ _) as [b s] eqn:Eb.
  destruct (SFleb s one) eqn:Es; [by exists None|].
  apply best_score_ok in Eb as [[= -> ->]|(j & files & Hj & -> & ->)]; [vm_compute in Es; done|].
  cbn [Nat.add] in *. apply lookup_take_Some in Hj as [Hj Hlt]. unfold MaxLevels in Hlt, Hv.
  destruct (lookup_lt_is_Some_2 v (S j)) as [next Hn]; [lia|]. rewrite Hj, Hn.
  assert (files <> []) as Hne by (intros ->; rewrite score_empty in Es by (unfold MaxLevels; lia); done).
  case_bool_decide as Hj0.
  - destruct (key_range files) as [lo hi] eqn:Er. eexists. split; [done|]. intros c [= <-].
    split; cbn; [done|unfold MaxLevels; lia|done|]. exists files, next, lo, hi.
    split_and!; [done..| |done]. by apply key_range_ok.
  - destruct files as [|f rest]; [done|]. eexists. split; [done|]. intros c [= <-].
    split; cbn; [done|unfold MaxLevels; lia|done|].
    eexists _, _, _, _. split_and!; [exact Hj|exact Hn| |done|by eexists| |reflexivity].
    + intros g ->%list_elem_of_singleton. apply largest_file_in.
    + intros g ->%list_elem_of_singleton. split; apply kle_refl.
Qed.

(** The files that are left are on one side of everything that is compacted. *)
Lemma left_file_aside q lo hi r :
  lv_sorted q -> r ∈ q -> r ∉ GetOverlappingFiles q lo hi ->
  (klt (LargestKey r) lo /\ forall g, g ∈ GetOverlappingFiles q lo hi -> file_lt r g) \/
  (klt hi (SmallestKey r) /\ forall g, g ∈ GetOverlappingFiles q lo hi -> file_lt g r).
Proof.
  intros Hs Hr Hni. unfold GetOverlappingFiles in *. rewrite list_elem_of_filter in Hni.
  pose proof (lv_sorted_range _ _ Hs Hr) as Hrr.
  assert (forall g, g ∈ q -> g <> r -> file_lt r g \/ file_lt g r) as Hpair.
  { intros g Hg Hne. destruct (lv_sorted_pair q r g Hs Hr Hg) as [->|H]; [done|naive_solver]. }
  destruct (decide (klt (LargestKey r) lo)) as [Hlo|Hlo].
  - left. split; [done|]. intros g [[Hg1 Hg2] Hg]%list_elem_of_filter. destruct (Hpair g Hg) as [H|H]; [|done|].
    + intros ->. naive_solver.
    + exfalso. apply Hg1. change (klt (LargestKey g) lo). eapply (ko_trans CompareKeys); [exact H|].
      by eapply kle_klt_trans.
  - right. assert (klt hi (SmallestKey r)) as Hhi.
    { apply ko_gt. destruct (CompareKeys (SmallestKey r) hi) eqn:E; [exfalso; apply Hni; split; [split; [exact Hlo|congruence]|done]..|done]. }
    split; [done|]. intros g [[Hg1 Hg2] Hg]%list_elem_of_filter. destruct (Hpair g Hg) as [H|H]; [| |done].
    + intros ->. apply Hg2. by apply ko_gt.
    + exfalso. apply Hg2, ko_gt. change (klt hi (SmallestKey g)). eapply (ko_trans CompareKeys); [exact Hhi|].
      by eapply kle_klt_trans.
Qed.
