(* ===== verification/Lsm.v ===== *)
(** * The LSM tree (internal/lsm/lsm.go, write_stall.go)

    The tree is the directory with its manifest and cache ([env] of Compaction.v), the
    open readers, and the stall flag.  The bodies that run under [l.mu], or on one
    goroutine, are functions; LsmRefine.v interleaves flushes, compactions and lookups. *)

From S2P Require Import Prelude Order Keys Files Cache SSTable SkipList MemTable Manifest MergeIter Compaction Limits.
Import mvcc manifest compaction.

#[local] Open Scope Z_scope.

Module lsm.

Record LSMOptions := mkOpts {
  BlockSize : Z;
  BloomBitsPerKey : Z;
  BlockCacheSize : Z;
  CompactionRateMB : Z;
  L0StallTrigger : Z;
}.

Record LSMTree := mkLSM {
  lenv : env;
  readers : gmap Z sstable.Reader;
  opts : LSMOptions;
  compactCh : bool;
  stalled : bool;
  compact_stats : stats.CompactionStats;
  rateLimiter : option limiter.RateLimiter;
}.

Section tree.
Context (Sum128 : bytes -> Z * Z).
Context (CompressBlock : bytes -> option bytes) (UncompressBlock : bytes -> Z -> option bytes).

Definition set_env (e : env) (l : LSMTree) : LSMTree :=
  mkLSM e (readers l) (opts l) (compactCh l) (stalled l) (compact_stats l) (rateLimiter l).
Definition set_readers (r : gmap Z sstable.Reader) (l : LSMTree) : LSMTree :=
  mkLSM (lenv l) r (opts l) (compactCh l) (stalled l) (compact_stats l) (rateLimiter l).
Definition set_stalled (b : bool) (l : LSMTree) : LSMTree :=
  mkLSM (lenv l) (readers l) (opts l) (compactCh l) b (compact_stats l) (rateLimiter l).
Definition set_compactCh (b : bool) (l : LSMTree) : LSMTree :=
  mkLSM (lenv l) (readers l) (opts l) b (stalled l) (compact_stats l) (rateLimiter l).
Definition set_stats (s : stats.CompactionStats) (l : LSMTree) : LSMTree :=
  mkLSM (lenv l) (readers l) (opts l) (compactCh l) (stalled l) s (rateLimiter l).

Definition with_env {A} (op : st lsm_error env A) : st lsm_error LSMTree A := fun l =>
  let '(e, r) := op (lenv l) in (set_env e l, r).

Definition version (l : LSMTree) : Version := current (man (lenv l)).

(** ** Opening *)

Fixpoint open_readers (fs : list FileMetadata) (m : gmap Z sstable.Reader) : st lsm_error env (gmap Z sstable.Reader) :=
  match fs with
  | [] => mret m
  | f :: fs => r ← open_table (FileNum f); open_readers fs (<[FileNum f := r]> m)
  end.

(** On a directory with the tables [dir] and the manifest [data]. *)
Definition NewLSMTree (o : LSMOptions) (dir : gmap Z bytes) (data : bytes) : outcome lsm_error LSMTree :=
  m ← OpenManifest data [];
  let e := mkEnv dir m (Some (cache.NewBlockCache (BlockCacheSize o))) [] [] in
  let limit := if 0 <? CompactionRateMB o
               then limiter.NewRateLimiter (i64 (i64 (CompactionRateMB o * 1024) * 1024)) else None in
  match open_readers (concat (current m)) ∅ e with
  | (e, Ok rs) => Ok (mkLSM e rs o false false stats.zero_stats limit)
  | (_, Err x) => Err x
  | (_, Panic) => Panic
  | (_, Fuel) => Fuel
  end.

(** ** Write stalls *)

Definition l0_count (l : LSMTree) : Z := len (default [] (version l !! 0%nat)).

Definition CheckWriteStall (l : LSMTree) : LSMTree := set_stalled (L0StallTrigger (opts l) <=? l0_count l) l.

Definition ReleaseStall (l : LSMTree) : LSMTree := CheckWriteStall l.

Definition Stats (l : LSMTree) : stats.CompactionStatsSnapshot := stats.Snapshot (compact_stats l).

(** [WaitForStall] returns: it found the tree not stalled, at once or after it waited. *)
Definition WaitForStall (waitedMs : option Z) (l : LSMTree) : LSMTree :=
  match waitedMs with
  | Some d => set_stats (stats.RecordStall d (compact_stats l)) l
  | None => l
  end.

(** ** Flushing *)

(** The range and the number of the entries so far. *)
Record flush_acc := mkAcc { smallest : bytes; largest : bytes; numEntries : Z }.

(** [w.Add]; on an error the writer is closed and the error returned. *)
Definition add_or_close (num : Z) (w : sstable.Writer) (key : bytes) (val : option bytes) : st lsm_error env sstable.Writer := fun e =>
  let '(w', r) := sstable.Add Sum128 CompressBlock key val w in
  match with_writer num w (sstable.Add Sum128 CompressBlock key val) e with
  | (e, Err x) =>
      match with_writer num w' (sstable.Close CompressBlock) e with
      | (e, Panic) => (e, Panic)
      | (e, Fuel) => (e, Fuel)
      | (e, _) => (e, Err x)
      end
  | res => res
  end.

(** The loop over the memtable; the nodes of the skip list bound it. *)
Fixpoint flush_loop (fuel : nat) (s : skiplist.SkipList) (it : option nat) (num : Z) (w : sstable.Writer) (a : flush_acc)
    : st lsm_error env (sstable.Writer * flush_acc) :=
  if skiplist.Valid it then
    match fuel with
    | O => lift Fuel
    | S fuel =>
        e ← lift (no_error (skiplist.Entry s it));
        w ← add_or_close num w e.1 e.2;
        it ← lift (no_error (skiplist.Next s it));
        flush_loop fuel s it num w
          (mkAcc (if numEntries a =? 0 then e.1 else smallest a) e.1 (u64 (numEntries a + 1)))
    end
  else mret (w, a).

Definition table_size (num : Z) : st lsm_error env Z := fun e =>
  match sst e !! num with
  | Some data => (e, Ok (len data))
  | None => (e, Err ErrFile)
  end.

(** The part of [Flush] before the manifest is changed: the new file and its reader. *)
Definition flush_table (o : LSMOptions) (mt : memtable.MemTable) : st lsm_error env (FileMetadata * sstable.Reader) :=
  num ← with_manifest (fun m => let '(m, n) := NextFileNumber m in (m, Ok n));
  w ← new_writer (mkConfig (BlockSize o) (BloomBitsPerKey o) 0) num;
  it ← lift (no_error (skiplist.SeekToFirst (memtable.sl mt)));
  x ← flush_loop (skiplist.next_loc (memtable.sl mt)) (memtable.sl mt) it num w (mkAcc [] [] 0);
  let '(w, a) := x in
  with_writer num w (sstable.Close CompressBlock);;
  sz ← table_size num;
  r ← open_table num;
  mret (mkMeta 0 num sz (smallest a) (largest a) (numEntries a), r).

(** [Flush], once [WaitForStall] has returned. *)
Definition Flush (mt : memtable.MemTable) : st lsm_error LSMTree unit :=
  o ← gets opts;
  x ← with_env (flush_table o mt);
  let '(f, r) := x in
  modify (fun l => set_readers (<[FileNum f := r]> (readers l)) l);;
  with_env (with_manifest (Apply (mkEdit [f] [] 0)));;
  modify CheckWriteStall;;
  modify (set_compactCh true).

(** ** Lookup *)

(** Looks in the table of [f] if it has a reader. *)
Definition get_table (rs : gmap Z sstable.Reader) (f : FileMetadata) (key : bytes)
    : st lsm_error env (option (option bytes)) :=
  match rs !! FileNum f with
  | Some r => with_cache (sstable.Get Sum128 UncompressBlock r key)
  | None => mret None
  end.

(** The first table that has the key. *)
Fixpoint get_first (rs : gmap Z sstable.Reader) (fs : list FileMetadata) (key : bytes)
    : st lsm_error env (option (option bytes)) :=
  match fs with
  | [] => mret None
  | f :: fs =>
      x ← get_table rs f key;
      match x with Some v => mret (Some v) | None => get_first rs fs key end
  end.

(** The binary search of a level; the interval at least halves. *)
Fixpoint find_file (fuel : nat) (files : list FileMetadata) (key : bytes) (left right : Z)
    : outcome lsm_error (option FileMetadata) :=
  if left <=? right then
    match fuel with
    | O => Fuel
    | S fuel =>
        let mid := left + Z.quot (right - left) 2 in
        match files !! Z.to_nat mid with
        | None => Panic
        | Some f =>
            match CompareKeys key (SmallestKey f), CompareKeys key (LargestKey f) with
            | Lt, _ => find_file fuel files key left (mid - 1)
            | _, Gt => find_file fuel files key (mid + 1) right
            | _, _ => Ok (Some f)
            end
        end
    end
  else Ok None.

Fixpoint get_levels (rs : gmap Z sstable.Reader) (levels : list (list FileMetadata)) (key : bytes)
    : st lsm_error env (option (option bytes)) :=
  match levels with
  | [] => mret None
  | files :: levels =>
      target ← lift (find_file (length files) files key 0 (len files - 1));
      x ← (match target with Some f => get_table rs f key | None => mret None end);
      match x with Some v => mret (Some v) | None => get_levels rs levels key end
  end.

(** A lookup in the version [v] that was current when it began. *)
Definition get_in (v : Version) (rs : gmap Z sstable.Reader) (key : bytes) : st lsm_error env (option (option bytes)) :=
  match v with
  | [] => lift Panic
  | l0 :: levels =>
      x ← get_first rs (reverse l0) key;
      match x with Some v => mret (Some v) | None => get_levels rs levels key end
  end.

(** [Some v]: found, with [None] for a tombstone. *)
Definition Get (key : bytes) : st lsm_error LSMTree (option (option bytes)) := fun l =>
  with_env (get_in (version l) (readers l) key) l.

(** ** Compaction *)

Definition max_occupied (v : Version) : nat :=
  foldl (fun m i => match v !! i with Some (_ :: _) => i | _ => m end) 0%nat (seq 0 MaxLevels).

Definition compact_config (o : LSMOptions) : config := mkConfig (BlockSize o) (BloomBitsPerKey o) (TargetSize 1).

(** Readers for the tables of the output level that have none; a table that does not
    open is left out. *)
Fixpoint add_readers (fs : list FileMetadata) (rs : gmap Z sstable.Reader) : st lsm_error env (gmap Z sstable.Reader) :=
  match fs with
  | [] => mret rs
  | f :: fs =>
      match rs !! FileNum f with
      | Some _ => add_readers fs rs
      | None => fun e =>
          match open_table (FileNum f) e with
          | (e, Ok r) => add_readers fs (<[FileNum f := r]> rs) e
          | (e, Err _) => add_readers fs rs e
          | (e, Panic) => (e, Panic)
          | (e, Fuel) => (e, Fuel)
          end
      end
  end.

Definition remove_readers (fs : list FileMetadata) (rs : gmap Z sstable.Reader) : gmap Z sstable.Reader :=
  foldl (fun rs f => delete (FileNum f) rs) rs fs.

(** The readers after the compaction [c] was executed. *)
Definition swap_readers (c : Compaction) : st lsm_error LSMTree unit :=
  v ← gets version;
  rs ← gets readers;
  rs ← with_env (add_readers (default [] (v !! OutputLevel c)) (remove_readers (InputFiles0 c ++ InputFiles1 c) rs));
  modify (set_readers rs).

(** One iteration of [doCompaction]: [true] when it goes on.  A failed compaction is
    logged and tried again. *)
Definition compact_once (minActive : nat -> Z) (durationMs : Z) : st lsm_error LSMTree bool := fun l =>
  match PickCompaction (version l) with
  | Ok None => (l, Ok false)
  | Ok (Some c) =>
      match with_env (Execute Sum128 CompressBlock UncompressBlock (compact_config (opts l)) minActive c (max_occupied (version l))) l with
      | (l, Ok (bytesIn, bytesOut)) =>
          (modify (fun l => set_stats (stats.RecordCompaction bytesIn bytesOut durationMs (compact_stats l)) l);;
           swap_readers c;;
           modify CheckWriteStall;;
           mret true) l
      | (l, Err _) => (l, Ok true)
      | (l, Panic) => (l, Panic)
      | (l, Fuel) => (l, Fuel)
      end
  | Err x => (l, Err x)
  | Panic => (l, Panic)
  | Fuel => (l, Fuel)
  end.

(** [doCompaction]: at most [fuel] iterations. *)
Fixpoint compact_iter (fuel : nat) (minActive durationMs : nat -> Z) : st lsm_error LSMTree unit :=
  match fuel with
  | O => lift Fuel
  | S fuel =>
      go ← compact_once minActive (durationMs fuel);
      if (go : bool) then compact_iter fuel minActive durationMs else mret tt
  end.

Definition doCompaction (fuel : nat) (minActive durationMs : nat -> Z) : st lsm_error LSMTree unit :=
  modify (fun l => set_stats (stats.IncrPending (compact_stats l)) l);;
  compact_iter fuel minActive durationMs;;
  modify (fun l => set_stats (stats.DecrPending (compact_stats l)) l).

(** [Close], once the compaction loop has ended: the readers, which stay in the map, and
    the manifest are closed; the flag is the error of the manifest's file. *)
Definition Close (l : LSMTree) : LSMTree * bool :=
  let '(m, failed) := manifest.Close (man (lenv l)) in
  (set_env (mkEnv (sst (lenv l)) m (bcache (lenv l)) (ofaults (lenv l)) (requests (lenv l))) l, failed).

End tree.
End lsm.
Import lsm.
