(* ===== verification/LsmSpec.v ===== *)
(** * What the tree stores

    Under the invariant [lsm_ok] a lookup answers with the first table, in the order of
    the search, that has the key.  A flush puts the memtable in front of the tables; a
    compaction changes no answer, provided tables of the first level that share a key
    agree on it, which is shown to be needed. *)

From S2P Require Import Prelude Order Keys Files Bloom Cache SSTable SSTableSpec SkipList MemTable Manifest Heap MergeIter.
From S2P Require Import Compaction CompactionSpec Limits Levels Lsm.
Import mvcc manifest compaction lsm.

#[local] Open Scope Z_scope.

(** ** Keys of sorted lists *)

Lemma sorted_first (l : list kv) k : ksorted CompareKeys l -> k ∈ l.*1 -> kle (first_key l) k.
Proof.
  destruct l as [|[k0 v0] l]; [by intros _ ?%elem_of_nil|]. intros [_ Hk]%ksorted_cons [->|Hin]%elem_of_cons; [apply kle_refl|].
  by apply klt_kle, Hk.
Qed.

Lemma sorted_last (l : list kv) k : ksorted CompareKeys l -> k ∈ l.*1 -> kle k (last_key l).
Proof.
  destruct l as [|[k0 v0] l _] using rev_ind; [by intros _ ?%elem_of_nil|]. intros (_ & _ & Hk)%ksorted_app_inv Hin.
  rewrite last_key_app. rewrite fmap_app in Hin. apply elem_of_app in Hin as [Hin|Hin].
  - apply klt_kle, Hk; [done|left].
  - apply list_elem_of_singleton in Hin as ->. apply kle_refl.
Qed.

Lemma first_key_in (l : list kv) : l <> [] -> first_key l ∈ l.*1.
Proof. destruct l; [done|]. left. Qed.

Lemma last_key_elem (l : list kv) : l <> [] -> last_key l ∈ l.*1.
Proof.
  destruct l as [|x l _] using rev_ind; [done|]. intros _. rewrite last_key_app, fmap_app. apply elem_of_app. right. left.
Qed.

Lemma Forall2_map_eq {A B} (g : A -> B) xs ys : Forall2 (fun x y => g x = y) xs ys -> map g xs = ys.
Proof. induction 1; cbn; congruence. Qed.

Section tree.
Context (Sum128 : bytes -> Z * Z).
Context (CompressBlock : bytes -> option bytes) (UncompressBlock : bytes -> Z -> option bytes).
Context `{!Lz4 CompressBlock UncompressBlock}.

Abbreviation table_bytes := (SSTableSpec.table_bytes CompressBlock).
Abbreviation table_reader := (SSTableSpec.table_reader CompressBlock).
Abbreviation table_ok := (SSTableSpec.table_ok Sum128 CompressBlock).
Abbreviation coherent := (SSTableSpec.coherent CompressBlock).
Abbreviation store_ok := (CompactionSpec.store_ok CompressBlock).
Abbreviation has_table := (CompactionSpec.has_table Sum128 CompressBlock).

(** ** The invariant *)

(** The order in which a lookup searches the files. *)
Definition search_order (v : Version) : list FileMetadata := reverse (default [] (head v)) ++ concat (tail v).

Definition tables (T : catalog) (fs : list FileMetadata) : list (list kv) := map (fun f => tab T (FileNum f)) fs.

Lemma search_order_perm v : search_order v ≡ₚ concat v.
Proof. destruct v as [|l0 ls]; [done|]. unfold search_order. cbn [head tail default from_option id concat]. by rewrite reverse_Permutation. Qed.

Lemma tables_app T fs gs : tables T (fs ++ gs) = tables T fs ++ tables T gs.
Proof. apply map_app. Qed.

(** What the tree stores. *)
Definition stored (T : catalog) (v : Version) (k : bytes) : option (option bytes) :=
  first_assoc CompareKeys k (tables T (search_order v)).

(** A file with its table, on disk and open. *)
Record file_ok (T : catalog) (e : env) (rs : gmap Z sstable.Reader) (bs : Z) (f : FileMetadata) : Prop := {
  fo_table : exists B bf n, T (FileNum f) = Some B /\ sst e !! FileNum f = Some (table_bytes B bf n) /\ table_ok B bf n /\
    rs !! FileNum f = Some (table_reader B bf n (FileNum f));
  fo_small : SmallestKey f = first_key (tab T (FileNum f));
  fo_large : LargestKey f = last_key (tab T (FileNum f));
  fo_num : FileNum f < nextFileNum (man e);
  fo_fits : Forall (fits bs) (tab T (FileNum f));
}.

Definition opts_ok (o : LSMOptions) : Prop := 0 < BlockSize o /\ 10000 * Z.max 1 (BloomBitsPerKey o) < 2 ^ 32 - 7.

Record lsm_ok (T : catalog) (l : LSMTree) : Prop := {
  lo_store : store_ok T (lenv l);
  lo_levels : length (version l) = MaxLevels;
  lo_files : forall f, f ∈ concat (version l) -> file_ok T (lenv l) (readers l) (BlockSize (opts l)) f;
  lo_nums : NoDup (map FileNum (concat (version l)));
  lo_sorted : Forall lv_sorted (tail (version l));
  lo_some : forall f, f ∈ concat (tail (version l)) -> tab T (FileNum f) <> [];
  lo_faults : ofaults (lenv l) = [] /\ faults (mfile (man (lenv l))) = [];
  lo_opts : opts_ok (opts l);
  lo_next : 0 <= nextFileNum (man (lenv l));
  lo_readers : forall num r, readers l !! num = Some r -> num < nextFileNum (man (lenv l));
}.

Lemma file_sorted T e rs bs f : file_ok T e rs bs f -> ksorted CompareKeys (tab T (FileNum f)).
Proof. intros [(B & bf & n & HT & _ & Hok & _) _ _ _ _]. unfold tab. rewrite HT. apply Hok. Qed.

Lemma file_range T e rs bs f k :
  file_ok T e rs bs f -> k ∈ (tab T (FileNum f)).*1 -> kle (SmallestKey f) k /\ kle k (LargestKey f).
Proof.
  intros Hf Hk. pose proof (file_sorted _ _ _ _ _ Hf) as Hs. destruct Hf as [_ -> -> _ _].
  split; [by apply sorted_first|by apply sorted_last].
Qed.

Lemma file_has_table T e rs bs f : file_ok T e rs bs f -> has_table T e (FileNum f).
Proof. intros [(B & bf & n & HT & Hs & Hok & _) _ _ _ _]. by exists B, bf, n. Qed.

(** A lookup fills the cache and changes nothing else. *)
Lemma file_ok_cache T e rs bs f c : file_ok T e rs bs f -> file_ok T (set_cache c e) rs bs f.
Proof. by intros [H1 H2 H3 H4 H5]; split. Qed.

Lemma lsm_ok_cache T l c :
  lsm_ok T l -> coherent c T -> lsm_ok T (set_env (set_cache c (lenv l)) l).
Proof.
  intros [[Hfr Hco] H2 H3 H4 H5 H6 H7 H8 H9 H10] Hc. split; try done.
  intros f Hf. by apply file_ok_cache, H3.
Qed.

(** ** Lookup *)

Lemma get_table_ok T e rs bs f key :
  file_ok T e rs bs f -> coherent (bcache e) T ->
  exists c, get_table Sum128 UncompressBlock rs f key e = (set_cache c e, Ok (assoc CompareKeys key (tab T (FileNum f)))) /\
    coherent c T.
Proof.
  intros [(B & bf & n & HT & _ & Hok & Hr) _ _ _ _] Hc. unfold get_table. rewrite Hr.
  destruct (Get_table Sum128 CompressBlock UncompressBlock B bf n (FileNum f) key (bcache e) T Hok HT Hc) as (c & E & Hc').
  exists c. split; [|done]. unfold tab. rewrite HT. by apply with_cache_ok.
Qed.

Lemma get_first_ok T rs bs key fs : forall e,
  (forall f, f ∈ fs -> file_ok T e rs bs f) -> coherent (bcache e) T ->
  exists c, get_first Sum128 UncompressBlock rs fs key e = (set_cache c e, Ok (first_assoc CompareKeys key (tables T fs))) /\
    coherent c T.
Proof.
  induction fs as [|f fs IH]; intros e Hf Hc.
  { exists (bcache e). split; [by destruct e|done]. }
  destruct (get_table_ok T e rs bs f key (Hf f (list_elem_of_here _ _)) Hc) as (c & E & Hc'). cbn [get_first].
  erewrite st_bind_ok by exact E. cbn [tables map first_assoc]. destruct (assoc _ _ _) as [v|]; [by exists c|].
  destruct (IH (set_cache c e)) as (c2 & E2 & Hc2); [|done|by exists c2].
  intros g Hg. apply file_ok_cache, Hf. by right.
Qed.

(** The binary search. *)
Lemma find_file_ok key files : forall fuel left right,
  lv_sorted files -> 0 <= left -> right < len files -> right - left < Z.of_nat fuel ->
  (forall i f, files !! i = Some f -> Z.of_nat i < left -> klt (LargestKey f) key) ->
  (forall i f, files !! i = Some f -> right < Z.of_nat i -> klt key (SmallestKey f)) ->
  exists r, find_file fuel files key left right = Ok r /\
    match r with
    | Some f => f ∈ files /\ kle (SmallestKey f) key /\ kle key (LargestKey f)
    | None => forall f, f ∈ files -> klt (LargestKey f) key \/ klt key (SmallestKey f)
    end.
Proof.
  induction fuel as [|fuel IH]; intros left right Hs Hl Hr Hfuel Hlo Hhi.
  - exists None. cbn. rewrite (proj2 (Z.leb_gt _ _)) by lia. split; [done|].
    intros f [i Hi]%list_elem_of_lookup. destruct (Z.lt_ge_cases (Z.of_nat i) left); [left; eauto|right; eapply Hhi; [done|lia]].
  - cbn [find_file]. destruct (Z.leb_spec left right) as [Hle|Hgt].
    2:{ exists None. split; [done|]. intros f [i Hi]%list_elem_of_lookup.
        destruct (Z.lt_ge_cases (Z.of_nat i) left); [left; eauto|right; eapply Hhi; [done|lia]]. }
    set (mid := left + Z.quot (right - left) 2). assert (left <= mid <= right) as Hmid.
    { unfold mid. rewrite Z.quot_div_nonneg by lia. pose proof (Z.div_le_upper_bound (right - left) 2 (right - left)).
      pose proof (Z.div_pos (right - left) 2). lia. }
    destruct (lookup_lt_is_Some_2 files (Z.to_nat mid)) as [f Hf]; [unfold len in Hr; lia|]. rewrite Hf.
    pose proof (list_elem_of_lookup_2 _ _ _ Hf) as Hin. pose proof (lv_sorted_range _ _ Hs Hin) as Hrf.
    destruct (CompareKeys key (SmallestKey f)) eqn:E1.
    2:{ apply IH; [done|done|lia|lia|done|]. intros i g Hi Hlt. destruct (decide (i = Z.to_nat mid)) as [->|Hne]; [naive_solver|].
        eapply (ko_trans CompareKeys); [exact E1|]. eapply kle_klt_trans; [exact Hrf|].
        eapply (lv_sorted_lookup files (Z.to_nat mid) i); [done..|lia]. }
    all: destruct (CompareKeys key (LargestKey f)) eqn:E2.
    3,6: (apply IH; [done|lia|done|lia| |done]; intros i g Hi Hlt; apply ko_gt in E2;
      destruct (decide (i = Z.to_nat mid)) as [->|Hne]; [naive_solver|];
      eapply (ko_trans CompareKeys); [|exact E2]; eapply (klt_kle_trans (cmp := CompareKeys)); [|exact Hrf];
      eapply (lv_sorted_lookup files i (Z.to_nat mid)); [done..|lia]).
    all: exists (Some f); split; [done|]; split; [done|]; unfold Order.kle; rewrite ?E2;
      (split; [|done]); rewrite (ko_opp CompareKeys key (SmallestKey f)), E1; done.
Qed.

(** In a level at most one file has the key. *)
Lemma level_target T e rs bs key files f :
  (forall f, f ∈ files -> file_ok T e rs bs f) -> lv_sorted files -> f ∈ files -> kle (SmallestKey f) key -> kle key (LargestKey f) ->
  first_assoc CompareKeys key (tables T files) = assoc CompareKeys key (tab T (FileNum f)).
Proof.
  intros Hf Hs Hin Hlo Hhi.
  assert (forall g, g ∈ files -> key ∈ (tab T (FileNum g)).*1 -> g = f) as Hone.
  { intros g Hg Hk. destruct (file_range _ _ _ _ _ _ (Hf g Hg) Hk) as [G1 G2].
    destruct (lv_sorted_pair files f g Hs Hin Hg) as [->|[H|H]]; [done|exfalso..];
      apply (klt_irrefl (cmp := CompareKeys) key).
    - eapply kle_klt_trans; [exact Hhi|]. by eapply klt_kle_trans.
    - eapply kle_klt_trans; [exact G2|]. by eapply klt_kle_trans. }
  destruct (assoc CompareKeys key (tab T (FileNum f))) as [v|] eqn:Ea.
  - destruct (first_assoc_find (cmp := CompareKeys) key (tab T (FileNum f)) v (tables T files)) as [v' Hv']; [by apply (list_elem_of_fmap_2 (fun f => tab T (FileNum f)))|done|].
    rewrite Hv'. apply first_assoc_from in Hv' as (l & (g & -> & Hg)%list_elem_of_fmap & Hl).
    assert (g = f) as -> by (apply Hone; [done|by eapply assoc_in]). congruence.
  - apply first_assoc_none. intros l (g & -> & Hg)%list_elem_of_fmap Hk.
    assert (g = f) as -> by auto. by apply assoc_not_in in Ea.
Qed.

Lemma level_none T e rs bs key files :
  (forall f, f ∈ files -> file_ok T e rs bs f) -> (forall f, f ∈ files -> klt (LargestKey f) key \/ klt key (SmallestKey f)) ->
  first_assoc CompareKeys key (tables T files) = None.
Proof.
  intros Hf Hn. apply first_assoc_none. intros l (g & -> & Hg)%list_elem_of_fmap Hk.
  destruct (file_range _ _ _ _ _ _ (Hf g Hg) Hk) as [G1 G2].
  destruct (Hn g Hg) as [H|H]; by apply not_klt in H.
Qed.

Lemma get_levels_ok T rs bs key levels : forall e,
  (forall f, f ∈ concat levels -> file_ok T e rs bs f) -> Forall lv_sorted levels -> coherent (bcache e) T ->
  exists c, get_levels Sum128 UncompressBlock rs levels key e =
      (set_cache c e, Ok (first_assoc CompareKeys key (tables T (concat levels)))) /\ coherent c T.
Proof.
  induction levels as [|files levels IH]; intros e Hf Hs Hc.
  { exists (bcache e). split; [by destruct e|done]. }
  apply Forall_cons in Hs as [Hs1 Hs]. cbn [concat] in Hf. setoid_rewrite elem_of_app in Hf.
  cbn [get_levels]. destruct (find_file_ok key files (length files) 0 (len files - 1)) as (r & Er & Hr);
    [done|lia|lia|unfold len; lia|lia| |].
  { intros i f Hi Hlt. apply lookup_lt_Some in Hi. unfold len in Hlt. lia. }
  erewrite st_bind_ok by (unfold lift; by rewrite Er). cbn [concat]. rewrite tables_app, first_assoc_app.
  assert (exists c, (match r with Some f => get_table Sum128 UncompressBlock rs f key | None => mret None end) e =
    (set_cache c e, Ok (first_assoc CompareKeys key (tables T files))) /\ coherent c T) as (c & E & Hc').
  { destruct r as [f|].
    - destruct Hr as (Hin & H1 & H2). rewrite (level_target T e rs bs key files f) by eauto.
      apply (get_table_ok T e rs bs); [by apply Hf; left|done].
    - rewrite (level_none T e rs bs key files) by eauto. exists (bcache e). split; [by destruct e|done]. }
  erewrite st_bind_ok by exact E. destruct (first_assoc CompareKeys key (tables T files)) as [v|]; [by exists c|].
  destruct (IH (set_cache c e)) as (c2 & E2 & Hc2); [|done|done|by exists c2].
  intros g Hg. apply file_ok_cache, Hf. by right.
Qed.

Lemma Get_lsm_ok T l key :
  lsm_ok T l -> exists c, Get Sum128 UncompressBlock key l =
    (set_env (set_cache c (lenv l)) l, Ok (stored T (version l) key)) /\ coherent c T.
Proof.
  intros [[_ Hc] Hlen Hf _ Hs _ _ _ _ _]. unfold Get, with_env, stored, search_order.
  destruct (version l) as [|l0 levels]; [done|]. cbn [head tail default from_option id get_in] in *.
  cbn [concat] in Hf. setoid_rewrite elem_of_app in Hf.
  destruct (get_first_ok T (readers l) (BlockSize (opts l)) key (reverse l0) (lenv l)) as (c & E & Hc');
    [intros f Hin; rewrite elem_of_reverse in Hin; auto|done|].
  erewrite st_bind_ok by exact E. rewrite tables_app, first_assoc_app.
  destruct (first_assoc _ _ (tables T (reverse l0))) as [v|]; [by exists c|].
  destruct (get_levels_ok T (readers l) (BlockSize (opts l)) key levels (set_cache c (lenv l))) as (c2 & E2 & Hc2);
    [intros f Hin; apply file_ok_cache; auto|done|done|]. exists c2. by rewrite E2.
Qed.

(** ** Flushing *)

(** The entries of a memtable, in key order. *)
Definition listed (mt : memtable.MemTable) (es : list kv) : Prop :=
  exists ls, sl_inv (memtable.sl mt) ls /\ entries (memtable.sl mt) ls = es.

(** A step that writes the file [num] and nothing else. *)
Record only_wrote (num : Z) (e e' : env) : Prop := {
  ow_sst : forall k, k <> num -> sst e' !! k = sst e !! k;
  ow_man : man e' = man e;
  ow_cache : bcache e' = bcache e;
  ow_faults : ofaults e' = [];
}.

Definition acc_of (es : list kv) : flush_acc := mkAcc (first_key es) (last_key es) (len es).

Lemma flush_loop_ok s num bs : forall fuel it es w done e,
  0 < bs -> collect fuel s it = Ok es -> wrote Sum128 CompressBlock w done -> sstable.blockSize w = bs ->
  Forall (fits bs) (done ++ es) -> len (blk_data (done ++ es)) < 2 ^ 40 -> ofaults e = [] ->
  exists e' w', flush_loop Sum128 CompressBlock fuel s it num w (acc_of done) e = (e', Ok (w', acc_of (done ++ es))) /\
    wrote Sum128 CompressBlock w' (done ++ es) /\ sstable.blockSize w' = bs /\ only_wrote num e e'.
Proof.
  induction fuel as [|fuel IH]; intros it es w done e Hbs Hc Hw Hb Hfit Hlen Hof.
  { destruct it; [done|]. injection Hc as <-. exists e, w. rewrite app_nil_r in *. by split_and!. }
  destruct it as [l|]; cbn [collect skiplist.Valid] in Hc.
  2:{ injection Hc as <-. exists e, w. rewrite app_nil_r in *. by split_and!. }
  cbn [flush_loop skiplist.Valid]. destruct (skiplist.Entry s (Some l)) as [[k v]| | |]; [|done..]. cbn [mbind outcome_bind] in Hc.
  destruct (skiplist.Next s (Some l)) as [it'| | |]; [|done..]. cbn [mbind outcome_bind] in Hc.
  destruct (collect fuel s it') as [es'| | |] eqn:Ec; [|done..]. injection Hc as <-.
  replace (done ++ (k, v) :: es') with ((done ++ [(k, v)]) ++ es') in * by (by rewrite <- (assoc_L (++))).
  erewrite st_bind_ok by reflexivity. cbn [fst snd].
  pose proof (len_blk_data_app (done ++ [(k, v)]) es') as Hl. pose proof (len_nonneg (blk_data es')).
  destruct (Add_wrote Sum128 CompressBlock UncompressBlock w done k v) as (w' & Ea & Hw' & Hb');
    [congruence|apply Forall_app in Hfit as [Hfit _]; apply Forall_app in Hfit as [_ Hfit]; rewrite Forall_singleton in Hfit; congruence|done|lia|].
  set (e1 := mkEnv (<[num := fdata (sstable.file w')]> (sst e)) (man e) (bcache e) (faults (sstable.file w')) (requests e)).
  assert (add_or_close Sum128 CompressBlock num w k v e = (e1, Ok w')) as E1.
  { unfold add_or_close, with_writer. by rewrite Ea. }
  erewrite st_bind_ok by exact E1. erewrite st_bind_ok by reflexivity.
  assert (mkAcc (if numEntries (acc_of done) =? 0 then k else smallest (acc_of done)) k (u64 (numEntries (acc_of done) + 1))
    = acc_of (done ++ [(k, v)])) as ->.
  { unfold acc_of. cbn [numEntries smallest]. rewrite first_key_app, last_key_app, len_app. f_equal.
    - destruct (decide (done = [])) as [->|Hne]; [done|]. rewrite (proj2 (Z.eqb_neq _ _)); [done|].
      destruct done; [done|]. rewrite len_cons. pose proof (len_nonneg done). lia.
    - apply Z.mod_small. pose proof (length_blk_data (done ++ [(k, v)])) as Hn. rewrite length_app in Hn. unfold len in *. cbn in Hn |- *. lia. }
  destruct (IH it' es' w' (done ++ [(k, v)]) e1) as (e' & w2 & E' & Hw2 & Hb2 & [O1 O2 O3 O4]);
    [done|done|done|congruence|done|done|by eapply wrote_faults|].
  exists e', w2. split_and!; [done|done|done|]. split; rewrite ?O2, ?O3; try done.
  intros k' Hk'. rewrite O1 by done. cbn. by rewrite lookup_insert_ne.
Qed.

(** The new file: its table, number, range and reader. *)
Record flushed (e : env) (es : list kv) (bs : Z) (e' : env) (f : FileMetadata) (r : sstable.Reader) : Prop := {
  fl_table : exists B bf n, sst e' !! FileNum f = Some (table_bytes B bf n) /\ table_ok B bf n /\ concat B = es /\
    r = table_reader B bf n (FileNum f);
  fl_num : FileNum f = nextFileNum (man e);
  fl_small : SmallestKey f = first_key es;
  fl_large : LargestKey f = last_key es;
  fl_level : Level f = 0;
  fl_next : nextFileNum (man e') = nextFileNum (man e) + 1;
  fl_current : current (man e') = current (man e);
  fl_mfile : mfile (man e') = mfile (man e);
  fl_cache : bcache e' = bcache e;
  fl_faults : ofaults e' = [];
  fl_old : forall k, k <> nextFileNum (man e) -> sst e' !! k = sst e !! k;
}.

Lemma flush_table_ok o mt es e :
  listed mt es -> opts_ok o -> Forall (fits (BlockSize o)) es -> len (blk_data es) < 2 ^ 40 ->
  ofaults e = [] -> 0 <= nextFileNum (man e) < 2 ^ 64 - 1 ->
  exists e' f r, flush_table Sum128 CompressBlock o mt e = (e', Ok (f, r)) /\ flushed e es (BlockSize o) e' f r.
Proof.
  intros (ls & Hsl & <-) [Hbs Hbits] Hfit Hlen Hof Hn. set (es := entries (memtable.sl mt) ls) in *.
  pose proof (proj1 (sorted_entries _ _) (inv_sorted _ _ Hsl)) as Hs. fold es in Hs. set (num := nextFileNum (man e)).
  unfold flush_table. erewrite st_bind_ok by reflexivity. unfold new_writer.
  erewrite st_bind_ok by (cbn [ofaults]; rewrite Hof; reflexivity). fold num. cbn [man sst NextFileNumber nextFileNum mfile current bcache requests].
  destruct (iterate_all _ _ Hsl) as (it & E1 & E2). erewrite st_bind_ok by (rewrite E1; reflexivity).
  set (e1 := mkEnv _ _ _ _ _).
  destruct (flush_loop_ok (memtable.sl mt) num (BlockSize o) _ _ _ (sstable.NewWriter [] (BlockSize o) (BloomBitsPerKey o)) [] e1 Hbs E2)
    as (e2 & w & E3 & Hw & Hb & [O1 O2 O3 O4]); [by apply NewWriter_wrote|done..|].
  cbn [app] in *. erewrite st_bind_ok by exact E3. cbv beta iota.
  destruct (Close_wrote Sum128 CompressBlock UncompressBlock (BlockSize o) w es) as (w' & B & Ec & Hfw & Hd & Hok & Hcat); [done..|].
  erewrite st_bind_ok by (unfold with_writer; rewrite Ec; reflexivity).
  erewrite st_bind_ok by (unfold table_size; cbn [sst]; rewrite lookup_insert_eq; reflexivity).
  erewrite st_bind_ok.
  2:{ unfold open_table. cbn [sst]. rewrite lookup_insert_eq, Hd, (OpenReader_ok Sum128 CompressBlock UncompressBlock) by done. reflexivity. }
  eexists _, _, _. split; [reflexivity|]. split; cbn [FileNum SmallestKey LargestKey Level man bcache ofaults sst]; try done.
  - exists B, (sstable.wbloom w), (sstable.entryCount w). rewrite lookup_insert_eq. done.
  - rewrite O2. cbn. apply Z.mod_small. lia.
  - by rewrite O2.
  - by rewrite O2.
  - intros k Hk. rewrite lookup_insert_ne by done. rewrite O1 by done. cbn. by rewrite lookup_insert_ne.
Qed.

(** A file is not affected by what happens to other files. *)
Lemma file_ok_frame T T' e e' rs rs' bs f :
  file_ok T e rs bs f -> T' (FileNum f) = T (FileNum f) -> sst e' !! FileNum f = sst e !! FileNum f ->
  rs' !! FileNum f = rs !! FileNum f -> nextFileNum (man e) <= nextFileNum (man e') -> file_ok T' e' rs' bs f.
Proof.
  intros [(B & bf & n & H1 & H2 & H3 & H4) F2 F3 F4 F5] HT Hs Hr Hn.
  assert (tab T' (FileNum f) = tab T (FileNum f)) as Ht by (unfold tab; by rewrite HT).
  split; rewrite ?Ht; try done; [|lia]. exists B, bf, n. by rewrite HT, Hs, Hr.
Qed.

Lemma tables_frame T T' fs : (forall f, f ∈ fs -> T' (FileNum f) = T (FileNum f)) -> tables T' fs = tables T fs.
Proof.
  intros H. apply list_fmap_ext. intros i f Hi. unfold tab. rewrite H; [done|]. by eapply list_elem_of_lookup_2.
Qed.

Lemma sorted_levels_fixed ls : Forall lv_sorted ls -> map SortBySmallestKey ls = ls.
Proof. induction 1 as [|fs ls Hs Hls IH]; [done|]. cbn. by rewrite sort_sorted, IH. Qed.

Lemma flush_version m f l0 ls :
  Level f = 0 -> current m = l0 :: ls -> Forall lv_sorted ls -> length (current m) = MaxLevels ->
  faults (mfile m) = [] ->
  exists m', Apply (mkEdit [f] [] 0) m = (m', Ok tt) /\ current m' = (l0 ++ [f]) :: ls /\
    nextFileNum m' = Z.max (nextFileNum m) 0 /\ faults (mfile m') = [].
Proof.
  intros Hf Hc Hs Hlen Hfa.
  assert (levels_ok (mkEdit [f] [] 0)) as Hl by (split; cbn [DeletedFiles AddedFiles]; [constructor|apply Forall_singleton; unfold MaxLevels; lia]).
  destruct (Apply_ok m _ Hl Hlen Hfa) as (m' & mf & E & Ha & _ & Hfa' & _). exists m'. split; [done|].
  destruct (applyEditToMemory_ok m _ Hl Hlen) as (m2 & E2 & _ & _ & Hn). rewrite E2 in Ha. injection Ha as ->.
  split_and!; [|done|done]. unfold applyEditToMemory in E2. cbn [DeletedFiles AddedFiles fold_out] in E2. cbn [mbind outcome_bind] in E2.
  assert (add_file (current m) f = Ok ((l0 ++ [f]) :: ls)) as Hadd by (unfold add_file; by rewrite Hf, Hc).
  rewrite Hadd in E2. cbn [mbind outcome_bind] in E2. rewrite sort_levels_cons, sorted_levels_fixed in E2 by done.
  by injection E2 as <-.
Qed.

Lemma Flush_lsm_ok T l mt es :
  lsm_ok T l -> listed mt es -> Forall (fits (BlockSize (opts l))) es -> len (blk_data es) < 2 ^ 40 ->
  nextFileNum (man (lenv l)) < 2 ^ 64 - 1 ->
  exists T' l', Flush Sum128 CompressBlock mt l = (l', Ok tt) /\ lsm_ok T' l' /\
    tables T' (search_order (version l')) = es :: tables T (search_order (version l)) /\
    l0_count l' = l0_count l + 1 /\ stalled l' = (L0StallTrigger (opts l) <=? l0_count l') /\ compactCh l' = true /\
    opts l' = opts l /\ nextFileNum (man (lenv l')) = nextFileNum (man (lenv l)) + 1.
Proof.
  intros [[Hfr Hco] Hlen Hf Hnd Hs Hsome [Hof Hmf] Hopt Hn0 Hrd] Hmt Hfit Hsz Hn.
  destruct (flush_table_ok (opts l) mt es (lenv l)) as (e1 & f & r & E1 & [(B & bf & n & Hd & Hok & Hcat & Hr) Hnum Hsm Hla Hlv Hnx Hcu Hmfi Hca Hfa Hold]);
    [done..|lia|]. subst r. set (num := nextFileNum (man (lenv l))) in *.
  unfold version in *. destruct (current (man (lenv l))) as [|l0 ls] eqn:Ecur; [done|]. cbn [tail head concat] in *.
  destruct (flush_version (man e1) f l0 ls Hlv Hcu Hs) as (m2 & E2 & Hc2 & Hn2 & Hf2); [by rewrite Hcu|congruence|].
  set (rs := <[FileNum f := table_reader B bf n (FileNum f)]> (readers l)).
  set (e2 := mkEnv (sst e1) m2 (bcache e1) (ofaults e1) (requests e1)).
  set (l2 := set_env e2 (set_readers rs (set_env e1 l))). exists (upd T num B), (set_compactCh true (CheckWriteStall l2)).
  assert (forall g, g ∈ l0 ++ concat ls -> FileNum g <> num) as Hne.
  { intros g Hg. destruct (Hf g Hg) as [_ _ _ Hlt _]. unfold num. lia. }
  assert (forall g, g ∈ l0 ++ concat ls -> upd T num B (FileNum g) = T (FileNum g)) as Hupd by (intros; apply upd_ne; auto).
  split.
  { unfold Flush. erewrite st_bind_ok by reflexivity. erewrite st_bind_ok by (unfold with_env; rewrite E1; reflexivity).
    cbv beta iota. erewrite st_bind_ok by reflexivity.
    erewrite st_bind_ok by (unfold with_env, with_manifest; cbn [lenv set_readers set_env]; rewrite E2; reflexivity). reflexivity. }
  split.
  - split; unfold version; cbn [lenv set_compactCh CheckWriteStall set_stalled l2 set_env set_readers readers opts e2 man bcache ofaults];
      rewrite ?Hc2; cbn [tail concat head].
    + split; cbn [man bcache e2 lenv]; [|rewrite Hca; apply coherent_upd; [done|by apply Hfr]].
      intros k Hk. rewrite upd_ne by lia. apply Hfr. lia.
    + done.
    + intros g Hg. rewrite <- (assoc_L (++)) in Hg. apply elem_of_app in Hg as [Hg|Hg]; [|apply elem_of_cons in Hg as [->|Hg]].
      1,3: assert (g ∈ l0 ++ concat ls) as Hin by (apply elem_of_app; auto); specialize (Hne g Hin);
        apply (file_ok_frame T _ (lenv l) _ (readers l) _ _ g (Hf g Hin)); cbn [sst e2 man nextFileNum];
        [by apply Hupd|by apply Hold|unfold rs; rewrite lookup_insert_ne; [done|congruence]|lia].
      assert (tab (upd T num B) (FileNum f) = es) as Ht by (unfold tab; rewrite Hnum, upd_eq; exact Hcat).
      split; rewrite ?Ht; cbn [sst e2 man]; [|done|done|lia|done]. exists B, bf, n. rewrite Hnum, upd_eq. unfold rs.
      rewrite Hnum, lookup_insert_eq. rewrite Hnum in Hd. done.
    + rewrite <- (assoc_L (++)), map_app. cbn [app map]. rewrite <- Permutation_middle, <- map_app. apply NoDup_cons.
      split; [|done]. intros (g & Hg & Hin)%list_elem_of_fmap. apply (Hne g Hin). congruence.
    + done.
    + intros g Hg. unfold tab. rewrite Hupd; [by apply Hsome|apply elem_of_app; auto].
    + done.
    + done.
    + lia.
    + intros k r [[<- _]|[_ Hk%Hrd]]%lookup_insert_Some; lia.
  - unfold version, l0_count, version. cbn [lenv set_compactCh CheckWriteStall set_stalled l2 set_env set_readers opts e2 man stalled compactCh].
    rewrite ?Hc2, ?Ecur. cbn [lookup list_lookup default from_option id]. rewrite len_app.
    split_and!; try done; [|unfold l0_count, version; cbn; rewrite Hc2; cbn; by rewrite len_app|lia].
    unfold search_order. cbn [head tail default from_option id]. rewrite reverse_app. cbn [reverse app]. unfold tables.
    change (reverse [f]) with [f]. cbn [app map]. f_equal; [unfold tab; rewrite Hnum, upd_eq; exact Hcat|].
    apply tables_frame. intros g Hg. apply Hupd. rewrite elem_of_app, elem_of_reverse in Hg. by apply elem_of_app.
Qed.

(** ** Compaction *)

(** The version around the levels of a compaction. *)
Definition above (pre : Version) : list FileMetadata :=
  match pre with [] => [] | l0 :: ls => reverse l0 ++ concat ls end.
Definition in_order (pre : Version) (p : list FileMetadata) : list FileMetadata :=
  match pre with [] => reverse p | _ => p end.

Lemma search_order_app pre p rest : search_order (pre ++ p :: rest) = above pre ++ in_order pre p ++ concat rest.
Proof.
  destruct pre as [|l0 ls]; [done|]. unfold search_order. cbn [app head tail default from_option id above in_order].
  rewrite concat_app. cbn [concat]. by rewrite <- (assoc_L (++)).
Qed.

Lemma in_order_elem pre p f : f ∈ in_order pre p <-> f ∈ p.
Proof. destruct pre; cbn [in_order]; [|done]. by rewrite elem_of_reverse. Qed.

Lemma sort_levels_swap pre p x post :
  Forall lv_sorted (tail (pre ++ [p])) -> Forall lv_sorted post ->
  sort_levels (pre ++ p :: x :: post) = pre ++ p :: SortBySmallestKey x :: post.
Proof.
  destruct pre as [|l0 ls]; cbn [app tail]; rewrite sort_levels_cons.
  - intros _ Hp. cbn [map]. by rewrite (sorted_levels_fixed post).
  - intros Hs Hp. apply Forall_app in Hs as [Hls Hs]. rewrite Forall_singleton in Hs.
    rewrite map_app. cbn [map]. by rewrite (sorted_levels_fixed ls), (sorted_levels_fixed post), sort_sorted.
Qed.

Lemma level_split (v : Version) i p q : v !! i = Some p -> v !! S i = Some q -> v = take i v ++ p :: q :: drop (S (S i)) v.
Proof.
  intros Hp Hq. rewrite <- (take_drop_middle _ _ _ Hp) at 1. f_equal. f_equal.
  rewrite <- (take_drop_middle _ _ _ Hq) at 1. rewrite (take_S_r _ _ _ Hp), <- (assoc_L (++)). cbn [app].
  rewrite drop_app_ge by (rewrite length_take; lia). rewrite length_take.
  pose proof (lookup_lt_Some _ _ _ Hp). replace (S i - i `min` length v)%nat with 1%nat by lia. done.
Qed.

Lemma without_elem p fs f : f ∈ without fs p <-> f ∈ p /\ FileNum f ∉ map FileNum fs.
Proof. unfold without. rewrite list_elem_of_filter. naive_solver. Qed.

(** A level is the inputs and the rest. *)
Lemma without_split p fs f :
  NoDup (map FileNum p) -> (forall g, g ∈ fs -> g ∈ p) -> f ∈ fs ++ without fs p <-> f ∈ p.
Proof.
  intros Hnd Hsub. rewrite elem_of_app, without_elem. split; [naive_solver|]. intros Hf.
  destruct (decide (FileNum f ∈ map FileNum fs)) as [Hin|]; [left|by right].
  apply list_elem_of_fmap in Hin as (g & Hg & Hin). enough (f = g) as -> by done.
  specialize (Hsub g Hin). apply list_elem_of_lookup in Hf as [i Hi], Hsub as [j Hj].
  assert (i = j) as ->; [|congruence]. eapply (NoDup_lookup _ i j (FileNum f) Hnd);
    rewrite list_lookup_fmap, ?Hi, ?Hj; cbn; congruence.
Qed.

Lemma level_agree T e rs bs files :
  (forall f, f ∈ files -> file_ok T e rs bs f) -> lv_sorted files -> Order.agree CompareKeys (tables T files).
Proof.
  intros Hf Hs k l1 l2 v1 v2 (f & -> & Hf1)%list_elem_of_fmap (g & -> & Hg)%list_elem_of_fmap E1 E2.
  enough (f = g) as -> by congruence.
  destruct (file_range _ _ _ _ _ k (Hf f Hf1)) as [F1 F2]; [by eapply assoc_in|].
  destruct (file_range _ _ _ _ _ k (Hf g Hg)) as [G1 G2]; [by eapply assoc_in|].
  destruct (lv_sorted_pair files f g Hs Hf1 Hg) as [->|[H|H]]; [done|exfalso..];
    apply (klt_irrefl (cmp := CompareKeys) k).
  - eapply kle_klt_trans; [exact F2|]. by eapply klt_kle_trans.
  - eapply kle_klt_trans; [exact G2|]. by eapply klt_kle_trans.
Qed.

(** Moving tables of [p] over the tables of [q] they do not meet. *)
Lemma swap_tables k (P Q in0 p' in1 q' : list (list kv)) :
  Order.agree CompareKeys P -> Order.agree CompareKeys Q ->
  (forall l, l ∈ in0 ++ p' <-> l ∈ P) -> (forall l, l ∈ in1 ++ q' <-> l ∈ Q) ->
  (forall l1 l2 k, l1 ∈ in0 -> l2 ∈ q' -> k ∈ l1.*1 -> k ∉ l2.*1) ->
  first_assoc CompareKeys k (P ++ Q) = first_assoc CompareKeys k (p' ++ q' ++ in0 ++ in1).
Proof.
  intros HP HQ Hp Hq Hsep. rewrite !first_assoc_app.
  rewrite (first_assoc_agree k P (in0 ++ p') HP) by (intros; by rewrite Hp).
  rewrite (first_assoc_agree k Q (in1 ++ q') HQ) by (intros; by rewrite Hq). rewrite !first_assoc_app.
  destruct (first_assoc CompareKeys k in0) as [a|] eqn:Ea, (first_assoc CompareKeys k p') as [b|] eqn:Eb; try done.
  - apply first_assoc_from in Ea as (l1 & H1 & E1), Eb as (l2 & H2 & E2). f_equal.
    apply (HP k l1 l2); [..|done|done]; apply Hp, elem_of_app; auto.
  - destruct (first_assoc CompareKeys k q') eqn:Ed; [|done]. exfalso.
    apply first_assoc_in in Ea as (l1 & H1 & E1), Ed as (l2 & H2 & E2). by apply (Hsep l1 l2 k).
  - destruct (first_assoc CompareKeys k in1) as [c|] eqn:Ec, (first_assoc CompareKeys k q') as [d|] eqn:Ed; try done.
    apply first_assoc_from in Ec as (l1 & H1 & E1), Ed as (l2 & H2 & E2). f_equal.
    apply (HQ k l1 l2); [..|done|done]; apply Hq, elem_of_app; auto.
Qed.

(** ** The outputs of a compaction *)

Definition out_file (f : FileMetadata) (es : list kv) : Prop :=
  SmallestKey f = first_key es /\ LargestKey f = last_key es /\ es <> [].

Lemma out_keys fs outs f :
  Forall2 out_file fs outs -> f ∈ fs -> exists es, es ∈ outs /\ out_file f es /\
    (forall k, k ∈ es.*1 -> k ∈ (concat outs).*1).
Proof.
  intros Hff [i Hi]%list_elem_of_lookup. destruct (Forall2_lookup_l _ _ _ _ _ Hff Hi) as (es & Hes & Ho).
  apply list_elem_of_lookup_2 in Hes. exists es. split_and!; [done..|]. intros k (x & -> & Hx)%list_elem_of_fmap.
  apply list_elem_of_fmap_2. apply list_elem_of_In, in_concat. exists es. by rewrite <- !list_elem_of_In.
Qed.

Lemma out_files_sorted fs outs : Forall2 out_file fs outs -> ksorted CompareKeys (concat outs) -> lv_sorted fs.
Proof.
  intros Hff. induction Hff as [|f es fs outs (Hsm & Hla & Hne) Hff IH]; intros Hs; [apply lv_sorted_nil|].
  cbn [concat] in Hs. apply ksorted_app_inv in Hs as (Hes & Hs & Hlt). apply lv_sorted_cons. split_and!; [|auto|].
  - unfold range_ok. rewrite Hsm, Hla. apply sorted_first; [done|by apply last_key_elem].
  - intros g Hg. destruct (out_keys fs outs g Hff Hg) as (es' & _ & (Hsg & _ & Hne') & Hk).
    unfold file_lt. rewrite Hla, Hsg. apply Hlt; [by apply last_key_elem|]. by apply Hk, first_key_in.
Qed.

(** The files left at the output level are on one side of the inputs. *)
Lemma inputs_aside T e rs bs v c p q r :
  picked v c -> (forall f, f ∈ p ++ q -> file_ok T e rs bs f) -> v !! CLevel c = Some p -> v !! S (CLevel c) = Some q ->
  lv_sorted q -> r ∈ without (InputFiles1 c) q ->
  (forall f k, f ∈ inputs c -> k ∈ (tab T (FileNum f)).*1 -> klt (LargestKey r) k) \/
  (forall f k, f ∈ inputs c -> k ∈ (tab T (FileNum f)).*1 -> klt k (SmallestKey r)).
Proof.
  intros [_ _ _ (p' & q' & lo & hi & Hp' & Hq' & Hsub & _ & _ & Hr & Hin1)] Hf Hp Hq Hs Hrin.
  rewrite Hp in Hp'. rewrite Hq in Hq'. simplify_eq. apply without_elem in Hrin as [Hrq Hrn].
  assert (r ∉ InputFiles1 c) as Hni by (intros Hin; apply Hrn; by apply list_elem_of_fmap_2). rewrite Hin1 in Hni.
  assert (forall g, g ∈ InputFiles1 c -> g ∈ q') as Hsub1.
  { intros g Hg. rewrite Hin1 in Hg. unfold GetOverlappingFiles in Hg. by apply list_elem_of_filter in Hg as [_ ?]. }
  assert (forall f k, f ∈ inputs c -> k ∈ (tab T (FileNum f)).*1 -> kle (SmallestKey f) k /\ kle k (LargestKey f)) as Hrange.
  { intros f k Hfi Hk. eapply file_range; [|done]. apply Hf. apply elem_of_app. apply elem_of_app in Hfi as [?|?]; auto. }
  destruct (left_file_aside q' lo hi r Hs Hrq Hni) as [[H1 H2]|[H1 H2]]; rewrite <- Hin1 in H2; [left|right];
    intros f k Hfi Hk; destruct (Hrange f k Hfi Hk) as [R1 R2]; apply elem_of_app in Hfi as [Hfi|Hfi].
  - destruct (Hr f Hfi) as [H3 _]. eapply klt_kle_trans; [exact H1|]. by eapply kle_trans.
  - eapply klt_kle_trans; [by apply H2|done].
  - destruct (Hr f Hfi) as [_ H3]. eapply kle_klt_trans; [|exact H1]. by eapply kle_trans.
  - eapply kle_klt_trans; [exact R2|by apply H2].
Qed.

Lemma merged_keys T minActive c mx k :
  k ∈ (merged T minActive c mx).*1 -> exists f, f ∈ inputs c /\ k ∈ (tab T (FileNum f)).*1.
Proof.
  intros (x & -> & Hx)%list_elem_of_fmap. apply gc_list_sub, munion_elem in Hx as (l & (f & -> & Hf)%list_elem_of_fmap & Hx).
  exists f. split; [done|]. by apply list_elem_of_fmap_2.
Qed.

Lemma outputs_aside T e rs bs v c p q r minActive mx fs outs f :
  picked v c -> (forall f, f ∈ p ++ q -> file_ok T e rs bs f) -> v !! CLevel c = Some p -> v !! S (CLevel c) = Some q ->
  lv_sorted q -> r ∈ without (InputFiles1 c) q ->
  Forall2 out_file fs outs -> concat outs = merged T minActive c mx -> f ∈ fs -> file_lt r f \/ file_lt f r.
Proof.
  intros Hpk Hf Hp Hq Hs Hr Hff Hcat Hfs. destruct (out_keys fs outs f Hff Hfs) as (es & _ & (Hsm & Hla & Hne) & Hk).
  unfold file_lt. rewrite Hsm, Hla.
  assert (forall k, k ∈ es.*1 -> exists g, g ∈ inputs c /\ k ∈ (tab T (FileNum g)).*1) as Hin.
  { intros k Hes. apply (merged_keys T minActive c mx). rewrite <- Hcat. auto. }
  destruct (inputs_aside T e rs bs v c p q r Hpk Hf Hp Hq Hs Hr) as [H|H]; [left|right].
  - destruct (Hin (first_key es)) as (g & Hg & Hkg); [by apply first_key_in|]. by eapply H.
  - destruct (Hin (last_key es)) as (g & Hg & Hkg); [by apply last_key_elem|]. by eapply H.
Qed.

(** ** Readers *)

Definition opened (T : catalog) (e : env) (num : Z) (r : sstable.Reader) : Prop :=
  exists B bf n, T num = Some B /\ sst e !! num = Some (table_bytes B bf n) /\ table_ok B bf n /\ r = table_reader B bf n num.

Lemma add_readers_ok T e fs : forall rs,
  (forall f, f ∈ fs -> rs !! FileNum f = None -> has_table T e (FileNum f)) ->
  (forall f r, f ∈ fs -> rs !! FileNum f = Some r -> opened T e (FileNum f) r) ->
  exists rs', add_readers fs rs e = (e, Ok rs') /\
    (forall f, f ∈ fs -> exists r, rs' !! FileNum f = Some r /\ opened T e (FileNum f) r) /\
    (forall num r, rs !! num = Some r -> rs' !! num = Some r) /\
    (forall num r, rs' !! num = Some r -> rs !! num = Some r \/ num ∈ map FileNum fs).
Proof.
  induction fs as [|f fs IH]; intros rs Hn Ho.
  { exists rs. split_and!; [done|by intros ? ?%elem_of_nil|done|auto]. }
  assert (exists rs1 r, (forall k x, rs !! k = Some x -> rs1 !! k = Some x) /\ rs1 !! FileNum f = Some r /\
    opened T e (FileNum f) r /\ (forall k x, rs1 !! k = Some x -> rs !! k = Some x \/ k = FileNum f /\ x = r) /\
    add_readers (f :: fs) rs e = add_readers fs rs1 e) as (rs1 & r & Hsub & Hr & Hop & Hinv & ->).
  { cbn [add_readers]. destruct (rs !! FileNum f) as [r|] eqn:Er.
    - exists rs, r. split_and!; [done|done|apply (Ho f r); [left|done]|auto|done].
    - destruct (Hn f (list_elem_of_here _ _) Er) as (B & bf & n & HT & Hs & Hok).
      exists (<[FileNum f := table_reader B bf n (FileNum f)]> rs), (table_reader B bf n (FileNum f)). split_and!.
      + intros k x Hx. rewrite lookup_insert_ne; [done|congruence].
      + apply lookup_insert_eq.
      + by exists B, bf, n.
      + intros k x [[<- <-]|[_ ?]]%lookup_insert_Some; auto.
      + unfold open_table. by rewrite Hs, (OpenReader_ok Sum128 CompressBlock UncompressBlock). }
  destruct (IH rs1) as (rs' & -> & H1 & H2 & H3).
  - intros g Hg Hnone. apply Hn; [by right|]. destruct (rs !! FileNum g) eqn:Eg; [apply Hsub in Eg; congruence|done].
  - intros g x Hg Hx. destruct (Hinv _ _ Hx) as [Hx'|[Heq ->]]; [apply (Ho g); [by right|done]|by rewrite Heq].
  - exists rs'. split_and!; [done| |by auto|].
    + intros g [->|Hg]%elem_of_cons; [exists r; split; [by apply H2|done]|auto].
    + intros k x Hk. destruct (H3 _ _ Hk) as [Hk'|Hk']; [|right; by right].
      destruct (Hinv _ _ Hk') as [?|[-> _]]; [by left|right; left].
Qed.

Lemma remove_readers_lookup fs : forall rs num,
  remove_readers fs rs !! num = if decide (num ∈ map FileNum fs) then None else rs !! num.
Proof.
  induction fs as [|f fs IH]; intros rs num; [done|]. unfold remove_readers in *. cbn [foldl]. rewrite IH.
  destruct (decide (num ∈ map FileNum fs)) as [Hin|Hni].
  - by rewrite decide_True by (by right).
  - destruct (decide (num = FileNum f)) as [->|Hne].
    + rewrite decide_True by left. apply lookup_delete_eq.
    + rewrite decide_False by (cbn [map]; rewrite elem_of_cons; naive_solver). by apply lookup_delete_ne.
Qed.

(** Without snapshots to protect nothing is dropped. *)
Lemma gc_list_all minActive out mx l : forall i g, (forall i, minActive i <= 0) -> gc_list minActive out mx i g l = l.
Proof.
  induction l as [|[k v] l IH]; intros i g Hm; [done|]. cbn [gc_list]. unfold gc_entry.
  assert (0 <= (DecodeKey k).2) as Hts.
  { unfold DecodeKey. destruct (len k <? 8); cbn; [lia|]. apply Z.mod_pos_bound. lia. }
  destruct (DecodeKey k) as [u ts]. cbn in Hts. destruct (if bytes_equal u g.1 then g else (u, false)) as [lu seen].
  rewrite (proj2 (Z.ltb_ge _ _)) by (specialize (Hm i); lia). cbn [app]. by rewrite IH.
Qed.

(** ** One compaction *)

Section compact.
Context (T : catalog) (l : LSMTree) (c : Compaction) (p q : list FileMetadata) (minActive : nat -> Z).
Context (Hok : lsm_ok T l) (Hpk : picked (version l) c).
Context (Hp : version l !! CLevel c = Some p) (Hq : version l !! S (CLevel c) = Some q).

Abbreviation pre := (take (CLevel c) (version l)).
Abbreviation post := (drop (S (S (CLevel c))) (version l)).
Abbreviation p' := (without (InputFiles0 c) p).
Abbreviation q' := (without (InputFiles1 c) q).

Lemma version_split : version l = pre ++ p :: q :: post.
Proof. by apply level_split. Qed.

Lemma files_split : concat (version l) = concat pre ++ p ++ q ++ concat post.
Proof. rewrite version_split at 1. by rewrite concat_app. Qed.

Lemma inputs_in : (forall f, f ∈ InputFiles0 c -> f ∈ p) /\ (forall f, f ∈ InputFiles1 c -> f ∈ q).
Proof.
  destruct Hpk as [_ _ _ (p1 & q1 & lo & hi & Hp1 & Hq1 & Hsub & _ & _ & _ & Hin1)]. rewrite Hp in Hp1. rewrite Hq in Hq1.
  simplify_eq. split; [done|]. intros f Hf. rewrite Hin1 in Hf. unfold GetOverlappingFiles in Hf. by apply list_elem_of_filter in Hf as [_ ?].
Qed.

Lemma inputs_files f : f ∈ inputs c -> f ∈ concat (version l).
Proof.
  destruct inputs_in as [H0 H1]. rewrite files_split, !elem_of_app. unfold inputs. rewrite elem_of_app. intros [Hf%H0|Hf%H1]; auto.
Qed.

(** The files that stay. *)
Definition kept : list FileMetadata := concat pre ++ p' ++ q' ++ concat post.

Lemma kept_files f : f ∈ kept -> f ∈ concat (version l) /\ FileNum f ∉ map FileNum (inputs c).
Proof.
  pose proof (lo_nums _ _ Hok) as Hnd. rewrite files_split in *. rewrite !map_app in Hnd.
  apply NoDup_app in Hnd as (_ & D1 & Hnd). apply NoDup_app in Hnd as (_ & D2 & Hnd). apply NoDup_app in Hnd as (_ & D3 & _).
  destruct inputs_in as [H0 H1]. unfold kept, inputs. rewrite map_app, !elem_of_app. setoid_rewrite elem_of_app in D1. setoid_rewrite elem_of_app in D1.
  setoid_rewrite elem_of_app in D2.
  assert (forall f, f ∈ InputFiles0 c -> FileNum f ∈ map FileNum p) as N0 by (intros; apply list_elem_of_fmap_2; auto).
  assert (forall f, f ∈ InputFiles1 c -> FileNum f ∈ map FileNum q) as N1 by (intros; apply list_elem_of_fmap_2; auto).
  assert (forall L g, g ∈ L -> FileNum g ∈ map FileNum L) as NL by (intros; by apply list_elem_of_fmap_2).
  assert (forall n, n ∈ map FileNum (InputFiles0 c) -> n ∈ map FileNum p) as M0 by (intros n (g & -> & Hg)%list_elem_of_fmap; auto).
  assert (forall n, n ∈ map FileNum (InputFiles1 c) -> n ∈ map FileNum q) as M1 by (intros n (g & -> & Hg)%list_elem_of_fmap; auto).
  intros [Hf|[[Hf Hn]%without_elem|[[Hf Hn]%without_elem|Hf]]]; (split; [auto|]); intros [Hi|Hi].
  - apply (D1 (FileNum f)); auto.
  - apply (D1 (FileNum f)); auto.
  - done.
  - apply (D2 (FileNum f)); auto.
  - apply (D2 (FileNum f)); auto.
  - done.
  - apply (D2 (FileNum f)); auto.
  - apply (D3 (FileNum f)); auto.
Qed.

Lemma kept_nodup : NoDup (map FileNum kept).
Proof.
  pose proof (lo_nums _ _ Hok) as Hnd. rewrite files_split in Hnd. eapply sublist_NoDup; [exact Hnd|]. apply (fmap_sublist FileNum).
  unfold kept, without. repeat apply sublist_app; try done; apply sublist_filter.
Qed.

Lemma level_sorted : lv_sorted q /\ (CLevel c <> 0%nat -> lv_sorted p) /\ Forall lv_sorted (tail (pre ++ [p'])) /\ Forall lv_sorted post.
Proof.
  pose proof (lo_sorted _ _ Hok) as Hs. rewrite version_split in Hs.
  pose proof (lookup_lt_Some _ _ _ Hp) as Hlt. assert (length pre = CLevel c) as Hlen by (rewrite length_take; lia).
  destruct pre as [|l0 ls] eqn:Epre; cbn [app tail] in Hs |- *.
  - apply Forall_cons in Hs as [H1 H2]. split_and!; [done|cbn in Hlen; congruence|constructor|done].
  - apply Forall_app in Hs as [H1 H2]. apply Forall_cons in H2 as [H2 H3]. apply Forall_cons in H3 as [H3 H4].
    split_and!; [done..| |done]. apply Forall_app. split; [done|]. apply Forall_singleton. by apply lv_sorted_filter.
Qed.

Lemma lsm_exec_ok :
  nextFileNum (man (lenv l)) + len (concat (tables T (inputs c))) < 2 ^ 64 - 1 ->
  exec_ok Sum128 CompressBlock T (compact_config (opts l)) c (lenv l).
Proof.
  intros Hn. destruct Hok as [Hst Hlen Hf Hnd Hs Hsome Hfa [Hbs Hbits] Hn0 _]. destruct Hpk as [Ho Hlv Hne _].
  assert (forall f, f ∈ inputs c -> file_ok T (lenv l) (readers l) (BlockSize (opts l)) f) as Hin by (intros f Hfi; by apply Hf, inputs_files).
  split; try done.
  - apply Forall_forall. intros f Hfi. by eapply file_has_table, Hin.
  - apply Forall_forall. intros f Hfi. by apply (fo_num _ _ _ _ _ (Hin f Hfi)).
  - apply Forall_forall. intros f Hfi. by apply (fo_fits _ _ _ _ _ (Hin f Hfi)).
Qed.

Context (mx : nat) (T' : catalog) (e' : env) (fs : list FileMetadata) (outs : list (list kv)).
Context (Hex : executed Sum128 CompressBlock T minActive c mx (lenv l) T' e' fs outs).

Abbreviation newlevel := (SortBySmallestKey (q' ++ fs)).

Lemma outs_files : Forall2 out_file fs outs.
Proof. eapply Forall2_impl; [exact (ex_files _ _ _ _ _ _ _ _ _ _ _ Hex)|]. by intros f es (_ & ? & ? & ? & _). Qed.

Lemma outs_sorted : ksorted CompareKeys (concat outs).
Proof. rewrite (ex_merged _ _ _ _ _ _ _ _ _ _ _ Hex). apply gc_list_sorted, munion_sorted. Qed.

Lemma new_version : current (man e') = pre ++ p' :: newlevel :: post.
Proof.
  destruct (ex_version _ _ _ _ _ _ _ _ _ _ _ Hex) as (m & Em & ->). pose proof level_sorted as (_ & _ & S1 & S2).
  destruct (compaction_edit (man (lenv l)) c fs p q) as (m2 & Em2 & Hc2); [|done|done|].
  { apply Forall_lookup_2. intros i f Hi. destruct (Forall2_lookup_l _ _ _ _ _ (ex_files _ _ _ _ _ _ _ _ _ _ _ Hex) Hi) as (es & _ & -> & _).
    by rewrite (pk_output _ _ Hpk). }
  rewrite Em in Em2. injection Em2 as <-. rewrite Hc2, <- (sort_levels_swap _ _ _ _ S1 S2). f_equal.
  fold (version l). rewrite version_split at 1. pose proof (lookup_lt_Some _ _ _ Hp) as Hlt.
  assert (length pre = CLevel c) as Hlen by (rewrite length_take; lia).
  rewrite insert_app_r_alt by lia. rewrite Hlen, Nat.sub_diag. cbn [insert list_insert].
  rewrite insert_app_r_alt by lia. rewrite Hlen. replace (S (CLevel c) - CLevel c)%nat with 1%nat by lia. done.
Qed.

Lemma newlevel_sorted : lv_sorted newlevel.
Proof.
  pose proof level_sorted as (Sq & _). apply sort_merge; [by apply lv_sorted_filter|eapply out_files_sorted; [apply outs_files|apply outs_sorted]|].
  intros r f Hr Hf. eapply (outputs_aside T (lenv l) (readers l) (BlockSize (opts l)) (version l) c p q r minActive mx fs outs);
    [done| |done..|apply outs_files|apply (ex_merged _ _ _ _ _ _ _ _ _ _ _ Hex)|done].
  intros g Hg. apply (lo_files _ _ Hok). rewrite files_split, !elem_of_app. apply elem_of_app in Hg as [?|?]; auto.
Qed.

Lemma new_perm : concat (pre ++ p' :: newlevel :: post) ≡ₚ kept ++ fs.
Proof. rewrite concat_app. cbn [concat]. rewrite sort_perm. unfold kept. solve_Permutation. Qed.

Lemma new_files f : f ∈ concat (pre ++ p' :: newlevel :: post) <-> f ∈ kept \/ f ∈ fs.
Proof. by rewrite new_perm, elem_of_app. Qed.

Lemma kept_same f : f ∈ kept -> T' (FileNum f) = T (FileNum f) /\ sst e' !! FileNum f = sst (lenv l) !! FileNum f.
Proof.
  intros [Hf Hn]%kept_files. apply (ex_old _ _ _ _ _ _ _ _ _ _ _ Hex); [|done]. by apply (lo_files _ _ Hok).
Qed.

Lemma new_file_spec f : f ∈ fs ->
  nextFileNum (man (lenv l)) <= FileNum f < nextFileNum (man e') /\ has_table T' e' (FileNum f) /\
  SmallestKey f = first_key (tab T' (FileNum f)) /\ LargestKey f = last_key (tab T' (FileNum f)) /\
  tab T' (FileNum f) <> [] /\ Forall (fits (BlockSize (opts l))) (tab T' (FileNum f)).
Proof.
  intros [i Hi]%list_elem_of_lookup. pose proof (ex_files _ _ _ _ _ _ _ _ _ _ _ Hex) as Hff.
  destruct (Forall2_lookup_l _ _ _ _ _ Hff Hi) as (es & Hes & _ & Hsm & Hla & Hne & Hn & Ht & <-).
  split_and!; try done; [lia|lia|]. assert (Forall (fits (BlockSize (opts l))) (concat outs)) as Hfit.
  { rewrite (ex_merged _ _ _ _ _ _ _ _ _ _ _ Hex). apply merged_fits. apply Forall_forall. intros g Hg.
    by apply (fo_fits _ _ _ _ _ (lo_files _ _ Hok g (inputs_files g Hg))). }
  rewrite Forall_forall in Hfit |- *. intros x Hx. apply Hfit, list_elem_of_In, in_concat.
  exists (tab T' (FileNum f)). rewrite <- !list_elem_of_In. split; [by eapply list_elem_of_lookup_2|done].
Qed.

(** The invariant after the compaction, whatever readers were added for the outputs. *)
Lemma compacted_ok l' :
  lenv l' = e' -> opts l' = opts l ->
  (forall f r, f ∈ kept -> readers l !! FileNum f = Some r -> readers l' !! FileNum f = Some r) ->
  (forall f, f ∈ fs -> exists r, readers l' !! FileNum f = Some r /\ opened T' e' (FileNum f) r) ->
  (forall num r, readers l' !! num = Some r -> num < nextFileNum (man e')) ->
  lsm_ok T' l'.
Proof.
  intros He Ho Hrk Hrf Hrn. pose proof level_sorted as (_ & _ & S1 & S2). pose proof newlevel_sorted as S3.
  assert (version l' = pre ++ p' :: newlevel :: post) as Hv by (unfold version; by rewrite He, new_version).
  pose proof (ex_next _ _ _ _ _ _ _ _ _ _ _ Hex) as [Hnx _].
  split; rewrite ?He, ?Ho, ?Hv; try apply Hok; try done.
  - apply (ex_store _ _ _ _ _ _ _ _ _ _ _ Hex).
  - pose proof (lo_levels _ _ Hok) as Hl. rewrite version_split in Hl. rewrite !length_app in *. cbn [length] in *. done.
  - intros f Hf. apply new_files in Hf as [Hf|Hf].
    + destruct (kept_same f Hf) as [K1 K2]. destruct (kept_files f Hf) as [K3 _].
      apply (file_ok_frame T _ (lenv l) _ (readers l)); try done; [by apply (lo_files _ _ Hok)|].
      destruct (lo_files _ _ Hok f K3) as [(B & bf & n & _ & _ & _ & Hr) _ _ _ _]. rewrite Hr. by apply Hrk.
    + destruct (new_file_spec f Hf) as (N1 & _ & N3 & N4 & _ & N6). destruct (Hrf f Hf) as (r & Hr & B & bf & n & O1 & O2 & O3 & ->).
      split; try done; [by exists B, bf, n|lia].
  - rewrite new_perm, map_app. apply NoDup_app. split_and!; [apply kept_nodup| |apply (ex_nums _ _ _ _ _ _ _ _ _ _ _ Hex)].
    intros n (g & -> & [Hg _]%kept_files)%list_elem_of_fmap (f & Heq & Hf)%list_elem_of_fmap.
    destruct (new_file_spec f Hf) as (N1 & _). pose proof (fo_num _ _ _ _ _ (lo_files _ _ Hok g Hg)). lia.
  - destruct pre as [|l0 ls]; cbn [app tail] in *; [by apply Forall_cons_2|].
    apply Forall_app in S1 as [S1 S1']. rewrite Forall_singleton in S1'. apply Forall_app. split; [done|]. by repeat apply Forall_cons_2.
  - intros f Hf. assert (f ∈ concat (tail (version l)) /\ f ∈ kept \/ f ∈ fs) as [[Ht Hk]|Hfs].
    { pose proof version_split as Hvs. rewrite Hvs. unfold kept.
      destruct pre as [|l0 ls]; cbn [app tail concat] in *; rewrite ?concat_app in *; cbn [concat] in *;
        rewrite ?elem_of_app, sort_perm in *; rewrite ?elem_of_app in *; pose proof (without_elem p (InputFiles0 c) f);
        pose proof (without_elem q (InputFiles1 c) f); naive_solver. }
    + destruct (kept_same f Hk) as [K1 _]. unfold tab. rewrite K1. by apply (lo_some _ _ Hok).
    + by apply (new_file_spec f Hfs).
  - apply (ex_faults _ _ _ _ _ _ _ _ _ _ _ Hex).
  - pose proof (lo_next _ _ Hok). lia.
Qed.

(** What is stored after the compaction. *)
Lemma new_stored l' k :
  lenv l' = e' -> lsm_ok T' l' ->
  stored T' (version l') k = first_assoc CompareKeys k (tables T (above pre) ++ tables T (in_order pre p') ++
    tables T q' ++ [merged T minActive c mx] ++ tables T (concat post)).
Proof.
  intros He Hok'. assert (version l' = pre ++ p' :: newlevel :: post) as Hv by (unfold version; by rewrite He, new_version).
  unfold stored. rewrite Hv, search_order_app. cbn [concat]. rewrite !tables_app.
  assert (forall L, (forall f, f ∈ L -> f ∈ kept) -> tables T' L = tables T L) as Hsame.
  { intros L HL. apply tables_frame. intros f Hf. by apply kept_same, HL. }
  rewrite (Hsame (above pre)), (Hsame (in_order pre p')), (Hsame (concat post)); unfold kept.
  - rewrite !first_assoc_app.
    assert (first_assoc CompareKeys k (tables T' newlevel) = first_assoc CompareKeys k (tables T q' ++ [merged T minActive c mx])) as ->.
    { rewrite (first_assoc_agree k (tables T' newlevel) (tables T' (q' ++ fs))).
      - rewrite tables_app, !first_assoc_app.
        rewrite (Hsame q') by (intros f Hf; unfold kept; rewrite !elem_of_app; auto).
        destruct (first_assoc CompareKeys k (tables T q')); [done|]. rewrite <- (ex_merged _ _ _ _ _ _ _ _ _ _ _ Hex).
        cbn [first_assoc]. rewrite first_assoc_concat. assert (tables T' fs = outs) as ->; [|by destruct (first_assoc _ _ _)].
        eapply Forall2_map_eq, Forall2_impl; [apply (ex_files _ _ _ _ _ _ _ _ _ _ _ Hex)|]. naive_solver.
      - apply (level_agree T' e' (readers l') (BlockSize (opts l'))); [|apply newlevel_sorted].
        intros f Hf. rewrite <- He. apply (lo_files _ _ Hok'). rewrite Hv, new_files. rewrite sort_perm in Hf.
        unfold kept. rewrite !elem_of_app. apply elem_of_app in Hf as [?|?]; auto.
      - intros L. unfold tables. by rewrite sort_perm. }
    rewrite first_assoc_app. destruct (first_assoc CompareKeys k (tables T q')); done.
  - intros f Hf. rewrite !elem_of_app; auto.
  - intros f Hf. rewrite in_order_elem in Hf. rewrite !elem_of_app; auto.
  - intros f Hf. rewrite elem_of_app. left. destruct pre as [|l0 ls]; [by apply elem_of_nil in Hf|]. cbn [above concat] in *.
    rewrite elem_of_app, elem_of_reverse in Hf. by apply elem_of_app.
Qed.

Lemma old_stored k : stored T (version l) k =
  first_assoc CompareKeys k (tables T (above pre) ++ tables T (in_order pre p) ++ tables T q ++ tables T (concat post)).
Proof. unfold stored. rewrite version_split at 1. rewrite search_order_app. cbn [concat]. by rewrite !tables_app. Qed.

Lemma new_stored_same l' k :
  lenv l' = e' -> lsm_ok T' l' -> (forall i, minActive i <= 0) ->
  (CLevel c = 0%nat -> Order.agree CompareKeys (tables T p)) ->
  stored T' (version l') k = stored T (version l) k.
Proof.
  intros He Hok' Hm Hag. rewrite (new_stored l' k He Hok'), old_stored.
  pose proof level_sorted as (Sq & Sp & _ & _). destruct inputs_in as [I0 I1].
  assert (forall f, f ∈ p ++ q -> file_ok T (lenv l) (readers l) (BlockSize (opts l)) f) as Hf.
  { intros g Hg. apply (lo_files _ _ Hok). rewrite files_split, !elem_of_app. apply elem_of_app in Hg as [?|?]; auto. }
  assert (NoDup (map FileNum p) /\ NoDup (map FileNum q)) as [Np Nq].
  { pose proof (lo_nums _ _ Hok) as Hnd. rewrite files_split, !map_app in Hnd. apply NoDup_app in Hnd as (_ & _ & Hnd).
    apply NoDup_app in Hnd as (? & _ & Hnd). by apply NoDup_app in Hnd as (? & _ & _). }
  assert (Order.agree CompareKeys (tables T p)) as Ap.
  { destruct (decide (CLevel c = 0%nat)) as [H0|H0]; [auto|]. eapply level_agree; [|by apply Sp].
    intros f Hfp. apply Hf, elem_of_app. auto. }
  assert (Order.agree CompareKeys (tables T q)) as Aq.
  { eapply level_agree; [|done]. intros f Hfp. apply Hf, elem_of_app. auto. }
  rewrite !(first_assoc_app k (tables T (above pre))). f_equal.
  rewrite !(assoc_L (++)), !(first_assoc_app _ _ (tables T (concat post))). rewrite <- !(assoc_L (++)).
  enough (first_assoc CompareKeys k (tables T (in_order pre p') ++ tables T q' ++ [merged T minActive c mx]) =
    first_assoc CompareKeys k (tables T (in_order pre p) ++ tables T q)) as -> by done.
  rewrite (swap_tables k (tables T (in_order pre p)) (tables T q) (tables T (InputFiles0 c)) (tables T (in_order pre p')) (tables T (InputFiles1 c)) (tables T q')).
  - rewrite !first_assoc_app. destruct (first_assoc CompareKeys k (tables T (in_order pre p'))); [done|].
    destruct (first_assoc CompareKeys k (tables T q')); [done|]. cbn [first_assoc]. unfold merged. rewrite gc_list_all by done.
    rewrite assoc_munion. unfold inputs. rewrite map_app, first_assoc_app. fold (tables T (InputFiles0 c)) (tables T (InputFiles1 c)).
    destruct (first_assoc CompareKeys k (tables T (InputFiles0 c))); [done|]. by destruct (first_assoc CompareKeys k (tables T (InputFiles1 c))).
  - intros k' l1 l2 v1 v2 (f & -> & Hf1)%list_elem_of_fmap (g & -> & Hg)%list_elem_of_fmap.
    rewrite in_order_elem in Hf1, Hg. apply Ap; by apply (list_elem_of_fmap_2 (fun f => tab T (FileNum f))).
  - done.
  - intros L. unfold tables. rewrite <- map_app, !list_elem_of_fmap. f_equiv. intros f. rewrite in_order_elem, elem_of_app, in_order_elem.
    rewrite <- elem_of_app. by rewrite without_split.
  - intros L. unfold tables. rewrite <- map_app, !list_elem_of_fmap. f_equiv. intros f. by rewrite without_split.
  - intros l1 l2 k' (f & -> & Hf1)%list_elem_of_fmap (r & -> & Hr)%list_elem_of_fmap Hk1 Hk2.
    assert (r ∈ q) as Hrq by (by apply without_elem in Hr as [? _]).
    destruct (file_range _ _ _ _ _ _ (Hf r ltac:(apply elem_of_app; auto)) Hk2) as [R1 R2].
    destruct (inputs_aside T _ _ _ _ c p q r Hpk Hf Hp Hq Sq Hr) as [H|H];
      specialize (H f k' ltac:(apply elem_of_app; auto) Hk1); by apply not_klt in H.
Qed.

(** Every entry after the compaction was there before. *)
Lemma new_entries L k v : L ∈ tables T' (kept ++ fs) -> assoc CompareKeys k L = Some v ->
  exists L0, L0 ∈ tables T (concat (version l)) /\ assoc CompareKeys k L0 = Some v.
Proof.
  rewrite tables_app, elem_of_app. intros [(f & -> & Hf)%list_elem_of_fmap|HL] Ha.
  - exists (tab T (FileNum f)). destruct (kept_same f Hf) as [K1 _]. unfold tab in Ha |- *. rewrite K1 in Ha. split; [|done].
    apply (list_elem_of_fmap_2 (fun f => tab T (FileNum f))). by apply kept_files.
  - assert (tables T' fs = outs) as Ho.
    { eapply Forall2_map_eq, Forall2_impl; [apply (ex_files _ _ _ _ _ _ _ _ _ _ _ Hex)|]. naive_solver. }
    rewrite Ho in HL. assert ((k, v) ∈ concat outs) as Hin.
    { apply list_elem_of_In, in_concat. exists L. rewrite <- !list_elem_of_In. split; [done|by apply assoc_elem]. }
    rewrite (ex_merged _ _ _ _ _ _ _ _ _ _ _ Hex) in Hin. apply gc_list_sub in Hin.
    apply elem_assoc in Hin; [|apply munion_sorted]. rewrite assoc_munion in Hin.
    apply first_assoc_from in Hin as (L0 & (f & -> & Hf)%list_elem_of_fmap & HL0). exists (tab T (FileNum f)). split; [|done].
    apply (list_elem_of_fmap_2 (fun f => tab T (FileNum f))). by apply inputs_files.
Qed.

Lemma kept_perm : inputs c ++ kept ≡ₚ concat (version l).
Proof.
  pose proof (lo_nums _ _ Hok) as Hnd. rewrite files_split, !map_app in Hnd. apply NoDup_app in Hnd as (_ & _ & Hnd).
  apply NoDup_app in Hnd as (Np & _ & Hnd). apply NoDup_app in Hnd as (Nq & _ & _).
  pose proof (NoDup_fmap_1 _ _ Np) as Np'. pose proof (NoDup_fmap_1 _ _ Nq) as Nq'.
  destruct inputs_in as [I0 I1]. pose proof Hpk as [_ _ _ (p1 & q1 & lo & hi & Hp1 & Hq1 & _ & Hz & Hs & _ & Hin1)].
  assert (forall fs L, NoDup fs -> NoDup (map FileNum L) -> (forall f, f ∈ fs -> f ∈ L) -> fs ++ without fs L ≡ₚ L) as Hperm.
  { intros F L HF HL Hsub. apply NoDup_Permutation; [|by eapply NoDup_fmap_1|].
    - apply NoDup_app. split_and!; [done| |apply NoDup_filter; by eapply NoDup_fmap_1].
      intros f Hf [_ Hn]%without_elem. apply Hn. by apply list_elem_of_fmap_2.
    - intros f. by apply without_split. }
  assert (NoDup (InputFiles0 c)) as N0.
  { rewrite Hp in Hp1. simplify_eq. destruct (decide (CLevel c = 0%nat)) as [H0|H0]; [by rewrite Hz|].
    destruct (Hs H0) as [f ->]. apply NoDup_singleton. }
  assert (NoDup (InputFiles1 c)) as N1.
  { rewrite Hq in Hq1. simplify_eq. rewrite Hin1. unfold GetOverlappingFiles. by apply NoDup_filter. }
  rewrite files_split. pose proof (Hperm (InputFiles0 c) p N0 Np I0) as P0. pose proof (Hperm (InputFiles1 c) q N1 Nq I1) as P1.
  transitivity (concat pre ++ (InputFiles0 c ++ p') ++ (InputFiles1 c ++ q') ++ concat post); [unfold kept, inputs; solve_Permutation|].
  by rewrite P0, P1.
Qed.

Lemma new_length : len (concat (tables T' (kept ++ fs))) <= len (concat (tables T (concat (version l)))).
Proof.
  assert (tables T' fs = outs) as Ho.
  { eapply Forall2_map_eq, Forall2_impl; [apply (ex_files _ _ _ _ _ _ _ _ _ _ _ Hex)|]. naive_solver. }
  rewrite tables_app, concat_app, len_app, Ho, (ex_merged _ _ _ _ _ _ _ _ _ _ _ Hex).
  rewrite (tables_frame T T' kept) by (intros f Hf; by apply kept_same).
  assert (concat (tables T (concat (version l))) ≡ₚ concat (tables T (inputs c ++ kept))) as Hperm.
  { unfold tables. by rewrite kept_perm. }
  unfold len. rewrite Hperm, tables_app, concat_app, length_app.
  pose proof (length_gc_list minActive (OutputLevel c) mx (munion CompareKeys (tables T (inputs c))) 0 ([], false)).
  pose proof (length_munion (cmp := CompareKeys) (tables T (inputs c))). unfold merged. fold (tables T (inputs c)). lia.
Qed.
End compact.
End tree.
