(* ===== verification/LsmRefine.v ===== *)
(** * The tree as a map

    Flushes, compactions and lookups in any order, started on an empty directory,
    implement a map: a lookup answers with the value of the last flush that had the key.
    This holds when keys are not rewritten, as for versioned keys; for keys that are
    rewritten a compaction brings old values back. *)

From S2P Require Import Prelude Order Keys Files Bloom Cache SSTable SSTableSpec SkipList MemTable Manifest Heap MergeIter.
From S2P Require Import Compaction CompactionSpec Limits Levels Lsm LsmSpec.
Import mvcc manifest compaction lsm.

#[local] Open Scope Z_scope.

Section tree.
Context (Sum128 : bytes -> Z * Z).
Context (CompressBlock : bytes -> option bytes) (UncompressBlock : bytes -> Z -> option bytes).
Context `{!Lz4 CompressBlock UncompressBlock}.

Abbreviation lsm_ok := (LsmSpec.lsm_ok Sum128 CompressBlock).
Abbreviation compact_once := (lsm.compact_once Sum128 CompressBlock UncompressBlock).
Abbreviation executed := (CompactionSpec.executed Sum128 CompressBlock).

(** A compaction that was done. *)
Record compacted (T : catalog) (l : LSMTree) (minActive : nat -> Z) (T' : catalog) (l' : LSMTree) (c : Compaction) : Prop := {
  cp_pick : PickCompaction (version l) = Ok (Some c);
  cp_picked : picked (version l) c;
  cp_exec : exists fs outs, executed T minActive c (max_occupied (version l)) (lenv l) T' (lenv l') fs outs;
  cp_ok : lsm_ok T' l';
  cp_opts : opts l' = opts l;
  cp_stall : stalled l' = (L0StallTrigger (opts l) <=? l0_count l');
}.

Lemma swap_readers_ok c l lev rs :
  version l !! OutputLevel c = Some lev -> add_readers lev (remove_readers (inputs c) (readers l)) (lenv l) = (lenv l, Ok rs) ->
  swap_readers c l = (set_readers rs l, Ok tt).
Proof.
  intros Hv Ha. unfold swap_readers. erewrite st_bind_ok by reflexivity. erewrite st_bind_ok by reflexivity. rewrite Hv.
  cbn [default from_option id]. erewrite st_bind_ok by (unfold with_env; fold (inputs c); rewrite Ha; reflexivity).
  by destruct l.
Qed.

(** The readers after the files of a compaction were swapped. *)
Lemma swapped_readers T l c p q minActive mx T' e' fs outs :
  lsm_ok T l -> picked (version l) c -> version l !! CLevel c = Some p -> version l !! S (CLevel c) = Some q ->
  executed T minActive c mx (lenv l) T' e' fs outs ->
  let lev := SortBySmallestKey (without (InputFiles1 c) q ++ fs) in
  exists rs, add_readers lev (remove_readers (inputs c) (readers l)) e' = (e', Ok rs) /\
    (forall f r, f ∈ kept l c p q -> readers l !! FileNum f = Some r -> rs !! FileNum f = Some r) /\
    (forall f, f ∈ fs -> exists r, rs !! FileNum f = Some r /\ opened Sum128 CompressBlock T' e' (FileNum f) r) /\
    (forall num r, rs !! num = Some r -> num < nextFileNum (man e')).
Proof.
  intros Hok Hpk Hp Hq Hex lev. set (rs0 := remove_readers (inputs c) (readers l)).
  pose proof (kept_same Sum128 CompressBlock T l c p q minActive Hok Hpk Hp Hq mx T' e' fs outs Hex) as Hsame.
  pose proof (kept_files Sum128 CompressBlock T l c p q Hok Hpk Hp Hq) as Hkept.
  pose proof (new_file_spec Sum128 CompressBlock T l c p q minActive Hok Hpk Hp Hq mx T' e' fs outs Hex) as Hnew.
  assert (nextFileNum (man (lenv l)) <= nextFileNum (man e')) as Hnx by (destruct (ex_next _ _ _ _ _ _ _ _ _ _ _ Hex); lia).
  assert (forall f, f ∈ lev <-> f ∈ without (InputFiles1 c) q \/ f ∈ fs) as Hlev.
  { intros f. unfold lev. by rewrite sort_perm, elem_of_app. }
  assert (forall f, f ∈ without (InputFiles1 c) q -> f ∈ kept l c p q) as Hkq by (intros f Hf; unfold kept; rewrite !elem_of_app; auto).
  assert (forall f, f ∈ kept l c p q -> exists r, rs0 !! FileNum f = Some r /\ readers l !! FileNum f = Some r /\
    opened Sum128 CompressBlock T' e' (FileNum f) r) as Hk0.
  { intros f Hf. destruct (Hkept f Hf) as [K3 Hni]. destruct (Hsame f Hf) as [K1 K2].
    destruct (lo_files _ _ _ _ Hok f K3) as [(B & bf & n & ? & ? & ? & Hr) _ _ _ _]. exists (SSTableSpec.table_reader CompressBlock B bf n (FileNum f)).
    unfold rs0. rewrite remove_readers_lookup, decide_False by done. split_and!; [done..|]. exists B, bf, n. by rewrite K1, K2. }
  assert (forall num r, rs0 !! num = Some r -> num < nextFileNum (man (lenv l))) as Hrn.
  { intros num r. unfold rs0. rewrite remove_readers_lookup. destruct (decide _); [done|]. by apply (lo_readers _ _ _ _ Hok). }
  destruct (add_readers_ok Sum128 CompressBlock UncompressBlock T' e' lev rs0) as (rs & Er & R1 & R2 & R3).
  - intros f [Hf%Hkq%Hk0|Hf%Hnew]%Hlev Hnone; [destruct Hf as (r & ? & _); congruence|by apply Hf].
  - intros f r [Hf%Hkq%Hk0|Hf]%Hlev Hr; [destruct Hf as (r' & Hr' & _ & ?); congruence|].
    apply Hrn in Hr. destruct (Hnew f Hf) as (? & _). lia.
  - exists rs. split_and!; [done|..].
    + intros f r Hf Hr. destruct (Hk0 f Hf) as (r' & Hr0 & Hr' & _). apply R2. congruence.
    + intros f Hf. apply R1, Hlev. by right.
    + intros num r [Hr%Hrn|(f & -> & [Hf%Hkq%Hkept|Hf%Hnew]%Hlev)%list_elem_of_fmap]%R3; [lia| |by apply Hf].
      destruct Hf as [K3 _]. pose proof (fo_num _ _ _ _ _ _ _ (lo_files _ _ _ _ Hok f K3)). lia.
Qed.

Lemma compact_once_ok T l minActive d :
  lsm_ok T l -> nextFileNum (man (lenv l)) + len (concat (tables T (concat (version l)))) < 2 ^ 64 - 1 ->
  exists l' b, compact_once minActive d l = (l', Ok b) /\
    (b = false /\ l' = l /\ PickCompaction (version l) = Ok None \/
     b = true /\ exists T' c, compacted T l minActive T' l' c).
Proof.
  intros Hok Hn. destruct (PickCompaction_ok (version l) (lo_levels _ _ _ _ Hok)) as (r & Ep & Hpk). unfold lsm.compact_once. rewrite Ep.
  destruct r as [c|]; [|by exists l, false; split; [done|left]]. specialize (Hpk c eq_refl).
  pose proof Hpk as [Ho Hlv Hne (p & q & _ & _ & Hp & Hq & _)].
  assert (exec_ok Sum128 CompressBlock T (compact_config (opts l)) c (lenv l)) as Hx.
  { apply (lsm_exec_ok Sum128 CompressBlock T l c p q); try done.
    pose proof (kept_perm Sum128 CompressBlock T l c p q Hok Hpk Hp Hq) as Hperm.
    assert (concat (tables T (concat (version l))) ≡ₚ concat (tables T (inputs c ++ kept l c p q))) as Hpt by (unfold tables; by rewrite Hperm).
    unfold len in *. rewrite Hpt, tables_app, concat_app, length_app in Hn. lia. }
  destruct (Execute_ok Sum128 CompressBlock UncompressBlock T _ c (lenv l) minActive (max_occupied (version l)) Hx)
    as (T' & e' & [bin bout] & fs & outs & Ee & Hex).
  destruct (swapped_readers T l c p q minActive _ T' e' fs outs Hok Hpk Hp Hq Hex) as (rs & Er & R1 & R2 & R3).
  pose proof (new_version Sum128 CompressBlock T l c p q minActive Hok Hpk Hp Hq _ T' e' fs outs Hex) as Hv.
  assert (current (man e') !! OutputLevel c = Some (SortBySmallestKey (without (InputFiles1 c) q ++ fs))) as Hlev.
  { rewrite Hv, Ho. pose proof (lookup_lt_Some _ _ _ Hp). rewrite lookup_app_r by (rewrite length_take; lia).
    rewrite length_take. replace (S (CLevel c) - CLevel c `min` length (version l))%nat with 1%nat by lia. done. }
  unfold with_env at 1. rewrite Ee. erewrite st_bind_ok by reflexivity. set (l1 := set_stats _ _).
  exists (CheckWriteStall (set_readers rs l1)), true. split.
  { erewrite st_bind_ok by (exact (swap_readers_ok c l1 _ rs Hlev Er)). erewrite st_bind_ok by reflexivity. reflexivity. }
  right. split; [done|]. exists T', c. split; try done; [by exists fs, outs|].
  by apply (compacted_ok Sum128 CompressBlock T l c p q minActive Hok Hpk Hp Hq _ T' e' fs outs Hex).
Qed.

(** ** Sequences of operations *)

(** A flush of the memtable [mt] with the entries [es], a round of compaction, a lookup. *)
Inductive lsm_op := OFlush (mt : memtable.MemTable) (es : list kv) | OCompact | OGet (k : bytes).

Definition lsm_step (op : lsm_op) : st lsm_error LSMTree (option (option bytes)) :=
  match op with
  | OFlush mt _ => Flush Sum128 CompressBlock mt;; mret None
  | OCompact => compact_once (fun _ => 0) 0;; mret None
  | OGet k => Get Sum128 UncompressBlock k
  end.

Abbreviation contents := (bytes -> option (option bytes)).

(** The map: what an operation makes of it and what it answers. *)
Definition spec_step (m : contents) (op : lsm_op) : contents :=
  match op with
  | OFlush _ es => fun k => match assoc CompareKeys k es with Some v => Some v | None => m k end
  | _ => m
  end.

Definition spec_answer (m : contents) (op : lsm_op) : option (option bytes) :=
  match op with OGet k => m k | _ => None end.

Fixpoint spec_answers (m : contents) (ops : list lsm_op) : list (option (option bytes)) :=
  match ops with
  | [] => []
  | op :: ops => spec_answer m op :: spec_answers (spec_step m op) ops
  end.

(** A flush may write a key again only with the value it has. *)
Definition op_ok (bs : Z) (m : contents) (op : lsm_op) : Prop :=
  match op with
  | OFlush mt es => listed mt es /\ Forall (fits bs) es /\ len (blk_data es) < 2 ^ 40 /\
      forall k v v', assoc CompareKeys k es = Some v -> m k = Some v' -> v = v'
  | _ => True
  end.

Fixpoint ops_ok (bs : Z) (m : contents) (ops : list lsm_op) : Prop :=
  match ops with
  | [] => True
  | op :: ops => op_ok bs m op /\ ops_ok bs (spec_step m op) ops
  end.

Definition flushed_entries (op : lsm_op) : Z := match op with OFlush _ es => len es | _ => 0 end.
Definition total (ops : list lsm_op) : Z := foldr (fun op n => flushed_entries op + n) 0 ops.

Lemma flushed_nonneg op : 0 <= flushed_entries op.
Proof. destruct op; [apply len_nonneg|done..]. Qed.
Lemma total_nonneg ops : 0 <= total ops.
Proof. induction ops as [|op ops IH]; [done|]. cbn [total foldr]. fold (total ops). pose proof (flushed_nonneg op). lia. Qed.

(** The tree holds the map. *)
Record holds (T : catalog) (l : LSMTree) (m : contents) : Prop := {
  ho_ok : lsm_ok T l;
  ho_map : forall k, stored T (version l) k = m k;
  ho_agree : Order.agree CompareKeys (tables T (search_order (version l)));
}.

Definition entries_held (T : catalog) (l : LSMTree) : Z := len (concat (tables T (search_order (version l)))).

Lemma agree_flush es (L : list (list kv)) :
  Order.agree CompareKeys L ->
  (forall k v v', assoc CompareKeys k es = Some v -> first_assoc CompareKeys k L = Some v' -> v = v') ->
  Order.agree CompareKeys (es :: L).
Proof.
  intros Ha Hes. assert (forall k v l' v', assoc CompareKeys k es = Some v -> l' ∈ L -> assoc CompareKeys k l' = Some v' -> v = v') as H.
  { intros k v l' v' E1 Hl E2. destruct (first_assoc_find (cmp := CompareKeys) k l' v' L Hl E2) as [w Hw].
    rewrite (Hes k v w E1 Hw). apply first_assoc_from in Hw as (l2 & Hl2 & E3). by apply (Ha k l2 l'). }
  intros k l1 l2 v1 v2 [->|H1]%elem_of_cons [->|H2]%elem_of_cons E1 E2; [congruence|by eapply H|symmetry; by eapply H|by apply (Ha k l1 l2)].
Qed.

Lemma flush_holds T l m mt es :
  holds T l m -> op_ok (BlockSize (opts l)) m (OFlush mt es) -> nextFileNum (man (lenv l)) < 2 ^ 64 - 1 ->
  exists T' l', lsm_step (OFlush mt es) l = (l', Ok None) /\ holds T' l' (spec_step m (OFlush mt es)) /\ opts l' = opts l /\
    entries_held T' l' = entries_held T l + len es /\ nextFileNum (man (lenv l')) = nextFileNum (man (lenv l)) + 1.
Proof.
  intros [Hok Hm Ha] (Hmt & Hfit & Hlen & Hag) Hn.
  destruct (Flush_lsm_ok Sum128 CompressBlock UncompressBlock T l mt es Hok Hmt Hfit Hlen Hn)
    as (T' & l' & E & Hok' & Ht & _ & _ & _ & Ho & Hnx).
  exists T', l'. split_and!; [by cbn; erewrite st_bind_ok by exact E| |done| |done].
  - split; [done| |].
    + intros k. unfold stored. rewrite Ht. cbn [first_assoc spec_step]. destruct (assoc _ _ _); [done|]. apply Hm.
    + rewrite Ht. apply agree_flush; [done|]. intros k v v' E1 E2. eapply Hag; [done|]. by rewrite <- Hm.
  - unfold entries_held. rewrite Ht. cbn [concat]. rewrite len_app. lia.
Qed.

Lemma holds_tables_perm T l : tables T (search_order (version l)) ≡ₚ tables T (concat (version l)).
Proof. unfold tables. by rewrite search_order_perm. Qed.

Lemma entries_held_perm T l : entries_held T l = len (concat (tables T (concat (version l)))).
Proof. unfold entries_held, len. by rewrite holds_tables_perm. Qed.

(** What a compaction does to the map. *)
Lemma compacted_holds T l m T' l' c :
  holds T l m -> compacted T l (fun _ => 0) T' l' c ->
  holds T' l' m /\ opts l' = opts l /\ entries_held T' l' <= entries_held T l /\
  nextFileNum (man (lenv l')) <= nextFileNum (man (lenv l)) + entries_held T l.
Proof.
  intros [Hok Hm Ha] [_ Hpk (fs & outs & Hex) Hok' Ho _].
  pose proof Hpk as [_ _ _ (p & q & _ & _ & Hp & Hq & _)].
  pose proof (new_version Sum128 CompressBlock T l c p q _ Hok Hpk Hp Hq _ T' (lenv l') fs outs Hex) as Hv.
  assert (tables T' (concat (version l')) ≡ₚ tables T' (kept l c p q ++ fs)) as Hperm.
  { unfold version at 1, tables. rewrite Hv, new_perm. done. }
  assert (Order.agree CompareKeys (tables T (concat (version l)))) as Ha'.
  { intros k l1 l2 v1 v2. rewrite <- !holds_tables_perm. apply Ha. }
  split_and!; [split; [done| |]|done| |].
  - intros k. rewrite <- Hm. apply (new_stored_same Sum128 CompressBlock T l c p q (fun _ => 0) Hok Hpk Hp Hq _ T' (lenv l') fs outs Hex); try done.
    intros _ k' l1 l2 v1 v2 (f & -> & Hf)%list_elem_of_fmap (g & -> & Hg)%list_elem_of_fmap.
    apply Ha'; apply (list_elem_of_fmap_2 (fun f => tab T (FileNum f)));
      rewrite (files_split l c p q Hp Hq), !elem_of_app; auto.
  - intros k l1 l2 v1 v2 H1 H2 E1 E2. rewrite holds_tables_perm, Hperm in H1, H2.
    destruct (new_entries Sum128 CompressBlock T l c p q (fun _ => 0) Hok Hpk Hp Hq _ T' (lenv l') fs outs Hex l1 k v1 H1 E1) as (L1 & ? & ?).
    destruct (new_entries Sum128 CompressBlock T l c p q (fun _ => 0) Hok Hpk Hp Hq _ T' (lenv l') fs outs Hex l2 k v2 H2 E2) as (L2 & ? & ?).
    by apply (Ha' k L1 L2).
  - rewrite !entries_held_perm. unfold len at 1. rewrite Hperm.
    apply (new_length Sum128 CompressBlock T l c p q (fun _ => 0) Hok Hpk Hp Hq _ T' (lenv l') fs outs Hex).
  - destruct (ex_next _ _ _ _ _ _ _ _ _ _ _ Hex) as [_ Hnx]. rewrite entries_held_perm.
    enough (len (merged T (fun _ => 0) c (max_occupied (version l))) <= len (concat (tables T (concat (version l))))) by lia.
    pose proof (kept_perm Sum128 CompressBlock T l c p q Hok Hpk Hp Hq) as Hkp.
    assert (concat (tables T (concat (version l))) ≡ₚ concat (tables T (inputs c ++ kept l c p q))) as Hpt by (unfold tables; by rewrite Hkp).
    unfold merged. rewrite gc_list_all by done. unfold len. rewrite Hpt, tables_app, concat_app, length_app.
    pose proof (length_munion (cmp := CompareKeys) (tables T (inputs c))). fold (tables T (inputs c)). lia.
Qed.

Lemma step_holds T l m op :
  holds T l m -> op_ok (BlockSize (opts l)) m op -> 0 <= entries_held T l ->
  nextFileNum (man (lenv l)) + 1 + entries_held T l < 2 ^ 64 - 1 ->
  exists T' l', lsm_step op l = (l', Ok (spec_answer m op)) /\ holds T' l' (spec_step m op) /\ opts l' = opts l /\
    0 <= entries_held T' l' <= entries_held T l + flushed_entries op /\
    nextFileNum (man (lenv l')) <= nextFileNum (man (lenv l)) + 1 + entries_held T l.
Proof.
  intros Hh Hop Hpos Hn. destruct op as [mt es| |k].
  - destruct (flush_holds T l m mt es Hh Hop) as (T' & l' & E & Hh' & Ho & He & Hnx); [lia|].
    pose proof (len_nonneg es). exists T', l'. cbn [flushed_entries]. split_and!; [done..|lia|lia|lia].
  - destruct (compact_once_ok T l (fun _ => 0) 0 (ho_ok _ _ _ Hh)) as (l' & b & E & [(-> & -> & _)|(-> & T' & c & Hc)]);
      [rewrite <- entries_held_perm; lia|..].
    + exists T, l. cbn [lsm_step flushed_entries spec_answer spec_step]. erewrite st_bind_ok by exact E. split_and!; [done..|lia|lia|lia].
    + destruct (compacted_holds T l m T' l' c Hh Hc) as (Hh' & Ho & He & Hnx). exists T', l'.
      cbn [lsm_step flushed_entries spec_answer spec_step]. erewrite st_bind_ok by exact E.
      split_and!; [done..|unfold entries_held; apply len_nonneg|lia|lia].
  - destruct Hh as [Hok Hm Ha]. destruct (Get_lsm_ok Sum128 CompressBlock UncompressBlock T l k Hok) as (c & E & Hc).
    exists T, (set_env (set_cache c (lenv l)) l). cbn [lsm_step flushed_entries spec_answer spec_step]. rewrite E, Hm.
    set (l' := set_env _ l). change (entries_held T l') with (entries_held T l).
    change (nextFileNum (man (lenv l'))) with (nextFileNum (man (lenv l))).
    split_and!; [done| |done|done|lia|lia]. split; [by apply lsm_ok_cache|done..].
Qed.

Lemma run_holds ops : forall T l m n,
  holds T l m -> ops_ok (BlockSize (opts l)) m ops -> 0 <= entries_held T l -> entries_held T l + total ops <= n ->
  nextFileNum (man (lenv l)) + len ops * (1 + n) < 2 ^ 64 - 1 ->
  exists T' l', mapM lsm_step ops l = (l', Ok (spec_answers m ops)) /\ holds T' l' (foldl spec_step m ops).
Proof.
  induction ops as [|op ops IH]; intros T l m n Hh Hops Hpos Htot Hn.
  { exists T, l. done. }
  destruct Hops as [Hop Hops]. rewrite len_cons in Hn. cbn [total foldr] in Htot. fold (total ops) in Htot.
  pose proof (len_nonneg ops). pose proof (flushed_nonneg op).
  pose proof (total_nonneg ops).
  destruct (step_holds T l m op Hh Hop Hpos) as (T1 & l1 & E1 & Hh1 & Ho1 & He1 & Hn1); [nia|].
  destruct (IH T1 l1 (spec_step m op) n Hh1) as (T' & l' & E' & Hh'); [by rewrite Ho1|lia|lia|nia|].
  exists T', l'. cbn [mapM spec_answers foldl]. erewrite st_bind_ok by exact E1. erewrite st_bind_ok by exact E'. done.
Qed.

Lemma NewLSMTree_ok o : opts_ok o ->
  exists l, NewLSMTree o ∅ [] = Ok l /\ holds (fun _ => Some []) l (fun _ => None) /\ opts l = o /\
    entries_held (fun _ => Some []) l = 0 /\ nextFileNum (man (lenv l)) = 1.
Proof.
  intros Ho. eexists. split; [reflexivity|]. split_and!; [|done..]. split; [|done|by intros k l1 l2 v1 v2 ?%elem_of_nil].
  split; cbn; try done.
  - split; cbn; [done|]. exists ∅. split; [apply NewBlockCache_ok|]. intros id off d B Hd. by rewrite lookup_empty in Hd.
  - by intros f ?%elem_of_nil.
  - constructor.
  - repeat (apply Forall_cons_2; [apply lv_sorted_nil|]). constructor.
  - by intros f ?%elem_of_nil.
Qed.
End tree.

(** ** Properties *)

Section properties.
Context (Sum128 : bytes -> Z * Z).
Context (CompressBlock : bytes -> option bytes) (UncompressBlock : bytes -> Z -> option bytes).
Context `{!Lz4 CompressBlock UncompressBlock}.


(** A lookup searches the newest tables first.  In a tree that satisfies the
    invariant, [Get] answers with the first table that has the key, the first level from
    its last file to its first, then the deeper levels by binary search; it changes
    nothing but the cache. *)
Theorem lsm_get_refines (T : catalog) (l : LSMTree) (key : bytes) (Hok : lsm_ok Sum128 CompressBlock T l) :
  exists l', Get Sum128 UncompressBlock key l = (l', Ok (stored T (version l) key)) /\
    lsm_ok Sum128 CompressBlock T l' /\ version l' = version l /\ sst (lenv l') = sst (lenv l).
Proof.
  destruct (Get_lsm_ok Sum128 CompressBlock UncompressBlock T l key Hok) as (c & E & Hc). eexists. split; [exact E|].
  split; [by apply lsm_ok_cache|done].
Qed.

(** A flush puts the memtable in front.  The entries of the memtable become a table
    at the end of the first level, which every lookup tries first; the stall flag says
    whether the level has reached the trigger, and a compaction is asked for. *)
Theorem lsm_flush_refines (T : catalog) (l : LSMTree) (mt : memtable.MemTable) (es : list kv)
    (Hok : lsm_ok Sum128 CompressBlock T l) (Hmt : listed mt es) (Hfit : Forall (fits (BlockSize (opts l))) es)
    (Hlen : len (blk_data es) < 2 ^ 40) (Hn : nextFileNum (man (lenv l)) < 2 ^ 64 - 1) :
  exists T' l', Flush Sum128 CompressBlock mt l = (l', Ok tt) /\ lsm_ok Sum128 CompressBlock T' l' /\
    (forall k, stored T' (version l') k = match assoc CompareKeys k es with Some v => Some v | None => stored T (version l) k end) /\
    l0_count l' = l0_count l + 1 /\ stalled l' = (L0StallTrigger (opts l) <=? l0_count l') /\ compactCh l' = true.
Proof.
  destruct (Flush_lsm_ok Sum128 CompressBlock UncompressBlock T l mt es Hok Hmt Hfit Hlen Hn)
    as (T' & l' & E & Hok' & Ht & Hl0 & Hst & Hch & _). exists T', l'. split_and!; try done.
  intros k. unfold stored. rewrite Ht. cbn. by destruct (assoc _ _ _).
Qed.

(** C12: compaction keeps lookups.  When the files of the first level agree on the keys
    they share and no version may be dropped, a round of compaction succeeds, keeps the
    invariant and changes the answer to no lookup, whichever level it picks; it makes
    the stall flag true again to the first level. *)
Theorem lsm_compaction_keeps_lookups (T : catalog) (l : LSMTree) (durationMs : Z) (l0 : list FileMetadata)
    (Hok : lsm_ok Sum128 CompressBlock T l) (Hl0 : version l !! 0%nat = Some l0)
    (Hagree : Order.agree CompareKeys (tables T l0))
    (Hn : nextFileNum (man (lenv l)) + len (concat (tables T (concat (version l)))) < 2 ^ 64 - 1) :
  exists T' l' b, compact_once Sum128 CompressBlock UncompressBlock (fun _ => 0) durationMs l = (l', Ok b) /\
    lsm_ok Sum128 CompressBlock T' l' /\ (forall k, stored T' (version l') k = stored T (version l) k) /\
    (b = true -> stalled l' = (L0StallTrigger (opts l) <=? l0_count l')) /\ (b = false -> l' = l).
Proof.
  destruct (compact_once_ok Sum128 CompressBlock UncompressBlock T l (fun _ => 0) durationMs Hok Hn)
    as (l' & b & E & [(-> & -> & _)|(-> & T' & c & [_ Hpk (fs & outs & Hex) Hok' Ho Hst])]); [by exists T, l, false|].
  exists T', l', true. split_and!; try done. intros k. pose proof Hpk as [_ _ _ (p & q & _ & _ & Hp & Hq & _)].
  apply (new_stored_same Sum128 CompressBlock T l c p q (fun _ => 0) Hok Hpk Hp Hq _ T' (lenv l') fs outs Hex); try done.
  intros H0. rewrite H0 in Hp. by rewrite Hl0 in Hp; injection Hp as <-.
Qed.
End properties.

(** ** Write stalls *)

Section stalls.
Context (Sum128 : bytes -> Z * Z).
Context (CompressBlock : bytes -> option bytes) (UncompressBlock : bytes -> Z -> option bytes).

(** Steps of the goroutines of a tree; a flush passes [WaitForStall] only when the tree
    is not stalled. *)
Inductive step : LSMTree -> LSMTree -> Prop :=
  | StepFlush mt waited l l' r : stalled l = false -> Flush Sum128 CompressBlock mt (WaitForStall waited l) = (l', r) -> step l l'
  | StepCompact minActive d l l' r : lsm.compact_once Sum128 CompressBlock UncompressBlock minActive d l = (l', r) -> step l l'
  | StepGet k l l' r : Get Sum128 UncompressBlock k l = (l', r) -> step l l'.

Lemma with_cache_man {A} (op : st sst_error (option cache.BlockCache) A) e : man (with_cache op e).1 = man e.
Proof. unfold with_cache. by destruct (op (bcache e)). Qed.

Lemma bind_man {A B} (x : st lsm_error env A) (f : A -> st lsm_error env B) e :
  (forall e, man (x e).1 = man e) -> (forall a e, man (f a e).1 = man e) -> man ((x ≫= f) e).1 = man e.
Proof.
  intros Hx Hf. unfold mbind, st_bind. specialize (Hx e). destruct (x e) as [e1 [a| | |]]; cbn in *; [|done..].
  by rewrite Hf.
Qed.

Lemma get_table_man rs f k e : man (get_table Sum128 UncompressBlock rs f k e).1 = man e.
Proof. unfold get_table. destruct (rs !! FileNum f); [apply with_cache_man|done]. Qed.

Lemma get_in_man v rs k e : man (get_in Sum128 UncompressBlock v rs k e).1 = man e.
Proof.
  destruct v as [|l0 ls]; [done|]. cbn [get_in]. apply bind_man.
  - intros e1. revert e1. generalize (reverse l0) as fs. induction fs as [|f fs IH]; intros e1; [done|]. cbn [get_first].
    apply bind_man; [apply get_table_man|]. intros [v|] e2; [done|apply IH].
  - intros [v|]; [done|]. induction ls as [|files ls IH]; [done|]. intros e1. cbn [get_levels].
    apply bind_man; [done|]. intros target e2. apply bind_man; [|intros [v|] e3; [done|apply IH]].
    intros e3. destruct target; [apply get_table_man|done].
Qed.

(** A stall without a compaction to do is for ever.  When the tree is stalled and the
    picker finds nothing to compact, no step of any goroutine changes the levels or lifts
    the stall: every later flush waits. *)
Theorem stall_is_permanent (l l' : LSMTree) (Hst : stalled l = true) (Hpick : PickCompaction (version l) = Ok None)
    (Hsteps : rtc step l l') :
  stalled l' = true /\ version l' = version l.
Proof.
  induction Hsteps as [|l l1 l2 H1 _ IH]; [done|].
  assert (stalled l1 = true /\ version l1 = version l) as [Hs Hv].
  { destruct H1 as [mt w l l1 r Hns _|ma d l l1 r H|k l l1 r H]; [congruence|..].
    - unfold lsm.compact_once in H. rewrite Hpick in H. by injection H as <- _.
    - unfold Get, with_env in H. pose proof (get_in_man (version l) (readers l) k (lenv l)) as Hm.
      destruct (get_in _ _ _ _ _ _) as [e x]. injection H as <- _. unfold version. cbn in *. by rewrite Hm. }
  rewrite Hv in IH. by apply IH.
Qed.
End stalls.

(** ** A small tree *)

Definition mt_of (k v : bytes) : memtable.MemTable :=
  match memtable.Put (fun _ => false) (memtable.NewMemTable 1000) k (Some v) with Ok m => m | _ => memtable.NewMemTable 1000 end.

Lemma mt_of_listed k v : listed (mt_of k v) [(k, Some v)].
Proof.
  destruct (Put_ok (fun _ => false) skiplist.NewSkipList [] k (Some v) NewSkipList_inv) as (sl' & ls' & E & Hinv & He).
  exists ls'. unfold mt_of, memtable.Put, memtable.NewMemTable. cbn [memtable.frozen memtable.maxSize orb].
  change (1000 <=? _) with false. cbv iota. cbn [memtable.sl]. rewrite E. by split.
Qed.

Definition small_opts (trigger : Z) : LSMOptions := mkOpts 4096 10 0 0 trigger.

Lemma small_opts_ok trigger : opts_ok (small_opts trigger).
Proof. split; vm_compute; reflexivity. Qed.

Definition put (k v : bytes) : lsm_op := OFlush (mt_of k v) [(k, Some v)].

(** The answers of a tree opened on a directory, and the tree. *)
Definition run_on (trigger : Z) (dir : gmap Z bytes) (data : bytes) (ops : list lsm_op)
    : outcome lsm_error (LSMTree * list (option (option bytes))) :=
  l ← NewLSMTree (small_opts trigger) dir data;
  let '(l, r) := mapM (lsm_step toy_hash toy_compress toy_uncompress) ops l in
  r ← r; Ok (l, r).

Definition answers (r : outcome lsm_error (LSMTree * list (option (option bytes)))) : option (list (option (option bytes))) :=
  match r with Ok (_, r) => Some r | _ => None end.


(** The tree opened again on what [r] left in the directory. *)
Definition reopened (r : outcome lsm_error (LSMTree * list (option (option bytes)))) (ops : list lsm_op)
    : outcome lsm_error (LSMTree * list (option (option bytes))) :=
  x ← r; run_on 12 (sst (lenv x.1)) (fdata (mfile (man (lenv x.1)))) ops.


(** A stall trigger of at most four is never lifted.  After four flushes such a tree
    is stalled, its picker wants more than four files, and by [stall_is_permanent] it
    stays stalled. *)
Lemma small_trigger_stalls :
  match run_on 4 ∅ [] [put (str "k1") (str "v"); put (str "k2") (str "v"); put (str "k3") (str "v"); put (str "k4") (str "v")] with
  | Ok (l, _) => stalled l = true /\ PickCompaction (version l) = Ok None
  | _ => False
  end.
Proof. vm_compute. split; reflexivity. Qed.

Definition stalled_tree : LSMTree :=
  match run_on 4 ∅ [] [put (str "k1") (str "v"); put (str "k2") (str "v"); put (str "k3") (str "v"); put (str "k4") (str "v")] with
  | Ok (l, _) => l
  | _ => mkLSM (mkEnv ∅ (mkManifest (mkFile [] 0 []) [] 0) None [] []) ∅ (small_opts 4) false false stats.zero_stats None
  end.

Lemma stall_is_permanent_witness :
  stalled stalled_tree = true /\ version stalled_tree = version stalled_tree.
Proof.
  apply (stall_is_permanent toy_hash toy_compress toy_uncompress stalled_tree stalled_tree).
  - vm_compute. reflexivity.
  - vm_compute. reflexivity.
  - apply rtc_refl.
Defined.

Lemma sample_fits k v : len k < 1000 -> len v < 1000 -> Forall (fits 4096) [(k, Some v)].
Proof.
  intros Hk Hv. apply Forall_singleton. split; [split; cbn; lia|]. cbn [fst snd]. rewrite len_entry.
  unfold sstable.DefaultBlockSize. lia.
Qed.

Definition sample_ops : list lsm_op :=
  [put (str "k1") (str "v1"); put (str "k2") (str "v2"); OCompact; OGet (str "k1"); OGet (str "k3"); OGet (str "k2")].

Lemma sample_ops_ok : ops_ok 4096 (fun _ => None) sample_ops.
Proof.
  assert (forall m k v, len k < 1000 -> len v < 1000 -> (forall w, m k = Some w -> Some v = w) -> op_ok 4096 m (put k v)) as Hput.
  { intros m k v Hk Hv Hm. split_and!; [apply mt_of_listed|by apply sample_fits| |].
    - change (blk_data [(k, Some v)]) with (sstable.entry_bytes k (Some v) ++ []). rewrite app_nil_r, len_entry. lia.
    - intros k' w w' Hw Hm'. cbn in Hw. destruct (CompareKeys k k') eqn:E; [|done..]. apply (ko_eq CompareKeys) in E as <-.
      injection Hw as <-. by apply Hm. }
  unfold sample_ops. cbn [ops_ok]. split; [by apply Hput|]. split; [|done]. apply Hput; [done|done|]. vm_compute. done.
Qed.


(** A tree that holds one key. *)
Lemma sample_tree : exists T l, lsm_ok toy_hash toy_compress T l /\ opts l = small_opts 12 /\
  stored T (version l) (str "k1") = Some (Some (str "v1")) /\ nextFileNum (man (lenv l)) < 10 /\
  version l !! 0%nat <> None /\ Order.agree CompareKeys (tables T (search_order (version l))) /\ entries_held T l < 10.
Proof.
  destruct (NewLSMTree_ok toy_hash toy_compress (small_opts 12) (small_opts_ok 12)) as (l0 & _ & Hh & Ho & He & Hn).
  destruct sample_ops_ok as [Hop _].
  destruct (flush_holds toy_hash toy_compress toy_uncompress _ l0 _ (mt_of (str "k1") (str "v1")) [(str "k1", Some (str "v1"))] Hh) as (T & l & _ & [Hok Hm Ha] & Ho' & He' & Hn');
    [rewrite Ho; exact Hop|lia|].
  exists T, l. split_and!; [done|congruence|by rewrite Hm|lia| |done|rewrite He', He; vm_compute; reflexivity].
  pose proof (lo_levels _ _ _ _ Hok) as Hl. by destruct (version l).
Qed.

Lemma lsm_get_refines_witness : exists T l l', lsm_ok toy_hash toy_compress T l /\
  Get toy_hash toy_uncompress (str "k1") l = (l', Ok (Some (Some (str "v1")))).
Proof.
  destruct sample_tree as (T & l & Hok & _ & Hst & _). exists T, l.
  destruct (lsm_get_refines toy_hash toy_compress toy_uncompress T l (str "k1") Hok) as (l' & E & _).
  exists l'. split; [exact Hok|]. rewrite <- Hst. exact E.
Defined.

Lemma lsm_flush_refines_witness : exists T l T' l', lsm_ok toy_hash toy_compress T l /\
  Flush toy_hash toy_compress (mt_of (str "k1") (str "v9")) l = (l', Ok tt) /\
  stored T (version l) (str "k1") = Some (Some (str "v1")) /\ stored T' (version l') (str "k1") = Some (Some (str "v9")).
Proof.
  destruct sample_tree as (T & l & Hok & Ho & Hst & Hn & _). exists T, l.
  destruct (lsm_flush_refines toy_hash toy_compress toy_uncompress T l (mt_of (str "k1") (str "v9")) [(str "k1", Some (str "v9"))]
    Hok (mt_of_listed _ _)) as (T' & l' & E & _ & Hs & _).
  - rewrite Ho. apply sample_fits; vm_compute; reflexivity.
  - vm_compute. reflexivity.
  - lia.
  - exists T', l'. split; [exact Hok|]. split; [exact E|]. split; [exact Hst|]. apply Hs.
Defined.

Lemma lsm_compaction_keeps_lookups_witness : exists T l T' l' b, lsm_ok toy_hash toy_compress T l /\
  compact_once toy_hash toy_compress toy_uncompress (fun _ => 0) 5 l = (l', Ok b) /\
  stored T' (version l') (str "k1") = Some (Some (str "v1")).
Proof.
  destruct sample_tree as (T & l & Hok & _ & Hst & Hn & Hl & Ha & He). destruct (version l !! 0%nat) as [l0|] eqn:El; [|done].
  exists T, l. destruct (lsm_compaction_keeps_lookups toy_hash toy_compress toy_uncompress T l 5 l0 Hok El) as (T' & l' & b & E & _ & Hs & _).
  - intros k l1 l2 v1 v2 (f & -> & Hf)%list_elem_of_fmap (g & -> & Hg)%list_elem_of_fmap.
    apply Ha; apply (list_elem_of_fmap_2 (fun f => tab T (FileNum f))); rewrite search_order_perm;
      apply list_elem_of_In, in_concat; exists l0; rewrite <- !list_elem_of_In; split; try done; by eapply list_elem_of_lookup_2.
  - rewrite <- entries_held_perm. lia.
  - exists T', l', b. split; [exact Hok|]. split; [exact E|]. rewrite Hs. exact Hst.
Defined.
