(* ===== verification/Raft.v ===== *)
(** * Raft (internal/raft/raft.go, wal.go)

    A node's handlers and the bodies of its goroutines, each of which runs under [n.mu],
    are functions on the node.  [becomeLeader] calls [sendHeartbeats], which locks the
    mutex its caller holds: the node keeps the mutex for ever, which [held] records, and
    no handler of a node with [held] runs again.  A cluster steps by elections, by votes
    asked, answered, counted or lost, and by arbitrary [AppendEntries] calls.  Peer names
    are byte strings, the empty one is [[]]; terms and indices are [uint64]. *)

From S2P Require Import Prelude Files WalBatch WalLog.

#[local] Open Scope Z_scope.

Module raft.

Inductive State := Follower | Candidate | Leader.

#[export] Instance State_eq_dec : EqDecision State.
Proof. solve_decision. Defined.

Record LogEntry := mkEntry { Term : Z; Index : Z; Data : bytes }.

Record Config := mkConfig {
  ID : bytes; Peers : list bytes; ElectionMin : Z; ElectionMax : Z; HeartbeatTime : Z; LeaseDuration : Z;
}.

Record Node := mkNode {
  id : bytes;
  peers : list bytes;
  state : State;
  currentTerm : Z;
  votedFor : bytes;
  leaseTimeout : Z;
  commitIndex : Z;
  lastApplied : Z;
  applyCh : list LogEntry;
  wal : wal_log.Writer;
  log : list LogEntry;
  nextIndex : gmap bytes Z;
  matchIndex : gmap bytes Z;
  held : bool;
}.

Record RequestVoteRequest := mkVoteReq { VTerm : Z; CandidateId : bytes; LastLogIndex : Z; LastLogTerm : Z }.
Record RequestVoteResponse := mkVoteResp { VRTerm : Z; VoteGranted : bool }.
Record AppendEntriesRequest := mkAppendReq {
  ATerm : Z; LeaderId : bytes; PrevLogIndex : Z; PrevLogTerm : Z; Entries : list LogEntry; LeaderCommit : Z;
}.
Record AppendEntriesResponse := mkAppendResp { ARTerm : Z; Success : bool }.

(** ** wal.go *)

(** The raft log file; its contents are the records of the [wal] package. *)
Definition OpenWAL (f : File) : wal_log.Writer := wal_log.NewWriter f.

(** [SaveState] writes nothing. *)
Definition SaveState (term : Z) (votedFor : bytes) (w : wal_log.Writer) : wal_log.Writer := w.

(** [proto.Marshal]. *)
Section wal.
Context (Marshal : LogEntry -> option bytes).

(** The entries, tagged, are appended; [Sync] does nothing.  The only caller ignores the
    error. *)
Fixpoint wal_AppendEntries (entries : list LogEntry) (w : wal_log.Writer) : wal_log.Writer * outcome wal_error unit :=
  match entries with
  | [] => (w, Ok tt)
  | entry :: entries =>
      match Marshal entry with
      | None => (w, Err ErrCorruptRecord)
      | Some data =>
          match wal_log.Append (Byte.x01 :: data) w with
          | (w, Ok _) => wal_AppendEntries entries w
          | (w, r) => (w, r)
          end
      end
  end.

(** ** The node *)

Definition set_state (s : State) (n : Node) : Node :=
  mkNode (id n) (peers n) s (currentTerm n) (votedFor n) (leaseTimeout n) (commitIndex n) (lastApplied n) (applyCh n)
    (wal n) (log n) (nextIndex n) (matchIndex n) (held n).
Definition set_term (term : Z) (voted : bytes) (n : Node) : Node :=
  mkNode (id n) (peers n) (state n) term voted (leaseTimeout n) (commitIndex n) (lastApplied n) (applyCh n)
    (SaveState term voted (wal n)) (log n) (nextIndex n) (matchIndex n) (held n).
Definition set_commit (c : Z) (n : Node) : Node :=
  mkNode (id n) (peers n) (state n) (currentTerm n) (votedFor n) (leaseTimeout n) c (lastApplied n) (applyCh n)
    (wal n) (log n) (nextIndex n) (matchIndex n) (held n).
Definition set_applied (a : Z) (sent : list LogEntry) (n : Node) : Node :=
  mkNode (id n) (peers n) (state n) (currentTerm n) (votedFor n) (leaseTimeout n) (commitIndex n) a sent
    (wal n) (log n) (nextIndex n) (matchIndex n) (held n).
Definition set_log (w : wal_log.Writer) (es : list LogEntry) (n : Node) : Node :=
  mkNode (id n) (peers n) (state n) (currentTerm n) (votedFor n) (leaseTimeout n) (commitIndex n) (lastApplied n) (applyCh n)
    w es (nextIndex n) (matchIndex n) (held n).
Definition set_indices (next match_ : gmap bytes Z) (n : Node) : Node :=
  mkNode (id n) (peers n) (state n) (currentTerm n) (votedFor n) (leaseTimeout n) (commitIndex n) (lastApplied n) (applyCh n)
    (wal n) (log n) next match_ (held n).
Definition set_lease (t : Z) (n : Node) : Node :=
  mkNode (id n) (peers n) (state n) (currentTerm n) (votedFor n) t (commitIndex n) (lastApplied n) (applyCh n)
    (wal n) (log n) (nextIndex n) (matchIndex n) (held n).
Definition set_held (n : Node) : Node :=
  mkNode (id n) (peers n) (state n) (currentTerm n) (votedFor n) (leaseTimeout n) (commitIndex n) (lastApplied n) (applyCh n)
    (wal n) (log n) (nextIndex n) (matchIndex n) true.

Definition NewNode (cfg : Config) (f : File) : Node :=
  mkNode (ID cfg) (Peers cfg) Follower 0 [] 0 0 0 [] (OpenWAL f) [mkEntry 0 0 []] ∅ ∅ false.

Definition stepDown (term : Z) (n : Node) : Node := set_state Follower (set_term term [] n).

(** [n.log[i]]. *)
Definition entry_at (n : Node) (i : Z) : outcome Empty_set LogEntry :=
  if i <? 0 then Panic else match log n !! Z.to_nat i with Some e => Ok e | None => Panic end.

Definition lastLogIdx (n : Node) : Z := u64 (len (log n) - 1).

(** ** Elections *)

(** The candidate, and the request it sends to every other peer. *)
Definition startElection (n : Node) : outcome Empty_set (Node * RequestVoteRequest) :=
  let n := set_state Candidate n in
  let n := set_term (u64 (currentTerm n + 1)) (id n) n in
  last ← entry_at n (lastLogIdx n);
  Ok (n, mkVoteReq (currentTerm n) (id n) (lastLogIdx n) (Term last)).

Definition RequestVote (req : RequestVoteRequest) (n : Node) : outcome Empty_set (Node * RequestVoteResponse) :=
  let n := if currentTerm n <? VTerm req then stepDown (VTerm req) n else n in
  if (VTerm req =? currentTerm n) && (bool_decide (votedFor n = []) || bool_decide (votedFor n = CandidateId req)) then
    last ← entry_at n (lastLogIdx n);
    if (Term last <? LastLogTerm req) || ((LastLogTerm req =? Term last) && (lastLogIdx n <=? LastLogIndex req)) then
      Ok (set_term (currentTerm n) (CandidateId req) n, mkVoteResp (currentTerm n) true)
    else Ok (n, mkVoteResp (currentTerm n) false)
  else Ok (n, mkVoteResp (currentTerm n) false).

(** [becomeLeader], up to the lock it never gets. *)
Definition becomeLeader (n : Node) : Node :=
  let n := set_state Leader n in
  let n := set_indices (foldl (fun m p => <[p := u64 (len (log n))]> m) (nextIndex n) (peers n))
                       (foldl (fun m p => <[p := 0]> m) (matchIndex n) (peers n)) n in
  set_held n.

Definition majority (n : Node) (count : Z) : bool := Z.quot (len (peers n) + 1) 2 <? count.

(** What the goroutine of a vote request of the election in [term] does with the
    response; [votes] is the counter of that election. *)
Definition vote_response (term : Z) (resp : RequestVoteResponse) (votes : Z) (n : Node) : Node * Z :=
  if negb (bool_decide (state n = Candidate)) || negb (currentTerm n =? term) then (n, votes)
  else if currentTerm n <? VRTerm resp then (stepDown (VRTerm resp) n, votes)
  else if VoteGranted resp then
    let votes := votes + 1 in
    (if majority n votes then becomeLeader n else n, votes)
  else (n, votes).

(** ** Replication *)

(** The loop runs [commitIndex - lastApplied] times. *)
Fixpoint apply_loop (fuel : nat) (n : Node) : outcome Empty_set Node :=
  if lastApplied n <? commitIndex n then
    match fuel with
    | O => Fuel
    | S fuel =>
        let i := u64 (lastApplied n + 1) in
        entry ← entry_at n i;
        apply_loop fuel (set_applied i (applyCh n ++ [entry]) n)
    end
  else Ok n.

Definition applyLog (n : Node) : outcome Empty_set Node := apply_loop (Z.to_nat (commitIndex n - lastApplied n)) n.

Definition AppendEntries (req : AppendEntriesRequest) (n : Node) : outcome Empty_set (Node * AppendEntriesResponse) :=
  let n := if currentTerm n <? ATerm req then stepDown (ATerm req) n else n in
  if ATerm req <? currentTerm n then Ok (n, mkAppendResp (currentTerm n) false)
  else
    let n := set_state Follower n in
    if len (log n) <=? PrevLogIndex req then Ok (n, mkAppendResp (currentTerm n) false)
    else
      prev ← entry_at n (PrevLogIndex req);
      if negb (Term prev =? PrevLogTerm req) then Ok (n, mkAppendResp (currentTerm n) false)
      else
        let n := set_log (wal_AppendEntries (Entries req) (wal n)).1
                   (take (Z.to_nat (PrevLogIndex req + 1)) (log n) ++ Entries req) n in
        n ← (if commitIndex n <? LeaderCommit req then
               applyLog (set_commit (if LeaderCommit req <? lastLogIdx n then LeaderCommit req else lastLogIdx n) n)
             else Ok n);
        Ok (n, mkAppendResp (currentTerm n) true).

(** The matching peers, this node included. *)
Definition match_count (n : Node) (i : Z) : Z :=
  foldl (fun c p => if negb (bool_decide (p = id n)) && (i <=? default 0 (matchIndex n !! p)) then c + 1 else c) 1 (peers n).

Fixpoint advance_loop (fuel : nat) (i : Z) (n : Node) : outcome Empty_set Node :=
  if commitIndex n <? i then
    match fuel with
    | O => Fuel
    | S fuel =>
        entry ← entry_at n i;
        if majority n (match_count n i) && (Term entry =? currentTerm n) then applyLog (set_commit (u64 i) n)
        else advance_loop fuel (i - 1) n
    end
  else Ok n.

Definition advanceCommitIndex (n : Node) : outcome Empty_set Node := advance_loop (length (log n)) (len (log n) - 1) n.

(** [sendHeartbeats]: a leader starts a goroutine for every other peer, with its term. *)
Definition sendHeartbeats (n : Node) : option (Z * list bytes) :=
  if bool_decide (state n = Leader) then Some (currentTerm n, filter (fun p => p <> id n) (peers n)) else None.

(** The request of the goroutine of peer [p]. *)
Definition heartbeat_request (term : Z) (p : bytes) (n : Node) : outcome Empty_set AppendEntriesRequest :=
  let nextIdx := default 0 (nextIndex n !! p) in
  let prevLogIdx := u64 (nextIdx - 1) in
  prev ← entry_at n prevLogIdx;
  if len (log n) <? nextIdx then Panic
  else Ok (mkAppendReq term (id n) prevLogIdx (Term prev) (drop (Z.to_nat nextIdx) (log n)) (commitIndex n)).

(** What the goroutine of peer [p] does with the response to [req]; [successCount] is
    the counter of the round, and the lease is extended before the response is looked
    at. *)
Definition heartbeat_response (cfg : Config) (now : Z) (p : bytes) (req : AppendEntriesRequest) (resp : AppendEntriesResponse)
    (successCount : Z) (n : Node) : outcome Empty_set (Node * Z) :=
  let successCount := successCount + 1 in
  let n := if majority n successCount then set_lease (now + LeaseDuration cfg) n else n in
  if negb (bool_decide (state n = Leader)) || negb (currentTerm n =? ATerm req) then Ok (n, successCount)
  else if currentTerm n <? ARTerm resp then Ok (stepDown (ARTerm resp) n, successCount)
  else if Success resp then
    let m := u64 (PrevLogIndex req + len (Entries req)) in
    n ← advanceCommitIndex (set_indices (<[p := u64 (m + 1)]> (nextIndex n)) (<[p := m]> (matchIndex n)) n);
    Ok (n, successCount)
  else
    let next := default 0 (nextIndex n !! p) in
    Ok (if 1 <? next then set_indices (<[p := u64 (next - 1)]> (nextIndex n)) (matchIndex n) n else n, successCount).

End wal.

(** ** The cluster *)

(** A call of [RequestVote] by a goroutine of an election, with its answer. *)
Record call := mkCall { from : bytes; to : bytes; request : RequestVoteRequest; answer : option RequestVoteResponse }.

(** [votes] are the counters of the elections, by candidate and term. *)
Record cluster := mkCluster { nodes : gmap bytes Node; calls : list call; votes : gmap (bytes * Z) Z }.

Section cluster.
Context (Marshal : LogEntry -> option bytes).

Definition election_calls (n : Node) (req : RequestVoteRequest) : list call :=
  map (fun p => mkCall (id n) p req None) (filter (fun p => p <> id n) (peers n)).

(** Terms do not wrap: no election is started in term [2^64 - 1]. *)
Inductive step : cluster -> cluster -> Prop :=
  | StepElection s i n n' req :
      nodes s !! i = Some n -> held n = false -> currentTerm n < 2 ^ 64 - 1 -> startElection n = Ok (n', req) ->
      step s (mkCluster (<[i := n']> (nodes s)) (calls s ++ election_calls n' req) (<[(i, VTerm req) := 1]> (votes s)))
  | StepRequestVote s j c n n' resp :
      calls s !! j = Some c -> answer c = None -> nodes s !! to c = Some n -> held n = false ->
      RequestVote (request c) n = Ok (n', resp) ->
      step s (mkCluster (<[to c := n']> (nodes s)) (<[j := mkCall (from c) (to c) (request c) (Some resp)]> (calls s)) (votes s))
  | StepVoteResponse s j c resp n n' v v' :
      calls s !! j = Some c -> answer c = Some resp -> nodes s !! from c = Some n -> held n = false ->
      votes s !! (from c, VTerm (request c)) = Some v -> vote_response (VTerm (request c)) resp v n = (n', v') ->
      step s (mkCluster (<[from c := n']> (nodes s)) (delete j (calls s)) (<[(from c, VTerm (request c)) := v']> (votes s)))
  | StepCallFails s j :
      step s (mkCluster (nodes s) (delete j (calls s)) (votes s))
  | StepAppendEntries s i n n' req resp :
      nodes s !! i = Some n -> held n = false -> AppendEntries Marshal req n = Ok (n', resp) ->
      step s (mkCluster (<[i := n']> (nodes s)) (calls s) (votes s))
  | StepHeartbeatResponse s i n n' cfg now p req resp k k' :
      nodes s !! i = Some n -> held n = false -> heartbeat_response cfg now p req resp k n = Ok (n', k') ->
      step s (mkCluster (<[i := n']> (nodes s)) (calls s) (votes s)).

(** A node crashes and starts again from its files, which hold no state. *)
Inductive restart : cluster -> cluster -> Prop :=
  | Restart s i n cfg f :
      nodes s !! i = Some n -> ID cfg = i -> Peers cfg = peers n -> f = wal_log.file (wal n) ->
      restart s (mkCluster (<[i := NewNode cfg f]> (nodes s)) (filter (fun c => from c <> i) (calls s)) (votes s)).

End cluster.
(** The time to the next election, in nanoseconds; [r] is what the random source gives to
    [rand.Int63n], which panics when its bound is not positive. *)
Definition randomDuration (r min max : Z) : outcome Empty_set Z :=
  let n := i64 (max - min) in
  if n <=? 0 then Panic else Ok (i64 (min + r mod n)).

End raft.
Import raft.
