(* ===== verification/RaftSpec.v ===== *)
(** * Safety of elections

    Without restarts no two nodes of a cluster lead in one term.  The vote of a node is
    not stored, so a restart breaks this; and a leader never acts. *)

From S2P Require Import Prelude Files WalBatch WalLog Raft.
Import raft.

#[local] Open Scope Z_scope.

(** ** What handlers do to a node *)

(** A step that casts no vote and wins no election. *)
Record quiet (n n' : Node) : Prop := {
  qu_id : id n' = id n;
  qu_peers : peers n' = peers n;
  qu_term : currentTerm n' = currentTerm n /\ votedFor n' = votedFor n /\ (state n' = Leader -> state n = Leader) \/
    currentTerm n < currentTerm n' /\ votedFor n' = [] /\ state n' <> Leader;
}.

Lemma quiet_refl n : quiet n n.
Proof. split; [done..|]. by left. Qed.

Lemma quiet_trans n1 n2 n3 : quiet n1 n2 -> quiet n2 n3 -> quiet n1 n3.
Proof.
  intros [I1 P1 T1] [I2 P2 T2]. split; [congruence..|].
  destruct T1 as [(A1 & B1 & C1)|(A1 & B1 & C1)], T2 as [(A2 & B2 & C2)|(A2 & B2 & C2)].
  - left. split_and!; [congruence..|auto].
  - right. split_and!; [lia|done|done].
  - right. split_and!; [lia|congruence|auto].
  - right. split_and!; [lia|done|done].
Qed.

Lemma stepDown_quiet term n : currentTerm n < term -> quiet n (stepDown term n).
Proof. intros H. split; [done..|]. right. by split_and!. Qed.

Lemma apply_loop_quiet fuel : forall n n', apply_loop fuel n = Ok n' -> quiet n n' /\ log n' = log n /\ commitIndex n' = commitIndex n.
Proof.
  induction fuel as [|fuel IH]; intros n n'; cbn [apply_loop]; destruct (lastApplied n <? commitIndex n);
    [done|intros [= <-]; by split; [apply quiet_refl|]| |intros [= <-]; by split; [apply quiet_refl|]].
  destruct (entry_at n _) as [e| | |]; [|done..]. cbn. intros (Hq & Hl & Hc)%IH. split_and!; [|done..].
  eapply quiet_trans; [|exact Hq]. split; [done..|]. by left.
Qed.

Lemma advance_loop_quiet fuel : forall i n n', advance_loop fuel i n = Ok n' -> quiet n n'.
Proof.
  induction fuel as [|fuel IH]; intros i n n'; cbn [advance_loop]; destruct (commitIndex n <? i);
    [done|intros [= <-]; apply quiet_refl| |intros [= <-]; apply quiet_refl].
  destruct (entry_at n i) as [e| | |]; [|done..]. cbn. destruct (majority _ _ && _); [|apply IH].
  intros (Hq & _)%apply_loop_quiet. eapply quiet_trans; [|exact Hq]. split; [done..|]. by left.
Qed.

Lemma AppendEntries_quiet Marshal req n n' resp : AppendEntries Marshal req n = Ok (n', resp) -> quiet n n'.
Proof.
  unfold AppendEntries. set (n1 := if currentTerm n <? ATerm req then stepDown (ATerm req) n else n).
  assert (quiet n n1) as H1.
  { unfold n1. destruct (Z.ltb_spec (currentTerm n) (ATerm req)); [by apply stepDown_quiet|apply quiet_refl]. }
  destruct (ATerm req <? currentTerm n1); [by intros [= <- _]|].
  assert (quiet n (set_state Follower n1)) as H2 by (eapply quiet_trans; [exact H1|]; split; [done..|]; by left).
  destruct (len _ <=? _); [by intros [= <- _]|]. destruct (entry_at _ _) as [e| | |]; [|done..]. cbn.
  destruct (negb _); [by intros [= <- _]|]. set (n2 := set_log _ _ _).
  assert (quiet n n2) as H3 by (eapply quiet_trans; [exact H2|]; split; [done..|]; by left).
  destruct (commitIndex n1 <? LeaderCommit req).
  - destruct (applyLog _) as [n3| | |] eqn:E; [|done..]. cbn. intros [= <- _].
    apply apply_loop_quiet in E as [Hq _]. eapply quiet_trans; [exact H3|]. eapply quiet_trans; [|exact Hq]. split; [done..|]. by left.
  - cbn. by intros [= <- _].
Qed.

Lemma heartbeat_response_quiet cfg now p req resp k n n' k' :
  heartbeat_response cfg now p req resp k n = Ok (n', k') -> quiet n n'.
Proof.
  unfold heartbeat_response. set (n1 := if majority n (k + 1) then _ else n).
  assert (quiet n n1) as H1 by (unfold n1; destruct (majority _ _); [split; [done..|]; by left|apply quiet_refl]).
  destruct (_ || _); [by intros [= <- _]|]. destruct (Z.ltb_spec (currentTerm n1) (ARTerm resp)).
  { intros [= <- _]. eapply quiet_trans; [exact H1|by apply stepDown_quiet]. }
  destruct (Success resp).
  - destruct (advanceCommitIndex _) as [n2| | |] eqn:E; [|done..]. cbn. intros [= <- _].
    apply advance_loop_quiet in E. eapply quiet_trans; [exact H1|]. eapply quiet_trans; [|exact E]. split; [done..|]. by left.
  - intros [= <- _]. destruct (1 <? _); [|done]. eapply quiet_trans; [exact H1|]. split; [done..|]. by left.
Qed.

(** A vote. *)
Record votes_for (n n' : Node) (term : Z) (cand : bytes) : Prop := {
  vf_id : id n' = id n;
  vf_peers : peers n' = peers n;
  vf_term : currentTerm n' = term;
  vf_vote : votedFor n' = cand;
  vf_free : currentTerm n < term \/ currentTerm n = term /\ (votedFor n = [] \/ votedFor n = cand);
  vf_state : state n' = Leader -> state n = Leader /\ currentTerm n = term;
}.

Lemma RequestVote_spec req n n' resp :
  RequestVote req n = Ok (n', resp) ->
  if VoteGranted resp then votes_for n n' (VTerm req) (CandidateId req) else quiet n n'.
Proof.
  unfold RequestVote. set (n1 := if currentTerm n <? VTerm req then stepDown (VTerm req) n else n).
  assert (quiet n n1) as H1.
  { unfold n1. destruct (Z.ltb_spec (currentTerm n) (VTerm req)); [by apply stepDown_quiet|apply quiet_refl]. }
  destruct (_ && _) eqn:Eg; [|by intros [= <- <-]]. destruct (entry_at _ _) as [e| | |]; [|done..]. cbn [mbind outcome_bind].
  destruct ((Term e <? _) || _); [|by intros [= <- <-]]. intros [= <- <-]. cbn [VoteGranted].
  apply andb_prop in Eg as [Ht%Z.eqb_eq Hv]. destruct H1 as [I1 P1 T1].
  split; cbn [id peers currentTerm votedFor state set_term]; try done.
  - destruct T1 as [(A & B & C)|(A & B & C)]; [right|left; lia]. split; [congruence|].
    rewrite <- B. apply orb_prop in Hv as [Hv|Hv]; apply bool_decide_eq_true in Hv; auto.
  - intros HL. destruct T1 as [(A & B & C)|(A & B & C)]; [|done]. split; [auto|congruence].
Qed.

Lemma startElection_spec n n' req :
  startElection n = Ok (n', req) -> 0 <= currentTerm n < 2 ^ 64 - 1 ->
  id n' = id n /\ peers n' = peers n /\ currentTerm n' = currentTerm n + 1 /\ votedFor n' = id n /\ state n' = Candidate /\
  VTerm req = currentTerm n + 1 /\ CandidateId req = id n.
Proof.
  unfold startElection. destruct (entry_at _ _) as [e| | |]; [|done..]. cbn. intros [= <- <-] Hn. cbn.
  assert (u64 (currentTerm n + 1) = currentTerm n + 1) as -> by (apply Z.mod_small; lia). done.
Qed.

Lemma vote_response_spec term resp v n n' v' :
  vote_response term resp v n = (n', v') ->
  quiet n n' /\ v' = v \/
  state n = Candidate /\ currentTerm n = term /\ VoteGranted resp = true /\ v' = v + 1 /\
    n' = (if majority n v' then becomeLeader n else n).
Proof.
  unfold vote_response. destruct (negb (bool_decide (state n = Candidate)) || negb (currentTerm n =? term)) eqn:E;
    [intros [= <- <-]; left; split; [apply quiet_refl|done]|].
  apply orb_false_iff in E as [E1 E2]. apply negb_false_iff, bool_decide_eq_true in E1. apply negb_false_iff, Z.eqb_eq in E2.
  destruct (Z.ltb_spec (currentTerm n) (VRTerm resp)); [intros [= <- <-]; left; split; [by apply stepDown_quiet|done]|].
  destruct (VoteGranted resp); [|intros [= <- <-]; left; split; [apply quiet_refl|done]]. intros [= <- <-]. right. done.
Qed.

(** ** The invariant of a cluster *)

Definition call_key (c : call) : bytes * Z * bytes := (from c, VTerm (request c), to c).

(** A node [i] of a cluster with the members [M]; [G] are the votes cast so far, by voter
    and term.  A leader has the votes of a majority. *)
Record node_inv (M : gset bytes) (G : gmap (bytes * Z) bytes) (i : bytes) (n : Node) : Prop := {
  ni_id : id n = i /\ i <> [];
  ni_peers : NoDup (peers n) /\ M = {[i]} ∪ list_to_set (peers n);
  ni_term : 0 <= currentTerm n;
  ni_vote : G !! (i, currentTerm n) = (if decide (votedFor n = []) then None else Some (votedFor n));
  ni_later : forall t, currentTerm n < t -> G !! (i, t) = None;
  ni_leader : state n = Leader -> exists Q, NoDup Q /\
    (forall p, p ∈ Q -> p ∈ M /\ G !! (p, currentTerm n) = Some i) /\ Z.quot (len (peers n) + 1) 2 < len Q;
}.

(** A request of a candidate, and its answer. *)
Record call_inv (M : gset bytes) (G : gmap (bytes * Z) bytes) (c : call) : Prop := {
  cl_cand : CandidateId (request c) = from c /\ from c <> [];
  cl_to : to c ∈ M /\ to c <> from c;
  cl_self : G !! (from c, VTerm (request c)) = Some (from c);
  cl_answer : forall resp, answer c = Some resp -> VoteGranted resp = true -> G !! (to c, VTerm (request c)) = Some (from c);
}.

(** The counter [v] of an election counts distinct voters, none of which has a call
    pending. *)
Definition counter_inv (M : gset bytes) (G : gmap (bytes * Z) bytes) (cs : list call) (i : bytes) (t v : Z) : Prop :=
  G !! (i, t) = Some i /\ exists L, v = 1 + len L /\ NoDup (i :: L) /\
    forall p, p ∈ L -> p ∈ M /\ G !! (p, t) = Some i /\ (i, t, p) ∉ map call_key cs.

Record cluster_inv (M : gset bytes) (G : gmap (bytes * Z) bytes) (s : cluster) : Prop := {
  ci_node : forall i n, nodes s !! i = Some n -> node_inv M G i n;
  ci_call : forall c, c ∈ calls s -> call_inv M G c;
  ci_nodup : NoDup (map call_key (calls s));
  ci_votes : forall i t v, votes s !! (i, t) = Some v -> counter_inv M G (calls s) i t v;
}.

(** ** More votes *)

Section grow.
Context (M : gset bytes) (G : gmap (bytes * Z) bytes) (v : bytes) (t : Z) (cand : bytes).
Context (Hfree : G !! (v, t) = None \/ G !! (v, t) = Some cand).
Abbreviation G' := (<[(v, t) := cand]> G).

Lemma grow : G ⊆ G'.
Proof using Hfree. destruct Hfree as [?|?]; [by apply insert_subseteq|by rewrite insert_id]. Qed.

Lemma node_grow i n : node_inv M G i n -> i <> v -> node_inv M G' i n.
Proof using Hfree.
  intros [H1 H2 H3 H4 H5 H6] Hi. split; try done.
  - by rewrite lookup_insert_ne by congruence.
  - intros t' Ht. rewrite lookup_insert_ne by congruence. auto.
  - intros (Q & Q1 & Q2 & Q3)%H6. exists Q. split_and!; try done. intros p (? & ?)%Q2. split; [done|].
    eapply lookup_weaken; [done|apply grow].
Qed.

Lemma call_grow c : call_inv M G c -> call_inv M G' c.
Proof using Hfree.
  intros [H1 H2 H3 H4]. split; try done; [eapply lookup_weaken; [done|apply grow]|].
  intros resp E1 E2. eapply lookup_weaken; [by eapply H4|apply grow].
Qed.

Lemma counter_grow cs i t' k : counter_inv M G cs i t' k -> counter_inv M G' cs i t' k.
Proof using Hfree.
  intros (Hg & L & Hk & Hnd & HL). split; [eapply lookup_weaken; [done|apply grow]|]. exists L. split_and!; try done.
  intros p (? & ? & ?)%HL. split_and!; try done. eapply lookup_weaken; [done|apply grow].
Qed.

(** The voter itself. *)
Lemma node_votes n n' : node_inv M G v n -> votes_for n n' t cand -> cand <> [] -> node_inv M G' v n'.
Proof using Hfree.
  intros [H1 H2 H3 H4 H5 H6] [F1 F2 F3 F4 F5 F6] Hc. split; rewrite ?F1, ?F2, ?F3; try done.
  - destruct F5; lia.
  - by rewrite lookup_insert_eq, F4, decide_False.
  - intros t' Ht. rewrite lookup_insert_ne by (intros [=]; lia). apply H5. destruct F5; lia.
  - intros [L1 L2]%F6. destruct (H6 L1) as (Q & Q1 & Q2 & Q3). exists Q. split_and!; try done. intros p (? & Hp)%Q2. split; [done|].
    rewrite L2 in Hp. eapply lookup_weaken; [done|apply grow].
Qed.
End grow.

Lemma node_quiet M G i n n' : node_inv M G i n -> quiet n n' -> node_inv M G i n'.
Proof.
  intros [H1 H2 H3 H4 H5 H6] [Q1 Q2 Q3]. split; rewrite ?Q1, ?Q2; try done.
  - destruct Q3 as [(-> & _)|(? & _)]; lia.
  - destruct Q3 as [(-> & -> & _)|(Ht & -> & _)]; [done|by apply H5].
  - intros t Ht. apply H5. destruct Q3 as [(? & _)|(? & _)]; lia.
  - intros HL. destruct Q3 as [(-> & _ & HL')|(_ & _ & HL')]; [|done]. auto.
Qed.

(** A vote that may be cast. *)
Lemma vote_free M G i n n' t cand :
  node_inv M G i n -> votes_for n n' t cand -> cand <> [] -> G !! (i, t) = None \/ G !! (i, t) = Some cand.
Proof.
  intros [_ _ _ H4 H5 _] [_ _ _ _ F5 _] Hc. destruct F5 as [F5|[F5 [F5'|F5']]]; [left; by apply H5|..]; rewrite F5, F5' in H4; [by left|right].
  by rewrite decide_False in H4.
Qed.

(** ** Steps *)

Lemma insert_node (M : gset bytes) (G : gmap (bytes * Z) bytes) (N : gmap bytes Node) i n :
  (forall k m, N !! k = Some m -> k <> i -> node_inv M G k m) -> node_inv M G i n ->
  forall k m, <[i := n]> N !! k = Some m -> node_inv M G k m.
Proof. intros H1 H2 k m [[<- <-]|[Hk Hm]]%lookup_insert_Some; [done|]. by apply H1. Qed.

Lemma quiet_inv M G s i n n' :
  cluster_inv M G s -> nodes s !! i = Some n -> quiet n n' ->
  cluster_inv M G (mkCluster (<[i := n']> (nodes s)) (calls s) (votes s)).
Proof.
  intros [H1 H2 H3 H4] Hi Hq. split; cbn [nodes calls votes]; try done.
  apply insert_node; [auto|]. eapply node_quiet; [by apply H1|done].
Qed.

Lemma election_inv M G s i n n' req :
  cluster_inv M G s -> nodes s !! i = Some n -> currentTerm n < 2 ^ 64 - 1 -> startElection n = Ok (n', req) ->
  cluster_inv M (<[(i, VTerm req) := i]> G)
    (mkCluster (<[i := n']> (nodes s)) (calls s ++ election_calls n' req) (<[(i, VTerm req) := 1]> (votes s))).
Proof.
  intros [H1 H2 H3 H4] Hi Ht He. pose proof (H1 i n Hi) as Hn. pose proof Hn as [[Hid Hne] [Hnd HM] Hpos _ Hl _].
  destruct (startElection_spec n n' req He) as (E1 & E2 & E3 & E4 & E5 & E6 & E7); [lia|].
  set (t := VTerm req) in *. assert (G !! (i, t) = None) as Hnone by (apply Hl; lia).
  assert (votes_for n n' t i) as Hv by (split; [done|done|congruence|congruence|left; lia|congruence]).
  assert (forall p, (i, t, p) ∉ map call_key (calls s)) as Hold.
  { intros p (c & Heq & Hc)%list_elem_of_fmap. injection Heq as Hf Hvt _. pose proof (cl_self _ _ _ (H2 c Hc)) as Hg.
    rewrite <- Hf, <- Hvt in Hg. congruence. }
  assert (forall c, c ∈ election_calls n' req -> from c = i /\ VTerm (request c) = t /\ call_inv M (<[(i, t) := i]> G) c) as Hnew.
  { intros c (p & -> & [Hp1 Hp2]%list_elem_of_filter)%list_elem_of_fmap. cbn [from request]. split_and!; [congruence|done|].
    split; cbn [from to request answer]; rewrite ?E1, ?Hid; [by rewrite E7, Hid|split; [|congruence]|apply lookup_insert_eq|done].
    rewrite HM, elem_of_union, elem_of_list_to_set. right. congruence. }
  split; cbn [nodes calls votes].
  - apply insert_node; [intros k m Hk Hki; apply node_grow; auto|]. eapply node_votes; [by left|done|done|done].
  - intros c [Hc|Hc]%elem_of_app; [apply call_grow; auto|by apply Hnew].
  - rewrite map_app. apply NoDup_app. split_and!; [done| |].
    + intros k Hk (c & -> & Hc)%list_elem_of_fmap. destruct (Hnew c Hc) as (F1 & F2 & _). apply (Hold (to c)).
      unfold call_key in Hk. by rewrite F1, F2 in Hk.
    + unfold election_calls. rewrite map_map. apply NoDup_fmap_2_strong; [by intros x y _ _ [=]|]. apply NoDup_filter. by rewrite E2.
  - intros k t' v [[[= <- <-] <-]|[Hk Hkv]]%lookup_insert_Some.
    + split; [apply lookup_insert_eq|]. exists []. split_and!; [done|apply NoDup_singleton|by intros p ?%elem_of_nil].
    + destruct (counter_grow M G i t i (or_introl Hnone) _ _ _ _ (H4 k t' v Hkv)) as (Hg & L & Hl' & Hnd' & HL).
      split; [done|]. exists L. split_and!; try done. intros p (P1 & P2 & P3)%HL. split_and!; try done.
      rewrite map_app. intros [?|Hin]%elem_of_app; [done|]. apply list_elem_of_fmap in Hin as (c & Heq & Hc).
      destruct (Hnew c Hc) as (F1 & F2 & _). injection Heq as Hf Hvt _. apply Hk. congruence.
Qed.

(** The same calls, one of them answered. *)
Lemma answered_keys (cs : list call) (j : nat) c resp :
  cs !! j = Some c -> map call_key (<[j := mkCall (from c) (to c) (request c) (Some resp)]> cs) = map call_key cs.
Proof.
  intros Hj. change (call_key <$> <[j := mkCall (from c) (to c) (request c) (Some resp)]> cs = call_key <$> cs).
  rewrite list_fmap_insert. apply list_insert_id. by rewrite list_lookup_fmap, Hj.
Qed.

Lemma answered_inv M G (cs : list call) (j : nat) c resp :
  cs !! j = Some c -> (forall c, c ∈ cs -> call_inv M G c) ->
  (VoteGranted resp = true -> G !! (to c, VTerm (request c)) = Some (from c)) ->
  forall d, d ∈ <[j := mkCall (from c) (to c) (request c) (Some resp)]> cs -> call_inv M G d.
Proof.
  intros Hj Hcs Hg d [k [(_ & <- & _)|[_ Hk]]%list_lookup_insert_Some]%list_elem_of_lookup.
  - destruct (Hcs c (list_elem_of_lookup_2 _ _ _ Hj)) as [H1 H2 H3 _]. split; cbn; try done. by intros r [= <-].
  - by eapply Hcs, list_elem_of_lookup_2.
Qed.

Lemma request_inv M G s j c n n' resp :
  cluster_inv M G s -> calls s !! j = Some c -> nodes s !! to c = Some n ->
  RequestVote (request c) n = Ok (n', resp) ->
  exists G', cluster_inv M G' (mkCluster (<[to c := n']> (nodes s))
    (<[j := mkCall (from c) (to c) (request c) (Some resp)]> (calls s)) (votes s)).
Proof.
  intros [H1 H2 H3 H4] Hj Hi He. pose proof (H1 _ _ Hi) as Hn. pose proof (H2 c (list_elem_of_lookup_2 _ _ _ Hj)) as Hc.
  apply RequestVote_spec in He. destruct (VoteGranted resp) eqn:Eg.
  - destruct Hc as [[K1 K2] _ _ _]. rewrite K1 in He. pose proof (vote_free M G _ _ _ _ _ Hn He K2) as Hfree.
    exists (<[(to c, VTerm (request c)) := from c]> G). split; cbn [nodes calls votes].
    + apply insert_node; [intros k m Hk Hki; apply node_grow; auto|]. by eapply node_votes.
    + apply answered_inv; [done|intros d Hd; apply call_grow; auto|intros _; apply lookup_insert_eq].
    + by rewrite answered_keys.
    + intros k t v Hv. specialize (H4 k t v Hv). apply counter_grow; [done|]. unfold counter_inv. by rewrite answered_keys.
  - exists G. split; cbn [nodes calls votes].
    + apply insert_node; [auto|]. by eapply node_quiet.
    + apply answered_inv; [done..|congruence].
    + by rewrite answered_keys.
    + intros k t v Hv. unfold counter_inv. rewrite answered_keys by done. by apply H4.
Qed.

Lemma delete_calls M G s j :
  cluster_inv M G s -> cluster_inv M G (mkCluster (nodes s) (delete j (calls s)) (votes s)).
Proof.
  intros [H1 H2 H3 H4]. assert (delete j (calls s) `sublist_of` calls s) as Hsub by apply sublist_delete.
  assert (map call_key (delete j (calls s)) `sublist_of` map call_key (calls s)) as Hsub' by (by apply (fmap_sublist call_key)).
  split; cbn [nodes calls votes]; [done| |by eapply sublist_NoDup|].
  - intros c Hc. apply H2. by eapply elem_of_sublist.
  - intros i t v Hv. destruct (H4 i t v Hv) as (Hg & L & Hk & Hnd & HL). split; [done|]. exists L. split_and!; try done.
    intros p (? & ? & Hni)%HL. split_and!; try done. intros Hin. apply Hni.
    by eapply elem_of_sublist.
Qed.

(** A granted vote is counted. *)
Lemma counted_inv M G s j c v resp :
  cluster_inv M G s -> calls s !! j = Some c -> answer c = Some resp -> VoteGranted resp = true ->
  votes s !! (from c, VTerm (request c)) = Some v ->
  cluster_inv M G (mkCluster (nodes s) (delete j (calls s)) (<[(from c, VTerm (request c)) := v + 1]> (votes s))) /\
  (from c ∈ M -> exists Q, NoDup Q /\ (forall p, p ∈ Q -> p ∈ M /\ G !! (p, VTerm (request c)) = Some (from c)) /\ len Q = v + 1).
Proof.
  intros Hinv Hj Ha Hg Hv. pose proof (list_elem_of_lookup_2 _ _ _ Hj) as Hc.
  destruct (ci_call _ _ _ Hinv c Hc) as [_ [K2 K3] K4 K5]. specialize (K5 resp Ha Hg).
  destruct (ci_votes _ _ _ Hinv _ _ _ Hv) as (Hself & L & Hk & Hnd & HL).
  apply NoDup_cons in Hnd as [HiL Hnd].
  assert (to c ∉ L) as HcL by (intros Hin; destruct (HL _ Hin) as (_ & _ & Hni); apply Hni; by apply (list_elem_of_fmap_2 call_key _ c)).
  assert (NoDup (from c :: to c :: L)) as Hnd'.
  { apply NoDup_cons. split; [by intros [?|?]%elem_of_cons|]. by apply NoDup_cons. }
  split.
  - destruct (delete_calls M G s j Hinv) as [H1 H2 H3 H4]. split; cbn [nodes calls votes] in *; try done.
    intros k t w [[[= <- <-] <-]|[_ Hw]]%lookup_insert_Some; [|by apply H4]. split; [done|]. exists (to c :: L).
    split_and!; [rewrite len_cons; lia|done|]. intros p [->|Hp]%elem_of_cons.
    + split_and!; [done..|]. pose proof (ci_nodup _ _ _ Hinv) as Hndk. rewrite <- (take_drop_middle _ _ _ Hj) in Hndk.
      rewrite delete_take_drop. rewrite map_app in *. cbn [map] in Hndk. apply NoDup_app in Hndk as (_ & D1 & D2).
      apply NoDup_cons in D2 as [D2 _]. intros [Hin|Hin]%elem_of_app; [|by apply D2]. apply (D1 _ Hin). left.
    + destruct (HL p Hp) as (P1 & P2 & P3). split_and!; try done. intros Hin. apply P3.
      eapply elem_of_sublist; [exact Hin|]. apply (fmap_sublist call_key), sublist_delete.
  - intros HM. exists (from c :: to c :: L). split_and!; [done| |rewrite !len_cons; lia].
    intros p [->|[->|Hp]%elem_of_cons]%elem_of_cons; [done|done|]. destruct (HL p Hp) as (? & ? & _). done.
Qed.

Lemma response_inv M G s j c resp n n' v v' :
  cluster_inv M G s -> calls s !! j = Some c -> answer c = Some resp -> nodes s !! from c = Some n ->
  votes s !! (from c, VTerm (request c)) = Some v -> vote_response (VTerm (request c)) resp v n = (n', v') ->
  cluster_inv M G (mkCluster (<[from c := n']> (nodes s)) (delete j (calls s)) (<[(from c, VTerm (request c)) := v']> (votes s))).
Proof.
  intros Hinv Hj Ha Hi Hv He. apply vote_response_spec in He as [[Hq ->]|(Hs & Ht & Hg & -> & ->)].
  - rewrite (insert_id (votes s) _ v Hv). pose proof (delete_calls M G s j Hinv) as Hd. by apply (quiet_inv M G _ _ n n' Hd).
  - destruct (counted_inv M G s j c v resp Hinv Hj Ha Hg Hv) as [[H1 H2 H3 H4] HQ]. cbn [nodes calls votes] in *.
    split; cbn [nodes calls votes]; try done. apply insert_node; [auto|].
    destruct (majority n (v + 1)) eqn:Em; [|by apply H1]. destruct (H1 _ _ Hi) as [N1 N2 N3 N4 N5 _]. split; try done.
    intros _. destruct HQ as (Q & Q1 & Q2 & Q3). { destruct N2 as [_ ->]. set_solver. }
    exists Q. rewrite <- Ht in Q2. split_and!; [done..|]. rewrite Q3. by apply Z.ltb_lt.
Qed.

(** ** Reachable clusters *)

Section reachable.
Context (Marshal : LogEntry -> option bytes).

Lemma step_inv M G s s' : cluster_inv M G s -> step Marshal s s' -> exists G', cluster_inv M G' s'.
Proof.
  intros Hinv Hs. destruct Hs as [s i n n' req Hi _ Ht He|s j c n n' resp Hj _ Hi _ He|s j c resp n n' v v' Hj Ha Hi _ Hv He|s j
    |s i n n' req resp Hi _ He|s i n n' cfg now p req resp k k' Hi _ He].
  - eexists. by eapply election_inv.
  - by eapply request_inv.
  - eexists. by eapply response_inv.
  - eexists. by apply delete_calls.
  - eexists. eapply quiet_inv; [done..|]. by eapply AppendEntries_quiet.
  - eexists. eapply quiet_inv; [done..|]. by eapply heartbeat_response_quiet.
Qed.

(** Configurations of a cluster: every node knows the same members, with or without
    itself in its list of peers. *)
Definition config_ok (M : gset bytes) (cfg : Config) : Prop :=
  ID cfg <> [] /\ NoDup (Peers cfg) /\ M = {[ID cfg]} ∪ list_to_set (Peers cfg).

Definition start (cfgs : list Config) (f : File) : cluster :=
  mkCluster (list_to_map (map (fun c => (ID c, NewNode c f)) cfgs)) [] ∅.

Lemma start_inv M cfgs f : Forall (config_ok M) cfgs -> cluster_inv M ∅ (start cfgs f).
Proof.
  intros Hc. split; cbn [nodes calls votes start]; [|by intros c ?%elem_of_nil|constructor|by intros].
  intros i n Hi%elem_of_list_to_map_2. apply list_elem_of_fmap in Hi as (cfg & [= -> ->] & Hin).
  rewrite Forall_forall in Hc. destruct (Hc cfg Hin) as (H1 & H2 & H3). split; cbn; try done.
Qed.

Lemma reachable_inv M cfgs f s : Forall (config_ok M) cfgs -> rtc (step Marshal) (start cfgs f) s -> exists G, cluster_inv M G s.
Proof.
  intros Hc Hs. assert (exists G, cluster_inv M G (start cfgs f)) as Hinv by (eexists; by apply start_inv).
  induction Hs as [|s1 s2 s3 H _ IH]; [done|]. apply IH. destruct Hinv as [G Hinv]. by eapply step_inv.
Qed.

Lemma members_size (M : gset bytes) i ps : NoDup ps -> M = {[i]} ∪ list_to_set ps -> (size M <= length ps + 1)%nat.
Proof.
  intros Hnd ->. rewrite <- (size_list_to_set (C := gset bytes) ps Hnd), size_union_alt, size_singleton.
  pose proof (subseteq_size (list_to_set ps ∖ {[i]} : gset bytes) (list_to_set ps) ltac:(set_solver)). lia.
Qed.

(** Two majorities meet. *)
Lemma quorums_meet (M : gset bytes) (ps1 ps2 Q1 Q2 : list bytes) i1 i2 :
  NoDup ps1 /\ M = {[i1]} ∪ list_to_set ps1 -> NoDup ps2 /\ M = {[i2]} ∪ list_to_set ps2 -> NoDup Q1 -> NoDup Q2 ->
  (forall p, p ∈ Q1 -> p ∈ M) -> (forall p, p ∈ Q2 -> p ∈ M) ->
  Z.quot (len ps1 + 1) 2 < len Q1 -> Z.quot (len ps2 + 1) 2 < len Q2 -> exists p, p ∈ Q1 /\ p ∈ Q2.
Proof.
  intros [P1 HM1] [P2 HM2] N1 N2 S1 S2 L1 L2. destruct (decide (Forall (fun p => p ∉ Q2) Q1)) as [Hd|Hd].
  2:{ apply not_Forall_Exists in Hd; [|apply _]. apply Exists_exists in Hd as (p & Hp & Hn). exists p. split; [done|].
      by apply dec_stable in Hn. }
  exfalso. rewrite Forall_forall in Hd. pose proof (members_size M i1 ps1 P1 HM1) as B1. pose proof (members_size M i2 ps2 P2 HM2) as B2.
  assert (NoDup (Q1 ++ Q2)) as Hnd by (by apply NoDup_app).
  assert (length (Q1 ++ Q2) <= size M)%nat as B3.
  { rewrite <- (size_list_to_set (C := gset bytes)) by done. apply subseteq_size. intros p.
    rewrite elem_of_list_to_set, elem_of_app. naive_solver. }
  rewrite length_app in B3. unfold len in *. pose proof (Z.quot_div_nonneg (Z.of_nat (length ps1) + 1) 2 ltac:(lia) ltac:(lia)) as D1.
  pose proof (Z.quot_div_nonneg (Z.of_nat (length ps2) + 1) 2 ltac:(lia) ltac:(lia)) as D2. rewrite D1 in L1. rewrite D2 in L2.
  pose proof (Z.div_mod (Z.of_nat (length ps1) + 1) 2 ltac:(lia)). pose proof (Z.mod_pos_bound (Z.of_nat (length ps1) + 1) 2 ltac:(lia)).
  pose proof (Z.div_mod (Z.of_nat (length ps2) + 1) 2 ltac:(lia)). pose proof (Z.mod_pos_bound (Z.of_nat (length ps2) + 1) 2 ltac:(lia)).
  lia.
Qed.
End reachable.

(** ** Replication *)

(** What holds of every node between handlers. *)
Record log_ok (n : Node) : Prop := {
  lg_some : 1 <= len (log n) < 2 ^ 63;
  lg_commit : 0 <= commitIndex n <= lastApplied n;
  lg_applied : lastApplied n < 2 ^ 63;
}.

Lemma entry_at_ok n i : 0 <= i < len (log n) -> exists e, entry_at n i = Ok e /\ log n !! Z.to_nat i = Some e.
Proof.
  intros Hi. unfold entry_at. rewrite (proj2 (Z.ltb_ge _ _)) by lia. unfold len in Hi.
  destruct (lookup_lt_is_Some_2 (log n) (Z.to_nat i)) as [e He]; [lia|]. exists e. by rewrite He.
Qed.

Lemma lastLogIdx_ok n : 1 <= len (log n) < 2 ^ 63 -> lastLogIdx n = len (log n) - 1.
Proof. intros H. apply Z.mod_small. lia. Qed.

(** Entries [i + 1] to [j] of a log. *)
Definition between (i j : Z) (l : list LogEntry) : list LogEntry := take (Z.to_nat (j - i)) (drop (Z.to_nat (i + 1)) l).

Lemma apply_loop_ok fuel : forall n,
  1 <= len (log n) < 2 ^ 63 -> 0 <= lastApplied n <= commitIndex n -> commitIndex n < len (log n) ->
  commitIndex n - lastApplied n <= Z.of_nat fuel ->
  apply_loop fuel n = Ok (set_applied (commitIndex n) (applyCh n ++ between (lastApplied n) (commitIndex n) (log n)) n).
Proof.
  induction fuel as [|fuel IH]; intros n Hl Ha Hc Hf; cbn [apply_loop].
  { rewrite (proj2 (Z.ltb_ge _ _)) by lia. unfold between. replace (commitIndex n - lastApplied n) with 0 by lia. cbn.
    rewrite app_nil_r. replace (commitIndex n) with (lastApplied n) by lia. by destruct n. }
  destruct (Z.ltb_spec (lastApplied n) (commitIndex n)) as [Hlt|Hge].
  2:{ unfold between. replace (commitIndex n - lastApplied n) with 0 by lia. cbn. rewrite app_nil_r.
      replace (commitIndex n) with (lastApplied n) by lia. by destruct n. }
  assert (u64 (lastApplied n + 1) = lastApplied n + 1) as -> by (apply Z.mod_small; lia).
  destruct (entry_at_ok n (lastApplied n + 1)) as (e & -> & He); [lia|]. cbn [mbind outcome_bind].
  rewrite IH; cbn [log lastApplied commitIndex applyCh set_applied]; [|lia..].
  unfold set_applied. cbn. do 2 f_equal. rewrite <- (assoc_L (++)). f_equal. unfold between.
  rewrite (drop_S _ _ _ He). replace (Z.to_nat (commitIndex n - lastApplied n)) with (S (Z.to_nat (commitIndex n - (lastApplied n + 1)))) by lia.
  cbn [take app]. by replace (Z.to_nat (lastApplied n + 1 + 1)) with (S (Z.to_nat (lastApplied n + 1))) by lia.
Qed.

(** [applyLog] after the commit index moved to [c]. *)
Lemma applyLog_ok n c :
  log_ok n -> 0 <= c < len (log n) ->
  exists n', applyLog (set_commit c n) = Ok n' /\ log_ok n' /\ log n' = log n /\ commitIndex n' = c /\
    currentTerm n' = currentTerm n /\ state n' = state n /\ lastApplied n' = Z.max (lastApplied n) c /\
    applyCh n' = applyCh n ++ between (lastApplied n) (lastApplied n') (log n).
Proof.
  intros [Hl Hc Ha] Hcl. destruct (Z.le_gt_cases (lastApplied n) c) as [Hle|Hgt].
  - unfold applyLog. rewrite apply_loop_ok; cbn [log lastApplied commitIndex applyCh set_commit]; [|lia..].
    eexists. split; [done|]. cbn. split_and!; try done; [split; cbn; lia|lia].
  - exists (set_commit c n). unfold applyLog. cbn [commitIndex lastApplied set_commit].
    replace (Z.to_nat (c - lastApplied n)) with 0%nat by lia. cbn [apply_loop lastApplied commitIndex set_commit].
    rewrite (proj2 (Z.ltb_ge _ _)) by lia. split; [done|]. cbn. split_and!; try done; [split; cbn; lia|lia|].
    unfold between. rewrite Z.sub_diag. cbn. by rewrite app_nil_r.
Qed.

Section append.
Context (Marshal : LogEntry -> option bytes).

Definition accepts (req : AppendEntriesRequest) (n : Node) : Prop :=
  currentTerm n <= ATerm req /\ exists prev, log n !! Z.to_nat (PrevLogIndex req) = Some prev /\ Term prev = PrevLogTerm req.

Lemma term_step req n :
  let n1 := if currentTerm n <? ATerm req then stepDown (ATerm req) n else n in
  currentTerm n1 = Z.max (currentTerm n) (ATerm req) /\ log n1 = log n /\ commitIndex n1 = commitIndex n /\
  lastApplied n1 = lastApplied n /\ applyCh n1 = applyCh n.
Proof. cbv zeta. destruct (Z.ltb_spec (currentTerm n) (ATerm req)); cbn; split_and!; try done; lia. Qed.

End append.

(** ** The commit index of a leader *)

(** How many other peers have entry [i], by [matchIndex]. *)
Definition matching (n : Node) (i : Z) : list bytes :=
  filter (fun p => p <> id n /\ i <= default 0 (matchIndex n !! p)) (peers n).

Lemma match_count_ok n i : match_count n i = 1 + len (matching n i).
Proof.
  unfold match_count, matching. assert (forall ps c, foldl (fun c p => if negb (bool_decide (p = id n)) && (i <=? default 0 (matchIndex n !! p))
    then c + 1 else c) c ps = c + len (filter (fun p => p <> id n /\ i <= default 0 (matchIndex n !! p)) ps)) as H; [|by rewrite H].
  induction ps as [|p ps IH]; intros c; [rewrite filter_nil; unfold len; cbn; lia|]. cbn [foldl]. rewrite IH, filter_cons.
  destruct (decide (p <> id n /\ i <= default 0 (matchIndex n !! p))) as [[H1 H2]|Hn].
  - rewrite bool_decide_false, (proj2 (Z.leb_le _ _)) by done. cbn [negb andb]. rewrite len_cons. lia.
  - destruct (negb (bool_decide (p = id n)) && (i <=? default 0 (matchIndex n !! p))) eqn:E; [|done]. exfalso.
    apply andb_prop in E as [E1%negb_true_iff%bool_decide_eq_false E2%Z.leb_le]. by apply Hn.
Qed.

(** An entry a leader may commit. *)
Definition committable (n : Node) (i : Z) : Prop :=
  Z.quot (len (peers n) + 1) 2 < 1 + len (matching n i) /\
  exists e, log n !! Z.to_nat i = Some e /\ Term e = currentTerm n.

Lemma advance_loop_ok fuel : forall i n,
  log_ok n -> i < len (log n) -> i - commitIndex n <= Z.of_nat fuel ->
  exists n', advance_loop fuel i n = Ok n' /\ log_ok n' /\ log n' = log n /\
    ((n' = n /\ forall j, commitIndex n < j <= i -> ~ committable n j) \/
     (commitIndex n < commitIndex n' <= i /\ committable n (commitIndex n') /\ forall j, commitIndex n' < j <= i -> ~ committable n j)).
Proof.
  induction fuel as [|fuel IH]; intros i n Hn Hi Hf; cbn [advance_loop].
  { rewrite (proj2 (Z.ltb_ge _ _)) by lia. exists n. split_and!; try done. left. split; [done|]. intros j Hj. lia. }
  destruct (Z.ltb_spec (commitIndex n) i) as [Hlt|Hge].
  2:{ exists n. split_and!; try done. left. split; [done|]. intros j Hj. lia. }
  pose proof Hn as [Hl Hc _]. destruct (entry_at_ok n i) as (e & -> & He); [lia|]. cbn [mbind outcome_bind].
  unfold majority. rewrite match_count_ok. destruct (_ && _) eqn:Em.
  - apply andb_prop in Em as [E1%Z.ltb_lt E2%Z.eqb_eq]. assert (u64 i = i) as -> by (apply Z.mod_small; lia).
    destruct (applyLog_ok n i Hn) as (n' & -> & A1 & A2 & A3 & _); [lia|]. exists n'. split_and!; try done. right. rewrite A3.
    split_and!; [lia|lia|by split; [|exists e]|]. intros j Hj. lia.
  - destruct (IH (i - 1) n Hn) as (n' & -> & A1 & A2 & A3); [lia..|]. exists n'. split_and!; try done.
    assert (~ committable n i) as Hni.
    { intros [C1 (e' & C2 & C3)]. apply andb_false_iff in Em as [E%Z.ltb_ge|E%Z.eqb_neq]; [lia|congruence]. }
    destruct A3 as [[-> A3]|(A3 & A4 & A5)]; [left|right]; split_and!; try done; try lia; intros j Hj;
      (destruct (decide (j = i)) as [->|]; [done|]); [apply A3; lia|apply A5; lia].
Qed.

(** [advanceCommitIndex].  It ends without a panic and moves the commit index to the
    last entry of the current term that more than [(len(peers)+1)/2] nodes have, this
    one included, and leaves it when there is none above it. *)
Theorem advance_commit_correct (n : Node) (Hn : log_ok n) :
  exists n', advanceCommitIndex n = Ok n' /\ log_ok n' /\ log n' = log n /\
    ((n' = n /\ forall j, commitIndex n < j < len (log n) -> ~ committable n j) \/
     (commitIndex n < commitIndex n' < len (log n) /\ committable n (commitIndex n') /\
      forall j, commitIndex n' < j < len (log n) -> ~ committable n j)).
Proof.
  destruct (advance_loop_ok (length (log n)) (len (log n) - 1) n Hn) as (n' & E & H1 & H2 & H3); [lia|destruct Hn; unfold len; lia|].
  exists n'. split_and!; try done. destruct H3 as [[-> H3]|(H3 & H4 & H5)]; [left|right]; split_and!; try done; try lia;
    intros j Hj; [apply H3|apply H5]; lia.
Qed.

(** ** Properties of elections *)

Section elections.
Context (Marshal : LogEntry -> option bytes).

(** C13: election safety.  In a cluster whose nodes are configured with the same members
    and do not restart, no two nodes are leaders of one term, whatever elections, votes
    and lost calls there are, in any order, and whatever [AppendEntries] calls and
    heartbeat responses arrive. *)
Theorem election_safety (M : gset bytes) (cfgs : list Config) (f : File) (s : cluster) (i j : bytes) (n m : Node)
    (Hcfg : Forall (config_ok M) cfgs) (Hreach : rtc (step Marshal) (start cfgs f) s)
    (Hi : nodes s !! i = Some n) (Hj : nodes s !! j = Some m) (Hn : state n = Leader) (Hm : state m = Leader)
    (Hterm : currentTerm n = currentTerm m) : i = j.
Proof.
  destruct (reachable_inv Marshal M cfgs f s Hcfg Hreach) as [G [Hnodes _ _ _]].
  destruct (Hnodes i n Hi) as [_ P1 _ _ _ L1], (Hnodes j m Hj) as [_ P2 _ _ _ L2].
  destruct (L1 Hn) as (Q1 & N1 & V1 & C1), (L2 Hm) as (Q2 & N2 & V2 & C2).
  destruct (quorums_meet M (peers n) (peers m) Q1 Q2 i j P1 P2 N1 N2) as (p & Hp1 & Hp2);
    [intros p Hp; by apply V1|intros p Hp; by apply V2|done|done|].
  destruct (V1 p Hp1) as [_ G1], (V2 p Hp2) as [_ G2]. rewrite Hterm in G1. congruence.
Qed.

Lemma quiet_leader n n' : quiet n n' -> held n = false -> (state n = Leader -> held n = true) -> state n' <> Leader.
Proof. intros [_ _ [(_ & _ & H)|(_ & _ & H)]] Hh Hn HL; [|done]. rewrite (Hn (H HL)) in Hh. done. Qed.

Lemma insert_leader (i : bytes) (n n' : Node) (N : gmap bytes Node) :
  (forall k m, N !! k = Some m -> state m = Leader -> held m = true) -> N !! i = Some n -> held n = false ->
  (state n' = Leader -> held n' = true) ->
  (forall k m, <[i := n']> N !! k = Some m -> state m = Leader -> held m = true) /\
  (forall k m, N !! k = Some m -> held m = true -> <[i := n']> N !! k = Some m).
Proof.
  intros HN Hi Hh Hn'. split.
  - intros k m [[<- <-]|[_ Hm]]%lookup_insert_Some; [done|eauto].
  - intros k m Hk Hm. destruct (decide (k = i)) as [->|Hne]; [congruence|]. by rewrite lookup_insert_ne.
Qed.

(** No handler but [becomeLeader] makes a leader, and it keeps the mutex. *)
Lemma step_leader s s' :
  step Marshal s s' -> (forall i n, nodes s !! i = Some n -> state n = Leader -> held n = true) ->
  (forall i n, nodes s' !! i = Some n -> state n = Leader -> held n = true) /\
  (forall i n, nodes s !! i = Some n -> held n = true -> nodes s' !! i = Some n).
Proof.
  intros [s1 i n n' req Hi Hh Ht He|s1 j c n n' resp Hj _ Hi Hh He|s1 j c resp n n' v v' Hj Ha Hi Hh Hv He|s1 j
    |s1 i n n' req resp Hi Hh He|s1 i n n' cfg now p req resp k k' Hi Hh He] Hinv; cbn [nodes]; [..|done| |];
    (apply (insert_leader _ n); [done..|]); intros HL.
  - unfold startElection in He. destruct (entry_at _ _); [|done..]. by injection He as <- _.
  - apply RequestVote_spec in He. destruct (VoteGranted resp); [|by destruct (quiet_leader _ _ He Hh (Hinv _ _ Hi))].
    destruct (vf_state _ _ _ _ He HL) as [HL' _]. by rewrite (Hinv _ _ Hi HL') in Hh.
  - apply vote_response_spec in He as [[Hq _]|(Hst & _ & _ & _ & ->)]; [by destruct (quiet_leader _ _ Hq Hh (Hinv _ _ Hi))|].
    destruct (majority n v'); [done|congruence].
  - apply AppendEntries_quiet in He. by destruct (quiet_leader _ _ He Hh (Hinv _ _ Hi)).
  - apply heartbeat_response_quiet in He. by destruct (quiet_leader _ _ He Hh (Hinv _ _ Hi)).
Qed.

End elections.

(** ** Executable clusters *)

Inductive event := Election (i : bytes) | Vote (j : nat) | Response (j : nat).

(** The steps of elections, by their names. *)
Definition exec (s : cluster) (ev : event) : option cluster :=
  match ev with
  | Election i =>
      n ← nodes s !! i;
      if held n || (2 ^ 64 - 1 <=? currentTerm n) then None
      else match startElection n with
           | Ok (n', req) => Some (mkCluster (<[i := n']> (nodes s)) (calls s ++ election_calls n' req) (<[(i, VTerm req) := 1]> (votes s)))
           | _ => None
           end
  | Vote j =>
      c ← calls s !! j;
      n ← nodes s !! to c;
      match held n, answer c, RequestVote (request c) n with
      | false, None, Ok (n', resp) =>
          Some (mkCluster (<[to c := n']> (nodes s)) (<[j := mkCall (from c) (to c) (request c) (Some resp)]> (calls s)) (votes s))
      | _, _, _ => None
      end
  | Response j =>
      c ← calls s !! j;
      n ← nodes s !! from c;
      v ← votes s !! (from c, VTerm (request c));
      match held n, answer c with
      | false, Some resp =>
          let r := vote_response (VTerm (request c)) resp v n in
          Some (mkCluster (<[from c := r.1]> (nodes s)) (delete j (calls s)) (<[(from c, VTerm (request c)) := r.2]> (votes s)))
      | _, _ => None
      end
  end.

Fixpoint execs (evs : list event) (s : cluster) : option cluster :=
  match evs with [] => Some s | ev :: evs => s' ← exec s ev; execs evs s' end.

Lemma exec_step Marshal s ev s' : exec s ev = Some s' -> step Marshal s s'.
Proof.
  destruct ev as [i|j|j]; cbn [exec]; intros H.
  - apply bind_Some in H as (n & Hn & H). destruct (held n) eqn:Hh; [done|]. cbn [orb] in H.
    destruct (Z.leb_spec (2 ^ 64 - 1) (currentTerm n)); [done|]. destruct (startElection n) as [[n' req]| | |] eqn:He; [|done..].
    injection H as <-. by eapply StepElection.
  - apply bind_Some in H as (c & Hc & H). apply bind_Some in H as (n & Hn & H). destruct (held n) eqn:Hh; [done|].
    destruct (answer c) eqn:Ha; [done|]. destruct (RequestVote (request c) n) as [[n' resp]| | |] eqn:He; [|done..].
    injection H as <-. by eapply StepRequestVote.
  - apply bind_Some in H as (c & Hc & H). apply bind_Some in H as (n & Hn & H). apply bind_Some in H as (v & Hv & H).
    destruct (held n) eqn:Hh; [done|]. destruct (answer c) as [resp|] eqn:Ha; [|done]. injection H as <-.
    eapply StepVoteResponse; try done. by destruct (vote_response _ _ _ _).
Qed.

Lemma execs_steps Marshal evs : forall s s', execs evs s = Some s' -> rtc (step Marshal) s s'.
Proof.
  induction evs as [|ev evs IH]; cbn [execs]; intros s s' H; [by injection H as <-|].
  apply bind_Some in H as (s1 & H1 & H). eapply rtc_l; [by eapply exec_step|by apply IH].
Qed.

Definition exec_all (evs : list event) (s : cluster) : cluster := default s (execs evs s).

Lemma exec_all_steps Marshal evs s : match execs evs s with Some _ => true | None => false end = true -> rtc (step Marshal) s (exec_all evs s).
Proof. unfold exec_all. destruct (execs evs s) eqn:E; [|done]. intros _. by eapply execs_steps. Qed.

(** Three nodes, each with the other two as its peers. *)
Definition node_a : bytes := [Byte.x61].
Definition node_b : bytes := [Byte.x62].
Definition node_c : bytes := [Byte.x63].

Definition three : list Config :=
  [mkConfig node_a [node_b; node_c] 150 300 50 0; mkConfig node_b [node_a; node_c] 150 300 50 0; mkConfig node_c [node_a; node_b] 150 300 50 0].

Definition members : gset bytes := {[node_a; node_b; node_c]}.

Lemma three_ok : Forall (config_ok members) three.
Proof.
  assert (forall a b : bytes, a <> b -> NoDup [a; b]) as Hnd.
  { intros a b H. apply NoDup_cons_2; [by intros ->%list_elem_of_singleton|apply NoDup_singleton]. }
  repeat apply Forall_cons_2; [..|apply Forall_nil_2]; (split_and!; [done|by apply Hnd|]); unfold members; cbn [ID Peers]; set_solver.
Qed.

Definition no_file : File := mkFile [] 0 [].
Definition data_of (e : LogEntry) : option bytes := Some (Data e).

(** Node [a] asks for votes and [b] gives it one. *)
Definition a_elected : list event := [Election node_a; Vote 0; Response 0].

Definition leads (s : cluster) (i : bytes) (term : Z) : Prop :=
  exists n, nodes s !! i = Some n /\ state n = Leader /\ currentTerm n = term.

Definition leader_of (s : cluster) (i : bytes) (term : Z) : bool :=
  match nodes s !! i with Some n => bool_decide (state n = Leader) && (currentTerm n =? term) | None => false end.

Lemma leader_of_leads s i term : leader_of s i term = true -> leads s i term.
Proof.
  unfold leader_of, leads. destruct (nodes s !! i) as [n|]; [|done].
  intros [H1%bool_decide_eq_true H2%Z.eqb_eq]%andb_prop. by exists n.
Qed.

Definition with_leader : cluster := exec_all a_elected (start three no_file).

Lemma with_leader_reached : rtc (step data_of) (start three no_file) with_leader.
Proof. apply exec_all_steps. by vm_compute. Qed.

Lemma a_leads : exists n, nodes with_leader !! node_a = Some n /\ state n = Leader.
Proof. destruct (leader_of_leads with_leader node_a 1) as (n & H1 & H2 & _); [by vm_compute|]. by exists n. Qed.

Lemma election_safety_witness : exists (s : cluster) (n : Node), Forall (config_ok members) three /\
  rtc (step data_of) (start three no_file) s /\ nodes s !! node_a = Some n /\ state n = Leader /\ node_a = node_a.
Proof.
  destruct a_leads as (n & Hi & Hn). pose proof with_leader_reached as Hs. exists with_leader, n. split_and!; [apply three_ok|done..|].
  exact (election_safety data_of members three no_file with_leader node_a node_a n n three_ok Hs Hi Hi Hn Hn eq_refl).
Defined.


(** Node [i] starts again from its files. *)
Definition restarted (s : cluster) (i : bytes) : cluster :=
  match nodes s !! i with
  | Some n => mkCluster (<[i := NewNode (mkConfig i (peers n) 150 300 50 0) (wal_log.file (wal n))]> (nodes s)) (filter (fun c => from c <> i) (calls s)) (votes s)
  | None => s
  end.

Lemma restarted_restart s i : match nodes s !! i with Some _ => true | None => false end = true -> restart s (restarted s i).
Proof. unfold restarted. destruct (nodes s !! i) as [n|] eqn:E; [|done]. intros _. by apply Restart with n. Qed.

Definition c_elected : list event := [Election node_c; Vote 2; Response 2].


(** ** Late calls *)

Definition entry (term i : Z) : LogEntry := mkEntry term i [Byte.x78].

(** A follower with two entries, both committed and applied. *)
Definition follower : Node :=
  set_commit 2 (set_applied 2 [entry 1 1; entry 1 2]
    (set_log (OpenWAL no_file) [mkEntry 0 0 []; entry 1 1; entry 1 2]
      (set_term 1 [] (NewNode (mkConfig node_b [node_a; node_c] 150 300 50 0) no_file)))).

Lemma follower_ok : log_ok follower.
Proof. split; vm_compute; intuition congruence. Qed.

(** The first of the two requests that sent them. *)
Definition first_request : AppendEntriesRequest := mkAppendReq 1 node_a 0 0 [entry 1 1] 0.


(** A delayed call undoes committed entries.  The request that sent the first of two
    entries arrives again after both were committed: its entry is the one the log has
    there, yet the node cuts its log and loses the second, with its commit index still
    at it. *)
Theorem late_append_drops_committed : exists n' resp,
  AppendEntries data_of first_request follower = Ok (n', resp) /\ Success resp = true /\
  log follower !! 1%nat = Some (entry 1 1) /\ commitIndex n' = 2 /\ log n' !! 2%nat = None.
Proof.
  assert (match AppendEntries data_of first_request follower with
          | Ok (n', resp) => Success resp && (commitIndex n' =? 2) && bool_decide (length (log n') = 2%nat) | _ => false end = true) as H by by vm_compute.
  destruct (AppendEntries _ _ _) as [[n' resp]| | |]; [|done..]. apply andb_prop in H as [[H1 H2%Z.eqb_eq]%andb_prop H3%bool_decide_eq_true].
  exists n', resp. split_and!; try done. by apply lookup_ge_None_2; rewrite H3.
Qed.

(** A leader of three nodes whose second entry [c] has. *)
Definition leader : Node :=
  set_indices ∅ {[node_b := 0; node_c := 2]}
    (set_log (OpenWAL no_file) [mkEntry 0 0 []; entry 1 1; entry 1 2; entry 1 3]
      (set_term 1 node_a (NewNode (mkConfig node_a [node_b; node_c] 150 300 50 0) no_file))).

Lemma advance_commit_correct_witness : log_ok leader /\ exists n', advanceCommitIndex leader = Ok n' /\ log_ok n' /\ commitIndex n' = 2.
Proof.
  assert (log_ok leader) as Hl by (split; vm_compute; intuition congruence). split; [done|].
  destruct (advance_commit_correct leader Hl) as (n' & H1 & H2 & _). exists n'. split_and!; [done..|].
  assert (match advanceCommitIndex leader with Ok n' => commitIndex n' =? 2 | _ => false end = true) as H by by vm_compute.
  rewrite H1 in H. by apply Z.eqb_eq in H.
Defined.

(** ** The election timer *)

(** A timer runs for at least [ElectionMin] and less than [ElectionMax]; when the two are
    equal or swapped, starting it panics. *)
Theorem randomDuration_bounds (r min max : Z) (Hmin : 0 <= min < 2 ^ 63) (Hmax : 0 <= max < 2 ^ 63) :
  (min < max -> exists t, randomDuration r min max = Ok t /\ min <= t < max) /\ (max <= min -> randomDuration r min max = Panic).
Proof.
  unfold randomDuration. assert (i64 (max - min) = max - min) as -> by (apply i64_small; lia). split; intros H.
  - rewrite (proj2 (Z.leb_gt _ _)) by lia. pose proof (Z.mod_pos_bound r (max - min) ltac:(lia)). eexists. split; [reflexivity|]. rewrite i64_small; lia.
  - by rewrite (proj2 (Z.leb_le _ _)) by lia.
Qed.
