(* ===== verification/RaftTimer.v ===== *)
(** * Raft in time (internal/raft/raft.go)

    The timers of a node, its [loop] and the handlers with what they do to the timers.
    Time is the monotonic clock in nanoseconds.  A timer is armed with a deadline or not;
    since Go 1.23 [Stop] and [Reset] leave no stale value in its channel.  [startElection]
    is two steps, its critical section with the start of the goroutines and the
    [resetElectionTimer] after it, because the answers may come in between; a [loop] that
    has to lock the mutex a leader holds is blocked.  Nothing closes [stopCh]. *)

From S2P Require Import Prelude Files WalBatch WalLog Raft RaftSpec.
Import raft.

#[local] Open Scope Z_scope.

Module raft_timer.

Definition Timer := option Z.

Definition Reset (now d : Z) : Timer := Some (now + d).
Definition Stop : Timer := None.
Definition due (now : Z) (t : Timer) : bool := match t with Some d => d <=? now | None => false end.

(** Where [loop] is: in its [select], behind the critical section of [startElection] or of
    [sendHeartbeats] it ran at a time, or waiting for the mutex for ever. *)
Inductive loop_pc := Selecting | Electing (since : Z) | Beating (since : Z) | Blocked.

Record timed := mkTimed {
  node : Node;
  clock : Z;
  electionTimer : Timer;
  heartbeatTimer : Timer;
  pc : loop_pc;
}.

(** [NewNode] at the time [now]; [r] is what the random source gives. *)
Definition start_node (cfg : Config) (f : File) (now r : Z) : outcome Empty_set timed :=
  d ← randomDuration r (ElectionMin cfg) (ElectionMax cfg);
  Ok (mkTimed (NewNode cfg f) now (Reset now d) Stop Selecting).

Definition resetElectionTimer (cfg : Config) (r : Z) (s : timed) : outcome Empty_set timed :=
  d ← randomDuration r (ElectionMin cfg) (ElectionMax cfg);
  Ok (mkTimed (node s) (clock s) (Reset (clock s) d) (heartbeatTimer s) (pc s)).

Definition set_node (n : Node) (s : timed) : timed := mkTimed n (clock s) (electionTimer s) (heartbeatTimer s) (pc s).
Definition set_pc (p : loop_pc) (s : timed) : timed := mkTimed (node s) (clock s) (electionTimer s) (heartbeatTimer s) p.
Definition stop_heartbeat (s : timed) : timed := mkTimed (node s) (clock s) (electionTimer s) Stop (pc s).

(** [stepDown] stops the heartbeats. *)
Definition step_down_timer (term : Z) (s : timed) : timed :=
  if currentTerm (node s) <? term then stop_heartbeat s else s.

Inductive event :=
  | EvTick (t : Z)
  | EvElection
  | EvElectionReset (r : Z)
  | EvHeartbeat
  | EvHeartbeatReset
  | EvRequestVote (req : RequestVoteRequest)
  | EvAppendEntries (req : AppendEntriesRequest)
  | EvVoteResponse (term : Z) (resp : RequestVoteResponse) (votes : Z)
  | EvHeartbeatResponse (p : bytes) (req : AppendEntriesRequest) (resp : AppendEntriesResponse) (successCount r : Z).

Section timed.
Context (Marshal : LogEntry -> option bytes) (cfg : Config).

(** The loop receives from a timer that is due, which is then not armed. *)
Definition fire_election (s : timed) : outcome Empty_set timed :=
  let s := mkTimed (node s) (clock s) None (heartbeatTimer s) (pc s) in
  if held (node s) then Ok (set_pc Blocked s)
  else '(n, _) ← startElection (node s); Ok (set_pc (Electing (clock s)) (set_node n s)).

Definition fire_heartbeat (s : timed) : timed :=
  let s := stop_heartbeat s in
  if held (node s) then set_pc Blocked s
  else match sendHeartbeats (node s) with Some _ => set_pc (Beating (clock s)) s | None => s end.

(** What [startElection] and [sendHeartbeats] do after the goroutines have been started. *)
Definition finish_election (r : Z) (s : timed) : outcome Empty_set timed := resetElectionTimer cfg r (set_pc Selecting s).
Definition finish_heartbeats (s : timed) : timed :=
  mkTimed (node s) (clock s) (electionTimer s) (Reset (clock s) (HeartbeatTime cfg)) Selecting.

(** The goroutine of a vote request; a new leader stops its election timer and starts the
    heartbeats. *)
Definition vote_response_timed (term : Z) (resp : RequestVoteResponse) (votes : Z) (s : timed) : timed :=
  let n := node s in
  let n' := (vote_response term resp votes n).1 in
  if negb (bool_decide (state n = Candidate)) || negb (currentTerm n =? term) then set_node n' s
  else if currentTerm n <? VRTerm resp then set_node n' (stop_heartbeat s)
  else if VoteGranted resp && majority n (votes + 1) then
    mkTimed n' (clock s) Stop (Reset (clock s) (HeartbeatTime cfg)) (pc s)
  else set_node n' s.

(** The goroutine of a heartbeat; a leader of an old term starts its election timer. *)
Definition heartbeat_response_timed (p : bytes) (req : AppendEntriesRequest) (resp : AppendEntriesResponse) (successCount r : Z)
    (s : timed) : outcome Empty_set timed :=
  let n := node s in
  '(n', _) ← heartbeat_response cfg (clock s) p req resp successCount n;
  if negb (bool_decide (state n = Leader)) || negb (currentTerm n =? ATerm req) then Ok (set_node n' s)
  else if currentTerm n <? ARTerm resp then resetElectionTimer cfg r (set_node n' (stop_heartbeat s))
  else Ok (set_node n' s).

(** What happens in an event, and [None] where it cannot: a tick goes forward, the loop is
    where it has to be, a handler gets the mutex. *)
Definition handle (e : event) (s : timed) : option (outcome Empty_set timed) :=
  match e with
  | EvTick t => if clock s <=? t then Some (Ok (mkTimed (node s) t (electionTimer s) (heartbeatTimer s) (pc s))) else None
  | EvElection =>
      match pc s with
      | Selecting => if due (clock s) (electionTimer s) then Some (fire_election s) else None
      | _ => None
      end
  | EvElectionReset r =>
      match pc s with Electing _ => Some (finish_election r s) | _ => None end
  | EvHeartbeat =>
      match pc s with
      | Selecting => if due (clock s) (heartbeatTimer s) then Some (Ok (fire_heartbeat s)) else None
      | _ => None
      end
  | EvHeartbeatReset =>
      match pc s with Beating _ => Some (Ok (finish_heartbeats s)) | _ => None end
  | EvRequestVote req =>
      if held (node s) then None
      else Some ('(n, _) ← RequestVote req (node s); Ok (set_node n (step_down_timer (VTerm req) s)))
  | EvAppendEntries req =>
      if held (node s) then None
      else Some ('(n, _) ← AppendEntries Marshal req (node s); Ok (set_node n (step_down_timer (ATerm req) s)))
  | EvVoteResponse term resp votes =>
      if held (node s) then None else Some (Ok (vote_response_timed term resp votes s))
  | EvHeartbeatResponse p req resp successCount r =>
      if held (node s) then None else Some (heartbeat_response_timed p req resp successCount r s)
  end.

(** The scheduler runs a loop that can go on within [delay]. *)
Definition prompt (delay : Z) (s : timed) : bool :=
  match pc s with
  | Selecting => match electionTimer s with Some d => clock s <=? d + delay | None => true end
  | Electing t | Beating t => clock s <=? t + delay
  | Blocked => true
  end.

(** A run in which no event panics and the loop is prompt. *)
Fixpoint run (delay : Z) (es : list event) (s : timed) : option timed :=
  match es with
  | [] => Some s
  | e :: es =>
      match handle e s with
      | Some (Ok s') => if prompt delay s' then run delay es s' else None
      | _ => None
      end
  end.

End timed.

(** The elections a node starts in a run. *)
Fixpoint elections (es : list event) : Z :=
  match es with
  | [] => 0
  | EvElection :: es => 1 + elections es
  | _ :: es => elections es
  end.

End raft_timer.
Import raft_timer.

(** ** Elections keep coming *)

Section paced.
Context (Marshal : LogEntry -> option bytes) (cfg : Config) (delay t0 : Z).
Context (Hcfg : 0 <= ElectionMin cfg < ElectionMax cfg /\ ElectionMax cfg < 2 ^ 63) (Hdelay : 0 <= delay).

(** The longest time from one election to the next. *)
#[local] Abbreviation period := (ElectionMax cfg + 2 * delay).

(** A node that leads nothing, [k] elections after the time [t0]. *)
Record paced (k : Z) (s : timed) : Prop := {
  pa_state : state (node s) <> Leader;
  pa_beat : heartbeatTimer s = None;
  pa_clock : t0 + k * ElectionMin cfg <= clock s;
  pa_loop : match pc s with
    | Selecting => exists d, electionTimer s = Some d /\ clock s <= d + delay /\
        t0 + (k + 1) * ElectionMin cfg <= d < t0 + k * period + ElectionMax cfg
    | Electing t => t <= clock s <= t + delay /\ t < t0 + k * period - delay
    | _ => False
    end;
}.

Lemma paced_clock k s : paced k s -> k * ElectionMin cfg <= clock s - t0 < (k + 1) * period.
Proof using Hcfg Hdelay.
  intros [_ _ Hc Hl]. split; [lia|]. destruct (pc s) as [|t| |]; [|lia|done..]. destruct Hl as (d & _ & ? & ?). nia.
Qed.

(** A handler that does not lead and leaves the loop and the election timer as they are. *)
Lemma paced_node k s n s1 :
  paced k s -> s1 = s \/ s1 = stop_heartbeat s -> (state n = Leader -> state (node s) = Leader) -> paced k (set_node n s1).
Proof using. intros [H1 H2 H3 H4] [->| ->] Hn; split; cbn; auto. Qed.

Lemma step_down_timer_cases term s : step_down_timer term s = s \/ step_down_timer term s = stop_heartbeat s.
Proof using. unfold step_down_timer. destruct (_ <? _); auto. Qed.

Lemma quiet_leads n n' : quiet n n' -> state n' = Leader -> state n = Leader.
Proof using. intros [_ _ [(_ & _ & H)|(_ & _ & H)]]; [done|by intros ?]. Qed.

Lemma RequestVote_leader req n n' resp : RequestVote req n = Ok (n', resp) -> state n' = Leader -> state n = Leader.
Proof using.
  unfold RequestVote. destruct (currentTerm n <? VTerm req); cbn -[entry_at lastLogIdx];
    destruct (_ && _); cbn -[entry_at lastLogIdx]; try (intros [= <- _]; done);
    destruct (entry_at _ _); try done; cbn -[lastLogIdx]; destruct (_ || _); intros [= <- _]; done.
Qed.

Lemma resetElectionTimer_spec r s s' :
  resetElectionTimer cfg r s = Ok s' ->
  exists d, ElectionMin cfg <= d < ElectionMax cfg /\
    s' = mkTimed (node s) (clock s) (Some (clock s + d)) (heartbeatTimer s) (pc s).
Proof using Hcfg.
  unfold resetElectionTimer. destruct (proj1 (randomDuration_bounds r (ElectionMin cfg) (ElectionMax cfg) ltac:(lia) ltac:(lia)))
    as (d & -> & Hd); [lia|]. intros [= <-]. by exists d.
Qed.

Lemma start_paced f r s : start_node cfg f t0 r = Ok s -> paced 0 s.
Proof using Hcfg Hdelay.
  unfold start_node. destruct (proj1 (randomDuration_bounds r (ElectionMin cfg) (ElectionMax cfg) ltac:(lia) ltac:(lia)))
    as (d & -> & Hd); [lia|]. intros [= <-]. split; cbn; [done..|lia|]. exists (t0 + d). split_and!; [done|lia..].
Qed.

Lemma vote_response_paced k term resp v s :
  paced k s -> held (node (vote_response_timed cfg term resp v s)) = true \/ paced k (vote_response_timed cfg term resp v s).
Proof using.
  intros Hp. unfold vote_response_timed. destruct (negb _ || negb _) eqn:E1.
  { right. apply (paced_node k s _ s); [done|by left|]. unfold vote_response. by rewrite E1. }
  destruct (currentTerm (node s) <? VRTerm resp) eqn:E2.
  { right. apply (paced_node k s _ (stop_heartbeat s)); [done|by right|]. unfold vote_response. by rewrite E1, E2. }
  destruct (VoteGranted resp) eqn:E3; cbn [andb]; [destruct (majority (node s) (v + 1)) eqn:E4|].
  - left. cbn. unfold vote_response. by rewrite E1, E2, E3, E4.
  - right. apply (paced_node k s _ s); [done|by left|]. unfold vote_response. by rewrite E1, E2, E3, E4.
  - right. apply (paced_node k s _ s); [done|by left|]. unfold vote_response. by rewrite E1, E2, E3.
Qed.

Lemma heartbeat_response_paced k p req resp c r s s' :
  paced k s -> heartbeat_response_timed cfg p req resp c r s = Ok s' -> paced k s'.
Proof using.
  intros Hp. unfold heartbeat_response_timed. destruct (heartbeat_response _ _ _ _ _ _ _) as [[n' c']| | |] eqn:E; [|done..].
  cbn [mbind outcome_bind]. rewrite bool_decide_eq_false_2 by apply Hp. cbn [negb orb]. intros [= <-].
  apply (paced_node k s _ s); [done|by left|]. by eapply quiet_leads, heartbeat_response_quiet.
Qed.

Lemma election_paced k s s' :
  paced k s -> held (node s) = false -> pc s = Selecting -> due (clock s) (electionTimer s) = true ->
  fire_election s = Ok s' -> paced (k + 1) s'.
Proof using Hcfg Hdelay.
  intros [H1 H2 H3 H4] Hh Hpc. rewrite Hpc in H4. destruct H4 as (d & -> & Hd). cbn [due]. intros Hdue%Z.leb_le.
  unfold fire_election. cbn. rewrite Hh. unfold startElection. destruct (entry_at _ _); [|done..]. intros [= <-]. split; cbn; [done..|lia|lia].
Qed.

(** One event: the node leads, and holds its mutex, or one more election has been started
    exactly when the event is one. *)
Lemma handle_paced k e s s' :
  paced k s -> held (node s) = false -> handle Marshal cfg e s = Some (Ok s') -> prompt delay s' = true ->
  held (node s') = true \/ paced (k + elections [e]) s'.
Proof using Hcfg Hdelay.
  intros Hp Hh. destruct e as [t| |r| | |req|req|term resp v|p req resp c r];
    cbn [handle elections]; rewrite ?Hh, ?Z.add_0_r.
  - destruct (Z.leb_spec (clock s) t) as [Ht|]; [|done]. intros [= <-] Hpr. right. cbn.
    destruct Hp as [H1 H2 H3 H4]. split; cbn in *; [done..|lia|].
    unfold prompt in Hpr; cbn in Hpr. destruct (pc s); [|apply Z.leb_le in Hpr; lia|done..].
    destruct H4 as (d & Hd & H4). rewrite Hd in Hpr. apply Z.leb_le in Hpr. exists d. split_and!; [done|lia..].
  - destruct (pc s) eqn:Hpc; try done. destruct (due _ _) eqn:Hd; [|done]. intros [= E] _. right. by eapply election_paced.
  - destruct (pc s) as [|t| |] eqn:Hpc; try done. intros [= (d & Hd & ->)%resetElectionTimer_spec] _. right.
    destruct Hp as [H1 H2 H3 H4]. rewrite Hpc in H4. cbn. split; cbn; [done..|].
    exists (clock s + d). split_and!; [done|nia..].
  - destruct (pc s) eqn:Hpc; try done. destruct Hp as [_ -> _ _]. done.
  - destruct Hp as [_ _ _ H4]. by destruct (pc s).
  - destruct (RequestVote req (node s)) as [[n resp]| | |] eqn:E; try done. intros [= <-] _. right. cbn.
    apply (paced_node k s); [done|apply step_down_timer_cases|by eapply RequestVote_leader].
  - destruct (AppendEntries Marshal req (node s)) as [[n resp]| | |] eqn:E; try done. intros [= <-] _. right. cbn.
    apply (paced_node k s); [done|apply step_down_timer_cases|by eapply quiet_leads, AppendEntries_quiet].
  - intros [= <-] _. cbn. by apply vote_response_paced.
  - intros [= E] _. right. cbn. by eapply heartbeat_response_paced.
Qed.

(** Nothing gives the mutex of a leader back. *)
Lemma handle_held e s s' : held (node s) = true -> handle Marshal cfg e s = Some (Ok s') -> held (node s') = true.
Proof using.
  intros Hh. destruct e; cbn [handle]; rewrite ?Hh; try done.
  - destruct (_ <=? _); [|done]. by intros [= <-].
  - destruct (pc s); try done. destruct (due _ _); [|done]. unfold fire_election. cbn. rewrite Hh. by intros [= <-].
  - destruct (pc s); try done. unfold finish_election, resetElectionTimer. destruct (randomDuration _ _ _); [|done..]. by intros [= <-].
  - destruct (pc s); try done. destruct (due _ _); [|done]. unfold fire_heartbeat. cbn. rewrite Hh. by intros [= <-].
  - destruct (pc s); try done. by intros [= <-].
Qed.

Lemma run_held es : forall s s', held (node s) = true -> run Marshal cfg delay es s = Some s' -> held (node s') = true.
Proof using.
  induction es as [|e es IH]; cbn [run]; intros s s' Hh; [by intros [= <-]|].
  destruct (handle _ _ e s) as [[s1| | |]|] eqn:E; try done. destruct (prompt _ _); [|done].
  apply IH. by eapply handle_held.
Qed.

Lemma elections_cons e es : elections (e :: es) = elections [e] + elections es.
Proof using. destruct e; cbn; lia. Qed.

Lemma run_paced es : forall k s s',
  paced k s -> held (node s) = false -> run Marshal cfg delay es s = Some s' -> held (node s') = false ->
  paced (k + elections es) s'.
Proof using Hcfg Hdelay.
  induction es as [|e es IH]; cbn [run]; intros k s s' Hp Hh.
  { intros [= <-] _. by replace (k + elections []) with k by (cbn; lia). }
  destruct (handle _ _ e s) as [[s1| | |]|] eqn:E; try done. destruct (prompt _ _) eqn:Hpr; [|done]. intros Hr Hh'.
  destruct (handle_paced k e s s1 Hp Hh E Hpr) as [Hh1|Hp1]; [by rewrite (run_held es s1 s') in Hh'|].
  rewrite elections_cons, Z.add_assoc. eapply IH; try done.
  destruct (held (node s1)) eqn:Hh1; [|done]. by rewrite (run_held es s1 s') in Hh'.
Qed.

End paced.

(** A follower that hears nothing asks for votes when its timer runs out, in term 1. *)
Lemma silent_follower_elects Marshal cfg f t0 r s :
  0 <= ElectionMin cfg < ElectionMax cfg -> ElectionMax cfg < 2 ^ 63 -> start_node cfg f t0 r = Ok s ->
  exists d s', ElectionMin cfg <= d < ElectionMax cfg /\ run Marshal cfg 0 [EvTick (t0 + d); EvElection] s = Some s' /\
    state (node s') = Candidate /\ currentTerm (node s') = 1 /\ votedFor (node s') = ID cfg.
Proof.
  intros H1 H2. unfold start_node.
  destruct (proj1 (randomDuration_bounds r (ElectionMin cfg) (ElectionMax cfg) ltac:(lia) ltac:(lia))) as (d & -> & Hd); [lia|].
  intros [= <-]. exists d. cbn [run handle clock pc electionTimer mbind outcome_bind].
  rewrite (proj2 (Z.leb_le t0 (t0 + d))) by lia. unfold prompt. cbn. rewrite !(proj2 (Z.leb_le _ _)) by lia.
  set (s0 := mkTimed _ _ None _ _). assert (exists n, startElection (NewNode cfg f) = Ok n /\ state n.1 = Candidate /\ currentTerm n.1 = 1 /\ votedFor n.1 = ID cfg)
    as ([n req] & -> & Hn1 & Hn2 & Hn3) by (eexists; split; [reflexivity|done]).
  cbn. rewrite (proj2 (Z.leb_le _ _)) by lia. eexists. split; [done|]. split; [done|]. by split_and!.
Qed.


(** A follower of node 1 with heartbeats of its leader every 50 milliseconds. *)
Definition timer_config : Config := mkConfig [Byte.x02] [[Byte.x01]; [Byte.x03]] 150 300 50 0.
Definition beat : event := EvAppendEntries (mkAppendReq 1 [Byte.x01] 0 0 [] 0).
Definition beaten : list event :=
  [EvTick 50; beat; EvTick 100; beat; EvTick 150; beat; EvTick 200; beat; EvTick 201; EvElection; EvElectionReset 9;
   EvTick 250; beat; EvTick 300; beat; EvTick 350; beat; EvTick 360; EvElection].

Definition beaten_start : timed := mkTimed (NewNode timer_config no_file) 0 (Some 200) None Selecting.
Definition beaten_end : timed := default beaten_start (run (fun _ => None) timer_config 1 beaten beaten_start).

Lemma beaten_runs : run (fun _ => None) timer_config 1 beaten beaten_start = Some beaten_end.
Proof.
  assert (match run (fun _ => None) timer_config 1 beaten beaten_start with Some _ => true | None => false end = true) as H
    by (vm_compute; reflexivity).
  unfold beaten_end. by destruct (run _ _ _ _ _).
Qed.

