(* ===== verification/Db.v ===== *)
(** * The database (db.go, options.go)

    [DB] is the memtable manager with its goroutines, the group committers made so far
    and the tree.  [step] interleaves the callers of the database, the committers, the
    flush goroutine with [rotateWAL], the compaction loop and [Close]: a step is what a
    goroutine does between two points at which it may block.  Writers keep [db.mu] shared
    from their first to their last step; [rotateWAL] and [Close] take it alone. *)

From S2P Require Import Prelude Order Keys Files WalBatch WalLog WalRecovery GroupCommit SkipList MemTable Manager.
From S2P Require Import Cache SSTable Manifest Compaction Lsm.
Import wal_batch.

Module db.

(** The directory is an argument of [Open]; nothing reads [SyncWrites]. *)
Record Options := mkOptions {
  MemTableSize : Z;
  WALMaxBatchSize : Z;
  WALMaxBatchDelay : Z;
  SyncWrites : bool;
  SSTableBlockSize : Z;
  BloomBitsPerKey : Z;
  BlockCacheSize : Z;
  CompactionRateMB : Z;
  L0StallTrigger : Z;
}.

Definition DefaultOptions : Options :=
  mkOptions (4 * 1024 * 1024) 100 (10 * 1000000) false 4096 10 (8 * 1024 * 1024) 50 12.

Definition lsm_options (o : Options) : lsm.LSMOptions :=
  lsm.mkOpts (SSTableBlockSize o) (BloomBitsPerKey o) (BlockCacheSize o) (CompactionRateMB o) (L0StallTrigger o).

Inductive db_error := ErrNotFound | ErrClosed | ErrWAL (e : wal_error) | ErrLSM (e : lsm_error).

(** ** State *)

(** The directory: [wal.log] with its temporary file, the tables and the manifest. *)
Record Directory := mkDir { wal_files : FS; sst_files : gmap Z bytes; manifest_file : bytes }.

(** A call of [Put], [Delete] or [WriteBatch]: before [m.wal.Submit] has sent the batch,
    waiting for the committer, and in the critical section of the manager. *)
Inductive write_phase := Begun | Sent | Applying.
Record write_call := mkWrite { wbatch : Batch; wphase : write_phase }.

(** A call of [Get]: before its lookup in the memtables and before that in the tree. *)
Record read_call := mkRead { rkey : bytes; missed : bool }.

(** Where the flush goroutine is in [flushFn]. *)
Inductive flush_stage := FlushTree | WaitLock | WaitStop | Returned.

(** Where [Close] is. *)
Inductive close_stage := NotClosing | CloseWaitLock | CloseWaitFlusher | CloseWaitStop | CloseDone.

#[export] Instance read_call_eq_dec : EqDecision read_call.
Proof. solve_decision. Defined.

#[export] Instance flush_stage_eq_dec : EqDecision flush_stage.
Proof. solve_decision. Defined.

#[export] Instance close_stage_eq_dec : EqDecision close_stage.
Proof. solve_decision. Defined.

#[export] Instance write_phase_eq_dec : EqDecision write_phase.
Proof. solve_decision. Defined.

Inductive result :=
  | RWrite (b : Batch) (r : outcome db_error unit)
  | RRead (k : bytes) (r : outcome db_error bytes)
  | RClose (r : outcome db_error unit).

(** The manager has the first committer for ever, [db.gc] and [db.wal] are the last one
    and its writer.  [linked] when the file of that writer is at [wal.log].  [results]
    are the calls that returned. *)
Record DB := mkDB {
  options : Options;
  committers : list group_commit.GroupCommitter;
  linked : bool;
  mem : manager.sys;
  tree : lsm.LSMTree;
  writes : gmap nat write_call;
  reads : gmap nat read_call;
  stage : flush_stage;
  closing : close_stage;
  closed : bool;
  next_id : nat;
  results : list (nat * result);
}.

Definition set_committers cs (d : DB) : DB := mkDB (options d) cs (linked d) (mem d) (tree d) (writes d) (reads d) (stage d) (closing d) (closed d) (next_id d) (results d).
Definition set_linked b (d : DB) : DB := mkDB (options d) (committers d) b (mem d) (tree d) (writes d) (reads d) (stage d) (closing d) (closed d) (next_id d) (results d).
Definition set_mem m (d : DB) : DB := mkDB (options d) (committers d) (linked d) m (tree d) (writes d) (reads d) (stage d) (closing d) (closed d) (next_id d) (results d).
Definition set_tree t (d : DB) : DB := mkDB (options d) (committers d) (linked d) (mem d) t (writes d) (reads d) (stage d) (closing d) (closed d) (next_id d) (results d).
Definition set_writes w (d : DB) : DB := mkDB (options d) (committers d) (linked d) (mem d) (tree d) w (reads d) (stage d) (closing d) (closed d) (next_id d) (results d).
Definition set_reads r (d : DB) : DB := mkDB (options d) (committers d) (linked d) (mem d) (tree d) (writes d) r (stage d) (closing d) (closed d) (next_id d) (results d).
Definition set_stage s (d : DB) : DB := mkDB (options d) (committers d) (linked d) (mem d) (tree d) (writes d) (reads d) s (closing d) (closed d) (next_id d) (results d).
Definition set_closing c b (d : DB) : DB := mkDB (options d) (committers d) (linked d) (mem d) (tree d) (writes d) (reads d) (stage d) c b (next_id d) (results d).
Definition set_next n (d : DB) : DB := mkDB (options d) (committers d) (linked d) (mem d) (tree d) (writes d) (reads d) (stage d) (closing d) (closed d) n (results d).
Definition add_result (id : nat) (r : result) (d : DB) : DB := mkDB (options d) (committers d) (linked d) (mem d) (tree d) (writes d) (reads d) (stage d) (closing d) (closed d) (next_id d) (results d ++ [(id, r)]).

(** [db.mu]: a goroutine has it alone, or waits to, which keeps new readers out. *)
Definition locked (d : DB) : bool :=
  bool_decide (stage d = WaitStop) || bool_decide (closing d = CloseWaitFlusher) || bool_decide (closing d = CloseWaitStop).
Definition lock_wanted (d : DB) : bool := bool_decide (stage d = WaitLock) || bool_decide (closing d = CloseWaitLock).
Definition can_rlock (d : DB) : bool := negb (locked d) && negb (lock_wanted d).
Definition can_lock (d : DB) : bool := negb (locked d) && bool_decide (writes d = ∅).

Definition set_call (id : nat) (p : write_phase) (w : write_call) (d : DB) : DB :=
  set_writes (<[id := mkWrite (wbatch w) p]> (writes d)) d.

(** A write call returns. *)
Definition return_write (id : nat) (w : write_call) (r : outcome db_error unit) (d : DB) : DB :=
  add_result id (RWrite (wbatch w) r) (set_writes (delete id (writes d)) d).
Definition return_read (id : nat) (k : bytes) (r : outcome db_error bytes) (d : DB) : DB :=
  add_result id (RRead k r) (set_reads (delete id (reads d)) d).

(** [NewWriter] and [NewGroupCommitter] on the file with the contents [data]. *)
Definition new_committer (o : Options) (data : bytes) (fs : list (option nat)) : group_commit.GroupCommitter :=
  group_commit.NewGroupCommitter (wal_log.NewWriter (mkFile data (len data) fs)) (WALMaxBatchSize o).

Section db.
Context (Sum128 : bytes -> Z * Z).
Context (CompressBlock : bytes -> option bytes) (UncompressBlock : bytes -> Z -> option bytes).
Context (coin : nat -> bool).

(** ** Opening *)

(** The replay; it ends with [None] when it waits, for ever, for the flush goroutine that
    is started after it. *)
Fixpoint replay_batches (m : manager.Manager) (bs : list Batch) : outcome Empty_set (option manager.Manager) :=
  match bs with
  | [] => Ok (Some m)
  | b :: bs =>
      x ← manager.ApplyRecoveredBatch coin m b;
      match x with
      | (m, []) => replay_batches m bs
      | (_, _) => Ok None
      end
  end.

(** [Open]; [None] when it does not return.  The faults of the calls that write are those
    of [wal_files]. *)
Definition Open (o : Options) (dir : Directory) (rd_faults : list (option nat)) : outcome db_error (option DB) :=
  let fs := wal_files dir in
  let '(failed, wf) := os_call (wr_faults fs) in
  if (failed : bool) then Err (ErrWAL ErrIO)
  else
    match wal_recovery.Recover rd_faults (mkFS (fs_log fs) (fs_tmp fs) wf) with
    | (fs, Ok res) =>
        let '(failed, wf) := os_call (wr_faults fs) in
        if (failed : bool) then Err (ErrWAL ErrIO)
        else
          let gc := new_committer o (default [] (fs_log fs)) wf in
          match lsm.NewLSMTree (lsm_options o) (sst_files dir) (manifest_file dir) with
          | Ok t =>
              m ← no_error (replay_batches (manager.NewManager (MemTableSize o)) (wal_recovery.Batches res));
              Ok (m ← m;
                  Some (mkDB o [gc] true
                    (manager.mkSys m manager.Idle true false [] [] [] [] (concat (map Entries (wal_recovery.Batches res))))
                    t ∅ ∅ FlushTree NotClosing false 0%nat []))
          | Err e => Err (ErrLSM e)
          | Panic => Panic
          | Fuel => Fuel
          end
    | (_, Err e) => Err (ErrWAL e)
    | (_, Panic) => Panic
    | (_, Fuel) => Fuel
    end.

(** ** Writing *)

(** The beginning of [WriteBatch], and of [Put] and [Delete] with a batch of one entry:
    the call takes [db.mu] shared. *)
Definition WriteBatch (b : Batch) (d : DB) : DB :=
  let id := next_id d in
  let d := set_next (S id) d in
  if closed d then add_result id (RWrite b (Err ErrClosed)) d
  else set_writes (<[id := mkWrite b Begun]> (writes d)) d.

Definition Put (k : bytes) (v : option bytes) (d : DB) : DB := WriteBatch (wal_batch.Put empty_batch k v) d.
Definition Delete (k : bytes) (d : DB) : DB := WriteBatch (wal_batch.Delete empty_batch k) d.

(** A step of committer [i]. *)
Definition commit_step (i : nat) (e : group_commit.event) (d : DB) : outcome manager.disabled DB :=
  match gc ← committers d !! i; group_commit.step e gc with
  | Some gc => Ok (set_committers (<[i := gc]> (committers d)) d)
  | None => Err manager.Disabled
  end.

(** [m.wal.Submit] sends the encoded batch to the first committer, or finds it stopping. *)
Definition send (id : nat) (w : write_call) (d : DB) : outcome manager.disabled DB :=
  data ← no_error (Encode (wbatch w));
  d ← commit_step 0 (group_commit.ESend (id, data)) d;
  Ok (set_call id Sent w d).

Definition reject (id : nat) (w : write_call) (d : DB) : outcome manager.disabled DB :=
  d ← commit_step 0 (group_commit.EReject id) d;
  Ok (return_write id w (Err (ErrWAL WalBatch.ErrClosed)) d).

(** The answer of the committer to request [id]. *)
Definition reply_to (id : nat) (d : DB) : option (outcome wal_error unit) :=
  gc ← committers d !! 0%nat;
  x ← list_find (fun x => x.1.1 = id) (group_commit.replies gc);
  Some x.2.2.

Definition mem_step (e : manager.event) (d : DB) : outcome manager.disabled DB :=
  m ← manager.step coin e (mem d);
  Ok (set_mem m d).

(** [Submit] returns, and the call goes on in the manager when the log has the batch. *)
Definition answered (id : nat) (w : write_call) (d : DB) : outcome manager.disabled DB :=
  match reply_to id d with
  | Some (Ok _) =>
      d ← mem_step (manager.EWrite id (Entries (wbatch w))) d;
      Ok (set_call id Applying w d)
  | Some (Err e) => Ok (return_write id w (Err (ErrWAL e)) d)
  | Some Panic => Panic
  | Some Fuel => Fuel
  | None => Err manager.Disabled
  end.

(** ** Reading *)

Definition found (v : option bytes) : outcome db_error bytes :=
  match v with Some v => Ok v | None => Err ErrNotFound end.

(** [Get]: the check, the lookup in the memtables, and that in the tree. *)
Definition Get (k : bytes) (d : DB) : DB :=
  let id := next_id d in
  let d := set_next (S id) d in
  if closed d then add_result id (RRead k (Err ErrClosed)) d
  else set_reads (<[id := mkRead k false]> (reads d)) d.

Definition Get_mem (id : nat) (k : bytes) (d : DB) : outcome manager.disabled DB :=
  x ← no_error (manager.Get (manager.mgr (mem d)) k);
  match x with
  | (v, true) => Ok (return_read id k (found v) d)
  | (_, false) => Ok (set_reads (<[id := mkRead k true]> (reads d)) d)
  end.

Definition Get_tree (id : nat) (k : bytes) (d : DB) : outcome manager.disabled DB :=
  match lsm.Get Sum128 UncompressBlock k (tree d) with
  | (t, Ok (Some v)) => Ok (return_read id k (found v) (set_tree t d))
  | (t, Ok None) => Ok (return_read id k (Err ErrNotFound) (set_tree t d))
  | (t, Err e) => Ok (return_read id k (Err (ErrLSM e)) (set_tree t d))
  | (_, Panic) => Panic
  | (_, Fuel) => Fuel
  end.

(** ** Flushing *)

(** [flushFn] up to [rotateWAL]; an error makes the flush goroutine try again. *)
Definition flush_tree (imm : memtable.MemTable) (d : DB) : outcome manager.disabled DB :=
  match lsm.Flush Sum128 CompressBlock imm (tree d) with
  | (t, Ok _) => Ok (set_stage WaitLock (set_tree t d))
  | (t, Err _) => d ← mem_step manager.EFlushErr d; Ok (set_tree t d)
  | (_, Panic) => Panic
  | (_, Fuel) => Fuel
  end.

(** [gc.Stop] up to its wait; closing a closed channel panics. *)
Definition stop_committer (d : DB) : outcome manager.disabled DB :=
  match last (committers d) with
  | Some gc =>
      if group_commit.stopClosed gc then Panic
      else commit_step (length (committers d) - 1) group_commit.EClose d
  | None => Panic
  end.

Definition committer_stopped (d : DB) : bool :=
  match last (committers d) with
  | Some gc => match group_commit.phase_of gc with group_commit.Stopped => true | _ => false end
  | None => false
  end.

(** [db.wal.Close()]. *)
Definition close_writer (gc : group_commit.GroupCommitter) : group_commit.GroupCommitter * outcome wal_error unit :=
  let '(w, r) := wal_log.Close (group_commit.writer gc) in
  (group_commit.mkGC w (group_commit.pending gc) (group_commit.batch gc) (group_commit.timerActive gc) (group_commit.stopClosed gc)
     (group_commit.phase_of gc) (group_commit.maxBatchSize gc) (group_commit.calls gc) (group_commit.replies gc)
     (group_commit.rejected gc), r).

Definition close_wal (d : DB) : DB * outcome wal_error unit :=
  match last (committers d) with
  | Some gc =>
      let '(gc, r) := close_writer gc in
      (set_committers (<[(length (committers d) - 1)%nat := gc]> (committers d)) d, r)
  | None => (d, Panic)
  end.

(** [rotateWAL] after the committer has stopped; whether the rename or the new writer
    fails is an argument.  Its errors, and those of [Close] and [Remove], are only
    logged, and the removed file is never read again. *)
Definition rotateWAL (rename_fails create_fails : bool) (d : DB) : DB :=
  let '(d, _) := close_wal d in
  if rename_fails then d
  else if create_fails then set_linked false d
  else set_linked true (set_committers (committers d ++ [new_committer (options d) [] []]) d).

(** ** Closing *)

Definition finish_close (d : DB) : DB :=
  let '(d, walErr) := close_wal d in
  let '(t, lsmErr) := lsm.Close (tree d) in
  let d := set_tree t d in
  let r := if (lsmErr : bool) then Err (ErrLSM ErrFile)
           else match walErr with Err e => Err (ErrWAL e) | _ => Ok tt end in
  set_closing CloseDone true (add_result (next_id d) (RClose r) (set_next (S (next_id d)) d)).

(** ** Steps *)

Inductive event :=
  | EvWrite (b : Batch)                (* WriteBatch, Put, Delete: db.mu.RLock and the check *)
  | EvSend (id : nat)                  (* Submit: case gc.pending <- req *)
  | EvReject (id : nat)                (* Submit: case <-gc.stopCh *)
  | EvAnswer (id : nat)                (* Submit: <-req.result *)
  | EvReturn (id : nat)                (* the manager has written all; db.mu.RUnlock *)
  | EvCommitter (i : nat) (e : group_commit.event)   (* the goroutine of a committer *)
  | EvResume                           (* a woken writer *)
  | EvSignal                           (* flushLoop: case <-m.flushCh *)
  | EvLast                             (* flushLoop: case <-m.stopCh *)
  | EvFlush                            (* flushFn: db.lsm.Flush *)
  | EvLock                             (* rotateWAL: db.mu.Lock and close(gc.stopCh) *)
  | EvRotate (rename_fails create_fails : bool)      (* rotateWAL: the rest *)
  | EvFlushed                          (* doFlush: the table is no longer needed *)
  | EvCompact (durationMs : Z)         (* doCompaction: one iteration *)
  | EvRead (k : bytes)                 (* Get: the check *)
  | EvReadMem (id : nat)               (* Get: db.manager.Get *)
  | EvReadTree (id : nat)              (* Get: db.lsm.Get, while the tree is open *)
  | EvClose                            (* Close is called *)
  | EvCloseLock                        (* Close: db.mu.Lock, the flag, close(m.stopCh) *)
  | EvCloseFlusher                     (* Close: the flush goroutine has ended; close(gc.stopCh) *)
  | EvCloseEnd.                        (* Close: the rest *)

(** The channel operations of [run]. *)
Definition of_run (e : group_commit.event) : bool :=
  match e with
  | group_commit.ERecv | group_commit.ETimer | group_commit.EStop | group_commit.EDrain | group_commit.EReturn => true
  | _ => false
  end.

(** The write call [id], when it is in phase [p]. *)
Definition call_in (p : write_phase) (id : nat) (d : DB) : option write_call :=
  w ← writes d !! id; if bool_decide (wphase w = p) then Some w else None.

Definition on {A} (x : option A) (f : A -> outcome manager.disabled DB) : outcome manager.disabled DB :=
  match x with Some a => f a | None => Err manager.Disabled end.

Definition when (b : bool) (r : outcome manager.disabled DB) : outcome manager.disabled DB :=
  if b then r else Err manager.Disabled.

Definition step (e : event) (d : DB) : outcome manager.disabled DB :=
  match e with
  | EvWrite b => when (can_rlock d) (Ok (WriteBatch b d))
  | EvSend id => on (call_in Begun id d) (fun w => send id w d)
  | EvReject id => on (call_in Begun id d) (fun w => reject id w d)
  | EvAnswer id => on (call_in Sent id d) (fun w => answered id w d)
  | EvReturn id => on (call_in Applying id d) (fun w =>
      when (bool_decide (id ∈ manager.finished (mem d))) (Ok (return_write id w (Ok tt) d)))
  | EvCommitter i e => when (of_run e) (commit_step i e d)
  | EvResume => mem_step manager.EResume d
  | EvSignal => mem_step manager.ESignal d
  | EvLast => mem_step manager.ELast d
  | EvFlush =>
      match manager.fl (mem d) with
      | manager.Busy imm _ => when (bool_decide (stage d = FlushTree) && negb (lsm.stalled (tree d))) (flush_tree imm d)
      | _ => Err manager.Disabled
      end
  | EvLock => when (bool_decide (stage d = WaitLock) && can_lock d) (d ← stop_committer d; Ok (set_stage WaitStop d))
  | EvRotate rename_fails create_fails =>
      when (bool_decide (stage d = WaitStop) && committer_stopped d) (Ok (set_stage Returned (rotateWAL rename_fails create_fails d)))
  | EvFlushed => when (bool_decide (stage d = Returned)) (d ← mem_step manager.EFlushOk d; Ok (set_stage FlushTree d))
  | EvCompact durationMs =>
      when (negb (bool_decide (closing d = CloseDone)))
        (match lsm.compact_once Sum128 CompressBlock UncompressBlock (fun _ => 0%Z) durationMs (tree d) with
         | (t, Ok _) | (t, Err _) => Ok (set_tree t d)
         | (_, Panic) => Panic
         | (_, Fuel) => Fuel
         end)
  | EvRead k => when (can_rlock d) (Ok (Get k d))
  | EvReadMem id => on (reads d !! id) (fun r => when (negb (missed r)) (Get_mem id (rkey r) d))
  | EvReadTree id => on (reads d !! id) (fun r => when (missed r && negb (bool_decide (closing d = CloseDone))) (Get_tree id (rkey r) d))
  | EvClose =>
      match closing d with
      | NotClosing => Ok (set_closing CloseWaitLock (closed d) d)
      | CloseDone => when (can_lock d) (Ok (add_result (next_id d) (RClose (Err ErrClosed)) (set_next (S (next_id d)) d)))
      | _ => Err manager.Disabled
      end
  | EvCloseLock =>
      when (bool_decide (closing d = CloseWaitLock) && can_lock d)
        (d ← mem_step manager.EStop d; Ok (set_closing CloseWaitFlusher true d))
  | EvCloseFlusher =>
      when (bool_decide (closing d = CloseWaitFlusher))
        (match manager.fl (mem d) with
         | manager.Exited => d ← stop_committer d; Ok (set_closing CloseWaitStop true d)
         | _ => Err manager.Disabled
         end)
  | EvCloseEnd => when (bool_decide (closing d = CloseWaitStop) && committer_stopped d) (Ok (finish_close d))
  end.

Fixpoint run (es : list event) (d : DB) : outcome manager.disabled DB :=
  match es with
  | [] => Ok d
  | e :: es => d ← step e d; run es d
  end.

End db.

(** What is on the disk when the machine stops, with every write of the process kept. *)
Definition crash (d : DB) : Directory :=
  mkDir (mkFS (if linked d then gc ← last (committers d); Some (fdata (wal_log.file (group_commit.writer gc))) else None) None [])
    (compaction.sst (lsm.lenv (tree d))) (fdata (manifest.mfile (compaction.man (lsm.lenv (tree d))))).

End db.
Import db.
