(* ===== verification/DbSpec.v ===== *)
(** * What the database promises

    A write that returned without an error was logged, synced and applied.  After the
    first flush no write returns so, a burst of writes can block the database for ever,
    and a rotation of the log can lose a write. *)

From S2P Require Import Prelude Order Keys Files WalBatch WalLog WalRecovery GroupCommit SkipList MemTable Manager.
From S2P Require Import Bloom Cache SSTable SSTableSpec Manifest Heap MergeIter Compaction CompactionSpec Limits Levels.
From S2P Require Import Lsm LsmSpec LsmRefine Db.
Import wal_batch manager db.

(** ** The calls in the manager *)

(** A task of the manager belongs to a call that has written the entries before it; the
    calls that finished have written all. *)
Record tasks_ok (ws : gmap nat write_call) (nid : nat) (s : sys) : Prop := {
  to_ids : forall id w, ws !! id = Some w -> (id < nid)%nat;
  to_nodup : NoDup (map fst (blocked s ++ ready s) ++ finished s);
  to_task : forall t, t ∈ blocked s ++ ready s ->
    exists w dn, ws !! t.1 = Some w /\ wphase w = Applying /\ Entries (wbatch w) = dn ++ t.2 /\ dn `sublist_of` applied s;
  to_fin : forall id, id ∈ finished s ->
    (id < nid)%nat /\ forall w, ws !! id = Some w -> wphase w = Applying /\ Entries (wbatch w) `sublist_of` applied s;
}.

Lemma tasks_calls ws nid ws' nid' s :
  tasks_ok ws nid s -> (nid <= nid')%nat -> (forall id w, ws' !! id = Some w -> (id < nid')%nat) ->
  (forall t, t ∈ blocked s ++ ready s -> ws' !! t.1 = ws !! t.1) ->
  (forall id w, id ∈ finished s -> ws' !! id = Some w -> ws !! id = Some w) -> tasks_ok ws' nid' s.
Proof.
  intros [H1 H2 H3 H4] Hn Hid Ht Hf. split; [done|done| |].
  - intros t Hin. rewrite (Ht t Hin). by apply H3.
  - intros id Hin. destruct (H4 id Hin) as [Hlt Hw]. split; [lia|]. intros w E. by apply Hw, Hf.
Qed.

(** A new call. *)
Lemma tasks_begin ws nid s b : tasks_ok ws nid s -> tasks_ok (<[nid := mkWrite b Begun]> ws) (S nid) s.
Proof.
  intros H. pose proof H as [H1 H2 H3 H4]. apply (tasks_calls ws nid); [done|lia|..].
  - intros id w [[<- _]|[_ E]]%lookup_insert_Some; [lia|]. specialize (H1 _ _ E). lia.
  - intros t Ht. destruct (H3 t Ht) as (w & _ & E & _). specialize (H1 _ _ E). rewrite lookup_insert_ne; [done|lia].
  - intros id w Hf [[<- _]|[_ E]]%lookup_insert_Some; [|done]. destruct (H4 _ Hf). lia.
Qed.

(** A call that the manager has not seen moves on or returns. *)
Lemma tasks_early ws nid s id w (x : option write_call) :
  tasks_ok ws nid s -> ws !! id = Some w -> wphase w <> Applying -> tasks_ok (partial_alter (fun _ => x) id ws) nid s.
Proof.
  intros H E Hp. pose proof H as [H1 H2 H3 H4]. apply (tasks_calls ws nid); [done|lia|..].
  - intros id' w' E'. destruct (decide (id' = id)) as [->|]; [by eapply H1|]. rewrite lookup_partial_alter_ne in E' by done. by eapply H1.
  - intros t Ht. destruct (H3 t Ht) as (w' & _ & E' & Hp' & _). rewrite lookup_partial_alter_ne; [done|]. intros ->. congruence.
  - intros id' w' Hf E'. destruct (decide (id' = id)) as [->|]; [|by rewrite lookup_partial_alter_ne in E'].
    destruct (H4 id Hf) as [_ Hw]. by destruct (Hw _ E).
Qed.

Lemma tasks_return ws nid s id : tasks_ok ws nid s -> id ∈ finished s -> tasks_ok (delete id ws) nid s.
Proof.
  intros H Hf. pose proof H as [H1 H2 H3 H4]. apply (tasks_calls ws nid); [done|lia|..].
  - intros id' w' [_ E]%lookup_delete_Some. by eapply H1.
  - intros t Ht. apply lookup_delete_ne. intros ->. apply NoDup_app in H2 as (_ & H2 & _). by apply (H2 t.1), Hf; apply list_elem_of_fmap_2.
  - by intros id' w' _ [_ E]%lookup_delete_Some.
Qed.

Definition set_ready (r : list task) (s : sys) : sys :=
  mkSys (mgr s) (fl s) (started s) (manager.stopClosed s) (blocked s) r (finished s) (manager.flushed s) (applied s).

(** A call that got its answer enters the manager. *)
Lemma tasks_enter ws nid s id w :
  tasks_ok ws nid s -> ws !! id = Some w -> wphase w <> Applying ->
  tasks_ok (<[id := mkWrite (wbatch w) Applying]> ws) nid (set_ready ((id, Entries (wbatch w)) :: ready s) s).
Proof.
  intros H E Hp. pose proof (tasks_early ws nid s id w (Some (mkWrite (wbatch w) Applying)) H E Hp) as H'.
  change (partial_alter _ id ws) with (<[id := mkWrite (wbatch w) Applying]> ws) in H'.
  assert (id ∉ map fst (blocked s ++ ready s)) as Hni.
  { intros (t & -> & Ht)%list_elem_of_fmap. destruct (to_task _ _ _ H t Ht) as (w' & _ & E' & Hp' & _). congruence. }
  assert (id ∉ finished s) as Hnf.
  { intros Hf. destruct (to_fin _ _ _ H id Hf) as [_ Hw]. by destruct (Hw _ E). }
  destruct H' as [H1 H2 H3 H4]. split; [done| | |done].
  - cbn. rewrite map_app in H2, Hni |- *. cbn [map]. rewrite <- Permutation_middle. apply NoDup_cons. split; [|done].
    rewrite elem_of_app. intros [|]; auto.
  - intros t Ht. cbn in Ht. apply elem_of_app in Ht as [Ht|[->|Ht]%elem_of_cons]; [apply H3; set_solver| |apply H3; set_solver].
    exists (mkWrite (wbatch w) Applying), []. cbn. rewrite lookup_insert_eq. split_and!; try done. apply sublist_nil_l.
Qed.

Lemma tasks_after ws nid s t ready' m rest dn :
  tasks_ok ws nid s -> ready s = t :: ready' -> t.2 = dn ++ rest -> tasks_ok ws nid (after_task t m rest dn ready' s).
Proof.
  intros [H1 H2 H3 H4] Hr Ht. rewrite Hr in *. destruct (H3 t) as (w & d0 & E & Hp & He & Hs); [set_solver|].
  assert ((d0 ++ dn) `sublist_of` applied s ++ dn) as Hs' by (by apply sublist_app).
  assert (forall l, l `sublist_of` applied s -> l `sublist_of` applied s ++ dn) as Hmono.
  { intros l Hl. etrans; [exact Hl|]. apply sublist_inserts_r. done. }
  assert (map fst (blocked s ++ t :: ready') ++ finished s ≡ₚ t.1 :: map fst (blocked s ++ ready') ++ finished s) as Hperm.
  { rewrite !map_app. cbn [map]. by rewrite <- Permutation_middle. }
  rewrite Hperm in H2. apply NoDup_cons in H2 as [Hni H2].
  split; [done|..]; cbn [after_task blocked ready finished applied].
  - destruct rest as [|e rest].
    + rewrite (assoc_L (++)), (comm (++) _ [t.1]). cbn. by apply NoDup_cons.
    + rewrite <- (assoc_L (++)). cbn [app]. rewrite map_app. cbn [map fst]. rewrite <- (Permutation_middle (map fst (blocked s)) _ t.1).
      cbn [app]. apply NoDup_cons. rewrite <- map_app. done.
  - intros t' Hin. assert (t' ∈ blocked s ++ t :: ready' \/ (rest <> [] /\ t' = (t.1, rest))) as [Hin'|[Hr' ->]].
    { destruct rest; set_solver. }
    + destruct (H3 t' Hin') as (w' & d' & A1 & A2 & A3 & A4). exists w', d'. auto.
    + exists w, (d0 ++ dn). cbn. split_and!; try done. by rewrite He, Ht, (assoc_L (++)).
  - intros id Hin. assert (id ∈ finished s \/ (rest = [] /\ id = t.1)) as [Hin'|[-> ->]].
    { destruct rest; set_solver. }
    + destruct (H4 id Hin') as [A1 A2]. split; [done|]. intros w' E'. destruct (A2 w' E'). auto.
    + split; [by eapply H1|]. intros w' E'. rewrite E in E'. injection E' as <-. split; [done|]. by rewrite He, Ht, app_nil_r.
Qed.

Lemma tasks_same ws nid s s' :
  tasks_ok ws nid s -> blocked s' ++ ready s' ≡ₚ blocked s ++ ready s -> finished s' = finished s -> applied s' = applied s -> tasks_ok ws nid s'.
Proof.
  intros [H1 H2 H3 H4] Hp Hf Ha. split; rewrite ?Hf, ?Ha; try done; [by rewrite Hp|]. intros t Ht. apply H3. by rewrite <- Hp.
Qed.

(** A step of the manager that no new call makes. *)
Lemma tasks_step coin ws nid e s s' :
  tasks_ok ws nid s -> sys_inv s -> (match e with EWrite _ _ => false | _ => true end) = true -> manager.step coin e s = Ok s' ->
  tasks_ok ws nid s' /\ applied s `prefix_of` applied s'.
Proof.
  intros Ht Hs He E. destruct e; try done; cbn [manager.step] in E.
  - destruct (ready s) as [|t ready'] eqn:Er; [done|]. destruct (si_maps _ Hs) as (am & im & _ & Hm & _).
    destruct (run_task_spec coin t s ready' am im Hm) as (m' & rest & dn & E' & Hdn & _). rewrite E in E'. injection E' as ->.
    split; [by apply tasks_after|]. by exists dn.
  - destruct (started s); [done|]. injection E as <-; split; [by eapply tasks_same|done].
  - destruct (manager.stopClosed s); [done|]. injection E as <-; split; [by eapply tasks_same|done].
  - destruct (fl s); [|done..]. destruct (started s), (flushCh (mgr s)); try done. injection E as <-; split; [by eapply tasks_same|done].
  - destruct (fl s); [|done..]. destruct (started s), (manager.stopClosed s); try done. injection E as <-; split; [by eapply tasks_same|done].
  - destruct (fl s); try done. injection E as <-. split; [|done]. eapply tasks_same; [done|cbn|done|done]. apply Permutation_app_comm.
  - destruct (fl s); try done. injection E as <-; split; [by eapply tasks_same|done].
Qed.

(** ** The committer of the manager *)

Definition logged (gc : group_commit.GroupCommitter) (b : Batch) : Prop :=
  exists data, Encode b = Ok data /\ committed (group_commit.calls gc) data.

(** The first of [n] committers, with the operations [es] on it; [lk]: [db.mu] is held by
    one goroutine; [rot]: [rotateWAL] has stopped it. *)
Record head_ok (n : nat) (ws : gmap nat write_call) (nid : nat) (lk rot : Prop) (app : list BatchEntry)
    (res : list (nat * result)) (gc : group_commit.GroupCommitter) (es : list group_commit.event) : Prop := {
  hd_inv : gc_inv es gc;
  hd_nodup : NoDup (map fst (sent es));
  hd_ids : forall r, r ∈ sent es -> (r.1 < nid)%nat /\ forall w, ws !! r.1 = Some w -> wphase w <> Begun /\ Encode (wbatch w) = Ok r.2;
  hd_wait : forall r, r ∈ group_commit.batch gc ++ group_commit.pending gc -> exists w, ws !! r.1 = Some w /\ wphase w = Sent;
  hd_stop : group_commit.stopClosed gc = true -> group_commit.phase_of gc = group_commit.Stopped \/ (ws = ∅ /\ lk /\ n = 1%nat);
  hd_dead : group_commit.stopClosed gc = true -> forall id w, ws !! id = Some w ->
    wphase w <> Applying /\ forall x, x ∈ group_commit.replies gc -> x.1.1 <> id;
  hd_rot : rot \/ (1 < n)%nat -> group_commit.stopClosed gc = true;
  hd_apply : forall id w, ws !! id = Some w -> wphase w = Applying -> logged gc (wbatch w);
  hd_res : forall id b, (id, RWrite b (Ok tt)) ∈ res -> logged gc b /\ Entries b `sublist_of` app;
}.

Lemma replied_sent es gc x : gc_inv es gc -> x ∈ group_commit.replies gc -> x.1 ∈ sent es.
Proof. intros H Hx. rewrite <- (inv_fifo _ _ H). apply elem_of_app. left. by apply list_elem_of_fmap_2. Qed.

(** The parts that only grow. *)
Lemma head_grow n ws nid lk rot app res gc es (lk' rot' : Prop) app' res' :
  head_ok n ws nid lk rot app res gc es -> (lk -> lk') -> (rot' -> rot) -> app `sublist_of` app' ->
  (forall id b, (id, RWrite b (Ok tt)) ∈ res' -> (id, RWrite b (Ok tt)) ∈ res \/ logged gc b /\ Entries b `sublist_of` app') ->
  head_ok n ws nid lk' rot' app' res' gc es.
Proof.
  intros [H1 H2 H3 H4 H5 H6 H7 H8 H9] Hl Hr Ha Hres. split; try done.
  - intros Hs. destruct (H5 Hs) as [|(A & B & C)]; auto.
  - intros [|]; apply H7; auto.
  - intros id b [Hin|]%Hres; [|done]. destruct (H9 id b Hin). split; [done|]. by etrans.
Qed.

Lemma head_begin n ws nid (lk rot : Prop) app res gc es b :
  head_ok n ws nid lk rot app res gc es -> ~ lk -> (forall id w, ws !! id = Some w -> (id < nid)%nat) ->
  head_ok n (<[nid := mkWrite b Begun]> ws) (S nid) lk rot app res gc es.
Proof.
  intros [H1 H2 H3 H4 H5 H6 H7 H8 H9] Hl Hid. split; try done.
  - intros r Hr. destruct (H3 r Hr) as [A B]. split; [lia|]. rewrite lookup_insert_ne by lia. done.
  - intros r Hr. destruct (H4 r Hr) as (w & E & Hw). exists w. specialize (Hid _ _ E). by rewrite lookup_insert_ne by lia.
  - intros Hs. destruct (H5 Hs) as [|(_ & ? & _)]; [by left|done].
  - intros Hs id w [[<- <-]|[_ E]]%lookup_insert_Some; [|by eapply H6]. split; [done|]. intros x Hx.
    destruct (H3 x.1); [by eapply replied_sent|lia].
  - intros id w [[<- <-]|[_ E]]%lookup_insert_Some; [done|]. by eapply H8.
Qed.

Lemma head_next n ws nid (lk rot : Prop) app res gc es : head_ok n ws nid lk rot app res gc es -> head_ok n ws (S nid) lk rot app res gc es.
Proof. intros [H1 H2 H3 H4 H5 H6 H7 H8 H9]. split; try done. intros r Hr. destruct (H3 r Hr). split; [lia|done]. Qed.

(** A call that waits for no answer returns. *)
Lemma head_delete n ws nid (lk rot : Prop) app res gc es id :
  head_ok n ws nid lk rot app res gc es -> (forall r, r ∈ group_commit.batch gc ++ group_commit.pending gc -> r.1 <> id) ->
  head_ok n (delete id ws) nid lk rot app res gc es.
Proof.
  intros [H1 H2 H3 H4 H5 H6 H7 H8 H9] Hw. split; try done.
  - intros r Hr. destruct (H3 r Hr) as [A B]. split; [done|]. intros w [_ E]%lookup_delete_Some. auto.
  - intros r Hr. destruct (H4 r Hr) as (w & E & Hp). exists w. by rewrite lookup_delete_ne by (intros ->; by apply (Hw r)).
  - intros Hs. destruct (H5 Hs) as [|(-> & A & B)]; [by left|right]. by rewrite delete_empty.
  - intros Hs id' w [_ E]%lookup_delete_Some. by eapply H6.
  - intros id' w [_ E]%lookup_delete_Some. by eapply H8.
Qed.

Lemma head_unsent n ws nid lk rot app res gc es id w :
  head_ok n ws nid lk rot app res gc es -> ws !! id = Some w -> wphase w = Begun -> id ∉ map fst (sent es).
Proof. intros H E Hp (r & -> & Hr)%list_elem_of_fmap. destruct (hd_ids _ _ _ _ _ _ _ _ _ H r Hr) as [_ Hw]. by destruct (Hw _ E). Qed.

Lemma head_send n ws nid lk rot app res gc es id w data gc' :
  head_ok n ws nid lk rot app res gc es -> ws !! id = Some w -> wphase w = Begun -> (id < nid)%nat -> Encode (wbatch w) = Ok data ->
  group_commit.step (group_commit.ESend (id, data)) gc = Some gc' ->
  head_ok n (<[id := mkWrite (wbatch w) Sent]> ws) nid lk rot app res gc' (es ++ [group_commit.ESend (id, data)]).
Proof.
  intros H Ew Hp Hid Hd E. pose proof (head_unsent _ _ _ _ _ _ _ _ _ _ _ H Ew Hp) as Hns.
  destruct H as [H1 H2 H3 H4 H5 H6 H7 H8 H9]. pose proof (gc_step_inv _ _ _ _ H1 E) as H1'.
  assert (sent (es ++ [group_commit.ESend (id, data)]) = sent es ++ [(id, data)]) as Hsent by (unfold sent; by rewrite omap_app).
  assert (gc' = group_commit.set_queues (group_commit.pending gc ++ [(id, data)]) (group_commit.batch gc) (group_commit.timerActive gc) gc) as ->.
  { cbn in E. case_bool_decide; [|done]. by injection E as <-. }
  assert (forall r, r ∈ sent es -> r.1 <> id) as Hne by (intros r Hr Heq; apply Hns; rewrite <- Heq; by apply list_elem_of_fmap_2).
  split; try done.
  - rewrite Hsent, map_app. apply NoDup_app. split_and!; [done| |apply NoDup_singleton]. intros i Hi ->%list_elem_of_singleton. done.
  - rewrite Hsent. intros r [Hr| ->%list_elem_of_singleton]%elem_of_app.
    + destruct (H3 r Hr) as [A B]. split; [done|]. specialize (Hne r Hr). by rewrite lookup_insert_ne.
    + split; [done|]. cbn. rewrite lookup_insert_eq. by intros ? [= <-].
  - cbn. intros r Hr. rewrite (assoc_L (++)) in Hr. apply elem_of_app in Hr as [Hr| ->%list_elem_of_singleton].
    + destruct (H4 r Hr) as (w' & E' & Hw'). exists w'. rewrite lookup_insert_ne; [done|]. intros ->. congruence.
    + cbn. rewrite lookup_insert_eq. by eexists.
  - intros Hs. destruct (H5 Hs) as [|(-> & _)]; [by left|]. by rewrite lookup_empty in Ew.
  - intros Hs id' w' [[<- <-]|[_ E']]%lookup_insert_Some; [|by eapply H6]. split; [done|]. intros x Hx. apply Hne. by eapply replied_sent.
  - intros id' w' [[<- <-]|[_ E']]%lookup_insert_Some; [done|]. by eapply H8.
Qed.

(** An answer to a call in progress. *)
Lemma head_reply n ws nid lk rot app res gc es x :
  head_ok n ws nid lk rot app res gc es -> x ∈ group_commit.replies gc ->
  forall r, r ∈ group_commit.batch gc ++ group_commit.pending gc -> r.1 <> x.1.1.
Proof.
  intros [H1 H2 _ _ _ _ _ _ _] Hx r Hr Heq. rewrite <- (inv_fifo _ _ H1), map_app in H2. apply NoDup_app in H2 as (_ & H2 & _).
  apply (H2 x.1.1); [by apply list_elem_of_fmap_2, list_elem_of_fmap_2|]. rewrite <- Heq. by apply list_elem_of_fmap_2.
Qed.

Lemma head_apply n ws nid lk rot app res gc es id w data :
  head_ok n ws nid lk rot app res gc es -> ws !! id = Some w -> ((id, data), Ok tt) ∈ group_commit.replies gc ->
  head_ok n (<[id := mkWrite (wbatch w) Applying]> ws) nid lk rot app res gc es /\ group_commit.stopClosed gc = false.
Proof.
  intros H Ew Hx. pose proof (head_reply _ _ _ _ _ _ _ _ _ _ H Hx) as Hne. cbn in Hne. destruct H as [H1 H2 H3 H4 H5 H6 H7 H8 H9].
  assert (group_commit.stopClosed gc = false) as Hs.
  { apply not_true_is_false. intros Hs. destruct (H6 Hs id w Ew) as [_ Hd]. by apply (Hd _ Hx). }
  destruct (H3 (id, data)) as [Hid Hw]; [by apply (replied_sent _ _ _ H1 Hx)|]. destruct (Hw w Ew) as [Hp Hd]. cbn in Hid, Hd.
  split; [|done]. split; try done; try (by rewrite Hs).
  - intros r Hr. destruct (H3 r Hr) as [A B]. split; [done|]. intros w' [[Heq <-]|[_ E]]%lookup_insert_Some; [|auto]. split; [done|].
    rewrite <- Heq in B. by destruct (B w Ew).
  - intros r Hr. destruct (H4 r Hr) as (w' & E' & Hw'). exists w'. rewrite lookup_insert_ne; [done|]. intros ->. by apply (Hne r).
  - intros id' w' [[<- <-]|[_ E]]%lookup_insert_Some; [|by eapply H8]. intros _. exists data. split; [done|]. by apply (inv_acked _ _ H1 (id, data)).
Qed.

Lemma logged_grow gc gc' b : (exists cs, group_commit.calls gc' = group_commit.calls gc ++ cs) -> logged gc b -> logged gc' b.
Proof. intros [cs E] (data & H1 & H2). exists data. split; [done|]. rewrite E. by apply committed_app. Qed.

(** A step of the goroutine. *)
Lemma head_moved n ws nid lk rot app res gc es e gc' :
  head_ok n ws nid lk rot app res gc es -> of_run e = true -> group_commit.step e gc = Some gc' ->
  head_ok n ws nid lk rot app res gc' (es ++ [e]).
Proof.
  intros [H1 H2 H3 H4 H5 H6 H7 H8 H9] He E. destruct (goroutine_moves e gc gc' He E) as [[Mc Ms Mw Mp] Hse].
  assert (sent (es ++ [e]) = sent es) as Hsent by (unfold sent in *; by rewrite omap_app, Hse, app_nil_r).
  assert (group_commit.stopClosed gc = true -> ws = ∅ /\ lk /\ n = 1%nat) as Hst by (intros Hs; by destruct (H5 Hs)).
  split; rewrite ?Hsent, ?Ms; try done.
  - by eapply gc_step_inv.
  - intros r Hr. by apply H4, Mw.
  - intros Hs. right. auto.
  - intros Hs id w Ew. destruct (Hst Hs) as [-> _]. by rewrite lookup_empty in Ew.
  - intros id w Ew Hp. eapply logged_grow; [done|]. by eapply H8.
  - intros id b Hin. destruct (H9 id b Hin). split; [|done]. by eapply logged_grow.
Qed.

(** [Stop] closes the channel when no call is inside. *)
Lemma head_stop nid (lk rot : Prop) app res gc es gc' n ws :
  head_ok n ws nid lk rot app res gc es -> ws = ∅ -> n = 1%nat -> group_commit.step group_commit.EClose gc = Some gc' ->
  head_ok n ws nid True True app res gc' (es ++ [group_commit.EClose]).
Proof.
  intros [H1 H2 H3 H4 H5 H6 H7 H8 H9] -> -> E. pose proof (gc_step_inv _ _ _ _ H1 E) as H1'.
  assert (sent (es ++ [group_commit.EClose]) = sent es) as Hsent by (unfold sent; by rewrite omap_app, app_nil_r).
  cbn in E. destruct (group_commit.stopClosed gc); [done|]. injection E as <-.
  split; rewrite ?Hsent; try done; cbn.
  - by right.
Qed.

(** [Close] of the writer. *)
Lemma head_close n ws nid lk rot app res gc es :
  head_ok n ws nid lk rot app res gc es -> head_ok n ws nid lk rot app res (close_writer gc).1 es.
Proof.
  unfold close_writer. destruct (wal_log.Close (group_commit.writer gc)) as [w r]. cbn [fst].
  intros [[F1 F2 F3 F4 F5 F6] H2 H3 H4 H5 H6 H7 H8 H9]. by split; [split|..].
Qed.

(** The lock is released and there may be more committers. *)
Lemma head_release n n' ws nid (lk lk' rot : Prop) app res gc es :
  head_ok n ws nid lk rot app res gc es -> rot \/ n' = n -> (n <= n')%nat ->
  (n = 1%nat -> group_commit.phase_of gc = group_commit.Stopped) -> head_ok n' ws nid lk' rot app res gc es.
Proof.
  intros [H1 H2 H3 H4 H5 H6 H7 H8 H9] Hr Hn Hst. split; try done.
  - intros Hs. destruct (H5 Hs) as [|(_ & _ & ->)]; left; auto.
  - intros [|]; apply H7; [by left|]. destruct Hr as [|Hr]; [by left|right; lia].
Qed.

Lemma head_many n ws nid lk (rot rot' : Prop) app res gc es :
  head_ok n ws nid lk rot app res gc es -> (1 < n)%nat -> head_ok n ws nid lk rot' app res gc es.
Proof. intros [H1 H2 H3 H4 H5 H6 H7 H8 H9] Hn. split; try done. intros _. apply H7. by right. Qed.

(** ** The invariant *)

Definition rotated (d : DB) : Prop := stage d = WaitStop \/ stage d = Returned \/ manager.flushed (mem d) <> [].

Record db_inv (d : DB) : Prop := {
  di_sys : sys_inv (mem d);
  di_tasks : tasks_ok (writes d) (next_id d) (mem d);
  di_lock : locked d = true -> writes d = ∅;
  di_busy : stage d <> FlushTree -> exists imm last, fl (mem d) = Busy imm last;
  di_head : exists gc es, committers d !! 0%nat = Some gc /\
    head_ok (length (committers d)) (writes d) (next_id d) (locked d = true) (rotated d) (applied (mem d)) (results d) gc es;
}.

Lemma when_ok b r d : when b r = Ok d -> b = true /\ r = Ok d.
Proof. by destruct b. Qed.

Lemma on_ok {A} (x : option A) f d : on x f = Ok d -> exists a, x = Some a /\ f a = Ok d.
Proof. destruct x as [a|]; [|done]. by exists a. Qed.

Lemma bind_ok {E A B} (x : outcome E A) (f : A -> outcome E B) b : (a ← x; f a) = Ok b -> exists a, x = Ok a /\ f a = Ok b.
Proof. destruct x as [a| | |]; [|done..]. by exists a. Qed.

Lemma call_in_ok p id d w : call_in p id d = Some w -> writes d !! id = Some w /\ wphase w = p.
Proof.
  unfold call_in. destruct (writes d !! id) as [w'|]; [|done]. cbn. case_bool_decide; [|done]. by intros [= <-].
Qed.

Lemma commit_step_ok i e d d' : commit_step i e d = Ok d' ->
  exists gc gc', committers d !! i = Some gc /\ group_commit.step e gc = Some gc' /\ d' = set_committers (<[i := gc']> (committers d)) d.
Proof.
  unfold commit_step. destruct (committers d !! i) as [gc|]; [|done]. cbn. destruct (group_commit.step e gc) as [gc'|] eqn:E; [|done].
  intros [= <-]. by exists gc, gc'.
Qed.

Lemma mem_step_ok coin e d d' : mem_step coin e d = Ok d' -> exists m, manager.step coin e (mem d) = Ok m /\ d' = set_mem m d.
Proof. intros (m & E & [= <-])%bind_ok. by exists m. Qed.

(** The cases of a step that is enabled. *)
Ltac inv_db_step :=
  repeat match goal with
  | H : Ok _ = Ok _ |- _ => injection H as <-
  | H : Err _ = Ok _ |- _ => discriminate H
  | H : Panic = Ok _ |- _ => discriminate H
  | H : Fuel = Ok _ |- _ => discriminate H
  | H : when _ _ = Ok _ |- _ => apply when_ok in H as [? H]
  | H : on _ _ = Ok _ |- _ => apply on_ok in H as (? & ? & H)
  | H : commit_step _ _ _ = Ok _ |- _ => apply commit_step_ok in H as (? & ? & ? & ? & ->)
  | H : mem_step _ _ _ = Ok _ |- _ => apply mem_step_ok in H as (? & ? & ->)
  | H : mbind _ _ = Ok _ |- _ => apply bind_ok in H as (? & ? & H)
  | H : (match ?x with _ => _ end) = Ok _ |- _ => destruct x eqn:?
  end.

Lemma not_locked d : can_rlock d = true -> locked d <> true.
Proof. unfold can_rlock. by destruct (locked d). Qed.

Lemma can_lock_ok d : can_lock d = true -> locked d = false /\ writes d = ∅.
Proof. unfold can_lock. destruct (locked d); [done|]. intros H%andb_prop. by destruct H as [_ H%bool_decide_eq_true]. Qed.

Lemma prefix_sub {A} (l k : list A) : l `prefix_of` k -> l `sublist_of` k.
Proof. intros [x ->]. by apply sublist_inserts_r. Qed.

(** What a step that touches neither the committers nor the write calls keeps. *)
Lemma inv_frame d d' :
  db_inv d -> sys_inv (mem d') -> tasks_ok (writes d) (next_id d) (mem d') -> applied (mem d) `prefix_of` applied (mem d') ->
  committers d' = committers d -> writes d' = writes d -> (next_id d <= next_id d')%nat ->
  (locked d = true <-> locked d' = true) -> (rotated d' -> rotated d) ->
  (stage d' <> FlushTree -> exists imm last, fl (mem d') = Busy imm last) ->
  (forall id b, (id, RWrite b (Ok tt)) ∈ results d' -> (id, RWrite b (Ok tt)) ∈ results d) -> db_inv d'.
Proof.
  intros [H1 H2 H3 H4 (gc & es & H5 & H6)] Hs Ht Ha Hc Hw Hn Hl Hr Hb Hres.
  split; try done.
  - rewrite Hw. apply (tasks_calls (writes d) (next_id d)); try done. intros id w E. pose proof (to_ids _ _ _ Ht id w E). lia.
  - rewrite Hw. intros E. by apply H3, Hl.
  - exists gc, es. rewrite Hc, Hw. split; [done|]. assert (forall n, head_ok (length (committers d)) (writes d) (n + next_id d) (locked d' = true) (rotated d')
      (applied (mem d')) (results d') gc es) as H.
    { intros n. induction n as [|n IH]; [|by apply head_next]. eapply head_grow; [exact H6|tauto|done|by apply prefix_sub|]. intros id b ?. left. auto. }
    replace (next_id d') with (next_id d' - next_id d + next_id d)%nat by lia. apply H.
Qed.

Lemma mem_flusher coin e s s' :
  sys_inv s -> (match e with EFlushOk => false | _ => true end) = true -> manager.step coin e s = Ok s' ->
  manager.flushed s' = manager.flushed s /\ forall imm last, fl s = Busy imm last -> fl s' = Busy imm last.
Proof.
  intros Hs He E. destruct (si_maps _ Hs) as (am & im & _ & Hm & _). destruct e; try done; cbn [manager.step] in E.
  - destruct (run_task_spec coin (id, es) s (ready s) am im Hm) as (m' & rest & dn & E' & _). rewrite E in E'. by injection E' as ->.
  - destruct (ready s) as [|t ready']; [done|]. destruct (run_task_spec coin t s ready' am im Hm) as (m' & rest & dn & E' & _).
    rewrite E in E'. by injection E' as ->.
  - destruct (started s); [done|]. by injection E as <-.
  - destruct (manager.stopClosed s); [done|]. by injection E as <-.
  - destruct (fl s); [|done..]. destruct (started s), (flushCh (mgr s)); try done. by injection E as <-.
  - destruct (fl s); [|done..]. destruct (started s), (manager.stopClosed s); try done. by injection E as <-.
  - destruct (fl s) eqn:Ef; try done. injection E as <-. by rewrite Ef.
Qed.

(** A step of the manager that is not a new write, nor the end of a flush. *)
Lemma inv_mem_step coin e d d' :
  db_inv d -> (match e with EWrite _ _ | EFlushOk => false | _ => true end) = true -> mem_step coin e d = Ok d' -> db_inv d'.
Proof.
  intros H He (m & E & ->)%mem_step_ok. pose proof H as [H1 H2 H3 H4 _].
  destruct (tasks_step coin _ _ e _ _ H2 H1 ltac:(by destruct e) E) as [Ht Ha].
  destruct (mem_flusher coin e _ _ H1 ltac:(by destruct e) E) as [Hf Hb].
  apply (inv_frame d); try done; cbn.
  - by eapply mgr_step_inv.
  - unfold rotated. cbn. by rewrite Hf.
  - intros Hst. destruct (H4 Hst) as (imm & last & Hfl). eauto.
Qed.

Lemma inv_write b d : db_inv d -> can_rlock d = true -> db_inv (WriteBatch b d).
Proof.
  intros H Hl%not_locked. pose proof H as [H1 H2 H3 H4 (gc & es & H5 & H6)]. unfold WriteBatch. cbn [closed set_next].
  destruct (closed d) eqn:Ec.
  - apply (inv_frame d); try done; cbn; [lia|]. intros id b' [?|[= _ _ ?]%list_elem_of_singleton]%elem_of_app; done.
  - split; cbn; try done; [by apply tasks_begin|]. exists gc, es. split; [done|]. apply head_begin; [done|done|]. apply H2.
Qed.

Lemma inv_send id w d d' : db_inv d -> call_in Begun id d = Some w -> send id w d = Ok d' -> db_inv d'.
Proof.
  intros [H1 H2 H3 H4 (gc & es & H5 & H6)] [Ew Hp]%call_in_ok E. unfold send in E.
  apply bind_ok in E as (data & Ed & E). apply bind_ok in E as (d1 & E1 & [= <-]).
  apply commit_step_ok in E1 as (gc1 & gc' & Eg & Es & ->). rewrite H5 in Eg. injection Eg as <-.
  assert (Encode (wbatch w) = Ok data) as Hd by (destruct (Encode (wbatch w)) as [? | [] | |]; try done; by injection Ed as ->).
  split; cbn; try done.
  - apply (tasks_early _ _ _ id w (Some (mkWrite (wbatch w) Sent))); [done..|]. by rewrite Hp.
  - intros Hl. rewrite (H3 Hl), lookup_empty in Ew. done.
  - exists gc', (es ++ [group_commit.ESend (id, data)]). rewrite length_insert. split; [by apply list_lookup_insert_eq, (lookup_lt_Some _ _ _ H5)|].
    eapply head_send; [done..| |done|done]. by eapply to_ids.
Qed.

Lemma inv_reject id w d d' : db_inv d -> call_in Begun id d = Some w -> reject id w d = Ok d' -> db_inv d'.
Proof.
  intros [H1 H2 H3 H4 (gc & es & H5 & H6)] [Ew Hp]%call_in_ok E. unfold reject in E.
  apply bind_ok in E as (d1 & E1 & [= <-]). apply commit_step_ok in E1 as (gc1 & gc' & Eg & Es & ->). rewrite H5 in Eg. injection Eg as <-.
  pose proof (head_unsent _ _ _ _ _ _ _ _ _ _ _ H6 Ew Hp) as Hns.
  assert (head_ok (length (committers d)) (delete id (writes d)) (next_id d) (locked d = true) (rotated d) (applied (mem d))
    (results d ++ [(id, RWrite (wbatch w) (Err (ErrWAL WalBatch.ErrClosed)))]) gc es) as H6'.
  { apply head_delete. 2:{ intros r Hr Heq. apply Hns. rewrite <- Heq. apply list_elem_of_fmap_2.
      rewrite <- (inv_fifo _ _ (hd_inv _ _ _ _ _ _ _ _ _ H6)). apply elem_of_app. by right. }
    eapply head_grow; [done..|]. intros id' b [?|[=]%list_elem_of_singleton]%elem_of_app. by left. }
  split; cbn; try done.
  - apply (tasks_early _ _ _ id w None); [done..|]. by rewrite Hp.
  - intros Hl. by rewrite (H3 Hl), delete_empty.
  - exists gc', es. rewrite length_insert. split; [by apply list_lookup_insert_eq, (lookup_lt_Some _ _ _ H5)|].
    cbn in Es. destruct (group_commit.stopClosed gc) eqn:Est; [|done]. injection Es as <-.
    destruct H6' as [[F1 F2 F3 F4 F5 F6] G2 G3 G4 G5 G6 G7 G8 G9]. specialize (G5 Est). specialize (G6 Est).
    by split; [split|..].
Qed.

Lemma reply_to_ok id d r : reply_to id d = Some r ->
  exists gc data, committers d !! 0%nat = Some gc /\ ((id, data), r) ∈ group_commit.replies gc.
Proof.
  unfold reply_to. destruct (committers d !! 0%nat) as [gc|]; [|done]. cbn.
  destruct (list_find _ _) as [[i x]|] eqn:E; [|done]. cbn. intros [= <-].
  apply list_find_Some in E as (Hl & Hid & _). exists gc, x.1.2. split; [done|]. apply list_elem_of_lookup. exists i. rewrite Hl. f_equal.
  destruct x as [[i' data'] r']. cbn in *. by rewrite Hid.
Qed.

(** A call of the database returns: it waits for no answer any more. *)
Lemma inv_return id w r d :
  db_inv d -> writes d !! id = Some w -> tasks_ok (delete id (writes d)) (next_id d) (mem d) ->
  (forall gc es, committers d !! 0%nat = Some gc ->
     head_ok (length (committers d)) (writes d) (next_id d) (locked d = true) (rotated d) (applied (mem d)) (results d) gc es ->
     (forall x, x ∈ group_commit.batch gc ++ group_commit.pending gc -> x.1 <> id) /\
     (r = Ok tt -> logged gc (wbatch w) /\ Entries (wbatch w) `sublist_of` applied (mem d))) ->
  db_inv (return_write id w r d).
Proof.
  intros [H1 H2 H3 H4 (gc & es & H5 & H6)] Ew Ht Hgc. destruct (Hgc gc es H5 H6) as [Hne Hr]. split; cbn; try done.
  - intros Hl. by rewrite (H3 Hl), delete_empty.
  - exists gc, es. split; [done|]. apply head_delete; [|done]. eapply head_grow; [done..|].
    intros id' b [?|[= _ -> <-]%list_elem_of_singleton]%elem_of_app; [by left|right]. by apply Hr.
Qed.

Lemma inv_answer coin id w d d' : db_inv d -> call_in Sent id d = Some w -> answered coin id w d = Ok d' -> db_inv d'.
Proof.
  intros H [Ew Hp]%call_in_ok E. unfold answered in E. destruct (reply_to id d) as [r|] eqn:Er; [|done].
  apply reply_to_ok in Er as (gc & data & Hgc & Hx). destruct r as [[]|e| |]; [|injection E as <-|done..].
  - apply bind_ok in E as (d1 & E & [= <-]). apply mem_step_ok in E as (m & E & ->).
    destruct H as [H1 H2 H3 H4 (gc' & es & H5 & H6)]. rewrite Hgc in H5. injection H5 as <-.
    destruct (head_apply _ _ _ _ _ _ _ _ _ _ _ _ H6 Ew Hx) as [H6' Hs].
    pose proof (tasks_enter _ _ _ _ _ H2 Ew ltac:(by rewrite Hp)) as Ht. pose proof E as E0. cbn [manager.step] in E.
    destruct (si_maps _ H1) as (am & im & _ & Hm & _).
    destruct (run_task_spec coin (id, Entries (wbatch w)) (mem d) (ready (mem d)) am im Hm) as (m' & rest & dn & E' & Hdn & _).
    rewrite E in E'. injection E' as ->. split; cbn.
    + by eapply mgr_step_inv.
    + eapply (tasks_after _ _ _ (id, Entries (wbatch w)) (ready (mem d))) in Ht; [exact Ht|done|done].
    + intros Hl. rewrite (H3 Hl), lookup_empty in Ew. done.
    + done.
    + exists gc, es. split; [done|]. eapply head_grow; [exact H6'|done|done|by apply sublist_inserts_r|]. by left.
  - apply inv_return; [done|done| |].
    + apply (tasks_early _ _ _ id w None); [apply H|done|by rewrite Hp].
    + intros gc' es Hgc' Hh. rewrite Hgc in Hgc'. injection Hgc' as <-. split; [|done]. exact (head_reply _ _ _ _ _ _ _ _ _ _ Hh Hx).
Qed.

Lemma inv_finished id w d :
  db_inv d -> call_in Applying id d = Some w -> id ∈ finished (mem d) -> db_inv (return_write id w (Ok tt) d).
Proof.
  intros H [Ew Hp]%call_in_ok Hf. pose proof H as [_ H2 _ _ _]. apply inv_return; [done|done|by apply tasks_return|].
  intros gc es Hgc Hh. split.
  - intros x Hx Heq. destruct (hd_wait _ _ _ _ _ _ _ _ _ Hh x Hx) as (w' & Ew' & Hp'). rewrite Heq in Ew'. congruence.
  - intros _. split; [by eapply hd_apply|]. destruct (to_fin _ _ _ H2 id Hf) as [_ Hw]. by destruct (Hw w Ew).
Qed.

Lemma inv_committer i e d d' : db_inv d -> of_run e = true -> commit_step i e d = Ok d' -> db_inv d'.
Proof.
  intros [H1 H2 H3 H4 (gc & es & H5 & H6)] He (gc1 & gc' & Eg & Es & ->)%commit_step_ok. split; cbn; try done.
  rewrite length_insert. destruct i as [|i].
  - rewrite H5 in Eg. injection Eg as <-. exists gc', (es ++ [e]). split; [|by eapply head_moved].
    by apply list_lookup_insert_eq, (lookup_lt_Some _ _ _ H5).
  - exists gc, es. split; [|done]. by rewrite list_lookup_insert_ne.
Qed.

(** The head after [Stop] was called on the last committer. *)
Lemma inv_stop d d1 :
  db_inv d -> writes d = ∅ -> stop_committer d = Ok d1 ->
  exists cs gc es, d1 = set_committers cs d /\ length cs = length (committers d) /\ cs !! 0%nat = Some gc /\
    head_ok (length cs) (writes d) (next_id d) True True (applied (mem d)) (results d) gc es.
Proof.
  intros [_ _ _ _ (gc & es & H5 & H6)] Hw E. unfold stop_committer in E. destruct (last (committers d)) as [gl|] eqn:El; [|done].
  destruct (group_commit.stopClosed gl) eqn:Es; [done|]. apply commit_step_ok in E as (gc1 & gc' & Eg & Est & ->).
  pose proof (lookup_lt_Some _ _ _ H5) as Hlen.
  destruct (decide (length (committers d) = 1%nat)) as [Hn|Hn]; eexists _, _, _; rewrite length_insert; (split; [reflexivity|]); (split; [done|]).
  - rewrite Hn in *. change (1 - 1)%nat with 0%nat in *. rewrite H5 in Eg. injection Eg as <-. split; [by apply list_lookup_insert_eq; lia|].
    by eapply head_stop.
  - rewrite list_lookup_insert_ne by lia. split; [exact H5|]. eapply head_many; [|lia]. eapply head_grow; [done..|]. by left.
Qed.

Lemma inv_lock d d' :
  db_inv d -> stage d = WaitLock -> can_lock d = true -> (d1 ← stop_committer d; Ok (set_stage WaitStop d1)) = Ok d' -> db_inv d'.
Proof.
  intros H Hst [_ Hw]%can_lock_ok (d1 & E & [= <-])%bind_ok. destruct (inv_stop d d1 H Hw E) as (cs & gc & es & -> & Hn & Hgc & Hh).
  destruct H as [H1 H2 H3 H4 _]. split; cbn; try done.
  - intros _. apply H4. by rewrite Hst.
  - exists gc, es. split; [done|]. eapply head_grow; [done..|]. by left.
Qed.

(** [Close] of the log: the committers keep what they are. *)
Lemma inv_close_wal d :
  db_inv d -> exists cs gc es, (close_wal d).1 = set_committers cs d /\ length cs = length (committers d) /\ cs !! 0%nat = Some gc /\
    head_ok (length cs) (writes d) (next_id d) (locked d = true) (rotated d) (applied (mem d)) (results d) gc es /\
    (length cs = 1%nat -> committer_stopped d = true -> group_commit.phase_of gc = group_commit.Stopped).
Proof.
  intros [_ _ _ _ (gc & es & H5 & H6)]. unfold close_wal, committer_stopped. pose proof (lookup_lt_Some _ _ _ H5) as Hlen.
  destruct (last (committers d)) as [gl|] eqn:El.
  2:{ apply last_None in El. rewrite El in Hlen. cbn in Hlen. lia. }
  rewrite last_lookup in El. destruct (close_writer gl) as [g r] eqn:Ec. cbn [fst]. eexists. 
  destruct (decide (length (committers d) = 1%nat)) as [Hn|Hn].
  - rewrite Hn in El. cbn [Nat.pred] in El. rewrite H5 in El. injection El as ->. exists g, es. rewrite length_insert.
    split; [reflexivity|]. rewrite Hn. split; [done|]. split; [apply list_lookup_insert_eq; lia|]. rewrite Hn in H6.
    replace g with (close_writer gl).1 by (by rewrite Ec). split; [by apply head_close|].
    intros _ Hs. unfold close_writer. destruct (wal_log.Close _). cbn. by destruct (group_commit.phase_of gl).
  - exists gc, es. rewrite length_insert. split; [reflexivity|]. split; [done|]. split; [|by split].
    by rewrite list_lookup_insert_ne by lia.
Qed.

Lemma inv_rotate rf cf d :
  db_inv d -> stage d = WaitStop -> committer_stopped d = true -> db_inv (set_stage Returned (rotateWAL rf cf d)).
Proof.
  intros H Hst Hcs. destruct (inv_close_wal d H) as (cs & gc & es & E & Hn & Hgc & Hh & Hph).
  assert (writes d = ∅) as Hw by (apply (di_lock _ H); unfold locked; by rewrite Hst).
  assert (forall cs' l, cs `prefix_of` cs' -> db_inv (set_stage Returned (set_linked l (set_committers cs' d)))) as Hall.
  { intros cs' l [k ->]. destruct H as [H1 H2 H3 H4 _]. split; cbn; try done.
    - intros _. apply H4. by rewrite Hst.
    - exists gc, es. split; [by apply lookup_app_l_Some|].
      eapply head_release in Hh; [|left; by left|exact (Nat.le_add_r _ (length k))|auto]. rewrite length_app.
      eapply head_grow; [exact Hh|intros HF; exact HF| |done|by left]. intros _. by left. }
  unfold rotateWAL. destruct (close_wal d) as [d1 r]. cbn [fst] in E. rewrite E. destruct rf; [|destruct cf]; cbn [committers set_committers].
  - by apply (Hall cs (linked d)).
  - by apply Hall.
  - apply (Hall _ true). by exists [new_committer (options d) [] []].
Qed.

Lemma inv_flushed coin d d' :
  db_inv d -> stage d = Returned -> (d1 ← mem_step coin EFlushOk d; Ok (set_stage FlushTree d1)) = Ok d' -> db_inv d'.
Proof.
  intros H Hst (d1 & E & [= <-])%bind_ok. apply mem_step_ok in E as (m & E & ->). pose proof H as [H1 H2 H3 H4 _].
  destruct (tasks_step coin _ _ EFlushOk _ _ H2 H1 eq_refl E) as [Ht Ha]. apply (inv_frame d); try done; cbn.
  - by eapply mgr_step_inv.
  - unfold locked. cbn. by rewrite Hst.
  - intros _. right. by left.
Qed.

Lemma inv_close_flusher d d' :
  db_inv d -> closing d = CloseWaitFlusher -> (d1 ← stop_committer d; Ok (set_closing CloseWaitStop true d1)) = Ok d' -> db_inv d'.
Proof.
  intros H Hc (d1 & E & [= <-])%bind_ok.
  assert (locked d = true) as Hl by (unfold locked; rewrite Hc; apply orb_true_iff; left; by destruct (bool_decide _)).
  destruct (inv_stop d d1 H (di_lock _ H Hl) E) as (cs & gc & es & -> & Hn & Hgc & Hh).
  destruct H as [H1 H2 H3 H4 _]. split; cbn; try done.
  - intros _. auto.
  - exists gc, es. split; [done|]. eapply head_grow; [done| |done|done|by left].
    intros _. unfold locked. cbn. apply orb_true_r.
Qed.

Lemma inv_close_end d : db_inv d -> closing d = CloseWaitStop -> committer_stopped d = true -> db_inv (finish_close d).
Proof.
  intros H Hc Hcs. destruct (inv_close_wal d H) as (cs & gc & es & E & Hn & Hgc & Hh & Hph). unfold finish_close.
  destruct (close_wal d) as [d1 r]. cbn [fst] in E. rewrite E. cbn [tree set_committers]. destruct (lsm.Close (tree d)) as [t x].
  assert (locked d = true) as Hl by (unfold locked; rewrite Hc; apply orb_true_r).
  pose proof (di_lock _ H Hl) as Hw. destruct H as [H1 H2 H3 H4 _]. split; cbn; try done.
  - apply (tasks_calls (writes d) (next_id d)); try done; [lia|]. intros id w Ew. rewrite Hw, lookup_empty in Ew. done.
  - exists gc, es. split; [done|]. apply head_next. apply (head_release _ (length cs) _ _ _ (locked (set_closing CloseDone true d) = true)) in Hh;
      [|by right|lia|auto]. eapply head_grow; [exact Hh|done|done|done|].
    intros id b [?|[=]%list_elem_of_singleton]%elem_of_app. by left.
Qed.

Section steps.
Context (Sum128 : bytes -> Z * Z).
Context (CompressBlock : bytes -> option bytes) (UncompressBlock : bytes -> Z -> option bytes).
Context (coin : nat -> bool).

Abbreviation step := (db.step Sum128 CompressBlock UncompressBlock coin).
Abbreviation run := (db.run Sum128 CompressBlock UncompressBlock coin).

(** A step that changes the tree, the read calls or the results of reads and of [Close]. *)
Lemma inv_quiet d d' :
  db_inv d -> mem d' = mem d -> committers d' = committers d -> writes d' = writes d -> (next_id d <= next_id d')%nat ->
  locked d' = locked d -> (rotated d' -> rotated d) -> (stage d' <> FlushTree -> exists imm last, fl (mem d) = Busy imm last) ->
  (forall id b, (id, RWrite b (Ok tt)) ∈ results d' -> (id, RWrite b (Ok tt)) ∈ results d) -> db_inv d'.
Proof.
  intros H Hm Hc Hw Hn Hl Hr Hb Hres. pose proof H as [H1 H2 H3 H4 _]. apply (inv_frame d); rewrite ?Hm, ?Hl; try done.
Qed.

Lemma inv_flush imm last d d' :
  db_inv d -> fl (mem d) = Busy imm last -> stage d = FlushTree -> flush_tree Sum128 CompressBlock coin imm d = Ok d' -> db_inv d'.
Proof.
  intros H Hfl Hst E. unfold flush_tree in E. destruct (lsm.Flush _ _ imm (tree d)) as [t [[]| | |]]; try done.
  - injection E as <-. apply (inv_quiet d); try done; cbn; [unfold locked; cbn; by rewrite Hst| |eauto].
    unfold rotated. cbn. intros [|[|]]; [done|done|auto].
  - apply bind_ok in E as (d1 & E & [= <-]). apply inv_mem_step in E; [|done|done]. apply (inv_quiet d1); try done. apply E.
Qed.

Lemma inv_reading d d' :
  db_inv d -> mem d' = mem d -> committers d' = committers d -> writes d' = writes d -> (next_id d <= next_id d')%nat ->
  stage d' = stage d -> closing d' = closing d ->
  (forall id b, (id, RWrite b (Ok tt)) ∈ results d' -> (id, RWrite b (Ok tt)) ∈ results d) -> db_inv d'.
Proof.
  intros H Hm Hc Hw Hn Hs Hcl Hres. apply (inv_quiet d); try done; unfold locked, rotated; rewrite ?Hs, ?Hcl, ?Hm; try done. apply H.
Qed.

Lemma read_result id k r (res : list (nat * result)) id' b :
  (id', RWrite b (Ok tt)) ∈ res ++ [(id, RRead k r)] -> (id', RWrite b (Ok tt)) ∈ res.
Proof. by intros [?|[=]%list_elem_of_singleton]%elem_of_app. Qed.

Lemma db_step_inv e d d' : db_inv d -> step e d = Ok d' -> db_inv d'.
Proof.
  intros H E. destruct e; cbn [db.step] in E.
  - apply when_ok in E as [Hl [= <-]]. by apply inv_write.
  - apply on_ok in E as (w & Hw & E). by eapply inv_send.
  - apply on_ok in E as (w & Hw & E). by eapply inv_reject.
  - apply on_ok in E as (w & Hw & E). by eapply inv_answer.
  - apply on_ok in E as (w & Hw & [Hf%bool_decide_eq_true [= <-]]%when_ok). by apply inv_finished.
  - apply when_ok in E as [He E]. by eapply inv_committer.
  - by apply (inv_mem_step coin EResume d).
  - by apply (inv_mem_step coin ESignal d).
  - by apply (inv_mem_step coin ELast d).
  - destruct (fl (mem d)) eqn:Ef; [done| |done]. apply when_ok in E as [[Hs%bool_decide_eq_true _]%andb_prop E]. by eapply inv_flush.
  - apply when_ok in E as [[Hs%bool_decide_eq_true Hl]%andb_prop E]. by eapply inv_lock.
  - apply when_ok in E as [[Hs%bool_decide_eq_true Hc]%andb_prop [= <-]]. by apply inv_rotate.
  - apply when_ok in E as [Hs%bool_decide_eq_true E]. by eapply inv_flushed.
  - apply when_ok in E as [_ E]. destruct (lsm.compact_once _ _ _ _ _ (tree d)) as [t [| | |]]; try done; injection E as <-;
      by apply (inv_reading d).
  - apply when_ok in E as [_ [= <-]]. unfold Get. cbn [closed set_next]. destruct (closed d); apply (inv_reading d); try done; cbn; try lia.
    intros id' b'. apply read_result.
  - apply on_ok in E as (r & Hr & [_ E]%when_ok). unfold Get_mem in E. apply bind_ok in E as ([v []] & _ & [= <-]);
      apply (inv_reading d); try done; cbn. intros id' b'. apply read_result.
  - apply on_ok in E as (r & Hr & [_ E]%when_ok). unfold Get_tree in E. destruct (lsm.Get _ _ _ (tree d)) as [t [[v|]| | |]]; try done;
      injection E as <-; apply (inv_reading d); try done; cbn; intros id' b'; apply read_result.
  - destruct (closing d) eqn:Ec; try done.
    + injection E as <-. apply (inv_quiet d); try done; [|apply H]. unfold locked. cbn. by rewrite Ec.
    + apply when_ok in E as [_ [= <-]]. apply (inv_reading d); try done; cbn; [lia|].
      by intros id b [?|[=]%list_elem_of_singleton]%elem_of_app.
  - apply when_ok in E as [[Hc%bool_decide_eq_true [_ Hw]%can_lock_ok]%andb_prop E].
    apply bind_ok in E as (d1 & E & [= <-]). pose proof E as E1. apply inv_mem_step in E1; [|done|done].
    apply mem_step_ok in E as (m & E & ->). destruct E1 as [H1 H2 H3 H4 (gc & es & H5 & H6)]. split; cbn; try done.
    exists gc, es. split; [done|]. eapply head_grow; [exact H6| |done|done|by left]. cbn. unfold locked. cbn. by destruct (bool_decide (stage d = WaitStop)).
  - apply when_ok in E as [Hc%bool_decide_eq_true E]. destruct (fl (mem d)); try done. by eapply inv_close_flusher.
  - apply when_ok in E as [[Hc%bool_decide_eq_true Hs]%andb_prop [= <-]]. by apply inv_close_end.
Qed.

Lemma run_inv es : forall d d', db_inv d -> run es d = Ok d' -> db_inv d'.
Proof.
  induction es as [|e es IH]; intros d d' H E; cbn in E; [by injection E as <-|]. apply bind_ok in E as (d1 & E1 & E).
  eapply IH; [|done]. by eapply db_step_inv.
Qed.

Lemma run_app es1 : forall es2 d, run (es1 ++ es2) d = (d1 ← run es1 d; run es2 d1).
Proof. induction es1 as [|e es1 IH]; intros es2 d; cbn; [done|]. destruct (step e d); cbn; [apply IH|done..]. Qed.

End steps.

(** ** Opening *)

(** The manager after a replay. *)
Lemma replay_spec coin bs : forall m am im,
  mgr_models m am im -> (immutable m <> None -> flushCh m = true) ->
  exists r, replay_batches coin m bs = Ok r /\ forall m', r = Some m' ->
    exists am' im', mgr_models m' am' im' /\ (immutable m' <> None -> flushCh m' = true) /\ msize m' = msize m /\
      am' ∪ im' = entries_map (concat (map Entries bs)) (am ∪ im) /\ from_writes am im am' im' (concat (map Entries bs)).
Proof.
  induction bs as [|b bs IH]; intros m am im Hm Ht; cbn [replay_batches].
  { eexists. split; [done|]. intros m' [= <-]. exists am, im. split_and!; try done. intros k v [|]; auto. }
  unfold ApplyRecoveredBatch. destruct (write_entries_ok coin (Entries b) m am im Hm) as (m1 & rest & dn & -> & Hes & [W1 W2 W3 W4 W5] & _).
  cbn [mbind outcome_bind]. destruct rest as [|e rest]; [|by exists None]. rewrite app_nil_r in Hes. subst dn.
  destruct (W1 am im Hm) as (am1 & im1 & Hm1 & Eq1 & F1).
  destruct (IH m1 am1 im1 Hm1) as (r & E & Hr). { intros Hi. destruct (W3 Hi) as [Hi'|]; [|done]. by apply W4, Ht. }
  exists r. split; [done|]. intros m' Hr'. destruct (Hr m' Hr') as (am' & im' & A1 & A2 & A3 & A4 & A5). exists am', im'.
  split_and!; [done|done|congruence| |].
  - cbn [map concat]. by rewrite A4, Eq1, entries_map_app.
  - intros k v Hv. cbn [map concat]. rewrite map_app, elem_of_app. destruct (A5 k v Hv) as [Hv1|[Hv1|]]; [| |by auto]; (destruct (F1 k v) as [|[|]]; auto).
Qed.

(** What [Open] makes. *)
Definition opened_db (o : Options) (gc : group_commit.GroupCommitter) (m : Manager) (app : list BatchEntry) (t : lsm.LSMTree) : DB :=
  mkDB o [gc] true (mkSys m Idle true false [] [] [] [] app) t ∅ ∅ FlushTree NotClosing false 0 [].

Record db_opened (o : Options) (d : DB) (gc : group_commit.GroupCommitter) (m : Manager) (app : list BatchEntry) (t : lsm.LSMTree) : Prop := {
  op_db : d = opened_db o gc m app t;
  op_gc : exists w, gc = group_commit.NewGroupCommitter w (WALMaxBatchSize o);
  op_mem : exists am im, mgr_models m am im /\ (immutable m <> None -> flushCh m = true) /\ am ∪ im = entries_map app ∅ /\ from_writes ∅ ∅ am im app;
}.

Lemma opened_inv o d gc m app t  : db_opened o d gc m app t -> db_inv d.
Proof.
  intros [-> (w & ->) (am & im & Hm & Ht & Heq & _)]. split; cbn; try done.
  - split; cbn; try done.
    + exists am, im, ∅. split_and!; [done|constructor|]. by rewrite (right_id_L ∅ (∪)).
    + intros Hi. left. auto.
  - split; cbn; [by intros id x; rewrite lookup_empty|apply NoDup_nil_2|by intros ? ?%elem_of_nil|by intros ? ?%elem_of_nil].
  - eexists _, []. split; [done|]. split; cbn; try done; try (by intros ? ?%elem_of_nil); try (by intros ? ?; rewrite lookup_empty).
    + apply new_inv.
    + apply NoDup_nil_2.
    + intros [[|[|]]|]; [done..|lia].
    + by intros ? ? ?%elem_of_nil.
Qed.

Lemma Open_opened coin o dir rf d : Open coin o dir rf = Ok (Some d) ->
  exists gc m app t, db_opened o d gc m app t /\ lsm.NewLSMTree (lsm_options o) (sst_files dir) (manifest_file dir) = Ok t.
Proof.
  unfold Open. destruct (os_call (wr_faults (wal_files dir))) as [[] wf]; [done|].
  destruct (wal_recovery.Recover rf _) as [fs [res| | |]]; try done. destruct (os_call (wr_faults fs)) as [[] wf']; [done|].
  destruct (lsm.NewLSMTree _ _ _) as [t| | |]; try done. intros (r & E & H)%bind_ok.
  destruct (replay_spec coin (wal_recovery.Batches res) (NewManager (MemTableSize o)) ∅ ∅) as (r' & E' & Hr); [|done|].
  { split_and!; [apply NewMemTable_models|done..]. }
  rewrite E' in E. cbn in E. injection E as <-. destruct r' as [m|]; [|done]. injection H as <-.
  destruct (Hr m eq_refl) as (am & im & A1 & A2 & A3 & A4 & A5). eexists _, m, _, t. split; [|done].
  split; [reflexivity|by eexists|]. by exists am, im.
Qed.

(** ** Properties *)

Section properties.
Context (Sum128 : bytes -> Z * Z).
Context (CompressBlock : bytes -> option bytes) (UncompressBlock : bytes -> Z -> option bytes).
Context (coin : nat -> bool).

Abbreviation step := (db.step Sum128 CompressBlock UncompressBlock coin).
Abbreviation run := (db.run Sum128 CompressBlock UncompressBlock coin).

(** A database that can be reached from an [Open] on any directory. *)
Definition reached (d : DB) : Prop :=
  exists o dir rf d0 es, Open coin o dir rf = Ok (Some d0) /\ run es d0 = Ok d.

Lemma reached_inv d : reached d -> db_inv d.
Proof.
  intros (o & dir & rf & d0 & es & Ho & Hr). apply Open_opened in Ho as (gc & m & app & t & Hop & _).
  eapply run_inv; [|exact Hr]. by eapply opened_inv.
Qed.

(** C7: acknowledged writes.  When a write call returned without an error, its batch was
    appended to the log and synced by the committer of the manager, and its entries were
    written to the memtables in their order. *)
Theorem db_acked_writes (d : DB) (id : nat) (b : Batch) (Hd : reached d) (Hack : (id, RWrite b (Ok tt)) ∈ results d) :
  exists gc data, committers d !! 0%nat = Some gc /\ Encode b = Ok data /\ committed (group_commit.calls gc) data /\
    Entries b `sublist_of` applied (mem d).
Proof.
  destruct (di_head _ (reached_inv d Hd)) as (gc & es & Hgc & Hh). destruct (hd_res _ _ _ _ _ _ _ _ _ Hh id b Hack) as [(data & H1 & H2) H3].
  by exists gc, data.
Qed.

(** The write calls that returned without an error. *)
Definition acked (d : DB) : list (nat * Batch) :=
  omap (fun x => match x.2 with RWrite b (Ok _) => Some (x.1, b) | _ => None end) (results d).

#[local] Arguments acked : simpl never.

Lemma acked_app (res : list (nat * result)) (d d' : DB) : results d' = results d ++ res ->
  omap (fun x => match x.2 with RWrite b (Ok _) => Some (x.1, b) | _ => None end) res = [] -> acked d' = acked d.
Proof. intros H1 H2. unfold acked. by rewrite H1, omap_app, H2, app_nil_r. Qed.

(** A step acknowledges a write only by the return of its call; committers are never
    taken away. *)
Lemma step_acks e d d' : step e d = Ok d' ->
  ((exists id w, e = EvReturn id /\ call_in Applying id d = Some w) \/ acked d' = acked d) /\ (length (committers d) <= length (committers d'))%nat.
Proof.
  intros E. destruct e; cbn [db.step] in E;
    unfold send, reject, answered, flush_tree, stop_committer, Get_mem, Get_tree, WriteBatch, Get, rotateWAL, finish_close, close_wal in *;
    cbn [closed set_next] in *; inv_db_step; cbn; rewrite ?length_app, ?length_insert;
    try (split; [first [by right|left; by eauto|right; by eapply acked_app]|lia]).
  all: repeat case_match; simplify_eq; cbn; rewrite ?length_app, ?length_insert.
  all: split; [first [by right|left; by eauto|right; by eapply acked_app]|lia].
Qed.

Lemma stopped_acks es : forall d d', db_inv d -> (1 < length (committers d))%nat -> run es d = Ok d' -> acked d' = acked d.
Proof.
  induction es as [|e es IH]; intros d d' H Hn E; cbn in E; [by injection E as <-|]. apply bind_ok in E as (d1 & E1 & E).
  destruct (step_acks e d d1 E1) as [Ha Hl]. rewrite (IH d1 d'); [|by eapply db_step_inv|lia|done].
  destruct Ha as [(id & w & -> & [Ew Hp]%call_in_ok)|]; [|done]. destruct (di_head _ H) as (gc & es' & _ & Hh).
  destruct (hd_dead _ _ _ _ _ _ _ _ _ Hh (hd_rot _ _ _ _ _ _ _ _ _ Hh (or_intror Hn)) id w Ew). done.
Qed.

(** C36: no write after the first flush.  Once [rotateWAL] has made a second committer,
    no call of [Put], [Delete] or [WriteBatch] returns without an error again: the manager
    still has the first committer, which is stopped. *)
Theorem db_first_flush_stops_writes (d d' : DB) (es : list event) (Hd : reached d) (Hrot : (1 < length (committers d))%nat)
    (Hrun : run es d = Ok d') : acked d' = acked d.
Proof. exact (stopped_acks es d d' (reached_inv d Hd) Hrot Hrun). Qed.

(** The flush goroutine waits for [db.mu], which the call of the task [t] has, and the
    call waits for the end of the flush. *)
Definition stuck (t : task) (d : DB) : Prop := stage d = WaitLock /\ t ∈ blocked (mem d).

Lemma stuck_inside t d : db_inv d -> stuck t d -> writes d <> ∅.
Proof.
  intros H [_ Ht] Hw. destruct (to_task _ _ _ (di_tasks _ H) t) as (w & _ & E & _); [apply elem_of_app; by left|].
  by rewrite Hw, lookup_empty in E.
Qed.

Lemma mem_blocked t e s s' : sys_inv s -> (match e with EFlushOk => false | _ => true end) = true ->
  manager.step coin e s = Ok s' -> t ∈ blocked s -> t ∈ blocked s'.
Proof.
  intros Hs He E Ht. destruct (si_maps _ Hs) as (am & im & _ & Hm & _).
  assert (forall t' r, run_task coin t' s r = Ok s' -> t ∈ blocked s') as Hrun.
  { intros t' r E'. destruct (run_task_spec coin t' s r am im Hm) as (m' & rest & dn & E2 & _). rewrite E' in E2. injection E2 as ->.
    cbn. destruct rest; [done|]. apply elem_of_app. by left. }
  destruct e; try done; cbn [manager.step] in E; [by eapply Hrun| |..]; repeat case_match; simplify_eq; try done. by eapply Hrun.
Qed.

Lemma stuck_step t e d d' : db_inv d -> stuck t d -> step e d = Ok d' -> stuck t d' /\ next_id d' = next_id d.
Proof.
  intros H Hst E. pose proof (stuck_inside t d H Hst) as Hw. destruct Hst as [Hs Ht].
  assert (can_lock d = false /\ can_rlock d = false /\ locked d = false) as (Hcl & Hcr & Hlk).
  { unfold can_lock, can_rlock, lock_wanted. rewrite Hs, (bool_decide_false (writes d = ∅)) by done. rewrite !andb_false_r. split_and!; [done|done|].
    destruct (locked d) eqn:El; [|done]. by destruct Hw; apply (di_lock _ H). }
  assert (forall e m, (match e with EFlushOk => false | _ => true end) = true -> manager.step coin e (mem d) = Ok m -> t ∈ blocked m) as Hmem.
  { intros e' m He Em. by eapply mem_blocked; [apply H|..]. }
  destruct e; cbn [db.step] in E; rewrite ?Hcl, ?Hcr, ?Hs in E;
    unfold send, reject, answered, flush_tree, stop_committer, Get_mem, Get_tree in E; inv_db_step;
    try done; try (by split; [split; [|by eapply (Hmem (EWrite _ _))]|]);
    try (by split; [split; [|by eapply (Hmem EResume)]|]); try (by split; [split; [|by eapply (Hmem ESignal)]|]);
    try (by split; [split; [|by eapply (Hmem ELast)]|]).
  - by rewrite andb_false_r in *.
  - unfold locked in Hlk. by destruct (closing d), (stage d).
Qed.

(** Writers and the flush goroutine can block each other for ever.  When a write
    waits for the flush of the other memtable and the flush waits in [rotateWAL], then
    from that state on the flush never goes on, the write never returns, and no call of
    [Put], [Delete], [WriteBatch] or [Get] begins. *)
Theorem db_burst_deadlock (d d' : DB) (t : task) (es : list event) (Hd : reached d) (Hstage : stage d = WaitLock)
    (Hblocked : t ∈ blocked (mem d)) (Hrun : run es d = Ok d') :
  stage d' = WaitLock /\ t ∈ blocked (mem d') /\ (exists w, writes d' !! t.1 = Some w) /\ next_id d' = next_id d.
Proof.
  assert (forall es d d', db_inv d -> stuck t d -> run es d = Ok d' -> (db_inv d' /\ stuck t d') /\ next_id d' = next_id d) as Hall.
  { clear. intros es. induction es as [|e es IH]; intros d d' H Hst E; cbn in E; [by injection E as <-|]. apply bind_ok in E as (d1 & E1 & E).
    destruct (stuck_step t e d d1 H Hst E1) as [Hst1 Hn]. rewrite <- Hn. eapply IH; [|done|done]. by eapply db_step_inv. }
  destruct (Hall es d d' (reached_inv d Hd) (conj Hstage Hblocked) Hrun) as [[H' [Hs Ht]] Hn]. split_and!; [done..| |done].
  destruct (to_task _ _ _ (di_tasks _ H') t) as (w & _ & E & _); [apply elem_of_app; by left|]. by exists w.
Qed.

(** [Close] has [db.mu] and waits for the flush goroutine, which still has a memtable to
    flush and so needs [db.mu] in [rotateWAL]. *)
Definition close_stuck (d : DB) : Prop :=
  closing d = CloseWaitFlusher /\ (stage d = FlushTree \/ stage d = WaitLock) /\
  immutable (mgr (mem d)) <> None /\ fl (mem d) <> Exited.

Lemma no_writes d : db_inv d -> writes d = ∅ -> (forall p id, call_in p id d = None) /\ ready (mem d) = [].
Proof.
  intros H Hw. split; [intros p id; unfold call_in; by rewrite Hw, lookup_empty|].
  destruct (ready (mem d)) as [|t ts] eqn:Et; [done|]. destruct (to_task _ _ _ (di_tasks _ H) t) as (w & _ & E & _).
  - rewrite Et. apply elem_of_app. right. by left.
  - by rewrite Hw, lookup_empty in E.
Qed.

Lemma mem_unflushed e s s' : (match e with manager.EFlushOk | manager.EWrite _ _ => false | _ => true end) = true -> ready s = [] ->
  manager.step coin e s = Ok s' -> immutable (mgr s) <> None -> fl s <> Exited -> immutable (mgr s') <> None /\ fl s' <> Exited.
Proof.
  intros He Hr E Hi Hf. destruct e; try done; cbn [manager.step] in E; rewrite ?Hr in E; repeat case_match; simplify_eq; cbn; split; congruence.
Qed.

Lemma close_stuck_step e d d' : db_inv d -> close_stuck d -> step e d = Ok d' -> close_stuck d' /\ next_id d' = next_id d.
Proof.
  intros H (Hc & Hs & Hi & Hf) E.
  assert (locked d = true) as Hlk by (unfold locked; by rewrite Hc, orb_true_r).
  destruct (no_writes d H (di_lock _ H Hlk)) as [Hcall Hready].
  assert (can_lock d = false /\ can_rlock d = false) as [Hcl Hcr] by (unfold can_lock, can_rlock; by rewrite Hlk).
  assert (forall e m, (match e with manager.EFlushOk | manager.EWrite _ _ => false | _ => true end) = true ->
    manager.step coin e (mem d) = Ok m -> immutable (mgr m) <> None /\ fl m <> Exited) as Hmem.
  { intros e' m He Em. by eapply mem_unflushed. }
  unfold close_stuck. destruct e; cbn [db.step] in E; rewrite ?Hcl, ?Hcr, ?Hcall, ?Hc in E; unfold flush_tree, Get_mem, Get_tree in E; inv_db_step;
    try done; try (match goal with M : manager.step _ ?e _ = Ok _ |- _ => destruct (Hmem e _ eq_refl M) end); cbn; auto.
  - split; [|done]. split_and!; [done|by right|done|congruence].
  - by rewrite andb_false_r in *.
  - destruct Hs as [Hs|Hs]; by rewrite Hs in *.
  - destruct Hs as [Hs|Hs]; by rewrite Hs in *.
Qed.

(** C37: [Close] with a flush pending never returns.  When [Close] has the lock while a
    memtable is still to be flushed, then from that state on, whatever happens, [Close]
    waits for the flush goroutine, the memtable is not dropped, and no call of [Put],
    [Delete], [WriteBatch] or [Get] begins. *)
Theorem db_close_deadlock (d d' : DB) (es : list event) (Hd : reached d) (Hclosing : closing d = CloseWaitFlusher)
    (Hstage : stage d = FlushTree \/ stage d = WaitLock) (Himm : immutable (mgr (mem d)) <> None) (Hfl : fl (mem d) <> Exited)
    (Hrun : run es d = Ok d') :
  closing d' = CloseWaitFlusher /\ immutable (mgr (mem d')) <> None /\ next_id d' = next_id d.
Proof.
  assert (forall es d d', db_inv d -> close_stuck d -> run es d = Ok d' -> close_stuck d' /\ next_id d' = next_id d) as Hall.
  { clear. intros es. induction es as [|e es IH]; intros d d' H Hst E; cbn in E; [by injection E as <-|]. apply bind_ok in E as (d1 & E1 & E).
    destruct (close_stuck_step e d d1 H Hst E1) as [Hst1 Hn]. rewrite <- Hn. eapply IH; [|done|done]. by eapply db_step_inv. }
  destruct (Hall es d d' (reached_inv d Hd) (conj Hclosing (conj Hstage (conj Himm Hfl))) Hrun) as [(A & _ & B & _) C]. auto.
Qed.

End properties.

(** ** A small database *)

(** Memtables of 40 bytes, which one entry fills, and batches of one request. *)
Definition small : Options := mkOptions 40 1 0 false 4096 10 0 0 12.
Definition fresh_dir : Directory := mkDir (mkFS None None []) ∅ [].

Definition put_of (k v : bytes) : Batch := wal_batch.Put empty_batch k (Some v).

(** The steps of call [id] that writes [b], up to its answer, and to its return. *)
Definition submitted (id : nat) (b : Batch) : list event :=
  [EvWrite b; EvSend id; EvCommitter 0 group_commit.ERecv; EvAnswer id].
Definition written (id : nat) (b : Batch) : list event := submitted id b ++ [EvReturn id].

(** The steps of [rotateWAL] and of the end of the flush. *)
Definition rotation : list event :=
  [EvLock; EvCommitter 0 group_commit.EStop; EvCommitter 0 group_commit.EReturn; EvRotate false false; EvFlushed].

Definition small_open : outcome db_error (option DB) := Open flat small fresh_dir [].
Definition small_run (es : list event) (d : DB) : outcome disabled DB := db.run toy_hash toy_compress toy_uncompress flat es d.

Definition run_from (r : outcome db_error (option DB)) (es : list event) : option DB :=
  match r with
  | Ok (Some d) => match small_run es d with Ok d' => Some d' | _ => None end
  | _ => None
  end.

Lemma run_from_reached es d : run_from small_open es = Some d -> reached toy_hash toy_compress toy_uncompress flat d.
Proof.
  unfold run_from, small_open. destruct (Open flat small fresh_dir []) as [[d0|]| | |] eqn:E; try discriminate.
  destruct (small_run es d0) as [d'| | |] eqn:Er; try discriminate. intros [= <-]. exists small, fresh_dir, [], d0, es. exact (conj E Er).
Qed.

Definition key_a : bytes := str "a".
Definition key_b : bytes := str "b".
Definition key_c : bytes := str "c".

(** Two writes, of which the first fills a memtable that is then flushed. *)
Definition two_writes : list event :=
  written 0 (put_of key_a (str "1")) ++ [EvSignal] ++ written 1 (put_of key_b (str "2")) ++ [EvFlush] ++ rotation.

Definition flushed_db : option DB := run_from small_open two_writes.

(** Two writes and a third that waits for the flush. *)
Definition three_writes : list event :=
  written 0 (put_of key_a (str "1")) ++ [EvSignal] ++ written 1 (put_of key_b (str "2")) ++
  submitted 2 (put_of key_c (str "3")) ++ [EvFlush].

Definition stuck_db : option DB := run_from small_open three_writes.

Definition ack_of (d : DB) (i : nat) : option Batch :=
  match results d !! i with Some (_, RWrite b (Ok tt)) => Some b | _ => None end.

Lemma ack_of_elem d i b : ack_of d i = Some b -> exists id, (id, RWrite b (Ok tt)) ∈ results d.
Proof.
  unfold ack_of. destruct (results d !! i) as [[id [b' [[]| | |]| |]]|] eqn:E; try done. intros [= <-]. exists id.
  apply list_elem_of_lookup. by exists i.
Qed.

Definition check (o : option DB) (P : DB -> bool) : bool := match o with Some d => P d | None => false end.

Lemma check_ok o P : check o P = true -> exists d, o = Some d /\ P d = true.
Proof. destruct o as [d|]; [|done]. by exists d. Qed.

Lemma flushed_db_ok : exists d, flushed_db = Some d /\ ack_of d 1 = Some (put_of key_b (str "2")) /\ (1 < length (committers d))%nat.
Proof.
  destruct (check_ok flushed_db (fun d => bool_decide (ack_of d 1 = Some (put_of key_b (str "2"))) && (1 <? length (committers d))%nat))
    as (d & E & [H1%bool_decide_eq_true H2%Nat.ltb_lt]%andb_prop); [by vm_compute|]. exists d. exact (conj E (conj H1 H2)).
Qed.

Lemma stuck_db_ok : exists d t, stuck_db = Some d /\ stage d = WaitLock /\ t ∈ blocked (mem d).
Proof.
  destruct (check_ok stuck_db (fun d => bool_decide (stage d = WaitLock) && negb (bool_decide (length (blocked (mem d)) = 0%nat))))
    as (d & E & [H1%bool_decide_eq_true H2%negb_true_iff%bool_decide_eq_false]%andb_prop); [by vm_compute|].
  destruct (blocked (mem d)) as [|t l] eqn:Eb; [by clear E|]. exists d, t. split; [exact E|]. split; [exact H1|]. rewrite Eb. left.
Qed.

Lemma db_acked_writes_witness : exists d gc data, flushed_db = Some d /\
  committers d !! 0%nat = Some gc /\ Encode (put_of key_b (str "2")) = Ok data /\ committed (group_commit.calls gc) data.
Proof.
  destruct flushed_db_ok as (d & E & Ha & _). destruct (ack_of_elem d 1 _ Ha) as [id Hin].
  destruct (db_acked_writes toy_hash toy_compress toy_uncompress flat d id (put_of key_b (str "2")) (run_from_reached _ _ E) Hin)
    as (gc & data & H1 & H2 & H3 & _). exists d, gc, data. exact (conj E (conj H1 (conj H2 H3))).
Defined.

(** A third write, after the flush. *)
Definition refused_write : list event := [EvWrite (put_of key_c (str "3")); EvReject 2].

Lemma db_first_flush_stops_writes_witness : exists d d', flushed_db = Some d /\ (1 < length (committers d))%nat /\
  small_run refused_write d = Ok d' /\ acked d' = acked d.
Proof.
  destruct (check_ok flushed_db (fun d => (1 <? length (committers d))%nat && match small_run refused_write d with Ok _ => true | _ => false end))
    as (d & E & [H1%Nat.ltb_lt H2]%andb_prop); [by vm_compute|].
  destruct (small_run refused_write d) as [d'| | |] eqn:E2; [|discriminate H2..].
  exists d, d'. split; [exact E|]. split; [exact H1|]. split; [exact E2|].
  exact (db_first_flush_stops_writes toy_hash toy_compress toy_uncompress flat d d' refused_write (run_from_reached _ _ E) H1 E2).
Defined.

(** [Close] while the first memtable is being flushed, and what comes after it. *)
Definition early_close : list event := written 0 (put_of key_a (str "1")) ++ [EvSignal; EvClose; EvCloseLock].
Definition closing_db : option DB := run_from small_open early_close.

Lemma db_close_deadlock_witness : exists d d', closing_db = Some d /\ small_run [EvFlush] d = Ok d' /\ closing d' = CloseWaitFlusher.
Proof.
  destruct (check_ok closing_db (fun d => bool_decide (closing d = CloseWaitFlusher) && bool_decide (stage d = FlushTree) &&
    match immutable (mgr (mem d)) with Some _ => true | None => false end && match fl (mem d) with Exited => false | _ => true end &&
    match small_run [EvFlush] d with Ok _ => true | _ => false end))
    as (d & E & [[[[H1%bool_decide_eq_true H2%bool_decide_eq_true]%andb_prop H3]%andb_prop H4]%andb_prop H5]%andb_prop); [by vm_compute|].
  destruct (small_run [EvFlush] d) as [d'| | |] eqn:E2; [|discriminate H5..].
  exists d, d'. split; [exact E|]. split; [exact E2|].
  refine (proj1 (db_close_deadlock toy_hash toy_compress toy_uncompress flat d d' [EvFlush] (run_from_reached _ _ E) H1 (or_introl H2) _ _ E2)).
  - intros X. rewrite X in H3. discriminate H3.
  - intros X. rewrite X in H4. discriminate H4.
Defined.

Lemma db_burst_deadlock_witness : exists d t, stuck_db = Some d /\ stage d = WaitLock /\ t ∈ blocked (mem d) /\
  exists w, writes d !! t.1 = Some w.
Proof.
  destruct stuck_db_ok as (d & t & E & Hs & Ht). exists d, t. split; [exact E|]. split; [exact Hs|]. split; [exact Ht|].
  exact (proj1 (proj2 (proj2 (db_burst_deadlock toy_hash toy_compress toy_uncompress flat d d t [] (run_from_reached _ _ E) Hs Ht eq_refl)))).
Defined.

Definition read_key (id : nat) (k : bytes) : list event := [EvRead k; EvReadMem id; EvReadTree id].

(** The answer of the last call, if it was a read. *)
Definition last_read (d : DB) : option (outcome db_error bytes) :=
  match last (results d) with Some (_, RRead _ r) => Some r | _ => None end.

