(* ===== verification/DbReads.v ===== *)
(** * Reads of the database

    A database opened on what a crash left of a log has the batches that are wholly in
    it, over the tables.  Every read of a running database answers with the value of its
    key after some prefix of the writes applied, which includes those applied before
    the call and no other than those applied before it returned. *)

From S2P Require Import Prelude Order Keys Files WalBatch WalLog WalRecovery GroupCommit SkipList MemTable Manager.
From S2P Require Import Bloom Cache SSTable SSTableSpec Manifest Heap MergeIter Compaction CompactionSpec Limits Levels.
From S2P Require Import Lsm LsmSpec LsmRefine Db DbSpec.
Import mvcc wal_batch manager db.

#[local] Open Scope Z_scope.

(** ** Sizes *)

Definition sum {A} (f : A -> Z) (l : list A) : Z := foldr (fun x z => f x + z) 0 l.

Lemma sum_app {A} (f : A -> Z) l k : sum f (l ++ k) = sum f l + sum f k.
Proof. induction l as [|x l IH]; cbn; [done|]. unfold sum in *. lia. Qed.

Lemma sum_nonneg {A} (f : A -> Z) l : (forall x, 0 <= f x) -> 0 <= sum f l.
Proof. intros Hf. induction l as [|x l IH]; cbn; [lia|]. specialize (Hf x). unfold sum in IH. lia. Qed.

Lemma sum_perm {A} (f : A -> Z) l k : l ≡ₚ k -> sum f l = sum f k.
Proof. unfold sum. induction 1; cbn; lia. Qed.

Lemma sum_sub {A} (f : A -> Z) l k : (forall x, 0 <= f x) -> NoDup l -> (forall x, x ∈ l -> x ∈ k) -> sum f l <= sum f k.
Proof.
  intros Hf Hl Hk. apply (NoDup_submseteq l k) in Hk as [r Hr]%submseteq_Permutation; [|done].
  rewrite (sum_perm f _ _ Hr), sum_app. pose proof (sum_nonneg f r Hf). lia.
Qed.

(** What an entry takes at most in a memtable. *)
Definition mem_cost (e : kv) : Z := 160 + len e.1 + len (default [] e.2).

Lemma mem_cost_nonneg e : 0 <= mem_cost e.
Proof. unfold mem_cost. pose proof (len_nonneg e.1). pose proof (len_nonneg (default [] e.2)). lia. Qed.

Lemma ksorted_nodup (l : list kv) : ksorted CompareKeys l -> NoDup l.
Proof.
  induction l as [|e l IH]; [intros _; apply NoDup_nil_2|]. destruct e as [k v]. intros [Hs Hlt]%ksorted_cons. apply NoDup_cons. split; [|by apply IH].
  intros Hin. apply (klt_irrefl (cmp := CompareKeys) k), Hlt. by apply (list_elem_of_fmap_2 fst) in Hin.
Qed.

Lemma models_listed mt m : models mt m -> exists es, listed mt es /\ lists es m.
Proof. intros (ls & H1 & H2). eexists. split; [by exists ls|done]. Qed.

Lemma lists_elem es m k v : lists es m -> (k, v) ∈ es -> m !! k = Some v.
Proof. intros [Hs Hm] Hin. rewrite <- Hm. by apply elem_assoc. Qed.

Lemma usage_bound mt m ws :
  models mt m -> (forall k v, m !! k = Some v -> (k, v) ∈ ws) -> sum mem_cost ws < 2 ^ 63 -> memtable.MemoryUsage mt <= sum mem_cost ws.
Proof.
  intros (ls & Hinv & Hl) Hws Hsz. unfold memtable.MemoryUsage, skiplist.MemoryUsage. rewrite (inv_mem _ _ Hinv).
  assert (0 <= total_cost (skiplist.nodes (memtable.sl mt)) ls <= sum mem_cost (entries (memtable.sl mt) ls)) as Hc.
  { pose proof (inv_nodes _ _ Hinv) as Hn. pose proof (inv_level _ _ Hinv) as Hlv. clear Hws Hl Hinv.
    induction ls as [|a l IH]; [cbn; lia|]. cbn [total_cost foldr entries map sum]. fold (total_cost (skiplist.nodes (memtable.sl mt)) l).
    fold (entries (memtable.sl mt) l). fold (sum mem_cost (entries (memtable.sl mt) l)). specialize (Hn a (list_elem_of_here _ _)) as Ha.
    unfold skiplist.MaxLevel in Hlv. unfold node_cost, mem_cost at 1. cbn [fst snd].
    pose proof (len_nonneg (key_at (skiplist.nodes (memtable.sl mt)) a)). pose proof (len_nonneg (default [] (value_at (skiplist.nodes (memtable.sl mt)) a))).
    assert (0 <= total_cost (skiplist.nodes (memtable.sl mt)) l <= sum mem_cost (entries (memtable.sl mt) l)) by (apply IH; intros x Hx; apply Hn; by right). lia. }
  assert (sum mem_cost (entries (memtable.sl mt) ls) <= sum mem_cost ws) as Hle.
  { apply sum_sub; [apply mem_cost_nonneg|apply ksorted_nodup, Hl|]. intros [k v] Hin. by apply Hws, (lists_elem (entries (memtable.sl mt) ls)). }
  rewrite i64_small; lia.
Qed.

(** ** Opening *)

Definition in_writes (m : gmap bytes (option bytes)) (ws : list kv) : Prop := forall k v, m !! k = Some v -> (k, v) ∈ ws.

Lemma roomy mt m ws : models mt m -> in_writes m ws -> sum mem_cost ws < memtable.maxSize mt < 2 ^ 63 -> memtable.ShouldFlush mt = false.
Proof. intros Hm Hws Hsz. unfold memtable.ShouldFlush. apply Z.leb_gt. pose proof (usage_bound mt m ws Hm Hws ltac:(lia)). lia. Qed.

Lemma apply_one_room coin m e am ws :
  mgr_models m am ∅ -> immutable m = None -> in_writes am ws -> sum mem_cost (ws ++ [entry_write e]) < msize m < 2 ^ 63 ->
  exists mt, apply_one coin 2 m e = Ok (set_active mt m, true) /\
    mgr_models (set_active mt m) (<[(entry_write e).1 := (entry_write e).2]> am) ∅.
Proof.
  intros (H1 & H2 & H3 & H4) Hi Hws Hsz. rewrite sum_app in Hsz. pose proof (mem_cost_nonneg (entry_write e)) as Hc.
  pose proof (try_entry_models coin (active m) am e H1) as Ht. unfold full in Ht.
  rewrite H3, (roomy (active m) am ws H1 Hws) in Ht by (rewrite H2; cbn in Hsz; lia). cbn [orb] in Ht.
  destruct Ht as (mt & E & Hm & Hs & Hf). cbn [apply_one]. rewrite E. exists mt.
  rewrite (roomy mt _ (ws ++ [entry_write e]) Hm); cbn [andb].
  - split; [done|]. split_and!; cbn; [done|congruence|congruence|by rewrite Hi].
  - intros k v [[<- <-]|[_ Hv]]%lookup_insert_Some; apply elem_of_app; [right|left; by apply Hws].
    apply list_elem_of_singleton. by destruct (entry_write e).
  - rewrite Hs, H2, sum_app. cbn. cbn in Hsz. lia.
Qed.

Lemma write_entries_room coin es : forall m am ws,
  mgr_models m am ∅ -> immutable m = None -> in_writes am ws -> sum mem_cost (ws ++ map entry_write es) < msize m < 2 ^ 63 ->
  exists m' am', write_entries coin m es = Ok (m', []) /\ mgr_models m' am' ∅ /\ immutable m' = None /\ msize m' = msize m /\
    in_writes am' (ws ++ map entry_write es).
Proof.
  induction es as [|e es IH]; intros m am ws Hm Hi Hws Hsz; cbn [write_entries map].
  { exists m, am. by rewrite app_nil_r. }
  cbn [map] in Hsz. rewrite cons_middle, (assoc_L (++)) in Hsz |- *. pose proof Hsz as Hsz'. rewrite sum_app in Hsz'.
  pose proof (sum_nonneg mem_cost (map entry_write es) mem_cost_nonneg).
  destruct (apply_one_room coin m e am ws Hm Hi Hws) as (mt & -> & Hm'); [lia|]. cbn [mbind outcome_bind].
  apply (IH _ _ (ws ++ [entry_write e])) in Hm'; [|done| |done].
  - exact Hm'.
  - intros k v [[<- <-]|[_ Hv]]%lookup_insert_Some; apply elem_of_app; [right|left; by apply Hws].
    apply list_elem_of_singleton. by destruct (entry_write e).
Qed.

(** A replay that fits in a memtable does not wait. *)
Lemma replay_room coin bs : forall m am ws,
  mgr_models m am ∅ -> immutable m = None -> in_writes am ws ->
  sum mem_cost (ws ++ map entry_write (concat (map Entries bs))) < msize m < 2 ^ 63 ->
  exists m', replay_batches coin m bs = Ok (Some m') /\ immutable m' = None.
Proof.
  induction bs as [|b bs IH]; intros m am ws Hm Hi Hws Hsz; cbn [replay_batches].
  { by exists m. }
  cbn [map concat] in Hsz. rewrite map_app, (assoc_L (++)) in Hsz. pose proof Hsz as Hsz'. rewrite sum_app in Hsz'.
  pose proof (sum_nonneg mem_cost (map entry_write (concat (map Entries bs))) mem_cost_nonneg).
  destruct (write_entries_room coin (Entries b) m am ws Hm Hi Hws) as (m1 & am1 & E & Hm1 & Hi1 & Hn1 & Hw1); [lia|].
  unfold ApplyRecoveredBatch. rewrite E. cbn [mbind outcome_bind]. apply (IH m1 am1 (ws ++ map entry_write (Entries b))); try done. by rewrite Hn1.
Qed.

(** The answer of a read, by what is stored of the key: [Some None] is a deletion. *)
Definition answer (x : option (option bytes)) : outcome db_error bytes := found (default None x).

Section reads.
Context (Sum128 : bytes -> Z * Z).
Context (CompressBlock : bytes -> option bytes) (UncompressBlock : bytes -> Z -> option bytes).
Context `{!Lz4 CompressBlock UncompressBlock}.
Context (coin : nat -> bool).

Abbreviation step := (db.step Sum128 CompressBlock UncompressBlock coin).
Abbreviation run := (db.run Sum128 CompressBlock UncompressBlock coin).
Abbreviation lsm_ok := (LsmSpec.lsm_ok Sum128 CompressBlock).

(** The steps of a read that finds its key in a memtable, or does not. *)
Definition read_steps (id : nat) (k : bytes) (in_memory : bool) : list event :=
  if in_memory then [EvRead k; EvReadMem id] else [EvRead k; EvReadMem id; EvReadTree id].

Lemma read_answer d k am im T :
  mgr_models (mgr (mem d)) am im -> lsm_ok T (tree d) -> can_rlock d = true -> db.closed d = false -> closing d <> CloseDone ->
  exists b d', run (read_steps (next_id d) k b) d = Ok d' /\
    results d' = results d ++ [(next_id d, RRead k (answer (match (am ∪ im) !! k with Some v => Some v | None => stored T (lsm.version (tree d)) k end)))].
Proof.
  intros Hm Ht Hl Hc Hcl. pose proof (Get_mgr_models _ _ _ k Hm) as Hg.
  destruct (Get_lsm_ok Sum128 CompressBlock UncompressBlock T (tree d) k Ht) as (c & Et & _).
  destruct ((am ∪ im) !! k) as [v|].
  - exists true. cbn [read_steps db.run db.step]. rewrite Hl. unfold Get. cbn [db.closed set_next]. rewrite Hc. cbn [when mbind outcome_bind].
    cbn [reads set_reads set_next next_id]. rewrite lookup_insert_eq. cbn [on missed rkey when negb]. unfold Get_mem. cbn [mem set_reads set_next]. rewrite Hg.
    cbn. eexists. split; [reflexivity|]. done.
  - exists false. cbn [read_steps db.run db.step]. rewrite Hl. unfold Get. cbn [db.closed set_next]. rewrite Hc. cbn [when mbind outcome_bind].
    cbn [reads set_reads set_next next_id]. rewrite lookup_insert_eq. cbn [on missed rkey when negb]. unfold Get_mem. cbn [mem set_reads set_next]. rewrite Hg.
    cbn [no_error mbind outcome_bind]. cbn [reads set_reads set_next next_id closing]. rewrite lookup_insert_eq. cbn [on missed rkey when negb].
    rewrite bool_decide_false by done. cbn [andb negb when]. unfold Get_tree. cbn [tree set_reads set_next]. rewrite Et.
    destruct (stored T (lsm.version (tree d)) k) as [v|]; cbn [mbind outcome_bind]; eexists; (split; [reflexivity|]); done.
Qed.


(** ** The tree of a running database *)

Abbreviation holds := (LsmRefine.holds Sum128 CompressBlock).

Lemma models_unique mt m1 m2 : models mt m1 -> models mt m2 -> m1 = m2.
Proof.
  intros H1 H2. apply map_eq. intros k. pose proof (Get_models mt m1 k H1) as E1. rewrite (Get_models mt m2 k H2) in E1.
  by destruct (m1 !! k), (m2 !! k); simplify_eq.
Qed.

(** All files are on the first level, and there are [n]. *)
Definition small_tree (n : nat) (l : lsm.LSMTree) : Prop := length (concat (lsm.version l)) = n /\ lsm.l0_count l = Z.of_nat n.

Lemma small_version n l : small_tree n l -> length (lsm.version l) = manifest.MaxLevels ->
  exists l0, length l0 = n /\ lsm.version l = l0 :: replicate 6 [].
Proof.
  intros [Hn H0] Hlen. unfold lsm.l0_count in H0. destruct (lsm.version l) as [|l0 ls] eqn:E; [done|]. exists l0. cbn in Hn, H0, Hlen.
  rewrite length_app in Hn. unfold len in H0. assert (length l0 = n) as Hl0 by lia. split; [done|]. f_equal.
  assert (concat ls = []) as Hc by (apply length_zero_iff_nil; lia). unfold manifest.MaxLevels in Hlen. assert (length ls = 6%nat) as <- by lia. clear -Hc.
  induction ls as [|x ls IH]; [done|]. cbn in *. apply app_nil in Hc as [-> Hc]. f_equal. by apply IH.
Qed.

Lemma small_pick n l : small_tree n l -> (n <= 1)%nat -> length (lsm.version l) = manifest.MaxLevels -> compaction.PickCompaction (lsm.version l) = Ok None.
Proof.
  intros Hs Hn Hl. destruct (small_version n l Hs Hl) as (l0 & H0 & ->). destruct l0 as [|f [|]]; [by vm_compute|by vm_compute|cbn in H0; lia].
Qed.

Lemma flush_empty T l mt es :
  holds T l (fun _ => None) -> small_tree 0 l -> listed mt es -> Forall (fits (lsm.BlockSize (lsm.opts l))) es -> len (blk_data es) < 2 ^ 40 ->
  manifest.nextFileNum (compaction.man (lsm.lenv l)) < 2 ^ 64 - 1 ->
  exists T' l', lsm.Flush Sum128 CompressBlock mt l = (l', Ok tt) /\ holds T' l' (fun k => assoc CompareKeys k es) /\ small_tree 1 l' /\
    lsm.opts l' = lsm.opts l.
Proof.
  intros [Hok Hm Ha] [Hs H0] Hmt Hf Hl Hn. destruct (Flush_lsm_ok Sum128 CompressBlock UncompressBlock T l mt es Hok Hmt Hf Hl Hn)
    as (T' & l' & E & Hok' & Ht & Hl0 & _ & _ & Ho & _).
  assert (tables T (search_order (lsm.version l)) = []) as Hnil.
  { apply length_zero_iff_nil. unfold tables. by rewrite length_map, search_order_perm. }
  rewrite Hnil in Ht. exists T', l'. split_and!; [done| |split|done].
  - split; [done| |].
    + intros k. unfold stored. rewrite Ht. cbn. by destruct (assoc _ _ _).
    + rewrite Ht. intros k l1 l2 v1 v2 ->%list_elem_of_singleton ->%list_elem_of_singleton. congruence.
  - rewrite <- search_order_perm. apply (f_equal length) in Ht. unfold tables in Ht. by rewrite length_map in Ht.
  - rewrite Hl0, H0. done.
Qed.

(** ** The invariant of reads *)

Definition applied_writes (d : DB) : list kv := map entry_write (applied (mem d)).

(** The memtables hold [am] over [im] and the tree holds [lm].  Before the first flush the
    tree is empty; from the flush to its end it has the immutable table; afterwards there
    is no immutable table any more. *)
Record read_inv (T : catalog) (am im lm : gmap bytes (option bytes)) (d : DB) : Prop := {
  ri_models : mgr_models (mgr (mem d)) am im;
  ri_holds : holds T (tree d) (fun k => lm !! k);
  ri_size : lsm.BlockSize (lsm.opts (tree d)) = SSTableBlockSize (options d);
  ri_all : am ∪ im ∪ lm = entries_map (applied (mem d)) ∅;
  ri_am : in_writes am (applied_writes d);
  ri_im : in_writes im (applied_writes d);
  ri_stage :
    (stage d = FlushTree /\ manager.flushed (mem d) = [] /\ lm = ∅ /\ small_tree 0 (tree d) /\
      manifest.nextFileNum (compaction.man (lsm.lenv (tree d))) = 1) \/
    (stage d <> FlushTree /\ manager.flushed (mem d) = [] /\ lm = im /\ immutable (mgr (mem d)) <> None /\ small_tree 1 (tree d)) \/
    (stage d = FlushTree /\ manager.flushed (mem d) <> [] /\ immutable (mgr (mem d)) = None /\ small_tree 1 (tree d));
}.

Lemma read_inv_files T am im lm d : read_inv T am im lm d -> compaction.PickCompaction (lsm.version (tree d)) = Ok None.
Proof.
  intros H. assert (length (lsm.version (tree d)) = manifest.MaxLevels) as Hl by apply (ho_ok _ _ _ _ _ (ri_holds _ _ _ _ _ H)).
  destruct (ri_stage _ _ _ _ _ H) as [(_ & _ & _ & Hs & _)|[(_ & _ & _ & _ & Hs)|(_ & _ & _ & Hs)]]; by eapply small_pick; [exact Hs|lia|].
Qed.

(** [c] is what the key [k] has after some of the writes applied, [P0] among them. *)
Definition occurred (P0 : list BatchEntry) (k : bytes) (c : option (option bytes)) (app : list BatchEntry) : Prop :=
  exists p, P0 `prefix_of` p /\ p `prefix_of` app /\ entries_map p ∅ !! k = c.

Lemma occurred_grow P0 k c app app' : occurred P0 k c app -> app `prefix_of` app' -> occurred P0 k c app'.
Proof. intros (p & H1 & H2 & H3) Ha. exists p. split_and!; [done|by etrans|done]. Qed.

(** The read call [id] of the key [k], which began when [P0] had been applied. *)
Record pending (P0 : list BatchEntry) (id : nat) (k : bytes) (am im lm : gmap bytes (option bytes)) (d : DB) : Prop := {
  pe_prefix : P0 `prefix_of` applied (mem d);
  pe_id : (id < next_id d)%nat;
  pe_open : forall r, reads d !! id = Some r -> rkey r = k /\ (forall x, (id, RRead k x) ∉ results d) /\
    (missed r = true -> occurred P0 k (lm !! k) (applied (mem d)) /\
      forall v, am !! k = Some v \/ im !! k = Some v -> occurred P0 k (Some v) (applied (mem d)));
  pe_done : reads d !! id = None -> forall x, (id, RRead k x) ∈ results d -> exists c, occurred P0 k c (applied (mem d)) /\ x = answer c;
}.

(** [tr]: there is such a call. *)
Context (tr : Prop).

Definition reading (P0 : list BatchEntry) (id : nat) (k : bytes) (d : DB) : Prop :=
  exists T am im lm, read_inv T am im lm d /\ (tr -> pending P0 id k am im lm d).

(** A step that changes neither memtables nor tree nor this call. *)
Lemma reading_frame P0 id k d d' :
  reading P0 id k d -> mem d' = mem d -> tree d' = tree d -> options d' = options d -> (stage d' = FlushTree <-> stage d = FlushTree) ->
  (next_id d <= next_id d')%nat -> (tr -> (id < next_id d)%nat -> reads d' !! id = reads d !! id) ->
  (tr -> (id < next_id d)%nat -> forall x, (id, RRead k x) ∈ results d' -> (id, RRead k x) ∈ results d) -> reading P0 id k d'.
Proof.
  intros (T & am & im & lm & [R1 R2 R3 R4 R5 R6 R7] & HP) Hm Ht Ho Hs Hn Hr Hres. exists T, am, im, lm. split.
  - split; unfold applied_writes; rewrite ?Hm, ?Ht, ?Ho; try done. by rewrite Hs.
  - intros Htr. destruct (HP Htr) as [P1 P2 P3 P4]. specialize (Hr Htr P2). specialize (Hres Htr P2). split; rewrite ?Hm, ?Hr; [done|lia| |]; [intros r E|intros E x Hx; auto].
    destruct (P3 r E) as (A & B & C). split_and!; [done| |done]. intros x Hx%Hres. by apply (B x).
Qed.

Lemma occurred_write P0 k v app dn : P0 `prefix_of` app -> (k, v) ∈ map entry_write dn -> occurred P0 k (Some v) (app ++ dn).
Proof.
  intros HP (e & He & Hin)%list_elem_of_fmap. apply list_elem_of_split in Hin as (l1 & l2 & ->). exists (app ++ l1 ++ [e]). split_and!.
  - destruct HP as [x ->]. rewrite <- (assoc_L (++)). by eexists.
  - exists l2. by rewrite <- !(assoc_L (++)).
  - rewrite !entries_map_app. unfold entries_map at 1, writes_map. cbn [map foldl]. rewrite <- He. cbn. by rewrite lookup_insert_eq.
Qed.

Lemma same_immutable m m' am im am' im' :
  mgr_models m am im -> mgr_models m' am' im' -> immutable m' = immutable m -> im' = im.
Proof.
  intros (_ & _ & _ & H1) (_ & _ & _ & H2) Hi. rewrite Hi in H2. destruct (immutable m); [by eapply models_unique|congruence].
Qed.

(** A writer runs in the manager. *)
Lemma reading_task P0 id k d t m' rest dn ready' :
  reading P0 id k d -> manager.flushed (mem d) = [] -> wrote_to (mgr (mem d)) m' dn ->
  reading P0 id k (set_mem (after_task t m' rest dn ready' (mem d)) d).
Proof.
  intros (T & am & im & lm & [R1 R2 R3 R4 R5 R6 R7] & HP) Hfl [W1 W2 _ _ _].
  destruct (W1 am im R1) as (am' & im' & Hm & Heq & F).
  assert (forall k v, am' !! k = Some v \/ im' !! k = Some v -> (k, v) ∈ applied_writes d ++ map entry_write dn) as Hin.
  { intros k' v Hv. apply elem_of_app. destruct (F k' v Hv) as [|[|]]; auto. }
  assert (applied (mem d) `prefix_of` applied (mem d) ++ dn) as Hp by by eexists.
  exists T, am', im', lm. split.
  - split; unfold applied_writes in *; cbn -[entries_map entry_write]; try done.
    + by rewrite Heq, <- entries_map_union, R4, entries_map_app.
    + rewrite map_app. intros k' v Hv. apply Hin. by left.
    + rewrite map_app. intros k' v Hv. apply Hin. by right.
    + destruct R7 as [?|[(A & B & C & D & E)|(_ & B & _)]]; [by left| |done]. right. left. destruct (W2 D) as [Hi _].
      rewrite Hi, (same_immutable _ _ _ _ _ _ R1 Hm Hi). done.
  - intros Htr. destruct (HP Htr) as [P1 P2 P3 P4]. split; cbn -[entries_map entry_write]; [by etrans|done| |].
    + intros r E. destruct (P3 r E) as (A & B & C). split_and!; [done..|]. intros Hms. destruct (C Hms) as [C1 C2].
      split; [by eapply occurred_grow|]. intros v Hv. destruct (F k v Hv) as [|[|]]; [eapply occurred_grow; [apply C2|done]; auto..|].
      by apply occurred_write.
    + intros E x Hx. destruct (P4 E x Hx) as (c & Hc & ->). exists c. split; [by eapply occurred_grow|done].
Qed.

(** The flush goroutine moves, or the manager is stopped. *)
Lemma reading_flusher P0 id k d m :
  reading P0 id k d -> active (mgr m) = active (mgr (mem d)) -> immutable (mgr m) = immutable (mgr (mem d)) -> msize (mgr m) = msize (mgr (mem d)) ->
  applied m = applied (mem d) -> manager.flushed m = manager.flushed (mem d) -> reading P0 id k (set_mem m d).
Proof.
  intros (T & am & im & lm & [R1 R2 R3 R4 R5 R6 R7] & HP) Ha Hi Hs Hap Hf. exists T, am, im, lm.
  split; [split|intros Htr; destruct (HP Htr) as [P1 P2 P3 P4]; split]; unfold applied_writes in *; cbn -[entries_map entry_write]; rewrite ?Hap, ?Hi, ?Hf; try done. unfold mgr_models. by rewrite Ha, Hi, Hs.
Qed.

Lemma mem_flusher_fields e s s' : (match e with ESignal | ELast | EStop => true | _ => false end) = true -> manager.step coin e s = Ok s' ->
  active (mgr s') = active (mgr s) /\ immutable (mgr s') = immutable (mgr s) /\ msize (mgr s') = msize (mgr s) /\
  applied s' = applied s /\ manager.flushed s' = manager.flushed s.
Proof. intros He E. destruct e; try done; cbn [manager.step] in E; repeat case_match; simplify_eq; done. Qed.

(** The end of a flush. *)
Lemma reading_flushed P0 id k d m :
  reading P0 id k d -> stage d = Returned -> manager.step coin EFlushOk (mem d) = Ok m -> reading P0 id k (set_stage FlushTree (set_mem m d)).
Proof.
  intros (T & am & im & lm & [R1 R2 R3 R4 R5 R6 R7] & HP) Hst E. cbn in E. destruct (fl (mem d)) as [|imm b|]; try done. injection E as <-.
  destruct R7 as [(? & _)|[(_ & B & C & D & F)|(? & _)]]; [congruence| |congruence]. exists T, am, ∅, lm. split.
  - split; unfold applied_writes in *; cbn -[entries_map entry_write]; try done.
    + destruct R1 as (A1 & A2 & A3 & _). by split_and!.
    + rewrite <- R4, C, (right_id_L ∅ (∪)). by rewrite <- (assoc_L (∪)), (idemp_L (∪)).
    + right. right. split_and!; try done. by rewrite B.
  - intros Htr. destruct (HP Htr) as [P1 P2 P3 P4]. split; cbn -[entries_map entry_write]; try done. intros r E. destruct (P3 r E) as (A & A' & G). split_and!; [done..|]. intros Hms. destruct (G Hms) as [G1 G2].
    split; [done|]. intros v [Hv|Hv]; [auto|]. by rewrite lookup_empty in Hv.
Qed.

(** The flush of the immutable table. *)
Lemma reading_flush P0 id k d d' imm b :
  reading P0 id k d -> sys_inv (mem d) -> fl (mem d) = Busy imm b -> stage d = FlushTree ->
  Forall (fits (SSTableBlockSize (options d))) (applied_writes d) -> len (blk_data (applied_writes d)) < 2 ^ 40 ->
  flush_tree Sum128 CompressBlock coin imm d = Ok d' -> reading P0 id k d'.
Proof.
  intros (T & am & im & lm & [R1 R2 R3 R4 R5 R6 R7] & HP) Hs Hfl Hst Hfits Hlen E.
  pose proof (si_busy _ Hs imm b Hfl) as Hi. destruct R7 as [(_ & B & C & D & Hn)|[(? & _)|(_ & _ & F & _)]]; [|done|congruence]. subst lm.
  assert (models imm im) as Him by (destruct R1 as (_ & _ & _ & R1); by rewrite Hi in R1).
  destruct (models_listed imm im Him) as (es & Hes & Hl).
  assert (forall e, e ∈ es -> e ∈ applied_writes d) as Hsub by (intros [k' v] He; by apply R6, (lists_elem es)).
  destruct (flush_empty T (tree d) imm es) as (T' & l' & Ef & Hh & Hsm & Ho); try done.
  - rewrite R3, Forall_forall in *. auto.
  - eapply Z.le_lt_trans; [|exact Hlen].
    assert (forall l : list kv, len (blk_data l) = sum (fun e => len (sstable.entry_bytes e.1 e.2)) l) as Hsum.
    { intros l. induction l as [|e l IH]; [done|]. unfold blk_data in *. cbn [map concat sum foldr]. rewrite len_app, IH. done. }
    rewrite !Hsum. apply sum_sub; [intros e; apply len_nonneg|apply ksorted_nodup, Hl|done].
  - rewrite Hn. done.
  - unfold flush_tree in E. rewrite Ef in E. injection E as <-. exists T', am, im, im. split.
    + split; cbn -[entries_map entry_write]; try done.
      * destruct Hh as [A1 A2 A3]. split; [done| |done]. intros k'. rewrite A2. apply Hl.
      * by rewrite Ho.
      * by rewrite <- R4, (right_id_L ∅ (∪)), <- (assoc_L (∪)), (idemp_L (∪)).
      * right. left. by rewrite Hi.
    + intros Htr. destruct (HP Htr) as [P1 P2 P3 P4]. split; cbn -[entries_map entry_write]; try done. intros r E. destruct (P3 r E) as (A & A' & G). split_and!; [done..|]. intros Hms. destruct (G Hms) as [G1 G2].
      split; [|done]. destruct (im !! k) as [v|] eqn:Ek; [apply G2; by right|]. by rewrite lookup_empty in G1.
Qed.

(** ** The steps of a read *)

Lemma contents_now T am im lm d k : read_inv T am im lm d -> entries_map (applied (mem d)) ∅ !! k = (am ∪ im ∪ lm) !! k.
Proof. intros H. by rewrite <- (ri_all _ _ _ _ _ H). Qed.

(** The call returns. *)
Lemma pending_return P0 id k am im lm d d' c r :
  pending P0 id k am im lm d -> reads d !! id = Some r -> occurred P0 k c (applied (mem d)) -> mem d' = mem d -> next_id d' = next_id d ->
  reads d' = delete id (reads d) -> results d' = results d ++ [(id, RRead k (answer c))] -> pending P0 id k am im lm d'.
Proof.
  intros [P1 P2 P3 P4] Er Hc Hm Hn Hr Hres. destruct (P3 r Er) as (_ & B & _). split; rewrite ?Hm, ?Hn, ?Hr; [done|done| |].
  - intros r'. by rewrite lookup_delete_eq.
  - intros _ x. rewrite Hres. intros [Hx|[= ->]%list_elem_of_singleton]%elem_of_app; [by destruct (B x)|]. by exists c.
Qed.

Lemma other_result id id' k k' x r (res : list (nat * result)) :
  id' <> id -> (id, RRead k x) ∈ res ++ [(id', RRead k' r)] -> (id, RRead k x) ∈ res.
Proof. intros Hne [?|[= -> _ _]%list_elem_of_singleton]%elem_of_app; [done|done]. Qed.

Lemma reading_mem P0 id k d d' id' r :
  reading P0 id k d -> reads d !! id' = Some r -> Get_mem id' (rkey r) d = Ok d' -> reading P0 id k d'.
Proof.
  intros Hr Er E. destruct (decide (id' = id)) as [->|Hne].
  2:{ unfold Get_mem in E. apply bind_ok in E as ([v []] & _ & [= <-]); apply (reading_frame P0 id k d); try done; cbn.
      - intros _ _. by rewrite lookup_delete_ne.
      - intros _ _ x. by apply other_result.
      - intros _ _. by rewrite lookup_insert_ne. }
  destruct Hr as (T & am & im & lm & R & HP). exists T, am, im, lm. split; [unfold Get_mem in E; inv_db_step; by destruct R; split|].
  intros Htr. specialize (HP Htr) as P. destruct (pe_open _ _ _ _ _ _ _ P r Er) as (Hk & B & _). rewrite Hk in E.
  pose proof (contents_now _ _ _ _ _ k R) as Hnow. rewrite lookup_union in Hnow.
  assert (forall c, entries_map (applied (mem d)) ∅ !! k = c -> occurred P0 k c (applied (mem d))) as Hocc.
  { intros c Hc. exists (applied (mem d)). split_and!; [apply P|done|done]. }
  unfold Get_mem in E. rewrite (Get_mgr_models _ _ _ k (ri_models _ _ _ _ _ R)) in E.
  destruct ((am ∪ im) !! k) as [v|] eqn:Ev; cbn in E; injection E as <-.
  - eapply (pending_return _ _ _ _ _ _ d _ (Some v)); try done. apply Hocc. rewrite Hnow. by rewrite union_Some_l.
  - rewrite (left_id_L None (∪)) in Hnow. destruct P as [P1 P2 P3 P4]. split; cbn -[entries_map]; try done.
    + intros r'. rewrite lookup_insert_eq. intros [= <-]. cbn. split_and!; [done|done|]. intros _. split; [by apply Hocc|].
      apply lookup_union_None in Ev as [Ea Ei]. intros v [|]; congruence.
    + by rewrite lookup_insert_eq.
Qed.

Lemma read_inv_tree T am im lm d t :
  read_inv T am im lm d -> holds T t (fun k => lm !! k) -> lsm.version t = lsm.version (tree d) -> lsm.opts t = lsm.opts (tree d) ->
  manifest.nextFileNum (compaction.man (lsm.lenv t)) = manifest.nextFileNum (compaction.man (lsm.lenv (tree d))) -> read_inv T am im lm (set_tree t d).
Proof.
  intros [R1 R2 R3 R4 R5 R6 R7] Hh Hv Ho Hn. split; cbn -[entries_map]; try done; [by rewrite Ho|].
  unfold small_tree, lsm.l0_count in *. rewrite Hv, Hn. done.
Qed.

Lemma reading_tree P0 id k d d' id' r :
  reading P0 id k d -> reads d !! id' = Some r -> missed r = true -> Get_tree Sum128 UncompressBlock id' (rkey r) d = Ok d' -> reading P0 id k d'.
Proof.
  intros (T & am & im & lm & R & HP) Er Hms E. destruct (ri_holds _ _ _ _ _ R) as [Hok Hm Ha].
  destruct (Get_lsm_ok Sum128 CompressBlock UncompressBlock T (tree d) (rkey r) Hok) as (c & Et & Hc).
  set (t := lsm.set_env _ (tree d)) in Et.
  assert (read_inv T am im lm (set_tree t d)) as R'.
  { apply read_inv_tree; try done. split; [|done|done]. by apply lsm_ok_cache. }
  assert (d' = return_read id' (rkey r) (answer (lm !! rkey r)) (set_tree t d)) as ->.
  { unfold Get_tree in E. rewrite Et, Hm in E. destruct (lm !! rkey r); by injection E as <-. }
  exists T, am, im, lm. split; [by destruct R'; split|]. intros Htr. specialize (HP Htr) as P. destruct (decide (id' = id)) as [->|Hne].
  - destruct (pe_open _ _ _ _ _ _ _ P r Er) as (Hk & B & G). rewrite Hk. eapply (pending_return _ _ _ _ _ _ d _ (lm !! k) r); try done. by apply G.
  - destruct P as [P1 P2 P3 P4]. split; cbn -[entries_map]; try done; rewrite lookup_delete_ne by done.
    + intros r' E'. destruct (P3 r' E') as (A & B & G). split_and!; [done| |done]. intros x Hx%other_result; [by destruct (B x)|done].
    + intros E' x Hx%other_result; [auto|done].
Qed.

Lemma reading_close P0 id k d :
  reading P0 id k d -> reading P0 id k (finish_close d).
Proof.
  intros Hr. unfold finish_close. assert (exists cs, (close_wal d).1 = set_committers cs d) as [cs Hcs].
  { unfold close_wal. destruct (last (committers d)); [destruct (close_writer _)|exists (committers d)]; [by eexists|by destruct d]. }
  destruct (close_wal d) as [d1 x]. cbn in Hcs. subst d1. cbn [tree set_committers]. destruct Hr as (T & am & im & lm & R & P).
  destruct (ri_holds _ _ _ _ _ R) as [Hok Hm Ha]. pose proof (lo_faults _ _ _ _ Hok) as [_ Hf].
  assert (lsm.Close (tree d) = (tree d, false)) as ->.
  { unfold lsm.Close, manifest.Close, file_close. rewrite Hf. by destruct (tree d) as [[? [] ? ? ?] ? ? ? ? ? ?]. }
  apply (reading_frame P0 id k (set_tree (tree d) d)); try done; cbn -[entries_map]; [|lia|].
  - exists T, am, im, lm. by destruct d.
  - intros _ _ y. by intros [?|[=]%list_elem_of_singleton]%elem_of_app.
Qed.

(** While a call is applied there has been no rotation. *)
Lemma no_flush d : db_inv d -> (exists gc es, committers d !! 0%nat = Some gc /\ group_commit.stopClosed gc = false /\
    head_ok (length (committers d)) (writes d) (next_id d) (locked d = true) (rotated d) (applied (mem d)) (results d) gc es) ->
  manager.flushed (mem d) = [].
Proof.
  intros _ (gc & es & _ & Hs & Hh). destruct (manager.flushed (mem d)) eqn:E; [done|].
  rewrite (hd_rot _ _ _ _ _ _ _ _ _ Hh) in Hs; [done|]. left. right. right. by rewrite E.
Qed.

Lemma reading_answer P0 id k d d' id' w :
  reading P0 id k d -> db_inv d -> call_in Sent id' d = Some w -> answered coin id' w d = Ok d' -> reading P0 id k d'.
Proof.
  intros Hr H [Ew Hp]%call_in_ok E. unfold answered in E. destruct (reply_to id' d) as [r|] eqn:Er; [|done].
  apply reply_to_ok in Er as (gc & data & Hgc & Hx). destruct r as [[]|e| |]; [|injection E as <-|done..].
  - apply bind_ok in E as (d1 & E & [= <-]). apply mem_step_ok in E as (m & E & ->). cbn [manager.step] in E.
    assert (manager.flushed (mem d) = []) as Hf.
    { apply no_flush; [done|]. destruct (di_head _ H) as (gc' & es & Hgc' & Hh). rewrite Hgc in Hgc'. injection Hgc' as <-.
      exists gc, es. split_and!; [done| |done]. by eapply head_apply. }
    destruct (si_maps _ (di_sys _ H)) as (am & im & _ & Hm & _).
    destruct (run_task_spec coin (id', Entries (wbatch w)) (mem d) (ready (mem d)) am im Hm) as (m' & rest & dn & E' & _ & Hw & _).
    rewrite E in E'. injection E' as ->. by apply (reading_frame P0 id k (set_mem (after_task (id', Entries (wbatch w)) m' rest dn (ready (mem d)) (mem d)) d));
      [apply reading_task|..].
  - apply (reading_frame P0 id k d); try done. cbn. by intros _ _ y [?|[=]%list_elem_of_singleton]%elem_of_app.
Qed.

Lemma reading_resume P0 id k d d' : reading P0 id k d -> db_inv d -> mem_step coin EResume d = Ok d' -> reading P0 id k d'.
Proof.
  intros Hr H (m & E & ->)%mem_step_ok. cbn [manager.step] in E. destruct (ready (mem d)) as [|t ready'] eqn:Er; [done|].
  destruct (to_task _ _ _ (di_tasks _ H) t) as (w & dn0 & Ew & Hp & _); [rewrite Er; set_solver|].
  assert (manager.flushed (mem d) = []) as Hf.
  { apply no_flush; [done|]. destruct (di_head _ H) as (gc & es & Hgc & Hh). exists gc, es. split_and!; [done| |done].
    apply not_true_is_false. intros Hs. by destruct (hd_dead _ _ _ _ _ _ _ _ _ Hh Hs t.1 w Ew). }
  destruct (si_maps _ (di_sys _ H)) as (am & im & _ & Hm & _).
  destruct (run_task_spec coin t (mem d) ready' am im Hm) as (m' & rest & dn & E' & _ & Hw & _). rewrite E in E'. injection E' as ->.
  by apply reading_task.
Qed.

Lemma reading_flusher_step P0 id k d d' e :
  reading P0 id k d -> (match e with ESignal | ELast | EStop => true | _ => false end) = true -> mem_step coin e d = Ok d' -> reading P0 id k d'.
Proof. intros Hr He (m & E & ->)%mem_step_ok. destruct (mem_flusher_fields e _ _ He E) as (A & B & C & D & F). by apply reading_flusher. Qed.

Lemma stop_committer_same d d' : stop_committer d = Ok d' -> exists cs, d' = set_committers cs d.
Proof. intros E. unfold stop_committer in E. inv_db_step. by eexists. Qed.

Lemma rotate_same rf cf d : exists cs l, rotateWAL rf cf d = set_linked l (set_committers cs d).
Proof.
  unfold rotateWAL, close_wal. destruct (last (committers d)) as [gl|]; [destruct (close_writer gl)|]; destruct rf, cf; cbn.
  all: first [by eexists _, (linked d)|by eexists _, _|by exists (committers d), (linked d); destruct d|by exists (committers d), false; destruct d].
Qed.

(** Entries the flush can write. *)
Definition can_flush (d : DB) : Prop :=
  Forall (fits (SSTableBlockSize (options d))) (applied_writes d) /\ len (blk_data (applied_writes d)) < 2 ^ 40.

Lemma reading_step P0 id k d d' e :
  reading P0 id k d -> db_inv d -> can_flush d -> step e d = Ok d' -> reading P0 id k d'.
Proof.
  intros Hr H [Hfit Hlen] E.
  destruct e; cbn [db.step] in E.
  - apply when_ok in E as [_ [= <-]]. unfold WriteBatch. cbn [db.closed set_next]. destruct (db.closed d); apply (reading_frame P0 id k d); try done; cbn; try lia.
    by intros _ _ y [?|[=]%list_elem_of_singleton]%elem_of_app.
  - unfold send in E. inv_db_step. by apply (reading_frame P0 id k d).
  - unfold reject in E. inv_db_step. apply (reading_frame P0 id k d); try done. cbn. by intros _ _ y [?|[=]%list_elem_of_singleton]%elem_of_app.
  - apply on_ok in E as (w & Hw & E). by eapply reading_answer.
  - inv_db_step. apply (reading_frame P0 id k d); try done. cbn. by intros _ _ y [?|[=]%list_elem_of_singleton]%elem_of_app.
  - inv_db_step. by apply (reading_frame P0 id k d).
  - by eapply reading_resume.
  - by apply (reading_flusher_step P0 id k d d' ESignal).
  - by apply (reading_flusher_step P0 id k d d' ELast).
  - destruct (fl (mem d)) as [|imm last0|] eqn:Ef; [done| |done]. apply when_ok in E as [[Hs%bool_decide_eq_true _]%andb_prop E].
    by eapply (reading_flush P0 id k d d' imm last0); [done|apply H|..].
  - apply when_ok in E as [[Hs%bool_decide_eq_true _]%andb_prop E]. apply bind_ok in E as (d1 & [cs ->]%stop_committer_same & [= <-]).
    apply (reading_frame P0 id k d); try done. cbn. by rewrite Hs.
  - apply when_ok in E as [[Hs%bool_decide_eq_true _]%andb_prop [= <-]]. destruct (rotate_same rename_fails create_fails d) as (cs & l & ->).
    apply (reading_frame P0 id k d); try done. cbn. by rewrite Hs.
  - apply when_ok in E as [Hs%bool_decide_eq_true E]. apply bind_ok in E as (d1 & (m & E & ->)%mem_step_ok & [= <-]). by apply reading_flushed.
  - apply when_ok in E as [_ E]. destruct Hr as (T & am & im & lm & R & P). unfold lsm.compact_once in E. rewrite (read_inv_files _ _ _ _ _ R) in E.
    injection E as <-. apply (reading_frame P0 id k d); try done. by exists T, am, im, lm.
  - apply when_ok in E as [_ [= <-]]. unfold Get. cbn [db.closed set_next]. destruct (db.closed d); apply (reading_frame P0 id k d); try done; cbn; try lia.
    + intros _ Hid x Hx. apply (other_result id (next_id d) k k0 x (Err ErrClosed)); [lia|done].
    + intros _ Hid. by rewrite lookup_insert_ne by lia.
  - apply on_ok in E as (r & Er & [_ E]%when_ok). by eapply reading_mem.
  - apply on_ok in E as (r & Er & [[Hms _]%andb_prop E]%when_ok). by eapply reading_tree.
  - destruct (closing d); inv_db_step; apply (reading_frame P0 id k d); try done; cbn; [lia|]. by intros _ _ y [?|[=]%list_elem_of_singleton]%elem_of_app.
  - apply when_ok in E as [_ E]. apply bind_ok in E as (d1 & E & [= <-]). apply (reading_frame P0 id k d1); try done. by apply (reading_flusher_step P0 id k d d1 EStop).
  - apply when_ok in E as [_ E]. destruct (fl (mem d)); try done. apply bind_ok in E as (d1 & [cs ->]%stop_committer_same & [= <-]).
    by apply (reading_frame P0 id k d).
  - apply when_ok in E as [_ [= <-]]. by apply reading_close.
Qed.

End reads.

Section properties.
Context (Sum128 : bytes -> Z * Z).
Context (CompressBlock : bytes -> option bytes) (UncompressBlock : bytes -> Z -> option bytes).
Context `{!Lz4 CompressBlock UncompressBlock}.
Context (coin : nat -> bool).

Abbreviation step := (db.step Sum128 CompressBlock UncompressBlock coin).
Abbreviation run := (db.run Sum128 CompressBlock UncompressBlock coin).
Abbreviation reading := (reading Sum128 CompressBlock).

(** ** What every step keeps *)

Lemma mem_applied e s s' : sys_inv s -> manager.step coin e s = Ok s' -> applied s `prefix_of` applied s'.
Proof.
  intros Hs E. destruct (si_maps _ Hs) as (am & im & _ & Hm & _).
  assert (forall t r, run_task coin t s r = Ok s' -> applied s `prefix_of` applied s') as Hrun.
  { intros t r E'. destruct (run_task_spec coin t s r am im Hm) as (m' & rest & dn & E2 & _). rewrite E' in E2. injection E2 as ->. by exists dn. }
  destruct e; cbn [manager.step] in E; [by eapply Hrun| |..]; repeat case_match; simplify_eq; try done. by eapply Hrun.
Qed.

(** Read calls have ids of their own. *)
Record reads_ok (d : DB) : Prop := {
  ro_ids : forall id r, reads d !! id = Some r -> (id < next_id d)%nat;
  ro_res : forall id k x, (id, RRead k x) ∈ results d -> (id < next_id d)%nat /\ reads d !! id = None;
}.

Lemma reads_ok_frame d d' : reads_ok d -> reads d' = reads d -> (next_id d <= next_id d')%nat ->
  (forall id k x, (id, RRead k x) ∈ results d' -> (id, RRead k x) ∈ results d) -> reads_ok d'.
Proof.
  intros [H1 H2] Hr Hn Hres. split; rewrite ?Hr.
  - intros id r E. specialize (H1 id r E). lia.
  - intros id k x Hx%Hres. rewrite ?Hr. destruct (H2 id k x Hx). split; [lia|done].
Qed.

Lemma reads_ok_return d d' id k x : reads_ok d -> is_Some (reads d !! id) -> reads d' = delete id (reads d) -> next_id d' = next_id d ->
  results d' = results d ++ [(id, RRead k x)] -> reads_ok d'.
Proof.
  intros [H1 H2] [r Er] Hr Hn Hres. split; rewrite ?Hr, ?Hn, ?Hres.
  - intros id' r' [_ E]%lookup_delete_Some. by eapply H1.
  - intros id' k' x' Hx. apply elem_of_app in Hx as [Hx|[= -> _ _]%list_elem_of_singleton].
    + destruct (H2 _ _ _ Hx). split; [done|]. by apply lookup_delete_None; right.
    + split; [by eapply H1|]. by apply lookup_delete_eq.
Qed.

Lemma step_keeps e d d' : db_inv d -> reads_ok d -> step e d = Ok d' ->
  options d' = options d /\ applied (mem d) `prefix_of` applied (mem d') /\ reads_ok d'.
Proof.
  intros H Hr E. assert (forall e m, manager.step coin e (mem d) = Ok m -> applied (mem d) `prefix_of` applied m) as Hap.
  { intros e' m. apply mem_applied, H. }
  destruct e; cbn [db.step] in E;
    unfold send, reject, answered, flush_tree, stop_committer, WriteBatch, rotateWAL, finish_close, close_wal in *;
    cbn [db.closed set_next] in *; inv_db_step; repeat case_match; simplify_eq;
    try (split_and!; [done|first [done|by eapply Hap]|]; eapply reads_ok_frame; [eassumption|done|cbn; lia|cbn; try done];
         by intros ? ? ? [?|[=]%list_elem_of_singleton]%elem_of_app).
  - unfold Get. cbn [db.closed set_next]. destruct Hr as [Hids Hres]. destruct (db.closed d); (split_and!; [done|done|]); split; cbn.
    + intros id r Er. specialize (Hids id r Er). lia.
    + intros id k' x [Hx|[= -> _ _]%list_elem_of_singleton]%elem_of_app; [destruct (Hres _ _ _ Hx); split; [lia|done]|].
      split; [lia|]. destruct (reads d !! next_id d) eqn:Er; [|done]. specialize (Hids _ _ Er). lia.
    + intros id r [[<- _]|[_ Er]]%lookup_insert_Some; [lia|]. specialize (Hids id r Er). lia.
    + intros id k' x Hx. destruct (Hres _ _ _ Hx). split; [lia|]. by rewrite lookup_insert_ne by lia.
  - unfold Get_mem in E. inv_db_step; (split_and!; [done|done|]).
    + by eapply (reads_ok_return d).
    + destruct Hr as [Hids Hres]. split; cbn.
      * intros id' r' [[<- _]|[_ Er]]%lookup_insert_Some; by eapply Hids.
      * intros id' k' x' Hx. destruct (Hres _ _ _ Hx) as [A B]. split; [done|]. rewrite lookup_insert_ne; [done|]. intros ->. congruence.
  - unfold Get_tree in E. inv_db_step; (split_and!; [done|done|]); by eapply (reads_ok_return d).
Qed.

Lemma run_keeps es : forall d d', db_inv d -> reads_ok d -> run es d = Ok d' ->
  options d' = options d /\ applied (mem d) `prefix_of` applied (mem d') /\ reads_ok d'.
Proof.
  induction es as [|e es IH]; intros d d' H Hr E; cbn in E; [by injection E as <-|]. apply bind_ok in E as (d1 & E1 & E).
  destruct (step_keeps e d d1 H Hr E1) as (A & B & C). destruct (IH d1 d') as (A' & B' & C'); [by eapply db_step_inv|done|done|].
  split_and!; [congruence|by etrans|done].
Qed.

Lemma can_flush_before d d' : options d' = options d -> applied (mem d) `prefix_of` applied (mem d') -> can_flush d' -> can_flush d.
Proof.
  unfold can_flush, applied_writes. intros Ho [x ->]. rewrite Ho, map_app, blk_data_app, len_app, Forall_app. intros [[H1 _] H2]. split; [done|].
  pose proof (len_nonneg (blk_data (map entry_write x))). lia.
Qed.

Lemma reading_run tr P0 id k es : forall d d',
  db_inv d -> reads_ok d -> reading tr P0 id k d -> can_flush d' -> run es d = Ok d' -> reading tr P0 id k d'.
Proof.
  induction es as [|e es IH]; intros d d' H Hr Hrd Hf E; [cbn in E; by injection E as <-|].
  destruct (run_keeps (e :: es) d d' H Hr E) as (A & B & _). cbn in E. apply bind_ok in E as (d1 & E1 & E).
  destruct (step_keeps e d d1 H Hr E1) as (_ & _ & C). apply (IH d1 d'); [by eapply db_step_inv|done| |done|done].
  apply (reading_step Sum128 CompressBlock UncompressBlock coin tr P0 id k d d1 e); [done|done| |done]. by apply (can_flush_before d d').
Qed.

(** ** The start *)

Lemma new_small o l : lsm.NewLSMTree o ∅ [] = Ok l -> small_tree 0 l.
Proof. intros [= <-]. done. Qed.

Lemma open_reading o fs rf d P0 id k :
  opts_ok (lsm_options o) -> Open coin o (mkDir fs ∅ []) rf = Ok (Some d) -> db_inv d /\ reads_ok d /\ options d = o /\ reading False P0 id k d.
Proof.
  intros Ho E. apply Open_opened in E as (gc & m & app & t & Hop & Ht). cbn [sst_files manifest_file] in Ht. split; [by eapply opened_inv|].
  destruct Hop as [-> _ (am & im & Hm & _ & Heq & Hfrom)]. split_and!; [|done|].
  - split; cbn; [by intros id' r; rewrite lookup_empty|by intros ? ? ? ?%elem_of_nil].
  - destruct (NewLSMTree_ok Sum128 CompressBlock _ Ho) as (l & El & Hh & Hlo & _ & Hn). rewrite Ht in El. injection El as <-.
    exists (fun _ => Some []), am, im, ∅. split; [|done]. split; unfold applied_writes; cbn -[entries_map]; try done.
    + by rewrite Hlo.
    + by rewrite (right_id_L ∅ (∪)).
    + intros k' v Hv. destruct (Hfrom k' v) as [H|[H|]]; [by left|by rewrite lookup_empty in H..|done].
    + intros k' v Hv. destruct (Hfrom k' v) as [H|[H|]]; [by right|by rewrite lookup_empty in H..|done].
    + left. split_and!; try done. by apply (new_small (lsm_options o)).
Qed.

(** A call of [Get] that has begun, and that has returned. *)
Lemma reading_begun d id k : reads_ok d -> reading False [] 0%nat [] d -> reads d !! id = Some (mkRead k false) -> reading True (applied (mem d)) id k d.
Proof.
  intros Hr (T & am & im & lm & R & _) E. exists T, am, im, lm. split; [done|]. intros _. split; [done|by eapply ro_ids| |congruence].
  intros r' E'. rewrite E in E'. injection E' as <-. split_and!; [done| |done]. intros x Hx. destruct (ro_res _ Hr _ _ _ Hx). congruence.
Qed.

Lemma reading_done d P0 id k r : reads_ok d -> reading True P0 id k d -> (id, RRead k r) ∈ results d ->
  exists p, P0 `prefix_of` p /\ p `prefix_of` applied (mem d) /\ r = answer (entries_map p ∅ !! k).
Proof.
  intros Hr (T & am & im & lm & _ & P) Hx. destruct (pe_done _ _ _ _ _ _ _ (P I) (proj2 (ro_res _ Hr _ _ _ Hx)) r Hx) as (c & (p & P1 & P2 & <-) & ->). by exists p.
Qed.


End properties.

(** ** Witnesses *)

Lemma small_opts_fit : opts_ok (lsm_options small).
Proof. split; vm_compute; reflexivity. Qed.

(** A write whose memtable is flushed, then the beginning of a read of its key. *)
Definition flush_then_read : list event :=
  written 0 (put_of key_a (str "1")) ++ [EvSignal; EvFlush] ++ rotation ++ [EvRead key_a].

Definition read_events : list event := [EvReadMem 1; EvReadTree 1].

Definition one_write : list BatchEntry := [mkEntry OpPut key_a (Some (str "1"))].

Lemma one_write_flushes d : SSTableBlockSize (options d) = SSTableBlockSize small -> applied (mem d) = one_write -> can_flush d.
Proof.
  intros Ho Ha. unfold can_flush, applied_writes. rewrite Ho, Ha. split; [|vm_compute; reflexivity].
  apply (sample_fits key_a (str "1")); vm_compute; reflexivity.
Qed.

(** The database before the read goes on, and after it has returned. *)
Definition read_check (d0 : DB) : bool :=
  match small_run flush_then_read d0 with
  | Ok d1 =>
      bool_decide (reads d1 !! 1%nat = Some (mkRead key_a false)) &&
      match small_run read_events d1 with
      | Ok d2 =>
          match last (results d2) with
          | Some (1%nat, RRead k (Ok v)) => bool_decide (k = key_a) && bool_decide (v = str "1")
          | _ => false
          end && bool_decide (applied (mem d2) = one_write)
      | _ => false
      end
  | _ => false
  end.

Lemma read_check_ok d0 : read_check d0 = true -> exists d1 d2, small_run flush_then_read d0 = Ok d1 /\ reads d1 !! 1%nat = Some (mkRead key_a false) /\
  small_run read_events d1 = Ok d2 /\ (1%nat, RRead key_a (Ok (str "1"))) ∈ results d2 /\ applied (mem d2) = one_write.
Proof.
  unfold read_check. destruct (small_run flush_then_read d0) as [d1| | |]; try done. intros [H1%bool_decide_eq_true H]%andb_prop.
  destruct (small_run read_events d1) as [d2| | |] eqn:E2; try done. apply andb_prop in H as [H H2%bool_decide_eq_true].
  destruct (last (results d2)) as [[[|[|]] [|k [v| | |]|]]|] eqn:El; try done.
  apply andb_prop in H as [->%bool_decide_eq_true ->%bool_decide_eq_true]. exists d1, d2. split_and!; try done.
  rewrite last_lookup in El. by eapply list_elem_of_lookup_2.
Qed.

Lemma sample_read : exists d0 d1 d2, small_open = Ok (Some d0) /\ small_run flush_then_read d0 = Ok d1 /\
  reads d1 !! 1%nat = Some (mkRead key_a false) /\ small_run read_events d1 = Ok d2 /\
  (1%nat, RRead key_a (Ok (str "1"))) ∈ results d2 /\ can_flush d2.
Proof.
  assert (match small_open with Ok (Some d0) => read_check d0 | _ => false end = true) as H by (vm_compute; reflexivity).
  destruct small_open as [[d0|]| | |] eqn:Eo; try discriminate H. apply read_check_ok in H as (d1 & d2 & E1 & Hr & E2 & Hin & Ha).
  exists d0, d1, d2. split; [reflexivity|]. split; [exact E1|]. split; [exact Hr|]. split; [exact E2|]. split; [exact Hin|].
  destruct (open_reading toy_hash toy_compress flat small (mkFS None None []) [] d0 [] 0 [] small_opts_fit Eo) as (H0 & Hr0 & Ho & _).
  destruct (run_keeps toy_hash toy_compress toy_uncompress flat flush_then_read d0 d1 H0 Hr0 E1) as (Ho1 & _ & Hr1).
  destruct (run_keeps toy_hash toy_compress toy_uncompress flat read_events d1 d2 (run_inv _ _ _ _ _ _ _ H0 E1) Hr1 E2) as (Ho2 & _ & _).
  apply one_write_flushes; [congruence|exact Ha].
Qed.


