(* ===== verification/Transport.v ===== *)
(** * The services (internal/transport/server.go, client.go, client_api.go, grpc.go)

    [ClientAPI] answers the clients: it runs a transaction of the transaction manager for
    each call and reads or writes through [StorageClient], whose calls are served by
    [StorageServer] on a storage node.  The server is written against the interface
    [Storage], what it uses of the database.  A call over the network is delivered, or its
    request or its response is lost; [wire] is what the receiver of a message gets of a
    [bytes] field. *)

From S2P Require Import Prelude Order Keys Hlc Txn WalBatch SkipList MemTable Manager Db DbReads.
Import hlc txn wal_batch db.

#[local] Open Scope Z_scope.

(** ** What the server uses of the database *)

Class Storage (S : Type) := {
  kv_WriteBatch : Batch -> S -> S * outcome db_error unit;
  kv_Get : bytes -> S -> S * outcome db_error bytes;
}.

(** What a write that was answered with [r] made of the map [m].  One that did not return
    may have written a part of its entries. *)
Definition wrote (es : list BatchEntry) (r : outcome db_error unit) (m m' : gmap bytes (option bytes)) : Prop :=
  match r with
  | Ok _ => m' = entries_map es m
  | Err _ => m' = m
  | Panic | Fuel => exists p, p `prefix_of` es /\ m' = entries_map p m
  end.

(** A storage that promises to behave as the map [contents] in the states with [inv], as
    long as the entries it is given are [good] and what it has been given is of a size it can
    store, [fits].  A read may fail; a call may crash the storage or not return. *)
Class StorageLaws (S : Type) `{!Storage S} (good : BatchEntry -> Prop) (inv fits : S -> Prop) (contents : S -> gmap bytes (option bytes)) : Prop := {
  law_write : forall b s s' r, Forall good (Entries b) -> inv s -> kv_WriteBatch b s = (s', r) ->
    inv s' /\ (fits s' -> fits s /\ wrote (Entries b) r (contents s) (contents s'));
  law_read : forall k s s' r, inv s -> kv_Get k s = (s', r) ->
    inv s' /\ (fits s' -> fits s /\ contents s' = contents s /\
      match r with Ok _ | Err ErrNotFound => r = answer (contents s !! k) | _ => True end);
}.

Module transport.

(** The status codes, and [Failed] for an error without one. *)
Inductive code := Internal | Aborted | Unimplemented | Unavailable | Failed.

Record WriteBatchRequest := mkWriteReq { Puts : list (bytes * option bytes); Deletes : list bytes }.
Record GetRequest := mkGetReq { GKey : bytes; Timestamp : Z }.
Record GetResponse := mkGetResp { GValue : option bytes; Found : bool }.

Inductive delivery := Delivered | RequestLost | ResponseLost.

(** ** The connection of a [StorageClient]

    [grpc.ClientConn] and its [Close] are parameters; calls are [call] below. *)
Section conn.
Context {Conn : Type} (conn_Close : Conn -> Conn * option code).

Record StorageClient := mkClient { addr : bytes; conn : option Conn }.

Definition client_Close (c : StorageClient) : StorageClient * outcome code unit :=
  match conn c with
  | Some k => let '(k, err) := conn_Close k in (mkClient (addr c) (Some k), match err with None => Ok tt | Some e => Err e end)
  | None => (c, Ok tt)
  end.
End conn.
Arguments StorageClient Conn : clear implicits.

Section services.
Context {S : Type} `{!Storage S} (wire : option bytes -> option bytes).

(** ** StorageServer *)

Definition server_WriteBatch (req : WriteBatchRequest) (s : S) : S * outcome code bool :=
  let batch := foldl (fun b p => wal_batch.Put b p.1 p.2) empty_batch (Puts req) in
  let batch := foldl wal_batch.Delete batch (Deletes req) in
  match kv_WriteBatch batch s with
  | (s, Ok _) => (s, Ok true)
  | (s, Err _) => (s, Err Internal)
  | (s, Panic) => (s, Panic)
  | (s, Fuel) => (s, Fuel)
  end.

(** The timestamp is not used. *)
Definition server_Get (req : GetRequest) (s : S) : S * outcome code GetResponse :=
  match kv_Get (GKey req) s with
  | (s, Ok v) => (s, Ok (mkGetResp (Some v) true))
  | (s, Err ErrNotFound) => (s, Ok (mkGetResp None false))
  | (s, Err _) => (s, Err Internal)
  | (s, Panic) => (s, Panic)
  | (s, Fuel) => (s, Fuel)
  end.

(** [StartGRPCServer]: the server over [s], which goes on in a goroutine of its own. *)
Definition StartGRPCServer (listen_fails : bool) (s : S) : outcome code S := if listen_fails then Err Failed else Ok s.

Definition server_Scan (s : S) : S * outcome code unit := (s, Err Unimplemented).
Definition server_Snapshot (s : S) : S * outcome code bytes := (s, Err Unimplemented).

(** ** StorageClient *)

(** A unary call.  A panic of the handler ends the server, which the client sees as a
    lost connection; a handler that does not return sends no response. *)
Definition call {A} (dl : delivery) (handler : S -> S * outcome code A) (s : S) : S * outcome code A :=
  match dl with
  | RequestLost => (s, Err Unavailable)
  | _ =>
      match handler s, dl with
      | (s, Fuel), _ => (s, Fuel)
      | (s, Panic), _ | (s, _), ResponseLost => (s, Err Unavailable)
      | r, _ => r
      end
  end.

(** [NewStorageClient]: the connection is made with the first call, so that only an address
    that cannot be parsed is an error. *)
Definition NewStorageClient (bad_addr : bool) (s : S) : outcome code S := if bad_addr then Err Failed else Ok s.

(** [puts] in the order in which the map was ranged over. *)
Definition client_WriteBatch (dl : delivery) (puts : list (bytes * option bytes)) (deletes : list bytes) (s : S) : S * outcome code unit :=
  let req := mkWriteReq (map (fun p => (p.1, wire p.2)) puts) deletes in
  match call dl (server_WriteBatch req) s with
  | (s, Ok true) => (s, Ok tt)
  | (s, Ok false) => (s, Err Failed)
  | (s, Err e) => (s, Err e)
  | (s, Panic) => (s, Panic)
  | (s, Fuel) => (s, Fuel)
  end.

Definition client_Get (dl : delivery) (key : bytes) (timestamp : Z) (s : S) : S * outcome code (option bytes * bool) :=
  match call dl (server_Get (mkGetReq key timestamp)) s with
  | (s, Ok res) => (s, Ok (wire (GValue res), Found res))
  | (s, Err e) => (s, Err e)
  | (s, Panic) => (s, Panic)
  | (s, Fuel) => (s, Fuel)
  end.

(** ** ClientAPI *)

Record ClientAPI := mkApi { storage : S; txnMgr : TxnManager }.

Definition NewClientAPI (s : S) (t : TxnManager) : ClientAPI := mkApi s t.

Definition StartClientAPI (listen_fails : bool) (s : S) (t : TxnManager) : outcome code ClientAPI :=
  if listen_fails then Err Failed else Ok (NewClientAPI s t).

Definition with_storage {A} (op : S -> S * outcome code A) (c : ClientAPI) : ClientAPI * outcome code A :=
  let '(s, r) := op (storage c) in (mkApi s (txnMgr c), r).

(** An error of the storage is reported as [Internal]. *)
Definition internal {A} (r : outcome code A) : outcome code A := match r with Err _ => Err Internal | r => r end.

(** [now] is the reading of the clock by [Begin]; the deferred [Abort] comes last. *)
Definition Get (now : Z) (dl : delivery) (key : bytes) (c : ClientAPI) : ClientAPI * outcome code (option bytes * bool) :=
  let '(tm, t) := Begin now (txnMgr c) in
  let '(c, r) := with_storage (client_Get dl key (SnapshotTS t)) (mkApi (storage c) tm) in
  (mkApi (storage c) (Abort t (txnMgr c)), internal r).

(** The transaction of a write, which ends before the storage is called. *)
Definition commit_write (now1 now2 : Z) (key : bytes) (c : ClientAPI) : ClientAPI * outcome code Z :=
  let '(tm, t) := Begin now1 (txnMgr c) in
  let t := AddWrite key t in
  let '(tm, (ts, ok)) := Commit now2 t tm in
  (mkApi (storage c) tm, if (ok : bool) then Ok ts else Err Aborted).

Definition store_put (dl : delivery) (key : bytes) (value : option bytes) (c : ClientAPI) : ClientAPI * outcome code unit :=
  let '(c, r) := with_storage (client_WriteBatch dl [(key, value)] []) c in (c, internal r).
Definition store_delete (dl : delivery) (key : bytes) (c : ClientAPI) : ClientAPI * outcome code unit :=
  let '(c, r) := with_storage (client_WriteBatch dl [] [key]) c in (c, internal r).

Definition Put (now1 now2 : Z) (dl : delivery) (key : bytes) (value : option bytes) (c : ClientAPI) : ClientAPI * outcome code unit :=
  match commit_write now1 now2 key c with
  | (c, Ok _) => store_put dl key value c
  | (c, Err e) => (c, Err e)
  | (c, Panic) => (c, Panic)
  | (c, Fuel) => (c, Fuel)
  end.

Definition Delete (now1 now2 : Z) (dl : delivery) (key : bytes) (c : ClientAPI) : ClientAPI * outcome code unit :=
  match commit_write now1 now2 key c with
  | (c, Ok _) => store_delete dl key c
  | (c, Err e) => (c, Err e)
  | (c, Panic) => (c, Panic)
  | (c, Fuel) => (c, Fuel)
  end.

Definition Scan (c : ClientAPI) : ClientAPI * outcome code unit := (c, Err Unimplemented).

End services.

(** ** GRPCTransport (grpc.go) *)

Section peers.
Context {conn : Type} (NewClient : bytes -> option conn).

(** The connections made so far. *)
Definition GRPCTransport : Type := gmap bytes conn.

Definition getClient (peer : bytes) (t : GRPCTransport) : GRPCTransport * option conn :=
  match t !! peer with
  | Some c => (t, Some c)
  | None => match NewClient peer with
            | Some c => (<[peer := c]> t, Some c)
            | None => (t, None)
            end
  end.

(** [RequestVote] and [AppendEntries] are the methods [rpc] of the connection. *)
Definition peer_call {Req Resp} (rpc : conn -> Req -> outcome code Resp) (peer : bytes) (req : Req) (t : GRPCTransport) : GRPCTransport * outcome code Resp :=
  let '(t, c) := getClient peer t in
  (t, match c with Some c => rpc c req | None => Err Failed end).

(** Every connection is what dialling its peer gives. *)
Definition conns_ok (t : GRPCTransport) : Prop := map_Forall (fun peer c => NewClient peer = Some c) t.

(** Keeping the connections cannot be seen: a call is answered as on a new connection. *)
Lemma peer_call_transparent {Req Resp} (rpc : conn -> Req -> outcome code Resp) peer req t t' r :
  conns_ok t -> peer_call rpc peer req t = (t', r) ->
  conns_ok t' /\ t ⊆ t' /\ r = match NewClient peer with Some c => rpc c req | None => Err Failed end.
Proof.
  intros H. unfold peer_call, getClient. destruct (t !! peer) as [c|] eqn:E.
  - intros [= <- <-]. by rewrite (H _ _ E).
  - destruct (NewClient peer) as [c|] eqn:E2; intros [= <- <-]; [|done].
    split_and!; [by apply map_Forall_insert_2|by apply insert_subseteq|done].
Qed.
End peers.
Arguments ClientAPI S : clear implicits.

End transport.
Import transport.

(** ** The interface the clients see *)

Inductive api_op :=
  | OGet (now : Z) (dl : delivery) (k : bytes)
  | OPut (now1 now2 : Z) (dl : delivery) (k : bytes) (v : option bytes)
  | ODelete (now1 now2 : Z) (dl : delivery) (k : bytes).

Inductive api_answer := AGet (r : outcome code (option bytes * bool)) | AWrite (r : outcome code unit).

Definition op_times_ok (op : api_op) : Prop :=
  match op with
  | OGet now _ _ => time_ok now
  | OPut now1 now2 _ _ _ | ODelete now1 now2 _ _ => time_ok now1 /\ time_ok now2
  end.

Section refinement.
Context {S : Type} `{!Storage S} (good : BatchEntry -> Prop) (inv fits : S -> Prop) (contents : S -> gmap bytes (option bytes)).
Context `{!StorageLaws S good inv fits contents}.
Context (wire : option bytes -> option bytes) (Hgood : forall k v, good (mkEntry OpPut k (wire v)) /\ good (mkEntry OpDelete k None)).

Definition api_step (op : api_op) (c : ClientAPI S) : ClientAPI S * api_answer :=
  match op with
  | OGet now dl k => let '(c, r) := Get wire now dl k c in (c, AGet r)
  | OPut now1 now2 dl k v => let '(c, r) := Put wire now1 now2 dl k v c in (c, AWrite r)
  | ODelete now1 now2 dl k => let '(c, r) := Delete wire now1 now2 dl k c in (c, AWrite r)
  end.

Fixpoint api_run (ops : list api_op) (c : ClientAPI S) : ClientAPI S * list api_answer :=
  match ops with
  | [] => (c, [])
  | op :: ops => let '(c, a) := api_step op c in let '(c, rest) := api_run ops c in (c, a :: rest)
  end.

Definition read_back (x : option (option bytes)) : option bytes * bool :=
  match x with Some (Some v) => (wire (Some v), true) | _ => (wire None, false) end.

(** The map: a call without an error has its effect; a write with an error, or one that
    does not return, may have had it, and no call is aborted. *)
Inductive spec_step (m : gmap bytes (option bytes)) : api_op -> api_answer -> gmap bytes (option bytes) -> Prop :=
  | SGet now dl k : spec_step m (OGet now dl k) (AGet (Ok (read_back (m !! k)))) m
  | SGetFails now dl k : spec_step m (OGet now dl k) (AGet (Err Internal)) m
  | SGetWaits now dl k : spec_step m (OGet now dl k) (AGet Fuel) m
  | SPut now1 now2 dl k v : spec_step m (OPut now1 now2 dl k v) (AWrite (Ok tt)) (<[k := wire v]> m)
  | SPutFails now1 now2 dl k v r m' : r = Err Internal \/ r = Fuel -> m' = m \/ m' = <[k := wire v]> m -> spec_step m (OPut now1 now2 dl k v) (AWrite r) m'
  | SDelete now1 now2 dl k : spec_step m (ODelete now1 now2 dl k) (AWrite (Ok tt)) (<[k := None]> m)
  | SDeleteFails now1 now2 dl k r m' : r = Err Internal \/ r = Fuel -> m' = m \/ m' = <[k := None]> m -> spec_step m (ODelete now1 now2 dl k) (AWrite r) m'.

Inductive spec_run : gmap bytes (option bytes) -> list api_op -> list api_answer -> gmap bytes (option bytes) -> Prop :=
  | SNil m : spec_run m [] [] m
  | SCons m op ops a rest m1 m2 : spec_step m op a m1 -> spec_run m1 ops rest m2 -> spec_run m (op :: ops) (a :: rest) m2.

Lemma spec_put_ok m now1 now2 dl k v m' : spec_step m (OPut now1 now2 dl k v) (AWrite (Ok tt)) m' -> m' = <[k := wire v]> m.
Proof. intros H. inversion H; subst; [done|]. by destruct_or!. Qed.

Lemma spec_get_ok m now dl k x m' : spec_step m (OGet now dl k) (AGet (Ok x)) m' -> x = read_back (m !! k).
Proof. intros H. by inversion H. Qed.

(** ** Transactions of calls one after the other *)

(** No key was committed after the last reading of the clock. *)
Definition tm_ok (n : Z) (t : TxnManager) : Prop :=
  clock_ok n (clock t) /\ forall k cts, latestCommits t !! k = Some cts -> cts <= stamp (clock t).

Lemma begin_ok n now t :
  tm_ok n t -> time_ok now -> n + 1 < 2 ^ 16 ->
  exists t1 tx, Begin now t = (t1, tx) /\ tm_ok (n + 1) t1 /\ writeSet tx = ∅ /\ SnapshotTS tx = stamp (clock t1) /\
    latestCommits t1 = latestCommits t /\ stamp (clock t) < stamp (clock t1).
Proof.
  intros [Hc Hl] Ht Hn. destruct (Now_spec n now (clock t) Ht Hc Hn) as (H1 & H2 & H3). unfold Begin, Begin_clock, Begin_register.
  destruct (Now now (clock t)) as [c ts]. cbn [fst snd] in *. eexists _, _. split; [reflexivity|]. cbn. split_and!; try done.
  split; cbn; [done|]. intros k cts E. specialize (Hl k cts E). lia.
Qed.

Lemma commit_write_ok n now1 now2 k (c : ClientAPI S) :
  tm_ok n (txnMgr c) -> time_ok now1 -> time_ok now2 -> n + 2 < 2 ^ 16 ->
  exists t' ts, commit_write now1 now2 k c = (mkApi (storage c) t', Ok ts) /\ tm_ok (n + 2) t'.
Proof.
  intros Ht H1 H2 Hn. unfold commit_write. destruct (begin_ok n now1 (txnMgr c) Ht H1) as (t1 & tx & -> & Ht1 & Hw & Hs & Hl & Hlt); [lia|].
  unfold Commit. destruct (conflicts (AddWrite k tx) t1) eqn:Ec.
  { apply conflicts_true in Ec as (key & cts & _ & E & Hc). cbn in Hc. rewrite Hl in E. destruct Ht as [_ Ht]. specialize (Ht key cts E). lia. }
  destruct Ht1 as [Hc1 Hl1]. destruct (Now_spec (n + 1) now2 (clock t1) H2 Hc1) as (A1 & A2 & A3); [lia|].
  destruct (Now now2 (clock t1)) as [c2 cts]. cbn [fst snd] in *. eexists _, _. split; [reflexivity|]. split; cbn; [by replace (n + 2) with (n + 1 + 1) by lia|].
  intros k' cts' E. rewrite foldl_insert_lookup in E. case_decide; [injection E as <-; lia|]. specialize (Hl1 k' cts' E). lia.
Qed.

(** ** Calls of the storage *)

Lemma put_entries ps : forall b, Entries (foldl (fun b p => wal_batch.Put b p.1 p.2) b (map (fun p : bytes * option bytes => (p.1, wire p.2)) ps)) =
  Entries b ++ map (fun p => mkEntry OpPut p.1 (wire p.2)) ps.
Proof. induction ps as [|p ps IH]; intros b; cbn [foldl map]; [by rewrite app_nil_r|]. rewrite IH. cbn. by rewrite <- (assoc_L (++)). Qed.

Lemma delete_entries ds : forall b, Entries (foldl wal_batch.Delete b ds) = Entries b ++ map (fun k => mkEntry OpDelete k None) ds.
Proof. induction ds as [|k ds IH]; intros b; cbn [foldl map]; [by rewrite app_nil_r|]. rewrite IH. cbn. by rewrite <- (assoc_L (++)). Qed.

(** What a write over the network made of the map. *)
Definition sent (es : list BatchEntry) (r : outcome code unit) (m m' : gmap bytes (option bytes)) : Prop :=
  r = Ok tt /\ m' = entries_map es m \/
  ((exists e, r = Err e) \/ r = Fuel) /\ exists p, p `prefix_of` es /\ m' = entries_map p m.

Lemma wrote_prefix es r m m' : wrote es r m m' -> exists p, p `prefix_of` es /\ m' = entries_map p m.
Proof. destruct r; cbn -[entries_map]; [intros ->; by exists es|intros ->; exists []; split; [apply prefix_nil|done]|done..]. Qed.

Lemma write_call dl puts deletes s s' r :
  inv s -> client_WriteBatch wire dl puts deletes s = (s', r) -> inv s' /\ (fits s' -> fits s /\
    sent (map (fun p => mkEntry OpPut p.1 (wire p.2)) puts ++ map (fun k => mkEntry OpDelete k None) deletes) r (contents s) (contents s')).
Proof.
  unfold client_WriteBatch, server_WriteBatch. cbn [Puts Deletes]. set (b := foldl wal_batch.Delete _ deletes). intros Hi E.
  replace (_ ++ _) with (Entries b) by (unfold b; by rewrite delete_entries, put_entries).
  assert (Forall good (Entries b)) as Hb.
  { unfold b. rewrite delete_entries, put_entries. apply Forall_app. split; [apply Forall_map, Forall_forall; intros; apply Hgood|].
    apply Forall_map, Forall_forall. intros k _. by apply (Hgood k None). }
  destruct dl; cbn [call] in E.
  2:{ injection E as <- <-. split; [done|]. intros Hf. split; [done|]. right. split; [by eauto|]. exists []. split; [apply prefix_nil|done]. }
  all: destruct (kv_WriteBatch b s) as [s1 x] eqn:Ex; destruct (law_write b s s1 x Hb Hi Ex) as [A B].
  all: destruct x as [[]|e| |]; injection E as <- <-; (split; [done|]); intros [C D]%B; (split; [done|]).
  1: by left.
  all: right; (split; [by eauto|by eapply wrote_prefix]).
Qed.

Lemma read_call_ok dl k ts s s' r :
  inv s -> client_Get wire dl k ts s = (s', r) -> inv s' /\ (fits s' -> fits s /\
    contents s' = contents s /\ (r = Ok (read_back (contents s !! k)) \/ (exists e, r = Err e) \/ r = Fuel)).
Proof.
  unfold client_Get, server_Get. cbn [GKey]. intros Hi E. destruct dl; cbn [call] in E; [|injection E as <- <-; split; [done|]; intros Hf; split_and!; eauto|].
  all: destruct (kv_Get k s) as [s1 x] eqn:Ex; destruct (law_read k s s1 x Hi Ex) as [A B].
  all: destruct x as [v|[]| |]; injection E as <- <-; (split; [done|]); intros (C & D & F)%B; (split_and!; [done..|]); eauto.
  all: left; unfold answer, found in F; destruct (contents s !! k) as [[v'|]|]; cbn in F; simplify_eq; done.
Qed.

Lemma api_write_spec (c : ClientAPI S) t' dl puts deletes c' r :
  inv (storage c) ->
  (let '(c, r) := with_storage (client_WriteBatch wire dl puts deletes) (mkApi (storage c) t') in (c, internal r)) = (c', r) ->
  txnMgr c' = t' /\ inv (storage c') /\ (fits (storage c') -> fits (storage c) /\
  let es := map (fun p => mkEntry OpPut p.1 (wire p.2)) puts ++ map (fun k => mkEntry OpDelete k None) deletes in
  (r = Ok tt /\ contents (storage c') = entries_map es (contents (storage c)) \/
   (r = Err Internal \/ r = Fuel) /\ exists p, p `prefix_of` es /\ contents (storage c') = entries_map p (contents (storage c)))).
Proof.
  unfold with_storage. cbn [storage txnMgr]. intros Hi. destruct (client_WriteBatch wire dl puts deletes (storage c)) as [s x] eqn:E. intros [= <- <-].
  destruct (write_call dl puts deletes _ _ _ Hi E) as [A B]. split_and!; [done..|]. intros Hf.
  destruct (B Hf) as [C [[-> D]|[[[e ->]| ->] D]]]; (split; [done|]); [left|right..]; split; eauto.
Qed.

Lemma prefix_one {A} (p : list A) x : p `prefix_of` [x] -> p = [] \/ p = [x].
Proof. intros [q E]. destruct p as [|y p]; [by left|right]. injection E as <- E. symmetry in E. by apply app_nil in E as [-> _]. Qed.

Lemma api_step_spec n op c c' a :
  tm_ok n (txnMgr c) -> inv (storage c) -> op_times_ok op -> n + 2 < 2 ^ 16 -> api_step op c = (c', a) ->
  tm_ok (n + 2) (txnMgr c') /\ inv (storage c') /\
  (fits (storage c') -> fits (storage c) /\ spec_step (contents (storage c)) op a (contents (storage c'))).
Proof.
  intros Ht Hi Hop Hn E. assert (forall m t, tm_ok m t -> m <= n + 2 -> tm_ok (n + 2) t) as Hweak.
  { intros m t [[A B] C] Hm. split; [split; [done|lia]|done]. }
  destruct op as [now dl k|now1 now2 dl k v|now1 now2 dl k]; cbn [api_step] in E.
  - unfold Get in E. destruct (begin_ok n now (txnMgr c) Ht Hop) as (t1 & tx & Eb & Ht1 & _); [lia|]. rewrite Eb in E.
    unfold with_storage in E. cbn [storage txnMgr] in E. destruct (client_Get wire dl k (SnapshotTS tx) (storage c)) as [s r] eqn:Eg. injection E as <- <-.
    cbn [storage txnMgr] in *. destruct (read_call_ok dl k _ _ _ _ Hi Eg) as [A B].
    split_and!; [apply (Hweak (n + 1)); [|lia]; destruct Ht1; by split|done|]. intros (C & -> & [->|[[e ->]| ->]])%B; (split; [done|]); constructor.
  - unfold Put in E. destruct Hop as [H1 H2]. destruct (commit_write_ok n now1 now2 k c Ht H1 H2 Hn) as (t' & ts & Ec & Ht'). rewrite Ec in E.
    unfold store_put in E. destruct (let '(c, r) := with_storage _ _ in (c, internal r)) as [c1 r] eqn:Ew. injection E as <- <-.
    destruct (api_write_spec c t' dl [(k, v)] [] c1 r Hi Ew) as (-> & A & B). split_and!; [done..|].
    intros [C [[-> Hm]|[Hr (p & [->| ->]%prefix_one & Hm)]]]%B; (split; [done|]); cbn in Hm; rewrite Hm; constructor; auto.
  - unfold Delete in E. destruct Hop as [H1 H2]. destruct (commit_write_ok n now1 now2 k c Ht H1 H2 Hn) as (t' & ts & Ec & Ht'). rewrite Ec in E.
    unfold store_delete in E. destruct (let '(c, r) := with_storage _ _ in (c, internal r)) as [c1 r] eqn:Ew. injection E as <- <-.
    destruct (api_write_spec c t' dl [] [k] c1 r Hi Ew) as (-> & A & B). split_and!; [done..|].
    intros [C [[-> Hm]|[Hr (p & [->| ->]%prefix_one & Hm)]]]%B; (split; [done|]); cbn in Hm; rewrite Hm; constructor; auto.
Qed.

Lemma api_run_spec ops : forall n c c' answers,
  tm_ok n (txnMgr c) -> inv (storage c) -> Forall op_times_ok ops -> n + 2 * len ops < 2 ^ 16 -> api_run ops c = (c', answers) -> fits (storage c') ->
  fits (storage c) /\ spec_run (contents (storage c)) ops answers (contents (storage c')).
Proof.
  induction ops as [|op ops IH]; intros n c c' answers Ht Hi Hops Hn E Hf; cbn [api_run] in E; [injection E as <- <-; split; [done|constructor]|].
  apply Forall_cons in Hops as [Hop Hops]. rewrite len_cons in Hn. pose proof (len_nonneg ops).
  destruct (api_step op c) as [c1 a] eqn:E1. destruct (api_run ops c1) as [c2 rest] eqn:E2. injection E as <- <-.
  destruct (api_step_spec n op c c1 a Ht Hi Hop ltac:(lia) E1) as (Ht1 & Hi1 & Hs).
  destruct (IH (n + 2) c1 c2 rest Ht1 Hi1 Hops ltac:(lia) E2 Hf) as [Hf1 Hrest]. destruct (Hs Hf1) as [Hf0 Hstep]. split; [done|by econstructor].
Qed.

Lemma api_run_inv ops : forall n c c' answers,
  tm_ok n (txnMgr c) -> inv (storage c) -> Forall op_times_ok ops -> n + 2 * len ops < 2 ^ 16 -> api_run ops c = (c', answers) -> inv (storage c').
Proof.
  induction ops as [|op ops IH]; intros n c c' answers Ht Hi Hops Hn E; cbn [api_run] in E; [by injection E as <- <-|].
  apply Forall_cons in Hops as [Hop Hops]. rewrite len_cons in Hn. pose proof (len_nonneg ops).
  destruct (api_step op c) as [c1 a] eqn:E1. destruct (api_run ops c1) as [c2 rest] eqn:E2. injection E as <- <-.
  destruct (api_step_spec n op c c1 a Ht Hi Hop ltac:(lia) E1) as (Ht1 & Hi1 & _). by apply (IH (n + 2) c1 c2 rest Ht1 Hi1 Hops ltac:(lia)).
Qed.

Lemma new_tm_ok : tm_ok 0 (NewTxnManager NewClock).
Proof. split; [apply NewClock_ok|]. intros k cts E. cbn in E. by rewrite lookup_empty in E. Qed.

(** The client API is a map.  Over any storage that behaves as a map, calls of [Get],
    [Put] and [Delete] made one after the other, with requests and responses that may be
    lost, answer as a map: a call that returns without an error had its effect, one with an
    error may have had it, and none is aborted by a conflict. *)
Theorem client_api_refines_map (s : S) (ops : list api_op) (c' : ClientAPI S) (answers : list api_answer)
    (Hs : inv s) (Htimes : Forall op_times_ok ops) (Hlen : 2 * len ops < 2 ^ 16)
    (Hrun : api_run ops (mkApi s (NewTxnManager NewClock)) = (c', answers)) (Hfits : fits (storage c')) :
  spec_run (contents s) ops answers (contents (storage c')).
Proof. eapply (api_run_spec ops 0 (mkApi s (NewTxnManager NewClock))); [exact new_tm_ok|done|done|lia|done|done]. Qed.
End refinement.

(** ** The storage that is a map *)

#[export] Instance map_storage : Storage (gmap bytes (option bytes)) := {
  kv_WriteBatch b m := (entries_map (Entries b) m, Ok tt);
  kv_Get k m := (m, answer (m !! k));
}.

Definition any_map (m : gmap bytes (option bytes)) : Prop := True.
Definition any_entry (e : BatchEntry) : Prop := True.

#[export] Instance map_storage_laws : StorageLaws (gmap bytes (option bytes)) any_entry any_map any_map (fun m => m).
Proof.
  split; cbn -[entries_map].
  - by intros b s s' r _ _ [= <- <-].
  - intros k s s' r _ [= <- <-]. split_and!; try done. intros _. split_and!; try done. unfold answer, found. by destruct (default None (s !! k)).
Qed.

(** An empty [bytes] field of a message is not sent and is [nil] when received. *)
Definition proto_wire (v : option bytes) : option bytes := match v with Some (x :: v) => Some (x :: v) | _ => None end.

Definition api_start : ClientAPI (gmap bytes (option bytes)) := mkApi ∅ (NewTxnManager NewClock).

Definition sample_calls : list api_op := [OPut 5 5 Delivered (str "k") (Some (str "v")); OGet 6 Delivered (str "k"); ODelete 7 8 ResponseLost (str "k")].

Lemma sample_calls_times : Forall op_times_ok sample_calls.
Proof. repeat constructor; cbn; lia. Qed.

Lemma client_api_refines_map_witness : exists c', api_run proto_wire sample_calls api_start =
    (c', [AWrite (Ok tt); AGet (Ok (Some (str "v"), true)); AWrite (Err Internal)]) /\
  spec_run proto_wire ∅ sample_calls [AWrite (Ok tt); AGet (Ok (Some (str "v"), true)); AWrite (Err Internal)] (storage c').
Proof.
  assert ((api_run proto_wire sample_calls api_start).2 = [AWrite (Ok tt); AGet (Ok (Some (str "v"), true)); AWrite (Err Internal)]) as H
    by (vm_compute; reflexivity).
  destruct (api_run proto_wire sample_calls api_start) as [c' answers] eqn:E. cbn [snd] in H. subst answers. exists c'. split; [reflexivity|].
  exact (client_api_refines_map any_entry any_map any_map (fun m => m) proto_wire (fun _ _ => conj I I) ∅ sample_calls c' _ I sample_calls_times ltac:(vm_compute; reflexivity) E I).
Defined.

(** The storage may disagree with the order of the commits.  Two writes of a key
    commit, the second later than the first; the storage gets the second write first, and
    from then on reads give the value of the first. *)
Theorem late_write_wins :
  let '(c1, r1) := commit_write 5 6 (str "k") api_start in
  let '(c2, r2) := commit_write 7 8 (str "k") c1 in
  let '(c3, r3) := store_put proto_wire Delivered (str "k") (Some (str "second")) c2 in
  let '(c4, r4) := store_put proto_wire Delivered (str "k") (Some (str "first")) c3 in
  (exists ts1 ts2, r1 = Ok ts1 /\ r2 = Ok ts2 /\ ts1 < ts2) /\ r3 = Ok tt /\ r4 = Ok tt /\
  (Get proto_wire 9 Delivered (str "k") c4).2 = Ok (Some (str "first"), true).
Proof. vm_compute. split_and!; try reflexivity. eexists _, _. split_and!; reflexivity. Qed.
