(* ===== verification/Node.v ===== *)
(** * A storage node

    The database as the storage behind the services: a call of the server is a call of the
    database, which goes on in steps among those of the committers, of the flush goroutine
    and of compactions.  A node has a plan for each coming call: the steps that are tried
    before the call begins and after it, in any number and order; a step that cannot be
    made is passed over.  Whatever the plans are, a node keeps the laws of [Storage], and
    so the client API over a database is a map. *)

From S2P Require Import Prelude Order Keys Files WalBatch WalLog WalRecovery GroupCommit SkipList MemTable Manager.
From S2P Require Import Hlc Txn Bloom Cache SSTable SSTableSpec Manifest Heap MergeIter Compaction CompactionSpec Limits Levels.
From S2P Require Import Lsm LsmSpec LsmRefine Db DbSpec DbReads Transport.
Import hlc txn wal_batch manager db transport.

#[local] Open Scope Z_scope.

(** Steps that begin no call. *)
Definition background (e : event) : bool :=
  match e with EvWrite _ | EvRead _ | EvClose => false | _ => true end.

(** [Waiting]: the call in progress has not returned; [Crashed]: a goroutine panicked. *)
Inductive status := Running | Waiting | Crashed.

Definition plan : Type := list event * list event.

Record node := mkNode { node_db : DB; plans : list plan; node_status : status }.

(** The answer to call [id]. *)
Definition reply (id : nat) (d : DB) : option result := snd <$> find (fun x => (x.1 =? id)%nat) (results d).

Section node.
Context (Sum128 : bytes -> Z * Z).
Context (CompressBlock : bytes -> option bytes) (UncompressBlock : bytes -> Z -> option bytes).
Context (coin : nat -> bool).

Abbreviation step := (db.step Sum128 CompressBlock UncompressBlock coin).
Abbreviation run := (db.run Sum128 CompressBlock UncompressBlock coin).

(** Tries the steps one after the other; [true] when one of them crashed. *)
Fixpoint play (es : list event) (d : DB) : DB * bool :=
  match es with
  | [] => (d, false)
  | e :: es =>
      match step e d with
      | Ok d => play es d
      | Err _ => play es d
      | Panic | Fuel => (d, true)
      end
  end.

(** A call that begins with the step [e]. *)
Definition serve (e : event) (n : node) : node * outcome unit result :=
  match node_status n, plans n with
  | Crashed, _ => (n, Panic)
  | Waiting, _ | Running, [] => (mkNode (node_db n) (plans n) Waiting, Fuel)
  | Running, (before, after) :: ps =>
      match play (List.filter background before ++ e :: List.filter background after) (node_db n) with
      | (d, true) => (mkNode d ps Crashed, Panic)
      | (d, false) =>
          match reply (next_id (node_db n)) d with
          | Some r => (mkNode d ps Running, Ok r)
          | None => (mkNode d ps Waiting, Fuel)
          end
      end
  end.

Definition node_WriteBatch (b : Batch) (n : node) : node * outcome db_error unit :=
  match serve (EvWrite b) n with
  | (n, Ok (RWrite _ r)) => (n, r)
  | (n, Panic) => (n, Panic)
  | (n, _) => (n, Fuel)
  end.

Definition node_Get (k : bytes) (n : node) : node * outcome db_error bytes :=
  match serve (EvRead k) n with
  | (n, Ok (RRead _ r)) => (n, r)
  | (n, Panic) => (n, Panic)
  | (n, _) => (n, Fuel)
  end.

(** [Close] of the database. *)
Definition node_Close (n : node) : node * outcome db_error unit :=
  match serve EvClose n with
  | (n, Ok (RClose r)) => (n, r)
  | (n, Panic) => (n, Panic)
  | (n, _) => (n, Fuel)
  end.

#[local] Instance node_storage : Storage node := {
  kv_WriteBatch := node_WriteBatch;
  kv_Get := node_Get;
}.

(** ** Runs of a plan *)

Lemma play_run es : forall d d' c, play es d = (d', c) -> exists es', es' `sublist_of` es /\ run es' d = Ok d'.
Proof.
  induction es as [|e es IH]; intros d d' c E; cbn in E; [injection E as <- _; by exists []|].
  destruct (step e d) as [d1|[]| |] eqn:E1.
  - destruct (IH _ _ _ E) as (es' & Hs & Hr). exists (e :: es'). split; [by apply sublist_skip|]. cbn. by rewrite E1.
  - destruct (IH _ _ _ E) as (es' & Hs & Hr). exists es'. split; [by apply sublist_cons|done].
  - injection E as <- _. exists []. split; [apply sublist_nil_l|done].
  - injection E as <- _. exists []. split; [apply sublist_nil_l|done].
Qed.

Definition quiet (es : list event) : Prop := Forall (fun e => background e = true) es.

Lemma quiet_filter es : quiet (List.filter background es).
Proof. apply Forall_forall. by intros e [_ H]%list_elem_of_In%filter_In. Qed.

Lemma quiet_sublist es es' : es' `sublist_of` es -> quiet es -> quiet es'.
Proof. intros Hs. unfold quiet. rewrite !Forall_forall. intros H e He. by eapply H, elem_of_sublist. Qed.

(** The call began, or did not. *)
Lemma serve_run before e after d d' c :
  play (List.filter background before ++ e :: List.filter background after) d = (d', c) ->
  exists es1 es2, quiet es1 /\ quiet es2 /\ (run es1 d = Ok d' \/ exists d1 d2, run es1 d = Ok d1 /\ step e d1 = Ok d2 /\ run es2 d2 = Ok d').
Proof.
  intros (es & Hs & Hr)%play_run. apply sublist_app_r in Hs as (l1 & l2 & -> & H1 & H2).
  pose proof (quiet_sublist _ _ H1 (quiet_filter before)) as Q1. apply sublist_cons_r in H2 as [H2|(l3 & -> & H2)];
    pose proof (quiet_sublist _ _ H2 (quiet_filter after)) as Q2.
  - exists (l1 ++ l2), []. split_and!; [by apply Forall_app|by constructor|by left].
  - exists l1, l3. split_and!; [done..|]. right. rewrite run_app in Hr. apply bind_ok in Hr as (d1 & Hr1 & Hr).
    cbn in Hr. apply bind_ok in Hr as (d2 & Hr2 & Hr). eauto.
Qed.

(** ** Steps between calls *)

(** The database is open, and answers are of calls that have begun. *)
Record calm (d : DB) : Prop := {
  ca_open : closing d = NotClosing /\ db.closed d = false;
  ca_ids : forall x, x ∈ results d -> (x.1 < next_id d)%nat;
}.

Lemma calm_frame d d' : calm d -> closing d' = closing d -> db.closed d' = db.closed d -> next_id d' = next_id d ->
  (results d' = results d \/ exists x, results d' = results d ++ [x] /\ (x.1 < next_id d)%nat) -> calm d' /\ next_id d' = next_id d.
Proof.
  intros [H1 H2] Hc Hd Hn Hr. split; [|done]. split; rewrite ?Hc, ?Hd, ?Hn; [done|]. destruct Hr as [->|(x & -> & Hx)]; [done|].
  intros y [?| ->%list_elem_of_singleton]%elem_of_app; [by apply H2|done].
Qed.

Lemma calm_step e d d' : db_inv d -> reads_ok d -> calm d -> background e = true -> step e d = Ok d' -> calm d' /\ next_id d' = next_id d.
Proof.
  intros H Hr Hc Hb E. destruct (ca_open _ Hc) as [Hcl _].
  assert (forall p id w, call_in p id d = Some w -> (id < next_id d)%nat) as Hw.
  { intros p id w [Ew _]%call_in_ok. by eapply (to_ids _ _ _ (di_tasks _ H)). }
  destruct e; try done; cbn [db.step] in E; rewrite ?Hcl in E;
    unfold send, reject, answered, flush_tree, stop_committer, Get_mem, Get_tree in E; inv_db_step; try done.
  all: try (apply (calm_frame d); [done|done|done|done|]; cbn; first [by left|right; eexists; split; [reflexivity|]; cbn; first [by eapply Hw|by eapply (ro_ids _ Hr)]]).
  destruct (rotate_same rename_fails create_fails d) as (cs & l & ->). by apply (calm_frame d); [..|left].
Qed.

(** Without a write call nothing is applied. *)
Lemma idle_step e d d' : db_inv d -> calm d -> background e = true -> writes d = ∅ -> step e d = Ok d' ->
  writes d' = ∅ /\ applied (mem d') = applied (mem d).
Proof.
  intros H Hc Hb Hw E. destruct (ca_open _ Hc) as [Hcl _]. destruct (no_writes d H Hw) as [Hcall Hready].
  assert (forall e m, (match e with manager.EWrite _ _ => false | _ => true end) = true -> manager.step coin e (mem d) = Ok m -> applied m = applied (mem d)) as Hmem.
  { intros e' m He Em. destruct e'; try done; cbn [manager.step] in Em; rewrite ?Hready in Em; repeat case_match; simplify_eq; done. }
  destruct e; try done; cbn [db.step] in E; rewrite ?Hcall, ?Hcl in E;
    unfold flush_tree, stop_committer, Get_mem, Get_tree in E; inv_db_step; try done.
  all: try (split; [done|]; cbn; by eapply Hmem; [|eassumption]).
  destruct (rotate_same rename_fails create_fails d) as (cs & l & ->). done.
Qed.

(** ** The only write call *)

(** What the answer [r] of a write call says of what it has written and what is left. *)
Definition wrote_by (r : outcome db_error unit) (dn rest : list BatchEntry) : Prop :=
  match r with Ok _ => rest = [] | Err _ => dn = [] | _ => False end.

(** Call [id] that writes [b], begun when [base] had been applied: it has written [dn], and
    [rest] is left. *)
Record sole (id : nat) (b : Batch) (base : list BatchEntry) (d : DB) : Prop := {
  so_only : forall id' w, writes d !! id' = Some w -> id' = id /\ wbatch w = b;
  so_reads : forall r, reads d !! id <> Some r;
  so_state : exists dn rest, Entries b = dn ++ rest /\ applied (mem d) = base ++ dn /\
    match writes d !! id with
    | None => forall x, (id, x) ∈ results d -> exists r, x = RWrite b r /\ wrote_by r dn rest
    | Some w => (forall x, (id, x) ∉ results d) /\
        match wphase w with
        | Applying => rest = [] /\ id ∈ finished (mem d) \/ id ∉ finished (mem d) /\ forall t, t ∈ blocked (mem d) ++ ready (mem d) -> t.2 = rest
        | _ => dn = []
        end
    end;
}.

Lemma sole_frame id b base d d' :
  sole id b base d -> writes d' = writes d -> (forall r, reads d' !! id = Some r -> exists r', reads d !! id = Some r') ->
  (forall x, (id, x) ∈ results d' -> (id, x) ∈ results d) -> applied (mem d') = applied (mem d) -> finished (mem d') = finished (mem d) ->
  (forall t, t ∈ blocked (mem d') ++ ready (mem d') -> t ∈ blocked (mem d) ++ ready (mem d)) -> sole id b base d'.
Proof.
  intros [H1 H2 (dn & rest & H3 & H4 & H5)] Hw Hr Hres Ha Hf Ht. split; rewrite ?Hw; [done| |].
  - intros r [r' E]%Hr. by eapply H2.
  - exists dn, rest. rewrite ?Ha, ?Hf. split_and!; [done..|]. destruct (writes d !! id) as [w|]; [|by auto].
    destruct H5 as [A B]. split; [intros x Hx%Hres; by eapply A|]. destruct (wphase w); try done. destruct B as [B|[B1 B2]]; [by left|right; auto].
Qed.

Lemma sole_call id b base d p id' w : sole id b base d -> call_in p id' d = Some w -> id' = id /\ wbatch w = b.
Proof. intros H [E _]%call_in_ok. by eapply so_only. Qed.

(** The call returns. *)
Lemma sole_return id b base d w r :
  sole id b base d -> writes d !! id = Some w -> (forall dn rest, Entries b = dn ++ rest -> applied (mem d) = base ++ dn ->
    match wphase w with Applying => rest = [] \/ id ∉ finished (mem d) | _ => dn = [] end -> wrote_by r dn rest) ->
  sole id b base (return_write id w r d).
Proof.
  intros [H1 H2 (dn & rest & H3 & H4 & H5)] Ew Hr. destruct (H1 _ _ Ew) as [_ Hb]. rewrite Ew in H5. destruct H5 as [A B]. split; cbn.
  - intros id' w' [_ E]%lookup_delete_Some. by eapply H1.
  - done.
  - exists dn, rest. split_and!; [done..|]. rewrite lookup_delete_eq. intros x [Hx|[= ->]%list_elem_of_singleton]%elem_of_app; [by destruct (A x)|].
    exists r. rewrite Hb. split; [done|]. apply Hr; try done. destruct (wphase w); try done. destruct B as [[-> _]|[? _]]; auto.
Qed.

Lemma sole_sent id b base d w p :
  sole id b base d -> writes d !! id = Some w -> wphase w <> Applying -> p <> Applying -> sole id b base (set_call id p w d).
Proof.
  intros [H1 H2 (dn & rest & H3 & H4 & H5)] Ew Hp Hp'. destruct (H1 _ _ Ew) as [_ Hb]. rewrite Ew in H5. destruct H5 as [A B]. split; cbn.
  - intros id' w' [[<- <-]|[_ E]]%lookup_insert_Some; [done|]. by eapply H1.
  - done.
  - exists dn, rest. split_and!; [done..|]. rewrite lookup_insert_eq. split; [done|]. cbn. by destruct (wphase w), p.
Qed.

(** The tasks of the manager are those of the call. *)
Lemma sole_tasks id b base d : db_inv d -> sole id b base d ->
  (forall t, t ∈ blocked (mem d) ++ ready (mem d) -> t.1 = id /\ exists w, writes d !! id = Some w /\ wphase w = Applying) /\
  forall t ready', ready (mem d) = t :: ready' -> blocked (mem d) = [] /\ ready' = [] /\ id ∉ finished (mem d).
Proof.
  intros H Hs. assert (forall t, t ∈ blocked (mem d) ++ ready (mem d) -> t.1 = id /\ exists w, writes d !! id = Some w /\ wphase w = Applying) as Ht.
  { intros t (w & _ & E & Hp & _)%(to_task _ _ _ (di_tasks _ H)). destruct (so_only _ _ _ _ Hs _ _ E) as [Hid _]. rewrite Hid in E. eauto. }
  split; [done|]. intros t ready' Er. pose proof (to_nodup _ _ _ (di_tasks _ H)) as Hn. rewrite Er in Ht, Hn.
  destruct (Ht t) as [Hid _]; [set_solver|].
  assert (map fst (blocked (mem d) ++ t :: ready') ++ finished (mem d) ≡ₚ id :: map fst (blocked (mem d) ++ ready') ++ finished (mem d)) as Hp.
  { rewrite !map_app. cbn [map]. rewrite Hid. by rewrite <- Permutation_middle. }
  rewrite Hp in Hn. apply NoDup_cons in Hn as [Hn _]. rewrite not_elem_of_app in Hn. destruct Hn as [Hn Hf].
  assert (blocked (mem d) ++ ready' = []) as Hnil.
  { destruct (blocked (mem d) ++ ready') as [|t' l] eqn:El; [done|]. destruct Hn. destruct (Ht t') as [<- _].
    - assert (t' ∈ blocked (mem d) ++ ready') as Hin by (rewrite El; left). apply elem_of_app in Hin as [|]; set_solver.
    - cbn. left. }
  apply app_nil in Hnil as [? ?]. done.
Qed.

(** The call writes in the manager. *)
Lemma sole_run id b base d w m' rest' dn' :
  sole id b base d -> writes d !! id = Some w -> (forall x, (id, x) ∉ results d) -> id ∉ finished (mem d) ->
  (forall dn rest, Entries b = dn ++ rest -> applied (mem d) = base ++ dn ->
    match wphase w with Applying => forall t, t ∈ blocked (mem d) ++ ready (mem d) -> t.2 = rest | _ => dn = [] end -> rest = dn' ++ rest') ->
  blocked (mem d) = [] -> sole id b base (set_call id Applying w (set_mem (after_task (id, dn' ++ rest') m' rest' dn' [] (mem d)) d)).
Proof.
  intros [H1 H2 (dn & rest & H3 & H4 & H5)] Ew Hres Hnf Hd Hb. destruct (H1 _ _ Ew) as [_ Hwb]. rewrite Ew in H5. destruct H5 as [A B].
  assert (rest = dn' ++ rest') as ->. { apply (Hd dn); try done. destruct (wphase w); try done. by destruct B as [[_ ?]|[_ ?]]. }
  split; cbn.
  - intros id' w' [[<- <-]|[_ E]]%lookup_insert_Some; [done|]. by eapply H1.
  - done.
  - exists (dn ++ dn'), rest'. split_and!; cbn; [by rewrite H3, (assoc_L (++))|by rewrite H4, (assoc_L (++))|].
    rewrite lookup_insert_eq. split; [done|]. cbn. rewrite Hb. destruct rest' as [|e rest']; [left|right].
    + split; [done|]. apply elem_of_app. right. by apply list_elem_of_singleton.
    + split; [done|]. rewrite app_nil_r. by intros t ->%list_elem_of_singleton.
Qed.

Lemma sole_answer id b base d d' w : db_inv d -> sole id b base d -> call_in Sent id d = Some w -> answered coin id w d = Ok d' -> sole id b base d'.
Proof.
  intros H Hs [Ew Hp]%call_in_ok E. unfold answered in E. destruct (reply_to id d) as [r|]; [|done].
  destruct r as [[]|e| |]; [|injection E as <-|done..].
  - apply bind_ok in E as (d1 & E & [= <-]). apply mem_step_ok in E as (m & E & ->). cbn [manager.step] in E.
    destruct (si_maps _ (di_sys _ H)) as (am & im & _ & Hm & _).
    destruct (run_task_spec coin (id, Entries (wbatch w)) (mem d) (ready (mem d)) am im Hm) as (m' & rest' & dn' & E' & Hdn & _).
    rewrite E in E'. injection E' as ->. cbn in Hdn. destruct (so_only _ _ _ _ Hs _ _ Ew) as [_ Hb].
    destruct (sole_tasks _ _ _ _ H Hs) as [Ht _].
    assert (blocked (mem d) ++ ready (mem d) = []) as [Hbl Hr]%app_nil.
    { destruct (blocked (mem d) ++ ready (mem d)) as [|t l]; [done|]. destruct (Ht t) as (_ & w' & E1 & E2); [left|]. congruence. }
    rewrite Hr, Hdn. pose proof Hs as [_ _ (dn & rest & H3 & H4 & H5)]. rewrite Ew in H5. destruct H5 as [A B]. rewrite Hp in B.
    apply sole_run; try done.
    + intros Hf. destruct (to_fin _ _ _ (di_tasks _ H) id Hf) as [_ Hfw]. destruct (Hfw w Ew). congruence.
    + intros dn0 rest0 E0 _. rewrite Hp. intros ->. cbn in E0. congruence.
  - apply sole_return; [done..|]. intros dn rest _ _. by rewrite Hp.
Qed.

Lemma sole_resume id b base d d' : db_inv d -> sole id b base d -> mem_step coin EResume d = Ok d' -> sole id b base d'.
Proof.
  intros H Hs (m & E & ->)%mem_step_ok. cbn [manager.step] in E. destruct (ready (mem d)) as [|t ready'] eqn:Er; [done|].
  destruct (sole_tasks _ _ _ _ H Hs) as [Ht Hone]. destruct (Hone t ready' Er) as (Hb & -> & Hnf).
  destruct (Ht t) as (Hid & w & Ew & Hp); [rewrite Er; set_solver|].
  destruct (si_maps _ (di_sys _ H)) as (am & im & _ & Hm & _).
  destruct (run_task_spec coin t (mem d) [] am im Hm) as (m' & rest' & dn' & E' & Hdn & _). rewrite E in E'. injection E' as ->.
  pose proof Hs as [_ _ (dn & rest & H3 & H4 & H5)]. rewrite Ew in H5. destruct H5 as [A _].
  assert (sole id b base (set_call id Applying w (set_mem (after_task (id, dn' ++ rest') m' rest' dn' [] (mem d)) d))) as Hrun.
  { apply sole_run; try done. intros dn0 rest0 _ _. rewrite Hp. intros Hrest. rewrite <- Hdn. symmetry. apply Hrest. rewrite Er. set_solver. }
  replace t with (id, dn' ++ rest') by (destruct t; cbn in *; congruence).
  eapply sole_frame; [exact Hrun|cbn|intros r ?; by exists r|done..]. rewrite insert_id; [done|]. rewrite Ew. f_equal. destruct w; cbn in *; congruence.
Qed.

Lemma mem_same e s s' : (match e with manager.EWrite _ _ | EResume => false | _ => true end) = true -> manager.step coin e s = Ok s' ->
  applied s' = applied s /\ finished s' = finished s /\ forall t, t ∈ blocked s' ++ ready s' -> t ∈ blocked s ++ ready s.
Proof. intros He E. destruct e; try done; cbn [manager.step] in E; repeat case_match; simplify_eq; split_and!; try done; cbn; set_solver. Qed.

Lemma sole_mem id b base d m e : sole id b base d -> (match e with manager.EWrite _ _ | EResume => false | _ => true end) = true ->
  manager.step coin e (mem d) = Ok m -> sole id b base (set_mem m d).
Proof. intros Hs He (A & B & C)%mem_same; [|done]. eapply sole_frame; [done|done|intros r ?; by exists r|done..]. Qed.

Lemma sole_step id b base e d d' : db_inv d -> calm d -> background e = true -> sole id b base d -> step e d = Ok d' -> sole id b base d'.
Proof.
  intros H Hc Hb Hs E. destruct (ca_open _ Hc) as [Hcl _].
  destruct e; try done; cbn [db.step] in E; rewrite ?Hcl in E.
  - apply on_ok in E as (w & Hw & E). destruct (sole_call _ _ _ _ _ _ _ Hs Hw) as [-> _]. apply call_in_ok in Hw as [Ew Hp]. unfold send in E. inv_db_step.
    eapply sole_frame; [by apply (sole_sent id b base d w Sent); rewrite ?Hp|done|intros r ?; by exists r|done..].
  - apply on_ok in E as (w & Hw & E). destruct (sole_call _ _ _ _ _ _ _ Hs Hw) as [-> _]. apply call_in_ok in Hw as [Ew Hp]. unfold reject in E. inv_db_step.
    eapply sole_frame; [apply (sole_return id b base d w (Err (ErrWAL WalBatch.ErrClosed))); [done..|]|done|intros r ?; by exists r|done..].
    intros dn rest _ _. by rewrite Hp.
  - apply on_ok in E as (w & Hw & E). destruct (sole_call _ _ _ _ _ _ _ Hs Hw) as [-> _]. by eapply sole_answer.
  - apply on_ok in E as (w & Hw & [Hf%bool_decide_eq_true [= <-]]%when_ok). destruct (sole_call _ _ _ _ _ _ _ Hs Hw) as [-> _].
    apply call_in_ok in Hw as [Ew Hp]. apply sole_return; [done..|]. intros dn rest _ _. rewrite Hp. by intros [|].
  - inv_db_step. eapply sole_frame; [done|done|intros r ?; by exists r|done..].
  - by eapply sole_resume.
  - inv_db_step. by apply (sole_mem _ _ _ _ _ ESignal).
  - inv_db_step. by apply (sole_mem _ _ _ _ _ ELast).
  - unfold flush_tree in E. inv_db_step; [|match goal with M : manager.step _ _ _ = Ok _ |- _ => apply (sole_mem _ _ _ _ _ EFlushErr Hs eq_refl) in M end].
    all: eapply sole_frame; [done|done|intros r ?; by exists r|done..].
  - apply when_ok in E as [_ E]. apply bind_ok in E as (d1 & [cs ->]%stop_committer_same & [= <-]). eapply sole_frame; [done|done|intros r ?; by exists r|done..].
  - apply when_ok in E as [_ [= <-]]. destruct (rotate_same rename_fails create_fails d) as (cs & l & ->). eapply sole_frame; [done|done|intros r ?; by exists r|done..].
  - inv_db_step. eapply sole_frame; [eapply (sole_mem _ _ _ d _ EFlushOk); done|done|intros r ?; by exists r|done..].
  - inv_db_step. all: eapply sole_frame; [done|done|intros r ?; by exists r|done..].
  - apply on_ok in E as (r & Er & [_ E]%when_ok). assert (id0 <> id) as Hne by (intros ->; by eapply so_reads).
    unfold Get_mem in E. apply bind_ok in E as ([v []] & _ & [= <-]); (eapply sole_frame; [done|done|..|done|done|done]); cbn.
    + intros r' [_ E]%lookup_delete_Some. by exists r'.
    + by intros x [?|[= ->]%list_elem_of_singleton]%elem_of_app.
    + rewrite lookup_insert_ne by done. intros r' ?. by exists r'.
    + done.
  - apply on_ok in E as (r & Er & [_ E]%when_ok). assert (id0 <> id) as Hne by (intros ->; by eapply so_reads).
    unfold Get_tree in E. inv_db_step; (eapply sole_frame; [done|done|..|done|done|done]); cbn.
    all: first [intros r' [_ ?]%lookup_delete_Some; by exists r'|by intros x [?|[= ->]%list_elem_of_singleton]%elem_of_app].
  - by rewrite bool_decide_false in E.
  - by rewrite bool_decide_false in E.
  - by rewrite bool_decide_false in E.
Qed.


(** ** A call among quiet steps *)

Record sound (d : DB) : Prop := { sn_inv : db_inv d; sn_reads : reads_ok d; sn_calm : calm d }.

Lemma quiet_step e d d' : sound d -> background e = true -> step e d = Ok d' ->
  sound d' /\ next_id d' = next_id d /\ (writes d = ∅ -> writes d' = ∅ /\ applied (mem d') = applied (mem d)) /\
  forall id b base, sole id b base d -> sole id b base d'.
Proof.
  intros [H1 H2 H3] Hb E. destruct (calm_step e d d' H1 H2 H3 Hb E) as [Hc Hn].
  destruct (step_keeps Sum128 CompressBlock UncompressBlock coin e d d' H1 H2 E) as (_ & _ & Hr).
  split_and!; [split; [by eapply db_step_inv|done..]|done|by intros Hw; eapply idle_step|by intros id b base Hs; eapply sole_step].
Qed.

Lemma quiet_run es : forall d d', sound d -> quiet es -> run es d = Ok d' ->
  sound d' /\ next_id d' = next_id d /\ (writes d = ∅ -> writes d' = ∅ /\ applied (mem d') = applied (mem d)) /\
  forall id b base, sole id b base d -> sole id b base d'.
Proof.
  induction es as [|e es IH]; intros d d' Hd Hq E; cbn in E; [by injection E as <-|]. apply bind_ok in E as (d1 & E1 & E).
  apply Forall_cons in Hq as [He Hq]. destruct (quiet_step e d d1 Hd He E1) as (A & B & C & D).
  destruct (IH d1 d' A Hq E) as (A' & B' & C' & D'). split_and!; [done|congruence| |auto].
  intros Hw. destruct (C Hw) as [C1 C2]. destruct (C' C1). split; [done|congruence].
Qed.

Lemma begin_write b d d' : sound d -> writes d = ∅ -> step (EvWrite b) d = Ok d' ->
  sound d' /\ applied (mem d') = applied (mem d) /\ sole (next_id d) b (applied (mem d)) d'.
Proof.
  intros [H1 H2 H3] Hw E. assert (db_inv d') as Hi by by eapply db_step_inv.
  destruct (step_keeps Sum128 CompressBlock UncompressBlock coin _ d d' H1 H2 E) as (_ & _ & Hr).
  cbn [db.step] in E. apply when_ok in E as [_ [= <-]]. unfold WriteBatch in *. cbn [db.closed set_next] in *. destruct (ca_open _ H3) as [Hcl Hco].
  rewrite Hco in *. split_and!; [split; [done..|split; cbn]|done|split; cbn].
  - done.
  - intros x Hx. specialize (ca_ids _ H3 x Hx). lia.
  - intros id' w [[<- <-]|[_ E]]%lookup_insert_Some; [done|]. by rewrite Hw, lookup_empty in E.
  - intros r E. specialize (ro_ids _ H2 _ _ E). lia.
  - exists [], (Entries b). rewrite app_nil_r, lookup_insert_eq. split_and!; [done..| |done]. intros x Hx. specialize (ca_ids _ H3 _ Hx). cbn. lia.
Qed.

Lemma begin_read k d d' : sound d -> step (EvRead k) d = Ok d' ->
  sound d' /\ writes d' = writes d /\ applied (mem d') = applied (mem d) /\ reads d' !! next_id d = Some (mkRead k false) /\ results d' = results d.
Proof.
  intros [H1 H2 H3] E. assert (db_inv d') as Hi by by eapply db_step_inv.
  destruct (step_keeps Sum128 CompressBlock UncompressBlock coin _ d d' H1 H2 E) as (_ & _ & Hr).
  cbn [db.step] in E. apply when_ok in E as [_ [= <-]]. unfold db.Get in *. cbn [db.closed set_next] in *. destruct (ca_open _ H3) as [Hcl Hco].
  rewrite Hco in *. split_and!; [split; [done..|split; cbn]|done|done|cbn; by rewrite lookup_insert_eq|done].
  - done.
  - intros x Hx. specialize (ca_ids _ H3 x Hx). lia.
Qed.

Lemma reply_elem id d r : reply id d = Some r -> (id, r) ∈ results d.
Proof.
  unfold reply. destruct (find _ _) as [[id' r']|] eqn:E; [|done]. intros [= <-]. apply find_some in E as [Hin Heq%Nat.eqb_eq]. cbn in Heq. subst id'. by apply list_elem_of_In.
Qed.

Lemma reply_none id d : calm d -> next_id d = id -> reply id d = None.
Proof. intros Hc Hn. destruct (reply id d) as [r|] eqn:E; [|done]. apply reply_elem, (ca_ids _ Hc) in E. cbn in E. lia. Qed.

(** ** The laws of [Storage] *)

Context `{!Lz4 CompressBlock UncompressBlock}.

Abbreviation stored d := (reading Sum128 CompressBlock False [] 0%nat [] d).

(** A database between calls.  What it has been given and cannot flush, it may lose. *)
Record resting (d : DB) : Prop := {
  rs_sound : sound d;
  rs_idle : writes d = ∅;
  rs_stored : can_flush d -> stored d;
}.

Definition node_inv (n : node) : Prop := node_status n = Running -> resting (node_db n).
Definition node_fits (n : node) : Prop := can_flush (node_db n).
Definition node_contents (n : node) : gmap bytes (option bytes) := entries_map (applied (mem (node_db n))) ∅.

(** Runs of sound databases. *)
Lemma run_stored es d d' : sound d -> (can_flush d -> stored d) -> run es d = Ok d' ->
  (can_flush d' -> can_flush d) /\ (can_flush d' -> stored d').
Proof.
  intros [H1 H2 H3] Hst E. destruct (run_keeps Sum128 CompressBlock UncompressBlock coin es d d' H1 H2 E) as (Ho & Ha & _).
  assert (can_flush d' -> can_flush d) as Hb by (intros Hf; by apply (can_flush_before d d')). split; [done|].
  intros Hf. apply (reading_run Sum128 CompressBlock UncompressBlock coin False [] 0%nat [] es d d'); auto.
Qed.

Lemma wrote_nothing es r m : (r = Panic \/ r = Fuel) -> wrote es r m m.
Proof. intros [-> | ->]; exists []; (split; [apply prefix_nil|done]). Qed.

Lemma partial_write id b base d r : sole id b base d -> (r = Panic \/ r = Fuel) ->
  wrote (Entries b) r (entries_map base ∅) (entries_map (applied (mem d)) ∅).
Proof.
  intros [_ _ (dn & rest & H1 & H2 & _)] Hr. rewrite H1, H2, entries_map_app.
  by destruct Hr as [-> | ->]; exists dn; (split; [eexists|]).
Qed.

Lemma answered_write id b base d x : sole id b base d -> reply id d = Some x ->
  writes d = ∅ /\ exists r, x = RWrite b r /\ wrote (Entries b) r (entries_map base ∅) (entries_map (applied (mem d)) ∅).
Proof.
  intros [H1 _ (dn & rest & H3 & H4 & H5)] Hx%reply_elem. destruct (writes d !! id) as [w|] eqn:Ew; [by destruct (proj1 H5 x)|]. split.
  - apply map_empty. intros id'. destruct (writes d !! id') as [w|] eqn:E; [|done]. destruct (H1 _ _ E) as [-> _]. congruence.
  - destruct (H5 x Hx) as (r & -> & Hr). exists r. split; [done|]. rewrite H3, H4. destruct r as [u|e| |]; cbn in Hr; try done; subst; cbn -[entries_map].
    + by rewrite app_nil_r, entries_map_app.
    + by rewrite app_nil_r.
Qed.

(** The database after a plan. *)
Lemma served e before after d d' c :
  resting d -> play (List.filter background before ++ e :: List.filter background after) d = (d', c) ->
  (can_flush d' -> can_flush d) /\ (can_flush d' -> stored d') /\
  ((sound d' /\ writes d' = ∅ /\ next_id d' = next_id d /\ applied (mem d') = applied (mem d)) \/
   exists d1 d2 es, sound d1 /\ writes d1 = ∅ /\ next_id d1 = next_id d /\ applied (mem d1) = applied (mem d) /\
     (can_flush d1 -> stored d1) /\ step e d1 = Ok d2 /\ quiet es /\ run es d2 = Ok d').
Proof.
  intros [H1 H2 H3] (es1 & es2 & Q1 & Q2 & [Hr|(d1 & d2 & Hr1 & He & Hr2)])%serve_run.
  - destruct (quiet_run es1 d d' H1 Q1 Hr) as (A & B & C & _). destruct (C H2). destruct (run_stored es1 d d' H1 H3 Hr). auto 8.
  - destruct (quiet_run es1 d d1 H1 Q1 Hr1) as (A & B & C & _). destruct (C H2).
    destruct (run_stored es1 d d1 H1 H3 Hr1) as [S1 S2].
    assert (run (es1 ++ e :: es2) d = Ok d') as Hr by (rewrite run_app, Hr1; cbn; by rewrite He).
    destruct (run_stored _ d d' H1 H3 Hr). split_and!; [done..|]. right. exists d1, d2, es2. auto 10.
Qed.

Lemma law_node_write b n n' r : node_inv n -> node_WriteBatch b n = (n', r) ->
  node_inv n' /\ (node_fits n' -> node_fits n /\ wrote (Entries b) r (node_contents n) (node_contents n')).
Proof.
  intros Hi E. unfold node_WriteBatch, serve in E. destruct n as [d ps []]; cbn [node_db plans node_status] in E.
  2:{ injection E as <- <-. split; [done|]. intros Hf. split; [done|]. apply wrote_nothing. by right. }
  2:{ injection E as <- <-. split; [done|]. intros Hf. split; [done|]. apply wrote_nothing. by left. }
  destruct ps as [|[before after] ps].
  { injection E as <- <-. split; [done|]. intros Hf. split; [done|]. apply wrote_nothing. by right. }
  specialize (Hi eq_refl). cbn [node_db] in Hi.
  destruct (play _ d) as [d' c] eqn:Ep. destruct (served _ _ _ _ _ _ Hi Ep) as (Hb & Hst & Hcase). unfold node_fits, node_contents.
  assert (sound d' /\ (reply (next_id d) d' = None /\ applied (mem d') = applied (mem d) \/ sole (next_id d) b (applied (mem d)) d')) as [Hs' Hcase'].
  { destruct Hcase as [(A & B & C & D)|(d1 & d2 & es & A & B & C & D & _ & He & Q & Hr)].
    - split; [done|]. left. split; [|done]. apply reply_none; [apply A|done].
    - destruct (begin_write b d1 d2 A B He) as (A2 & _ & S2). destruct (quiet_run es d2 d' A2 Q Hr) as (A3 & _ & _ & S3).
      split; [done|]. right. apply S3. by rewrite <- C, <- D. }
  clear Hcase. destruct c.
  { injection E as <- <-. split; [done|]. intros Hf. split; [by apply Hb|]. cbn [node_db]. destruct Hcase' as [[_ ->]|Hso]; [apply wrote_nothing; by left|].
    apply (partial_write _ _ _ _ _ Hso). by left. }
  destruct (reply (next_id d) d') as [x|] eqn:Ex.
  - destruct Hcase' as [[? _]|Hso]; [done|]. destruct (answered_write _ _ _ _ _ Hso Ex) as (Hw & r' & -> & Hr). injection E as <- <-.
    split; [by intros _|]. intros Hf. split; [by apply Hb|done].
  - injection E as <- <-. split; [done|]. intros Hf. split; [by apply Hb|]. cbn [node_db]. destruct Hcase' as [[_ ->]|Hso]; [apply wrote_nothing; by right|].
    apply (partial_write _ _ _ _ _ Hso). by right.
Qed.

(** The call [id] reads [k]. *)
Record sole_read (id : nat) (k : bytes) (d : DB) : Prop := {
  sr_call : forall r, reads d !! id = Some r -> rkey r = k;
  sr_reply : forall x, (id, x) ∈ results d -> exists r, x = RRead k r;
}.

Lemma sole_read_step id k e d d' : sound d -> writes d = ∅ -> background e = true -> sole_read id k d -> step e d = Ok d' -> sole_read id k d'.
Proof.
  intros [H1 H2 H3] Hw Hb [Hk Hx] E. destruct (ca_open _ H3) as [Hcl _]. destruct (no_writes d H1 Hw) as [Hcall _].
  destruct e; try done; cbn [db.step] in E; rewrite ?Hcall, ?Hcl in E; unfold flush_tree, stop_committer in E; inv_db_step; try done.
  - destruct (rotate_same rename_fails create_fails d) as (cs & l & ->). done.
  - unfold Get_mem in E. apply bind_ok in E as ([v []] & _ & [= <-]); split; cbn.
    + intros r [_ ?]%lookup_delete_Some. auto.
    + intros y [?|[= -> ->]%list_elem_of_singleton]%elem_of_app; [auto|]. rewrite (Hk _ H). by eexists.
    + intros r [[-> <-]|[_ ?]]%lookup_insert_Some; [by apply (Hk x)|auto].
    + done.
  - unfold Get_tree in E. inv_db_step; split; cbn; try (intros r [_ ?]%lookup_delete_Some; by auto).
    all: intros y [?|[= -> ->]%list_elem_of_singleton]%elem_of_app; [auto|]; rewrite (Hk _ H); by eexists.
Qed.

Lemma sole_read_run id k es : forall d d', sound d -> writes d = ∅ -> quiet es -> sole_read id k d -> run es d = Ok d' -> sole_read id k d'.
Proof.
  induction es as [|e es IH]; intros d d' Hd Hw Hq Hs E; cbn in E; [by injection E as <-|]. apply bind_ok in E as (d1 & E1 & E).
  apply Forall_cons in Hq as [He Hq]. destruct (quiet_step e d d1 Hd He E1) as (A & B & C & _). destruct (C Hw).
  apply (IH d1 d'); try done. by apply (sole_read_step id k e d d1).
Qed.

Lemma law_node_read k n n' r : node_inv n -> node_Get k n = (n', r) ->
  node_inv n' /\ (node_fits n' -> node_fits n /\ node_contents n' = node_contents n /\
    match r with Ok _ | Err ErrNotFound => r = answer (node_contents n !! k) | _ => True end).
Proof.
  intros Hi E. unfold node_Get, serve in E. destruct n as [d ps []]; cbn [node_db plans node_status] in E; [|by injection E as <- <-..].
  destruct ps as [|[before after] ps]; [by injection E as <- <-|].
  specialize (Hi eq_refl). cbn [node_db] in Hi.
  destruct (play _ d) as [d' c] eqn:Ep. destruct (served _ _ _ _ _ _ Hi Ep) as (Hb & Hst & Hcase). unfold node_fits, node_contents.
  assert (sound d' /\ writes d' = ∅ /\ applied (mem d') = applied (mem d) /\ forall x, reply (next_id d) d' = Some x ->
    exists r, x = RRead k r /\ (can_flush d' -> r = answer (entries_map (applied (mem d)) ∅ !! k))) as (Hs' & Hw' & Ha' & Hx).
  { destruct Hcase as [(A & B & C & D)|(d1 & d2 & es & A & B & C & D & F & He & Q & Hr)].
    - split_and!; [done..|]. by rewrite (reply_none _ d' (sn_calm _ A) C).
    - destruct (begin_read k d1 d2 A He) as (A2 & Hw2 & Ha2 & Hrd & Hres). rewrite B in Hw2.
      destruct (quiet_run es d2 d' A2 Q Hr) as (A3 & _ & C3 & _). destruct (C3 Hw2) as [Hw3 Ha3]. split_and!; [done..|congruence|].
      intros x Hx%reply_elem. rewrite <- C in *.
      assert (sole_read (next_id d1) k d') as [_ Hrk].
      { apply (sole_read_run _ k es d2); try done. split; [intros r0 E0; by simplify_eq|]. rewrite Hres. intros y Hy%(ca_ids _ (sn_calm _ A)). cbn in Hy. lia. }
      destruct (Hrk x Hx) as [r0 ->]. exists r0. split; [done|]. intros Hf.
      destruct (run_keeps Sum128 CompressBlock UncompressBlock coin es d2 d' (sn_inv _ A2) (sn_reads _ A2) Hr) as (Ho3 & Hp3 & _).
      assert (stored d2) as Hst2.
      { assert (run [EvRead k] d1 = Ok d2) as Hr1 by (cbn -[db.step]; by rewrite He). apply (run_stored _ _ _ A F Hr1). by apply (can_flush_before d2 d'). }
      pose proof (reading_begun Sum128 CompressBlock d2 _ k (sn_reads _ A2) Hst2 Hrd) as Hrd2.
      destruct (reading_done Sum128 CompressBlock d' (applied (mem d2)) (next_id d1) k r0) as (p & P1 & P2 & ->); [apply A3| |done|].
      + by apply (reading_run Sum128 CompressBlock UncompressBlock coin True _ _ _ es d2 d' (sn_inv _ A2) (sn_reads _ A2)).
      + rewrite Ha3 in P2. replace p with (applied (mem d2)); [by rewrite Ha2, D|]. by apply (anti_symm prefix). }
  clear Hcase. destruct c; [injection E as <- <-; split; [done|]; cbn [node_db]; intros Hf; rewrite Ha'; auto|].
  destruct (reply (next_id d) d') as [x|].
  - destruct (Hx x eq_refl) as (r' & -> & Hr). injection E as <- <-. split; [by intros _|]. cbn [node_db]. intros Hf. rewrite Ha'.
    split_and!; [auto|done|]. rewrite <- Hr by done. by destruct r' as [|[]| |].
  - injection E as <- <-. split; [done|]. cbn [node_db]. intros Hf. rewrite Ha'. auto.
Qed.

#[local] Instance node_laws : StorageLaws node any_entry node_inv node_fits node_contents.
Proof. split; [intros b s s' r _; apply law_node_write|exact law_node_read]. Qed.

Lemma open_resting o fs rf d : opts_ok (lsm_options o) -> Open coin o (mkDir fs ∅ []) rf = Ok (Some d) -> resting d.
Proof.
  intros Ho E. destruct (open_reading Sum128 CompressBlock coin o fs rf d [] 0%nat [] Ho E) as (H1 & H2 & _ & H3).
  apply Open_opened in E as (gc & m & app & t & [-> _ _] & _). split; [|done|done]. split; [done..|]. split; [done|]. by intros x ?%elem_of_nil.
Qed.

End node.

(** ** A node with a small database *)

#[local] Instance toy_storage : Storage node := node_storage toy_hash toy_compress toy_uncompress flat.

(** A write that returns, a read while the memtable is being flushed, and a write that the
    stopped committer refuses. *)
Definition small_plans : list plan :=
  [([], [EvSend 0; EvCommitter 0 group_commit.ERecv; EvAnswer 0; EvReturn 0]);
   ([EvSignal], [EvFlush; EvReadMem 1] ++ rotation);
   ([], [EvReject 2])].

Definition small_ops : list api_op :=
  [OPut 5 6 Delivered key_a (Some (str "1")); OGet 7 Delivered key_a; OPut 8 9 Delivered key_b (Some (str "2"))].

Definition small_answers : list api_answer := [AWrite (Ok tt); AGet (Ok (Some (str "1"), true)); AWrite (Err Internal)].

Definition small_node (d : DB) : ClientAPI node := mkApi (mkNode d small_plans Running) (NewTxnManager NewClock).

(** What the run of the calls gives, by a look at the final node. *)
Definition small_final {A} (x : A) (f : DB -> ClientAPI node * list api_answer -> A) : A :=
  match small_open with Ok (Some d) => f d (api_run proto_wire small_ops (small_node d)) | _ => x end.

