(* ===== verification/NodeLive.v ===== *)
(** * A node answers

    On a working disk and while the memtable has room, every call on a storage node can
    return without an error: there are steps of the goroutines after which it does.  This
    is what the theorems of Node.v do not say, which hold of calls that return. *)

From S2P Require Import Prelude Order Keys Files WalBatch WalLog WalRecovery GroupCommit SkipList MemTable Manager.
From S2P Require Import Hlc Txn Bloom Cache SSTable SSTableSpec Manifest Heap MergeIter Compaction CompactionSpec Limits Levels.
From S2P Require Import Lsm LsmSpec LsmRefine Db DbSpec DbReads Transport Node.
Import hlc txn wal_batch manager db transport.

#[local] Open Scope Z_scope.

(** ** The committer *)

(** A committer with nothing to do, on a working disk. *)
Definition gc_ready (gc : group_commit.GroupCommitter) : Prop :=
  group_commit.phase_of gc = group_commit.Running /\ group_commit.batch gc = [] /\ group_commit.pending gc = [] /\
  writer_ok (group_commit.writer gc).

Lemma flush_one gc r : group_commit.batch gc = [r] -> writer_ok (group_commit.writer gc) ->
  exists w cs, group_commit.flush gc = group_commit.mkGC w (group_commit.pending gc) [] false (group_commit.stopClosed gc) (group_commit.phase_of gc)
    (group_commit.maxBatchSize gc) (group_commit.calls gc ++ cs) (group_commit.replies gc ++ [(r, Ok tt)]) (group_commit.rejected gc) /\ writer_ok w.
Proof.
  intros Hb Hw. unfold group_commit.flush. rewrite Hb. destruct r as [id data]. cbn [group_commit.append_batch].
  destruct (Append_ok data _ Hw) as (fs & w1 & _ & (Hw1 & _) & ->). destruct (Sync_ok w1 Hw1) as (w2 & -> & Hw2 & _). by eexists _, _.
Qed.

(** A request is sent, received, and answered at the latest by the timer. *)
Lemma gc_submit gc r : gc_ready gc -> exists gc1 gc2 gc3, group_commit.step (group_commit.ESend r) gc = Some gc1 /\
  group_commit.step group_commit.ERecv gc1 = Some gc2 /\
  (group_commit.step group_commit.ETimer gc2 = Some gc3 \/ group_commit.step group_commit.ETimer gc2 = None /\ gc3 = gc2) /\
  gc_ready gc3 /\ group_commit.replies gc3 = group_commit.replies gc ++ [(r, Ok tt)].
Proof.
  intros (Hp & Hb & Hq & Hw). set (g1 := group_commit.set_queues [r] [] (group_commit.timerActive gc) gc). exists g1.
  assert (group_commit.step (group_commit.ESend r) gc = Some g1) as ->.
  { cbn [group_commit.step]. rewrite Hq, Hb. by rewrite bool_decide_true by (cbn; unfold group_commit.pending_cap; lia). }
  cbn [group_commit.step group_commit.phase_of group_commit.pending group_commit.batch group_commit.set_queues g1 app]. rewrite Hp.
  destruct (group_commit.maxBatchSize _ <=? len [r]) eqn:Em.
  - set (g := group_commit.set_queues [] [r] _ _). destruct (flush_one g r eq_refl Hw) as (w & cs & E & Hw').
    exists (group_commit.flush g), (group_commit.flush g). rewrite E. cbn. rewrite Hp. split_and!; [done..|by right| |done]. by unfold gc_ready.
  - set (g := group_commit.set_queues [] [r] false (group_commit.set_queues [] [r] true g1)). destruct (flush_one g r eq_refl Hw) as (w & cs & E & Hw').
    exists (group_commit.set_queues [] [r] true g1), (group_commit.flush g). split_and!; [done..| | |].
    + left. change (group_commit.phase_of _) with (group_commit.phase_of gc). by rewrite Hp.
    + by rewrite E.
    + by rewrite E.
Qed.

Section live.
Context (Sum128 : bytes -> Z * Z).
Context (CompressBlock : bytes -> option bytes) (UncompressBlock : bytes -> Z -> option bytes).
Context `{!Lz4 CompressBlock UncompressBlock}.
Context (coin : nat -> bool).

Abbreviation step := (db.step Sum128 CompressBlock UncompressBlock coin).
Abbreviation play := (play Sum128 CompressBlock UncompressBlock coin).
Abbreviation lsm_ok := (LsmSpec.lsm_ok Sum128 CompressBlock).

Lemma play_ok e es d d' : step e d = Ok d' -> play (e :: es) d = play es d'.
Proof. intros E. cbn [Node.play]. by rewrite E. Qed.

Lemma play_skip e es d : step e d = Err Disabled -> play (e :: es) d = play es d.
Proof. intros E. cbn [Node.play]. by rewrite E. Qed.

(** A database between calls that has not been flushed, with a working log. *)
Record working (d : DB) : Prop := {
  wk_sound : sound d;
  wk_idle : writes d = ∅;
  wk_stage : stage d = FlushTree;
  wk_size : msize (mgr (mem d)) = MemTableSize (options d);
  wk_mem : exists am, mgr_models (mgr (mem d)) am ∅ /\ immutable (mgr (mem d)) = None /\ in_writes am (applied_writes d);
  wk_tree : exists T, lsm_ok T (tree d);
  wk_gc : exists gc, committers d !! 0%nat = Some gc /\ gc_ready gc;
}.

Lemma working_rlock d : working d -> can_rlock d = true.
Proof.
  intros H. destruct (ca_open _ (sn_calm _ (wk_sound _ H))) as [Hc _]. unfold can_rlock, locked, lock_wanted. by rewrite Hc, (wk_stage _ H).
Qed.

Definition write_plan (id : nat) : list event :=
  [EvSend id; EvCommitter 0 group_commit.ERecv; EvCommitter 0 group_commit.ETimer; EvAnswer id; EvReturn id].

(** [dk] is [d] with the call that writes [b] in phase [ph], and the committer [gc]. *)
Record at_phase (d dk : DB) (b : Batch) (ph : write_phase) (gc : group_commit.GroupCommitter) : Prop := {
  ap_sound : sound dk;
  ap_sole : sole (next_id d) b (applied (mem d)) dk;
  ap_same : tree dk = tree d /\ options dk = options d /\ stage dk = stage d /\ next_id dk = S (next_id d) /\ results dk = results d;
  ap_call : writes dk !! next_id d = Some (mkWrite b ph);
  ap_gc : committers dk !! 0%nat = Some gc;
}.

Lemma ap_call_in d dk b ph gc : at_phase d dk b ph gc -> call_in ph (next_id d) dk = Some (mkWrite b ph).
Proof. intros H. unfold call_in. rewrite (ap_call _ _ _ _ _ H). cbn. by rewrite bool_decide_true. Qed.

(** A step of the call. *)
Lemma ap_step d dk d' b ph gc e ph' gc' :
  at_phase d dk b ph gc -> background e = true -> step e dk = Ok d' ->
  tree d' = tree dk -> options d' = options dk -> stage d' = stage dk -> results d' = results dk ->
  writes d' !! next_id d = Some (mkWrite b ph') -> committers d' !! 0%nat = Some gc' -> at_phase d d' b ph' gc'.
Proof.
  intros [H1 H2 (A & B & C & D & F) H4 H5] He E Ht Ho Hs Hr Hw Hg.
  destruct (quiet_step Sum128 CompressBlock UncompressBlock coin e dk d' H1 He E) as (S1 & S2 & _ & S3).
  split; [done|by apply S3|split_and!; congruence|done|done].
Qed.

Lemma ap_begin d b gc : working d -> committers d !! 0%nat = Some gc -> exists d1, step (EvWrite b) d = Ok d1 /\ at_phase d d1 b Begun gc /\ mem d1 = mem d.
Proof.
  intros H Hg. destruct (step (EvWrite b) d) as [d1| | |] eqn:E; cbn [db.step] in E; rewrite (working_rlock d H) in E; try done.
  exists d1. split; [done|]. destruct (begin_write Sum128 CompressBlock UncompressBlock coin b d d1 (wk_sound _ H) (wk_idle _ H)) as (A & _ & B).
  { cbn [db.step]. by rewrite (working_rlock d H). }
  cbn [when] in E. injection E as <-. unfold WriteBatch in *. cbn [db.closed set_next] in *.
  rewrite (proj2 (ca_open _ (sn_calm _ (wk_sound _ H)))) in *. split; [|done]. split; try done. cbn. by rewrite lookup_insert_eq.
Qed.

Lemma ap_send d dk b gc gc' : at_phase d dk b Begun gc -> group_commit.step (group_commit.ESend (next_id d, enc_batch b)) gc = Some gc' ->
  exists d', step (EvSend (next_id d)) dk = Ok d' /\ at_phase d d' b Sent gc' /\ mem d' = mem dk.
Proof.
  intros H E. pose proof (ap_gc _ _ _ _ _ H) as Hg.
  assert (step (EvSend (next_id d)) dk = Ok (set_call (next_id d) Sent (mkWrite b Begun) (set_committers (<[0%nat := gc']> (committers dk)) dk))) as Es.
  { cbn [db.step]. rewrite (ap_call_in _ _ _ _ _ H). cbn [on]. unfold send. cbn [wbatch]. rewrite Encode_ok. cbn [no_error mbind outcome_bind].
    unfold commit_step. rewrite Hg. cbn [mbind option_bind]. by rewrite E. }
  eexists. split; [exact Es|]. split; [|done]. eapply (ap_step d dk _ b _ gc (EvSend (next_id d))); try done.
  - cbn. by rewrite lookup_insert_eq.
  - cbn. rewrite list_lookup_insert_eq; [done|]. by eapply lookup_lt_Some.
Qed.

Lemma ap_commit d dk b ph gc e : at_phase d dk b ph gc -> of_run e = true ->
  match group_commit.step e gc with
  | Some gc' => exists d', step (EvCommitter 0 e) dk = Ok d' /\ at_phase d d' b ph gc' /\ mem d' = mem dk
  | None => step (EvCommitter 0 e) dk = Err Disabled
  end.
Proof.
  intros H He. pose proof (ap_gc _ _ _ _ _ H) as Hg.
  assert (step (EvCommitter 0 e) dk = match group_commit.step e gc with
    | Some gc' => Ok (set_committers (<[0%nat := gc']> (committers dk)) dk) | None => Err Disabled end) as Es.
  { cbn [db.step]. rewrite He. cbn [when]. unfold commit_step. rewrite Hg. cbn [mbind option_bind]. by destruct (group_commit.step e gc). }
  destruct (group_commit.step e gc) as [gc'|]; [|done]. eexists. split; [exact Es|]. split; [|done]. eapply (ap_step d dk _ b _ gc (EvCommitter 0 e)); try done.
  - apply H.
  - cbn. rewrite list_lookup_insert_eq; [done|]. by eapply lookup_lt_Some.
Qed.

Definition room (d : DB) (es : list BatchEntry) : Prop :=
  sum mem_cost (applied_writes d ++ map entry_write es) < MemTableSize (options d) < 2 ^ 63.

(** The log has the batch, and the call writes it all. *)
Lemma ap_answer d dk b gc : working d -> at_phase d dk b Sent gc -> mem dk = mem d -> reply_to (next_id d) dk = Some (Ok tt) -> room d (Entries b) ->
  exists d' m' am, step (EvAnswer (next_id d)) dk = Ok d' /\ at_phase d d' b Applying gc /\
    mem d' = after_task (next_id d, Entries b) m' [] (Entries b) (ready (mem d)) (mem d) /\
    mgr_models m' am ∅ /\ immutable m' = None /\ msize m' = msize (mgr (mem d)) /\ in_writes am (applied_writes d ++ map entry_write (Entries b)).
Proof.
  intros Hw H Hm Hr Hroom. destruct (wk_mem _ Hw) as (am & M1 & M2 & M3).
  destruct (write_entries_room coin (Entries b) _ am _ M1 M2 M3) as (m' & am' & E & A1 & A2 & A3 & A4); [by rewrite (wk_size _ Hw)|].
  assert (step (EvAnswer (next_id d)) dk = Ok (set_call (next_id d) Applying (mkWrite b Sent)
    (set_mem (after_task (next_id d, Entries b) m' [] (Entries b) (ready (mem d)) (mem d)) dk))) as Es.
  { cbn [db.step]. rewrite (ap_call_in _ _ _ _ _ H). cbn [on]. unfold answered. rewrite Hr. unfold mem_step. rewrite Hm.
    cbn [manager.step wbatch]. unfold run_task. cbn [snd]. rewrite E. cbn. by rewrite Nat.sub_0_r, firstn_all. }
  eexists _, m', am'. split; [exact Es|]. split_and!; try done.
  eapply (ap_step d dk _ b _ gc (EvAnswer (next_id d))); try done; [cbn; by rewrite lookup_insert_eq|apply H].
Qed.

Lemma reply_last d d' id r : calm d -> next_id d = id -> results d' = results d ++ [(id, r)] -> reply id d' = Some r.
Proof.
  intros Hc Hn Hr. unfold reply. rewrite Hr. assert (forall l, (forall x, x ∈ l -> (x.1 < id)%nat) -> find (fun x : nat * result => (x.1 =? id)%nat) (l ++ [(id, r)]) = Some (id, r)) as Hf.
  { intros l. induction l as [|x l IH]; intros Hl; cbn; [by rewrite Nat.eqb_refl|].
    assert (x.1 < id)%nat by (apply Hl; left). rewrite (proj2 (Nat.eqb_neq x.1 id)) by lia. apply IH. intros y Hy. apply Hl. by right. }
  rewrite Hf; [done|]. intros x Hx. rewrite <- Hn. by apply (ca_ids _ Hc).
Qed.

(** The answer of the committer to a new request. *)
Lemma reply_new d d' gc gc' data : db_inv d -> committers d !! 0%nat = Some gc -> committers d' !! 0%nat = Some gc' ->
  group_commit.replies gc' = group_commit.replies gc ++ [((next_id d, data), Ok tt)] -> reply_to (next_id d) d' = Some (Ok tt).
Proof.
  intros H Hg Hg' Hrep. unfold reply_to. rewrite Hg'. cbn [mbind option_bind]. rewrite Hrep, list_find_app_r.
  - cbn. by rewrite decide_True.
  - apply list_find_None, Forall_forall. intros x Hx Hid. destruct (di_head _ H) as (gc0 & es & Hg0 & Hh).
    rewrite Hg in Hg0. injection Hg0 as <-. destruct (hd_ids _ _ _ _ _ _ _ _ _ Hh x.1) as [Hlt _]; [by eapply replied_sent; [apply Hh|]|]. lia.
Qed.

(** A write call goes through. *)
Lemma play_write d b : working d -> room d (Entries b) ->
  exists d', play (EvWrite b :: write_plan (next_id d)) d = (d', false) /\ reply (next_id d) d' = Some (RWrite b (Ok tt)) /\
    working d' /\ applied (mem d') = applied (mem d) ++ Entries b /\ options d' = options d /\ next_id d' = S (next_id d).
Proof.
  intros Hw Hroom. destruct (wk_gc _ Hw) as (gc & Hg & Hready).
  destruct (gc_submit gc (next_id d, enc_batch b) Hready) as (gc1 & gc2 & gc3 & G1 & G2 & G3 & Hready3 & Hrep).
  destruct (ap_begin d b gc Hw Hg) as (d1 & E1 & P1 & M1). destruct (ap_send d d1 b gc gc1 P1 G1) as (d2 & E2 & P2 & M2).
  pose proof (ap_commit d d2 b Sent gc1 group_commit.ERecv P2 eq_refl) as X. rewrite G2 in X. destruct X as (d3 & E3 & P3 & M3).
  assert (exists d4, play (EvCommitter 0 group_commit.ETimer :: [EvAnswer (next_id d); EvReturn (next_id d)]) d3 = play [EvAnswer (next_id d); EvReturn (next_id d)] d4 /\
    at_phase d d4 b Sent gc3 /\ mem d4 = mem d3) as (d4 & E4 & P4 & M4).
  { pose proof (ap_commit d d3 b Sent gc2 group_commit.ETimer P3 eq_refl) as X. destruct G3 as [G3|[G3 ->]]; rewrite G3 in X.
    - destruct X as (d4 & E4 & P4 & M4). exists d4. by rewrite (play_ok _ _ _ _ E4).
    - exists d3. by rewrite (play_skip _ _ _ X). }
  assert (mem d4 = mem d) as Hm by congruence.
  assert (reply_to (next_id d) d4 = Some (Ok tt)) as Hrt.
  { by eapply (reply_new d d4 gc gc3); [apply (wk_sound _ Hw)|done|apply P4|]. }
  destruct (ap_answer d d4 b gc3 Hw P4 Hm Hrt Hroom) as (d5 & m' & am & E5 & P5 & M5 & A1 & A2 & A3 & A4).
  assert (step (EvReturn (next_id d)) d5 = Ok (return_write (next_id d) (mkWrite b Applying) (Ok tt) d5)) as E6.
  { cbn [db.step]. rewrite (ap_call_in _ _ _ _ _ P5). cbn [on]. rewrite bool_decide_true; [done|]. rewrite M5. cbn. apply elem_of_app. right. by apply list_elem_of_singleton. }
  set (d6 := return_write _ _ _ d5) in E6. pose proof P5 as [S5 So5 (T5 & O5 & St5 & N5 & R5) _ G5].
  assert (reply (next_id d) d6 = Some (RWrite b (Ok tt))) as Hreply.
  { apply (reply_last d); [apply (wk_sound _ Hw)|done|]. cbn. by rewrite R5. }
  destruct (quiet_step Sum128 CompressBlock UncompressBlock coin (EvReturn (next_id d)) d5 d6 S5 eq_refl E6) as (S6 & N6 & _ & So6).
  exists d6. split_and!; [|done| |by cbn; rewrite M5|done|by cbn; rewrite N5].
  - unfold write_plan. rewrite (play_ok _ _ _ _ E1), (play_ok _ _ _ _ E2), (play_ok _ _ _ _ E3), E4, (play_ok _ _ _ _ E5), (play_ok _ _ _ _ E6). done.
  - destruct (answered_write _ _ _ _ _ (So6 _ _ _ So5) Hreply) as [Hidle _]. split; try done; cbn.
    + by rewrite St5, (wk_stage _ Hw).
    + rewrite M5, O5. cbn. by rewrite A3, (wk_size _ Hw).
    + exists am. rewrite M5. unfold applied_writes. cbn -[entry_write]. rewrite M5. cbn -[entry_write]. by rewrite map_app.
    + rewrite T5. apply Hw.
    + by exists gc3.
Qed.

Definition read_plan (id : nat) : list event := [EvReadMem id; EvReadTree id].

(** A database after a read differs in the cache, the calls and their answers. *)
Lemma working_read d d' T : working d -> sound d' -> writes d' = writes d -> stage d' = stage d -> mem d' = mem d -> options d' = options d ->
  committers d' = committers d -> lsm_ok T (tree d') -> working d'.
Proof.
  intros [H1 H2 H3 H4 H5 H6 H7] Hs Hw Hst Hm Ho Hc Ht. split; unfold applied_writes; rewrite ?Hw, ?Hst, ?Hm, ?Ho, ?Hc; try done. by exists T.
Qed.

(** A read call goes through. *)
Lemma play_read d k : working d ->
  exists d' r, play (EvRead k :: read_plan (next_id d)) d = (d', false) /\ reply (next_id d) d' = Some (RRead k r) /\
    (r = Err ErrNotFound \/ exists v, r = Ok v) /\
    working d' /\ applied (mem d') = applied (mem d) /\ options d' = options d /\ next_id d' = S (next_id d).
Proof.
  intros Hw. destruct (ca_open _ (sn_calm _ (wk_sound _ Hw))) as [Hcl Hco]. destruct (wk_mem _ Hw) as (am & M1 & _). destruct (wk_tree _ Hw) as [T HT].
  set (d1 := set_reads (<[next_id d := mkRead k false]> (reads d)) (set_next (S (next_id d)) d)).
  assert (step (EvRead k) d = Ok d1) as E1.
  { cbn [db.step]. rewrite (working_rlock d Hw). cbn [when]. unfold db.Get. cbn [db.closed set_next]. by rewrite Hco. }
  destruct (begin_read Sum128 CompressBlock UncompressBlock coin k d d1 (wk_sound _ Hw) E1) as (S1 & _).
  assert (forall r, (found r = Err ErrNotFound \/ exists v, found r = Ok v)) as Hfound by (intros [v|]; cbn; eauto).
  pose proof (Get_mgr_models _ _ _ k M1) as Hget. unfold read_plan. rewrite (play_ok _ _ _ _ E1).
  destruct ((am ∪ ∅) !! k) as [v|] eqn:Ev.
  - set (d2 := return_read (next_id d) k (found v) d1). assert (step (EvReadMem (next_id d)) d1 = Ok d2) as E2.
    { cbn [db.step reads set_reads d1]. rewrite lookup_insert_eq. cbn [on missed negb when rkey]. unfold Get_mem. cbn [mem set_reads set_next d1]. by rewrite Hget. }
    destruct (quiet_step Sum128 CompressBlock UncompressBlock coin (EvReadMem (next_id d)) d1 d2 S1 eq_refl E2) as (S2 & _).
    rewrite (play_ok _ _ _ _ E2), play_skip; [|cbn [db.step reads d2 return_read add_result set_reads]; by rewrite lookup_delete_eq].
    exists d2, (found v). split_and!; try done; [by apply (reply_last d); [apply (wk_sound _ Hw)|..]|]. by apply (working_read d d2 T).
  - set (d2 := set_reads (<[next_id d := mkRead k true]> (reads d1)) d1). assert (step (EvReadMem (next_id d)) d1 = Ok d2) as E2.
    { cbn [db.step reads set_reads d1]. rewrite lookup_insert_eq. cbn [on missed negb when rkey]. unfold Get_mem. cbn [mem set_reads set_next d1]. by rewrite Hget. }
    destruct (quiet_step Sum128 CompressBlock UncompressBlock coin (EvReadMem (next_id d)) d1 d2 S1 eq_refl E2) as (S2 & _).
    destruct (Get_lsm_ok Sum128 CompressBlock UncompressBlock T (tree d) k HT) as (c & Et & Hc).
    set (x := stored T (lsm.version (tree d)) k) in Et. set (d3 := return_read (next_id d) k (answer x) (set_tree (lsm.set_env (set_cache c (lsm.lenv (tree d))) (tree d)) d2)).
    assert (step (EvReadTree (next_id d)) d2 = Ok d3) as E3.
    { cbn [db.step reads set_reads d2]. rewrite lookup_insert_eq. cbn [on missed andb rkey closing d2 d1 set_reads set_next]. rewrite Hcl. cbn [when bool_decide negb].
      unfold Get_tree. cbn [tree set_reads set_next d2 d1]. rewrite Et. by destruct x. }
    destruct (quiet_step Sum128 CompressBlock UncompressBlock coin (EvReadTree (next_id d)) d2 d3 S2 eq_refl E3) as (S3 & _).
    rewrite (play_ok _ _ _ _ E2), (play_ok _ _ _ _ E3). exists d3, (answer x).
    split_and!; try done; [by apply (reply_last d); [apply (wk_sound _ Hw)|..]|apply Hfound|]. apply (working_read d d3 T); try done. by apply lsm_ok_cache.
Qed.

(** ** Calls of the client API *)

#[local] Instance live_storage : Storage node := node_storage Sum128 CompressBlock UncompressBlock coin.

Context (wire : option bytes -> option bytes).

Definition delivered (op : api_op) : Prop :=
  match op with OGet _ dl _ | OPut _ _ dl _ _ | ODelete _ _ dl _ => dl = Delivered end.

(** What a call writes. *)
Definition op_entries (op : api_op) : list BatchEntry :=
  match op with
  | OGet _ _ _ => []
  | OPut _ _ _ k v => [mkEntry OpPut k (wire v)]
  | ODelete _ _ _ k => [mkEntry OpDelete k None]
  end.

Definition succeeded (a : api_answer) : Prop :=
  match a with AGet (Ok _) | AWrite (Ok _) => True | _ => False end.

Lemma node_write_live d b : working d -> room d (Entries b) ->
  exists d', (forall ps, kv_WriteBatch b (mkNode d (([], write_plan (next_id d)) :: ps) Running) = (mkNode d' ps Running, Ok tt)) /\
    working d' /\ applied (mem d') = applied (mem d) ++ Entries b /\ options d' = options d.
Proof.
  intros Hw Hr. destruct (play_write d b Hw Hr) as (d' & E & Er & Hw' & Ha & Ho & _). exists d'. split_and!; try done. intros ps.
  cbn [kv_WriteBatch live_storage node_storage]. unfold node_WriteBatch, serve. cbn [node_status plans node_db].
  change (List.filter background [] ++ EvWrite b :: List.filter background (write_plan (next_id d))) with (EvWrite b :: write_plan (next_id d)).
  by rewrite E, Er.
Qed.

Lemma node_read_live d k : working d ->
  exists d' r, (forall ps, kv_Get k (mkNode d (([], read_plan (next_id d)) :: ps) Running) = (mkNode d' ps Running, r)) /\
    (r = Err ErrNotFound \/ exists v, r = Ok v) /\ working d' /\ applied (mem d') = applied (mem d) /\ options d' = options d.
Proof.
  intros Hw. destruct (play_read d k Hw) as (d' & r & E & Er & Hr & Hw' & Ha & Ho & _). exists d', r. split_and!; try done. intros ps.
  cbn [kv_Get live_storage node_storage]. unfold node_Get, serve. cbn [node_status plans node_db].
  change (List.filter background [] ++ EvRead k :: List.filter background (read_plan (next_id d))) with (EvRead k :: read_plan (next_id d)).
  by rewrite E, Er.
Qed.

(** The transaction of a write does not look at the storage. *)
Lemma commit_write_storage now1 now2 k (s : node) t :
  commit_write now1 now2 k (mkApi s t) = (mkApi s (txnMgr (commit_write now1 now2 k (mkApi tt t)).1), (commit_write now1 now2 k (mkApi tt t)).2).
Proof. unfold commit_write. cbn [txnMgr storage]. destruct (Begin now1 t) as [tm tx]. by destruct (Commit now2 (AddWrite k tx) tm) as [tm' [ts ok]]. Qed.

(** One call, with a plan of its own. *)
Lemma api_step_live n op d t : working d -> tm_ok n t -> op_times_ok op -> n + 2 < 2 ^ 16 -> delivered op -> room d (op_entries op) ->
  exists p d' t' a, (forall ps, api_step wire op (mkApi (mkNode d (p :: ps) Running) t) = (mkApi (mkNode d' ps Running) t', a)) /\
    succeeded a /\ working d' /\ tm_ok (n + 2) t' /\ applied (mem d') = applied (mem d) ++ op_entries op /\ options d' = options d.
Proof.
  intros Hw Ht Hop Hn Hdl Hroom.
  assert (forall now1 now2 k, time_ok now1 -> time_ok now2 -> exists t' ts, tm_ok (n + 2) t' /\
    forall s : node, commit_write now1 now2 k (mkApi s t) = (mkApi s t', Ok ts)) as Hcw.
  { intros now1 now2 k H1 H2. destruct (commit_write_ok n now1 now2 k (mkApi tt t) Ht H1 H2 Hn) as (t' & ts & E & Ht'). exists t', ts. split; [done|].
    intros s. rewrite commit_write_storage, E. done. }
  destruct op as [now dl k|now1 now2 dl k v|now1 now2 dl k]; cbn [delivered] in Hdl; subst dl; cbn [op_entries] in *.
  - destruct (begin_ok n now t Ht Hop) as (t1 & tx & Eb & [Ht1 Hl1] & _); [lia|]. destruct (node_read_live d k Hw) as (d' & r & E & Hr & Hw' & Ha & Ho).
    assert (tm_ok (n + 2) (Abort tx t1)) as Ht2 by (split; [|done]; destruct Ht1 as [A B]; split; [done|cbn in *; lia]).
    exists ([], read_plan (next_id d)), d', (Abort tx t1), (AGet (Ok (match r with Ok v => (wire (Some v), true) | _ => (wire None, false) end))).
    rewrite app_nil_r. split_and!; try done. intros ps. cbn [api_step]. unfold transport.Get. cbn [txnMgr storage]. rewrite Eb.
    unfold with_storage, client_Get, call, server_Get. cbn [storage txnMgr GKey]. rewrite E. by destruct Hr as [->|[v ->]].
  - destruct Hop as [H1 H2]. destruct (Hcw now1 now2 k H1 H2) as (t' & ts & Ht' & Ec).
    destruct (node_write_live d (wal_batch.Put empty_batch k (wire v)) Hw Hroom) as (d' & E & Hw' & Ha & Ho).
    exists ([], write_plan (next_id d)), d', t', (AWrite (Ok tt)). split_and!; try done. intros ps. cbn [api_step]. unfold transport.Put. rewrite Ec.
    unfold store_put, with_storage, client_WriteBatch, call, server_WriteBatch. cbn [storage txnMgr map Puts Deletes foldl fst snd]. by rewrite E.
  - destruct Hop as [H1 H2]. destruct (Hcw now1 now2 k H1 H2) as (t' & ts & Ht' & Ec).
    destruct (node_write_live d (wal_batch.Delete empty_batch k) Hw Hroom) as (d' & E & Hw' & Ha & Ho).
    exists ([], write_plan (next_id d)), d', t', (AWrite (Ok tt)). split_and!; try done. intros ps. cbn [api_step]. unfold transport.Delete. rewrite Ec.
    unfold store_delete, with_storage, client_WriteBatch, call, server_WriteBatch. cbn [storage txnMgr map Puts Deletes foldl fst snd]. by rewrite E.
Qed.

Lemma room_app d es1 es2 : room d (es1 ++ es2) -> room d es1.
Proof.
  unfold room. rewrite map_app, (assoc_L (++)), sum_app. pose proof (sum_nonneg mem_cost (map entry_write es2) mem_cost_nonneg). lia.
Qed.

Lemma api_run_live ops : forall n d t, working d -> tm_ok n t -> Forall op_times_ok ops -> n + 2 * len ops < 2 ^ 16 -> Forall delivered ops ->
  room d (concat (map op_entries ops)) ->
  exists ps c' answers, api_run wire ops (mkApi (mkNode d ps Running) t) = (c', answers) /\ Forall succeeded answers.
Proof.
  induction ops as [|op ops IH]; intros n d t Hw Ht Htimes Hn Hdl Hroom; [by exists [], (mkApi (mkNode d [] Running) t), []|].
  apply Forall_cons in Htimes as [Ht1 Htimes]. apply Forall_cons in Hdl as [Hd1 Hdl]. rewrite len_cons in Hn. pose proof (len_nonneg ops). cbn [map concat] in Hroom.
  destruct (api_step_live n op d t Hw Ht Ht1 ltac:(lia) Hd1 (room_app _ _ _ Hroom)) as (p & d' & t' & a & E & Ha & Hw' & Ht' & Hap & Ho).
  destruct (IH (n + 2) d' t' Hw' Ht' Htimes ltac:(lia) Hdl) as (ps & c' & answers & E' & Hs).
  { revert Hroom. unfold room, applied_writes. by rewrite Hap, Ho, !map_app, <- (assoc_L (++)). }
  exists (p :: ps), c', (a :: answers). cbn [api_run]. rewrite E, E'. split; [done|by constructor].
Qed.

(** ** Opening *)

Lemma open_working o data :
  opts_ok (lsm_options o) -> sum mem_cost (map entry_write (concat (map Entries (replay data)))) < MemTableSize o < 2 ^ 63 ->
  exists d, Open coin o (mkDir (mkFS (Some data) None []) ∅ []) [] = Ok (Some d) /\ working d /\
    applied (mem d) = concat (map Entries (replay data)) /\ options d = o.
Proof.
  intros Ho Hsz. destruct (NewLSMTree_ok Sum128 CompressBlock _ Ho) as (l & El & Hh & _).
  assert (mgr_models (NewManager (MemTableSize o)) ∅ ∅) as Hnew by (split_and!; [apply NewMemTable_models|done..]).
  destruct (replay_room coin (replay data) _ ∅ [] Hnew eq_refl) as (m & Em & Hi); [intros k v Hv; by rewrite lookup_empty in Hv|done|].
  destruct (replay_spec coin (replay data) _ ∅ ∅ Hnew ltac:(done)) as (r & Er & Hr). rewrite Em in Er. injection Er as <-.
  destruct (Hr m eq_refl) as (am & im & Hm & _ & Hms & _ & Hfrom).
  assert (exists data', Open coin o (mkDir (mkFS (Some data) None []) ∅ []) [] =
    Ok (Some (opened_db o (new_committer o data' []) m (concat (map Entries (replay data))) l))) as [data' E].
  { unfold Open. cbn [wal_files os_call wr_faults fs_log fs_tmp].
    destruct (Recover_cases data) as [E|(data' & E & _)]; rewrite E; cbn [os_call wr_faults sst_files manifest_file]; rewrite El;
      cbn [wal_recovery.Batches clean_result repaired_result]; rewrite Em; cbn; by eexists. }
  eexists. split; [exact E|]. destruct (open_resting Sum128 CompressBlock coin o _ [] _ Ho E) as [Hs _ _]. split_and!; [|done|done].
  split; try done.
  - assert (im = ∅) as -> by (destruct Hm as (_ & _ & _ & Hm); by rewrite Hi in Hm). exists am. split_and!; try done.
    intros k v Hv. destruct (Hfrom k v) as [H|[H|]]; [by left|by rewrite lookup_empty in H..|done].
  - eexists. apply Hh.
  - eexists. split; [reflexivity|]. split; [reflexivity|]. split; [reflexivity|]. split; [reflexivity|]. by apply NewWriter_ok.
Qed.

End live.

(** Memtables of a kilobyte. *)
Definition roomy_options : Options := mkOptions 1024 10 0 false 4096 10 0 0 12.

