(* ===== verification/NodeCrash.v ===== *)
(** * A storage node that crashes

    A machine may stop while the database is in the middle of a step.  On a working disk,
    while the log is at most one block long and what was written fits in one memtable, the
    directory it leaves opens again, and the store has what the calls that returned without
    an error wrote: to the clients the crash is as if the call in progress had failed.  The
    lemmas are about a database opened on a log that already has batches, so that they can
    be used for one crash after another (see [NodeLives]). *)

From S2P Require Import Prelude Order Keys Files WalBatch WalLog WalRecovery GroupCommit SkipList MemTable Manager.
From S2P Require Import Hlc Txn Bloom Cache SSTable SSTableSpec Manifest Heap MergeIter Compaction CompactionSpec Limits Levels.
From S2P Require Import Lsm LsmSpec LsmRefine Db DbSpec DbReads Transport Node NodeLive.
Import wal_log hlc txn wal_batch manager db transport.

#[local] Open Scope Z_scope.

(** ** The log of a committer *)

Abbreviation gc_writer := group_commit.writer.

Section crash.

(** What the log had when the database was opened. *)
Context (base : list Batch).

Definition base_log : bytes := full_bytes (map enc_batch base).
Definition base_file : File := mkFile base_log (len base_log) [].

Definition gc_requests (gc : group_commit.GroupCommitter) : list group_commit.commitRequest :=
  map fst (group_commit.replies gc) ++ group_commit.batch gc ++ group_commit.pending gc.

(** The records of the requests that were answered. *)
Definition gc_records (gc : group_commit.GroupCommitter) : list bytes := map (fun x => x.1.2) (group_commit.replies gc).

(** On a working disk the file has the answered requests and all of it is durable; [stop]
    has not been called. *)
Record journal (gc : group_commit.GroupCommitter) : Prop := {
  jn_run : exists ops, run_wal ops (NewWriter base_file) = (gc_writer gc, Ok tt) /\ appended ops = gc_records gc;
  jn_writer : writer_ok (gc_writer gc);
  jn_synced : fdata (file (gc_writer gc)) = stream (gc_writer gc) /\ fsynced (file (gc_writer gc)) = len (stream (gc_writer gc));
  jn_replies : forall x, x ∈ group_commit.replies gc -> x.2 = Ok tt;
  jn_open : group_commit.stopClosed gc = false;
  jn_running : group_commit.phase_of gc = group_commit.Running;
}.

Lemma journal_new n : journal (group_commit.NewGroupCommitter (NewWriter base_file) n).
Proof.
  split; cbn -[NewWriter]; [by exists []|by apply NewWriter_ok|by rewrite NewWriter_stream|by intros x ?%elem_of_nil|done..].
Qed.

Lemma appended_app o1 o2 : appended (o1 ++ o2) = appended o1 ++ appended o2.
Proof. unfold appended. by rewrite omap_app. Qed.

Lemma appended_requests (rs : list group_commit.commitRequest) : appended (map (fun r => WAppend r.2) rs ++ [WSync]) = map snd rs.
Proof. rewrite appended_app. cbn. rewrite app_nil_r. induction rs as [|r rs IH]; [done|]. cbn. by rewrite <- IH. Qed.

(** A flush appends the records of the batch and answers its requests. *)
Lemma flush_journal gc : journal gc ->
  exists w t, group_commit.flush gc = group_commit.mkGC w (group_commit.pending gc) [] t (group_commit.stopClosed gc) (group_commit.phase_of gc)
    (group_commit.maxBatchSize gc) (group_commit.calls (group_commit.flush gc)) (group_commit.replies gc ++ map (fun r => (r, Ok tt)) (group_commit.batch gc))
    (group_commit.rejected gc) /\ journal (group_commit.flush gc).
Proof.
  intros [(ops & H1 & H2) H3 H4 H5 H6 H7]. unfold group_commit.flush. destruct (group_commit.batch gc) as [|r b] eqn:Eb.
  { exists (gc_writer gc), (group_commit.timerActive gc). rewrite app_nil_r. destruct gc; cbn in *. subst. split; [done|]. split; cbn; eauto. }
  rewrite <- Eb. clear Eb r b. destruct (append_batch_ok (group_commit.batch gc) (gc_writer gc) H3) as (w1 & cs & E). rewrite E.
  destruct (append_batch_calls _ _ _ _ _ E) as [_ Ha].
  destruct (run_wal_small (map (fun r => WAppend r.2) (group_commit.batch gc)) (gc_writer gc) H3) as (w1' & Ha' & Hw1 & _). rewrite Ha in Ha'. injection Ha' as <-.
  destruct (Sync_ok w1 Hw1) as (w2 & E2 & Hw2 & _ & Hf & Hs). rewrite E2. eexists _, _. split; [done|]. split; cbn.
  - exists (ops ++ map (fun r => WAppend r.2) (group_commit.batch gc) ++ [WSync]). rewrite run_wal_app. erewrite st_bind_ok by exact H1.
    rewrite run_wal_app. erewrite st_bind_ok by exact Ha. cbn [run_wal]. erewrite st_bind_ok by exact E2. split; [done|].
    rewrite appended_app, appended_requests, H2. unfold gc_records. cbn. rewrite map_app. f_equal. by rewrite map_map.
  - done.
  - by rewrite Hf, Hs.
  - intros x [Hx|(r & -> & _)%list_elem_of_fmap]%elem_of_app; [by apply H5|done].
  - done.
  - done.
Qed.

Lemma journal_queues gc p b t : journal gc -> journal (group_commit.set_queues p b t gc).
Proof. intros [H1 H2 H3 H4 H5 H6]. by split. Qed.

Lemma flush_records gc gc0 : journal gc -> group_commit.replies gc = group_commit.replies gc0 ->
  journal (group_commit.flush gc) /\ gc_records gc0 `prefix_of` gc_records (group_commit.flush gc).
Proof. intros (w & t & E & H)%flush_journal Er. split; [done|]. rewrite E. unfold gc_records. cbn. rewrite Er, map_app. by eexists. Qed.

(** The steps of a committer that is not stopped. *)
Lemma journal_step e gc gc' : journal gc -> (match e with group_commit.EClose => false | _ => true end) = true -> group_commit.step e gc = Some gc' ->
  journal gc' /\ gc_records gc `prefix_of` gc_records gc'.
Proof.
  intros H He E. pose proof (jn_open _ H) as Ho. pose proof (jn_running _ H) as Hr. destruct e; try done; cbn [group_commit.step] in E; rewrite ?Ho in E; repeat case_match; simplify_eq.
  all: try (split; [by apply journal_queues|done]).
  1-2: by apply flush_records; [apply journal_queues|].
Qed.

(** ** What a log that was cut gives back *)

(** The bytes of the log. *)
Lemma journal_bytes gc : journal gc -> len (full_bytes (map enc_batch base ++ gc_records gc)) <= BlockSize ->
  fdata (file (gc_writer gc)) = full_bytes (map enc_batch base ++ gc_records gc).
Proof.
  rewrite full_bytes_app, len_app. intros [(ops & H1 & H2) _ [H3 _] _ _ _] Hle. destruct (run_wal_fits ops (NewWriter base_file)) as (w & E & Hs).
  - by apply NewWriter_ok.
  - by rewrite NewWriter_stream, H2.
  - rewrite H1 in E. injection E as <-. by rewrite H3, Hs, NewWriter_stream, H2.
Qed.

(** A batch of a log of one block has lengths that fit their fields. *)
Lemma enc_entry_len e es : e ∈ es -> len (Key e) + len (val_bytes (Value e)) <= len (enc_entries es).
Proof.
  intros (l1 & l2 & ->)%list_elem_of_split. unfold enc_entries. rewrite map_app, concat_app, len_app. cbn [map concat]. rewrite len_app. unfold enc_entry at 2.
  rewrite !len_app, !len_put_le. pose proof (len_nonneg (concat (map enc_entry l1))). pose proof (len_nonneg (concat (map enc_entry l2))). pose proof (len_nonneg [Op e]). lia.
Qed.

Lemma enc_entries_count es : len es <= len (enc_entries es).
Proof.
  induction es as [|e es IH]; [done|]. unfold enc_entries in *. cbn [map concat]. rewrite len_app, len_cons. unfold enc_entry at 1. rewrite !len_app.
  pose proof (len_nonneg (put_le 4 (len (Key e)))). pose proof (len_nonneg (Key e)). pose proof (len_nonneg (put_le 4 (len (val_bytes (Value e))))).
  pose proof (len_nonneg (val_bytes (Value e))). change (len [Op e]) with 1. lia.
Qed.

Lemma small_batch_ok b : len (enc_batch b) <= BlockSize -> batch_ok b.
Proof.
  unfold enc_batch. rewrite len_app, len_put_le. change BlockSize with 32768. intros Hle. pose proof (enc_entries_count (Entries b)). split; [lia|].
  apply Forall_forall. intros e He%enc_entry_len. pose proof (len_nonneg (Key e)). pose proof (len_nonneg (val_bytes (Value e))). split; lia.
Qed.

Lemma full_bytes_elem r rs : r ∈ rs -> len r <= len (full_bytes rs).
Proof.
  intros (l1 & l2 & ->)%list_elem_of_split. rewrite full_bytes_app, len_app. change (r :: l2) with ([r] ++ l2). rewrite full_bytes_app, len_app.
  assert (full_bytes [r] = frag_bytes (WalLog.full r)) as -> by (unfold full_bytes; cbn; by rewrite app_nil_r). rewrite len_frag. cbn [WalLog.full snd].
  pose proof (len_nonneg (full_bytes l1)). pose proof (len_nonneg (full_bytes l2)). lia.
Qed.

Lemma small_batches_ok bs : len (full_bytes (map enc_batch bs)) <= BlockSize -> Forall batch_ok bs.
Proof.
  intros Hle. apply Forall_forall. intros b Hb. apply small_batch_ok. pose proof (full_bytes_elem (enc_batch b) (map enc_batch bs) ltac:(by apply list_elem_of_fmap_2)). lia.
Qed.

(** A log of batches that was cut has those that are wholly in what is left. *)
Lemma replay_full bs1 bs2 n : len (full_bytes (map enc_batch (bs1 ++ bs2))) <= BlockSize -> (length (full_bytes (map enc_batch bs1)) <= n)%nat ->
  exists p, p `prefix_of` bs2 /\ replay (take n (full_bytes (map enc_batch (bs1 ++ bs2)))) = map norm_batch (bs1 ++ p).
Proof.
  intros Hle Hn. destruct (ReadAll_full_prefix (map enc_batch (bs1 ++ bs2)) n Hle) as (k & e & E & Hk). unfold replay. rewrite E. cbn [fst].
  rewrite firstn_map, decode_all_enc by (by apply Forall_take, small_batches_ok). cbn [fst].
  assert (length bs1 <= k)%nat as Hlk.
  { destruct (decide (length bs1 <= k)%nat) as [|Hlt]; [done|]. specialize (Hk ltac:(rewrite length_map, length_app; lia)).
    rewrite firstn_map, take_app_le in Hk by lia. rewrite <- (take_drop (S k) bs1), map_app, full_bytes_app, length_app in Hn. lia. }
  exists (take (k - length bs1) bs2). split; [apply prefix_take|]. by rewrite take_app, (take_ge bs1) by done.
Qed.

(** ** What the database was asked to write *)

Definition requests (d : DB) : list group_commit.commitRequest :=
  match committers d !! 0%nat with Some gc => gc_requests gc | None => [] end.

Definition payloads (rs : list group_commit.commitRequest) : list bytes := map snd rs.

Lemma payloads_app rs1 rs2 : payloads (rs1 ++ rs2) = payloads rs1 ++ payloads rs2.
Proof. apply map_app. Qed.

(** What the log had and the records of the requests take at most one block, and their
    entries fit in one memtable. *)
Record modest (d : DB) : Prop := {
  md_block : len (full_bytes (map enc_batch base ++ payloads (requests d))) <= BlockSize;
  md_room : sum mem_cost (map entry_write (concat (map Entries (base ++ (decode_all (payloads (requests d))).1)))) < MemTableSize (options d) < 2 ^ 63;
}.

Lemma decode_all_app l1 l2 : (decode_all l1).1 `prefix_of` (decode_all (l1 ++ l2)).1.
Proof.
  induction l1 as [|r l1 IH]; [apply prefix_nil|]. cbn [decode_all app]. destruct (DecodeBatch r); [|done..].
  destruct (decode_all l1) as [bs x], (decode_all (l1 ++ l2)) as [bs' x']. cbn [fst] in *. by apply prefix_cons.
Qed.

Lemma modest_before d d' : requests d `prefix_of` requests d' -> options d' = options d -> modest d' -> modest d.
Proof.
  intros [rs E] Ho [H1 H2]. rewrite E, payloads_app in H1, H2. split.
  - rewrite (assoc_L (++)), full_bytes_app, len_app in H1. pose proof (len_nonneg (full_bytes (payloads rs))). lia.
  - destruct (decode_all_app (payloads (requests d)) (payloads rs)) as [bs Eb]. rewrite Eb, (assoc_L (++)), map_app, concat_app, map_app, sum_app, Ho in H2.
    pose proof (sum_nonneg mem_cost (map entry_write (concat (map Entries bs))) mem_cost_nonneg). lia.
Qed.

Lemma gc_step_requests es e gc gc' : gc_inv es gc -> group_commit.step e gc = Some gc' -> gc_requests gc' = gc_requests gc ++ GroupCommit.sent [e].
Proof.
  intros H E. unfold gc_requests. rewrite (inv_fifo _ _ H), (inv_fifo _ _ (gc_step_inv _ _ _ _ H E)). unfold GroupCommit.sent. by rewrite omap_app.
Qed.

Context (Sum128 : bytes -> Z * Z).
Context (CompressBlock : bytes -> option bytes) (UncompressBlock : bytes -> Z -> option bytes).
Context `{!Lz4 CompressBlock UncompressBlock}.
Context (coin : nat -> bool).

Abbreviation step := (db.step Sum128 CompressBlock UncompressBlock coin).
Abbreviation run := (db.run Sum128 CompressBlock UncompressBlock coin).
Abbreviation play := (play Sum128 CompressBlock UncompressBlock coin).
Abbreviation lsm_ok := (LsmSpec.lsm_ok Sum128 CompressBlock).

Lemma commit_requests i e d gc gc' : db_inv d -> committers d !! i = Some gc -> group_commit.step e gc = Some gc' ->
  requests d `prefix_of` requests (set_committers (<[i := gc']> (committers d)) d).
Proof.
  intros H Hg E. destruct (di_head _ H) as (gc0 & es & Hg0 & Hh). unfold requests. cbn. destruct (decide (i = 0%nat)) as [->|Hi].
  - rewrite list_lookup_insert_eq by (by eapply lookup_lt_Some). rewrite Hg. rewrite Hg0 in Hg. injection Hg as <-.
    rewrite (gc_step_requests _ _ _ _ (hd_inv _ _ _ _ _ _ _ _ _ Hh) E). by eexists.
  - by rewrite list_lookup_insert_ne.
Qed.

Lemma close_requests d : requests (close_wal d).1 = requests d.
Proof.
  unfold close_wal, close_writer. destruct (last (committers d)) as [gc|] eqn:E; [|done]. rewrite last_lookup in E. destruct (wal_log.Close (gc_writer gc)) as [w r].
  unfold requests. cbn. replace (length (committers d) - 1)%nat with (Nat.pred (length (committers d))) by lia. destruct (decide (Nat.pred (length (committers d)) = 0%nat)) as [Hz|Hz].
  - rewrite Hz in *. rewrite list_lookup_insert_eq by (by eapply lookup_lt_Some). by rewrite E.
  - by rewrite list_lookup_insert_ne.
Qed.

Lemma requests_step e d d' : db_inv d -> step e d = Ok d' -> requests d `prefix_of` requests d'.
Proof.
  intros H E. assert (forall d1 d2, committers d2 = committers d1 -> requests d1 `prefix_of` requests d2) as Hsame by (intros d1 d2 Hc; unfold requests; by rewrite Hc).
  destruct e; cbn [db.step] in E; unfold send, reject, answered, flush_tree, stop_committer, Get_mem, Get_tree in E; inv_db_step; try by apply Hsame.
  all: try (etrans; [by eapply commit_requests|by apply Hsame]).
  - apply Hsame. unfold WriteBatch. by case_match.
  - unfold rotateWAL. pose proof (close_requests d) as Hc. destruct (close_wal d) as [d1 r]. cbn [fst] in Hc. rewrite <- Hc.
    destruct rename_fails, create_fails; try by apply Hsame. unfold requests. cbn. destruct (committers d1) as [|gc cs]; [apply prefix_nil|done].
  - apply Hsame. unfold db.Get. by case_match.
  - unfold finish_close. pose proof (close_requests d) as Hc. destruct (close_wal d) as [d1 r]. cbn [fst] in Hc. rewrite <- Hc.
    destruct (lsm.Close (tree d1)) as [t x]. by apply Hsame.
Qed.

(** ** Before the first flush *)

(** A database that has not been flushed, with the committer [gc] on a working disk. *)
Record plain (d : DB) (gc : group_commit.GroupCommitter) : Prop := {
  pl_sound : sound d;
  pl_stage : stage d = FlushTree /\ fl (mem d) = Idle /\ manager.stopClosed (mem d) = false;
  pl_tasks : blocked (mem d) = [] /\ ready (mem d) = [];
  pl_size : msize (mgr (mem d)) = MemTableSize (options d);
  pl_mem : exists am, mgr_models (mgr (mem d)) am ∅ /\ immutable (mgr (mem d)) = None /\ in_writes am (applied_writes d);
  pl_tree : exists T, lsm_ok T (tree d);
  pl_empty : small_tree 0 (tree d) /\ compaction.sst (lsm.lenv (tree d)) = ∅ /\ fdata (manifest.mfile (compaction.man (lsm.lenv (tree d)))) = [];
  pl_log : linked d = true /\ committers d = [gc] /\ journal gc;
  pl_started : started (mem d) = true;
}.

(** What a step does to the write calls and to what is applied, with the requests it sends. *)
Inductive effect (d d' : DB) : list group_commit.commitRequest -> Prop :=
  | EffNone : writes d' = writes d -> (forall id b r, (id, RWrite b r) ∈ results d' <-> (id, RWrite b r) ∈ results d) ->
      applied (mem d') = applied (mem d) -> effect d d' []
  | EffSend id w : call_in Begun id d = Some w -> writes d' = <[id := mkWrite (wbatch w) Sent]> (writes d) -> results d' = results d ->
      applied (mem d') = applied (mem d) -> effect d d' [(id, enc_batch (wbatch w))]
  | EffAnswer id w : call_in Sent id d = Some w -> writes d' = <[id := mkWrite (wbatch w) Applying]> (writes d) -> results d' = results d ->
      applied (mem d') = applied (mem d) ++ Entries (wbatch w) -> effect d d' []
  | EffReturn id w : call_in Applying id d = Some w -> writes d' = delete id (writes d) -> results d' = results d ++ [(id, RWrite (wbatch w) (Ok tt))] ->
      applied (mem d') = applied (mem d) -> effect d d' [].

Lemma plain_same d d' gc : plain d gc -> sound d' -> stage d' = stage d -> mem d' = mem d -> options d' = options d -> tree d' = tree d ->
  linked d' = linked d -> committers d' = committers d -> plain d' gc.
Proof.
  intros [H1 H2 H3 H4 H5 H6 H7 H8] Hs Hst Hm Ho Ht Hl Hc. split; unfold applied_writes; rewrite ?Hst, ?Hm, ?Ho, ?Ht, ?Hl, ?Hc; done.
Qed.

Lemma plain_commit d d' gc gc' : plain d gc -> sound d' -> stage d' = stage d -> mem d' = mem d -> options d' = options d -> tree d' = tree d ->
  linked d' = linked d -> committers d' = <[0%nat := gc']> (committers d) -> journal gc' -> plain d' gc'.
Proof.
  intros [H1 H2 H3 H4 H5 H6 H7 (H8 & H9 & H10)] Hs Hst Hm Ho Ht Hl Hc Hj. split; unfold applied_writes; rewrite ?Hst, ?Hm, ?Ho, ?Ht, ?Hl, ?Hc, ?H9; done.
Qed.

Lemma effect_same d d' : writes d' = writes d -> results d' = results d -> applied (mem d') = applied (mem d) -> effect d d' [].
Proof. intros Hw Hr. apply EffNone; [done|]. by rewrite Hr. Qed.

Lemma effect_read d d' id k r : writes d' = writes d -> results d' = results d ++ [(id, RRead k r)] -> applied (mem d') = applied (mem d) -> effect d d' [].
Proof.
  intros Hw Hr. apply EffNone; [done|]. intros id' b r'. rewrite Hr, elem_of_app, list_elem_of_singleton. split; [by intros [|]|by left].
Qed.

Lemma plain_gc_inv d gc : plain d gc -> exists es, gc_inv es gc.
Proof.
  intros H. destruct (di_head _ (sn_inv _ (pl_sound _ _ H))) as (gc0 & es & Hg & Hh). destruct (pl_log _ _ H) as (_ & Hc & _). rewrite Hc in Hg. injection Hg as <-.
  exists es. apply Hh.
Qed.

(** A step of the committer. *)
Lemma plain_commit_step d d' gc i e gc1 gc' :
  plain d gc -> sound d' -> stage d' = stage d -> mem d' = mem d -> options d' = options d -> tree d' = tree d -> linked d' = linked d ->
  committers d !! i = Some gc1 -> group_commit.step e gc1 = Some gc' -> (match e with group_commit.EClose => false | _ => true end) = true ->
  committers d' = <[i := gc']> (committers d) ->
  plain d' gc' /\ gc_requests gc' = gc_requests gc ++ GroupCommit.sent [e] /\ gc_records gc `prefix_of` gc_records gc'.
Proof.
  intros H Hs Hst Hm Ho Ht Hl Hg E He Hc. pose proof (pl_log _ _ H) as (_ & Hcs & Hj). rewrite Hcs in Hg.
  destruct i as [|i]; [injection Hg as <-|by destruct i]. destruct (plain_gc_inv d gc H) as [es Hes].
  destruct (journal_step e gc gc' Hj He E) as [Hj' Hp]. split_and!; [by apply (plain_commit d d' gc)|by eapply gc_step_requests|done].
Qed.

(** The answer of the committer, and what the call writes. *)
Lemma plain_answer d gc id w d' : plain d gc -> call_in Sent id d = Some w -> room d (Entries (wbatch w)) -> sound d' -> answered coin id w d = Ok d' ->
  plain d' gc /\ effect d d' [].
Proof.
  intros H Hw Hroom Hs E. pose proof (pl_log _ _ H) as (_ & Hc & Hj). unfold answered in E. destruct (reply_to id d) as [r|] eqn:Er; [|done].
  assert (r = Ok tt) as ->.
  { unfold reply_to in Er. rewrite Hc in Er. cbn [mbind option_bind lookup list_lookup] in Er. destruct (list_find _ _) as [[i x]|] eqn:Ef; [|done].
    injection Er as <-. apply list_find_Some in Ef as (Ef & _). apply (jn_replies _ Hj). by eapply list_elem_of_lookup_2. }
  apply bind_ok in E as (d1 & (m & E & ->)%mem_step_ok & [= <-]). cbn [manager.step] in E.
  destruct (pl_mem _ _ H) as (am & M1 & M2 & M3). destruct (write_entries_room coin (Entries (wbatch w)) _ am _ M1 M2 M3) as (m' & am' & Ew & A1 & A2 & A3 & A4).
  { by rewrite (pl_size _ _ H). }
  unfold run_task in E. cbn [snd] in E. rewrite Ew in E. cbn in E. rewrite Nat.sub_0_r, firstn_all in E. injection E as <-.
  split; [|by eapply EffAnswer]. destruct H as [H1 H2 H3 H4 H5 H6 H7 H8]. split; try done; cbn.
  - by rewrite A3.
  - exists am'. split_and!; try done. unfold applied_writes. cbn -[entry_write]. by rewrite map_app.
Qed.

Lemma plain_step e d d' gc : plain d gc -> background e = true -> (forall id w, call_in Sent id d = Some w -> room d (Entries (wbatch w))) -> step e d = Ok d' ->
  exists gc' rs, plain d' gc' /\ gc_requests gc' = gc_requests gc ++ rs /\ gc_records gc `prefix_of` gc_records gc' /\ effect d d' rs.
Proof.
  intros H Hb Hroom E. destruct (quiet_step Sum128 CompressBlock UncompressBlock coin e d d' (pl_sound _ _ H) Hb E) as (Hs & _).
  pose proof (pl_stage _ _ H) as (Hst & Hfl & Hsc). pose proof (pl_tasks _ _ H) as [Hbl Hrd]. destruct (ca_open _ (sn_calm _ (pl_sound _ _ H))) as [Hcl _].
  assert (forall d', plain d' gc -> effect d d' [] -> exists gc' rs, plain d' gc' /\ gc_requests gc' = gc_requests gc ++ rs /\ gc_records gc `prefix_of` gc_records gc' /\ effect d d' rs)
    as Hsame by (intros d0 ? ?; exists gc, []; by rewrite app_nil_r).
  destruct e; try done; cbn [db.step] in E; rewrite ?Hst, ?Hcl, ?Hfl in E; try discriminate E.
  - apply on_ok in E as (w & Hw & E). unfold send in E. rewrite Encode_ok in E. cbn [no_error mbind outcome_bind] in E. inv_db_step.
    match goal with G : committers d !! _ = Some _, G' : group_commit.step _ _ = Some _ |- _ =>
      destruct (plain_commit_step d _ gc _ _ _ _ H Hs eq_refl eq_refl eq_refl eq_refl eq_refl G G' eq_refl eq_refl) as (A & B & C) end.
    eexists _, _. split_and!; [exact A|exact B|exact C|]. by eapply EffSend.
  - apply on_ok in E as (w & Hw & E). unfold reject in E. inv_db_step. pose proof (pl_log _ _ H) as (_ & Hc & Hj).
    match goal with G : committers d !! 0%nat = Some _ |- _ => rewrite Hc in G; injection G as <- end.
    match goal with G : group_commit.step _ gc = Some _ |- _ => cbn [group_commit.step] in G; by rewrite (jn_open _ Hj) in G end.
  - apply on_ok in E as (w & Hw & E). destruct (plain_answer d gc id w d' H Hw (Hroom _ _ Hw) Hs E). by apply Hsame.
  - apply on_ok in E as (w & Hw & [_ [= <-]]%when_ok). apply Hsame; [by apply (plain_same d)|]. by eapply EffReturn.
  - apply when_ok in E as [He E]. inv_db_step.
    match goal with G : committers d !! _ = Some _, G' : group_commit.step e _ = Some _ |- _ =>
      destruct (plain_commit_step d _ gc _ e _ _ H Hs eq_refl eq_refl eq_refl eq_refl eq_refl G G' ltac:(by destruct e) eq_refl) as (A & B & C) end.
    assert (GroupCommit.sent [e] = []) as Hse by by destruct e. rewrite Hse in B. eexists _, _. split_and!; [exact A|exact B|exact C|]. by apply effect_same.
  - apply mem_step_ok in E as (m & E & ->). cbn [manager.step] in E. by rewrite Hrd in E.
  - apply mem_step_ok in E as (m & E & ->). cbn [manager.step] in E. destruct (pl_mem _ _ H) as (am & M1 & M2 & M3). rewrite Hfl, M2 in E.
    destruct (started (mem d)), (flushCh (mgr (mem d))); try done. injection E as <-. apply Hsame; [|by apply effect_same].
    destruct H as [H1 H2 H3 H4 H5 H6 H7 H8]. split; try done.
  - apply mem_step_ok in E as (m & E & ->). cbn [manager.step] in E. rewrite Hfl, Hsc in E. by destruct (started (mem d)).
  - apply when_ok in E as [_ E]. unfold lsm.compact_once in E.
    assert (compaction.PickCompaction (lsm.version (tree d)) = Ok None) as Ep.
    { destruct (pl_tree _ _ H) as [T HT]. eapply (small_pick 0); [apply (pl_empty _ _ H)|lia|apply HT]. }
    rewrite Ep in E. injection E as <-. apply Hsame; [by apply (plain_same d)|by apply effect_same].
  - apply on_ok in E as (r & Er & [_ E]%when_ok). unfold Get_mem in E. apply bind_ok in E as ([v []] & _ & [= <-]).
    + apply Hsame; [by apply (plain_same d)|by eapply effect_read].
    + apply Hsame; [by apply (plain_same d)|by apply effect_same].
  - apply on_ok in E as (r & Er & [_ E]%when_ok). unfold Get_tree in E. destruct (pl_tree _ _ H) as [T HT].
    destruct (Get_lsm_ok Sum128 CompressBlock UncompressBlock T (tree d) (rkey r) HT) as (c & Et & Hc). rewrite Et in E.
    assert (forall x, d' = return_read id (rkey r) x (set_tree (lsm.set_env (set_cache c (lsm.lenv (tree d))) (tree d)) d) ->
      exists gc' rs, plain d' gc' /\ gc_requests gc' = gc_requests gc ++ rs /\ gc_records gc `prefix_of` gc_records gc' /\ effect d d' rs) as Hx.
    { intros x ->. apply Hsame; [|by eapply effect_read]. destruct H as [H1 H2 H3 H4 H5 H6 H7 H8]. split; try done. exists T. by apply lsm_ok_cache. }
    destruct (stored T (lsm.version (tree d)) (rkey r)); injection E as <-; by eapply Hx.
Qed.

(** ** Writes one after the other *)

Definition normal (e : BatchEntry) : Prop := norm_entry e = e.
Definition normal_batch (b : Batch) : Prop := Forall normal (Entries b).

Lemma norm_normal b : normal_batch b -> norm_batch b = b.
Proof. intros H. destruct b as [es]. unfold norm_batch, normal_batch in *. cbn [Entries] in *. f_equal. induction H as [|e l He _ IH]; [done|]. cbn. by rewrite He, IH. Qed.

Lemma norm_normals bs : Forall normal_batch bs -> map norm_batch bs = bs.
Proof. induction 1 as [|b bs Hb _ IH]; [done|]. cbn. by rewrite (norm_normal b Hb), IH. Qed.

Lemma decode_normals bs : Forall normal_batch bs -> len (full_bytes (map enc_batch bs)) <= BlockSize -> (decode_all (map enc_batch bs)).1 = bs.
Proof. intros Hn Hle. rewrite decode_all_enc by (by apply small_batches_ok). cbn [fst]. by apply norm_normals. Qed.

(** The records behind what the log had. *)
Lemma prefix_same_length {A} (l1 l2 l : list A) : l1 `prefix_of` l -> l2 `prefix_of` l -> length l1 = length l2 -> l1 = l2.
Proof. intros [k1 ->] [k2 E] Hl. by apply app_inj_1 in E as [-> _]. Qed.

(** Behind the last whole record of a log that was cut there is nothing, or at least a header. *)
Definition tidy (data : bytes) : Prop :=
  len data = len (full_bytes (map enc_batch (replay data))) \/ len (full_bytes (map enc_batch (replay data))) + 7 <= len data.

(** Recovery of such a log leaves the records that it returns and nothing else. *)
Lemma Recover_tidy bs n : Forall normal_batch bs -> len (full_bytes (map enc_batch bs)) <= BlockSize ->
  let data := take n (full_bytes (map enc_batch bs)) in tidy data ->
  exists res, wal_recovery.Recover [] (mkFS (Some data) None []) = (mkFS (Some (full_bytes (map enc_batch (replay data)))) None [], Ok res) /\
    wal_recovery.Batches res = replay data /\ Forall normal_batch (replay data).
Proof.
  intros Hn Hle data Ht. destruct (ReadAll_total data) as (rs & e & HR & He).
  destruct (ReadAll_full_prefix (map enc_batch bs) n Hle) as (k & e' & E & _). fold data in E. rewrite HR in E. injection E as -> <-.
  rewrite firstn_map in HR. pose proof (Forall_take _ k bs Hn) as Hn1. pose proof (Forall_take _ k _ (small_batches_ok bs Hle)) as Hok.
  assert (decode_all (map enc_batch (take k bs)) = (take k bs, true)) as Hd by (rewrite decode_all_enc, norm_normals by done; done).
  assert (replay data = take k bs) as Hr by (unfold replay; rewrite HR; cbn [fst]; by rewrite Hd).
  assert (full_bytes (map enc_batch (take k bs)) `prefix_of` full_bytes (map enc_batch bs)) as Hp.
  { rewrite <- (take_drop k bs) at 2. rewrite map_app, full_bytes_app. by eexists. }
  unfold tidy in Ht. rewrite Hr in *. unfold wal_recovery.Recover. cbn [fs_log os_call]. rewrite (recover_loop_spec _ _ _ _ _ HR), Hd. cbn [app].
  assert (e <> EOF \/ e = EOF) as [Hne| ->] by (destruct He as [->|[->| ->]]; auto).
  - assert (len (full_bytes (map enc_batch (take k bs))) <= BlockSize) as Hs by (apply prefix_length in Hp; unfold len in *; lia).
    pose proof (rewrite_log_small (take k bs) (Some data) Hs) as E.
    exists (repaired_result (take k bs)). destruct He as [->|[->| ->]]; [done|by rewrite E..].
  - pose proof (ReadAll_full_eof _ n _ Hle HR) as Hlt. fold data in Hlt. destruct Ht as [Ht|]; [|lia]. exists (clean_result (take k bs)).
    assert (data = full_bytes (map enc_batch (take k bs))) as <-; [|done].
    apply (prefix_same_length _ _ _ (prefix_take _ n) Hp). unfold len in Ht. by apply Nat2Z.inj.
Qed.

Lemma decode_behind bs : Forall normal_batch (base ++ bs) -> len (full_bytes (map enc_batch base ++ map enc_batch bs)) <= BlockSize -> (decode_all (map enc_batch bs)).1 = bs.
Proof.
  intros [_ Hn]%Forall_app Hle. rewrite full_bytes_app, len_app in Hle. pose proof (len_nonneg (full_bytes (map enc_batch base))). apply decode_normals; [done|lia].
Qed.

(** A database between calls, which was asked to write the batches [bs]. *)
Record settled (bs : list Batch) (d : DB) (gc : group_commit.GroupCommitter) : Prop := {
  se_plain : plain d gc;
  se_idle : writes d = ∅;
  se_normal : Forall normal_batch (base ++ bs);
  se_requests : payloads (gc_requests gc) = map enc_batch bs;
  se_applied : applied (mem d) = concat (map Entries (base ++ bs));
}.

(** A database with the only write call [id], of [b]; [s]: the batch is on the way to the log. *)
Record in_call (id : nat) (b : Batch) (bs : list Batch) (d : DB) (gc : group_commit.GroupCommitter) : Prop := {
  ic_plain : plain d gc;
  ic_sole : sole id b (concat (map Entries (base ++ bs))) d;
  ic_normal : Forall normal_batch (base ++ bs ++ [b]);
  ic_records : map enc_batch bs `prefix_of` gc_records gc;
  ic_sent : exists s : bool, payloads (gc_requests gc) = map enc_batch (bs ++ if s then [b] else []) /\
    (forall w, writes d !! id = Some w -> s = negb (bool_decide (wphase w = Begun))) /\
    (forall r, (id, RWrite b r) ∈ results d -> r = Ok tt /\ s = true);
}.

Lemma plain_requests d gc : plain d gc -> requests d = gc_requests gc.
Proof. intros H. unfold requests. destruct (pl_log _ _ H) as (_ & -> & _). done. Qed.

Lemma records_requests gc : gc_records gc `prefix_of` payloads (gc_requests gc).
Proof. unfold gc_records, gc_requests. rewrite payloads_app. exists (payloads (group_commit.batch gc ++ group_commit.pending gc)). f_equal. unfold payloads. by rewrite map_map. Qed.

(** Between calls all requests have been answered. *)
Lemma idle_queues d gc : plain d gc -> writes d = ∅ -> group_commit.batch gc = [] /\ group_commit.pending gc = [].
Proof.
  intros H Hw. destruct (di_head _ (sn_inv _ (pl_sound _ _ H))) as (gc0 & es & Hg & Hh). destruct (pl_log _ _ H) as (_ & Hc & _). rewrite Hc in Hg. injection Hg as <-.
  apply app_nil. destruct (group_commit.batch gc ++ group_commit.pending gc) as [|r l] eqn:E; [done|]. destruct (hd_wait _ _ _ _ _ _ _ _ _ Hh r) as (w & Ew & _).
  - rewrite E. left.
  - by rewrite Hw, lookup_empty in Ew.
Qed.

Lemma idle_records d gc : plain d gc -> writes d = ∅ -> gc_records gc = payloads (gc_requests gc).
Proof.
  intros H Hw. destruct (idle_queues d gc H Hw) as [Hb Hp]. unfold gc_records, gc_requests. rewrite Hb, Hp. cbn. rewrite app_nil_r. unfold payloads. by rewrite map_map.
Qed.

Lemma settled_step bs e d d' gc : settled bs d gc -> background e = true -> step e d = Ok d' -> exists gc', settled bs d' gc'.
Proof.
  intros [H1 H2 H3 H4 H5] Hb E. destruct (no_writes d (sn_inv _ (pl_sound _ _ H1)) H2) as [Hc _].
  destruct (quiet_step Sum128 CompressBlock UncompressBlock coin e d d' (pl_sound _ _ H1) Hb E) as (_ & _ & Hi & _). destruct (Hi H2) as [Hw Ha].
  destruct (plain_step e d d' gc H1 Hb) as (gc' & rs & P & R & _ & F); [|done|].
  - intros id w Hw'. by rewrite Hc in Hw'.
  - exists gc'. assert (rs = []) as ->. { destruct F as [|id w Hw'| |]; [done| |done..]. by rewrite Hc in Hw'. }
    rewrite app_nil_r in R. split; try done; congruence.
Qed.

(** There is room for the batch of a call that has sent it. *)
Lemma call_room id b bs d gc : in_call id b bs d gc -> modest d -> forall id' w, call_in Sent id' d = Some w -> room d (Entries (wbatch w)).
Proof.
  intros [H1 H2 H3 H4 (s & R & S1 & _)] [M1 M2] id' w Hw. destruct (sole_call _ _ _ _ _ _ _ H2 Hw) as [-> ->]. apply call_in_ok in Hw as [Ew Hp].
  rewrite (S1 w Ew), Hp in R. change (if negb (bool_decide (Sent = Begun)) then [b] else []) with [b] in R. rewrite (plain_requests d gc H1), R in M1, M2. rewrite decode_behind in M2 by done.
  destruct (so_state _ _ _ _ H2) as (dn & rest & _ & Ha & Hst). rewrite Ew, Hp in Hst. destruct Hst as [_ ->]. rewrite app_nil_r in Ha.
  unfold room, applied_writes. rewrite Ha. rewrite (assoc_L (++)), map_app, concat_app, map_app in M2. cbn [map concat] in M2. by rewrite app_nil_r in M2.
Qed.

Lemma call_step id b bs e d d' gc : in_call id b bs d gc -> modest d -> background e = true -> step e d = Ok d' -> exists gc', in_call id b bs d' gc'.
Proof.
  intros H M Hb E. pose proof (call_room _ _ _ _ _ H M) as Hroom. destruct H as [H1 H2 H3 H4 (s & R & S1 & S2)].
  destruct (quiet_step Sum128 CompressBlock UncompressBlock coin e d d' (pl_sound _ _ H1) Hb E) as (_ & _ & _ & Hso).
  destruct (plain_step e d d' gc H1 Hb Hroom E) as (gc' & rs & P & R' & Hp & F). exists gc'. split; [done|by apply Hso|done|by etrans|].
  destruct F as [Fw Fr|id' w Hw Fw Fr|id' w Hw Fw Fr|id' w Hw Fw Fr].
  - exists s. rewrite R', app_nil_r, Fw. split_and!; [done..|]. intros r Hr%Fr. by apply S2.
  - destruct (sole_call _ _ _ _ _ _ _ H2 Hw) as [-> Hwb]. apply call_in_ok in Hw as [Ew Hph]. exists true. rewrite R', payloads_app, R, Fw, Fr.
    specialize (S1 w Ew). rewrite Hph in S1. cbn in S1. subst s. rewrite app_nil_r, map_app, Hwb. split_and!; [done| |].
    + rewrite lookup_insert_eq. by intros ? [= <-].
    + intros r Hr. by destruct (S2 r Hr).
  - destruct (sole_call _ _ _ _ _ _ _ H2 Hw) as [-> Hwb]. apply call_in_ok in Hw as [Ew Hph]. exists s. rewrite R', app_nil_r, Fw, Fr. split_and!; [done| |done].
    rewrite lookup_insert_eq. intros ? [= <-]. rewrite (S1 w Ew), Hph. done.
  - destruct (sole_call _ _ _ _ _ _ _ H2 Hw) as [-> Hwb]. apply call_in_ok in Hw as [Ew Hph]. exists s. rewrite R', app_nil_r, Fw, Fr. split_and!; [done| |].
    + by rewrite lookup_delete_eq.
    + intros r [Hr|[= -> ->]%list_elem_of_singleton]%elem_of_app; [by apply S2|]. split; [done|]. by rewrite (S1 w Ew), Hph.
Qed.

Lemma requests_run es : forall d d', db_inv d -> run es d = Ok d' -> requests d `prefix_of` requests d'.
Proof.
  induction es as [|e es IH]; intros d d' H E; cbn in E; [by injection E as <-|]. apply bind_ok in E as (d1 & E1 & E).
  etrans; [by eapply requests_step|]. apply IH; [|done]. by eapply db_step_inv.
Qed.

Definition valid (d : DB) : Prop := db_inv d /\ reads_ok d.

Lemma sound_valid d : sound d -> valid d.
Proof. by intros [H1 H2 _]. Qed.

Lemma valid_run es d d' : valid d -> run es d = Ok d' -> valid d'.
Proof.
  intros [H1 H2] E. split; [by eapply run_inv|]. by destruct (run_keeps Sum128 CompressBlock UncompressBlock coin es d d' H1 H2 E) as (_ & _ & H).
Qed.

Lemma modest_run es d d' : valid d -> run es d = Ok d' -> modest d' -> modest d.
Proof.
  intros [H1 H2] E. apply modest_before; [by eapply requests_run|].
  by destruct (run_keeps Sum128 CompressBlock UncompressBlock coin es d d' H1 H2 E) as (Ho & _).
Qed.

Lemma settled_run bs es : forall d d' gc, settled bs d gc -> quiet es -> run es d = Ok d' -> exists gc', settled bs d' gc'.
Proof.
  induction es as [|e es IH]; intros d d' gc H Hq E; cbn in E; [injection E as <-; eauto|]. apply bind_ok in E as (d1 & E1 & E).
  apply Forall_cons in Hq as [He Hq]. destruct (settled_step bs e d d1 gc H He E1) as [gc1 H1]. by eapply IH.
Qed.

Lemma call_run id b bs es : forall d d' gc, in_call id b bs d gc -> quiet es -> run es d = Ok d' -> modest d' -> exists gc', in_call id b bs d' gc'.
Proof.
  induction es as [|e es IH]; intros d d' gc H Hq E M; cbn in E; [injection E as <-; eauto|].
  pose proof (modest_run (e :: es) d d' (sound_valid _ (pl_sound _ _ (ic_plain _ _ _ _ _ H))) E M) as Md. apply bind_ok in E as (d1 & E1 & E).
  apply Forall_cons in Hq as [He Hq]. destruct (call_step id b bs e d d1 gc H Md He E1) as [gc1 H1]. by eapply IH.
Qed.

Lemma settled_begin bs d d' gc b : settled bs d gc -> normal_batch b -> step (EvWrite b) d = Ok d' -> in_call (next_id d) b bs d' gc.
Proof.
  intros [H1 H2 H3 H4 H5] Hn E. destruct (begin_write Sum128 CompressBlock UncompressBlock coin b d d' (pl_sound _ _ H1) H2 E) as (Hs & _ & Hso).
  rewrite H5 in Hso. pose proof (idle_records d gc H1 H2) as Hr. cbn [db.step] in E. apply when_ok in E as [_ [= <-]]. unfold WriteBatch in *. cbn [db.closed set_next] in *.
  pose proof (sn_calm _ (pl_sound _ _ H1)) as Hc. rewrite (proj2 (ca_open _ Hc)) in *. split; [by apply (plain_same d)|done|by rewrite (assoc_L (++)); apply Forall_app; split; [|constructor]|by rewrite Hr, H4|].
  exists false. rewrite app_nil_r. split_and!; [done| |].
  - cbn. rewrite lookup_insert_eq. by intros w [= <-].
  - cbn. intros r Hin%(ca_ids _ Hc). cbn in Hin. lia.
Qed.

Lemma settled_read bs d d' gc k : settled bs d gc -> step (EvRead k) d = Ok d' -> settled bs d' gc.
Proof.
  intros [H1 H2 H3 H4 H5] E. destruct (begin_read Sum128 CompressBlock UncompressBlock coin k d d' (pl_sound _ _ H1) E) as (Hs & Hw & Ha & _).
  cbn [db.step] in E. apply when_ok in E as [_ [= <-]]. unfold db.Get in *. cbn [db.closed set_next] in *.
  rewrite (proj2 (ca_open _ (sn_calm _ (pl_sound _ _ H1)))) in *. split; try done. by apply (plain_same d).
Qed.

(** The call has returned. *)
Lemma call_answered id b bs d gc x : in_call id b bs d gc -> reply id d = Some x -> x = RWrite b (Ok tt) /\ settled (bs ++ [b]) d gc.
Proof.
  intros [H1 H2 H3 _ (s & R & _ & S2)] Hx. destruct (answered_write _ _ _ _ _ H2 Hx) as (Hw & r & -> & _). destruct (S2 r (reply_elem _ _ _ Hx)) as [-> ->].
  split; [done|]. split; try done. destruct (so_state _ _ _ _ H2) as (dn & rest & E & Ha & Hst). rewrite Hw, lookup_empty in Hst.
  destruct (Hst _ (reply_elem _ _ _ Hx)) as (r & [= <-] & Hr). cbn in Hr. subst rest. rewrite app_nil_r in E. rewrite Ha, (assoc_L (++)), (map_app Entries (base ++ bs)), concat_app. cbn. by rewrite app_nil_r, E.
Qed.

(** The records of the log during the call. *)
Lemma call_records id b bs d gc : in_call id b bs d gc -> exists p, p `prefix_of` [b] /\ gc_records gc = map enc_batch (bs ++ p).
Proof.
  intros [H1 H2 H3 [l E] (s & R & _)]. pose proof (records_requests gc) as Hp. rewrite E, R, map_app in Hp. apply prefix_app_inv in Hp. destruct s; cbn in Hp.
  - apply prefix_one in Hp as [->| ->]; [exists []|exists [b]]; rewrite E, map_app; (split; [|done]); [apply prefix_nil|done].
  - apply prefix_nil_inv in Hp as ->. exists []. rewrite E, map_app. split; [apply prefix_nil|done].
Qed.

(** ** What a crash leaves *)

Definition records (d : DB) : list bytes := match committers d !! 0%nat with Some gc => gc_records gc | None => [] end.

(** The contents that the log of the database stands for. *)
Definition durable (d : DB) : gmap bytes (option bytes) := entries_map (concat (map Entries (base ++ (decode_all (records d)).1))) ∅.

(** The database in which the step [x] that was being made is complete. *)
Definition after_step (x : option event) (d : DB) : DB :=
  match x with Some e => match step e d with Ok d' => d' | _ => d end | None => d end.

Definition background_step (x : option event) : Prop := match x with Some e => background e = true | None => True end.

Lemma after_run x d : background_step x -> exists es, quiet es /\ run es d = Ok (after_step x d).
Proof.
  intros Hx. destruct x as [e|]; cbn [after_step]; [|by exists []; split; [constructor|]]. destruct (step e d) as [d'| | |] eqn:E.
  1: exists [e]; split; [by repeat constructor|]; cbn -[db.step]; by rewrite E.
  all: exists []; by split; [constructor|].
Qed.

Lemma plain_records d gc : plain d gc -> records d = gc_records gc.
Proof. intros H. unfold records. destruct (pl_log _ _ H) as (_ & -> & _). done. Qed.

Lemma small_records d gc l : plain d gc -> modest d -> gc_records gc = map enc_batch l -> len (full_bytes (map enc_batch base ++ map enc_batch l)) <= BlockSize.
Proof.
  intros H [M _] E. rewrite (plain_requests d gc H) in M. destruct (records_requests gc) as [q Eq]. rewrite Eq, E, (assoc_L (++)), full_bytes_app, len_app in M.
  pose proof (len_nonneg (full_bytes q)). lia.
Qed.

Lemma durable_records d gc l : plain d gc -> modest d -> gc_records gc = map enc_batch l -> Forall normal_batch (base ++ l) ->
  durable d = entries_map (concat (map Entries (base ++ l))) ∅.
Proof.
  intros H M E Hn. unfold durable. rewrite (plain_records d gc H), E, decode_behind; [done|done|]. by eapply small_records.
Qed.

Lemma settled_records bs d gc : settled bs d gc -> gc_records gc = map enc_batch bs.
Proof. intros H. rewrite <- (se_requests _ _ _ H). by apply (idle_records d); [apply (se_plain _ _ _ H)|apply (se_idle _ _ _ H)]. Qed.

Lemma durable_settled bs d gc : settled bs d gc -> modest d -> durable d = entries_map (concat (map Entries (base ++ bs))) ∅.
Proof. intros H M. eapply durable_records; [apply H|done|by eapply settled_records|apply H]. Qed.

Lemma durable_call id b bs d gc : in_call id b bs d gc -> modest d ->
  exists p, p `prefix_of` Entries b /\ durable d = entries_map p (entries_map (concat (map Entries (base ++ bs))) ∅).
Proof.
  intros H M. destruct (call_records _ _ _ _ _ H) as (p & Hp & E). pose proof (ic_normal _ _ _ _ _ H) as Hn.
  apply prefix_one in Hp as [->| ->]; rewrite (durable_records d gc _ (ic_plain _ _ _ _ _ H) M E).
  - exists []. rewrite app_nil_r. split; [apply prefix_nil|done].
  - rewrite app_nil_r. rewrite (assoc_L (++)) in Hn. by apply Forall_app in Hn as [? _].
  - exists (Entries b). split; [done|]. rewrite (assoc_L (++)), (map_app Entries (base ++ bs)), concat_app, entries_map_app. cbn. by rewrite app_nil_r.
  - done.
Qed.

(** ** The laws of [Storage], of what is durable *)

(** The step that a node was making when the machine stopped, [x], belongs to a call that
    had not returned; a node between calls is taken as it is. *)
Definition stopped (x : option event) (n : node) : DB :=
  match node_status n with Running => node_db n | _ => after_step x (node_db n) end.

Definition known (d : DB) : Prop := (exists bs gc, settled bs d gc) \/ exists id b bs gc, in_call id b bs d gc.

Definition crash_inv (o : Options) (n : node) : Prop :=
  node_inv Sum128 CompressBlock n /\ (valid (node_db n) /\ options (node_db n) = o) /\
  (modest (node_db n) -> match node_status n with Running => exists bs gc, settled bs (node_db n) gc | _ => known (node_db n) end).
Definition crash_fits (x : option event) (n : node) : Prop := can_flush (node_db n) /\ modest (stopped x n).
Definition crash_contents (x : option event) (n : node) : gmap bytes (option bytes) := durable (stopped x n).

(** The database after a plan with a write call. *)
Lemma crash_served b before after d d' c bs gc :
  settled bs d gc -> normal_batch b -> play (List.filter background before ++ EvWrite b :: List.filter background after) d = (d', c) ->
  sound d' /\ (modest d' -> modest d) /\ (modest d' -> (next_id d' = next_id d /\ exists gc', settled bs d' gc') \/ exists gc', in_call (next_id d) b bs d' gc').
Proof.
  intros H Hn (es1 & es2 & Q1 & Q2 & [Hr|(d1 & d2 & Hr1 & He & Hr2)])%serve_run.
  - destruct (quiet_run Sum128 CompressBlock UncompressBlock coin es1 d d' (pl_sound _ _ (se_plain _ _ _ H)) Q1 Hr) as (A & B & _).
    split_and!; [done|by apply (modest_run es1 d d' (sound_valid _ (pl_sound _ _ (se_plain _ _ _ H))))|]. intros _. left. split; [done|]. exact (settled_run bs es1 d d' gc H Q1 Hr).
  - destruct (quiet_run Sum128 CompressBlock UncompressBlock coin es1 d d1 (pl_sound _ _ (se_plain _ _ _ H)) Q1 Hr1) as (A & B & _).
    destruct (settled_run bs es1 d d1 gc H Q1 Hr1) as [gc1 H1]. pose proof (settled_begin bs d1 d2 gc1 b H1 Hn He) as H2. rewrite B in H2.
    destruct (quiet_run Sum128 CompressBlock UncompressBlock coin es2 d2 d' (pl_sound _ _ (ic_plain _ _ _ _ _ H2)) Q2 Hr2) as (A' & _).
    assert (run (es1 ++ EvWrite b :: es2) d = Ok d') as Hr by (rewrite run_app, Hr1; cbn -[db.step]; by rewrite He).
    split_and!; [done|by apply (modest_run _ d d' (sound_valid _ (pl_sound _ _ (se_plain _ _ _ H))) Hr)|]. intros M. right. exact (call_run _ b bs es2 d2 d' gc1 H2 Q2 Hr2 M).
Qed.

Lemma stopped_settled x bs d gc : background_step x -> settled bs d gc -> exists gc', settled bs (after_step x d) gc'.
Proof. intros (es & Q & Hr)%(after_run x d) H. exact (settled_run bs es d _ gc H Q Hr). Qed.

Lemma stopped_call x id b bs d gc : background_step x -> in_call id b bs d gc -> modest (after_step x d) -> exists gc', in_call id b bs (after_step x d) gc'.
Proof. intros (es & Q & Hr)%(after_run x d) H M. exact (call_run id b bs es d _ gc H Q Hr M). Qed.

Lemma stopped_modest x d : background_step x -> valid d -> modest (after_step x d) -> modest d.
Proof. intros (es & Q & Hr)%(after_run x d) H. exact (modest_run es d _ H Hr). Qed.

(** What fits after a plan fitted before it. *)
Lemma play_modest x es d d' c : background_step x -> valid d -> play es d = (d', c) -> modest (after_step x d') -> modest d.
Proof.
  intros Hx Hs (es1 & _ & Hr1)%play_run. destruct (after_run x d' Hx) as (es2 & _ & Hr2). apply (modest_run (es1 ++ es2)); [done|]. by rewrite run_app, Hr1.
Qed.

Lemma valid_play o es d d' c : valid d /\ options d = o -> play es d = (d', c) -> valid d' /\ options d' = o.
Proof.
  intros [H <-] (es' & _ & Hr)%play_run. split; [by eapply valid_run|]. destruct H as [H1 H2].
  by destruct (run_keeps Sum128 CompressBlock UncompressBlock coin es' d d' H1 H2 Hr) as (-> & _).
Qed.

Section write.
Context (b : Batch) (Hn : normal_batch b) (before after : list event) (d d' : DB) (c : bool).
Context (Hi : sound d) (Hc : modest d -> exists bs gc, settled bs d gc).
Context (Ep : play (List.filter background before ++ EvWrite b :: List.filter background after) d = (d', c)).

Lemma crash_case x : background_step x -> modest (after_step x d') -> modest d /\ exists bs gc, settled bs d gc /\
  ((reply (next_id d) d' = None /\ exists gc', settled bs d' gc') \/ exists gc', in_call (next_id d) b bs d' gc').
Proof.
  intros Hx M. pose proof (play_modest x _ d d' c Hx (sound_valid _ Hi) Ep M) as Md. split; [done|]. destruct (Hc Md) as (bs & gc & H). exists bs, gc.
  destruct (crash_served b before after d d' c bs gc H Hn Ep) as (Hs' & _ & Hs). pose proof (stopped_modest x d' Hx (sound_valid _ Hs') M) as Md'. split; [done|].
  destruct (Hs Md') as [[Hid Hset]|Hcall]; [left|by right]. split; [|done]. by apply reply_none; [apply Hs'|].
Qed.

(** The call did not return before the crash. *)
Lemma crash_unanswered x r : background_step x -> (r = Panic \/ r = Fuel) -> modest (after_step x d') ->
  modest d /\ wrote (Entries b) r (durable d) (durable (after_step x d')).
Proof.
  intros Hx Hr M. destruct (crash_case x Hx M) as (Md & bs & gc & H & Hd'). split; [done|]. rewrite (durable_settled bs d gc H Md). destruct Hd' as [[_ [gc' H']]|[gc' H']].
  - destruct (stopped_settled x bs d' gc' Hx H') as [gc2 H2]. rewrite (durable_settled bs _ gc2 H2 M). by apply wrote_nothing.
  - destruct (stopped_call x _ b bs d' gc' Hx H' M) as [gc2 H2]. destruct (durable_call _ _ _ _ _ H2 M) as (p & Hp & ->). by destruct Hr as [-> | ->]; exists p.
Qed.

(** It did. *)
Lemma crash_answered y : reply (next_id d) d' = Some y -> modest d' ->
  modest d /\ y = RWrite b (Ok tt) /\ durable d' = entries_map (Entries b) (durable d) /\ exists bs gc, settled bs d' gc.
Proof.
  intros Ey M. destruct (crash_case None I M) as (Md & bs & gc & H & [[? _]|[gc' H']]); [congruence|]. destruct (call_answered _ _ _ _ _ _ H' Ey) as [-> H2].
  rewrite (durable_settled bs d gc H Md), (durable_settled _ d' gc' H2 M), (assoc_L (++)), (map_app Entries (base ++ bs)), concat_app, entries_map_app. cbn -[entries_map]. rewrite app_nil_r. eauto 6.
Qed.
End write.

Lemma law_crash_write x o b n n' r : background_step x -> normal_batch b -> crash_inv o n -> node_WriteBatch Sum128 CompressBlock UncompressBlock coin b n = (n', r) ->
  crash_inv o n' /\ (crash_fits x n' -> crash_fits x n /\ wrote (Entries b) r (crash_contents x n) (crash_contents x n')).
Proof.
  intros Hx Hn (Hi & Hv & Hc) E. destruct (law_node_write Sum128 CompressBlock UncompressBlock coin b n n' r Hi E) as [Hi' Hfit].
  unfold node_WriteBatch, serve in E. destruct n as [d ps []]; cbn [node_db plans node_status] in E.
  2:{ injection E as <- <-. split; [exact (conj Hi (conj Hv Hc))|]. intros Hf. split; [done|]. apply wrote_nothing. by right. }
  2:{ injection E as <- <-. split; [exact (conj Hi (conj Hv Hc))|]. intros Hf. split; [done|]. apply wrote_nothing. by left. }
  specialize (Hi eq_refl). cbn [node_db node_status] in Hi, Hv, Hc. unfold crash_fits, crash_contents, crash_inv.
  destruct ps as [|[before after] ps].
  { injection E as <- <-. split; [split; [done|split; [done|]]; left; auto|]. cbn [node_db stopped node_status]. intros [Hf M].
    pose proof (stopped_modest x d Hx (sound_valid _ (rs_sound _ _ _ Hi)) M) as Md. destruct (Hc Md) as (bs & gc & H). destruct (stopped_settled x bs d gc Hx H) as [gc' H'].
    rewrite (durable_settled bs d gc H Md), (durable_settled bs _ gc' H' M). split; [done|]. apply wrote_nothing. by right. }
  destruct (play _ d) as [d' c] eqn:Ep. pose proof (valid_play _ _ _ _ _ Hv Ep) as Hv'.
  destruct c; [|destruct (reply (next_id d) d') as [y|] eqn:Ey].
  1,3: injection E as <- Er; rewrite <- Er in *; (split; [split; [done|split; [done|]]; intros M;
      destruct (crash_case b Hn before after d d' _ (rs_sound _ _ _ Hi) Hc Ep None I M) as (_ & bs & gc & _ & [[_ [gc' H']]|[gc' H']]); [left|right]; eauto|]); cbn [node_db stopped node_status] in *; intros [Hf M]; destruct (Hfit Hf) as [Hfd _];
    destruct (crash_unanswered b Hn before after d d' _ (rs_sound _ _ _ Hi) Hc Ep x r Hx) as [Md Hw]; rewrite <- ?Er in *; auto.
  pose proof (crash_answered b Hn before after d d' _ (rs_sound _ _ _ Hi) Hc Ep y Ey) as Hok. destruct y as [b' r'|k' r'|r']; injection E as <- <-.
  all: cbn [node_db stopped node_status] in *; split; [split; [done|split; [done|]]; intros M; by destruct (Hok M) as (_ & _ & _ & Hset)|].
  all: intros [Hf M]; destruct (Hfit Hf) as [Hfd _]; destruct (Hok M) as (Md & [= -> ->] & Hd & _). done.
Qed.

Lemma crash_read k before after d d' c x :
  background_step x -> sound d -> (modest d -> exists bs gc, settled bs d gc) ->
  play (List.filter background before ++ EvRead k :: List.filter background after) d = (d', c) -> modest (after_step x d') ->
  modest d /\ exists bs gc gc', settled bs d gc /\ settled bs d' gc'.
Proof.
  intros Hx Hi Hc Ep M. pose proof (play_modest x _ d d' c Hx (sound_valid _ Hi) Ep M) as Md. split; [done|]. destruct (Hc Md) as (bs & gc & H). exists bs, gc.
  apply serve_run in Ep as (es1 & es2 & Q1 & Q2 & [Hr|(d1 & d2 & Hr1 & He & Hr2)]).
  - destruct (settled_run bs es1 d d' gc H Q1 Hr) as [gc' H']. eauto.
  - destruct (settled_run bs es1 d d1 gc H Q1 Hr1) as [gc1 H1]. pose proof (settled_read bs d1 d2 gc1 k H1 He) as H2.
    destruct (settled_run bs es2 d2 d' gc1 H2 Q2 Hr2) as [gc' H']. eauto.
Qed.

Lemma settled_contents bs d gc : settled bs d gc -> modest d -> entries_map (applied (mem d)) ∅ = durable d.
Proof. intros H M. by rewrite (durable_settled bs d gc H M), (se_applied _ _ _ H). Qed.

Lemma law_crash_read x o k n n' r : background_step x -> crash_inv o n -> node_Get Sum128 CompressBlock UncompressBlock coin k n = (n', r) ->
  crash_inv o n' /\ (crash_fits x n' -> crash_fits x n /\ crash_contents x n' = crash_contents x n /\
    match r with Ok _ | Err ErrNotFound => r = answer (crash_contents x n !! k) | _ => True end).
Proof.
  intros Hx (Hi & Hv & Hc) E. destruct (law_node_read Sum128 CompressBlock UncompressBlock coin k n n' r Hi E) as [Hi' Hfit].
  unfold node_Get, serve in E. destruct n as [d ps []]; cbn [node_db plans node_status] in E; [|injection E as <- <-; by split; [exact (conj Hi (conj Hv Hc))|]..].
  specialize (Hi eq_refl). unfold crash_fits, crash_contents, crash_inv, node_fits, node_contents in *. cbn [node_db stopped node_status] in *.
  destruct ps as [|[before after] ps].
  { injection E as <- <-. cbn [node_db stopped node_status]. split; [split; [done|split; [done|]]; left; auto|]. intros [Hf M]. pose proof (stopped_modest x d Hx (sound_valid _ (rs_sound _ _ _ Hi)) M) as Md.
    destruct (Hc Md) as (bs & gc & H). destruct (stopped_settled x bs d gc Hx H) as [gc' H'].
    by rewrite (durable_settled bs d gc H Md), (durable_settled bs _ gc' H' M). }
  destruct (play _ d) as [d' c] eqn:Ep. pose proof (valid_play _ _ _ _ _ Hv Ep) as Hv'.
  assert (forall x, background_step x -> modest (after_step x d') -> modest d /\ durable (after_step x d') = durable d /\ durable d = entries_map (applied (mem d)) ∅) as Hcase.
  { intros y Hy M. destruct (crash_read k before after d d' c y Hy (rs_sound _ _ _ Hi) Hc Ep M) as (Md & bs & gc & gc' & H & H'). destruct (stopped_settled y bs d' gc' Hy H') as [gc2 H2].
    by rewrite (durable_settled bs d gc H Md), (durable_settled bs _ gc2 H2 M), (se_applied _ _ _ H). }
  destruct c; [|destruct (reply (next_id d) d') as [y|] eqn:Ey].
  1,3: injection E as <- <-; cbn [node_db stopped node_status] in *; (split; [split; [done|split; [done|]]; intros M;
      destruct (crash_read k before after d d' _ None I (rs_sound _ _ _ Hi) Hc Ep M) as (_ & bs & gc & gc' & _ & H'); left; eauto|]); intros [Hf M]; destruct (Hfit Hf) as (Hfd & _);
    destruct (Hcase x Hx M) as (Md & Hd & _); done.
  assert (n' = mkNode d' ps Running) as -> by (destruct y as [|? []|]; by injection E as <- _). cbn [node_db stopped node_status] in *. split.
  { split; [done|split; [done|]]. intros M. destruct (crash_read k before after d d' _ None I (rs_sound _ _ _ Hi) Hc Ep M) as (_ & bs & gc & gc' & _ & H'). eauto. }
  intros [Hf M]. destruct (Hfit Hf) as (Hfd & _ & Hr). destruct (Hcase None I M) as (Md & Hd & Ha). rewrite Ha. cbn [after_step] in Hd. by rewrite Hd, <- Ha in *.
Qed.

(** ** Opening *)

(** A directory without tables whose recovery leaves a log of the batches [base]. *)
Definition based (dir : Directory) : Prop := exists log log' res,
  dir = mkDir (mkFS log None []) ∅ [] /\ wal_recovery.Recover [] (mkFS log None []) = (mkFS log' None [], Ok res) /\
  default [] log' = base_log /\ wal_recovery.Batches res = base /\ Forall normal_batch base.

Lemma open_based o dir d : based dir -> Open coin o dir [] = Ok (Some d) -> exists m l,
  replay_batches coin (NewManager (MemTableSize o)) base = Ok (Some m) /\ lsm.NewLSMTree (lsm_options o) ∅ [] = Ok l /\
  d = opened_db o (new_committer o base_log []) m (concat (map Entries base)) l.
Proof.
  intros (log & log' & res & -> & Er & Hl & Hb & _). unfold Open. cbn [wal_files os_call wr_faults fs_log fs_tmp sst_files manifest_file]. rewrite Er.
  cbn [os_call wr_faults fs_log]. rewrite Hl, Hb. destruct (lsm.NewLSMTree _ _ _) as [l| | |]; try done. intros (r & E & H)%bind_ok.
  destruct (replay_batches _ _ _) as [[m|]| | |]; try done; injection E as <-; [|done]. injection H as <-. by exists m, l.
Qed.

Lemma new_tree_empty o l : lsm.NewLSMTree (lsm_options o) ∅ [] = Ok l ->
  compaction.sst (lsm.lenv l) = ∅ /\ fdata (manifest.mfile (compaction.man (lsm.lenv l))) = [].
Proof. by intros [= <-]. Qed.

Lemma open_settled o dir d : opts_ok (lsm_options o) -> based dir -> Open coin o dir [] = Ok (Some d) ->
  options d = o /\ resting Sum128 CompressBlock d /\ (modest d -> exists gc, settled [] d gc).
Proof.
  intros Ho Hb E. assert (resting Sum128 CompressBlock d) as Hres by (destruct Hb as (log & _ & _ & -> & _); exact (open_resting Sum128 CompressBlock coin o _ _ d Ho E)).
  destruct (open_based o dir d Hb E) as (m & l & Em & El & Hd). destruct Hb as (_ & _ & _ & _ & _ & _ & _ & Hn). clear E.
  destruct (NewLSMTree_ok Sum128 CompressBlock _ Ho) as (l' & El' & Hh & _). rewrite El in El'. injection El' as <-. destruct (new_tree_empty o l El) as [Hl1 Hl2].
  assert (journal (new_committer o base_log []) /\ gc_requests (new_committer o base_log []) = []) as [Hj Hg] by (split; [apply journal_new|reflexivity]).
  pose proof (new_small _ _ El) as Hsm. clear El. revert Hd Hj Hg. generalize (new_committer o base_log []). intros gc Hd Hj Hg.
  split_and!; [by rewrite Hd|done|]. destruct Hres as [Hs _ _]. subst d. intros [_ M]. unfold requests in M. cbn in M. rewrite Hg in M. cbn in M. rewrite app_nil_r in M. exists gc.
  assert (mgr_models (NewManager (MemTableSize o)) ∅ ∅) as Hnew by (split_and!; [apply NewMemTable_models|done..]).
  destruct (replay_room coin base _ ∅ [] Hnew eq_refl) as (m' & Em' & Hi); [intros k v Hv; by rewrite lookup_empty in Hv|done|]. rewrite Em in Em'. injection Em' as <-.
  destruct (replay_spec coin base _ ∅ ∅ Hnew ltac:(done)) as (r & Er & Hr). rewrite Em in Er. injection Er as <-. destruct (Hr m eq_refl) as (am & im & Hm & _ & Hms & _ & Hfrom).
  split; [|done|by rewrite app_nil_r|by rewrite Hg|by rewrite app_nil_r]. split; try done.
  - assert (im = ∅) as -> by (destruct Hm as (_ & _ & _ & Hm); by rewrite Hi in Hm). exists am. split_and!; try done.
    intros k v Hv. destruct (Hfrom k v) as [H|[H|]]; [by left|by rewrite lookup_empty in H..|done].
  - eexists. apply Hh.
Qed.

Lemma plain_unique d gc gc' : plain d gc -> plain d gc' -> gc = gc'.
Proof. intros H H'. destruct (pl_log _ _ H) as (_ & E & _), (pl_log _ _ H') as (_ & E' & _). congruence. Qed.

(** The log before and after the step that was being made. *)
Lemma known_step x d : background_step x -> known d -> modest d -> modest (after_step x d) ->
  exists l1 l2 gc1 gc2, plain d gc1 /\ plain (after_step x d) gc2 /\ gc_records gc1 = map enc_batch l1 /\ gc_records gc2 = map enc_batch (l1 ++ l2) /\
    Forall normal_batch (base ++ l1 ++ l2) /\ (length l2 <= 1)%nat.
Proof.
  intros Hx [(bs & gc & H)|(id & b & bs & gc & H)] Md M.
  - destruct (stopped_settled x bs d gc Hx H) as [gc' H']. exists bs, [], gc, gc'. rewrite app_nil_r.
    split_and!; [apply H|apply H'|by apply (settled_records bs d)|by apply (settled_records bs (after_step x d))|apply H|cbn; lia].
  - destruct (stopped_call x id b bs d gc Hx H M) as [gc' H']. assert (gc_records gc `prefix_of` gc_records gc') as Hp.
    { pose proof (ic_plain _ _ _ _ _ H) as P. pose proof (ic_plain _ _ _ _ _ H') as P'. destruct x as [e|]; cbn [after_step] in *; [|by rewrite (plain_unique _ _ _ P P')].
      destruct (step e d) as [d'| | |] eqn:E; [|by rewrite (plain_unique _ _ _ P P')..].
      destruct (plain_step e d d' gc P Hx (call_room _ _ _ _ _ H Md) E) as (gc2 & rs & P2 & _ & Hp & _). by rewrite (plain_unique _ _ _ P' P2). }
    destruct (call_records _ _ _ _ _ H) as (p1 & P1 & E1), (call_records _ _ _ _ _ H') as (p2 & P2 & E2). rewrite E1, E2 in Hp. pose proof (ic_normal _ _ _ _ _ H) as Hn.
    pose proof Hn as Hn1. rewrite (assoc_L (++)) in Hn1. apply Forall_app in Hn1 as [Hn1 _]. pose proof (ic_plain _ _ _ _ _ H). pose proof (ic_plain _ _ _ _ _ H').
    apply prefix_one in P1 as [->| ->], P2 as [->| ->]; rewrite ?app_nil_r in *.
    + exists bs, [], gc, gc'. rewrite app_nil_r. by split_and!; [..|cbn; lia].
    + exists bs, [b], gc, gc'. by split_and!; [..|cbn; lia].
    + apply prefix_length in Hp. rewrite !length_map, length_app in Hp. cbn in Hp. lia.
    + exists (bs ++ [b]), [], gc, gc'. rewrite app_nil_r. by split_and!; [..|cbn; lia].
Qed.

(** The directory after the crash: the log was cut behind its durable part. *)
Definition torn (cut : nat) (d : DB) : Directory :=
  mkDir (mkFS (take cut <$> fs_log (wal_files (crash d))) None []) (sst_files (crash d)) (manifest_file (crash d)).

Definition durable_len (d : DB) : Z := match last (committers d) with Some gc => fsynced (file (gc_writer gc)) | None => 0 end.

Lemma torn_plain cut d1 d2 gc1 gc2 l1 l2 :
  plain d1 gc1 -> plain d2 gc2 -> gc_records gc1 = map enc_batch l1 -> gc_records gc2 = map enc_batch (l1 ++ l2) -> Forall normal_batch (base ++ l1 ++ l2) ->
  modest d2 -> durable_len d1 <= Z.of_nat cut ->
  exists p, p `prefix_of` l2 /\ torn cut d2 = mkDir (mkFS (Some (take cut (full_bytes (map enc_batch (base ++ l1 ++ l2))))) None []) ∅ [] /\
    len (full_bytes (map enc_batch (base ++ l1 ++ l2))) <= BlockSize /\ replay (take cut (full_bytes (map enc_batch (base ++ l1 ++ l2)))) = base ++ l1 ++ p.
Proof.
  intros P1 P2 E1 E2 Hn M Hcut. pose proof (small_records d2 gc2 _ P2 M E2) as Hle. pose proof Hle as Hle1. rewrite map_app, (assoc_L (++)), (full_bytes_app (_ ++ _)), len_app in Hle1.
  pose proof (len_nonneg (full_bytes (map enc_batch l2))). destruct (pl_log _ _ P1) as (_ & C1 & J1), (pl_log _ _ P2) as (L2 & C2 & J2).
  destruct (pl_empty _ _ P2) as (_ & Hsst & Hman). unfold durable_len in Hcut. rewrite C1 in Hcut. cbn in Hcut.
  destruct (jn_synced _ J1) as [Hf1 Hs1]. rewrite Hs1, <- Hf1, (journal_bytes gc1 J1), E1 in Hcut by (rewrite E1; lia). pose proof Hle as Hle2.
  rewrite <- map_app, (assoc_L (++)) in Hle2. destruct (replay_full (base ++ l1) l2 cut Hle2) as (p & Hp & Hr); [rewrite map_app; unfold len in Hcut; lia|].
  rewrite <- (assoc_L (++)) in *. exists p. split_and!; [done| |done|].
  - unfold torn, crash. rewrite L2, C2, Hsst, Hman. cbn. rewrite (journal_bytes gc2 J2) by (by rewrite E2). by rewrite E2, <- map_app.
  - rewrite Hr, <- (assoc_L (++)). apply norm_normals. destruct Hp as [q ->]. rewrite !(assoc_L (++)) in Hn. apply Forall_app in Hn as [Hn _]. by rewrite <- (assoc_L (++)) in Hn.
Qed.

(** What is in the log fits in a memtable. *)
Lemma modest_room d gc l l' : plain d gc -> modest d -> gc_records gc = map enc_batch (l ++ l') -> Forall normal_batch (base ++ l ++ l') ->
  sum mem_cost (map entry_write (concat (map Entries (base ++ l)))) < MemTableSize (options d) < 2 ^ 63.
Proof.
  intros P M E Hn. pose proof (md_room _ M) as Hroom. rewrite (plain_requests _ _ P) in Hroom. destruct (records_requests gc) as [q Eq].
  destruct (decode_all_app (gc_records gc) q) as [q' Eq']. rewrite Eq, Eq', E in Hroom. rewrite decode_behind in Hroom by (done || by apply (small_records d gc)).
  rewrite <- (assoc_L (++)), (assoc_L (++) base), map_app, concat_app, map_app, sum_app in Hroom.
  pose proof (sum_nonneg mem_cost (map entry_write (concat (map Entries (l' ++ q')))) mem_cost_nonneg). lia.
Qed.

(** The directory opens again, with what was durable before or after the step. *)
Lemma reopened o x cut d : opts_ok (lsm_options o) -> options d = o -> background_step x -> valid d -> (modest d -> known d) -> modest (after_step x d) ->
  durable_len d <= Z.of_nat cut ->
  exists d' l, Open coin o (torn cut (after_step x d)) [] = Ok (Some d') /\
    (entries_map (applied (mem d')) ∅ = durable d \/ entries_map (applied (mem d')) ∅ = durable (after_step x d)) /\
    torn cut (after_step x d) = mkDir (mkFS (Some (take cut (full_bytes (map enc_batch l)))) None []) ∅ [] /\ len (full_bytes (map enc_batch l)) <= BlockSize /\ Forall normal_batch l.
Proof.
  intros Ho Hd Hx Hv Hk M Hcut. pose proof (stopped_modest x d Hx Hv M) as Md.
  destruct (known_step x d Hx (Hk Md) Md M) as (l1 & l2 & gc1 & gc2 & P1 & P2 & E1 & E2 & Hn & Hl).
  destruct (torn_plain cut d _ gc1 gc2 l1 l2 P1 P2 E1 E2 Hn M Hcut) as (p & Hp & Et & Hle & Hr). set (data := take cut _) in *.
  assert (options (after_step x d) = o) as Ho2.
  { destruct (after_run x d Hx) as (es & _ & Hrun). destruct Hv as [V1 V2]. destruct (run_keeps Sum128 CompressBlock UncompressBlock coin es d _ V1 V2 Hrun) as (-> & _). done. }
  destruct (open_working Sum128 CompressBlock coin o data Ho) as (d' & E & _ & Ha & _).
  { rewrite Hr, <- Ho2. destruct Hp as [p' ->]. rewrite (assoc_L (++) l1) in E2, Hn. by apply (modest_room (after_step x d) gc2 (l1 ++ p) p'). }
  exists d', (base ++ l1 ++ l2). rewrite Et. split; [done|]. split; [|done]. rewrite Ha, Hr. rewrite (durable_records d gc1 l1 P1 Md E1), (durable_records _ gc2 _ P2 M E2 Hn).
  - destruct Hp as [p' ->]. destruct p as [|b p]; [left; by rewrite app_nil_r|right]. destruct p' as [|b' p']; [by rewrite app_nil_r|]. rewrite length_app in Hl. cbn in Hl. lia.
  - rewrite (assoc_L (++)) in Hn. by apply Forall_app in Hn as [? _].
Qed.

Lemma spec_run_app wire m1 ops1 a1 m2 ops2 a2 m3 :
  spec_run wire m1 ops1 a1 m2 -> spec_run wire m2 ops2 a2 m3 -> spec_run wire m1 (ops1 ++ ops2) (a1 ++ a2) m3.
Proof. induction 1; [done|]. intros ?. cbn. econstructor; eauto. Qed.

#[local] Instance crash_storage : Storage node := node_storage Sum128 CompressBlock UncompressBlock coin.

Lemma crash_laws x o : background_step x -> StorageLaws node normal (crash_inv o) (crash_fits x) (crash_contents x).
Proof.
  intros Hx. split; [|by intros k s s' r; apply law_crash_read]. intros b s s' r Hb. by apply law_crash_write.
Qed.

Lemma proto_normal k v : normal (mkEntry OpPut k (proto_wire v)) /\ normal (mkEntry OpDelete k None).
Proof. split; [|done]. unfold normal, norm_entry. cbn. by destruct v as [[|]|]. Qed.

(** What is durable at the end is that of a node that stopped before or after the step. *)
Lemma stopped_choice x n m : background_step x -> (modest (node_db n) -> match node_status n with Running => exists bs gc, settled bs (node_db n) gc | _ => known (node_db n) end) ->
  modest (node_db n) -> modest (after_step x (node_db n)) -> m = durable (node_db n) \/ m = durable (after_step x (node_db n)) ->
  exists y, background_step y /\ modest (stopped y n) /\ m = durable (stopped y n).
Proof.
  intros Hx Hk M Mx [->| ->]; [exists None; unfold stopped; by destruct (node_status n)|]. unfold stopped. destruct (node_status n); [|by exists x..].
  destruct (Hk M) as (bs & gc & H). destruct (stopped_settled x bs _ gc Hx H) as [gc' H']. exists None.
  by rewrite (durable_settled bs _ gc' H' Mx), (durable_settled bs _ gc H M).
Qed.

(** The calls on a database, seen from what is durable after them. *)
Lemma crash_session o dir d ps ops c1 answers :
  opts_ok (lsm_options o) -> based dir -> Open coin o dir [] = Ok (Some d) -> Forall op_times_ok ops -> 2 * len ops < 2 ^ 16 ->
  api_run proto_wire ops (mkApi (mkNode d ps Running) (NewTxnManager NewClock)) = (c1, answers) -> can_flush (node_db (storage c1)) ->
  crash_inv o (storage c1) /\ forall y, background_step y -> modest (stopped y (storage c1)) ->
    spec_run proto_wire (entries_map (concat (map Entries base)) ∅) ops answers (durable (stopped y (storage c1))).
Proof.
  intros Hopts Hb Hopen Htimes Hlen Hrun Hfits. destruct (open_settled o dir d Hopts Hb Hopen) as (Ho & Hres & H). set (c0 := mkApi (mkNode d ps Running) (NewTxnManager NewClock)) in *.
  pose proof (sound_valid _ (rs_sound _ _ _ Hres)) as Hv.
  assert (crash_inv o (storage c0)) as Hi.
  { split_and!; [by intros _|done|done|]. intros M. destruct (H M) as [gc Hs]. by exists [], gc. }
  split; [exact (api_run_inv _ _ _ _ (StorageLaws0 := crash_laws None o I) proto_wire proto_normal ops 0 c0 c1 answers new_tm_ok Hi Htimes ltac:(lia) Hrun)|].
  intros y Hy M. destruct (api_run_spec _ _ _ _ (StorageLaws0 := crash_laws y o Hy) proto_wire proto_normal ops 0 c0 c1 answers new_tm_ok Hi Htimes ltac:(lia) Hrun (conj Hfits M)) as [[_ M0] Hs].
  unfold crash_contents at 1 in Hs. cbn [c0 storage stopped node_status node_db] in M0, Hs. destruct (H M0) as [gc Hset]. by rewrite (durable_settled [] d gc Hset M0), app_nil_r in Hs.
Qed.

(** The directory after a crash: it opens with contents that fit the answers. *)
Lemma crash_once o dir d ps ops c1 answers x cut :
  opts_ok (lsm_options o) -> based dir -> Open coin o dir [] = Ok (Some d) -> Forall op_times_ok ops -> 2 * len ops < 2 ^ 16 ->
  api_run proto_wire ops (mkApi (mkNode d ps Running) (NewTxnManager NewClock)) = (c1, answers) -> can_flush (node_db (storage c1)) ->
  background_step x -> modest (after_step x (node_db (storage c1))) -> durable_len (node_db (storage c1)) <= Z.of_nat cut ->
  exists d' l, Open coin o (torn cut (after_step x (node_db (storage c1)))) [] = Ok (Some d') /\
    spec_run proto_wire (entries_map (concat (map Entries base)) ∅) ops answers (entries_map (applied (mem d')) ∅) /\
    torn cut (after_step x (node_db (storage c1))) = mkDir (mkFS (Some (take cut (full_bytes (map enc_batch l)))) None []) ∅ [] /\
    len (full_bytes (map enc_batch l)) <= BlockSize /\ Forall normal_batch l.
Proof.
  intros Hopts Hb Hopen Htimes Hlen Hrun Hfits Hstep Hmodest Hcut.
  destruct (crash_session o dir d ps ops c1 answers Hopts Hb Hopen Htimes Hlen Hrun Hfits) as [(_ & [Hv1 Ho1] & Hk1) Hspec].
  assert (modest (node_db (storage c1)) -> known (node_db (storage c1))) as Hk by (intros M; specialize (Hk1 M); destruct (node_status (storage c1)); [by left|done..]).
  pose proof (stopped_modest x _ Hstep Hv1 Hmodest) as M1. destruct (reopened o x cut _ Hopts Ho1 Hstep Hv1 Hk Hmodest Hcut) as (d' & l & E' & Hcon & Hl).
  exists d', l. split; [done|]. split; [|done]. destruct (stopped_choice x _ _ Hstep Hk1 M1 Hmodest Hcon) as (y & Hy & My & ->). by apply Hspec.
Qed.

(** Calls on a database that was opened again. *)
Lemma next_session o fs d ps ops c' answers m ops0 answers0 :
  opts_ok (lsm_options o) -> Open coin o (mkDir fs ∅ []) [] = Ok (Some d) -> spec_run proto_wire m ops0 answers0 (entries_map (applied (mem d)) ∅) ->
  Forall op_times_ok ops -> 2 * len ops < 2 ^ 16 ->
  api_run proto_wire ops (mkApi (mkNode d ps Running) (NewTxnManager NewClock)) = (c', answers) -> can_flush (node_db (storage c')) ->
  spec_run proto_wire m (ops0 ++ ops) (answers0 ++ answers) (entries_map (applied (mem (node_db (storage c')))) ∅).
Proof.
  intros Hopts E Hs Htimes Hlen Hrun Hfits. eapply spec_run_app; [exact Hs|].
  exact (proj2 (api_run_spec _ _ _ _ (StorageLaws0 := node_laws Sum128 CompressBlock UncompressBlock coin) proto_wire (fun _ _ => conj I I) ops 0
    (mkApi (mkNode d ps Running) (NewTxnManager NewClock)) c' answers new_tm_ok (fun _ => open_resting _ _ _ _ _ _ _ Hopts E) Htimes ltac:(lia) Hrun Hfits)).
Qed.
End crash.

(** A new directory. *)
Lemma based_fresh : based [] (mkDir (mkFS None None []) ∅ []).
Proof. by exists None, None, (wal_recovery.mkResult [] (-1) (-1) 0 0). Qed.

(** The batches and the bytes of the log of a directory. *)
Definition dir_log (dir : Directory) : bytes := default [] (fs_log (wal_files dir)).
Definition tidy_dir (dir : Directory) : Prop := tidy (dir_log dir).

(** A directory whose log was cut. *)
Lemma based_torn l cut : Forall normal_batch l -> len (full_bytes (map enc_batch l)) <= BlockSize ->
  let dir := mkDir (mkFS (Some (take cut (full_bytes (map enc_batch l)))) None []) ∅ [] in tidy_dir dir -> based (replay (dir_log dir)) dir.
Proof.
  intros Hn Hle dir Ht. destruct (Recover_tidy l cut Hn Hle Ht) as (res & E & Hb & Hr). by exists (Some (take cut (full_bytes (map enc_batch l)))), (Some (base_log (replay (dir_log dir)))), res.
Qed.

Section once.
Context (Sum128 : bytes -> Z * Z).
Context (CompressBlock : bytes -> option bytes) (UncompressBlock : bytes -> Z -> option bytes).
Context `{!Lz4 CompressBlock UncompressBlock}.
Context (coin : nat -> bool).

Abbreviation after_step := (after_step Sum128 CompressBlock UncompressBlock coin).

#[local] Instance once_storage : Storage node := node_storage Sum128 CompressBlock UncompressBlock coin.

(** A crash of the storage is as if the call in progress had failed.  A database opened
    on an empty directory of a working disk serves calls of the client API made one after
    the other.  The machine stops, maybe in the middle of a step [x] of the database, and
    the part of the log that is not durable may be cut anywhere.  While the log is at most
    one block long and what was to be written fits in a memtable, the directory opens again,
    and the answers of the calls before and after the crash together are those of one map:
    what a call that returned without an error wrote is there. *)
Theorem client_api_survives_crash (o : Options) (d : DB) (ps : list plan) (ops : list api_op) (c1 : ClientAPI node) (answers : list api_answer)
    (x : option event) (cut : nat)
    (Hopts : opts_ok (lsm_options o)) (Hopen : Open coin o (mkDir (mkFS None None []) ∅ []) [] = Ok (Some d))
    (Htimes : Forall op_times_ok ops) (Hlen : 2 * len ops < 2 ^ 16)
    (Hrun : api_run proto_wire ops (mkApi (mkNode d ps Running) (NewTxnManager NewClock)) = (c1, answers))
    (Hfits : can_flush (node_db (storage c1))) (Hstep : background_step x) (Hmodest : modest [] (after_step x (node_db (storage c1))))
    (Hcut : durable_len (node_db (storage c1)) <= Z.of_nat cut) :
  exists d', Open coin o (torn cut (after_step x (node_db (storage c1)))) [] = Ok (Some d') /\
    forall ps' ops' c' answers', Forall op_times_ok ops' -> 2 * len ops' < 2 ^ 16 ->
      api_run proto_wire ops' (mkApi (mkNode d' ps' Running) (NewTxnManager NewClock)) = (c', answers') -> can_flush (node_db (storage c')) ->
      spec_run proto_wire ∅ (ops ++ ops') (answers ++ answers') (entries_map (applied (mem (node_db (storage c')))) ∅).
Proof.
  destruct (crash_once [] Sum128 CompressBlock UncompressBlock coin o _ d ps ops c1 answers x cut Hopts based_fresh Hopen Htimes Hlen Hrun Hfits Hstep Hmodest Hcut)
    as (d' & l & E' & Hs & Et & _).
  exists d'. split; [done|]. rewrite Et in E'. intros ps' ops' c' answers'. by apply (next_session Sum128 CompressBlock UncompressBlock coin o (mkFS (Some (take cut (full_bytes (map enc_batch l)))) None []) d').
Qed.
End once.

(** ** A crash in the middle of a commit *)

#[local] Instance toy_storage : Storage node := node_storage toy_hash toy_compress toy_uncompress flat.

(** A write that returns, and one whose record is being written when the machine stops. *)
Definition crash_plans : list plan :=
  [([], write_plan 0); ([], [EvSend 1; EvCommitter 0 group_commit.ERecv])].
Definition crash_ops : list api_op := [OPut 5 6 Delivered key_a (Some (str "1")); OPut 7 8 Delivered key_b (Some (str "2"))].
Definition crash_answers : list api_answer := [AWrite (Ok tt); AWrite Fuel].
Definition crash_point : option event := Some (EvCommitter 0 group_commit.ETimer).

Definition crash_final {A} (x : A) (f : DB -> ClientAPI node * list api_answer -> A) : A :=
  match Open flat roomy_options fresh_dir [] with
  | Ok (Some d) => f d (api_run proto_wire crash_ops (mkApi (mkNode d crash_plans Running) (NewTxnManager NewClock)))
  | _ => x
  end.

Abbreviation toy_after d := (after_step toy_hash toy_compress toy_uncompress flat crash_point d).

Definition modest_check (base : list Batch) (d : DB) : bool :=
  (len (full_bytes (map enc_batch base ++ payloads (requests d))) <=? BlockSize) &&
  (sum mem_cost (map entry_write (concat (map Entries (base ++ (decode_all (payloads (requests d))).1)))) <? MemTableSize (options d)) && (MemTableSize (options d) <? 2 ^ 63).

Lemma modest_check_ok base d : modest_check base d = true -> modest base d.
Proof. unfold modest_check. rewrite !andb_true_iff, Z.leb_le, !Z.ltb_lt. intros [[? ?] ?]. by split. Qed.

Lemma client_api_survives_crash_witness : exists d c1 d', Open flat roomy_options fresh_dir [] = Ok (Some d) /\
  api_run proto_wire crash_ops (mkApi (mkNode d crash_plans Running) (NewTxnManager NewClock)) = (c1, crash_answers) /\
  Open flat roomy_options (torn 30 (toy_after (node_db (storage c1)))) [] = Ok (Some d') /\
  forall ps' ops' c' answers', Forall op_times_ok ops' -> 2 * len ops' < 2 ^ 16 ->
    api_run proto_wire ops' (mkApi (mkNode d' ps' Running) (NewTxnManager NewClock)) = (c', answers') -> can_flush (node_db (storage c')) ->
    spec_run proto_wire ∅ (crash_ops ++ ops') (crash_answers ++ answers') (entries_map (applied (mem (node_db (storage c')))) ∅).
Proof.
  assert (crash_final [] (fun _ x => x.2) = crash_answers) as H1 by (vm_compute; reflexivity).
  assert (crash_final [] (fun _ x => applied (mem (node_db (storage x.1)))) = one_write) as H2 by (vm_compute; reflexivity).
  assert (crash_final 0 (fun _ x => SSTableBlockSize (options (node_db (storage x.1)))) = SSTableBlockSize small) as H3 by (vm_compute; reflexivity).
  assert (crash_final false (fun _ x => modest_check [] (toy_after (node_db (storage x.1)))) = true) as H4 by (vm_compute; reflexivity).
  assert (crash_final 0 (fun _ x => durable_len (node_db (storage x.1))) = 22) as H5 by (vm_compute; reflexivity).
  unfold crash_final in *. destruct (Open flat roomy_options fresh_dir []) as [[d|]| | |] eqn:Eo; try discriminate H1.
  destruct (api_run proto_wire crash_ops (mkApi (mkNode d crash_plans Running) (NewTxnManager NewClock))) as [c1 a] eqn:Er. cbn [fst snd] in *. subst a.
  destruct (client_api_survives_crash toy_hash toy_compress toy_uncompress flat roomy_options d crash_plans crash_ops c1 crash_answers crash_point 30
    ltac:(split; vm_compute; reflexivity) Eo ltac:(repeat constructor; cbn; lia) ltac:(vm_compute; reflexivity) Er (one_write_flushes _ H3 H2) eq_refl (modest_check_ok _ _ H4)
    ltac:(rewrite H5; lia)) as (d' & E' & Hs).
  exists d, c1, d'. split; [reflexivity|]. split; [exact Er|]. split; [exact E'|exact Hs].
Defined.

(** ** Two writes at the same time *)

Definition roomy_open : outcome db_error (option DB) := Open flat roomy_options fresh_dir [].

(** Two writes of a key are logged in one order and applied in the other. *)
Definition crossed_writes : list event :=
  [EvWrite (put_of key_a (str "1")); EvWrite (put_of key_a (str "2")); EvSend 0; EvSend 1;
   EvCommitter 0 group_commit.ERecv; EvCommitter 0 group_commit.ERecv; EvCommitter 0 group_commit.ETimer;
   EvAnswer 1; EvReturn 1; EvAnswer 0; EvReturn 0].

