(* ===== verification/DbCrash.v ===== *)
(** * Crashes under concurrent calls

    Any number of callers write and read at the same time on a working disk, and the
    machine stops.  While the log is at most one block long and what was to be written fits
    in one memtable, the directory opens again with a sequence of whole batches in the
    order of the log: every acknowledged one is among them, and a batch whose call began
    after another one was acknowledged is behind it.  (The order in which the memtable got
    batches whose calls overlap may be another one, see [NodeCrash].)  This holds for a
    directory that was left by an earlier crash too. *)

From S2P Require Import Prelude Order Keys Files WalBatch WalLog WalRecovery GroupCommit SkipList MemTable Manager.
From S2P Require Import Hlc Txn Bloom Cache SSTable SSTableSpec Manifest Heap MergeIter Compaction CompactionSpec Limits Levels.
From S2P Require Import Lsm LsmSpec LsmRefine Db DbSpec DbReads Transport Node NodeLive NodeCrash.
Import wal_log hlc txn wal_batch manager db transport.

#[local] Open Scope Z_scope.

(** ** The calls whose batches are on the way *)

Definition sent_calls (ws : gmap nat write_call) : gmap nat write_call := filter (fun x => wphase x.2 = Sent) ws.

Definition sent_entries (ws : gmap nat write_call) : list BatchEntry :=
  concat (map (fun x => Entries (wbatch x.2)) (map_to_list (sent_calls ws))).

Lemma sent_same ws ws' : sent_calls ws' = sent_calls ws -> sent_entries ws' = sent_entries ws.
Proof. intros E. unfold sent_entries. by rewrite E. Qed.

Lemma sent_other ws id w : wphase w <> Sent -> (forall w', ws !! id = Some w' -> wphase w' <> Sent) -> sent_entries (<[id := w]> ws) = sent_entries ws.
Proof. intros Hw Hid. by apply sent_same, map_filter_insert_not'. Qed.

Lemma sent_new ws id b : (forall w, ws !! id = Some w -> wphase w <> Sent) ->
  sent_entries (<[id := mkWrite b Sent]> ws) ≡ₚ Entries b ++ sent_entries ws.
Proof.
  intros Hid. unfold sent_entries, sent_calls. rewrite map_filter_insert_True by done.
  rewrite map_to_list_insert; [done|]. apply map_lookup_filter_None. right. intros w Hw. by apply Hid.
Qed.

Lemma sent_take ws id w : ws !! id = Some w -> wphase w = Sent -> sent_entries ws ≡ₚ Entries (wbatch w) ++ sent_entries (delete id ws).
Proof.
  intros Hw Hp. unfold sent_entries, sent_calls. rewrite map_filter_delete.
  rewrite <- (map_to_list_delete (filter _ ws) id w) by (by apply map_lookup_filter_Some). done.
Qed.

Lemma sent_moved ws id w w' : ws !! id = Some w -> wphase w = Sent -> wphase w' <> Sent ->
  sent_entries ws ≡ₚ Entries (wbatch w) ++ sent_entries (<[id := w']> ws).
Proof.
  intros Hw Hp Hp'. rewrite (sent_take ws id w Hw Hp). f_equiv. by rewrite (sent_same _ _ (map_filter_insert_False _ ws id w' Hp')).
Qed.

(** ** The invariant *)

Definition enc_request (x : nat * Batch) : group_commit.commitRequest := (x.1, enc_batch x.2).

Section crash.
Context (base : list Batch).
Context (Sum128 : bytes -> Z * Z).
Context (CompressBlock : bytes -> option bytes) (UncompressBlock : bytes -> Z -> option bytes).
Context `{!Lz4 CompressBlock UncompressBlock}.
Context (coin : nat -> bool).

Abbreviation step := (db.step Sum128 CompressBlock UncompressBlock coin).
Abbreviation run := (db.run Sum128 CompressBlock UncompressBlock coin).
Abbreviation plain := (plain base Sum128 CompressBlock).
Abbreviation modest := (modest base).
Abbreviation after_step := (after_step Sum128 CompressBlock UncompressBlock coin).

(** A database that was asked to log the batches of the calls in [log], in this order. *)
Record crowd (log : list (nat * Batch)) (d : DB) (gc : group_commit.GroupCommitter) : Prop := {
  cr_plain : plain d gc;
  cr_requests : gc_requests gc = map enc_request log;
  cr_normal : Forall normal_batch (base ++ map snd log) /\ forall id w, writes d !! id = Some w -> normal_batch (wbatch w);
  cr_live : forall id w, writes d !! id = Some w -> wphase w <> Begun -> (id, wbatch w) ∈ log;
  cr_results : forall id b r, (id, RWrite b r) ∈ results d -> r = Ok tt /\ (id, b) ∈ log /\ writes d !! id = None;
  cr_log : forall id b, (id, b) ∈ log ->
    (id < next_id d)%nat /\ ((exists w, writes d !! id = Some w /\ wbatch w = b) \/ (id, RWrite b (Ok tt)) ∈ results d);
  cr_applied : applied (mem d) ++ sent_entries (writes d) ≡ₚ concat (map Entries (base ++ map snd log));
}.

(** The events of callers and goroutines of a database that is not closed. *)
Definition steady (e : event) : Prop := match e with EvWrite b => normal_batch b | EvClose => False | _ => True end.

Lemma crowd_payloads log d gc : crowd log d gc -> payloads (requests d) = map enc_batch (map snd log).
Proof. intros H. rewrite (plain_requests _ _ _ d gc (cr_plain _ _ _ H)), (cr_requests _ _ _ H). unfold payloads. by rewrite !map_map. Qed.

Lemma crowd_block log d gc : crowd log d gc -> modest d -> len (full_bytes (map enc_batch base ++ map enc_batch (map snd log))) <= BlockSize.
Proof. intros H M. rewrite <- (crowd_payloads log d gc H). apply M. Qed.

(** There is room for the batches on the way. *)
Lemma crowd_room log d gc : crowd log d gc -> modest d -> forall id w, call_in Sent id d = Some w -> room d (Entries (wbatch w)).
Proof.
  intros H M id w [Hw Hp]%call_in_ok. pose proof (md_room _ _ M) as Hr. rewrite (crowd_payloads log d gc H) in Hr.
  rewrite (decode_behind base) in Hr by (apply (cr_normal _ _ _ H) || by eapply crowd_block). unfold room, applied_writes.
  pose proof (cr_applied _ _ _ H) as Ha. rewrite (sent_take _ id w Hw Hp) in Ha.
  rewrite <- (sum_perm _ _ _ (fmap_Permutation entry_write _ _ Ha)) in Hr. rewrite <- map_app. change (fmap entry_write) with (map entry_write) in Hr.
  rewrite (assoc_L (++)), (map_app _ (_ ++ _)), sum_app in Hr.
  pose proof (sum_nonneg mem_cost (map entry_write (sent_entries (delete id (writes d)))) mem_cost_nonneg). lia.
Qed.

Lemma crowd_ids log d gc : crowd log d gc -> NoDup (map fst log).
Proof.
  intros H. destruct (di_head _ (sn_inv _ (pl_sound _ _ _ _ _ (cr_plain _ _ _ H)))) as (gc0 & es & Hg & Hh).
  destruct (pl_log _ _ _ _ _ (cr_plain _ _ _ H)) as (_ & Hc & _). rewrite Hc in Hg. injection Hg as <-.
  pose proof (hd_nodup _ _ _ _ _ _ _ _ _ Hh) as Hn. rewrite <- (inv_fifo _ _ (hd_inv _ _ _ _ _ _ _ _ _ Hh)) in Hn.
  pose proof (cr_requests _ _ _ H) as Hr. unfold gc_requests in Hr. rewrite Hr, map_map in Hn. exact Hn.
Qed.

(** ** Steps *)

Lemma requests_snoc gc gc' log id b : gc_requests gc = map enc_request log -> gc_requests gc' = gc_requests gc ++ [(id, enc_batch b)] ->
  gc_requests gc' = map enc_request (log ++ [(id, b)]).
Proof. intros E ->. by rewrite E, map_app. Qed.

(** A batch is sent to the log. *)
Lemma crowd_send log d d' gc gc' id w : crowd log d gc -> plain d' gc' -> next_id d' = next_id d ->
  gc_requests gc' = gc_requests gc ++ [(id, enc_batch (wbatch w))] -> call_in Begun id d = Some w ->
  writes d' = <[id := mkWrite (wbatch w) Sent]> (writes d) -> results d' = results d -> applied (mem d') = applied (mem d) ->
  crowd (log ++ [(id, wbatch w)]) d' gc'.
Proof.
  intros H P Hn R [Hw Hp]%call_in_ok Fw Fr Fa. pose proof (to_ids _ _ _ (di_tasks _ (sn_inv _ (pl_sound _ _ _ _ _ (cr_plain _ _ _ H)))) _ _ Hw) as Hid.
  destruct H as [H1 H2 [H3 H3'] H4 H5 H6 H7]. split; rewrite ?Fw, ?Fr, ?Fa, ?Hn; [done|by eapply requests_snoc| | | | |].
  - split; [rewrite (map_app snd log), (assoc_L (++)); apply Forall_app; split; [done|constructor; [by eapply H3'|done]]|]. intros id' w' [[<- <-]|[_ E]]%lookup_insert_Some; cbn; eauto.
  - intros id' w' [[<- <-]|[_ E]]%lookup_insert_Some Hb; apply elem_of_app; [right; by left|left; auto].
  - intros id' b r Hr. destruct (H5 _ _ _ Hr) as (-> & Hin & Hnone). split_and!; [done|apply elem_of_app; by left|].
    rewrite lookup_insert_ne; [done|]. congruence.
  - intros id' b [Hin|[= -> ->]%list_elem_of_singleton]%elem_of_app; [|split; [done|]; left; rewrite lookup_insert_eq; eauto].
    destruct (H6 _ _ Hin) as [Hlt [(w' & Hw' & <-)|Hr]]; (split; [done|]); [left|by right].
    destruct (decide (id' = id)) as [->|Hne]; [rewrite lookup_insert_eq; simplify_eq; eauto|rewrite lookup_insert_ne by done; eauto].
  - rewrite sent_new by (intros w' ?; simplify_eq; congruence). rewrite (map_app snd log), (assoc_L (++) base), (map_app Entries (base ++ _)), concat_app, <- H7. cbn. rewrite app_nil_r. solve_Permutation.
Qed.

(** The call has its answer, and the memtable its entries. *)
Lemma crowd_answer log d d' gc gc' id w : crowd log d gc -> plain d' gc' -> next_id d' = next_id d -> gc_requests gc' = gc_requests gc ->
  call_in Sent id d = Some w -> writes d' = <[id := mkWrite (wbatch w) Applying]> (writes d) -> results d' = results d ->
  applied (mem d') = applied (mem d) ++ Entries (wbatch w) -> crowd log d' gc'.
Proof.
  intros [H1 H2 [H3 H3'] H4 H5 H6 H7] P Hn R [Hw Hp]%call_in_ok Fw Fr Fa. split; rewrite ?Fw, ?Fr, ?Fa, ?Hn; [done|congruence|..].
  - split; [done|]. intros id' w' [[<- <-]|[_ E]]%lookup_insert_Some; cbn; eauto.
  - intros id' w' [[<- <-]|[_ E]]%lookup_insert_Some Hb; [apply (H4 _ _ Hw); congruence|auto].
  - intros id' b r Hr. destruct (H5 _ _ _ Hr) as (-> & Hin & Hnone). split_and!; [done..|]. rewrite lookup_insert_ne; [done|]. congruence.
  - intros id' b Hin. destruct (H6 _ _ Hin) as [Hlt [(w' & Hw' & <-)|Hr]]; (split; [done|]); [left|by right].
    destruct (decide (id' = id)) as [->|Hne]; [rewrite lookup_insert_eq; simplify_eq; eauto|rewrite lookup_insert_ne by done; eauto].
  - rewrite <- H7, (sent_moved (writes d) id w (mkWrite (wbatch w) Applying) Hw Hp) by done. by rewrite (assoc_L (++)).
Qed.

(** The call returns. *)
Lemma crowd_return log d d' gc gc' id w : crowd log d gc -> plain d' gc' -> next_id d' = next_id d -> gc_requests gc' = gc_requests gc ->
  call_in Applying id d = Some w -> writes d' = delete id (writes d) -> results d' = results d ++ [(id, RWrite (wbatch w) (Ok tt))] ->
  applied (mem d') = applied (mem d) -> crowd log d' gc'.
Proof.
  intros [H1 H2 [H3 H3'] H4 H5 H6 H7] P Hn R [Hw Hp]%call_in_ok Fw Fr Fa. split; rewrite ?Fw, ?Fr, ?Fa, ?Hn; [done|congruence|..].
  - split; [done|]. intros id' w' [_ E]%lookup_delete_Some. eauto.
  - intros id' w' [_ E]%lookup_delete_Some. auto.
  - intros id' b r [Hr|[= -> -> ->]%list_elem_of_singleton]%elem_of_app.
    + destruct (H5 _ _ _ Hr) as (-> & Hin & Hnone). split_and!; [done..|]. by rewrite lookup_delete_ne by congruence.
    + split_and!; [done|apply (H4 _ _ Hw); congruence|by rewrite lookup_delete_eq].
  - intros id' b Hin. destruct (H6 _ _ Hin) as [Hlt [(w' & Hw' & <-)|Hr]]; (split; [done|]); [|right; apply elem_of_app; by left].
    destruct (decide (id' = id)) as [->|Hne]; [right; simplify_eq; apply elem_of_app; right; by left|left; rewrite lookup_delete_ne by done; eauto].
  - rewrite (sent_same (writes d)); [done|]. apply map_filter_delete_not. intros y Hy. simplify_eq. cbn. congruence.
Qed.

Lemma crowd_effect log d d' gc gc' rs : crowd log d gc -> plain d' gc' -> next_id d' = next_id d ->
  gc_requests gc' = gc_requests gc ++ rs -> effect d d' rs -> exists l, crowd (log ++ l) d' gc'.
Proof.
  intros H P Hn R F. destruct F as [Fw Fr Fa|id w Hw Fw Fr Fa|id w Hw Fw Fr Fa|id w Hw Fw Fr Fa]; rewrite ?app_nil_r in R.
  2: exists [(id, wbatch w)]; by eapply crowd_send.
  2: exists []; rewrite app_nil_r; by eapply crowd_answer.
  2: exists []; rewrite app_nil_r; by eapply crowd_return.
  exists []. rewrite app_nil_r. destruct H as [H1 H2 H3 H4 H5 H6 H7]. split; rewrite ?Fw, ?Fa, ?Hn; try done; [congruence|..].
  - intros id b r Hr%Fr. auto.
  - intros id b Hin. rewrite Fr. auto.
Qed.

(** New calls. *)
Lemma sound_write b d d' : sound d -> step (EvWrite b) d = Ok d' -> sound d' /\
  d' = set_writes (<[next_id d := mkWrite b Begun]> (writes d)) (set_next (S (next_id d)) d).
Proof.
  intros [H1 H2 H3] E. assert (db_inv d') as Hi by by eapply db_step_inv.
  destruct (step_keeps Sum128 CompressBlock UncompressBlock coin _ d d' H1 H2 E) as (_ & _ & Hr).
  cbn [db.step] in E. apply when_ok in E as [_ [= <-]]. unfold WriteBatch in *. cbn [db.closed set_next] in *. destruct (ca_open _ H3) as [Hcl Hco].
  rewrite Hco in *. split; [|done]. split; [done..|]. split; [done|]. cbn. intros x Hx. specialize (ca_ids _ H3 x Hx). lia.
Qed.

Lemma crowd_begin log d d' gc b : crowd log d gc -> normal_batch b -> step (EvWrite b) d = Ok d' -> crowd log d' gc.
Proof.
  intros H Hb E. pose proof (pl_sound _ _ _ _ _ (cr_plain _ _ _ H)) as Hs. destruct (sound_write b d d' Hs E) as [Hs' ->]. clear E.
  pose proof (to_ids _ _ _ (di_tasks _ (sn_inv _ Hs))) as Hids. destruct H as [H1 H2 [H3 H3'] H4 H5 H6 H7]. split; cbn; [by eapply plain_same|done|..].
  - split; [done|]. intros id' w' [[<- <-]|[_ E]]%lookup_insert_Some; cbn; eauto.
  - intros id' w' [[<- <-]|[_ E]]%lookup_insert_Some Hp; [done|auto].
  - intros id' b' r Hr. destruct (H5 _ _ _ Hr) as (-> & Hin & Hnone). split_and!; [done..|]. rewrite lookup_insert_ne; [done|].
    pose proof (ca_ids _ (sn_calm _ Hs) _ Hr) as Hlt. cbn in Hlt. lia.
  - intros id' b' Hin. destruct (H6 _ _ Hin) as [Hlt Hc]. split; [lia|]. rewrite lookup_insert_ne by lia. done.
  - rewrite sent_other; [done|done|]. intros w' Hw'%Hids. lia.
Qed.

Lemma crowd_read log d d' gc k : crowd log d gc -> step (EvRead k) d = Ok d' -> crowd log d' gc.
Proof.
  intros H E. pose proof (pl_sound _ _ _ _ _ (cr_plain _ _ _ H)) as Hs.
  destruct (begin_read Sum128 CompressBlock UncompressBlock coin k d d' Hs E) as (Hs' & Hw & Ha & _).
  cbn [db.step] in E. apply when_ok in E as [_ [= <-]]. unfold db.Get in *. cbn [db.closed set_next] in *.
  rewrite (proj2 (ca_open _ (sn_calm _ Hs))) in *. destruct H as [H1 H2 H3 H4 H5 H6 H7]. split; try done; [by eapply plain_same|].
  intros id b Hin. destruct (H6 _ _ Hin) as [Hlt Hc]. split; [cbn; lia|done].
Qed.

Lemma crowd_step e log d d' gc : crowd log d gc -> modest d -> steady e -> step e d = Ok d' ->
  exists gc' l, crowd (log ++ l) d' gc' /\ gc_records gc `prefix_of` gc_records gc'.
Proof.
  intros H M He E. destruct (background e) eqn:Hb.
  - destruct (plain_step base Sum128 CompressBlock UncompressBlock coin e d d' gc (cr_plain _ _ _ H) Hb (crowd_room log d gc H M) E) as (gc' & rs & P & R & Hp & F).
    destruct (quiet_step Sum128 CompressBlock UncompressBlock coin e d d' (pl_sound _ _ _ _ _ (cr_plain _ _ _ H)) Hb E) as (_ & Hn & _).
    destruct (crowd_effect log d d' gc gc' rs H P Hn R F) as [l Hl]. by exists gc', l.
  - exists gc, []. rewrite app_nil_r. split; [|done]. destruct e; try done; [by eapply crowd_begin|by eapply crowd_read].
Qed.

Lemma crowd_run es : forall log d d' gc, crowd log d gc -> Forall steady es -> run es d = Ok d' -> modest d' ->
  exists gc' l, crowd (log ++ l) d' gc' /\ gc_records gc `prefix_of` gc_records gc'.
Proof.
  induction es as [|e es IH]; intros log d d' gc H Hq E M; cbn in E; [injection E as <-; exists gc, []; by rewrite app_nil_r|].
  pose proof (modest_run base Sum128 CompressBlock UncompressBlock coin (e :: es) d d' (sound_valid _ (pl_sound _ _ _ _ _ (cr_plain _ _ _ H))) E M) as Md.
  apply bind_ok in E as (d1 & E1 & E). apply Forall_cons in Hq as [He Hq]. destruct (crowd_step e log d d1 gc H Md He E1) as (gc1 & l1 & H1 & P1).
  destruct (IH _ _ _ _ H1 Hq E M) as (gc2 & l2 & H2 & P2). exists gc2, (l1 ++ l2). rewrite (assoc_L (++)). split; [done|by etrans].
Qed.

(** ** What is left after a crash *)

(** The answered calls are the first ones of the log, and have the acknowledged ones. *)
Lemma crowd_answered log d gc : crowd log d gc -> exists k, (k <= length log)%nat /\ gc_records gc = map enc_batch (map snd (take k log)) /\
  forall id b, (id, RWrite b (Ok tt)) ∈ results d -> (id, b) ∈ take k log.
Proof.
  intros H. pose proof (cr_requests _ _ _ H) as R. unfold gc_requests in R. symmetry in R. apply map_eq_app in R as (l1 & l2 & -> & R1 & R2).
  exists (length l1). rewrite take_app_length, length_app. split_and!; [lia| |].
  - unfold gc_records. rewrite map_map. transitivity (payloads (map fst (group_commit.replies gc))); [unfold payloads; by rewrite map_map|].
    rewrite <- R1. unfold payloads. by rewrite map_map.
  - intros id b (_ & Hin & Hnone)%(cr_results _ _ _ H). apply elem_of_app in Hin as [|Hin]; [done|]. exfalso.
    destruct (di_head _ (sn_inv _ (pl_sound _ _ _ _ _ (cr_plain _ _ _ H)))) as (gc0 & es & Hg & Hh).
    destruct (pl_log _ _ _ _ _ (cr_plain _ _ _ H)) as (_ & Hc & _). rewrite Hc in Hg. injection Hg as <-.
    destruct (hd_wait _ _ _ _ _ _ _ _ _ Hh (id, enc_batch b)) as (w & Hw & _); [|cbn in Hw; congruence].
    rewrite <- R2. by apply (list_elem_of_fmap_2 enc_request l2 (id, b)).
Qed.

Lemma take_elem {A} (x : A) n l : x ∈ take n l -> x ∈ l.
Proof. intros H. rewrite <- (take_drop n l). apply elem_of_app. by left. Qed.

Lemma take_more {A} (x : A) k n l : (k <= n)%nat -> x ∈ take k l -> x ∈ take n l.
Proof. intros Hk H. apply (take_elem x k). by rewrite take_take, Nat.min_l. Qed.

Lemma records_order k1 k2 (l1 l2 : list (nat * Batch)) : (k1 <= length l1)%nat -> (k2 <= length l2)%nat ->
  map enc_batch (map snd (take k1 l1)) `prefix_of` map enc_batch (map snd (take k2 l2)) -> (k1 <= k2)%nat.
Proof. intros H1 H2 H%prefix_length. rewrite !length_map, !length_take in H. lia. Qed.

Lemma open_crowd o dir d : opts_ok (lsm_options o) -> based base dir -> Open coin o dir [] = Ok (Some d) ->
  options d = o /\ valid d /\ (modest d -> exists gc, crowd [] d gc).
Proof.
  intros Ho Hb E. destruct (open_settled base Sum128 CompressBlock coin o dir d Ho Hb E) as (Hd & Hres & H). split_and!; [done|apply sound_valid, Hres|].
  intros M. destruct (H M) as [gc Hs]. exists gc. clear Hb Hd Hres H M. rename Hs into H.
  apply Open_opened in E as (gc0 & m & app & t & [E _ _] & _). assert (results d = []) as Hr by (by rewrite E). clear E gc0 m app t.
  destruct H as [P Hw Hn R Ha]. split; rewrite ?Hw, ?Hr, ?Ha; try done; try (by intros; rewrite lookup_empty in *); try (by intros ? ? ?%elem_of_nil); try (by intros ? ? ? ?%elem_of_nil).
  - by apply map_eq_nil in R as ->.
  - unfold sent_entries, sent_calls. by rewrite map_filter_empty, map_to_list_empty, app_nil_r.
Qed.

(** The log that was cut opens, with its first calls. *)
Lemma reopen_crowd o cut d d2 gc gc2 (l1 l2 : list (nat * Batch)) k k2 :
  opts_ok (lsm_options o) -> options d2 = o -> crowd l1 d gc -> crowd (l1 ++ l2) d2 gc2 -> modest d2 -> (k <= length l1)%nat -> (k <= k2)%nat ->
  gc_records gc = map enc_batch (map snd (take k l1)) -> gc_records gc2 = map enc_batch (map snd (take k2 (l1 ++ l2))) -> durable_len d <= Z.of_nat cut ->
  exists d' n, Open coin o (torn cut d2) [] = Ok (Some d') /\ (k <= n)%nat /\
    let after := base ++ map snd (take n (l1 ++ l2)) in applied (mem d') = concat (map Entries after) /\ (tidy_dir (torn cut d2) -> based after (torn cut d2)).
Proof.
  intros Ho Hd H1 H2 M Hk Hk2 R1 R2 Hcut. set (L := l1 ++ l2) in *. set (q := map snd (take k2 L)) in *.
  assert (map snd (take k l1) = take k q) as Eq.
  { unfold q. rewrite firstn_map, take_take, Nat.min_l by done. unfold L. by rewrite take_app_le. }
  rewrite Eq in R1. rewrite <- (take_drop k q) in R2.
  assert (q `prefix_of` map snd L) as Hq by (unfold q; rewrite <- firstn_map; apply prefix_take).
  assert (Forall normal_batch (base ++ take k q ++ drop k q)) as Hnorm.
  { rewrite take_drop. destruct Hq as [q' Hq]. pose proof (proj1 (cr_normal _ _ _ H2)) as Hn. rewrite Hq, (assoc_L (++)) in Hn. by apply Forall_app in Hn as [? _]. }
  destruct (torn_plain base Sum128 CompressBlock cut d d2 gc gc2 _ _ (cr_plain _ _ _ H1) (cr_plain _ _ _ H2) R1 R2 Hnorm M Hcut) as (p & [p' Hp] & Et & Hle & Hr).
  pose proof (based_torn _ cut Hnorm Hle) as Hbased. set (data := take cut _) in *. destruct (open_working Sum128 CompressBlock coin o data Ho) as (d' & E & _ & Ha & _).
  { rewrite Hr, <- Hd. rewrite Hp, (assoc_L (++) (take k q)) in R2, Hnorm. by apply (modest_room base Sum128 CompressBlock d2 gc2 _ p' (cr_plain _ _ _ H2)). }
  assert (take k q ++ p `prefix_of` map snd L) as Hpre.
  { etrans; [|exact Hq]. exists p'. by rewrite <- (take_drop k q) at 1; rewrite Hp, (assoc_L (++)). }
  assert (length (take k q) = k) as Hlen by (rewrite <- Eq, length_map, length_take; lia).
  exists d', (length (take k q ++ p)). rewrite Et. split; [done|]. split; [rewrite length_app; lia|].
  assert (map snd (take (length (take k q ++ p)) L) = take k q ++ p) as -> by (destruct Hpre as [z Hz]; by rewrite <- firstn_map, Hz, take_app_length).
  rewrite <- Hr. split; [by rewrite Ha|done].
Qed.

(** The call [id] was made with the batch [b]. *)
Definition made (id : nat) (b : Batch) (d : DB) : Prop :=
  (exists w, writes d !! id = Some w /\ wbatch w = b) \/ (id, RWrite b (Ok tt)) ∈ results d.

End crash.

(** ** Three calls, of which two have returned *)

Definition first_call : list event := EvWrite (put_of key_a (str "1")) :: write_plan 0.
Definition busy_calls : list event :=
  [EvWrite (put_of key_a (str "2")); EvWrite (put_of key_b (str "3")); EvSend 2; EvCommitter 0 group_commit.ERecv;
   EvCommitter 0 group_commit.ETimer; EvSend 1; EvAnswer 2; EvCommitter 0 group_commit.ERecv; EvReturn 2].

Definition busy_final {A} (x : A) (f : DB -> DB -> A) : A :=
  match Open flat roomy_options fresh_dir [] with
  | Ok (Some d) =>
      match db.run toy_hash toy_compress toy_uncompress flat first_call d with
      | Ok da => match db.run toy_hash toy_compress toy_uncompress flat busy_calls da with Ok d => f da d | _ => x end
      | _ => x
      end
  | _ => x
  end.

