(* ===== verification/NodeClose.v ===== *)
(** * A storage node that is stopped and started again

    [Close] of a database that has not been flushed leaves its log as it was, whatever steps
    its goroutines make meanwhile, and so the directory opens with the same contents. *)

From S2P Require Import Prelude Order Keys Files WalBatch WalLog WalRecovery GroupCommit SkipList MemTable Manager.
From S2P Require Import Hlc Txn Bloom Cache SSTable SSTableSpec Manifest Heap MergeIter Compaction CompactionSpec Limits Levels.
From S2P Require Import Lsm LsmSpec LsmRefine Db DbSpec DbReads Transport Node NodeLive NodeCrash.
Import wal_log hlc txn wal_batch manager db transport.

#[local] Open Scope Z_scope.

Section close.
(** What the log had when the database was opened. *)
Context (base : list Batch).
Context (Sum128 : bytes -> Z * Z).
Context (CompressBlock : bytes -> option bytes) (UncompressBlock : bytes -> Z -> option bytes).
Context `{!Lz4 CompressBlock UncompressBlock}.
Context (coin : nat -> bool).

Abbreviation step := (db.step Sum128 CompressBlock UncompressBlock coin).
Abbreviation run := (db.run Sum128 CompressBlock UncompressBlock coin).
Abbreviation play := (play Sum128 CompressBlock UncompressBlock coin).
Abbreviation lsm_ok := (LsmSpec.lsm_ok Sum128 CompressBlock).
Abbreviation settled := (settled base Sum128 CompressBlock).
Abbreviation modest := (modest base).

(** ** While the database closes *)

(** The committer has nothing to write and its file has the bytes [log]. *)
Definition log_rests (log : bytes) (gc : group_commit.GroupCommitter) : Prop :=
  group_commit.batch gc = [] /\ group_commit.pending gc = [] /\ fdata (file (gc_writer gc)) = log.

(** An open database whose log can be closed. *)
Definition can_close (d : DB) (gc : group_commit.GroupCommitter) : Prop :=
  (exists T, lsm_ok T (tree d)) /\ small_tree 0 (tree d) /\ writer_ok (gc_writer gc) /\ stream (gc_writer gc) = fdata (file (gc_writer gc)).

(** A database without calls that write, and with nothing to flush, before, in and after
    [Close]. *)
Record shut (log : bytes) (d : DB) (gc : group_commit.GroupCommitter) : Prop := {
  sh_valid : valid d;
  sh_idle : writes d = ∅;
  sh_stage : stage d = FlushTree /\ (fl (mem d) = Idle \/ fl (mem d) = Exited);
  sh_mem : immutable (mgr (mem d)) = None;
  sh_dir : compaction.sst (lsm.lenv (tree d)) = ∅ /\ fdata (manifest.mfile (compaction.man (lsm.lenv (tree d)))) = [];
  sh_log : linked d = true /\ committers d = [gc] /\ log_rests log gc;
  sh_open : closing d <> CloseDone -> can_close d gc;
}.

Lemma settled_shut bs d gc : settled bs d gc -> shut (fdata (file (gc_writer gc))) d gc.
Proof.
  intros H. pose proof (se_plain _ _ _ _ _ _ H) as P. destruct (pl_stage _ _ _ _ _ P) as (H1 & H2 & _). destruct (pl_mem _ _ _ _ _ P) as (am & _ & H3 & _).
  destruct (pl_empty _ _ _ _ _ P) as (H4 & H5 & H6). destruct (pl_log _ _ _ _ _ P) as (H7 & H8 & Hj). destruct (idle_queues _ _ _ d gc P (se_idle _ _ _ _ _ _ H)) as [Hb Hp].
  split; [apply sound_valid, (pl_sound _ _ _ _ _ P)|apply (se_idle _ _ _ _ _ _ H)|by split; [|left]|done|done|done|].
  intros _. split_and!; [apply (pl_tree _ _ _ _ _ P)|done|apply Hj|]. by destruct (jn_synced _ _ Hj) as [-> _].
Qed.

(** Changes that the log does not see. *)
Lemma shut_same log d d' gc : shut log d gc -> valid d' -> writes d' = writes d -> stage d' = stage d -> (fl (mem d') = Idle \/ fl (mem d') = Exited) ->
  immutable (mgr (mem d')) = immutable (mgr (mem d)) -> tree d' = tree d -> linked d' = linked d -> committers d' = committers d ->
  (closing d = CloseDone -> closing d' = CloseDone) -> shut log d' gc.
Proof.
  intros [H1 H2 H3 H4 H5 H6 H7] Hv Hw Hst Hf Hi Ht Hl Hc Hcl. split; unfold can_close; rewrite ?Hw, ?Hst, ?Hi, ?Ht, ?Hl, ?Hc; try done.
  - by split; [apply H3|].
  - intros Hn. apply H7. auto.
Qed.

Lemma shut_gc_inv log d gc : shut log d gc -> exists es, gc_inv es gc.
Proof.
  intros H. destruct (di_head _ (proj1 (sh_valid _ _ _ H))) as (gc0 & es & Hg & Hh). destruct (sh_log _ _ _ H) as (_ & Hc & _). rewrite Hc in Hg. injection Hg as <-.
  exists es. apply Hh.
Qed.

(** The committer has nothing to do but to end. *)
Lemma rests_step log es e gc gc' : gc_inv es gc -> log_rests log gc -> (of_run e = true \/ e = group_commit.EClose) -> group_commit.step e gc = Some gc' ->
  log_rests log gc' /\ gc_writer gc' = gc_writer gc.
Proof.
  intros Hes (Hb & Hp & Hl) He E. pose proof (inv_idle _ _ Hes Hb) as Ht.
  destruct e; destruct He as [He|He]; try discriminate He; cbn [group_commit.step] in E; rewrite ?Hp, ?Ht in E; repeat case_match; simplify_eq; try done.
  unfold group_commit.flush. rewrite Hb. by unfold log_rests.
Qed.

Lemma shut_commit log d d' gc i e gc1 gc' :
  shut log d gc -> valid d' -> (of_run e = true \/ e = group_commit.EClose) -> committers d !! i = Some gc1 -> group_commit.step e gc1 = Some gc' ->
  writes d' = writes d -> stage d' = stage d -> mem d' = mem d -> tree d' = tree d -> linked d' = linked d -> committers d' = <[i := gc']> (committers d) ->
  (closing d = CloseDone -> closing d' = CloseDone) -> shut log d' gc'.
Proof.
  intros H Hv He Hg E Hw Hst Hm Ht Hl Hc Hcl. destruct (shut_gc_inv log d gc H) as [es Hes]. destruct H as [H1 H2 H3 H4 H5 (H6 & H7 & H8) H9].
  rewrite H7 in Hg. destruct i as [|i]; [injection Hg as <-|by destruct i]. destruct (rests_step log es e gc gc' Hes H8 He E) as [Hr Hwr].
  split; unfold can_close; rewrite ?Hw, ?Hst, ?Hm, ?Ht, ?Hl, ?Hc, ?H7, ?Hwr; try done. intros Hn. apply H9. auto.
Qed.

(** [Close] ends. *)
Lemma shut_finish log d gc : shut log d gc -> closing d <> CloseDone -> valid (finish_close d) -> exists gc', shut log (finish_close d) gc'.
Proof.
  intros [H1 H2 H3 H4 [H5 H5'] (H6 & H7 & (Hb & Hp & Hl)) H8] Hn Hv. destruct (H8 Hn) as (_ & _ & Hok & Hs).
  exists (close_writer gc).1. revert Hv. unfold finish_close, close_wal, close_writer. rewrite H7. cbn [last]. rewrite (Close_ok _ Hok).
  destruct (lsm.Close (tree d)) as [t x] eqn:Et. cbn [tree set_committers]. rewrite Et. intros Hv. split; try done; cbn.
  - unfold lsm.Close, manifest.Close, file_close in Et. destruct (compaction.man (lsm.lenv (tree d))) as [f cur nx]. cbn in *.
    destruct (faults f) as [|[|] fs]; injection Et as <- _; done.
  - split_and!; [done|done|]. split_and!; [done..|]. cbn. by rewrite Hs.
Qed.

Lemma shut_step log e d d' gc : shut log d gc -> (background e = true \/ e = EvClose) -> step e d = Ok d' -> exists gc', shut log d' gc'.
Proof.
  intros H Hb E. assert (valid d') as Hv by (eapply (valid_run Sum128 CompressBlock UncompressBlock coin [e]); [apply H|cbn -[db.step]; by rewrite E]).
  pose proof (sh_stage _ _ _ H) as [Hst Hfl]. pose proof (sh_idle _ _ _ H) as Hw. destruct (no_writes d (proj1 (sh_valid _ _ _ H)) Hw) as [Hcall Hrd].
  pose proof (sh_mem _ _ _ H) as Hi.
  destruct e; destruct Hb as [Hb|Hb]; try discriminate Hb; cbn [db.step] in E; rewrite ?Hcall, ?Hst in E; try discriminate E.
  - apply when_ok in E as [He E]. inv_db_step. eexists. eapply (shut_commit log d); try done. by left.
  - apply mem_step_ok in E as (m & E & ->). cbn [manager.step] in E. by rewrite Hrd in E.
  - apply mem_step_ok in E as (m & E & ->). cbn [manager.step] in E. rewrite Hi in E. repeat case_match; simplify_eq. exists gc. apply (shut_same log d); try done.
  - apply mem_step_ok in E as (m & E & ->). cbn [manager.step] in E. rewrite Hi in E. repeat case_match; simplify_eq. exists gc. apply (shut_same log d); try done. by right.
  - destruct Hfl as [Hf|Hf]; by rewrite Hf in E.
  - apply when_ok in E as [Hn%negb_true_iff%bool_decide_eq_false E]. destruct (sh_open _ _ _ H Hn) as ([T HT] & Hsm & _). unfold lsm.compact_once in E.
    rewrite (small_pick 0 (tree d) Hsm ltac:(lia) ltac:(apply HT)) in E. injection E as <-. exists gc. by apply (shut_same log d).
  - apply on_ok in E as (r & Er & [_ E]%when_ok). unfold Get_mem in E. exists gc. apply bind_ok in E as ([v []] & _ & [= <-]); by apply (shut_same log d).
  - apply on_ok in E as (r & Er & [[_ Hn%negb_true_iff%bool_decide_eq_false]%andb_prop E]%when_ok). unfold Get_tree in E. destruct (sh_open _ _ _ H Hn) as ([T HT] & Hsm & Hw1 & Hw2).
    destruct (Get_lsm_ok Sum128 CompressBlock UncompressBlock T (tree d) (rkey r) HT) as (c & Et & Hc). rewrite Et in E. exists gc.
    assert (forall x, d' = return_read id (rkey r) x (set_tree (lsm.set_env (set_cache c (lsm.lenv (tree d))) (tree d)) d) -> shut log d' gc) as Hx.
    { intros x ->. destruct H as [H1 H2 H3 H4 H5 H6 H7]. split; try done. intros _. split_and!; [|done..]. exists T. by apply lsm_ok_cache. }
    destruct (stored T (lsm.version (tree d)) (rkey r)); injection E as <-; by eapply Hx.
  - exists gc. destruct (closing d) eqn:Hcl; try discriminate E; inv_db_step; apply (shut_same log d); try done; by rewrite ?Hcl.
  - apply when_ok in E as [Hcl E]. inv_db_step. exists gc. match goal with M : manager.step _ _ _ = Ok _ |- _ => cbn [manager.step] in M end.
    repeat case_match; simplify_eq. apply andb_prop in Hcl as [Hcl%bool_decide_eq_true _]. apply (shut_same log d); try done. by rewrite Hcl.
  - apply when_ok in E as [Hcl%bool_decide_eq_true E]. destruct (fl (mem d)); try discriminate E. apply bind_ok in E as (d1 & E & [= <-]). unfold stop_committer in E.
    destruct (sh_log _ _ _ H) as (_ & Hc & _). rewrite Hc in E. cbn [last length Nat.sub] in E. destruct (group_commit.stopClosed gc); [discriminate E|]. inv_db_step.
    eexists. eapply (shut_commit log d); try done; [by right|]. by rewrite Hcl.
  - apply when_ok in E as [[Hcl%bool_decide_eq_true _]%andb_prop [= <-]]. apply (shut_finish log d gc); [done|by rewrite Hcl|done].
Qed.

(** ** [Close] of a node *)

Lemma shut_play log es : forall d d' c gc, shut log d gc -> Forall (fun e => background e = true \/ e = EvClose) es -> play es d = (d', c) -> exists gc', shut log d' gc'.
Proof.
  induction es as [|e es IH]; intros d d' c gc H Hq E; cbn [Node.play] in E; [injection E as <- <-; eauto|]. apply Forall_cons in Hq as [He Hq].
  destruct (step e d) as [d1| | |] eqn:E1; [|by eapply IH|injection E as <- <-; eauto..]. destruct (shut_step log e d d1 gc H He E1) as [gc1 H1]. by eapply IH.
Qed.

Lemma shut_close log d gc ps n' r : shut log d gc -> node_Close Sum128 CompressBlock UncompressBlock coin (mkNode d ps Running) = (n', r) ->
  crash (node_db n') = mkDir (mkFS (Some log) None []) ∅ [].
Proof.
  intros H E. assert (exists gc', shut log (node_db n') gc') as [gc' [_ _ _ _ [H1 H2] (H3 & H4 & _ & _ & H5) _]].
  { unfold node_Close, serve in E. cbn [node_status plans node_db] in E. destruct ps as [|[before after] ps]; [injection E as <- _; by exists gc|].
    assert (Forall (fun e => background e = true \/ e = EvClose) (List.filter background before ++ EvClose :: List.filter background after)) as Hq.
    { apply Forall_app. split; [|constructor; [by right|]]; (eapply Forall_impl; [apply quiet_filter|]); by left. }
    destruct (play _ d) as [d' c] eqn:Ep. destruct (shut_play log _ d d' c gc H Hq Ep) as [gc' H']. exists gc'. destruct c; [by injection E as <- _|]. destruct (reply _ d') as [[]|]; by injection E as <- _. }
  unfold crash. rewrite H1, H2, H3, H4. cbn. by rewrite H5.
Qed.

(** The directory opens with what the database had, and has nothing but that. *)
Lemma close_reopens o bs d gc ps n' r :
  opts_ok (lsm_options o) -> options d = o -> settled bs d gc -> modest d -> node_Close Sum128 CompressBlock UncompressBlock coin (mkNode d ps Running) = (n', r) ->
  exists d' data, crash (node_db n') = mkDir (mkFS (Some data) None []) ∅ [] /\ Open coin o (crash (node_db n')) [] = Ok (Some d') /\
    entries_map (applied (mem d')) ∅ = durable base d /\ based (base ++ bs) (crash (node_db n')).
Proof.
  intros Ho Hd H M E. pose proof (shut_close _ d gc ps n' r (settled_shut bs d gc H) E) as Hdir. set (data := fdata (file (gc_writer gc))) in *.
  pose proof (se_plain _ _ _ _ _ _ H) as P. pose proof (settled_records _ _ _ bs d gc H) as Er. pose proof (small_records _ _ _ d gc bs P M Er) as Hle.
  pose proof (se_normal _ _ _ _ _ _ H) as Hn. destruct (pl_log _ _ _ _ _ P) as (_ & _ & Hj).
  assert (data = full_bytes (map enc_batch (base ++ bs))) as Hdata by (unfold data; rewrite (journal_bytes base gc Hj), Er by (by rewrite Er); by rewrite map_app).
  rewrite <- map_app in Hle. assert (replay data = base ++ bs) as Hr.
  { destruct (replay_full (base ++ bs) [] (length (full_bytes (map enc_batch (base ++ bs))))) as (p & ->%prefix_nil_inv & Hr); [by rewrite app_nil_r|done|].
    rewrite app_nil_r in Hr. rewrite take_ge, <- Hdata in Hr by done. rewrite Hr. by apply norm_normals. }
  destruct (open_working Sum128 CompressBlock coin o data Ho) as (d' & E' & _ & Ha & _).
  { rewrite Hr, <- Hd. apply (modest_room base Sum128 CompressBlock d gc bs []); rewrite ?app_nil_r; done. }
  exists d', data. rewrite Hdir, Ha, Hr. rewrite (durable_settled _ _ _ bs d gc H M). split_and!; try done. rewrite <- Hr.
  pose proof (based_torn (base ++ bs) (length data) Hn Hle) as Hb. rewrite <- Hdata, take_ge in Hb by done. apply Hb. left. cbn. by rewrite Hr, Hdata.
Qed.

(** ** [Close] returns *)

(** What the goroutines do for [Close] of a database without calls. *)
Definition close_plan : list event :=
  [EvCloseLock; EvLast; EvCloseFlusher; EvCommitter 0 group_commit.EStop; EvCommitter 0 group_commit.EReturn; EvCloseEnd].

Lemma play_runs es es' : forall d d', run es d = Ok d' -> play (es ++ es') d = play es' d'.
Proof.
  induction es as [|e es IH]; intros d d' E; cbn [db.run app] in *; [by injection E as <-|].
  apply bind_ok in E as (d1 & E1 & E). rewrite (play_ok _ _ _ _ e _ d d1 E1). by apply IH.
Qed.

(** The committer of such a database is told to stop, drains nothing and ends. *)
Lemma committer_ends gc : journal base gc -> group_commit.batch gc = [] -> group_commit.pending gc = [] ->
  exists gc1 gc2 gc3, group_commit.step group_commit.EClose gc = Some gc1 /\ group_commit.step group_commit.EStop gc1 = Some gc2 /\
    group_commit.step group_commit.EReturn gc2 = Some gc3 /\ group_commit.phase_of gc3 = group_commit.Stopped /\ gc_writer gc3 = gc_writer gc.
Proof.
  intros Hj Hb Hp. destruct gc as [w p b ti sc ph mx cs rs rj]. pose proof (jn_open _ _ Hj) as Ho. pose proof (jn_running _ _ Hj) as Hr. cbn in *. subst.
  eexists _, _, _. split; [reflexivity|]. split; [reflexivity|]. split; [reflexivity|]. done.
Qed.

(** The steps of [Close] up to the end of the flush goroutine. *)
Lemma close_flusher bs d gc : settled bs d gc ->
  exists d', run [EvClose; EvCloseLock; EvLast] d = Ok d' /\ closing d' = CloseWaitFlusher /\ fl (mem d') = Exited /\ committers d' = [gc] /\
    next_id d' = next_id d /\ results d' = results d.
Proof.
  intros H. pose proof (se_plain _ _ _ _ _ _ H) as P. destruct (pl_stage _ _ _ _ _ P) as (H1 & H2 & H3). destruct (pl_mem _ _ _ _ _ P) as (am & _ & H4 & _).
  destruct (pl_log _ _ _ _ _ P) as (_ & H5 & _). pose proof (pl_started _ _ _ _ _ P) as H6. pose proof (se_idle _ _ _ _ _ _ H) as H7.
  destruct (ca_open _ (sn_calm _ (pl_sound _ _ _ _ _ P))) as [H8 H9]. clear H P. destruct d as [o cs lk m t ws rds st cl cd nid res]. cbn in *. subst.
  destruct m as [mg f stt sp bl rd fi fd ap]. cbn in *. subst. unfold can_lock, locked. cbn. unfold mem_step. cbn.
  repeat (case_bool_decide; try done). cbn. rewrite H4. eexists. by split_and!.
Qed.

(** The other steps. *)
Lemma close_committer d gc gc1 gc2 gc3 : closing d = CloseWaitFlusher -> fl (mem d) = Exited -> committers d = [gc] -> group_commit.stopClosed gc = false ->
  group_commit.step group_commit.EClose gc = Some gc1 -> group_commit.step group_commit.EStop gc1 = Some gc2 ->
  group_commit.step group_commit.EReturn gc2 = Some gc3 -> group_commit.phase_of gc3 = group_commit.Stopped -> writer_ok (gc_writer gc3) ->
  exists d' r, run [EvCloseFlusher; EvCommitter 0 group_commit.EStop; EvCommitter 0 group_commit.EReturn; EvCloseEnd] d = Ok d' /\
    results d' = results d ++ [(next_id d, RClose r)] /\ (r = Ok tt \/ r = Err (ErrLSM ErrFile)).
Proof.
  intros H1 H2 H3 Ho S1 S2 S3 Hph Hw. destruct d as [o cs lk m t ws rds st cl cd nid res]. cbn -[group_commit.step] in *. subst.
  rewrite H2. unfold stop_committer. cbn -[group_commit.step]. rewrite Ho. unfold commit_step. cbn -[group_commit.step]. rewrite S1.
  rewrite bool_decide_eq_true_2 by done. cbn -[group_commit.step]. rewrite S2. cbn -[group_commit.step]. rewrite S3. cbn. unfold committer_stopped. cbn. rewrite Hph.
  rewrite bool_decide_eq_true_2 by done. cbn.
  exists (finish_close (mkDB o [gc3] lk m t ws rds st CloseWaitStop true nid res)). unfold finish_close, close_wal, close_writer. cbn. rewrite (Close_ok _ Hw). cbn.
  destruct (lsm.Close t) as [t' []]; eexists; (split; [reflexivity|]); cbn; auto.
Qed.

(** There is a schedule in which [Close] returns. *)
Lemma close_returns bs d gc ps : settled bs d gc ->
  exists d' r, node_Close Sum128 CompressBlock UncompressBlock coin (mkNode d (([], close_plan) :: ps) Running) = (mkNode d' ps Running, r) /\
    (r = Ok tt \/ r = Err (ErrLSM ErrFile)).
Proof.
  intros H. pose proof (se_plain _ _ _ _ _ _ H) as P. destruct (pl_log _ _ _ _ _ P) as (_ & _ & Hj). destruct (idle_queues _ _ _ d gc P (se_idle _ _ _ _ _ _ H)) as [Hb Hp].
  destruct (close_flusher bs d gc H) as (d1 & E1 & Hcl & Hfl & Hcs & Hn & Hres).
  destruct (committer_ends gc Hj Hb Hp) as (gc1 & gc2 & gc3 & S1 & S2 & S3 & Hph & Hw).
  destruct (close_committer d1 gc gc1 gc2 gc3 Hcl Hfl Hcs (jn_open _ _ Hj) S1 S2 S3 Hph) as (d2 & r & E2 & Hr & Hok); [rewrite Hw; apply Hj|].
  exists d2, r. split; [|done]. unfold node_Close, serve. cbn [node_status plans node_db].
  assert (play (List.filter background [] ++ EvClose :: List.filter background close_plan) d = (d2, false)) as ->.
  { transitivity (play ([EvClose; EvCloseLock; EvLast] ++ [EvCloseFlusher; EvCommitter 0 group_commit.EStop; EvCommitter 0 group_commit.EReturn; EvCloseEnd] ++ []) d);
      [done|]. by rewrite (play_runs _ _ d d1 E1), (play_runs _ _ d1 d2 E2). }
  rewrite (reply_last d d2 (next_id d) (RClose r)); [done|apply (pl_sound _ _ _ _ _ P)|done|]. by rewrite Hr, Hn, Hres.
Qed.
End close.
