(* ===== verification/NodeLives.v ===== *)
(** * A storage node over its whole life

    A storage node is started, serves the calls of the client API, and is stopped by [Close]
    or by a crash, any number of times, on one directory.  The directory keeps what was
    acknowledged: all the answers together are those of one map.  The exception is a crash
    that leaves a part of a record's header at the end of the log: recovery does not see it,
    the next records are written behind it, and the recovery after that drops them. *)

From S2P Require Import Prelude Order Keys Files WalBatch WalLog WalRecovery GroupCommit SkipList MemTable Manager.
From S2P Require Import Hlc Txn Bloom Cache SSTable SSTableSpec Manifest Heap MergeIter Compaction CompactionSpec Limits Levels.
From S2P Require Import Lsm LsmSpec LsmRefine Db DbSpec DbReads Transport Node NodeLive NodeCrash NodeClose.
Import wal_log hlc txn wal_batch manager db transport.

#[local] Open Scope Z_scope.

(** The batches that the log of a directory gives back. *)
Definition logged (dir : Directory) : list Batch := replay (dir_log dir).

Definition contents_of (bs : list Batch) : gmap bytes (option bytes) := entries_map (concat (map Entries bs)) ∅.

Lemma based_logged base dir : based base dir -> logged dir = base.
Proof.
  intros (log & log' & res & -> & E & _ & <- & _). unfold logged, dir_log. cbn. destruct log as [data|]; [|cbn in E; injection E as _ <-; vm_compute; reflexivity].
  cbn. destruct (Recover_cases data) as [E'|(data' & E' & _)]; rewrite E in E'; by injection E' as _ ->.
Qed.

Section lives.
Context (Sum128 : bytes -> Z * Z).
Context (CompressBlock : bytes -> option bytes) (UncompressBlock : bytes -> Z -> option bytes).
Context `{!Lz4 CompressBlock UncompressBlock}.
Context (coin : nat -> bool).

Abbreviation after_step := (after_step Sum128 CompressBlock UncompressBlock coin).

#[local] Instance lives_storage : Storage node := node_storage Sum128 CompressBlock UncompressBlock coin.

(** The calls that a node serves after it was started on a directory, whose log has no part
    of a header at its end. *)
Definition session (o : Options) (dir : Directory) (ops : list api_op) (answers : list api_answer) (c1 : ClientAPI node) : Prop :=
  tidy_dir dir /\ exists d ps, Open coin o dir [] = Ok (Some d) /\ Forall op_times_ok ops /\ 2 * len ops < 2 ^ 16 /\
    api_run proto_wire ops (mkApi (mkNode d ps Running) (NewTxnManager NewClock)) = (c1, answers) /\ can_flush (node_db (storage c1)).

(** The lives of a storage node on a directory: each one ends in a crash, maybe in the middle
    of a step of the database, that may cut what is not durable of the log, or in [Close],
    with any steps of the goroutines.  The log is at most one block long and what was to be
    written fits in a memtable. *)
Inductive lifetimes (o : Options) : Directory -> list api_op -> list api_answer -> Directory -> Prop :=
  | LifeNil dir : lifetimes o dir [] [] dir
  | LifeCrash dir ops answers c1 x cut ops' answers' dir' : session o dir ops answers c1 -> background_step x ->
      modest (logged dir) (after_step x (node_db (storage c1))) -> durable_len (node_db (storage c1)) <= Z.of_nat cut ->
      lifetimes o (torn cut (after_step x (node_db (storage c1)))) ops' answers' dir' -> lifetimes o dir (ops ++ ops') (answers ++ answers') dir'
  | LifeClose dir ops answers c1 n' r ops' answers' dir' : session o dir ops answers c1 -> node_status (storage c1) = Running ->
      modest (logged dir) (node_db (storage c1)) -> node_Close Sum128 CompressBlock UncompressBlock coin (storage c1) = (n', r) ->
      lifetimes o (crash (node_db n')) ops' answers' dir' -> lifetimes o dir (ops ++ ops') (answers ++ answers') dir'.

(** What every life leaves: a directory without tables that opens with what is in its log. *)
Record left_dir (o : Options) (dir : Directory) : Prop := {
  lf_open : exists fs d, dir = mkDir fs ∅ [] /\ Open coin o dir [] = Ok (Some d) /\ applied (mem d) = concat (map Entries (logged dir));
  lf_based : tidy_dir dir -> based (logged dir) dir;
}.

Lemma open_applied o data d : Open coin o (mkDir (mkFS (Some data) None []) ∅ []) [] = Ok (Some d) ->
  applied (mem d) = concat (map Entries (replay data)).
Proof.
  unfold Open. cbn [wal_files os_call wr_faults fs_log fs_tmp sst_files manifest_file].
  destruct (Recover_cases data) as [->|(data' & -> & _)]; cbn [os_call wr_faults fs_log wal_recovery.Batches clean_result repaired_result];
    (destruct (lsm.NewLSMTree _ _ _) as [l| | |]; try done; intros (r & E & H)%bind_ok;
     destruct (replay_batches _ _ _) as [[m|]| | |]; try done; injection E as <-; [|done]; by injection H as <-).
Qed.

Lemma left_fresh o : opts_ok (lsm_options o) -> left_dir o (mkDir (mkFS None None []) ∅ []).
Proof.
  intros Ho. split; [|intros _; exact based_fresh]. destruct (NewLSMTree_ok Sum128 CompressBlock _ Ho) as (l & El & _).
  eexists _, _. split; [done|]. unfold Open.
  cbn [wal_files os_call wr_faults fs_log fs_tmp sst_files manifest_file wal_recovery.Recover wal_recovery.Batches]. rewrite El. by split.
Qed.

Lemma life_crash o dir ops answers c1 x cut : opts_ok (lsm_options o) -> left_dir o dir -> session o dir ops answers c1 -> background_step x ->
  modest (logged dir) (after_step x (node_db (storage c1))) -> durable_len (node_db (storage c1)) <= Z.of_nat cut ->
  left_dir o (torn cut (after_step x (node_db (storage c1)))) /\
  spec_run proto_wire (contents_of (logged dir)) ops answers (contents_of (logged (torn cut (after_step x (node_db (storage c1)))))).
Proof.
  intros Ho L (Ht & d & ps & E & Htimes & Hlen & Hrun & Hfits) Hx M Hcut.
  destruct (crash_once (logged dir) Sum128 CompressBlock UncompressBlock coin o dir d ps ops c1 answers x cut Ho (lf_based _ _ L Ht) E Htimes Hlen Hrun Hfits Hx M Hcut)
    as (d' & l & E' & Hs & Hdir & Hle & Hn).
  rewrite Hdir in *. pose proof (open_applied _ _ _ E') as Ha. rewrite Ha in Hs. split; [|exact Hs]. split; [by eexists _, d'|]. by apply based_torn.
Qed.

Lemma life_close o dir ops answers c1 n' r : opts_ok (lsm_options o) -> left_dir o dir -> session o dir ops answers c1 -> node_status (storage c1) = Running ->
  modest (logged dir) (node_db (storage c1)) -> node_Close Sum128 CompressBlock UncompressBlock coin (storage c1) = (n', r) ->
  left_dir o (crash (node_db n')) /\ spec_run proto_wire (contents_of (logged dir)) ops answers (contents_of (logged (crash (node_db n')))).
Proof.
  intros Ho L (Ht & d & ps & E & Htimes & Hlen & Hrun & Hfits) Hst M En.
  destruct (crash_session (logged dir) Sum128 CompressBlock UncompressBlock coin o dir d ps ops c1 answers Ho (lf_based _ _ L Ht) E Htimes Hlen Hrun Hfits)
    as [(_ & [_ Hopt] & Hk) Hspec].
  destruct (storage c1) as [d1 ps1 st] eqn:Ec. cbn [node_db node_status] in *. subst st. destruct (Hk M) as (bs & gc & H).
  destruct (close_reopens (logged dir) Sum128 CompressBlock UncompressBlock coin o bs d1 gc ps1 n' r Ho Hopt H M En) as (d' & data & Hdir & E' & Hd & Hb).
  pose proof (based_logged _ _ Hb) as Hl. rewrite Hdir in E'. pose proof (open_applied _ _ _ E') as Ha. split.
  - split; [|by rewrite Hl]. exists (mkFS (Some data) None []), d'. by rewrite Hdir.
  - specialize (Hspec None I M). cbn in Hspec. rewrite <- Hd, Ha in Hspec. by rewrite Hdir.
Qed.

Lemma lifetimes_spec o dir ops answers dir' : opts_ok (lsm_options o) -> lifetimes o dir ops answers dir' -> left_dir o dir ->
  left_dir o dir' /\ spec_run proto_wire (contents_of (logged dir)) ops answers (contents_of (logged dir')).
Proof.
  intros Ho. induction 1 as [dir|dir ops answers c1 x cut ops' answers' dir' Hs Hx M Hcut _ IH|dir ops answers c1 n' r ops' answers' dir' Hs Hst M En _ IH]; intros L.
  - split; [done|constructor].
  - destruct (life_crash o dir ops answers c1 x cut Ho L Hs Hx M Hcut) as [L1 S1]. destruct (IH L1) as [L2 S2]. split; [done|by eapply spec_run_app].
  - destruct (life_close o dir ops answers c1 n' r Ho L Hs Hst M En) as [L1 S1]. destruct (IH L1) as [L2 S2]. split; [done|by eapply spec_run_app].
Qed.

(** C1: a storage node can be stopped and started, and can crash, any number of times.
    On a new directory of a working disk it serves calls of the client API made one after
    the other, and each of its lives ends in [Close] or in a crash, maybe in the middle of a
    step of the database, that may cut what is not durable of the log anywhere.  While the
    log is at most one block long, what was to be written fits in a memtable and no life
    begins with a part of a record's header at the end of the log, the directory opens again,
    and the answers of all the lives and of the calls that follow are those of one map. *)
Theorem client_api_lifetimes (o : Options) (ops : list api_op) (answers : list api_answer) (dir : Directory)
    (Hopts : opts_ok (lsm_options o)) (Hlives : lifetimes o (mkDir (mkFS None None []) ∅ []) ops answers dir) :
  exists d, Open coin o dir [] = Ok (Some d) /\
    forall ps' ops' c' answers', Forall op_times_ok ops' -> 2 * len ops' < 2 ^ 16 ->
      api_run proto_wire ops' (mkApi (mkNode d ps' Running) (NewTxnManager NewClock)) = (c', answers') -> can_flush (node_db (storage c')) ->
      spec_run proto_wire ∅ (ops ++ ops') (answers ++ answers') (entries_map (applied (mem (node_db (storage c')))) ∅).
Proof.
  destruct (lifetimes_spec o _ ops answers dir Hopts Hlives (left_fresh o Hopts)) as [[(fs & d & -> & E & Ha) _] Hs].
  exists d. split; [done|]. intros ps' ops' c' answers'. apply (next_session Sum128 CompressBlock UncompressBlock coin o fs d); [done|done|]. rewrite Ha. exact Hs.
Qed.
End lives.

(** ** A crash, and then a node that is stopped *)

#[local] Instance toy_lives : Storage node := node_storage toy_hash toy_compress toy_uncompress flat.

Definition live (ps : list plan) (ops : list api_op) (dir : Directory) : option (ClientAPI node * list api_answer) :=
  match Open flat roomy_options dir [] with
  | Ok (Some d) => Some (api_run proto_wire ops (mkApi (mkNode d ps Running) (NewTxnManager NewClock)))
  | _ => None
  end.

Definition tidy_check (data : bytes) : bool :=
  let whole := len (full_bytes (map enc_batch (replay data))) in (len data =? whole) || (whole + 7 <=? len data).

Lemma tidy_check_ok data : tidy_check data = true -> tidy data.
Proof. unfold tidy_check. rewrite orb_true_iff, Z.eqb_eq, Z.leb_le. done. Qed.

Lemma live_session ps ops dir c1 answers : live ps ops dir = Some (c1, answers) -> tidy_check (dir_log dir) = true -> Forall op_times_ok ops -> 2 * len ops < 2 ^ 16 ->
  SSTableBlockSize (options (node_db (storage c1))) = SSTableBlockSize small -> applied (mem (node_db (storage c1))) = one_write ->
  session toy_hash toy_compress toy_uncompress flat roomy_options dir ops answers c1.
Proof.
  intros E Ht Htimes Hlen Hs Ha. unfold live in E. destruct (Open flat roomy_options dir []) as [[d|]| | |] eqn:Eo; try discriminate E.
  split; [by apply tidy_check_ok|]. exists d, ps. split; [exact Eo|]. split; [exact Htimes|]. split; [exact Hlen|].
  split; [injection E as E; exact E|]. by apply one_write_flushes.
Qed.

(** A part of the record of the second write was on the disk; the next life reads, and closes. *)
Definition later_plans : list plan := [([], read_plan 0); ([], close_plan)].
Definition later_ops : list api_op := [OGet 9 Delivered key_a].
Definition later_answers : list api_answer := [AGet (Ok (Some (str "1"), true))].

Definition torn_dir (c1 : ClientAPI node) : Directory := torn 30 (toy_after (node_db (storage c1))).

Definition two_lives {A} (x : A) (f : ClientAPI node * list api_answer -> ClientAPI node * list api_answer -> A) : A :=
  match live crash_plans crash_ops fresh_dir with
  | Some r1 => match live later_plans later_ops (torn_dir r1.1) with Some r2 => f r1 r2 | None => x end
  | None => x
  end.

Lemma client_api_lifetimes_witness : exists dir d, Open flat roomy_options dir [] = Ok (Some d) /\
  forall ps' ops' c' answers', Forall op_times_ok ops' -> 2 * len ops' < 2 ^ 16 ->
    api_run proto_wire ops' (mkApi (mkNode d ps' Running) (NewTxnManager NewClock)) = (c', answers') -> can_flush (node_db (storage c')) ->
    spec_run proto_wire ∅ ((crash_ops ++ later_ops ++ []) ++ ops') ((crash_answers ++ later_answers ++ []) ++ answers')
      (entries_map (applied (mem (node_db (storage c')))) ∅).
Proof.
  assert (two_lives [] (fun x _ => x.2) = crash_answers) as A1 by (vm_compute; reflexivity).
  assert (two_lives [] (fun _ y => y.2) = later_answers) as A2 by (vm_compute; reflexivity).
  assert (two_lives ([], []) (fun x y => (applied (mem (node_db (storage x.1))), applied (mem (node_db (storage y.1))))) = (one_write, one_write)) as A3 by (vm_compute; reflexivity).
  assert (two_lives (0, 0) (fun x y => (SSTableBlockSize (options (node_db (storage x.1))), SSTableBlockSize (options (node_db (storage y.1))))) =
    (SSTableBlockSize small, SSTableBlockSize small)) as A4 by (vm_compute; reflexivity).
  assert (two_lives false (fun x y => modest_check (logged fresh_dir) (toy_after (node_db (storage x.1)))) = true) as A5 by (vm_compute; reflexivity).
  assert (two_lives false (fun x y => modest_check (logged (torn_dir x.1)) (node_db (storage y.1))) = true) as A6 by (vm_compute; reflexivity).
  assert (two_lives 0 (fun x _ => durable_len (node_db (storage x.1))) = 22) as A7 by (vm_compute; reflexivity).
  assert (two_lives Crashed (fun _ y => node_status (storage y.1)) = Running) as A8 by (vm_compute; reflexivity).
  assert (two_lives false (fun x _ => tidy_check (dir_log (torn_dir x.1))) = true) as A9 by (vm_compute; reflexivity).
  unfold two_lives in *. destruct (live crash_plans crash_ops fresh_dir) as [[c1 a1]|] eqn:E1; [|discriminate A1].
  destruct (live later_plans later_ops (torn_dir (c1, a1).1)) as [[c2 a2]|] eqn:E2; [|discriminate A1]. cbn [fst snd] in *. subst a1 a2.
  injection A3 as B1 B2. injection A4 as B3 B4.
  destruct (node_Close toy_hash toy_compress toy_uncompress flat (storage c2)) as [n' r] eqn:En. exists (crash (node_db n')).
  apply (client_api_lifetimes toy_hash toy_compress toy_uncompress flat roomy_options (crash_ops ++ later_ops ++ []) (crash_answers ++ later_answers ++ [])); [split; vm_compute; reflexivity|].
  eapply LifeCrash; [eapply (live_session crash_plans); [exact E1|by vm_compute|repeat constructor; cbn; lia|by vm_compute|exact B3|exact B1]
    |exact (eq_refl : background_step crash_point)|exact (modest_check_ok _ _ A5)|rewrite A7; instantiate (1 := 30%nat); lia|].
  eapply LifeClose; [eapply (live_session later_plans); [exact E2|exact A9|repeat constructor; cbn; lia|by vm_compute|exact B4|exact B2]
    |exact A8|exact (modest_check_ok _ _ A6)|exact En|constructor].
Defined.

(** ** A header that was cut *)

(** A write that returns, and one whose record is about to be written. *)
Definition header_events : list event :=
  EvWrite (put_of key_a (str "1")) :: write_plan 0 ++ [EvWrite (put_of key_b (str "2")); EvSend 1; EvCommitter 0 group_commit.ERecv].

(** Three of the seven bytes of the header of that record reached the disk. *)
Definition header_dir (d : DB) : Directory := torn 25 (toy_after d).

Definition next_events : list event := EvWrite (put_of key_b (str "3")) :: write_plan 0.

