(* ===== verification/Cmd.v ===== *)
(** * The commands (cmd/storage, cmd/compute, cmd/client)

    The storage node opens a database with the default options and serves it; the compute
    node serves the client API on a storage; the client makes one call and prints what it
    got.  Flags are arguments, and whether a dial or a listen fails.  What a command prints
    to the standard output is a list of lines. *)

From S2P Require Import Prelude Order Keys Files WalBatch WalLog WalRecovery GroupCommit SkipList MemTable Manager.
From S2P Require Import Hlc Txn Bloom Cache SSTable SSTableSpec Manifest Heap MergeIter Compaction CompactionSpec Limits Levels.
From S2P Require Import Lsm LsmSpec LsmRefine Db DbSpec DbReads Transport Node NodeLive NodeCrash NodeClose.
Import hlc txn wal_batch manager db transport.

#[local] Open Scope Z_scope.

Module cmd.

(** A server process: ended by [log.Fatalf], not returning from its start, or serving. *)
Inductive process (S : Type) := Fatal | Stuck | Serving (s : S).
Arguments Fatal {S}.
Arguments Stuck {S}.
Arguments Serving {S} s.

(** ** cmd/storage *)

(** Up to the wait for a signal. *)
Definition storage_main (coin : nat -> bool) (dir : Directory) (rd_faults : list (option nat)) (listen_fails : bool) (ps : list plan) : process node :=
  match Open coin DefaultOptions dir rd_faults with
  | Ok (Some d) =>
      match StartGRPCServer listen_fails (mkNode d ps Running) with
      | Ok n => Serving n
      | _ => Fatal
      end
  | Ok None => Stuck
  | _ => Fatal
  end.

(** A process that was told to stop: killed by a panic, waiting for ever, or ended with what
    it left on the disk. *)
Inductive ended := Killed | Hangs | Left (dir : Directory).

(** From the signal on: [GracefulStop] waits for the calls in progress, then the deferred
    [Close] of the database, whose error is ignored. *)
Definition storage_stop (Sum128 : bytes -> Z * Z) (CompressBlock : bytes -> option bytes) (UncompressBlock : bytes -> Z -> option bytes) (coin : nat -> bool)
    (n : node) : ended :=
  match node_status n with
  | Running =>
      match node_Close Sum128 CompressBlock UncompressBlock coin n with
      | (n, Ok _) | (n, Err _) => Left (crash (node_db n))
      | (_, Panic) => Killed
      | (_, Fuel) => Hangs
      end
  | Waiting => Hangs
  | Crashed => Killed
  end.

(** ** cmd/compute *)

Definition compute_main {S} (bad_addr listen_fails : bool) (s : S) : process (ClientAPI S) :=
  match NewStorageClient bad_addr s with
  | Ok s =>
      match StartClientAPI listen_fails s (NewTxnManager NewClock) with
      | Ok c => Serving c
      | _ => Fatal
      end
  | _ => Fatal
  end.

(** From the signal on: [GracefulStop] waits for the calls in progress, of which there are
    none between two of [api_run]; the listener is closed, and the deferred [Close] of the
    storage client, whose error is ignored, closes the connection.  The storage node stays
    as it is. *)
Definition compute_stop {S Conn} (conn_Close : Conn -> Conn * option code) (client : StorageClient Conn) (c : ClientAPI S) : StorageClient Conn * S :=
  ((client_Close conn_Close client).1, storage c).

(** Compute nodes that serve a storage node one after the other. *)
Fixpoint compute_sessions {S Conn} `{!Storage S} (wire : option bytes -> option bytes) (conn_Close : Conn -> Conn * option code) (client : StorageClient Conn)
    (sessions : list (list api_op)) (s : S) : S * list api_answer :=
  match sessions with
  | [] => (s, [])
  | ops :: sessions =>
      match compute_main false false s with
      | Serving c =>
          let '(c, answers) := api_run wire ops c in
          let '(_, s) := compute_stop conn_Close client c in
          let '(s, rest) := compute_sessions wire conn_Close client sessions s in
          (s, answers ++ rest)
      | _ => (s, [])
      end
  end.

(** ** cmd/client *)

Record output := mkOut { stdout : list bytes; exit_code : Z }.

Definition fatal : output := mkOut [] 1.
Definition usage : bytes := str "Usage: client -op <put|get|delete> -key <key> [-val <value>]".

Section client.
Context {S : Type} `{!Storage S} (wire : option bytes -> option bytes).

(** The call of the client, with a deadline: a call that does not return in time fails. *)
Definition client_call {A} (dl : delivery) (handler : ClientAPI S -> ClientAPI S * outcome code A) (print : A -> list bytes) (c : ClientAPI S)
    : ClientAPI S * output :=
  match call dl handler c with
  | (c, Ok a) => (c, mkOut (print a) 0)
  | (c, _) => (c, fatal)
  end.

Definition print_get (res : option bytes * bool) : list bytes :=
  if res.2 then [str "Get successful: " ++ default [] (wire res.1)] else [str "Key not found"].

(** [now1] and [now2] are the readings of the clock of the compute node, [dl] and [dl'] the
    fates of the messages to it and from it to the storage. *)
Definition client_main (dial_fails : bool) (now1 now2 : Z) (dl dl' : delivery) (op key val : bytes) (c : ClientAPI S) : ClientAPI S * output :=
  if bool_decide (op = []) || bool_decide (key = []) then (c, mkOut [usage] 1)
  else if dial_fails then (c, fatal)
  else if bool_decide (op = str "put") then
    client_call dl (transport.Put wire now1 now2 dl' key (wire (Some val))) (fun _ => [str "Put successful"]) c
  else if bool_decide (op = str "get") then
    client_call dl (transport.Get wire now1 dl' key) print_get c
  else if bool_decide (op = str "delete") then
    client_call dl (transport.Delete wire now1 now2 dl' key) (fun _ => [str "Delete successful"]) c
  else (c, fatal).

End client.
End cmd.
Import cmd.

(** ** What the client prints *)

Section refinement.
Context {S : Type} `{!Storage S} (inv fits : S -> Prop) (contents : S -> gmap bytes (option bytes)) `{!StorageLaws S any_entry inv fits contents}.
Context (wire : option bytes -> option bytes).

(** A call that exits with 0 was answered. *)
Lemma client_call_ok {A} dl (handler : ClientAPI S -> ClientAPI S * outcome code A) print c c' out :
  client_call dl handler print c = (c', out) -> exit_code out = 0 -> exists a, handler c = (c', Ok a) /\ out = mkOut (print a) 0.
Proof.
  unfold client_call, call. intros E Hx. destruct dl.
  - destruct (handler c) as [c1 [a| | |]]; injection E as <- <-; try done. by exists a.
  - by injection E as <- <-.
  - by destruct (handler c) as [c1 [a| | |]]; injection E as <- <-.
Qed.

Lemma put_main df now1 now2 dl dl' key val c c' out :
  client_main wire df now1 now2 dl dl' (str "put") key val c = (c', out) -> exit_code out = 0 ->
  api_step wire (OPut now1 now2 dl' key (wire (Some val))) c = (c', AWrite (Ok tt)) /\ stdout out = [str "Put successful"].
Proof.
  unfold client_main. intros E Hx. destruct (bool_decide (str "put" = []) || bool_decide (key = [])); [by injection E as _ <-|].
  destruct df; [by injection E as _ <-|]. rewrite bool_decide_true in E by done.
  destruct (client_call_ok _ _ _ _ _ _ E Hx) as ([] & Eh & ->). cbn [api_step]. by rewrite Eh.
Qed.

Lemma get_main df now1 now2 dl dl' key val c c' out :
  client_main wire df now1 now2 dl dl' (str "get") key val c = (c', out) -> exit_code out = 0 ->
  exists res, api_step wire (OGet now1 dl' key) c = (c', AGet (Ok res)) /\ stdout out = print_get wire res.
Proof.
  unfold client_main. intros E Hx. destruct (bool_decide (str "get" = []) || bool_decide (key = [])); [by injection E as _ <-|].
  destruct df; [by injection E as _ <-|]. rewrite bool_decide_false in E by done. rewrite bool_decide_true in E by done.
  destruct (client_call_ok _ _ _ _ _ _ E Hx) as (res & Eh & ->). exists res. cbn [api_step]. by rewrite Eh.
Qed.

(** A put that exited with 0 and a get of its key after it. *)
Lemma put_then_get df1 df2 t1 t2 t3 dl1 dl2 dl3 dl4 key val ignored c c1 c2 out1 out2 n :
  tm_ok n (txnMgr c) -> n + 4 < 2 ^ 16 -> inv (storage c) -> time_ok t1 -> time_ok t2 -> time_ok t3 ->
  client_main wire df1 t1 t2 dl1 dl2 (str "put") key val c = (c1, out1) -> exit_code out1 = 0 ->
  client_main wire df2 t3 t3 dl3 dl4 (str "get") key ignored c1 = (c2, out2) -> exit_code out2 = 0 -> fits (storage c2) ->
  stdout out2 = match wire (wire (Some val)) with
                | Some v => [str "Get successful: " ++ default [] (wire (wire (Some v)))]
                | None => [str "Key not found"]
                end.
Proof.
  intros Ht Hn Hi T1 T2 T3 E1 X1 E2 X2 Hf. destruct (put_main _ _ _ _ _ _ _ _ _ _ E1 X1) as [S1 _].
  destruct (get_main _ _ _ _ _ _ _ _ _ _ E2 X2) as (res & S2 & ->).
  destruct (api_step_spec any_entry inv fits contents wire (fun _ _ => conj I I) n (OPut t1 t2 dl2 key (wire (Some val))) _ _ _ Ht Hi (conj T1 T2) ltac:(lia) S1) as (Ht1 & Hi1 & Hs1).
  destruct (api_step_spec any_entry inv fits contents wire (fun _ _ => conj I I) (n + 2) (OGet t3 dl4 key) _ _ _ Ht1 Hi1 T3 ltac:(lia) S2) as (_ & _ & Hs2).
  destruct (Hs2 Hf) as [Hf1 G2]. destruct (Hs1 Hf1) as [_ G1].
  apply spec_put_ok in G1. apply spec_get_ok in G2. rewrite G2, G1, lookup_insert_eq. unfold read_back, print_get. by destruct (wire (wire (Some val))).
Qed.
End refinement.

(** ** The three processes *)

Lemma default_opts_ok : opts_ok (lsm_options DefaultOptions).
Proof. split; vm_compute; done. Qed.

Section system.
Context (Sum128 : bytes -> Z * Z).
Context (CompressBlock : bytes -> option bytes) (UncompressBlock : bytes -> Z -> option bytes).
Context `{!Lz4 CompressBlock UncompressBlock}.
Context (coin : nat -> bool).

#[local] Instance system_storage : Storage node := node_storage Sum128 CompressBlock UncompressBlock coin.
(** A storage node can be stopped and started again.  A storage node with an empty
    directory serves the calls of a compute node, gets the signal to stop, and [Close]
    returns, whatever steps the goroutines of the database make.  While the log is at most
    one block long and what was written fits in a memtable, the node starts again on the
    directory it left, and the calls before and after answer as one map. *)
Theorem system_restart (ps : list plan) (n : node) (c c1 : ClientAPI node) (ops : list api_op) (answers : list api_answer) (dir : Directory)
    (Hstorage : storage_main coin (mkDir (mkFS None None []) ∅ []) [] false ps = Serving n) (Hcompute : compute_main false false n = Serving c)
    (Htimes : Forall op_times_ok ops) (Hlen : 2 * len ops < 2 ^ 16) (Hrun : api_run proto_wire ops c = (c1, answers))
    (Hfits : can_flush (node_db (storage c1))) (Hmodest : modest [] (node_db (storage c1)))
    (Hstop : storage_stop Sum128 CompressBlock UncompressBlock coin (storage c1) = Left dir) :
  exists d', (forall ps', storage_main coin dir [] false ps' = Serving (mkNode d' ps' Running)) /\
    forall ps' ops' c' answers', Forall op_times_ok ops' -> 2 * len ops' < 2 ^ 16 ->
      api_run proto_wire ops' (mkApi (mkNode d' ps' Running) (NewTxnManager NewClock)) = (c', answers') -> can_flush (node_db (storage c')) ->
      spec_run proto_wire ∅ (ops ++ ops') (answers ++ answers') (entries_map (applied (mem (node_db (storage c')))) ∅).
Proof.
  injection Hcompute as <-. unfold storage_main in Hstorage. destruct (Open coin DefaultOptions _ []) as [[d|]| | |] eqn:E; try discriminate.
  cbn [StartGRPCServer] in Hstorage. injection Hstorage as <-.
  destruct (crash_session [] Sum128 CompressBlock UncompressBlock coin _ _ d ps ops c1 answers default_opts_ok based_fresh E Htimes Hlen Hrun Hfits) as [(_ & [_ Ho] & Hk) Hspec].
  unfold storage_stop in Hstop. destruct (storage c1) as [d1 ps1 st] eqn:Ec. cbn [node_db node_status] in *. destruct st; try discriminate Hstop.
  destruct (Hk Hmodest) as (bs & gc & H). destruct (node_Close _ _ _ _ _) as [n' r] eqn:En.
  destruct (close_reopens [] Sum128 CompressBlock UncompressBlock coin _ bs d1 gc ps1 n' r default_opts_ok Ho H Hmodest En) as (d' & data & Hdir & E' & Hd & _).
  assert (crash (node_db n') = dir) as <- by (destruct r; try discriminate Hstop; by injection Hstop).
  exists d'. split; [intros ps'; unfold storage_main; by rewrite E'|]. rewrite Hdir in E'. intros ps' ops' c' answers'.
  apply (next_session Sum128 CompressBlock UncompressBlock coin DefaultOptions (mkFS (Some data) None []) d'); [apply default_opts_ok|exact E'|].
  rewrite Hd. exact (Hspec None I Hmodest).
Qed.


#[local] Instance system_laws : StorageLaws node any_entry (node_inv Sum128 CompressBlock) node_fits node_contents :=
  node_laws Sum128 CompressBlock UncompressBlock coin.

Lemma sessions_spec {Conn} (conn_Close : Conn -> Conn * option code) client sessions : forall n n' answers,
  Forall (fun ops => Forall op_times_ok ops /\ 2 * len ops < 2 ^ 16) sessions -> node_inv Sum128 CompressBlock n ->
  compute_sessions proto_wire conn_Close client sessions n = (n', answers) -> node_fits n' ->
  node_fits n /\ spec_run proto_wire (node_contents n) (concat sessions) answers (node_contents n').
Proof.
  induction sessions as [|ops sessions IH]; intros n n' answers Hs Hi E Hf; cbn [compute_sessions] in E; [injection E as <- <-; split; [done|constructor]|].
  apply Forall_cons in Hs as [[Ht Hl] Hs]. cbn [compute_main NewStorageClient StartClientAPI] in E. destruct (api_run _ _ _) as [c a] eqn:E1.
  cbn [compute_stop] in E. destruct (compute_sessions _ _ _ _ _) as [n2 rest] eqn:E2. injection E as <- <-.
  pose proof (api_run_inv _ _ _ _ proto_wire (fun _ _ => conj I I) ops 0 (NewClientAPI n (NewTxnManager NewClock)) c a new_tm_ok Hi Ht ltac:(lia) E1) as Hi1.
  destruct (IH _ _ _ Hs Hi1 E2 Hf) as [Hf1 Hs2].
  destruct (api_run_spec _ _ _ _ proto_wire (fun _ _ => conj I I) ops 0 (NewClientAPI n (NewTxnManager NewClock)) c a new_tm_ok Hi Ht ltac:(lia) E1 Hf1) as [Hf0 Hs1].
  split; [done|]. cbn [concat]. by eapply spec_run_app.
Qed.

(** A compute node keeps nothing that a client could miss: it can be stopped and another one
    started between calls, and the calls to all of them answer as one map. *)
Theorem compute_restarts {Conn} (conn_Close : Conn -> Conn * option code) (client : StorageClient Conn) (fs : FS) (rf : list (option nat)) (ps : list plan)
    (n n' : node) (sessions : list (list api_op)) (answers : list api_answer)
    (Hstorage : storage_main coin (mkDir fs ∅ []) rf false ps = Serving n)
    (Hsessions : Forall (fun ops => Forall op_times_ok ops /\ 2 * len ops < 2 ^ 16) sessions)
    (Hrun : compute_sessions proto_wire conn_Close client sessions n = (n', answers)) (Hfits : can_flush (node_db n')) :
  spec_run proto_wire (entries_map (applied (mem (node_db n))) ∅) (concat sessions) answers (entries_map (applied (mem (node_db n'))) ∅).
Proof.
  refine (proj2 (sessions_spec conn_Close client sessions n n' answers Hsessions _ Hrun Hfits)).
  unfold storage_main in Hstorage. destruct (Open coin DefaultOptions (mkDir fs ∅ []) rf) as [[d|]| | |] eqn:E; try discriminate.
  injection Hstorage as <-. intros _. exact (open_resting Sum128 CompressBlock coin _ _ _ _ default_opts_ok E).
Qed.

End system.

(** ** A witness *)

#[local] Instance toy_system : Storage node := node_storage toy_hash toy_compress toy_uncompress flat.

Definition system_plans : list plan :=
  [([], [EvSend 0; EvCommitter 0 group_commit.ERecv; EvCommitter 0 group_commit.ETimer; EvAnswer 0; EvReturn 0]); ([], [EvReadMem 1])].

Definition system_start : process node := storage_main flat (mkDir (mkFS None None []) ∅ []) [] false system_plans.

(** What the clients' runs give, by a look at the outputs and the final compute node. *)
Definition system_final {A} (x : A) (f : output -> output -> ClientAPI node -> A) : A :=
  match system_start with
  | Serving n =>
      let '(c1, out1) := client_main proto_wire false 5 6 Delivered Delivered (str "put") key_a (str "1") (mkApi n (NewTxnManager NewClock)) in
      let '(c2, out2) := client_main proto_wire false 7 7 Delivered Delivered (str "get") key_a [] c1 in
      f out1 out2 c2
  | _ => x
  end.


(** A put, and then the signal. *)
Definition restart_plans : list plan :=
  [([], write_plan 0);
   ([], close_plan)].
Definition restart_ops : list api_op := [OPut 5 6 Delivered key_a (Some (str "1"))].

Definition restart_final {A} (x : A) (f : ClientAPI node * list api_answer -> A) : A :=
  match storage_main flat (mkDir (mkFS None None []) ∅ []) [] false restart_plans with
  | Serving n => f (api_run proto_wire restart_ops (mkApi n (NewTxnManager NewClock)))
  | _ => x
  end.

Definition restart_stop (c : ClientAPI node) : ended := storage_stop toy_hash toy_compress toy_uncompress flat (storage c).

Lemma system_restart_witness : exists n c1 dir d', storage_main flat (mkDir (mkFS None None []) ∅ []) [] false restart_plans = Serving n /\
  api_run proto_wire restart_ops (mkApi n (NewTxnManager NewClock)) = (c1, [AWrite (Ok tt)]) /\ restart_stop c1 = Left dir /\
  forall ps', storage_main flat dir [] false ps' = Serving (mkNode d' ps' Running).
Proof.
  assert (restart_final [] (fun x => x.2) = [AWrite (Ok tt)]) as H1 by (vm_compute; reflexivity).
  assert (restart_final [] (fun x => applied (mem (node_db (storage x.1)))) = one_write) as H2 by (vm_compute; reflexivity).
  assert (restart_final 0 (fun x => SSTableBlockSize (options (node_db (storage x.1)))) = SSTableBlockSize small) as H3 by (vm_compute; reflexivity).
  assert (restart_final false (fun x => modest_check [] (node_db (storage x.1))) = true) as H4 by (vm_compute; reflexivity).
  assert (restart_final false (fun x => match restart_stop x.1 with Left _ => true | _ => false end) = true) as H5 by (vm_compute; reflexivity).
  unfold restart_final in *. destruct (storage_main _ _ _ _ _) as [| |n] eqn:Es; try discriminate H1.
  destruct (api_run proto_wire restart_ops (mkApi n (NewTxnManager NewClock))) as [c1 a] eqn:Er. cbn [fst snd] in *. subst a.
  destruct (restart_stop c1) as [| |dir] eqn:Ed; try discriminate H5.
  destruct (system_restart toy_hash toy_compress toy_uncompress flat restart_plans n _ c1 restart_ops _ dir Es eq_refl ltac:(repeat constructor; cbn; lia) ltac:(vm_compute; reflexivity) Er
    (one_write_flushes _ H3 H2) (modest_check_ok _ _ H4) Ed) as (d' & Hd & _).
  exists n, c1, dir, d'. split; [reflexivity|]. split; [exact Er|]. split; [exact Ed|exact Hd].
Defined.

