(* ===== verification/Ycsb.v ===== *)
(** * The workload generator (test/bench/ycsb.go)

    The generator takes value buffers from a [sync.Pool] and gives them back after
    [db.Put], but a memtable keeps the slice it was given.  So the model has a heap of
    buffers: the pool and the memtable refer to buffers by their number, and filling a
    buffer changes every value that is it.  The memtable is large enough for the workload.
    What the random sources, the pool and the database decide is a list of draws. *)

From S2P Require Import Prelude.

#[local] Open Scope Z_scope.

Module ycsb.

Record Workload := mkWorkload { ReadPercent : Z; UpdatePercent : Z; RMWPercent : Z }.

Definition WorkloadA : Workload := mkWorkload 50 50 0.
Definition WorkloadB : Workload := mkWorkload 95 5 0.
Definition WorkloadC : Workload := mkWorkload 100 0 0.
Definition WorkloadF : Workload := mkWorkload 50 0 50.

Record YCSB := mkYCSB {
  numKeys : Z;
  keySize : Z;
  valSize : Z;
  recordCount : Z;
  bufPool : list nat;
  bufs : list bytes;
  db : gmap bytes nat;
}.

Definition NewYCSB (numKeys keySize valSize : Z) : YCSB := mkYCSB numKeys keySize valSize 0 [] [] ∅.

Definition set_pool p (y : YCSB) : YCSB := mkYCSB (numKeys y) (keySize y) (valSize y) (recordCount y) p (bufs y) (db y).
Definition set_bufs b (y : YCSB) : YCSB := mkYCSB (numKeys y) (keySize y) (valSize y) (recordCount y) (bufPool y) b (db y).
Definition set_db d (y : YCSB) : YCSB := mkYCSB (numKeys y) (keySize y) (valSize y) (recordCount y) (bufPool y) (bufs y) d.
Definition set_count n (y : YCSB) : YCSB := mkYCSB (numKeys y) (keySize y) (valSize y) n (bufPool y) (bufs y) (db y).

(** What one operation draws: [rnd.Intn(100)], [zipf.Uint64()], the buffer the pool hands
    out ([None] for a new one), [rnd.Read], and whether the calls of the database fail. *)
Record draw := mkDraw { op_type : Z; key_idx : Z; pooled : option nat; random : bytes; get_fails : bool; put_fails : bool }.

Inductive bench_error := ErrDB.

(** ** Keys *)

Definition digit (n : Z) : byte := z2b (48 + n).

(** The decimal digits of a number below [10 ^ fuel], before [acc]. *)
Fixpoint decimal (fuel : nat) (n : Z) (acc : bytes) : bytes :=
  match fuel with
  | O => acc
  | S fuel => let acc := digit (n mod 10) :: acc in if n <? 10 then acc else decimal fuel (n / 10) acc
  end.

(** A number of at most 64 bits has at most 20 digits. *)
Definition itoa (n : Z) : bytes := decimal 20 n [].

(** [fmt.Sprintf("user%0*d", w, i)]: a negative width pads with spaces on the right, and one
    beyond a million is an error in the text. *)
Definition user_key (w i : Z) : bytes :=
  let ds := itoa i in
  let pad n c := replicate (Z.to_nat n - length ds) c in
  str "user" ++
    if 1000000 <? Z.abs w then str "%!(BADWIDTH)" ++ ds
    else if w <? 0 then ds ++ pad (- w) Byte.x20
    else pad w Byte.x30 ++ ds.

Definition key_of (y : YCSB) (i : Z) : bytes := user_key (keySize y - 4) i.

(** ** Buffers *)

(** [bufPool.Get]: any buffer of the pool, or a new one. *)
Definition pool_get (choice : option nat) (y : YCSB) : nat * YCSB :=
  match choice ≫= (fun i => bufPool y !! i) with
  | Some b => (b, set_pool (match choice with Some i => delete i (bufPool y) | None => bufPool y end) y)
  | None => (length (bufs y), set_bufs (bufs y ++ [replicate (Z.to_nat (valSize y)) Byte.x00]) y)
  end.

Definition pool_put (b : nat) (y : YCSB) : YCSB := set_pool (b :: bufPool y) y.

Definition buffer (y : YCSB) (b : nat) : bytes := default [] (bufs y !! b).

(** [copy(dst, src)]. *)
Definition go_copy (dst src : bytes) : bytes := take (length dst) src ++ drop (length src) dst.

(** [copy] to, and [rnd.Read] into, a buffer. *)
Definition fill (b : nat) (src : bytes) (y : YCSB) : YCSB := set_bufs (<[b := go_copy (buffer y b) src]> (bufs y)) y.

(** ** The database: the memtable keeps the buffer *)

Definition db_put (key : bytes) (b : nat) (y : YCSB) : YCSB := set_db (<[key := b]> (db y)) y.

(** What a later [Get] returns. *)
Definition value_of (y : YCSB) (key : bytes) : option bytes := buffer y <$> db y !! key.

(** ** The operations *)

(** [db.Put] of the buffer [b], which then goes back to the pool. *)
Definition put_buffer (key : bytes) (b : nat) (d : draw) (y : YCSB) : YCSB * outcome bench_error unit :=
  if put_fails d then (pool_put b y, Err ErrDB) else (pool_put b (db_put key b y), Ok tt).

Definition put_random (key : bytes) (d : draw) (y : YCSB) : YCSB * outcome bench_error unit :=
  let '(b, y) := pool_get (pooled d) y in
  put_buffer key b d (fill b (random d) y).

(** An error of [Load] returns before the buffer goes back. *)
Fixpoint load_loop (n i : nat) (ds : nat -> draw) (y : YCSB) : YCSB * outcome bench_error unit :=
  match n with
  | O => (set_count (numKeys y) y, Ok tt)
  | S n =>
      let key := key_of y (Z.of_nat i) in
      let '(b, y) := pool_get (pooled (ds i)) y in
      let y := fill b (random (ds i)) y in
      if put_fails (ds i) then (y, Err ErrDB)
      else load_loop n (S i) ds (pool_put b (db_put key b y))
  end.

Definition Load (ds : nat -> draw) (y : YCSB) : YCSB * outcome bench_error unit := load_loop (Z.to_nat (numKeys y)) 0 ds y.

(** [newVal[0] = ^newVal[0]]. *)
Definition flip_first (b : nat) (y : YCSB) : option YCSB :=
  match buffer y b with
  | [] => None
  | x :: rest => Some (set_bufs (<[b := z2b (255 - b2z x) :: rest]> (bufs y)) y)
  end.

(** The iteration of [Run]. *)
Definition run_op (w : Workload) (d : draw) (y : YCSB) : YCSB * outcome bench_error unit :=
  let key := key_of y (key_idx d) in
  if op_type d <? ReadPercent w then (y, if get_fails d then Err ErrDB else Ok tt)
  else if op_type d <? ReadPercent w + UpdatePercent w then put_random key d y
  else if (0 <? RMWPercent w) && (op_type d <? ReadPercent w + UpdatePercent w + RMWPercent w) then
    if get_fails d then (y, Err ErrDB)
    else
      let val := db y !! key in
      let '(b, y) := pool_get (pooled d) y in
      match val with
      | Some v =>
          match flip_first b (fill b (buffer y v) y) with
          | Some y => put_buffer key b d y
          | None => (y, Panic)
          end
      | None => put_buffer key b d (fill b (random d) y)
      end
  else
    let newKeyIdx := recordCount y in
    put_random (key_of y newKeyIdx) d (set_count (newKeyIdx + 1) y).

Fixpoint run_loop (n i : nat) (w : Workload) (ds : nat -> draw) (y : YCSB) : YCSB * outcome bench_error unit :=
  match n with
  | O => (y, Ok tt)
  | S n =>
      match run_op w (ds i) y with
      | (y, Ok _) => run_loop n (S i) w ds y
      | r => r
      end
  end.

Definition Run (w : Workload) (ops : nat) (ds : nat -> draw) (y : YCSB) : YCSB * outcome bench_error unit := run_loop ops 0 w ds y.

End ycsb.
Import ycsb.

(** ** Keys are distinct *)

Definition digit_value (b : byte) : option Z := let n := b2z b - 48 in if (0 <=? n) && (n <=? 9) then Some n else None.

(** The number at the front of a text. *)
Fixpoint read_number (acc : Z) (bs : bytes) : Z :=
  match bs with
  | [] => acc
  | b :: bs => match digit_value b with Some n => read_number (10 * acc + n) bs | None => acc end
  end.

Lemma digit_value_digit n : 0 <= n < 10 -> digit_value (digit n) = Some n.
Proof.
  intros Hn. unfold digit_value, digit. rewrite b2z_z2b, Z.mod_small by lia.
  replace (48 + n - 48) with n by lia. by rewrite (proj2 (Z.leb_le 0 n)), (proj2 (Z.leb_le n 9)) by lia.
Qed.

Lemma read_decimal fuel : forall n acc, 0 <= n < 10 ^ Z.of_nat fuel -> read_number 0 (decimal fuel n acc) = read_number n acc.
Proof.
  induction fuel as [|fuel IH]; intros n acc Hn; cbn [decimal]; [by replace n with 0 by lia|].
  pose proof (Z.mod_pos_bound n 10 ltac:(lia)) as Hm. pose proof (Z.div_mod n 10 ltac:(lia)) as Hd.
  destruct (Z.ltb_spec n 10) as [Hlt|Hge].
  - cbn [read_number]. rewrite digit_value_digit by lia. f_equal. rewrite Z.mod_small by lia. lia.
  - rewrite IH; [|split; [apply Z.div_pos; lia|]; apply Z.div_lt_upper_bound; [lia|]; rewrite Nat2Z.inj_succ, Z.pow_succ_r in Hn by lia; lia].
    cbn [read_number]. rewrite digit_value_digit by lia. f_equal. lia.
Qed.

Lemma read_itoa n bs : 0 <= n < 10 ^ 20 -> (forall b, head bs = Some b -> digit_value b = None) -> read_number 0 (itoa n ++ bs) = n.
Proof.
  intros Hn Hb. unfold itoa. assert (forall fuel n acc, decimal fuel n acc ++ bs = decimal fuel n (acc ++ bs)) as Happ.
  { intros fuel. induction fuel as [|fuel IH]; intros m acc; cbn [decimal]; [done|]. destruct (m <? 10); [done|]. by rewrite IH. }
  rewrite Happ, read_decimal by done. destruct bs as [|b bs]; cbn; [done|]. by rewrite (Hb b eq_refl).
Qed.

Lemma read_zeros k bs : read_number 0 (replicate k Byte.x30 ++ bs) = read_number 0 bs.
Proof. induction k as [|k IH]; [done|]. exact IH. Qed.

(** The number of a key. *)
Definition key_number (w : Z) (key : bytes) : Z := read_number 0 (drop (if 1000000 <? Z.abs w then 16 else 4) key).

Lemma key_number_key w i : 0 <= i < 10 ^ 20 -> key_number w (user_key w i) = i.
Proof.
  intros Hi. unfold key_number, user_key. destruct (1000000 <? Z.abs w).
  - change (drop 16 _) with (itoa i). by rewrite <- (app_nil_r (itoa i)), read_itoa.
  - rewrite drop_app_length'; [|done]. destruct (w <? 0).
    + apply read_itoa; [done|]. intros b Hb. destruct (_ - _)%nat; [done|]. by injection Hb as <-.
    + rewrite read_zeros. by rewrite <- (app_nil_r (itoa i)), read_itoa.
Qed.

Lemma user_key_inj w i j : 0 <= i < 10 ^ 20 -> 0 <= j < 10 ^ 20 -> user_key w i = user_key w j -> i = j.
Proof. intros Hi Hj E. apply (f_equal (key_number w)) in E. by rewrite !key_number_key in E. Qed.

(** ** Buffers in use *)

(** Every buffer has the size of a value, and only buffers are referred to. *)
Record bufs_ok (y : YCSB) : Prop := {
  bo_size : Forall (fun x => length x = Z.to_nat (valSize y)) (bufs y);
  bo_pool : Forall (fun b => (b < length (bufs y))%nat) (bufPool y);
  bo_db : map_Forall (fun _ b => (b < length (bufs y))%nat) (db y);
}.

Lemma buffer_size y b : bufs_ok y -> (b < length (bufs y))%nat -> length (buffer y b) = Z.to_nat (valSize y).
Proof.
  intros H [x E]%lookup_lt_is_Some_2. unfold buffer. rewrite E. cbn. by eapply (Forall_lookup_1 _ _ _ _ (bo_size _ H)).
Qed.

Lemma go_copy_length dst src : length (go_copy dst src) = length dst.
Proof. unfold go_copy. rewrite length_app, length_take, length_drop. lia. Qed.

(** What a step of the generator leaves: the parameters, and the database unless it is a put. *)
Record kept (y y' : YCSB) : Prop := {
  kp_ok : bufs_ok y';
  kp_params : numKeys y' = numKeys y /\ keySize y' = keySize y /\ valSize y' = valSize y /\ recordCount y' = recordCount y;
  kp_db : db y' = db y;
}.

Lemma pool_get_ok choice y b y' : bufs_ok y -> pool_get choice y = (b, y') -> kept y y' /\ (b < length (bufs y'))%nat /\ (length (bufs y) <= length (bufs y'))%nat.
Proof.
  intros [H1 H2 H3] E. unfold pool_get in E. destruct (choice ≫= _) as [b0|] eqn:Ec; injection E as <- <-.
  - destruct choice as [i|]; [|done]. cbn in Ec. split_and!; [|by eapply (Forall_lookup_1 _ _ _ _ H2)|done].
    split; [|done|done]. split; cbn; [done| |done]. by apply Forall_delete.
  - split_and!; [|cbn; rewrite length_app; cbn; lia|cbn; rewrite length_app; lia]. split; [|done|done]. split; cbn.
    + apply Forall_app. split; [done|]. constructor; [|done]. by rewrite length_replicate.
    + eapply Forall_impl; [exact H2|]. cbn. intros x Hx. rewrite length_app. lia.
    + intros k x Hx. specialize (H3 k x Hx). cbn in H3. rewrite length_app. lia.
Qed.

Lemma set_buffer_ok b bs y : bufs_ok y -> length bs = Z.to_nat (valSize y) -> kept y (set_bufs (<[b := bs]> (bufs y)) y).
Proof.
  intros [H1 H2 H3] Hb. split; [|done|done]. split; cbn; rewrite ?length_insert; try done. by apply Forall_insert.
Qed.

Lemma fill_ok b src y : bufs_ok y -> (b < length (bufs y))%nat -> kept y (fill b src y).
Proof. intros H Hb. apply set_buffer_ok; [done|]. rewrite go_copy_length. by apply buffer_size. Qed.

Lemma flip_ok b y : bufs_ok y -> (b < length (bufs y))%nat -> 0 < valSize y -> exists y', flip_first b y = Some y' /\ kept y y' /\ length (bufs y') = length (bufs y).
Proof.
  intros H Hb Hv. pose proof (buffer_size y b H Hb) as Hl. unfold flip_first. destruct (buffer y b) as [|x rest] eqn:E; [cbn in Hl; lia|].
  eexists. split; [reflexivity|]. split; [|cbn; by rewrite length_insert]. by apply set_buffer_ok.
Qed.

Lemma kept_trans y1 y2 y3 : kept y1 y2 -> kept y2 y3 -> kept y1 y3.
Proof. intros [_ (A1 & A2 & A3 & A4) A5] [B1 (B2 & B3 & B4 & B5) B6]. split; [done|split_and!; congruence|congruence]. Qed.

Lemma put_ok key b y : bufs_ok y -> (b < length (bufs y))%nat -> bufs_ok (pool_put b (db_put key b y)).
Proof. intros [H1 H2 H3] Hb. split; cbn; [done|by constructor|]. by apply map_Forall_insert_2. Qed.

(** ** A run over loaded keys *)

Definition complete (w : Workload) : Prop :=
  0 <= ReadPercent w /\ 0 <= UpdatePercent w /\ 0 <= RMWPercent w /\ ReadPercent w + UpdatePercent w + RMWPercent w = 100.

Record loaded (y : YCSB) : Prop := {
  ld_bufs : bufs_ok y;
  ld_size : 0 < valSize y;
  ld_keys : forall i, 0 <= i < numKeys y -> is_Some (db y !! key_of y i);
}.

(** What the random sources promise, and a database that does not fail. *)
Definition draw_ok (n : Z) (d : draw) : Prop :=
  0 <= op_type d < 100 /\ 0 <= key_idx d < n /\ get_fails d = false /\ put_fails d = false.

Record unchanged (y y' : YCSB) : Prop := {
  un_params : numKeys y' = numKeys y /\ keySize y' = keySize y /\ recordCount y' = recordCount y;
  un_keys : dom (db y') = dom (db y);
}.

Lemma put_loaded y y' b d i : loaded y -> kept y y' -> (b < length (bufs y'))%nat -> put_fails d = false -> 0 <= i < numKeys y ->
  exists y'', put_buffer (key_of y i) b d y' = (y'', Ok tt) /\ loaded y'' /\ unchanged y y''.
Proof.
  intros [H1 H2 H3] [K1 (K2 & K3 & K4 & K5) K6] Hb Hd Hi. unfold put_buffer. rewrite Hd. eexists. split; [reflexivity|].
  pose proof (put_ok (key_of y i) b y' K1 Hb) as Hp. split; split; cbn -[user_key]; try done.
  - by rewrite K4.
  - unfold key_of in *. cbn -[user_key]. rewrite K2, K3, K6. intros j Hj. destruct (H3 j Hj) as [x Hx].
    destruct (decide (user_key (keySize y - 4) i = user_key (keySize y - 4) j)) as [->|Hne]; [by rewrite lookup_insert_eq|by rewrite lookup_insert_ne].
  - rewrite K6, dom_insert_L. destruct (H3 i Hi) as [x Hx]. apply elem_of_dom_2 in Hx. set_solver.
Qed.

Lemma run_op_hits w d y : loaded y -> complete w -> draw_ok (numKeys y) d ->
  exists y', run_op w d y = (y', Ok tt) /\ loaded y' /\ unchanged y y'.
Proof.
  intros Hl (W1 & W2 & W3 & W4) (D1 & D2 & D3 & D4). pose proof Hl as [H1 H2 H3]. unfold run_op. rewrite D3.
  destruct (op_type d <? ReadPercent w); [by exists y|].
  destruct (pool_get (pooled d) y) as [b y1] eqn:Eg. destruct (pool_get_ok _ _ _ _ H1 Eg) as (K1 & Hb & Hn). pose proof (kp_ok _ _ K1) as Hok.
  destruct (Z.ltb_spec (op_type d) (ReadPercent w + UpdatePercent w)) as [Hu|Hu].
  - unfold put_random. rewrite Eg. apply put_loaded; try done; [|cbn; by rewrite length_insert]. by eapply kept_trans, fill_ok.
  - rewrite (proj2 (Z.ltb_lt 0 (RMWPercent w))), (proj2 (Z.ltb_lt (op_type d) _)) by lia. cbn [andb].
    destruct (H3 _ D2) as [v Hv]. rewrite Hv. pose proof (fill_ok b (buffer y1 v) y1 Hok Hb) as K2.
    destruct (flip_ok b (fill b (buffer y1 v) y1)) as (y3 & -> & K3 & Hl3); [apply K2|cbn; by rewrite length_insert|cbn; rewrite (proj1 (proj2 (proj2 (kp_params _ _ K1)))); done|].
    apply put_loaded; try done; [|rewrite Hl3; cbn; by rewrite length_insert]. by eapply kept_trans, kept_trans.
Qed.

(** The standard workloads only touch loaded keys.  When the keys have been loaded and the
    percentages of a workload add up to 100, a run makes its operations without a panic or an
    error, inserts no record, and every key it reads or modifies is there. *)
Theorem run_stays_loaded (w : Workload) (n : nat) (ds : nat -> draw) (y : YCSB)
    (Hw : complete w) (Hl : loaded y) (Hds : forall i, draw_ok (numKeys y) (ds i)) :
  exists y', Run w n ds y = (y', Ok tt) /\ loaded y' /\ recordCount y' = recordCount y /\ dom (db y') = dom (db y).
Proof.
  unfold Run. generalize 0%nat as i. revert y Hl Hds. induction n as [|n IH]; intros y Hl Hds i; cbn [run_loop]; [by exists y|].
  destruct (run_op_hits w (ds i) y Hl Hw (Hds i)) as (y1 & -> & Hl1 & [(U1 & U2 & U3) U4]).
  destruct (IH y1 Hl1) with (i := S i) as (y' & E & Hl' & Hr & Hd); [by rewrite U1|]. exists y'. split_and!; [done|done|congruence|congruence].
Qed.

(** ** Loading *)

Lemma load_loop_ok ds : (forall i, put_fails (ds i) = false) -> forall n i y,
  bufs_ok y -> 0 < valSize y -> numKeys y = Z.of_nat (n + i) -> (forall j, 0 <= j < Z.of_nat i -> is_Some (db y !! key_of y j)) ->
  exists y', load_loop n i ds y = (y', Ok tt) /\ loaded y' /\ numKeys y' = numKeys y /\ recordCount y' = numKeys y.
Proof.
  intros Hds n. induction n as [|n IH]; intros i y H1 H2 Hn Hk; cbn [load_loop].
  - eexists. split; [reflexivity|]. split; [|done]. destruct H1 as [A B C]. split; [by split|done|]. cbn -[user_key]. rewrite Hn. exact Hk.
  - destruct (pool_get (pooled (ds i)) y) as [b y1] eqn:Eg. destruct (pool_get_ok _ _ _ _ H1 Eg) as (K1 & Hb & _).
    pose proof (kept_trans _ _ _ K1 (fill_ok b (random (ds i)) y1 (kp_ok _ _ K1) Hb)) as [K2 (K3 & K4 & K5 & K6) K7]. rewrite Hds.
    destruct (IH (S i) (pool_put b (db_put (key_of y (Z.of_nat i)) b (fill b (random (ds i)) y1)))) as (y' & E & A & B & C).
    + apply put_ok; [done|]. cbn. by rewrite length_insert.
    + cbn in *. lia.
    + cbn in *. lia.
    + unfold key_of in *. cbn -[user_key] in *. rewrite K4, K7. intros j Hj. destruct (decide (user_key (keySize y - 4) (Z.of_nat i) = user_key (keySize y - 4) j)) as [->|Hne].
      * by rewrite lookup_insert_eq.
      * rewrite lookup_insert_ne by done. apply Hk. destruct (decide (j = Z.of_nat i)) as [->|]; [done|lia].
    + exists y'. cbn in B, C, K3. split_and!; [done|done|congruence|congruence].
Qed.

(** All keys are the one buffer of the pool. *)
Lemma load_loop_one ds (x0 : bytes) : (forall i, put_fails (ds i) = false /\ length (random (ds i)) = length x0) -> (forall i, pooled (ds (S i)) = Some 0%nat) ->
  forall n i y x, (0 < i)%nat -> bufPool y = [0%nat] -> bufs y = [x] -> length x = length x0 -> map_Forall (fun _ b => b = 0%nat) (db y) ->
  exists y', load_loop n i ds y = (y', Ok tt) /\ map_Forall (fun _ b => b = 0%nat) (db y') /\
    bufs y' = [match n with O => x | S n => random (ds (n + i)%nat) end].
Proof.
  intros Hds Hp n. induction n as [|n IH]; intros i y x Hi Hpool Hbufs Hx Hdb; cbn [load_loop]; [by eexists|].
  destruct (Hds i) as [Hf Hr]. destruct i as [|i]; [lia|]. unfold pool_get. rewrite (Hp i), Hpool. cbn [mbind option_bind]. cbn [lookup list_lookup delete list_delete].
  rewrite Hf. set (y1 := pool_put _ _).
  assert (bufs y1 = [random (ds (S i))]) as Hb1.
  { cbn -[go_copy]. unfold buffer. cbn -[go_copy]. rewrite Hbufs. cbn. unfold go_copy. rewrite take_ge, drop_ge, app_nil_r by lia. done. }
  destruct (IH (S (S i)) y1 (random (ds (S i)))) as (y' & E & A & B); [lia|done|done|lia| |].
  - cbn -[user_key]. by apply map_Forall_insert_2.
  - exists y'. split_and!; [done|done|]. rewrite B. destruct n as [|n]; [done|]. do 2 f_equal. f_equal. lia.
Qed.

(** Values share their buffer.  [db.Put] keeps the slice it is given and the generator
    gives it back to the pool: when the pool hands it out again, every loaded key ends with
    the value of the last one. *)
Theorem load_aliases (n keySize valSize : Z) (ds : nat -> draw)
    (Hn : 0 < n) (Hv : 0 < valSize)
    (Hds : forall i, put_fails (ds i) = false /\ length (random (ds i)) = Z.to_nat valSize)
    (Hreuse : forall i, pooled (ds (S i)) = Some 0%nat) :
  exists y, Load ds (NewYCSB n keySize valSize) = (y, Ok tt) /\
    forall i, 0 <= i < n -> value_of y (key_of y i) = Some (random (ds (Z.to_nat n - 1)%nat)).
Proof.
  set (y0 := NewYCSB n keySize valSize).
  destruct (load_loop_ok ds (fun i => proj1 (Hds i)) (Z.to_nat n) 0 y0) as (y & E & Hl & Hnk & _); [by repeat constructor|done|cbn; lia|lia|].
  exists y. split; [exact E|]. destruct (Z.to_nat n) as [|m] eqn:Em; [lia|]. cbn [load_loop] in E. unfold pool_get in E.
  replace (pooled (ds 0%nat) ≫= (fun i => bufPool y0 !! i)) with (@None nat) in E by (destruct (pooled (ds 0%nat)); done).
  destruct (Hds 0%nat) as [Hf0 Hr0]. rewrite Hf0 in E. set (y1 := pool_put _ _) in E.
  assert (bufs y1 = [random (ds 0%nat)]) as Hb1.
  { cbn -[go_copy]. unfold buffer, go_copy. cbn. rewrite length_replicate, take_ge, drop_ge, app_nil_r by (rewrite ?length_replicate; lia). done. }
  destruct (load_loop_one ds (random (ds 0%nat))) with (n := m) (i := 1%nat) (y := y1) (x := random (ds 0%nat)) as (y' & E' & A & B); try done.
  - intros i. destruct (Hds i). split; [done|congruence].
  - lia.
  - cbn -[user_key]. apply map_Forall_insert_2; [done|]. apply map_Forall_empty.
  - assert (y' = y) as -> by congruence. intros i Hi. destruct (ld_keys _ Hl i) as [b Hb]; [rewrite Hnk; exact Hi|].
    unfold value_of. rewrite Hb. cbn. rewrite (A _ _ Hb). unfold buffer. rewrite B. cbn [lookup list_lookup default from_option id].
    destruct m as [|m]; [done|]. by replace (m + 1)%nat with (S m - 0)%nat by lia.
Qed.

(** With a new buffer for every value, every key keeps its own. *)
Lemma load_loop_fresh ds : (forall i, put_fails (ds i) = false /\ pooled (ds i) = None) -> forall n i y,
  bufs_ok y -> (forall i, length (random (ds i)) = Z.to_nat (valSize y)) -> Z.of_nat (n + i) <= 10 ^ 20 ->
  (forall j, (j < i)%nat -> value_of y (key_of y (Z.of_nat j)) = Some (random (ds j))) ->
  exists y', load_loop n i ds y = (y', Ok tt) /\ forall j, (j < n + i)%nat -> value_of y' (key_of y' (Z.of_nat j)) = Some (random (ds j)).
Proof.
  intros Hds n. induction n as [|n IH]; intros i y H1 Hr Hn Hk; cbn [load_loop]; [by eexists|].
  destruct (Hds i) as [Hf Hp]. destruct (pool_get (pooled (ds i)) y) as [b y1] eqn:Eg. destruct (pool_get_ok _ _ _ _ H1 Eg) as (K1 & Hb & _).
  pose proof (kept_trans _ _ _ K1 (fill_ok b (random (ds i)) y1 (kp_ok _ _ K1) Hb)) as [K2 (K3 & K4 & K5 & _) K7].
  rewrite Hp in Eg. injection Eg as <- <-. rewrite Hf.
  destruct (IH (S i) (pool_put (length (bufs y)) (db_put (key_of y (Z.of_nat i)) (length (bufs y))
    (fill (length (bufs y)) (random (ds i)) (set_bufs (bufs y ++ [replicate (Z.to_nat (valSize y)) Byte.x00]) y))))) as (y' & E & A).
  - apply put_ok; [done|]. cbn. rewrite length_insert, length_app. cbn. lia.
  - exact Hr.
  - lia.
  - intros j Hj. unfold value_of, key_of, buffer in *. cbn -[user_key go_copy]. destruct (decide (j = i)) as [->|Hne].
    + rewrite lookup_insert_eq. cbn -[go_copy]. rewrite list_lookup_insert_eq by (rewrite length_app; cbn; lia). unfold buffer. cbn -[go_copy].
      rewrite lookup_app_r, Nat.sub_diag by lia. cbn. unfold go_copy. specialize (Hr i). rewrite length_replicate, take_ge, drop_ge, app_nil_r by (rewrite ?length_replicate; lia). done.
    + rewrite lookup_insert_ne by (intros E; apply user_key_inj in E; lia). specialize (Hk j ltac:(lia)).
      destruct (db y !! user_key (keySize y - 4) (Z.of_nat j)) as [x|] eqn:Ex; [|done]. cbn in Hk |- *. specialize (bo_db _ H1 _ _ Ex) as Hx. cbn in Hx.
      rewrite list_lookup_insert_ne by lia. by rewrite lookup_app_l.
  - exists y'. split; [exact E|]. intros j Hj. apply A. lia.
Qed.

Theorem load_fresh (n keySize valSize : Z) (ds : nat -> draw) (Hn : 0 <= n <= 10 ^ 20)
    (Hds : forall i, put_fails (ds i) = false /\ pooled (ds i) = None) (Hr : forall i, length (random (ds i)) = Z.to_nat valSize) :
  exists y, Load ds (NewYCSB n keySize valSize) = (y, Ok tt) /\
    forall i, 0 <= i < n -> value_of y (key_of y i) = Some (random (ds (Z.to_nat i))).
Proof.
  destruct (load_loop_fresh ds Hds (Z.to_nat n) 0 (NewYCSB n keySize valSize)) as (y & E & H); [by repeat constructor|done|lia|lia|].
  exists y. split; [exact E|]. intros i Hi. specialize (H (Z.to_nat i) ltac:(lia)). by rewrite Z2Nat.id in H by lia.
Qed.

(** ** Witnesses *)

(** Values of one byte; the pool hands back what it has. *)
Definition counting (i : nat) : draw := mkDraw 60 0 (Some 0%nat) [z2b (Z.of_nat i)] false false.

Lemma load_aliases_witness : exists y, Load counting (NewYCSB 3 8 1) = (y, Ok tt) /\ value_of y (key_of y 0) = Some [Byte.x02].
Proof.
  destruct (load_aliases 3 8 1 counting) as (y & E & H); [lia|lia|done|done|]. exists y. split; [exact E|]. rewrite (H 0) by lia. reflexivity.
Defined.

Lemma run_stays_loaded_witness : exists y y', Load counting (NewYCSB 3 8 1) = (y, Ok tt) /\ Run WorkloadF 5 counting y = (y', Ok tt) /\ recordCount y' = 3.
Proof.
  destruct (load_loop_ok counting (fun _ => eq_refl) 3 0 (NewYCSB 3 8 1)) as (y & E & Hl & Hn & Hc); [by repeat constructor|cbn; lia|done|lia|].
  destruct (run_stays_loaded WorkloadF 5 counting y) as (y' & E' & _ & Hr & _); [done|exact Hl|intros i; rewrite Hn; done|].
  exists y, y'. split; [exact E|]. split; [exact E'|]. rewrite Hr, Hc. reflexivity.
Defined.
